(* ===== verification/_CoqProject ===== *)
-Q . S2P
Prelude.v
Text.v
Stack.v
StackTopo.v
StackOrder.v
Changeset.v
NodeIds.v
PrInsight.v
StackNodes.v
StackRepoint.v
StackAdopt.v
StackInv.v
StackWriters.v
StackRefine.v
StackSpec.v
Assess.v
PullBase.v
Graph.v
GraphSpec.v
SessionFiles.v
Engine.v
Controller.v
Restart.v
SessionTable.v
Supervisor.v
Policy.v
RpcStatus.v
Framing.v
Utf8.v
Json.v
RpcBridge.v
Connect.v
RpcClient.v
RpcServer.v
BuildGraph.v
BuildWaves.v
BuildCache.v
BuildExec.v
HostPattern.v
Worktree.v
AtomicFile.v
Tools.v
ToolsSpec.v
Template.v
Tasks.v
TaskOffsets.v
Credentials.v
CredSync.v
CredFleet.v
CredPublish.v
Vault.v
VaultSpec.v
VaultLocks.v
VaultSessions.v
VaultSessionsSpec.v
NotifyLog.v
NotifySpec.v
NotifyCases.v
Capture.v
CaptureSpec.v
ScreenText.v
CapturePaging.v
ScreenDump.v
ScreenDumpSpec.v
TerminalBridge.v
TerminalBridgeSpec.v
TerminalService.v
TerminalServiceSpec.v
ProviderQueue.v
ActivityDelta.v
ActivityDeltaSpec.v
SessionRoom.v
SessionMirror.v
SessionRoomSpec.v
SessionSyncSpec.v
SessionSyncCases.v
