(* ===== verification/Prelude.v ===== *)
(** * tddy-coder: a verification development

    tddy-coder drives coding agents through workflows and stacks of dependent pull
    requests. This library models the parts of its Rust packages ([src/packages/])
    that carry its own decisions - the plan of a PR stack and everything that writes
    it, the orchestrator that acts on it, the workflow graph with its engine and
    controller, the supervisor that owns the processes, the RPC layer between them,
    the build graph with its cache, the tool registry, background tasks, the
    credential vaults with their exchange between daemons, the project notification log, the
    terminals with their streams and who drives them, the mirrors of a session's checkout,
    and the atomic file writes most of them store their state with - and proves what makes them correct. Definitions are executable and follow the source function by
    function; errors are values ([res]), a Rust panic is a value too ([Panic]), and
    code that changes state and can fail is a function in the monad [io], in which a
    write made before an error stays made.

    ** How the program is put together

    An orchestrator session has a directory with a [changeset.yaml]. Its [stack] field
    is a DAG of planned pull requests ([tddy-changeset], [changeset/stack.rs]). Tools
    and RPC handlers edit the plan through [tddy-pr-stack/src/stack_ops/]: each reads
    the stack, validates, and writes the file again atomically. Some then bring git
    and GitHub in line with the plan. On every tick [assess.rs] turns the stack and
    the live state of child sessions and pull requests into one next action. Child
    sessions run recipes: graphs of tasks ([tddy-graph]) stepped by [FlowRunner], run
    to their next stop by [WorkflowEngine] and, when the agent chooses its own way,
    moved by [WorkflowController] ([tddy-workflow-engine]). On a host,
    [tddy-supervisor] starts and restarts the services, spawns sessions for them
    under a policy, reaps them and shuts everything down. The processes talk over one
    RPC layer: [tddy-rpc] multiplexes calls over any byte transport, [tddy-connectrpc]
    serves the same services over HTTP. Agents' tools are defined in YAML files
    ([tddy-actions]), resolved on the host and launched with a rendered argv; build
    actions are ordered, cached and run by [tddy-build]; anything long-running is a task
    of [tddy-task]. A user's provider tokens are sealed in a vault file
    ([tddy-credentials]) that a passphrase or a browser's unlock key opens, and daemons of
    one group exchange them ([tddy-credential-sync]). What a project's sessions want their
    operator to see is kept in a log that agents read by cursor
    ([tddy-session-activity]). A session's terminals are captured as they write
    ([tddy-task]'s [terminal_capture.rs]) and streamed to any number of screens, one of which
    drives them ([tddy-terminal-rpc], [tddy-cli-sessions]). A session's room measures its
    checkout at intervals, keeps the patch of every tick ([tddy-daemon-livekit]'s
    [session_room.rs]) and tells which of the agent's calls it covers; mirrors on other hosts
    apply the patches and restore themselves from git when they cannot
    ([tddy-session-sync]). State on disk is replaced through [tddy-session-store]'s
    [atomic_file.rs].

    ** Files and what they correspond to

    - [Prelude]: results, the [io] monad and its notations, machine integers, stable
      sorting, lemmas on lists, tactics, the hint database [supervisor].
      [Text]: the [str] and [Path] operations the code uses, on UTF-8 bytes.
    - [Stack]: [changeset/stack.rs], the pure part. [StackTopo]: [topo_order] (Kahn's
      algorithm) returns a topological order and is refused exactly for a repeated id
      or a cycle. [StackOrder]: [display_order], and [stack_ops/order.rs].
    - [Changeset]: [changeset/model.rs], [io.rs], the state updates of [merge.rs]; the
      disk is a map from paths to bytes and [serde_yaml] is the class [YamlCodec].
      [Worktree]: the context merging of [merge.rs], the worktree's directory name and
      [branch_worktree_intent.rs], over the class [Lowercase].
    - [NodeIds]: [next_free_node_id]. [StackNodes]: [stack_ops/nodes.rs], [mod.rs] and
      the child links of [changeset/stack.rs]. [StackRepoint]: [repoint.rs] and
      [set_stack_node_parents], over the class [Remote] (git and GitHub).
      [StackAdopt]: [seed.rs] and [adopt.rs].
    - [StackInv], [StackWriters], [StackRefine], [StackSpec]: the plan's invariant
      [stack_ok]; the abstract specification, a step relation [writer_step] on stacks;
      the refinement of every stored operation to it; and what each operation accepts
      and changes.
    - [PrInsight]: [pr_insight.rs] and the data of [tddy-github/src/pr_api.rs], over
      the class [PrInsightApi]. [Assess]: [assess.rs]. [PullBase]: [pull_base.rs], over
      the record of operations [WorktreeGit].
    - [Graph], [GraphSpec]: [tddy-graph/src/]; the runner is proved against the class
      [SessionStorage]. [SessionFiles]: [FileSessionStorage] as an instance of it,
      over a file system and a codec.
    - [Engine]: [tddy-workflow-engine/src/workflow/engine.rs], [recipe.rs],
      [session_continue.rs], [goal_conditions.rs]. [Controller]: [controller.rs].
    - [Restart]: [tddy-supervisor/src/restart.rs], [service.rs], [services.rs].
      [SessionTable]: the table of [supervisor/session_table.rs]. [Supervisor]:
      [supervisor.rs], [service_restart.rs], the session handlers, [authz.rs].
      [Policy]: [policy.rs], [config/spawn_policy.rs].
    - [RpcStatus], [Framing]: [tddy-rpc/src/status.rs], [transport.rs], and the read loop
      of [tddy-stdio/src/endpoint.rs], over the class [FrameSource]. [Utf8]: UTF-8
      validity and lossy decoding. [RpcBridge]:
      [message.rs], [bridge.rs]. [RpcClient], [RpcServer]: the wire records,
      [envelope.rs], [client_engine.rs], [server_engine.rs]. [Json], [Connect]: JSON
      texts (class [JsonText]), [tddy-connectrpc/src/] and the HTTP client
      [tddy-session-tool-client/src/daemon_http_rpc.rs].
    - [BuildGraph], [BuildWaves]: [tddy-build/src/graph.rs] with its data, over the class
      [ConfigReader]. [BuildCache]: lowering and cache keys ([lower.rs], [plugin.rs],
      [cache.rs]). [BuildExec]: the cache and the executor, over the class [BuildHost].
    - [HostPattern], [Tools], [ToolsSpec], [Template]: [tddy-actions/src/tool/] - host
      patterns, the registry and its resolution over the classes [ToolYaml] and
      [ToolHost], argv templates.
    - [Tasks], [TaskOffsets]: [tddy-task/src/registry.rs] and [task.rs].
    - [AtomicFile]: [tddy-session-store/src/atomic_file.rs], one system call, or a few
      that belong together, at a time.
    - [Credentials]: [tddy-credentials/src/record.rs] and [kdf.rs], over the class
      [SealPrims] (the AEAD and HMAC). [Vault], [VaultSpec], [VaultLocks]: [vault.rs] and
      [vault/], over [VaultPorts]; the sealed file refines the abstract vault
      [AbstractVault], and which secrets open it. [VaultSessions], [VaultSessionsSpec]:
      [sessions.rs] and [sessions/], the open vaults and the sign-ins waiting for one.
    - [CredSync], [CredFleet], [CredPublish]: [tddy-credential-sync/src/], over the class
      [SyncPorts]; the step relation of a fleet of daemons and its convergence, and what a
      publication sends and records.
    - [NotifyLog], [NotifySpec], [NotifyCases]: [project_notification_log.rs] and
      [storage.rs] of [tddy-session-activity/src/] with the paging of
      [tddy-tool-engine/src/session_follow.rs], over the class [LogPorts]; the step relation
      [log_step] of deliveries, restarts and reads; the wait's wake-ups and an instance.
    - [Capture], [CaptureSpec], [ScreenText], [CapturePaging]: [terminal_capture.rs],
      [terminal_capture/paging.rs] and [capture_recording.rs] of [tddy-task/src/], over the
      class [Screen] (the terminal emulator): the ring against the whole output, the text the
      screen is fed, pages and recordings. [ScreenDump], [ScreenDumpSpec]: [screen_dump.rs]
      and snapshots; what a dump paints and what its rewriting paints.
    - [TerminalBridge], [TerminalBridgeSpec]: [tddy-terminal-rpc/src/bridge.rs] and
      [session.rs] with the terminals behind them, as steps that interleave with the
      terminal's output. [TerminalService], [TerminalServiceSpec]: [service.rs] and the lease
      of [tddy-cli-sessions/src/cli_session_manager/control_lease.rs].
    - [ActivityDelta], [ActivityDeltaSpec]: the ring of patches of
      [tddy-daemon-livekit/src/session_room.rs], the reading of a patch's sections, and the
      frames a patch is sent in. [SessionRoom], [SessionRoomSpec]: the ticks of the room's
      loop, in two halves, and [tddy-changeset/src/agent_activity.rs]. [SessionMirror]:
      [tddy-session-sync/src/], over the class [MirrorGit]. [SessionSyncSpec],
      [SessionSyncCases]: room and mirror as a step relation, an instance and its runs.
    - [ProviderQueue]: [tddy-discovery/src/subagent_runtime/provider_queue.rs], one call at a
      time per model endpoint, over the class [FairSemaphore] (tokio's semaphore).

    ** What the theorems show

    - The plan. Every stack reachable through the writers of [stack_ops] has unique ids, no dangling
      parent and no cycle, so it always has a topological order; each stored writer
      takes exactly one abstract step or leaves the file alone, and the writers that
      also talk to git and GitHub keep the invariant whatever the remote answers.
      Deletion, moves, additions and updates change exactly what they name. The reading
      order is a total order that respects dependencies where no number was given.
    - The orchestrator. It merges only an open pull request whose parents are merged,
      with approval; spawns only an unspawned node whose parents are spawned; acts on
      failures first; and with nothing failed it spawns while a node is unspawned and
      merges once every node has its pull request. A pull from base touches nothing
      when refused and force-pushes only under a lease it read before.
    - Workflows. The runner brackets hooks around the task on every path and saves at
      most once, last; a finished step leaves the session where it says; a
      workflow whose edges and jumps descend in a rank reaches its next stop; a resumed session starts at the right goal. The
      controller's state, the stored state and the events agree after any sequence of
      calls.
    - The supervisor. In any interleaving of starts, exits, timers and requests, as
      long as a start is requested only for an idle service, the recorded children are
      the real ones, signals go only to them, a delayed kill reaches only the session it
      was meant for, statuses are truthful and bounded in number, and backoff follows its
      policy without overflow. The policy grants only what is listed, binaries in any
      spelling with the components of a listed path; limits are never raised, scopes stay under their base.
    - RPC. Frames survive any cut of the byte stream; a call's receiver yields exactly
      what its handler answered, over the engines and over Connect, with the handler's
      status, among any other traffic (over the engines a complete body loses an empty
      last chunk, and without a chunk it never ends); responses go only to the peer and the call that
      asked; a cut stream is an error; a departed peer leaves nothing behind.
    - Builds. The order holds exactly the dependencies, each first; waves respect every
      overlap; a cached result is served only after a successful run that started
      from what has the same key, with its outputs in place; and a build takes every action
      once, dependencies first.
    - Tools and tasks. A validated registry is well-formed and a resolved closure is
      complete, ordered and unambiguous; an argv is the entries its template comes down
      to. Tasks move forward only, unfinished ones stay listed, finished ones are
      bounded in number and retired.
    - Credentials. A vault is a map from accounts to entries with a bounded list of unlock
      keys, whichever writes fail; exactly its passphrase, its subject and the keys of that
      list open it. Opening one loses no credential that waits for it, choosing its
      passphrase takes a sign-in nothing has used, and refreshes that race with one key end
      with one key while nothing else writes the vault. Daemons that have exchanged their vaults agree on the latest write of
      every account, as long as clocks advance on each of them and no two writes tie, and a secret is sent only to an admitted peer that alone can open it.
    - Notifications. A reader that passes cursors back gets every record it may see once
      and in order, across restarts and stops within a write that cut no character, or is
      told how many it lost, as long as a failed append leaves nothing behind;
      no wake-up of a wait is lost.
    - Terminals. A client that attaches late ends in the application's mouse modes and sees
      the text of the whole output, however it was cut and evicted; a snapshot stream loses
      and repeats nothing, a reconnect is caught up to the tip while nothing is written during its
      open, a recording pages as the live terminal did, the repaint paints the dump, and a screen that lost control never types
      or resizes again.
    - Mirrors. A mirror never claims a tick whose changes it lacks, whatever is lost,
      repeated or restarted, as long as git succeeds and no handler has failed; at the newest tick it has the session's tree. The ring serves
      exactly the newest patches, and the slices of a patch divide it among the calls.
    - Model endpoints. At most one call has an endpoint, in the order they asked for it; one
      that gives up leaves nothing behind and no wait is lost.
    - Files. Whatever fails, in any interleaving and after a power loss, a reader finds
      the old or a whole new file.
    - Some theorems show behaviour the code should not have: the lease taken after a
      rebase, the id chosen before the second read, start and stop requests during a
      backoff, a malformed frame that stops a connection, a reopened call that is
      absorbed by the old one, environments with one cache key, a failed dependency that
      is not reported, a signal to a pid that is gone, an acknowledged offset that
      goes back, a deletion lost within the second of its write, a group proof that can
      be replayed, a notification lost behind a failed append, a log that a character cut
      in two keeps from opening, output lost between a catch-up and its subscription or at
      the exit of the child, a lease nothing releases and a first claim nobody hears of; a
      mirror that stops for a patch that aged out, restores itself for a patch of nothing,
      ignores the ticks of a room that was opened again, keeps a deleted file, or claims a
      tick over an older tree; and changes of a checkout that are in no patch.

    ** Bounds and fuel

    [topo_loop] has one unit of fuel per node and is shown never to run out; so has
    [numbering_loop] per remaining node. [root_walk] is bounded in the source itself
    by the number of comments. [run_loop] has no bound in the source; it terminates
    with the rank of the start goal plus one on every graph whose edges, and the
    jumps of its tasks, descend in a rank, and with less fuel it answers that it has not finished, never a wrong result.
    The searches of [BuildGraph] and [Tools] have one unit of fuel per target or tool and
    one or two more, [kahn_loop] one per action, [substitute_loop] one per character; each
    is shown to be enough. A call of [AtomicFile] ends within the length of its contents
    plus eight steps. The loops over a dump ([lex_loop], [write_segment_loop],
    [blank_run]) and over a chunk's text ([screen_text]) have their input's length, which is
    shown to be enough; a catch-up ends within the bytes it has left.
    Unsigned integers are [N] with their bound; a sum that can exceed it is written
    out for both build profiles (a panic, or wrap-around); the counts of [ScreenDump] are
    those of the release profile, which wrap around.

    ** Parameters

    Code outside the repository is a parameter: [serde_yaml], [serde_json] ([LogText] adds
    that a line of JSON is one line and no proper beginning of it reads as one), the file
    system, git, GitHub, [Path::canonicalize], the kernel's [openat2]. What is assumed
    of a codec is that decoding undoes encoding; the other parameters are unconstrained
    unless a theorem names what it needs, and then a concrete instance shows it can be
    met. SHA-256 is any function where only its use matters; a [HashMap]'s order is any
    permutation; version-7 uuids are new. The AEAD opens what it sealed ([SealPrims]);
    where secrecy matters, seals and derivations are ideal ([IdealSeals], [IdealArgon]): they
    open under the key and the associated data they were made with and no other, and
    distinct inputs give distinct keys. What the generator draws is an argument. Nothing in
    the repository calls [receive] yet: its caller retains what it is answered
    ([RetainingCaller]). The supervisor's kernel returns no pid of an unreaped child from a
    fork and reports each exit once. The screen model takes its text in parts ([ScreenLaws]);
    a probe's pen changes on pen sequences and characters drawn in cells have a width
    ([ProbeLaws]); lease tokens are new; tokio's semaphore is
    fair ([FairSemaphore]). Git takes a patch of two trees exactly where the files it changes
    are as in the first, and moves a checkout as its commands are documented to
    ([MirrorGit]).

    ** What is not modelled

    Concurrency below the await points and system calls (two threads inside one
    lock-free section, [AppliedOffset] apart), log output, and prompt texts. The user
    interfaces, agents' backends, sandboxes, media, code analysis and the daemon's
    glue drive external systems. The actions of a build's
    wave are taken one after another, and each call of the vault sessions is one step. Left
    out as well: the writers of the plan outside [stack_ops], the other session services, the registry
    of rooms, and the concrete recipes of [tddy-workflow-recipes].
*)

From Stdlib Require Ascii.
From stdpp Require Export base option list strings gmap pretty relations sorting.
Export Ascii.AsciiSyntax.
Delimit Scope char_scope with char.

(** Lemmas of the supervisor that close its invariants side goals. *)
Create HintDb supervisor.


(** ** Results, panics and the state-and-error monad *)

(** What a Rust function returns: a value, a typed error, or a panic. *)
Inductive res (E A : Type) : Type :=
| Ok (a : A)
| Err (e : E)
| Panic.
Arguments Ok {E A} a.
Arguments Err {E A} e.
Arguments Panic {E A}.

#[global] Instance res_eq_dec {E A} `{EqDecision E, EqDecision A} : EqDecision (res E A).
Proof. solve_decision. Defined.

Definition res_bind {E A B} (m : res E A) (k : A -> res E B) : res E B :=
  match m with
  | Ok a => k a
  | Err e => Err e
  | Panic => Panic
  end.

Definition map_err {E F A} (f : E -> F) (m : res E A) : res F A :=
  match m with
  | Ok a => Ok a
  | Err e => Err (f e)
  | Panic => Panic
  end.

(** [Option::ok_or_else]. *)
Definition ok_or {E A} (o : option A) (e : E) : res E A :=
  match o with
  | Some a => Ok a
  | None => Err e
  end.

Definition is_ok {E A} (m : res E A) : bool :=
  match m with Ok _ => true | _ => false end.

(** Stateful code that can fail: the state survives an error, so that a write
    made before a failing call is still there after it. *)
Definition io (W E A : Type) : Type := W -> res E A * W.

Definition io_ret {W E A} (a : A) : io W E A := fun w => (Ok a, w).

Definition io_bind {W E A B} (m : io W E A) (k : A -> io W E B) : io W E B :=
  fun w =>
    match m w with
    | (Ok a, w') => k a w'
    | (Err e, w') => (Err e, w')
    | (Panic, w') => (Panic, w')
    end.

(** A pure fallible computation used inside a stateful one (the [?] operator). *)
Definition io_lift {W E A} (r : res E A) : io W E A := fun w => (r, w).

Definition io_map_err {W E F A} (f : E -> F) (m : io W E A) : io W F A :=
  fun w => let '(r, w') := m w in (map_err f r, w').

(** [match m { Ok(_) | Err(_) => ... }]: run [m], keep its outcome as a value. *)
Definition io_catch {W E F A} (m : io W E A) : io W F (E + A) :=
  fun w =>
    match m w with
    | (Ok a, w') => (Ok (inr a), w')
    | (Err e, w') => (Ok (inl e), w')
    | (Panic, w') => (Panic, w')
    end.

Declare Scope io_scope.
Delimit Scope io_scope with io.
Notation "'let!' x := m 'in' k" := (io_bind m (fun x => k))
  (at level 10, x pattern, m at level 100, k at level 200) : io_scope.
Notation "m ;; k" := (io_bind m (fun _ => k))
  (at level 100, k at level 200, right associativity) : io_scope.
Notation "'let?' x := m 'in' k" := (res_bind m (fun x => k))
  (at level 10, x pattern, m at level 100, k at level 200) : io_scope.

Lemma res_bind_Ok {E A B} (m : res E A) (k : A -> res E B) b :
  res_bind m k = Ok b <-> exists a, m = Ok a /\ k a = Ok b.
Proof. destruct m; simpl; naive_solver. Qed.

Lemma io_bind_Ok {W E A B} (m : io W E A) (k : A -> io W E B) w b w' :
  io_bind m k w = (Ok b, w') <-> exists a w1, m w = (Ok a, w1) /\ k a w1 = (Ok b, w').
Proof. unfold io_bind. destruct (m w) as [[]]; naive_solver. Qed.

Lemma io_bind_ext {W E A B} (m : io W E A) (k k' : A -> io W E B) w :
  (forall a w', k a w' = k' a w') -> io_bind m k w = io_bind m k' w.
Proof. intros Hk. unfold io_bind. by destruct (m w) as [[]]. Qed.

Lemma map_err_Ok {E F A} (f : E -> F) (m : res E A) a :
  map_err f m = Ok a <-> m = Ok a.
Proof. destruct m; simpl; naive_solver. Qed.

Lemma io_map_err_Ok {W E F A} (f : E -> F) (m : io W E A) w a w' :
  io_map_err f m w = (Ok a, w') <-> m w = (Ok a, w').
Proof. unfold io_map_err. destruct (m w) as [[]]; simpl; naive_solver. Qed.

Lemma ok_or_Ok {E A} (o : option A) (e : E) a : ok_or o e = Ok a <-> o = Some a.
Proof. destruct o; simpl; naive_solver. Qed.

(** ** Machine integers *)

(** Unsigned integers are [N] with their bound; [usize] positions and lengths
    of vectors, which the allocator bounds, are [nat]. *)
Definition u32_max : N := 4294967295.
Definition u64_max : N := 18446744073709551615.

Definition u32_saturating_add (a b : N) : N := N.min (a + b) u32_max.

(** [a + b] on [u32]: a panic when overflow checks are compiled in (the dev
    profile), two's-complement wrap-around otherwise (the release profile). *)
Definition u32_add {E} (overflow_checks : bool) (a b : N) : res E N :=
  if decide (a + b <= u32_max)%N then Ok (a + b)%N
  else if overflow_checks then Panic
  else Ok ((a + b) mod 4294967296)%N.

Lemma u32_add_fits {E} oc a b :
  (a + b <= u32_max)%N -> u32_add (E:=E) oc a b = Ok (a + b)%N.
Proof. intros. unfold u32_add. by rewrite decide_True. Qed.

(** ** Stable sorting, [slice::sort_by_key] *)

Section sort_by.
Context {A : Type} (leb : A -> A -> bool).

Fixpoint insert_by (x : A) (l : list A) : list A :=
  match l with
  | [] => [x]
  | y :: l' => if leb x y then x :: y :: l' else y :: insert_by x l'
  end.

Fixpoint sort_by (l : list A) : list A :=
  match l with
  | [] => []
  | x :: l' => insert_by x (sort_by l')
  end.

Lemma insert_by_Permutation x l : insert_by x l ≡ₚ x :: l.
Proof.
  induction l as [|y l IH]; simpl; [done|].
  destruct (leb x y); [done|]. rewrite IH. apply perm_swap.
Qed.

Lemma sort_by_Permutation l : sort_by l ≡ₚ l.
Proof.
  induction l as [|x l IH]; simpl; [done|]. by rewrite insert_by_Permutation, IH.
Qed.

Context (leb_total : forall x y, leb x y = true \/ leb y x = true).
Context (leb_trans : forall x y z, leb x y = true -> leb y z = true -> leb x z = true).

Notation le := (fun x y => leb x y = true).

Lemma insert_by_sorted x l : StronglySorted le l -> StronglySorted le (insert_by x l).
Proof.
  induction 1 as [|y l Hl IH Hy]; simpl; [by repeat constructor|].
  destruct (leb x y) eqn:Hxy.
  - constructor; [by constructor|]. constructor; [done|].
    eapply Forall_impl; [done|]. simpl. eauto.
  - constructor; [done|]. rewrite insert_by_Permutation.
    constructor; [|done]. destruct (leb_total x y); congruence.
Qed.

Lemma sort_by_sorted l : StronglySorted le (sort_by l).
Proof.
  induction l; simpl; [constructor|]. by apply insert_by_sorted.
Qed.

(** A list that is already in order is left as it is. *)
Lemma sort_by_id l : StronglySorted le l -> sort_by l = l.
Proof.
  induction 1 as [|y l Hl IH Hy]; simpl; [done|]. rewrite IH.
  destruct l as [|z l]; [done|]. simpl. inversion Hy; subst. by rewrite H1.
Qed.
End sort_by.

(** Two orderings of one list that are sorted for an antisymmetric key agree. *)
Lemma sorted_unique {A} (le : A -> A -> Prop) (l1 l2 : list A) :
  (forall x y, x ∈ l1 -> y ∈ l1 -> le x y -> le y x -> x = y) ->
  StronglySorted le l1 -> StronglySorted le l2 -> l1 ≡ₚ l2 -> l1 = l2.
Proof.
  intros Hanti H1. revert l2. induction H1 as [|x l1 H1 IH Hx]; intros l2 H2 Hp.
  { symmetry in Hp. by apply Permutation_nil_r in Hp. }
  destruct H2 as [|y l2 H2 Hy].
  { by apply Permutation_nil_r in Hp. }
  assert (x = y) as <-.
  { assert (x ∈ y :: l2) as Hxi by (rewrite <- Hp; left).
    assert (y ∈ x :: l1) as Hyi by (rewrite Hp; left).
    apply elem_of_cons in Hxi as [->|Hxi]; [done|].
    pose proof Hyi as Hyi'.
    apply elem_of_cons in Hyi as [->|Hyi]; [done|].
    rewrite Forall_forall in Hx, Hy.
    apply Hanti; [left|done|by apply Hx|by apply Hy]. }
  f_equal. apply IH; [|done|by apply Permutation_cons_inv in Hp].
  intros ?? Hxin Hyin. apply Hanti; by right.
Qed.

(** ** Lists *)

Lemma filter_ext_in {A} (P Q : A -> Prop) `{forall x, Decision (P x), forall x, Decision (Q x)} (l : list A) :
  (forall x, x ∈ l -> (P x <-> Q x)) -> filter P l = filter Q l.
Proof.
  induction l as [|x l IH]; intros Hiff; [done|]. rewrite !filter_cons.
  rewrite IH by (intros; apply Hiff; by right).
  specialize (Hiff x (list_elem_of_here _ _)). repeat case_decide; tauto.
Qed.

Lemma filter_all_in {A} (P : A -> Prop) `{forall x, Decision (P x)} (l : list A) :
  (forall x, x ∈ l -> P x) -> filter P l = l.
Proof.
  induction l as [|x l IH]; intros Hl; [done|]. rewrite filter_cons, decide_True by (apply Hl; left).
  f_equal. apply IH. intros. apply Hl. by right.
Qed.

Lemma filter_fmap_in {A B} (f : A -> B) (P : B -> Prop) `{forall x, Decision (P x)} (l : list A) :
  filter P (f <$> l) = f <$> filter (fun x => P (f x)) l.
Proof.
  induction l as [|x l IH]; [done|]. rewrite fmap_cons, !filter_cons. case_decide; [|done].
  rewrite fmap_cons. by rewrite IH.
Qed.

Lemma fmap_id_in {A} (f : A -> A) (l : list A) : (forall x, x ∈ l -> f x = x) -> f <$> l = l.
Proof.
  induction l as [|x l IH]; intros Hf; [done|]. rewrite fmap_cons.
  rewrite Hf by left. f_equal. apply IH. intros. apply Hf. by right.
Qed.

Lemma fmap_ext_in {A B} (f g : A -> B) (l : list A) : (forall x, x ∈ l -> f x = g x) -> f <$> l = g <$> l.
Proof.
  induction l as [|x l IH]; intros Hf; [done|]. rewrite !fmap_cons.
  rewrite Hf by left. f_equal. apply IH. intros. apply Hf. by right.
Qed.

(** ** Finite relations *)

Lemma StronglySorted_irrefl_NoDup {A} (R : relation A) l :
  (forall x, ~ R x x) -> StronglySorted R l -> NoDup l.
Proof.
  intros Hirr. induction 1 as [|x l _ IH Hx]; constructor; [|done].
  rewrite Forall_forall in Hx. intros ?%Hx. by eapply Hirr.
Qed.

(** A finite set in which every element has a predecessor holds a cycle. *)
Lemma finite_no_source {A} `{Countable A} (R : relation A) (X : gset A) x0 :
  x0 ∈ X -> (forall x, x ∈ X -> exists y, y ∈ X /\ R y x) -> ~ (forall x, ~ tc R x x).
Proof.
  intros Hx0 Hpred Hirr.
  assert (forall k, exists l, length l = S k /\ (forall z, z ∈ l -> z ∈ X) /\
            StronglySorted (tc R) l) as Hchain.
  { induction k as [|k (l & Hlen & Hsub & Hs)].
    - exists [x0]. split; [done|]. split; [set_solver|by repeat constructor].
    - destruct l as [|x l]; [done|]. destruct (Hpred x) as (y & Hy & Hyx); [set_solver|].
      exists (y :: x :: l). split; [by rewrite <- Hlen|]. split; [set_solver|].
      constructor; [done|]. apply StronglySorted_inv in Hs as [_ Hs].
      constructor; [by apply tc_once|].
      eapply Forall_impl; [done|]. intros z Hz. by eapply tc_l. }
  destruct (Hchain (size X)) as (l & Hlen & Hsub & Hs).
  apply StronglySorted_irrefl_NoDup in Hs; [|done].
  assert (size (list_to_set l : gset A) <= size X) as Hle.
  { apply subseteq_size. intros z. rewrite elem_of_list_to_set. auto. }
  rewrite size_list_to_set in Hle by done. lia.
Qed.

(** A duplicate-free list inside another of no greater length is a permutation of it. *)
Lemma NoDup_incl_Permutation {A} `{!EqDecision A} (l1 l2 : list A) :
  NoDup l1 -> (forall x, x ∈ l1 -> x ∈ l2) -> length l2 <= length l1 -> l1 ≡ₚ l2.
Proof.
  intros Hnd Hsub Hlen. apply submseteq_length_Permutation; [|done].
  by apply NoDup_submseteq.
Qed.

(** A list in which the [R]-successors of an element come before it: the order a
    depth-first search finishes the nodes in. *)
Section deps_first.
Context {A : Type} (R : relation A).

Definition deps_first (l : list A) : Prop :=
  forall l1 x l2, l = l1 ++ x :: l2 -> forall y, R x y -> y ∈ l1.

Lemma deps_first_nil : deps_first [].
Proof. intros l1 x l2 Heq. by destruct l1. Qed.

Lemma deps_first_closed l x y : deps_first l -> x ∈ l -> R x y -> y ∈ l.
Proof.
  intros Hd Hx Hxy. apply list_elem_of_split in Hx as (l1 & l2 & ->).
  apply elem_of_app. left. by eapply Hd.
Qed.

Lemma deps_first_reach l x y : deps_first l -> x ∈ l -> rtc R x y -> y ∈ l.
Proof. intros Hd Hx Hxy. induction Hxy; [done|]. eauto using deps_first_closed. Qed.

Lemma deps_first_snoc l x : deps_first l -> (forall y, R x y -> y ∈ l) -> deps_first (l ++ [x]).
Proof.
  intros Hd Hx l1 z l2 Heq y Hy. destruct l2 as [|w l2 _] using rev_ind.
  - apply app_inj_tail in Heq as [<- <-]. by apply Hx.
  - rewrite app_comm_cons, app_assoc in Heq. apply app_inj_tail in Heq as [-> _]. by eapply Hd.
Qed.

Lemma deps_first_acyclic l x : NoDup l -> deps_first l -> x ∈ l -> ~ tc R x x.
Proof.
  intros Hnd Hdf Hx Hcyc. apply list_elem_of_split in Hx as (l1 & l2 & ->).
  apply NoDup_app in Hnd as (_ & Hdisj & _). apply (Hdisj x); [|left].
  revert Hcyc. apply (tc_ind_r (fun y => y ∈ l1)).
  - intros y. by eapply Hdf.
  - intros y z _ Hyz (m1 & m2 & ->)%list_elem_of_split. apply elem_of_app. left.
    eapply (Hdf m1 y (m2 ++ x :: l2)); [by rewrite <- app_assoc|done].
Qed.
End deps_first.

(** A [BTreeMap]'s entries in key order. *)
Definition btree_iter {V} (m : gmap string V) : list (string * V) :=
  sort_by (fun x y => bool_decide (String.le x.1 y.1)) (map_to_list m).

(** The suffix of a stack that starts at [id]. *)
Fixpoint stack_from (id : string) (on_stack : list string) : option (list string) :=
  match on_stack with
  | [] => None
  | x :: rest => if decide (x = id) then Some on_stack else stack_from id rest
  end.

Lemma stack_from_elem id s : is_Some (stack_from id s) <-> id ∈ s.
Proof.
  induction s as [|x s IH]; simpl.
  - split; [by intros []|by intros ?%not_elem_of_nil].
  - rewrite elem_of_cons, <- IH. case_decide; subst; [naive_solver|]. split; [naive_solver|].
    intros [->|]; done.
Qed.

(** Closes a decidable ground goal by evaluating its decision procedure. *)
Ltac by_decide := apply (bool_decide_unpack _); vm_compute; exact I.

(** Case split on a membership in an explicit list. *)
Ltac case_list H :=
  repeat (apply elem_of_cons in H as [->|H]); [..|by apply not_elem_of_nil in H].

(** Case split on a decimal digit [d], bounded by a hypothesis. *)
Ltac case_digit d :=
  let H := fresh in
  assert (d = 0 \/ d = 1 \/ d = 2 \/ d = 3 \/ d = 4 \/ d = 5 \/ d = 6 \/ d = 7 \/ d = 8 \/ d = 9)%N as H by lia;
  repeat destruct H as [->|H]; [..|subst].
