(* ===== verification/Text.v ===== *)
(** * The string operations the program uses

    [str::trim], [str::strip_prefix], [str::split], [str::rsplit], [Path] equality.
    A Rust [str] is its UTF-8 bytes. *)

From Stdlib Require Import Ascii.
From S2P Require Import Prelude.

(** ** Concatenation *)

Lemma list_ascii_app s t :
  String.list_ascii_of_string (s +:+ t) = String.list_ascii_of_string s ++ String.list_ascii_of_string t.
Proof.
  induction s as [|a s IH]; [done|].
  change (String a s +:+ t) with (String a (s +:+ t)). simpl. by rewrite IH.
Qed.

Lemma str_app_assoc s t u : (s +:+ t) +:+ u = s +:+ t +:+ u.
Proof.
  induction s as [|a s IH]; [done|].
  change ((String a s +:+ t) +:+ u) with (String a ((s +:+ t) +:+ u)). by rewrite IH.
Qed.

Lemma string_app_inj_r (a b c : string) : a +:+ c = b +:+ c -> a = b.
Proof.
  intros H%(f_equal String.list_ascii_of_string). rewrite !list_ascii_app in H.
  apply app_inv_tail in H.
  by rewrite <- (String.string_of_list_ascii_of_string a), H, String.string_of_list_ascii_of_string.
Qed.

(** ** Trimming *)

(** The Unicode [White_Space] code points by the length of their UTF-8 encoding. *)
Definition ws1 (a : ascii) : bool :=
  let n := N_of_ascii a in bool_decide (9 <= n <= 13 \/ n = 32)%N.

Definition ws2 (a b : ascii) : bool :=
  bool_decide (N_of_ascii a = 194 /\ (N_of_ascii b = 133 \/ N_of_ascii b = 160))%N.

Definition ws3 (a b c : ascii) : bool :=
  let '(x, y, z) := (N_of_ascii a, N_of_ascii b, N_of_ascii c) in
  bool_decide ((x = 225 /\ y = 154 /\ z = 128) \/
    (x = 226 /\ y = 128 /\ (128 <= z <= 138 \/ z = 168 \/ z = 169 \/ z = 175)) \/
    (x = 226 /\ y = 129 /\ z = 159) \/ (x = 227 /\ y = 128 /\ z = 128))%N.

Section trim_bytes.
Context (w2 : ascii -> ascii -> bool) (w3 : ascii -> ascii -> ascii -> bool).

(** Drop white space from the front of a byte sequence. *)
Fixpoint trim_bytes (l : list ascii) : list ascii :=
  match l with
  | [] => []
  | a :: l1 =>
      if ws1 a then trim_bytes l1 else
      match l1 with
      | [] => l
      | b :: l2 =>
          if w2 a b then trim_bytes l2 else
          match l2 with
          | [] => l
          | c :: l3 => if w3 a b c then trim_bytes l3 else l
          end
      end
  end.
End trim_bytes.

Definition trim_start : list ascii -> list ascii := trim_bytes ws2 ws3.

Definition trim_end (l : list ascii) : list ascii :=
  reverse (trim_bytes (fun b a => ws2 a b) (fun c b a => ws3 a b c) (reverse l)).

Definition trim (s : string) : string :=
  String.string_of_list_ascii (trim_end (trim_start (String.list_ascii_of_string s))).

Example trim_example : trim "  a b	 " = "a b".
Proof. vm_compute. reflexivity. Qed.

(** An ASCII character that is no white space. *)
Definition plain (a : ascii) : bool :=
  negb (ws1 a) && bool_decide (N_of_ascii a < 128)%N.

Lemma plain_ascii a : plain a = true -> (N_of_ascii a < 128)%N.
Proof. unfold plain. rewrite andb_true_iff, bool_decide_eq_true. tauto. Qed.

Lemma plain_ws2 a b : plain a = true -> ws2 a b = false.
Proof.
  unfold plain, ws2. rewrite andb_true_iff, bool_decide_eq_true. intros [_ Ha].
  apply bool_decide_eq_false. lia.
Qed.

Lemma plain_ws3 a b c : plain a = true -> ws3 a b c = false.
Proof.
  unfold plain, ws3. rewrite andb_true_iff, bool_decide_eq_true. intros [_ Ha].
  apply bool_decide_eq_false. lia.
Qed.

Lemma trim_bytes_plain w2 w3 a l :
  plain a = true -> (forall b, w2 a b = false) -> (forall b c, w3 a b c = false) -> trim_bytes w2 w3 (a :: l) = a :: l.
Proof.
  intros Ha H2 H3. assert (ws1 a = false) as H1 by (unfold plain in Ha; by destruct (ws1 a)).
  cbn [trim_bytes]. rewrite H1. destruct l as [|b [|c l]]; [done| |]; by rewrite ?H2, ?H3.
Qed.

(** Text that begins and ends with a plain character is not trimmed. *)
Lemma trim_plain s :
  Forall (fun a => plain a = true) (String.list_ascii_of_string s) -> trim s = s.
Proof.
  intros Hs. unfold trim, trim_start, trim_end. set (l := String.list_ascii_of_string s) in *.
  assert (trim_bytes ws2 ws3 l = l) as ->.
  { destruct l as [|a l]; [done|]. apply Forall_cons in Hs as [Ha _].
    apply trim_bytes_plain; [done|intros; by apply plain_ws2|intros; by apply plain_ws3]. }
  assert (trim_bytes (fun b a => ws2 a b) (fun c b a => ws3 a b c) (reverse l) = reverse l) as ->.
  { apply Forall_reverse in Hs. destruct (reverse l) as [|a l']; [done|]. apply Forall_cons in Hs as [Ha _].
    assert (N_of_ascii a < 128)%N as Hlt by (by apply plain_ascii).
    apply trim_bytes_plain; [done| |].
    - intros b. unfold ws2. apply bool_decide_eq_false. lia.
    - intros b c. unfold ws3. apply bool_decide_eq_false. lia. }
  rewrite reverse_involutive. apply String.string_of_list_ascii_of_string.
Qed.

(** The trimmed value, or [None] when it is blank: the [non_blank] helpers. *)
Definition trimmed_some (s : string) : option string :=
  let t := trim s in if decide (t = "") then None else Some t.

Lemma trimmed_some_nonempty s t : trimmed_some s = Some t -> t <> "".
Proof. unfold trimmed_some. case_decide; congruence. Qed.

(** ** Prefixes and splitting *)

(** [s.strip_prefix(p)]. *)
Fixpoint strip_prefix (p s : string) : option string :=
  match p, s with
  | "", _ => Some s
  | String a p', String b s' => if decide (a = b) then strip_prefix p' s' else None
  | _, "" => None
  end.

Lemma strip_prefix_app p s : strip_prefix p (p +:+ s) = Some s.
Proof. induction p as [|a p IH]; simpl; [done|]. by rewrite decide_True. Qed.

Lemma strip_prefix_Some p s t : strip_prefix p s = Some t <-> s = p +:+ t.
Proof.
  split; [|intros ->; apply strip_prefix_app].
  revert s. induction p as [|a p IH]; intros [|b s]; simpl; try (by intros [= <-]).
  case_decide as Hab; [|congruence]. subst. intros H. by rewrite (IH _ H).
Qed.

Definition starts_with (p s : string) : bool := bool_decide (is_Some (strip_prefix p s)).

(** [s.split(c)]: always at least one piece. *)
Fixpoint split_on (c : ascii) (s : string) : list string :=
  match s with
  | "" => [""]
  | String a s' =>
      if decide (a = c) then "" :: split_on c s'
      else match split_on c s' with
           | [] => [String a ""]
           | w :: ws => String a w :: ws
           end
  end.

(** [s.rsplit(c).next()]: the piece after the last separator. *)
Definition after_last (c : ascii) (s : string) : string := default "" (last (split_on c s)).

Fixpoint has_char (c : ascii) (s : string) : bool :=
  match s with
  | "" => false
  | String a s' => bool_decide (a = c) || has_char c s'
  end.

Lemma split_on_nonempty c s : split_on c s <> [].
Proof. destruct s; simpl; [done|]. case_decide; [done|]. by destruct (split_on c s). Qed.

Lemma split_on_free c s : has_char c s = false -> split_on c s = [s].
Proof.
  induction s as [|a s IH]; simpl; [done|].
  intros [Ha Hs]%orb_false_iff. apply bool_decide_eq_false in Ha.
  by rewrite decide_False, IH by done.
Qed.

Lemma split_on_app c s t :
  exists w ws, split_on c (s +:+ String c t) = w :: ws ++ split_on c t.
Proof.
  induction s as [|a s (w & ws & IH)].
  - exists "", []. change ("" +:+ String c t) with (String c t). simpl. by rewrite decide_True.
  - change (String a s +:+ String c t) with (String a (s +:+ String c t)). cbn [split_on].
    rewrite IH. case_decide; [by exists "", (w :: ws)|by exists (String a w), ws].
Qed.

(** What follows a separator and holds none itself is the last piece. *)
Lemma after_last_app c s t : has_char c t = false -> after_last c (s +:+ String c t) = t.
Proof.
  intros Ht. destruct (split_on_app c s t) as (w & ws & Hws).
  unfold after_last. rewrite Hws, split_on_free, app_comm_cons by done. by rewrite last_snoc.
Qed.

(** [str::rsplit_once]. *)
Fixpoint rsplit_once (c : ascii) (s : string) : option (string * string) :=
  match s with
  | "" => None
  | String a s' =>
      match rsplit_once c s' with
      | Some (x, y) => Some (String a x, y)
      | None => if decide (a = c) then Some ("", s') else None
      end
  end.

Lemma rsplit_once_free c s : has_char c s = false -> rsplit_once c s = None.
Proof.
  induction s as [|a s IH]; [done|]. simpl. intros [Ha Hs]%orb_false_elim.
  apply bool_decide_eq_false in Ha. by rewrite IH, decide_False.
Qed.

Lemma rsplit_once_app c s t : has_char c t = false -> rsplit_once c (s +:+ String c t) = Some (s, t).
Proof.
  intros Ht. induction s as [|a s IH].
  - simpl. by rewrite rsplit_once_free, decide_True.
  - change (String a s +:+ String c t) with (String a (s +:+ String c t)). simpl. by rewrite IH.
Qed.

(** [[T]::join]. *)
Fixpoint join (sep : string) (l : list string) : string :=
  match l with
  | [] => ""
  | [x] => x
  | x :: l' => x +:+ sep +:+ join sep l'
  end.

(** ** Paths *)

(** The components [Path] equality compares: repeated separators and inner [.]
    components do not count, a leading [.] of a relative path does. *)
Definition path_components (p : string) : bool * list string :=
  let absolute := starts_with "/" p in
  let pieces := split_on "/"%char p in
  let rest := filter (fun w => w <> "" /\ w <> ".") pieces in
  (absolute, if absolute then rest
             else match pieces with "." :: _ => "." :: rest | _ => rest end).

Definition path_eqb (p q : string) : bool := bool_decide (path_components p = path_components q).

(** [Path::parent] of a path with a final component. *)
Definition path_parent (p : string) : string :=
  match split_on "/"%char p with
  | [] | [_] => ""
  | [""; _] => "/"
  | w :: ws => foldl (fun acc x => acc +:+ "/" +:+ x) w (take (length ws - 1) ws)
  end.

Example path_parent_example : path_parent "s/.workflow/x.session.json" = "s/.workflow".
Proof. vm_compute. reflexivity. Qed.

Definition is_absolute (p : string) : bool :=
  match p with String "/"%char _ => true | _ => false end.

Fixpoint ends_with_slash (p : string) : bool :=
  match p with
  | "" => false
  | String "/"%char "" => true
  | String _ p' => ends_with_slash p'
  end.

(** [Path::join]. *)
Definition path_join (a b : string) : string :=
  if is_absolute b then b
  else if bool_decide (a = "") || ends_with_slash a then a +:+ b
  else a +:+ "/" +:+ b.
