(* ===== verification/Stack.v ===== *)
(** * The PR-stack model

    [src/packages/tddy-changeset/src/changeset/stack.rs]: the PR-stack DAG an
    orchestrator session carries ([Stack], [StackNode]), Kahn's algorithm
    ([topo_order]), the reading order ([display_order]) and the base a child
    worktree is branched off ([effective_base_refs], [base_ref_for_spawn]).
    The two status records come from [changeset/model.rs]. *)

From S2P Require Import Prelude.

Local Open Scope io_scope.

(** [tddy_workflow::ids::WorkflowState] and [GoalId]: transparent newtypes. *)
Definition WorkflowState : Type := string.
Definition GoalId : Type := string.

Record GithubPrStatus := mkGithubPrStatus {
  ps_phase : string;
  ps_url : option string;
  ps_error : option string }.

Record PrInternalStatus := mkPrInternalStatus {
  is_kind : string;
  is_note : option string;
  is_source : string }.

Record StackNode := mkStackNode {
  sn_node_id : string;
  sn_title : string;
  sn_description : string;
  sn_branch_suggestion : option string;
  sn_branch : option string;
  sn_session_id : option string;
  sn_parents : list string;
  sn_pr_status : option GithubPrStatus;
  sn_child_state : option WorkflowState;
  sn_internal_status : option PrInternalStatus;
  sn_display_order : option N }.

Record Stack := mkStack {
  st_version : N;
  st_nodes : list StackNode }.

#[global] Instance GithubPrStatus_eq_dec : EqDecision GithubPrStatus.
Proof. solve_decision. Defined.
#[global] Instance PrInternalStatus_eq_dec : EqDecision PrInternalStatus.
Proof. solve_decision. Defined.
#[global] Instance StackNode_eq_dec : EqDecision StackNode.
Proof. unfold WorkflowState in *. solve_decision. Defined.
#[global] Instance Stack_eq_dec : EqDecision Stack.
Proof. solve_decision. Defined.

(** [Stack::default]. *)
Definition Stack_default : Stack := mkStack 0 [].

(** Field assignments on a [&mut StackNode]. *)
Definition set_parents (n : StackNode) (ps : list string) : StackNode :=
  mkStackNode (sn_node_id n) (sn_title n) (sn_description n) (sn_branch_suggestion n)
    (sn_branch n) (sn_session_id n) ps (sn_pr_status n) (sn_child_state n)
    (sn_internal_status n) (sn_display_order n).
Definition set_display_order (n : StackNode) (d : option N) : StackNode :=
  mkStackNode (sn_node_id n) (sn_title n) (sn_description n) (sn_branch_suggestion n)
    (sn_branch n) (sn_session_id n) (sn_parents n) (sn_pr_status n) (sn_child_state n)
    (sn_internal_status n) d.
Definition set_branch (n : StackNode) (b : option string) : StackNode :=
  mkStackNode (sn_node_id n) (sn_title n) (sn_description n) (sn_branch_suggestion n)
    b (sn_session_id n) (sn_parents n) (sn_pr_status n) (sn_child_state n)
    (sn_internal_status n) (sn_display_order n).
Definition set_session_id (n : StackNode) (i : option string) : StackNode :=
  mkStackNode (sn_node_id n) (sn_title n) (sn_description n) (sn_branch_suggestion n)
    (sn_branch n) i (sn_parents n) (sn_pr_status n) (sn_child_state n)
    (sn_internal_status n) (sn_display_order n).
Definition set_pr_status (n : StackNode) (p : option GithubPrStatus) : StackNode :=
  mkStackNode (sn_node_id n) (sn_title n) (sn_description n) (sn_branch_suggestion n)
    (sn_branch n) (sn_session_id n) (sn_parents n) p (sn_child_state n)
    (sn_internal_status n) (sn_display_order n).
Definition set_child_state (n : StackNode) (c : option WorkflowState) : StackNode :=
  mkStackNode (sn_node_id n) (sn_title n) (sn_description n) (sn_branch_suggestion n)
    (sn_branch n) (sn_session_id n) (sn_parents n) (sn_pr_status n) c
    (sn_internal_status n) (sn_display_order n).
Definition set_texts (n : StackNode) (t d : string) (bs : option string) : StackNode :=
  mkStackNode (sn_node_id n) t d bs
    (sn_branch n) (sn_session_id n) (sn_parents n) (sn_pr_status n) (sn_child_state n)
    (sn_internal_status n) (sn_display_order n).

(** [WorkflowError], the constructors this code raises, and its [Display]. *)
Inductive WorkflowError :=
| WriteFailed (m : string)
| ChangesetMissing (m : string)
| ChangesetInvalid (m : string).

#[global] Instance WorkflowError_eq_dec : EqDecision WorkflowError.
Proof. solve_decision. Defined.

Definition WorkflowError_display (e : WorkflowError) : string :=
  match e with
  | WriteFailed m => "artifact write failed: " +:+ m
  | ChangesetMissing m => "changeset.yaml missing: " +:+ m
  | ChangesetInvalid m => "changeset.yaml invalid: " +:+ m
  end.

(** [StackNode::is_skipped]. *)
Definition is_skipped (n : StackNode) : bool :=
  match sn_pr_status n with
  | Some st => bool_decide (ps_phase st = "merged")
  | None => false
  end.

(** [iter().find(|n| n.node_id == node_id)]. *)
Fixpoint find_node (id : string) (l : list StackNode) : option StackNode :=
  match l with
  | [] => None
  | n :: l' => if decide (sn_node_id n = id) then Some n else find_node id l'
  end.

(** [Stack::node]. *)
Definition node (s : Stack) (id : string) : option StackNode := find_node id (st_nodes s).

(** [if let Some(n) = nodes.iter_mut().find(..) { *n = f(n) }]: only the first
    match is changed. *)
Fixpoint modify_first (id : string) (f : StackNode -> StackNode) (l : list StackNode)
  : list StackNode :=
  match l with
  | [] => []
  | n :: l' => if decide (sn_node_id n = id) then f n :: l' else n :: modify_first id f l'
  end.

Definition modify_node (id : string) (f : StackNode -> StackNode) (s : Stack) : Stack :=
  mkStack (st_version s) (modify_first id f (st_nodes s)).

Definition node_ids (s : Stack) : list string := sn_node_id <$> st_nodes s.

(** ** [Stack::topo_order] *)

Definition known (s : Stack) : gset string := list_to_set (node_ids s).

(** [map.entry(k).or_insert(v)], value unused. *)
Definition or_insert {V} (k : string) (v : V) (m : gmap string V) : gmap string V :=
  match m !! k with Some _ => m | None => <[k := v]> m end.

(** [f(map.entry(k).or_insert(d))]. *)
Definition entry_modify {V} (k : string) (d : V) (f : V -> V) (m : gmap string V)
  : gmap string V := <[k := f (default d (m !! k))]> m.

Abbreviation topo_maps := (gmap string nat * gmap string (list string))%type.

(** The inner loop over one node's parents. *)
Definition topo_scan_parent (kn : gset string) (id : string) (acc : topo_maps)
    (parent : string) : topo_maps :=
  let '(in_degree, children) := acc in
  if decide (parent ∈ kn) then
    (entry_modify id 0 S in_degree,
     entry_modify parent [] (fun l => l ++ [id]) children)
  else acc.

Definition topo_scan_node (kn : gset string) (acc : topo_maps) (n : StackNode) : topo_maps :=
  let '(in_degree, children) := acc in
  foldl (topo_scan_parent kn (sn_node_id n))
    (or_insert (sn_node_id n) 0 in_degree, children) (sn_parents n).

(** In-degrees and child lists of the whole stack. *)
Definition topo_scan (s : Stack) : topo_maps :=
  foldl (topo_scan_node (known s)) (∅, ∅) (st_nodes s).

(** [in_degree.iter().filter(|(_, &d)| d == 0).map(|(&id, _)| id)]. *)
Definition topo_roots (in_degree : gmap string nat) : list string :=
  fst <$> filter (fun e => e.2 = 0) (btree_iter in_degree).

(** [for &child in deps { ... }]: the [expect] and the checked subtraction are
    the two panics of the loop. *)
Fixpoint topo_relax (deps : list string) (in_degree : gmap string nat) (queue : list string)
  : res WorkflowError (gmap string nat * list string) :=
  match deps with
  | [] => Ok (in_degree, queue)
  | child :: deps' =>
      match in_degree !! child with
      | None => Panic
      | Some 0 => Panic
      | Some (S d) =>
          topo_relax deps' (<[child := d]> in_degree)
            (if decide (d = 0) then queue ++ [child] else queue)
      end
  end.

(** [while let Some(id) = queue.pop_front()]. One unit of fuel per iteration;
    running out is reported as [Panic] and shown unreachable. *)
Fixpoint topo_loop (fuel : nat) (children : gmap string (list string))
    (in_degree : gmap string nat) (queue order : list string)
  : res WorkflowError (list string) :=
  match queue with
  | [] => Ok order
  | id :: queue' =>
      match fuel with
      | 0 => Panic
      | S fuel' =>
          let? r := topo_relax (default [] (children !! id)) in_degree queue' in
          topo_loop fuel' children r.1 r.2 (order ++ [id])
      end
  end.

Definition topo_order (s : Stack) : res WorkflowError (list string) :=
  let '(in_degree, children) := topo_scan s in
  let? order :=
    topo_loop (length (st_nodes s)) children in_degree (topo_roots in_degree) [] in
  if decide (length order = length (st_nodes s)) then Ok order
  else Err (ChangesetInvalid
    ("cycle detected in PR-stack DAG: only " +:+ pretty (length order) +:+ " of "
       +:+ pretty (length (st_nodes s)) +:+ " nodes orderable")).

(** ** [Stack::display_order] *)

(** [iter().position(|n| n.node_id == id)]. *)
Fixpoint position_of (id : string) (l : list string) : option nat :=
  match l with
  | [] => None
  | x :: l' => if decide (x = id) then Some 0 else S <$> position_of id l'
  end.

Definition usize_max : N := u64_max.

Definition declaration_index_of (s : Stack) (id : string) : N :=
  match position_of id (node_ids s) with
  | Some i => N.of_nat i
  | None => usize_max
  end.

(** [order.into_iter().zip(0..).collect()], a later pair replacing an earlier one. *)
Definition topo_index (s : Stack) : gmap string N :=
  match topo_order s with
  | Ok order =>
      foldl (fun m p => <[p.1 := p.2]> m) ∅ (zip order (N.of_nat <$> seq 0 (length order)))
  | _ => ∅
  end.

Abbreviation display_key := (N * N * string)%type.

(** The derived lexicographic order on [(u32, usize, &str)]. *)
Definition display_key_leb (a b : display_key) : bool :=
  let '(a1, a2, a3) := a in
  let '(b1, b2, b3) := b in
  match (a1 ?= b1)%N with
  | Lt => true
  | Gt => false
  | Eq =>
      match (a2 ?= b2)%N with
      | Lt => true
      | Gt => false
      | Eq => bool_decide (String.le a3 b3)
      end
  end.

Definition display_sort_key (s : Stack) (n : StackNode) : display_key :=
  (default u32_max (sn_display_order n),
   default (declaration_index_of s (sn_node_id n)) (topo_index s !! sn_node_id n),
   sn_node_id n).

Definition display_order (s : Stack) : list string :=
  sn_node_id <$>
    sort_by (fun x y => display_key_leb (display_sort_key s x) (display_sort_key s y))
      (st_nodes s).

(** ** The base a child worktree is created from *)

(** The [filter_map] / [filter] / [filter_map] / [map] chain over the parents. *)
Definition parent_base_refs (s : Stack) (ps : list string) : list string :=
  omap (fun parent_id =>
    match node s parent_id with
    | Some parent =>
        if is_skipped parent then None
        else (fun b => "origin/" +:+ b) <$> sn_branch parent
    | None => None
    end) ps.

Definition effective_base_refs (s : Stack) (id stack_bottom_base : string) : list string :=
  match node s id with
  | None => [stack_bottom_base]
  | Some n =>
      match parent_base_refs s (sn_parents n) with
      | [] => [stack_bottom_base]
      | refs => refs
      end
  end.

(** Whether a parent id blocks a spawn: resolvable, not merged, branchless. *)
Definition blocks_spawn (s : Stack) (parent_id : string) : bool :=
  match node s parent_id with
  | Some parent => negb (is_skipped parent) && bool_decide (sn_branch parent = None)
  | None => false
  end.

(** [for parent_id in &node.parents { ... return Err(..) }]. *)
Fixpoint blocking_parent (s : Stack) (ps : list string) : option string :=
  match ps with
  | [] => None
  | p :: ps' => if blocks_spawn s p then Some p else blocking_parent s ps'
  end.

Definition base_ref_for_spawn (s : Stack) (id stack_bottom_base : string)
  : res WorkflowError string :=
  match n ← node s id; blocking_parent s (sn_parents n) with
  | Some parent_id =>
      Err (ChangesetInvalid
        ("cannot spawn node '" +:+ id +:+ "': non-merged parent '" +:+ parent_id
           +:+ "' has no branch to base onto yet"))
  | None => Ok (default stack_bottom_base (head (effective_base_refs s id stack_bottom_base)))
  end.

(** ** Examples from the unit tests of stack.rs *)

Definition a_node (id : string) (ps : list string) (d : option N) : StackNode :=
  mkStackNode id "" "" None None None ps None None None d.

Example topo_order_linear_dag :
  topo_order (mkStack 1 [a_node "n1" [] None; a_node "n2" ["n1"] None; a_node "n3" ["n2"] None])
  = Ok ["n1"; "n2"; "n3"].
Proof. vm_compute. reflexivity. Qed.

Example topo_order_cycle_returns_error :
  topo_order (mkStack 1 [a_node "n1" ["n2"] None; a_node "n2" ["n1"] None])
  = Err (ChangesetInvalid "cycle detected in PR-stack DAG: only 0 of 2 nodes orderable").
Proof. vm_compute. reflexivity. Qed.

Example display_order_half_numbered :
  display_order (mkStack 1 [a_node "n1" [] None; a_node "n2" [] (Some 0%N); a_node "n3" [] None])
  = ["n2"; "n1"; "n3"].
Proof. vm_compute. reflexivity. Qed.

Example display_order_cycle :
  display_order (mkStack 1 [a_node "n2" ["n1"] None; a_node "n1" ["n2"] None]) = ["n2"; "n1"].
Proof. vm_compute. reflexivity. Qed.
