(* ===== verification/StackTopo.v ===== *)
(** * Kahn's algorithm on the PR stack is correct

    [Stack::topo_order] of [changeset/stack.rs]: the loop never panics and always
    terminates, what it returns is a topological order of every node, and it is
    refused exactly for a stack that repeats a node id or whose parent relation has
    a cycle. *)

From S2P Require Import Prelude Stack.

(** ** The dependency relation and its edges *)

(** [parent_of s p c]: some node [c] of [s] lists the known node [p] as a parent. *)
Definition parent_of (s : Stack) (p c : string) : Prop :=
  exists n, n ∈ st_nodes s /\ sn_node_id n = c /\ p ∈ sn_parents n /\ p ∈ node_ids s.

Definition acyclic (s : Stack) : Prop := forall x, ~ tc (parent_of s) x x.

(** A topological order: every node once, each after all of its known parents. *)
Definition topological (s : Stack) (order : list string) : Prop :=
  order ≡ₚ node_ids s /\
  forall l1 c l2, order = l1 ++ c :: l2 -> forall p, parent_of s p c -> p ∈ l1.

Abbreviation edge := (string * string)%type.

Definition node_edges (kn : gset string) (n : StackNode) : list edge :=
  (fun p => (p, sn_node_id n)) <$> filter (fun p => p ∈ kn) (sn_parents n).

Definition edges (s : Stack) : list edge := st_nodes s ≫= node_edges (known s).

Lemma elem_of_known s x : x ∈ known s <-> x ∈ node_ids s.
Proof. unfold known. by rewrite elem_of_list_to_set. Qed.

Lemma elem_of_edges s p c : (p, c) ∈ edges s <-> parent_of s p c.
Proof.
  unfold edges, node_edges, parent_of. rewrite list_elem_of_bind. split.
  - intros (n & (p' & [= -> ->] & Hk)%list_elem_of_fmap & Hn).
    apply list_elem_of_filter in Hk as [Hk Hp]. exists n. by rewrite <- elem_of_known.
  - intros (n & Hn & <- & Hp & Hk). exists n. split; [|done].
    apply list_elem_of_fmap. exists p. split; [done|].
    apply list_elem_of_filter. by rewrite elem_of_known.
Qed.

Definition outs (E : list edge) (p : string) : list string :=
  snd <$> filter (fun e => e.1 = p) E.

(** In-edges of [c] whose source has not been emitted yet. *)
Definition remaining (E : list edge) (order : list string) (c : string) : nat :=
  length (filter (fun e => e.2 = c /\ e.1 ∉ order) E).

Definition cnt (c : string) (l : list string) : nat := length (filter (fun x => x = c) l).

Lemma cnt_cons c x l : cnt c (x :: l) = (if decide (x = c) then 1 else 0) + cnt c l.
Proof. unfold cnt. rewrite filter_cons. by case_decide. Qed.

Lemma cnt_elem_of c l : cnt c l <> 0 <-> c ∈ l.
Proof.
  induction l as [|x l IH]; [set_solver|].
  rewrite cnt_cons, elem_of_cons. case_decide; naive_solver lia.
Qed.

Lemma remaining_zero E order c :
  remaining E order c = 0 <-> forall p, (p, c) ∈ E -> p ∈ order.
Proof.
  unfold remaining. rewrite length_zero_iff_nil. split.
  - intros Hnil p Hp. destruct (decide (p ∈ order)) as [|Hn]; [done|].
    assert ((p, c) ∈ filter (fun e => e.2 = c /\ e.1 ∉ order) E) as Hin.
    { by apply list_elem_of_filter. }
    rewrite Hnil in Hin. set_solver.
  - intros Hall. apply elem_of_nil_inv. intros [p c'] [[??]?]%list_elem_of_filter.
    simpl in *. subst. naive_solver.
Qed.

Lemma remaining_snoc E order id c :
  id ∉ order ->
  remaining E order c = remaining E (order ++ [id]) c + cnt c (outs E id).
Proof.
  intros Hid. unfold remaining, outs. induction E as [|[p c'] E IH]; [done|].
  rewrite !filter_cons. simpl.
  destruct (decide (p = id)) as [->|Hne].
  - rewrite fmap_cons, cnt_cons. simpl.
    rewrite (decide_False (P := c' = c /\ id ∉ order ++ [id])) by set_solver.
    destruct (decide (c' = c)) as [->|Hc].
    + rewrite decide_True by done. simpl. lia.
    + rewrite decide_False by naive_solver. simpl. lia.
  - assert (p ∉ order ++ [id] <-> p ∉ order) as Hp by set_solver.
    destruct (decide (c' = c /\ p ∉ order)) as [Hd|Hd];
      [rewrite decide_True by naive_solver|rewrite decide_False by naive_solver]; simpl; lia.
Qed.

(** ** The scan builds the in-degrees and the child lists *)

Definition add_edge (acc : topo_maps) (e : edge) : topo_maps :=
  (entry_modify e.2 0 S acc.1, entry_modify e.1 [] (fun l => l ++ [e.2]) acc.2).

Lemma scan_parents_edges kn n acc :
  foldl (topo_scan_parent kn (sn_node_id n)) acc (sn_parents n)
  = foldl add_edge acc (node_edges kn n).
Proof.
  unfold node_edges. generalize (sn_parents n) as ps. intros ps.
  revert acc. induction ps as [|p ps IH]; intros [d ch]; [done|].
  rewrite filter_cons. simpl. case_decide; simpl; apply IH.
Qed.

Record maps_ok (ids : gset string) (E : list edge) (acc : topo_maps) : Prop := {
  mo_deg : forall c, acc.1 !! c = if decide (c ∈ ids) then Some (remaining E [] c) else None;
  mo_out : forall p, default [] (acc.2 !! p) = outs E p }.

Lemma remaining_nil_snoc E e c :
  remaining (E ++ [e]) [] c = (if decide (e.2 = c) then 1 else 0) + remaining E [] c.
Proof.
  unfold remaining. rewrite filter_app, length_app, filter_cons, filter_nil.
  repeat case_decide; simpl; try lia; set_solver.
Qed.

Lemma add_edge_ok ids E acc e :
  e.2 ∈ ids -> maps_ok ids E acc -> maps_ok ids (E ++ [e]) (add_edge acc e).
Proof.
  intros He [Hd Ho]. split.
  - intros c. simpl. rewrite remaining_nil_snoc. unfold entry_modify.
    rewrite lookup_insert. destruct (decide (e.2 = c)) as [<-|Hne].
    + rewrite Hd, !decide_True by done. done.
    + by rewrite Hd.
  - intros p. simpl. unfold outs, entry_modify. rewrite filter_app, fmap_app, filter_cons, filter_nil.
    rewrite lookup_insert. destruct (decide (e.1 = p)) as [<-|Hne]; simpl.
    + by rewrite Ho.
    + by rewrite app_nil_r, Ho.
Qed.

Lemma add_edges_ok ids E E' acc :
  Forall (fun e => e.2 ∈ ids) E' -> maps_ok ids E acc ->
  maps_ok ids (E ++ E') (foldl add_edge acc E').
Proof.
  intros HE'. revert E acc. induction HE' as [|e E' He _ IH]; intros E acc Hok; simpl.
  - by rewrite app_nil_r.
  - rewrite cons_middle, app_assoc. by apply IH, add_edge_ok.
Qed.

Lemma or_insert_ok ids E d ch id :
  (forall e, e ∈ E -> e.2 ∈ ids) ->
  maps_ok ids E (d, ch) -> maps_ok ({[id]} ∪ ids) E (or_insert id 0 d, ch).
Proof.
  intros HE [Hd Ho]. split; [|done]. intros c. simpl in *. unfold or_insert.
  pose proof (Hd id) as Hid. destruct (d !! id) eqn:Hdi; simpl in *.
  - case_decide; [|done]. rewrite Hd. repeat case_decide; try done; set_solver.
  - case_decide as Hin; [done|].
    rewrite lookup_insert. destruct (decide (id = c)) as [<-|Hne].
    + rewrite decide_True by set_solver. f_equal.
      symmetry. apply remaining_zero. intros p Hp. by specialize (HE _ Hp).
    + rewrite Hd. repeat case_decide; try done; set_solver.
Qed.

Lemma scan_nodes_ok kn nodes ids E acc :
  (forall e, e ∈ E -> e.2 ∈ ids) -> maps_ok ids E acc ->
  maps_ok (ids ∪ list_to_set (sn_node_id <$> nodes)) (E ++ (nodes ≫= node_edges kn))
    (foldl (topo_scan_node kn) acc nodes).
Proof.
  revert ids E acc. induction nodes as [|n nodes IH]; intros ids E [d ch] HE Hok.
  { simpl. rewrite app_nil_r. by rewrite union_empty_r_L. }
  rewrite fmap_cons, bind_cons, list_to_set_cons, app_assoc. cbn [foldl].
  assert (forall e, e ∈ node_edges kn n -> e.2 = sn_node_id n) as Hn.
  { unfold node_edges. set_solver. }
  replace (ids ∪ ({[sn_node_id n]} ∪ list_to_set (sn_node_id <$> nodes)))
    with (({[sn_node_id n]} ∪ ids) ∪ (list_to_set (sn_node_id <$> nodes) : gset string))
    by set_solver.
  apply IH.
  - intros e [He|He]%elem_of_app; [set_solver|]. apply Hn in He. set_solver.
  - unfold topo_scan_node. rewrite scan_parents_edges. apply add_edges_ok.
    + apply Forall_forall. intros e He. rewrite (Hn e He). set_solver.
    + by apply or_insert_ok.
Qed.

Lemma topo_scan_ok s : maps_ok (known s) (edges s) (topo_scan s).
Proof.
  unfold topo_scan, edges.
  pose proof (scan_nodes_ok (known s) (st_nodes s) ∅ [] (∅, ∅)) as H.
  rewrite union_empty_l_L in H. apply H; [set_solver|].
  split; intros c; simpl; by rewrite lookup_empty.
Qed.

(** ** The loop *)

Lemma topo_relax_ok (ids : gset string) (f : string -> nat) deps in_degree queue :
  (forall c, c ∈ deps -> c ∈ ids) ->
  (forall c, in_degree !! c = if decide (c ∈ ids) then Some (f c + cnt c deps) else None) ->
  exists in_degree' new,
    topo_relax deps in_degree queue = Ok (in_degree', queue ++ new) /\
    (forall c, in_degree' !! c = if decide (c ∈ ids) then Some (f c) else None) /\
    NoDup new /\ (forall c, c ∈ new <-> c ∈ deps /\ f c = 0).
Proof.
  revert in_degree queue. induction deps as [|child deps IH]; intros d q Hsub Hdeg; simpl.
  { exists d, []. rewrite app_nil_r. split; [done|]. split; [|split; [constructor|set_solver]].
    intros c. rewrite Hdeg. case_decide; [|done]. f_equal. unfold cnt. simpl. lia. }
  rewrite (Hdeg child), decide_True by (apply Hsub; left).
  rewrite cnt_cons, decide_True by done. rewrite Nat.add_succ_r.
  specialize (IH (<[child := f child + cnt child deps]> d)).
  destruct (IH (if decide (f child + cnt child deps = 0) then q ++ [child] else q))
    as (d' & new & -> & Hd' & Hnd & Hnew); [by set_solver| |].
  { intros c. rewrite lookup_insert. destruct (decide (child = c)) as [<-|Hne].
    - by rewrite decide_True by (apply Hsub; left).
    - rewrite Hdeg, cnt_cons. case_decide; [|done]. by rewrite decide_False by done. }
  pose proof (cnt_elem_of child deps) as Hcnt.
  destruct (decide (f child + cnt child deps = 0)) as [Hz|Hz].
  - exists d', (child :: new). rewrite <- app_assoc. split; [done|]. split; [done|].
    split; [constructor; [|done]; naive_solver lia|].
    intros c. rewrite !elem_of_cons, Hnew. naive_solver lia.
  - exists d', new. split; [done|]. split; [done|]. split; [done|].
    intros c. rewrite elem_of_cons, Hnew. split; [naive_solver|].
    intros [[->|?] ?]; naive_solver lia.
Qed.

(** The loop invariant: what has been emitted or queued is exactly what has no
    unemitted parent, and the emitted prefix is in dependency order. *)
Record kahn_inv (E : list edge) (ids : gset string) (in_degree : gmap string nat)
    (queue order : list string) : Prop := {
  ki_nodup : NoDup (order ++ queue);
  ki_deg : forall c, in_degree !! c = if decide (c ∈ ids) then Some (remaining E order c) else None;
  ki_zero : forall c, c ∈ ids -> (c ∈ order ++ queue <-> remaining E order c = 0);
  ki_sub : forall c, c ∈ order ++ queue -> c ∈ ids;
  ki_sorted : forall l1 c l2, order = l1 ++ c :: l2 -> forall p, (p, c) ∈ E -> p ∈ l1 }.

Section kahn.
Context (E : list edge) (ids : gset string) (children : gmap string (list string)).
Context (Hch : forall p, default [] (children !! p) = outs E p).
Context (HE : forall e, e ∈ E -> e.2 ∈ ids).

Lemma outs_sub p c : c ∈ outs E p -> c ∈ ids.
Proof. unfold outs. intros (e & -> & [??]%list_elem_of_filter)%list_elem_of_fmap. auto. Qed.

Lemma kahn_sorted_snoc d id queue order :
  kahn_inv E ids d (id :: queue) order ->
  forall l1 c l2, order ++ [id] = l1 ++ c :: l2 -> forall p, (p, c) ∈ E -> p ∈ l1.
Proof.
  intros [_ _ Hz Hsub Hs] l1 c l2 Heq p Hp.
  destruct l2 as [|x l2' _] using rev_ind.
  - apply app_inj_tail in Heq as [-> ->].
    eapply remaining_zero; [|done]. apply Hz; set_solver.
  - rewrite app_comm_cons, app_assoc in Heq. apply app_inj_tail in Heq as [-> _].
    by eapply Hs.
Qed.

Lemma kahn_step d id queue order :
  kahn_inv E ids d (id :: queue) order ->
  exists d' queue', topo_relax (outs E id) d queue = Ok (d', queue') /\
    kahn_inv E ids d' queue' (order ++ [id]).
Proof.
  intros Hinv. pose proof (kahn_sorted_snoc _ _ _ _ Hinv) as Hs'.
  destruct Hinv as [Hnd Hdeg Hz Hsub _].
  assert (id ∉ order) as Hid by (apply NoDup_app in Hnd; set_solver).
  destruct (topo_relax_ok ids (remaining E (order ++ [id])) (outs E id) d queue)
    as (d' & new & Hr & Hd' & Hnew & Hin); [apply outs_sub| |].
  { intros c. rewrite Hdeg. case_decide; [|done]. by rewrite remaining_snoc with (id := id). }
  exists d', (queue ++ new). split; [done|].
  assert (forall c, c ∈ new -> c ∉ order ++ id :: queue) as Hdisj.
  { intros c [Hc ?]%Hin Hold. apply Hz in Hold; [|by eapply outs_sub].
    rewrite (remaining_snoc _ _ id) in Hold by done. apply cnt_elem_of in Hc. lia. }
  split; [..|done].
  - rewrite <- app_assoc. simpl. rewrite app_comm_cons, app_assoc.
    apply NoDup_app. split; [done|]. split; [set_solver|done].
  - done.
  - intros c Hc. specialize (Hz c Hc). rewrite remaining_snoc with (id := id) in Hz by done.
    pose proof (cnt_elem_of c (outs E id)).
    rewrite <- app_assoc. simpl. rewrite app_comm_cons, app_assoc, elem_of_app, Hz, Hin.
    destruct (decide (cnt c (outs E id) = 0)); naive_solver lia.
  - intros c. rewrite <- app_assoc. simpl. rewrite app_comm_cons, app_assoc, elem_of_app.
    intros [?|[? _]%Hin]; [auto|by eapply outs_sub].
Qed.

Lemma kahn_loop fuel d queue order :
  kahn_inv E ids d queue order -> size ids <= fuel + length order ->
  exists order' d', topo_loop fuel children d queue order = Ok order' /\
    kahn_inv E ids d' [] order'.
Proof.
  revert d queue order. induction fuel as [|fuel IH]; intros d [|id queue] order Hinv Hf;
    simpl; [by eauto| |by eauto|].
  - exfalso.
    assert (length (order ++ id :: queue) <= size ids) as Hle.
    { rewrite <- (size_list_to_set (C := gset string)) by apply Hinv.
      apply subseteq_size. intros c. rewrite elem_of_list_to_set. apply Hinv. }
    rewrite length_app in Hle. simpl in *. lia.
  - rewrite Hch. destruct (kahn_step _ _ _ _ Hinv) as (d' & q' & -> & Hinv'). simpl.
    apply IH; [done|]. rewrite length_app. simpl. lia.
Qed.
End kahn.

(** ** The initial queue *)

Lemma String_leb_total x y : bool_decide (String.le x y) = true \/ bool_decide (String.le y x) = true.
Proof. rewrite !bool_decide_eq_true. apply (total String.le). Qed.

Lemma btree_iter_Permutation {V} (m : gmap string V) : btree_iter m ≡ₚ map_to_list m.
Proof. apply sort_by_Permutation. Qed.

Lemma elem_of_topo_roots d c : c ∈ topo_roots d <-> d !! c = Some 0.
Proof.
  unfold topo_roots. rewrite list_elem_of_fmap. setoid_rewrite list_elem_of_filter.
  setoid_rewrite btree_iter_Permutation. split.
  - intros ([k v] & -> & ? & ?%elem_of_map_to_list). simpl in *. by subst.
  - intros H. exists (c, 0). split; [done|]. split; [done|]. by apply elem_of_map_to_list.
Qed.

Lemma NoDup_topo_roots d : NoDup (topo_roots d).
Proof.
  unfold topo_roots. rewrite btree_iter_Permutation.
  pose proof (NoDup_fst_map_to_list d) as Hnd. revert Hnd.
  generalize (map_to_list d). intros l.
  induction l as [|e l IH]; simpl; [constructor|]. rewrite NoDup_cons. intros [Hn Hnd].
  rewrite filter_cons. case_decide; [|auto]. simpl. constructor; [|auto].
  rewrite list_elem_of_fmap. intros (e' & Heq & [_ Hin]%list_elem_of_filter).
  apply Hn. rewrite list_elem_of_fmap. eauto.
Qed.

Lemma kahn_init s :
  kahn_inv (edges s) (known s) (topo_scan s).1 (topo_roots (topo_scan s).1) [].
Proof.
  destruct (topo_scan_ok s) as [Hd Ho]. split; simpl.
  - apply NoDup_topo_roots.
  - done.
  - intros c Hc. rewrite elem_of_topo_roots, Hd, decide_True by done. naive_solver.
  - intros c Hc%elem_of_topo_roots. rewrite Hd in Hc. by case_decide.
  - intros [] c l2 Heq; discriminate.
Qed.

Lemma size_known s : size (known s) <= length (st_nodes s).
Proof.
  unfold known, node_ids. induction (st_nodes s) as [|n l IH]; simpl; [done|].
  rewrite size_union_alt, size_singleton. etrans; [|apply le_n_S, IH].
  apply le_n_S. apply subseteq_size. set_solver.
Qed.

(** The loop always ends, with the invariant and an empty queue. *)
Lemma topo_loop_final s :
  exists order d, topo_loop (length (st_nodes s)) (topo_scan s).2 (topo_scan s).1
      (topo_roots (topo_scan s).1) [] = Ok order /\
    kahn_inv (edges s) (known s) d [] order.
Proof.
  destruct (topo_scan_ok s) as [_ Ho].
  apply kahn_loop with (ids := known s) (E := edges s); [done| |apply kahn_init|].
  - intros [p c] (n & Hn & <- & _)%elem_of_edges. simpl. apply elem_of_known.
    unfold node_ids. by apply list_elem_of_fmap_2.
  - pose proof (size_known s). simpl. lia.
Qed.

(** ** Cycles *)

(** Where an id sits in a list, and what follows it. *)
Lemma position_of_elem x l : x ∈ l -> exists i, position_of x l = Some i /\ i < length l.
Proof.
  induction l as [|y l IH]; [set_solver|]. simpl. case_decide as Hy.
  - exists 0. split; [done|lia].
  - intros [?|Hx]%elem_of_cons; [congruence|]. destruct (IH Hx) as (i & -> & ?).
    exists (S i). simpl. split; [done|lia].
Qed.

Lemma position_of_app_r x l1 l2 : x ∉ l1 -> position_of x (l1 ++ x :: l2) = Some (length l1).
Proof.
  induction l1 as [|y l1 IH]; simpl; intros Hx.
  - by rewrite decide_True.
  - rewrite decide_False by set_solver. rewrite IH by set_solver. done.
Qed.

Lemma position_of_app_l x l1 l2 : x ∈ l1 -> position_of x (l1 ++ l2) = position_of x l1.
Proof.
  induction l1 as [|y l1 IH]; [set_solver|]. simpl. case_decide; [done|].
  intros [?|?]%elem_of_cons; [congruence|]. by rewrite IH.
Qed.

Lemma acyclic_rank s (f : string -> nat) :
  (forall p c, parent_of s p c -> f p < f c) -> acyclic s.
Proof.
  intros Hf x Hx. assert (forall a b, tc (parent_of s) a b -> f a < f b) as Htc.
  { induction 1 as [a b H|a b c H _ IH]; [auto|]. apply Hf in H. lia. }
  apply Htc in Hx. lia.
Qed.

Lemma topological_acyclic s order : topological s order -> NoDup order -> acyclic s.
Proof.
  intros [Hperm Hsort] Hnd.
  apply acyclic_rank with (f := fun x => default 0 (position_of x order)).
  intros p c Hpc.
  assert (c ∈ order) as (l1 & l2 & ->)%list_elem_of_split.
  { rewrite Hperm. destruct Hpc as (n & Hn & <- & _). by apply list_elem_of_fmap_2. }
  apply NoDup_app in Hnd as (_ & Hdisj & _).
  rewrite position_of_app_r by (intros ?; set_solver).
  pose proof (Hsort _ _ _ eq_refl _ Hpc) as Hp.
  rewrite position_of_app_l by done.
  destruct (position_of_elem _ _ Hp) as (i & -> & ?). done.
Qed.

(** ** Correctness *)

Lemma topo_order_unfold s :
  exists order d, kahn_inv (edges s) (known s) d [] order /\
    topo_order s =
      if decide (length order = length (st_nodes s)) then Ok order
      else Err (ChangesetInvalid
        ("cycle detected in PR-stack DAG: only " +:+ pretty (length order) +:+ " of "
           +:+ pretty (length (st_nodes s)) +:+ " nodes orderable")).
Proof.
  destruct (topo_loop_final s) as (order & d & Hloop & Hinv).
  exists order, d. split; [done|]. unfold topo_order.
  destruct (topo_scan s) as [di ch]. simpl in *. by rewrite Hloop.
Qed.

Lemma topo_order_Ok_inv s order :
  topo_order s = Ok order -> topological s order /\ NoDup order.
Proof.
  destruct (topo_order_unfold s) as (order' & d & Hinv & ->).
  case_decide as Hlen; [|done]. intros [= <-].
  destruct Hinv as [Hnd _ _ Hsub Hsort]. rewrite app_nil_r in Hnd.
  split; [|done]. split.
  - apply NoDup_incl_Permutation; [done| |].
    + intros x Hx. apply elem_of_known, Hsub. by rewrite app_nil_r.
    + unfold node_ids. rewrite length_fmap. lia.
  - intros l1 c l2 Heq p Hp%elem_of_edges. by eapply Hsort.
Qed.

Lemma topo_order_complete s :
  NoDup (node_ids s) -> acyclic s -> exists order, topo_order s = Ok order.
Proof.
  intros Hids Hacy. destruct (topo_order_unfold s) as (order & d & Hinv & ->).
  rewrite decide_True; [by eauto|].
  destruct Hinv as [Hnd _ Hzero Hsub _]. rewrite app_nil_r in Hnd.
  assert (forall x, x ∈ known s -> x ∈ order) as Hall.
  { intros x Hx. destruct (decide (x ∈ order)) as [|Hn]; [done|]. exfalso.
    eapply (finite_no_source (parent_of s) (known s ∖ list_to_set order) x); [set_solver| |done].
    intros y [Hy Hyn]%elem_of_difference. rewrite elem_of_list_to_set in Hyn.
    specialize (Hzero y Hy). rewrite app_nil_r, remaining_zero in Hzero.
    destruct (decide (Forall (fun e => e.2 = y -> e.1 ∈ order) (edges s))) as [HF|HF].
    { exfalso. apply Hyn, Hzero. intros p Hp. rewrite Forall_forall in HF. by apply (HF (p, y)). }
    apply not_Forall_Exists in HF; [|apply _]. apply Exists_exists in HF as ([p c] & Hin & Hpc).
    simpl in Hpc. destruct (decide (c = y)) as [->|]; [|naive_solver].
    exists p. rewrite elem_of_difference, elem_of_list_to_set.
    apply elem_of_edges in Hin. split; [|done].
    split; [|naive_solver]. apply elem_of_known. by destruct Hin as (n & _ & _ & _ & ?). }
  replace (length (st_nodes s)) with (length (node_ids s)) by apply length_fmap.
  apply Permutation_length, NoDup_Permutation; [done..|].
  intros x. rewrite <- elem_of_known. split; [|auto].
  intros Hx. apply Hsub. by rewrite app_nil_r.
Qed.

Lemma topo_order_never_panics s : topo_order s <> Panic.
Proof. destruct (topo_order_unfold s) as (o & d & _ & ->). by case_decide. Qed.

Lemma topo_order_Ok_valid s order :
  topo_order s = Ok order -> NoDup (node_ids s) /\ acyclic s.
Proof.
  intros [Htop Hnd]%topo_order_Ok_inv. split; [|by eapply topological_acyclic].
  destruct Htop as [Hp _]. by rewrite <- Hp.
Qed.

(** C28. Kahn's algorithm is correct: [topo_order] never panics (no missing
    in-degree entry, no underflow, no unfinished loop); an order it returns lists
    every node exactly once, each after all of its known parents; and it returns
    one exactly when no node id is repeated and the parent relation has no cycle,
    so the refusal is precise. *)
Theorem topo_order_correct s :
  topo_order s <> Panic /\
  (forall order, topo_order s = Ok order -> topological s order /\ NoDup order) /\
  ((exists order, topo_order s = Ok order) <-> NoDup (node_ids s) /\ acyclic s).
Proof.
  split; [apply topo_order_never_panics|]. split; [apply topo_order_Ok_inv|]. split.
  - intros [order ?]. by eapply topo_order_Ok_valid.
  - intros [??]. by apply topo_order_complete.
Qed.
