(* ===== verification/StackOrder.v ===== *)
(** * The operator's reading order

    [src/packages/tddy-pr-stack/src/stack_ops/order.rs]: numbering the nodes that
    record no [display_order] ([assign_missing_display_order], [numbering_order],
    [next_display_order]) and the one-step move ([swap_with_neighbour]); with the
    theorems on [Stack::display_order] of [changeset/stack.rs]. *)

From S2P Require Import Prelude Stack StackTopo.

(** ** Definitions *)

(** [node.parents.iter().all(|p| !known.contains(p) || placed.contains(p))]. *)
Definition is_ready (kn placed : gset string) (n : StackNode) : bool :=
  forallb (fun p => bool_decide (p ∉ kn) || bool_decide (p ∈ placed)) (sn_parents n).

(** [while !remaining.is_empty()]; one unit of fuel per round. *)
Fixpoint numbering_loop (fuel : nat) (kn placed : gset string) (remaining : list StackNode)
    (ordered : list string) : list string :=
  match remaining, fuel with
  | [], _ => ordered
  | _, 0 => ordered
  | _, S fuel' =>
      let ready := filter (fun n => is_ready kn placed n = true) remaining in
      let blocked := filter (fun n => is_ready kn placed n = false) remaining in
      match ready with
      | [] => ordered ++ (sn_node_id <$> blocked)
      | _ =>
          numbering_loop fuel' kn (placed ∪ list_to_set (sn_node_id <$> ready)) blocked
            (ordered ++ (sn_node_id <$> ready))
      end
  end.

Definition numbering_order (s : Stack) : list string :=
  numbering_loop (length (st_nodes s)) (known s) ∅ (st_nodes s) [].

(** [iter().filter_map(..).max()]. *)
Fixpoint max_display_order (l : list StackNode) : option N :=
  match l with
  | [] => None
  | n :: l' =>
      match sn_display_order n, max_display_order l' with
      | Some d, Some m => Some (N.max d m)
      | Some d, None => Some d
      | None, m => m
      end
  end.

Definition next_display_order (s : Stack) : N :=
  match max_display_order (st_nodes s) with
  | Some highest => u32_saturating_add highest 1
  | None => 0
  end.

(** One iteration of the numbering loop, threading [next]. *)
Definition number_one (acc : list StackNode * N) (id : string) : list StackNode * N :=
  let '(l, next) := acc in
  match find_node id l with
  | None => acc
  | Some n =>
      match sn_display_order n with
      | Some _ => acc
      | None =>
          (modify_first id (fun n => set_display_order n (Some next)) l,
           u32_saturating_add next 1)
      end
  end.

Definition assign_missing_display_order (s : Stack) : Stack :=
  mkStack (st_version s)
    (foldl number_one (st_nodes s, next_display_order s) (numbering_order s)).1.

(** [for node in &mut stack.nodes { if .. == node_id {..} else if .. == neighbour {..} }]. *)
Definition swap_one (id neighbour : string) (moved displaced : N) (n : StackNode) : StackNode :=
  if decide (sn_node_id n = id) then set_display_order n (Some displaced)
  else if decide (sn_node_id n = neighbour) then set_display_order n (Some moved)
  else n.

(** The row the node passes: [position.checked_sub(1)] or [checked_add(1)]. *)
Definition neighbour_of (order : list string) (position : nat) (up : bool) : option string :=
  if up then match position with 0 => None | S i => order !! i end
  else order !! S position.

Definition swap_with_neighbour (s : Stack) (id : string) (up : bool) : Stack :=
  let order := display_order s in
  match position_of id order with
  | None => s
  | Some position =>
      match neighbour_of order position up with
      | None => s
      | Some neighbour =>
          match node s id ≫= sn_display_order, node s neighbour ≫= sn_display_order with
          | Some moved, Some displaced =>
              mkStack (st_version s) (swap_one id neighbour moved displaced <$> st_nodes s)
          | _, _ => s
          end
      end
  end.

(** ** The reading order is a total order on every row *)

Lemma display_key_leb_total a b : display_key_leb a b = true \/ display_key_leb b a = true.
Proof.
  destruct a as [[a1 a2] a3], b as [[b1 b2] b3]. simpl.
  rewrite (N.compare_antisym a1 b1), (N.compare_antisym a2 b2).
  destruct (a1 ?= b1)%N; simpl; auto. destruct (a2 ?= b2)%N; simpl; auto.
  apply String_leb_total.
Qed.

Lemma display_key_leb_spec a b :
  display_key_leb a b = true <->
  (a.1.1 < b.1.1)%N \/ (a.1.1 = b.1.1 /\ ((a.1.2 < b.1.2)%N \/ (a.1.2 = b.1.2 /\ String.le a.2 b.2))).
Proof.
  destruct a as [[a1 a2] a3], b as [[b1 b2] b3]. simpl.
  destruct (N.compare_spec a1 b1); subst; [|naive_solver lia..].
  destruct (N.compare_spec a2 b2); subst; [|naive_solver lia..].
  rewrite bool_decide_eq_true. naive_solver lia.
Qed.

Lemma display_key_leb_trans a b c :
  display_key_leb a b = true -> display_key_leb b c = true -> display_key_leb a c = true.
Proof.
  rewrite !display_key_leb_spec.
  intros [?|(E1 & [?|(E2 & H1)])] [?|(E3 & [?|(E4 & H2)])]; try (left; lia); try (right; lia).
  right. split; [congruence|]. right. split; [congruence|]. by etrans.
Qed.

Definition display_sort (s : Stack) : list StackNode :=
  sort_by (fun x y => display_key_leb (display_sort_key s x) (display_sort_key s y)) (st_nodes s).

Lemma display_sort_Permutation s : display_sort s ≡ₚ st_nodes s.
Proof. apply sort_by_Permutation. Qed.

Lemma display_sort_sorted s :
  StronglySorted (fun x y => display_key_leb (display_sort_key s x) (display_sort_key s y) = true)
    (display_sort s).
Proof.
  apply sort_by_sorted; [intros; apply display_key_leb_total|].
  intros x y z. apply display_key_leb_trans.
Qed.

Lemma display_order_Permutation s : display_order s ≡ₚ node_ids s.
Proof. unfold display_order, node_ids. by rewrite sort_by_Permutation. Qed.

(** ** [numbering_order] *)

Lemma filter_true_false {A} (f : A -> bool) (l : list A) :
  filter (fun x => f x = true) l ++ filter (fun x => f x = false) l ≡ₚ l.
Proof.
  induction l as [|x l IH]; [done|]. rewrite !filter_cons.
  destruct (f x); simpl; [by rewrite IH|].
  rewrite <- Permutation_middle. by rewrite IH.
Qed.

Lemma length_filter_false {A} (f : A -> bool) (l : list A) :
  filter (fun x => f x = true) l <> [] ->
  length (filter (fun x => f x = false) l) < length l.
Proof.
  intros Hne. pose proof (Permutation_length (filter_true_false f l)) as Hlen.
  rewrite length_app in Hlen. destruct (filter _ l); [done|]. simpl in *. lia.
Qed.

Lemma numbering_loop_Permutation fuel kn placed remaining ordered :
  length remaining <= fuel ->
  numbering_loop fuel kn placed remaining ordered ≡ₚ ordered ++ (sn_node_id <$> remaining).
Proof.
  revert placed remaining ordered. induction fuel as [|fuel IH]; intros placed rem ord Hf.
  { destruct rem; simpl in *; [|lia]. by rewrite app_nil_r. }
  destruct rem as [|n rem]; [simpl; by rewrite app_nil_r|].
  pose proof (filter_true_false (is_ready kn placed) (n :: rem)) as Hp.
  pose proof (length_filter_false (is_ready kn placed) (n :: rem)) as Hl.
  cbn [numbering_loop]. revert Hp Hl.
  destruct (filter (fun n => is_ready kn placed n = true) (n :: rem)) as [|r ready]; intros Hp Hl.
  - apply Permutation_app_head, fmap_Permutation. exact Hp.
  - rewrite IH by (specialize (Hl ltac:(done)); simpl in *; lia).
    rewrite <- app_assoc, <- fmap_app. apply Permutation_app_head, fmap_Permutation. exact Hp.
Qed.

Lemma numbering_order_Permutation s : numbering_order s ≡ₚ node_ids s.
Proof. unfold numbering_order. by rewrite numbering_loop_Permutation. Qed.

(** ** Looking nodes up when ids are unique *)

Lemma find_node_Some id l n : find_node id l = Some n -> n ∈ l /\ sn_node_id n = id.
Proof.
  induction l as [|m l IH]; simpl; [done|]. case_decide.
  - intros [= <-]. split; [left|done].
  - intros [??]%IH. split; [by right|done].
Qed.

Lemma find_node_None id l : find_node id l = None <-> id ∉ sn_node_id <$> l.
Proof.
  induction l as [|m l IH]; simpl; [set_solver|]. case_decide; [set_solver|].
  rewrite IH. set_solver.
Qed.

Lemma find_node_unique l n :
  NoDup (sn_node_id <$> l) -> n ∈ l -> find_node (sn_node_id n) l = Some n.
Proof.
  induction l as [|m l IH]; [set_solver|].
  rewrite fmap_cons, NoDup_cons. intros [Hm Hnd] [->|Hn]%elem_of_cons; simpl.
  - by rewrite decide_True.
  - rewrite decide_False; [auto|]. intros Heq. apply Hm. rewrite Heq. by apply list_elem_of_fmap_2.
Qed.

Lemma node_unique l n m :
  NoDup (sn_node_id <$> l) -> n ∈ l -> m ∈ l -> sn_node_id n = sn_node_id m -> n = m.
Proof.
  intros Hnd Hn Hm Heq.
  pose proof (find_node_unique l n Hnd Hn) as H1.
  pose proof (find_node_unique l m Hnd Hm) as H2. rewrite Heq in H1. congruence.
Qed.

Lemma modify_first_map id f l :
  NoDup (sn_node_id <$> l) ->
  modify_first id f l = (fun n => if decide (sn_node_id n = id) then f n else n) <$> l.
Proof.
  induction l as [|m l IH]; [done|]. rewrite fmap_cons, NoDup_cons. intros [Hm Hnd]. simpl.
  case_decide as Hid.
  - f_equal. symmetry. apply fmap_id_in. intros n Hn. rewrite decide_False; [done|].
    intros Heq. apply Hm. rewrite Hid, <- Heq. by apply list_elem_of_fmap_2.
  - by rewrite IH.
Qed.

Lemma modify_first_ids id f l :
  (forall n, sn_node_id (f n) = sn_node_id n) ->
  sn_node_id <$> modify_first id f l = sn_node_id <$> l.
Proof.
  intros Hf. induction l as [|m l IH]; simpl; [done|].
  case_decide; simpl; [by rewrite Hf|by f_equal].
Qed.

(** ** The numbering order of a DAG is topological *)

Lemma is_ready_spec kn placed n :
  is_ready kn placed n = true <-> forall p, p ∈ sn_parents n -> p ∈ kn -> p ∈ placed.
Proof.
  unfold is_ready. rewrite forallb_forall. split.
  - intros H p Hp Hk. specialize (H p (proj1 (list_elem_of_In _ _) Hp)).
    apply orb_true_iff in H as [H|H]; apply bool_decide_eq_true in H; [done|done].
  - intros H p Hp%list_elem_of_In. apply orb_true_iff. rewrite !bool_decide_eq_true.
    destruct (decide (p ∈ kn)); [right; auto|by left].
Qed.

Lemma not_ready_parent kn placed n :
  is_ready kn placed n = false -> exists p, p ∈ sn_parents n /\ p ∈ kn /\ p ∉ placed.
Proof.
  intros Hr. destruct (decide (Forall (fun p => p ∈ kn -> p ∈ placed) (sn_parents n))) as [HF|HF].
  - rewrite Forall_forall in HF. exfalso.
    rewrite <- not_true_iff_false in Hr. apply Hr, is_ready_spec. naive_solver.
  - apply not_Forall_Exists in HF; [|apply _]. apply Exists_exists in HF as (p & Hp & Hn).
    exists p. split; [done|]. destruct (decide (p ∈ kn)), (decide (p ∈ placed)); naive_solver.
Qed.

(** [ordered] puts every known parent before its child. *)
Definition in_dependency_order (s : Stack) (ordered : list string) : Prop :=
  forall l1 c l2, ordered = l1 ++ c :: l2 -> forall p, parent_of s p c -> p ∈ l1.

Lemma in_dependency_order_app s l1 l2 :
  in_dependency_order s l1 ->
  (forall c p, c ∈ l2 -> parent_of s p c -> p ∈ l1) ->
  in_dependency_order s (l1 ++ l2).
Proof.
  intros H1 H2 k1 c k2 Heq p Hp.
  apply app_eq_inv in Heq as [(k & -> & Hk)|(k & -> & Hk)].
  - destruct k as [|x k]; simpl in Hk.
    + rewrite app_nil_r in *. apply (H2 c p); [rewrite <- Hk; left|done].
    + injection Hk as <- ->. by eapply H1.
  - rewrite elem_of_app. left. eapply H2; [|done]. rewrite Hk. set_solver.
Qed.

Lemma numbering_loop_order s fuel placed remaining ordered :
  NoDup (node_ids s) -> acyclic s -> length remaining <= fuel ->
  (forall n, n ∈ remaining -> n ∈ st_nodes s) ->
  (forall x, x ∈ placed <-> x ∈ ordered) ->
  ordered ++ (sn_node_id <$> remaining) ≡ₚ node_ids s ->
  in_dependency_order s ordered ->
  in_dependency_order s (numbering_loop fuel (known s) placed remaining ordered).
Proof.
  intros Hids Hacy. revert placed remaining ordered.
  induction fuel as [|fuel IH]; intros placed rem ord Hf Hsub Hpl Hperm Hord.
  { destruct rem; simpl in *; [done|lia]. }
  destruct rem as [|n rem]; [done|].
  pose proof (filter_true_false (is_ready (known s) placed) (n :: rem)) as Hp.
  pose proof (length_filter_false (is_ready (known s) placed) (n :: rem)) as Hl.
  cbn [numbering_loop].
  set (ready := filter (fun n => is_ready (known s) placed n = true) (n :: rem)) in *.
  set (blocked := filter (fun n => is_ready (known s) placed n = false) (n :: rem)) in *.
  assert (ready <> []) as Hne.
  { intros Hnil. rewrite Hnil in Hp. simpl in Hp.
    apply (finite_no_source (parent_of s) (list_to_set (sn_node_id <$> (n :: rem))) (sn_node_id n));
      [set_solver| |done].
    intros x Hx. rewrite elem_of_list_to_set in Hx.
    apply list_elem_of_fmap in Hx as (m & -> & Hm).
    assert (m ∈ blocked) as [Hb _]%list_elem_of_filter by (by rewrite Hp).
    apply not_ready_parent in Hb as (p & Hpar & Hk & Hnp). apply elem_of_known in Hk.
    exists p. rewrite elem_of_list_to_set. split; [|by exists m; repeat split; auto].
    pose proof Hk as Hk'. rewrite <- Hperm, elem_of_app, <- Hpl in Hk'. naive_solver. }
  destruct ready as [|r ready'] eqn:Hready; [done|]. rewrite <- Hready in *.
  apply IH.
  - specialize (Hl Hne). simpl in *. lia.
  - intros m [_ Hm]%list_elem_of_filter. auto.
  - intros x. rewrite elem_of_union, elem_of_app, elem_of_list_to_set, Hpl. done.
  - rewrite <- Hperm, <- app_assoc, <- fmap_app.
    apply Permutation_app_head, fmap_Permutation. exact Hp.
  - apply in_dependency_order_app; [done|].
    intros c p Hc (m & Hm & Hmc & Hpm & Hpk).
    apply list_elem_of_fmap in Hc as (m' & -> & Hm').
    apply list_elem_of_filter in Hm' as [Hr Hm'].
    assert (m = m') as -> by (eapply node_unique; eauto).
    rewrite <- Hpl. eapply is_ready_spec; [done..|]. by apply elem_of_known.
Qed.

Lemma numbering_order_topological s :
  NoDup (node_ids s) -> acyclic s -> topological s (numbering_order s).
Proof.
  intros Hids Hacy. split; [apply numbering_order_Permutation|].
  apply numbering_loop_order; auto.
  - set_solver.
  - intros [] c l2 Heq; discriminate.
Qed.

(** ** [assign_missing_display_order] in closed form *)

(** The unnumbered ids, in the order they are numbered. *)
Definition unnumbered (l : list StackNode) (o : list string) : list string :=
  filter (fun id => sn_display_order <$> find_node id l = Some None) o.

(** A node as the numbering leaves it: an existing number is kept, the [k]-th
    unnumbered node takes [next + k], saturating. *)
Definition number_with (next : N) (u : list string) (n : StackNode) : StackNode :=
  match sn_display_order n with
  | Some _ => n
  | None =>
      match position_of (sn_node_id n) u with
      | Some k => set_display_order n (Some (u32_saturating_add next (N.of_nat k)))
      | None => n
      end
  end.

Definition renumber_at (id : string) (next : N) (n : StackNode) : StackNode :=
  if decide (sn_node_id n = id) then set_display_order n (Some next) else n.

Lemma renumber_at_id id next n : sn_node_id (renumber_at id next n) = sn_node_id n.
Proof. unfold renumber_at. by case_decide. Qed.

Lemma renumber_at_ids id next (l : list StackNode) : sn_node_id <$> (renumber_at id next <$> l) = sn_node_id <$> l.
Proof. rewrite <- list_fmap_compose. apply fmap_ext_in. intros. apply renumber_at_id. Qed.

Lemma find_node_fmap id (g : StackNode -> StackNode) (l : list StackNode) :
  (forall n, sn_node_id (g n) = sn_node_id n) ->
  find_node id (g <$> l) = g <$> find_node id l.
Proof.
  intros Hg. induction l as [|m l IH]; simpl; [done|].
  rewrite Hg. by case_decide.
Qed.

Lemma unnumbered_renumber id next l o :
  id ∉ o -> unnumbered (renumber_at id next <$> l) o = unnumbered l o.
Proof.
  intros Hid. unfold unnumbered. apply filter_ext_in. intros x Hx.
  rewrite find_node_fmap by apply renumber_at_id.
  destruct (find_node x l) as [m|] eqn:Hf; [|done]. simpl.
  apply find_node_Some in Hf as [_ <-]. unfold renumber_at.
  rewrite decide_False by set_solver. done.
Qed.

Lemma number_fold o l next :
  NoDup (sn_node_id <$> l) -> NoDup o -> (next <= u32_max)%N ->
  (foldl number_one (l, next) o).1 = number_with next (unnumbered l o) <$> l.
Proof.
  intros Hids Hnd. revert l next Hids. induction Hnd as [|id o Hid _ IH]; intros l next Hids Hb.
  { simpl. symmetry. apply fmap_id_in. intros n _. unfold number_with. by case_match. }
  unfold unnumbered. rewrite filter_cons. fold (unnumbered l o). simpl.
  destruct (find_node id l) as [m|] eqn:Hf; simpl; [|by rewrite IH].
  destruct (sn_display_order m) as [d|] eqn:Hd; simpl; [by rewrite IH|].
  rewrite modify_first_map by done. fold (renumber_at id next).
  rewrite IH; [|by rewrite renumber_at_ids|unfold u32_saturating_add, u32_max; lia].
  rewrite unnumbered_renumber, <- list_fmap_compose by done. apply fmap_ext_in.
  intros n Hi. simpl. apply find_node_Some in Hf as [Hm Hmid].
  unfold renumber_at. destruct (decide (sn_node_id n = id)) as [Hn|Hn].
  - assert (n = m) as -> by (eapply node_unique; eauto; congruence).
    unfold number_with. simpl. rewrite Hd. rewrite decide_True by done. simpl.
    f_equal. f_equal. unfold u32_saturating_add, u32_max in *. lia.
  - unfold number_with. destruct (sn_display_order n); [done|]. simpl.
    rewrite decide_False by congruence. destruct (position_of _ _) as [k|]; [|done]. simpl.
    f_equal. f_equal. unfold u32_saturating_add, u32_max in *. lia.
Qed.

Lemma next_display_order_le s : (next_display_order s <= u32_max)%N.
Proof.
  unfold next_display_order. destruct (max_display_order _); [|unfold u32_max; lia].
  unfold u32_saturating_add. lia.
Qed.

Lemma assign_missing_closed s :
  NoDup (node_ids s) ->
  st_nodes (assign_missing_display_order s) =
    number_with (next_display_order s) (unnumbered (st_nodes s) (numbering_order s)) <$> st_nodes s.
Proof.
  intros Hids. unfold assign_missing_display_order. simpl. apply number_fold; [done| |].
  - by rewrite numbering_order_Permutation.
  - apply next_display_order_le.
Qed.

(** ** What the numbering does *)

(** Everything a stack says except its reading order. *)
Definition erase_order (s : Stack) : Stack :=
  mkStack (st_version s) ((fun n => set_display_order n None) <$> st_nodes s).

(** Every row has a number and no two rows share one. *)
Definition numbered (s : Stack) : Prop :=
  (forall n, n ∈ st_nodes s -> is_Some (sn_display_order n)) /\
  NoDup (sn_display_order <$> st_nodes s).

Lemma set_display_order_erase n d : set_display_order (set_display_order n d) None = set_display_order n None.
Proof. done. Qed.

Lemma number_with_erase next u n :
  set_display_order (number_with next u n) None = set_display_order n None.
Proof. unfold number_with. by repeat case_match. Qed.

Lemma number_with_id next u n : sn_node_id (number_with next u n) = sn_node_id n.
Proof. unfold number_with. by repeat case_match. Qed.

Lemma assign_missing_node_ids s :
  NoDup (node_ids s) -> node_ids (assign_missing_display_order s) = node_ids s.
Proof.
  intros Hids. unfold node_ids. rewrite assign_missing_closed by done.
  rewrite <- list_fmap_compose. apply fmap_ext_in. intros. apply number_with_id.
Qed.

Lemma assign_missing_erase s :
  NoDup (node_ids s) -> erase_order (assign_missing_display_order s) = erase_order s.
Proof.
  intros Hids. unfold erase_order. rewrite assign_missing_closed by done. simpl. f_equal.
  rewrite <- list_fmap_compose. apply fmap_ext_in. intros. apply number_with_erase.
Qed.

Lemma unnumbered_position s n :
  NoDup (node_ids s) -> n ∈ st_nodes s -> sn_display_order n = None ->
  exists k, position_of (sn_node_id n) (unnumbered (st_nodes s) (numbering_order s)) = Some k /\
    k < length (st_nodes s).
Proof.
  intros Hids Hn Hd.
  destruct (position_of_elem (sn_node_id n) (unnumbered (st_nodes s) (numbering_order s)))
    as (k & Hk & Hlt).
  - unfold unnumbered. apply list_elem_of_filter. rewrite find_node_unique by done.
    simpl. rewrite Hd. split; [done|].
    rewrite numbering_order_Permutation. by apply list_elem_of_fmap_2.
  - exists k. split; [done|]. eapply Nat.lt_le_trans; [done|]. unfold unnumbered.
    rewrite length_filter, numbering_order_Permutation. unfold node_ids. by rewrite length_fmap.
Qed.

Lemma number_with_numbers s n :
  NoDup (node_ids s) -> n ∈ st_nodes s ->
  is_Some (sn_display_order (number_with (next_display_order s)
    (unnumbered (st_nodes s) (numbering_order s)) n)).
Proof.
  intros Hids Hn. unfold number_with. destruct (sn_display_order n) as [d|] eqn:Hd.
  - rewrite Hd. by eexists.
  - destruct (unnumbered_position s n) as (k & -> & _); [done..|]. by eexists.
Qed.

Lemma assign_missing_all_numbered s n :
  NoDup (node_ids s) -> n ∈ st_nodes (assign_missing_display_order s) ->
  is_Some (sn_display_order n).
Proof.
  intros Hids. rewrite assign_missing_closed by done.
  intros (m & -> & Hm)%list_elem_of_fmap. by apply number_with_numbers.
Qed.

Lemma assign_missing_fixed s :
  NoDup (node_ids s) -> (forall n, n ∈ st_nodes s -> is_Some (sn_display_order n)) ->
  assign_missing_display_order s = s.
Proof.
  intros Hids Hall. pose proof (assign_missing_closed s Hids) as Hc.
  rewrite fmap_id_in in Hc.
  - destruct s, (assign_missing_display_order _) eqn:Ha. simpl in *. subst.
    unfold assign_missing_display_order in Ha. by injection Ha as -> _.
  - intros n Hn. unfold number_with. by destruct (Hall n Hn) as [d ->].
Qed.

Lemma max_display_order_ge l n d :
  n ∈ l -> sn_display_order n = Some d -> exists m, max_display_order l = Some m /\ (d <= m)%N.
Proof.
  intros Hn Hd. induction l as [|x l IH]; [set_solver|]. simpl.
  apply elem_of_cons in Hn as [<-|Hn].
  - rewrite Hd. destruct (max_display_order l); eexists; (split; [done|]); lia.
  - destruct (IH Hn) as (m & -> & ?).
    destruct (sn_display_order x); eexists; (split; [done|]); lia.
Qed.

Lemma next_display_order_gt s n d :
  (next_display_order s < u32_max)%N ->
  n ∈ st_nodes s -> sn_display_order n = Some d -> (d < next_display_order s)%N.
Proof.
  intros Hb Hn Hd. destruct (max_display_order_ge _ _ _ Hn Hd) as (m & Hm & ?).
  unfold next_display_order in *. rewrite Hm in *. unfold u32_saturating_add in *. lia.
Qed.

Lemma position_of_inj x y l k : position_of x l = Some k -> position_of y l = Some k -> x = y.
Proof.
  revert k. induction l as [|z l IH]; intros k; simpl; [done|].
  repeat case_decide; simplify_eq; intros Hx Hy; simplify_eq; [done|..].
  - by destruct (position_of y l).
  - by destruct (position_of x l).
  - destruct (position_of x l), (position_of y l); simplify_eq/=. by eapply IH.
Qed.

(** Numbering keeps distinct numbers distinct, as long as [u32] has room. *)
Lemma assign_missing_numbered s :
  NoDup (node_ids s) ->
  (forall n m d, n ∈ st_nodes s -> m ∈ st_nodes s ->
     sn_display_order n = Some d -> sn_display_order m = Some d -> n = m) ->
  (next_display_order s + N.of_nat (length (st_nodes s)) <= u32_max)%N ->
  numbered (assign_missing_display_order s).
Proof.
  intros Hids Hdist Hroom. split; [by intros; eapply assign_missing_all_numbered|].
  rewrite assign_missing_closed by done. rewrite <- list_fmap_compose.
  apply NoDup_fmap_2_strong; [|by eapply NoDup_fmap_1].
  set (next := next_display_order s) in *.
  set (u := unnumbered (st_nodes s) (numbering_order s)).
  assert (forall n, n ∈ st_nodes s ->
    (exists d, sn_display_order n = Some d /\ (d < next)%N /\
       sn_display_order (number_with next u n) = Some d) \/
    (exists k, position_of (sn_node_id n) u = Some k /\
       sn_display_order (number_with next u n) = Some (next + N.of_nat k)%N)) as Hcase.
  { intros n Hn. unfold number_with. destruct (sn_display_order n) as [d|] eqn:Hd.
    - left. exists d. split; [done|]. split; [|by rewrite Hd].
      apply (next_display_order_gt s n); [|done|done]. fold next.
      destruct (st_nodes s); [set_solver|]. simpl in *. lia.
    - right. destruct (unnumbered_position s n) as (k & Hk & Hlt); [done..|].
      exists k. unfold u. rewrite Hk. split; [done|]. simpl. f_equal.
      unfold u32_saturating_add. lia. }
  intros n m Hn Hm Heq. simpl in Heq.
  destruct (Hcase n Hn) as [(d & Hd & Hlt & E1)|(k & Hk & E1)];
    destruct (Hcase m Hm) as [(d' & Hd' & Hlt' & E2)|(k' & Hk' & E2)];
    rewrite E1, E2 in Heq; injection Heq as Heq.
  - subst. by eapply Hdist.
  - lia.
  - lia.
  - assert (k = k') as <- by lia. eapply node_unique; [done..|]. by eapply position_of_inj.
Qed.

(** ** The reading order of a numbered stack *)

Definition row_number (n : StackNode) : N := default u32_max (sn_display_order n).

Lemma display_sort_rows s :
  StronglySorted (fun x y => (row_number x <= row_number y)%N) (display_sort s).
Proof.
  pose proof (display_sort_sorted s) as Hs. revert Hs. generalize (display_sort s) as l.
  induction 1 as [|x l Hl IH Hx]; constructor; [done|].
  eapply Forall_impl; [exact Hx|]. intros y Hy%display_key_leb_spec. simpl in Hy.
  unfold row_number. lia.
Qed.

Lemma numbered_row_inj s n m :
  numbered s -> n ∈ st_nodes s -> m ∈ st_nodes s -> row_number n = row_number m -> n = m.
Proof.
  intros [Hall Hnd] Hn Hm. unfold row_number.
  destruct (Hall n Hn) as [d Hd], (Hall m Hm) as [d' Hd']. rewrite Hd, Hd'. simpl. intros ->.
  apply list_elem_of_lookup in Hn as [i Hi]. apply list_elem_of_lookup in Hm as [j Hj].
  assert (i = j) as ->; [|congruence].
  eapply NoDup_lookup; [exact Hnd|..]; rewrite list_lookup_fmap; [rewrite Hi|rewrite Hj]; simpl;
    [by rewrite Hd|by rewrite Hd'].
Qed.

(** A numbered stack reads strictly in its numbers: any listing of its rows in
    number order is the one [display_order] computes. *)
Lemma display_sort_unique s l :
  numbered s -> l ≡ₚ st_nodes s ->
  StronglySorted (fun x y => (row_number x <= row_number y)%N) l -> display_sort s = l.
Proof.
  intros Hnum Hp Hs. eapply sorted_unique; [|apply display_sort_rows|exact Hs|].
  - intros x y Hx Hy ??. rewrite display_sort_Permutation in Hx, Hy.
    eapply numbered_row_inj; [done..|simpl in *; lia].
  - by rewrite display_sort_Permutation, Hp.
Qed.

Lemma display_order_ids s : display_order s = sn_node_id <$> display_sort s.
Proof. done. Qed.

(** *** The one-step move *)

(** Rows [i] and [i+1] exchanged. *)
Definition swap_rows (i : nat) (l : list string) : list string :=
  match l !! i, l !! S i with
  | Some x, Some y => <[i := y]> (<[S i := x]> l)
  | _, _ => l
  end.

Lemma swap_rows_app l1 x y l2 :
  swap_rows (length l1) (l1 ++ x :: y :: l2) = l1 ++ y :: x :: l2.
Proof.
  unfold swap_rows. rewrite list_lookup_middle by done.
  rewrite (lookup_app_r l1) by lia. replace (S (length l1) - length l1) with 1 by lia. simpl.
  rewrite insert_app_r_alt by lia. replace (S (length l1) - length l1) with 1 by lia. simpl.
  rewrite insert_app_r_alt by lia. by rewrite Nat.sub_diag.
Qed.

Lemma lookup_two {A} (l : list A) i x y :
  l !! i = Some x -> l !! S i = Some y ->
  exists l1 l2, l = l1 ++ x :: y :: l2 /\ length l1 = i.
Proof.
  intros Hx Hy. exists (take i l), (drop (S (S i)) l). split.
  - rewrite <- (take_drop i l) at 1. rewrite (drop_S l x i) by done.
    by rewrite (drop_S l y (S i)) by done.
  - apply length_take_le. apply lookup_lt_Some in Hx. lia.
Qed.

(** Exchanging the numbers of two rows. *)
Definition exchange (x y : StackNode) (n : StackNode) : StackNode :=
  if decide (sn_node_id n = sn_node_id x) then set_display_order n (sn_display_order y)
  else if decide (sn_node_id n = sn_node_id y) then set_display_order n (sn_display_order x)
  else n.

Lemma exchange_id x y n : sn_node_id (exchange x y n) = sn_node_id n.
Proof. unfold exchange. by repeat case_decide. Qed.

Section exchange.
Context (s : Stack) (x y : StackNode) (l1 l2 : list StackNode).
Context (Hids : NoDup (node_ids s)) (Hnum : numbered s).
Context (Hsort : display_sort s = l1 ++ x :: y :: l2).

Lemma exchange_distinct :
  sn_node_id x <> sn_node_id y /\
  forall n, n ∈ l1 \/ n ∈ l2 -> sn_node_id n <> sn_node_id x /\ sn_node_id n <> sn_node_id y.
Proof.
  assert (NoDup (sn_node_id <$> display_sort s)) as Hnd by (by rewrite display_sort_Permutation).
  rewrite Hsort, fmap_app, !fmap_cons in Hnd.
  apply NoDup_app in Hnd as (_ & Hd1 & Hnd2).
  apply NoDup_cons in Hnd2 as [Hx2 Hnd2]. apply NoDup_cons in Hnd2 as [Hy2 _].
  split; [set_solver|]. intros n [Hn|Hn]; apply (list_elem_of_fmap_2 sn_node_id) in Hn.
  - apply Hd1 in Hn. set_solver.
  - split; intros Heq; rewrite Heq in *; set_solver.
Qed.

Lemma exchange_rows :
  exchange x y <$> display_sort s =
    l1 ++ set_display_order x (sn_display_order y) :: set_display_order y (sn_display_order x) :: l2.
Proof.
  destruct exchange_distinct as [Hxy Hother].
  assert (forall n, n ∈ l1 \/ n ∈ l2 -> exchange x y n = n) as Hfix.
  { intros n Hn. destruct (Hother n Hn). unfold exchange. by rewrite !decide_False by done. }
  rewrite Hsort, fmap_app, !fmap_cons.
  rewrite (fmap_id_in _ l1), (fmap_id_in _ l2) by auto.
  unfold exchange. rewrite (decide_True (P := sn_node_id x = sn_node_id x)) by done.
  rewrite decide_False by congruence. by rewrite decide_True.
Qed.

Lemma exchange_orders_Permutation :
  sn_display_order <$> (exchange x y <$> st_nodes s) ≡ₚ sn_display_order <$> st_nodes s.
Proof.
  rewrite <- (display_sort_Permutation s), exchange_rows, Hsort, !fmap_app, !fmap_cons. simpl.
  apply Permutation_app_head, perm_swap.
Qed.

Lemma exchange_numbered v : numbered (mkStack v (exchange x y <$> st_nodes s)).
Proof.
  destruct Hnum as [Hall Hnd]. split; simpl.
  - intros n Hn. assert (sn_display_order n ∈ sn_display_order <$> st_nodes s) as Hin.
    { rewrite <- exchange_orders_Permutation. by apply list_elem_of_fmap_2. }
    apply list_elem_of_fmap in Hin as (m & -> & Hm). by apply Hall.
  - by rewrite exchange_orders_Permutation.
Qed.

Lemma exchange_display_order v :
  display_order (mkStack v (exchange x y <$> st_nodes s))
  = (sn_node_id <$> l1) ++ sn_node_id y :: sn_node_id x :: (sn_node_id <$> l2).
Proof.
  rewrite display_order_ids.
  rewrite (display_sort_unique _ (l1 ++ set_display_order y (sn_display_order x) ::
    set_display_order x (sn_display_order y) :: l2)).
  - by rewrite fmap_app, !fmap_cons.
  - apply exchange_numbered.
  - simpl. rewrite <- (display_sort_Permutation s), exchange_rows.
    apply Permutation_app_head, perm_swap.
  - pose proof (display_sort_rows s) as Hrows. rewrite Hsort in Hrows. revert Hrows.
    rewrite !StronglySorted_app, !StronglySorted_cons, !Forall_cons. unfold row_number. simpl.
    intros (Ha & Hb & (Hc & Hd) & He & Hf). repeat split; auto.
    intros n m Hn Hm. rewrite !elem_of_cons in Hm.
    destruct Hm as [->|[->|Hm]]; simpl; [apply (Ha n x)|apply (Ha n y)|apply (Ha n m)]; set_solver.
Qed.
End exchange.

Lemma exchange_sym x y n :
  sn_node_id x <> sn_node_id y -> exchange x y n = exchange y x n.
Proof. intros Hne. unfold exchange. repeat case_decide; congruence. Qed.

Lemma swap_one_exchange x y dx dy n :
  sn_display_order x = Some dx -> sn_display_order y = Some dy ->
  swap_one (sn_node_id x) (sn_node_id y) dx dy n = exchange x y n.
Proof. intros Hx Hy. unfold swap_one, exchange. by rewrite Hx, Hy. Qed.

(** Two adjacent rows of the reading order, as nodes. *)
Lemma adjacent_rows s i a b :
  display_order s !! i = Some a -> display_order s !! S i = Some b ->
  exists l1 x y l2, display_sort s = l1 ++ x :: y :: l2 /\ length l1 = i /\
    sn_node_id x = a /\ sn_node_id y = b /\ x ∈ st_nodes s /\ y ∈ st_nodes s.
Proof.
  rewrite display_order_ids, !list_lookup_fmap.
  intros (x & Hx & ->)%fmap_Some (y & Hy & ->)%fmap_Some.
  destruct (lookup_two _ _ _ _ Hx Hy) as (l1 & l2 & Heq & Hlen).
  exists l1, x, y, l2. rewrite <- !(display_sort_Permutation s), Heq. set_solver.
Qed.

Lemma position_of_lookup x l i : position_of x l = Some i -> l !! i = Some x.
Proof.
  revert i. induction l as [|y l IH]; intros i; simpl; [done|]. case_decide; subst.
  - by intros [= <-].
  - destruct (position_of x l) as [j|]; [|done]. intros [= <-]. simpl. auto.
Qed.

(** The exchange of two adjacent rows, from either side. *)
Lemma swap_adjacent s i a b (up : bool) :
  NoDup (node_ids s) -> numbered s ->
  display_order s !! i = Some a -> display_order s !! S i = Some b ->
  exists da db, node s a ≫= sn_display_order = Some da /\ node s b ≫= sn_display_order = Some db /\
    display_order (mkStack (st_version s)
      ((if up then swap_one b a db da else swap_one a b da db) <$> st_nodes s))
    = swap_rows i (display_order s).
Proof.
  intros Hids Hnum Ha Hb.
  destruct (adjacent_rows _ _ _ _ Ha Hb) as (l1 & x & y & l2 & Hs & <- & <- & <- & Hx & Hy).
  pose proof Hnum as [Hall Hnd].
  destruct (Hall x Hx) as [dx Hdx], (Hall y Hy) as [dy Hdy]. exists dx, dy.
  unfold node. rewrite !find_node_unique by done. simpl. split; [done|]. split; [done|].
  assert (sn_node_id x <> sn_node_id y) as Hne by (exact (proj1 (exchange_distinct s x y l1 l2 Hids Hnum Hs))).
  transitivity (display_order (mkStack (st_version s) (exchange x y <$> st_nodes s))).
  - do 2 f_equal. apply fmap_ext_in. intros n _. destruct up.
    + rewrite (swap_one_exchange y x) by done. by apply exchange_sym.
    + by apply swap_one_exchange.
  - rewrite (exchange_display_order s x y l1 l2) by (done || by split).
    rewrite (display_order_ids s), Hs, fmap_app, !fmap_cons.
    rewrite <- (length_fmap sn_node_id l1). by rewrite swap_rows_app.
Qed.

(** *** A stack that records no order reads topologically *)

Lemma foldl_insert_notin (l : list (string * N)) (m : gmap string N) id :
  id ∉ fst <$> l -> foldl (fun m p => <[p.1 := p.2]> m) m l !! id = m !! id.
Proof.
  revert m. induction l as [|[k v] l IH]; intros m Hn; [done|]. simpl.
  rewrite IH by set_solver. apply lookup_insert_ne. set_solver.
Qed.

Lemma foldl_insert_zip (l : list string) k (m : gmap string N) i id :
  NoDup l -> l !! i = Some id ->
  foldl (fun m p => <[p.1 := p.2]> m) m (zip l (N.of_nat <$> seq k (length l))) !! id
  = Some (N.of_nat (k + i)).
Proof.
  revert k m i. induction l as [|x l IH]; intros k m i Hnd Hi; [done|].
  apply NoDup_cons in Hnd as [Hx Hnd]. destruct i as [|i]; simplify_eq/=.
  - rewrite foldl_insert_notin; [|by rewrite fst_zip by (by rewrite length_fmap, length_seq)].
    rewrite lookup_insert_eq. do 2 f_equal. lia.
  - rewrite (IH (S k)) with (i := i) by done. do 2 f_equal. lia.
Qed.

Lemma StronglySorted_fmap_in {A B} (f : A -> B) (R : relation A) (S : relation B) (l : list A) :
  (forall x y, x ∈ l -> y ∈ l -> R x y -> S (f x) (f y)) ->
  StronglySorted R l -> StronglySorted S (f <$> l).
Proof.
  intros Hrs. induction 1 as [|x l Hl IH Hx]; simpl; constructor.
  - apply IH. intros. apply Hrs; [by right..|done].
  - apply Forall_fmap. rewrite Forall_forall in Hx |- *. intros y Hy. simpl.
    apply Hrs; [left|by right|auto].
Qed.

Lemma StronglySorted_lookup {A} (R : relation A) (l : list A) :
  (forall i j x y, i < j -> l !! i = Some x -> l !! j = Some y -> R x y) -> StronglySorted R l.
Proof.
  induction l as [|x l IH]; intros Hr; constructor.
  - apply IH. intros i j a b Hij Ha Hb. by apply (Hr (S i) (S j)); [lia|..].
  - apply Forall_forall. intros y [j Hj]%list_elem_of_lookup. by apply (Hr 0 (S j)); [lia|..].
Qed.

Lemma StronglySorted_lookup_1 {A} (R : relation A) (l : list A) i j x y :
  StronglySorted R l -> i < j -> l !! i = Some x -> l !! j = Some y -> R x y.
Proof.
  intros Hs. revert i j. induction Hs as [|z l _ IH Hz]; intros i j Hij Hx Hy; [done|].
  destruct j as [|j]; [lia|]. destruct i as [|i]; simplify_eq/=.
  - rewrite Forall_forall in Hz. apply Hz. by eapply list_elem_of_lookup_2.
  - apply (IH i j); [lia|done..].
Qed.

Lemma topo_index_lookup s order i id :
  topo_order s = Ok order -> order !! i = Some id -> topo_index s !! id = Some (N.of_nat i).
Proof.
  intros Hok Hi. unfold topo_index. rewrite Hok.
  destruct (topo_order_Ok_inv _ _ Hok) as [_ Hnd].
  apply (foldl_insert_zip order 0 ∅ i id Hnd Hi).
Qed.

Lemma display_order_unnumbered s order :
  topo_order s = Ok order -> (forall n, n ∈ st_nodes s -> sn_display_order n = None) ->
  display_order s = order.
Proof.
  intros Hok Hnone. destruct (topo_order_Ok_inv _ _ Hok) as [[Hperm _] Hnd].
  pose (rank id := default (declaration_index_of s id) (topo_index s !! id)).
  assert (forall i id, order !! i = Some id -> rank id = N.of_nat i) as Hrank.
  { intros i id Hi. unfold rank. by erewrite topo_index_lookup. }
  eapply (sorted_unique (fun a b => (rank a <= rank b)%N)).
  - intros a b Ha Hb Hab Hba.
    rewrite display_order_Permutation, <- Hperm in Ha, Hb.
    apply list_elem_of_lookup in Ha as [i Hi]. apply list_elem_of_lookup in Hb as [j Hj].
    rewrite (Hrank _ _ Hi), (Hrank _ _ Hj) in *. assert (i = j) as -> by lia. congruence.
  - rewrite display_order_ids. apply StronglySorted_fmap_in with (2 := display_sort_sorted s).
    intros x y Hx Hy. rewrite display_sort_Permutation in Hx, Hy.
    rewrite display_key_leb_spec. unfold display_sort_key. rewrite !Hnone by done. simpl.
    fold (rank (sn_node_id x)) (rank (sn_node_id y)). lia.
  - apply StronglySorted_lookup. intros i j a b Hij Ha Hb.
    rewrite (Hrank _ _ Ha), (Hrank _ _ Hb). lia.
  - by rewrite display_order_Permutation, Hperm.
Qed.

(** ** Properties *)

Definition demo_stack : Stack :=
  mkStack 1 [a_node "n1" [] None; a_node "n2" ["n1"] (Some 5%N); a_node "n3" ["n1"] None].

Definition demo_numbered : Stack :=
  mkStack 1 [a_node "n1" [] (Some 2%N); a_node "n2" ["n1"] (Some 0%N); a_node "n3" ["n2"] (Some 7%N)].

Lemma demo_numbered_ok : numbered demo_numbered.
Proof.
  split; [|by_decide]. intros n Hn. unfold demo_numbered in Hn. simpl in Hn.
  case_list Hn; by eexists.
Qed.

(** Numbering a stack with unique ids touches nothing but [display_order]; keeps
    every number already recorded; gives the [k]-th unnumbered node of the
    numbering order the number [next + k] (saturating), so every row ends up
    numbered; and running it again changes nothing. *)
Theorem assign_missing_display_order_correct s :
  NoDup (node_ids s) ->
  let s' := assign_missing_display_order s in
  erase_order s' = erase_order s /\
  (forall i n d, st_nodes s !! i = Some n -> sn_display_order n = Some d ->
     st_nodes s' !! i = Some n) /\
  (forall i n, st_nodes s !! i = Some n -> sn_display_order n = None ->
     exists k, unnumbered (st_nodes s) (numbering_order s) !! k = Some (sn_node_id n) /\
       st_nodes s' !! i =
         Some (set_display_order n (Some (u32_saturating_add (next_display_order s) (N.of_nat k))))) /\
  assign_missing_display_order s' = s'.
Proof.
  intros Hids s'. split; [by apply assign_missing_erase|].
  assert (forall i n, st_nodes s !! i = Some n -> st_nodes s' !! i =
    Some (number_with (next_display_order s) (unnumbered (st_nodes s) (numbering_order s)) n)) as Hi.
  { intros i n Hn. unfold s'. rewrite assign_missing_closed by done.
    rewrite list_lookup_fmap. by rewrite Hn. }
  split; [|split].
  - intros i n d Hn Hd. rewrite (Hi _ _ Hn). unfold number_with. by rewrite Hd.
  - intros i n Hn Hd.
    destruct (unnumbered_position s n) as (k & Hk & _); [done|by eapply list_elem_of_lookup_2|done|].
    exists k. split; [by apply position_of_lookup|].
    rewrite (Hi _ _ Hn). unfold number_with. by rewrite Hd, Hk.
  - apply assign_missing_fixed; [unfold s'; by rewrite assign_missing_node_ids|].
    intros n. by apply assign_missing_all_numbered.
Qed.

Lemma assign_missing_display_order_witness :
  assign_missing_display_order demo_stack =
    mkStack 1 [a_node "n1" [] (Some 6%N); a_node "n2" ["n1"] (Some 5%N); a_node "n3" ["n1"] (Some 7%N)] /\
  assign_missing_display_order (assign_missing_display_order demo_stack)
    = assign_missing_display_order demo_stack.
Proof.
  split; [vm_compute; reflexivity|].
  apply (assign_missing_display_order_correct demo_stack). by_decide.
Defined.

(** The order the unnumbered nodes are numbered in lists every node, whatever
    the stack holds, and is topological whenever the stack is a DAG with unique
    ids; so a child never reads above its parent in a freshly numbered stack. *)
Theorem numbering_order_correct s :
  numbering_order s ≡ₚ node_ids s /\
  (forall order, topo_order s = Ok order -> topological s (numbering_order s)).
Proof.
  split; [apply numbering_order_Permutation|].
  intros order [??]%topo_order_Ok_valid. by apply numbering_order_topological.
Qed.

(** The reading order never drops or repeats a row; a stack in which every row
    has its own number reads strictly in those numbers; and a stack that records no
    number reads exactly as [topo_order] lists it. *)
Theorem display_order_correct s :
  display_order s ≡ₚ node_ids s /\
  (numbered s -> exists l, l ≡ₚ st_nodes s /\ display_order s = sn_node_id <$> l /\
     StronglySorted (fun x y => (row_number x < row_number y)%N) l) /\
  (forall order, topo_order s = Ok order ->
     (forall n, n ∈ st_nodes s -> sn_display_order n = None) -> display_order s = order).
Proof.
  split; [apply display_order_Permutation|]. split; [|apply display_order_unnumbered].
  intros Hnum. exists (display_sort s).
  split; [apply display_sort_Permutation|]. split; [done|].
  assert (NoDup (display_sort s)) as Hnd.
  { rewrite display_sort_Permutation. destruct Hnum as [_ Hnd]. by apply NoDup_fmap_1 in Hnd. }
  apply StronglySorted_lookup. intros i j x y Hij Hx Hy.
  assert (row_number x <= row_number y)%N as Hle.
  { exact (StronglySorted_lookup_1 _ _ _ _ _ _ (display_sort_rows s) Hij Hx Hy). }
  assert (row_number x <> row_number y); [|lia]. intros Heq.
  assert (x = y) as <-.
  { eapply (numbered_row_inj s); [done|..|done];
      rewrite <- display_sort_Permutation; by eapply list_elem_of_lookup_2. }
  assert (i = j) by (by eapply NoDup_lookup). lia.
Qed.

(** In a numbered stack with unique ids, moving a row up or down exchanges it
    with exactly its neighbour in the reading order, is a no-op at either end of the
    list, and touches no field but [display_order] (in particular no [parents]). *)
Theorem swap_with_neighbour_correct s id i :
  NoDup (node_ids s) -> numbered s -> position_of id (display_order s) = Some i ->
  display_order (swap_with_neighbour s id true)
    = (if i is S j then swap_rows j (display_order s) else display_order s) /\
  display_order (swap_with_neighbour s id false) = swap_rows i (display_order s) /\
  (forall up, erase_order (swap_with_neighbour s id up) = erase_order s).
Proof.
  intros Hids Hnum Hpos. pose proof (position_of_lookup _ _ _ Hpos) as Hi.
  split; [|split].
  - unfold swap_with_neighbour. rewrite Hpos. destruct i as [|j]; [done|]. simpl.
    destruct (display_order s !! j) as [a|] eqn:Ha.
    + destruct (swap_adjacent s j a id true) as (da & db & Hda & Hdb & Heq); [done..|].
      by rewrite Hda, Hdb.
    + apply lookup_lt_Some in Hi. apply lookup_ge_None in Ha. lia.
  - unfold swap_with_neighbour. rewrite Hpos. simpl.
    destruct (display_order s !! S i) as [b|] eqn:Hb.
    + destruct (swap_adjacent s i id b false) as (da & db & Hda & Hdb & Heq); [done..|].
      by rewrite Hda, Hdb.
    + unfold swap_rows. by rewrite Hi, Hb.
  - intros up. unfold swap_with_neighbour, erase_order. repeat case_match; try done. simpl.
    f_equal. rewrite <- list_fmap_compose. apply fmap_ext_in. intros m _.
    simpl. unfold swap_one. by repeat case_decide.
Qed.

Lemma swap_with_neighbour_witness :
  display_order demo_numbered = ["n2"; "n1"; "n3"] /\
  display_order (swap_with_neighbour demo_numbered "n1" true) = ["n1"; "n2"; "n3"].
Proof.
  split; [vm_compute; reflexivity|].
  destruct (swap_with_neighbour_correct demo_numbered "n1" 1) as [-> _];
    [by_decide|apply demo_numbered_ok|vm_compute; reflexivity|vm_compute; reflexivity].
Defined.
