(* ===== verification/Changeset.v ===== *)
(** * The changeset manifest and its storage

    [src/packages/tddy-changeset/src/changeset/model.rs] (the manifest's data and
    [Changeset::default]), [changeset/io.rs] ([read_changeset],
    [write_changeset_atomic], [ensure_changeset_recipe]), the state updates of
    [changeset/merge.rs], and [unified_session_dir_path] of [session_lifecycle.rs].

    The disk is a map from paths to file contents. [serde_yaml] is not part of the
    repository: it is the class [YamlCodec], whose only law is that a document it
    printed parses back to the value it was printed from. *)

From S2P Require Import Prelude Text Stack.

Local Open Scope io_scope.

(** ** Data *)

Record QuestionOptionForQa := mkQuestionOptionForQa { qo_label : string; qo_description : string }.
Record ClarificationQuestionForQa := mkClarificationQuestionForQa {
  cq_header : string; cq_question : string;
  cq_options : list QuestionOptionForQa; cq_multi_select : bool }.
Record ClarificationQa := mkClarificationQa {
  qa_question : ClarificationQuestionForQa; qa_answer : string }.

Record SessionEntry := mkSessionEntry {
  se_id : string; se_agent : string; se_tag : string; se_created_at : string;
  se_system_prompt_file : option string }.

Record StateTransition := mkStateTransition { tr_state : WorkflowState; tr_at : string }.

Record ChangesetState := mkChangesetState {
  cst_current : WorkflowState;
  cst_session_id : option string;
  cst_updated_at : string;
  cst_history : list StateTransition }.

Record RelevantCode := mkRelevantCode { rc_path : string; rc_reason : string }.
Record TestInfrastructure := mkTestInfrastructure { ti_runner : string; ti_conventions : string }.
Record DiscoveryData := mkDiscoveryData {
  dd_toolchain : gmap string string; dd_scripts : gmap string string;
  dd_doc_locations : list string; dd_relevant_code : list RelevantCode;
  dd_test_infrastructure : option TestInfrastructure }.

Inductive BranchWorktreeIntent := NewBranchFromBase | WorkOnSelectedBranch.

Definition BranchWorktreeIntent_as_str (i : BranchWorktreeIntent) : string :=
  match i with
  | NewBranchFromBase => "new_branch_from_base"
  | WorkOnSelectedBranch => "work_on_selected_branch"
  end.

Record ChangesetWorkflow := mkChangesetWorkflow {
  cw_run_optional_step_x : option bool;
  cw_demo_options : list string;
  cw_tool_schema_id : option string;
  cw_branch_worktree_intent : option BranchWorktreeIntent;
  cw_selected_integration_base_ref : option string;
  cw_new_branch_name : option string;
  cw_selected_branch_to_work_on : option string;
  cw_post_workflow_open_github_pr : option bool;
  cw_post_workflow_remove_session_worktree : option bool;
  cw_github_pr_status : option GithubPrStatus;
  cw_operator_remove_session_worktree : option bool }.

Record Changeset := mkChangeset {
  cs_name : option string;
  cs_initial_prompt : option string;
  cs_clarification_qa : list ClarificationQa;
  cs_version : N;
  cs_models : gmap string string;
  cs_sessions : list SessionEntry;
  cs_state : ChangesetState;
  cs_artifacts : gmap string string;
  cs_discovery : option DiscoveryData;
  cs_worktree : option string;
  cs_branch : option string;
  cs_branch_suggestion : option string;
  cs_worktree_suggestion : option string;
  cs_remote_pushed : bool;
  cs_repo_path : option string;
  cs_recipe : option string;
  cs_workflow : option ChangesetWorkflow;
  cs_effective_worktree_integration_base_ref : option string;
  cs_worktree_integration_base_ref : option string;
  cs_stack : option Stack;
  cs_orchestrator_session_id : option string;
  cs_orchestrator_daemon_instance_id : option string }.

#[global] Instance QuestionOptionForQa_eq_dec : EqDecision QuestionOptionForQa.
Proof. solve_decision. Defined.
#[global] Instance ClarificationQuestionForQa_eq_dec : EqDecision ClarificationQuestionForQa.
Proof. solve_decision. Defined.
#[global] Instance ClarificationQa_eq_dec : EqDecision ClarificationQa.
Proof. solve_decision. Defined.
#[global] Instance SessionEntry_eq_dec : EqDecision SessionEntry.
Proof. solve_decision. Defined.
#[global] Instance StateTransition_eq_dec : EqDecision StateTransition.
Proof. unfold WorkflowState. solve_decision. Defined.
#[global] Instance ChangesetState_eq_dec : EqDecision ChangesetState.
Proof. unfold WorkflowState. solve_decision. Defined.
#[global] Instance RelevantCode_eq_dec : EqDecision RelevantCode.
Proof. solve_decision. Defined.
#[global] Instance TestInfrastructure_eq_dec : EqDecision TestInfrastructure.
Proof. solve_decision. Defined.
#[global] Instance DiscoveryData_eq_dec : EqDecision DiscoveryData.
Proof. solve_decision. Defined.
#[global] Instance BranchWorktreeIntent_eq_dec : EqDecision BranchWorktreeIntent.
Proof. solve_decision. Defined.
#[global] Instance ChangesetWorkflow_eq_dec : EqDecision ChangesetWorkflow.
Proof. solve_decision. Defined.
#[global] Instance Changeset_eq_dec : EqDecision Changeset.
Proof. solve_decision. Defined.

(** [Changeset::default], at the time [now]. *)
Definition Changeset_default (now : string) : Changeset :=
  mkChangeset None None [] 1 ∅ []
    (mkChangesetState "Init" None now [mkStateTransition "Init" now])
    ∅ None None None None None false None None None None None None None None.

Definition set_stack (cs : Changeset) (st : option Stack) : Changeset :=
  mkChangeset (cs_name cs) (cs_initial_prompt cs) (cs_clarification_qa cs) (cs_version cs)
    (cs_models cs) (cs_sessions cs) (cs_state cs) (cs_artifacts cs) (cs_discovery cs)
    (cs_worktree cs) (cs_branch cs) (cs_branch_suggestion cs) (cs_worktree_suggestion cs)
    (cs_remote_pushed cs) (cs_repo_path cs) (cs_recipe cs) (cs_workflow cs)
    (cs_effective_worktree_integration_base_ref cs) (cs_worktree_integration_base_ref cs)
    st (cs_orchestrator_session_id cs) (cs_orchestrator_daemon_instance_id cs).

Definition set_state (cs : Changeset) (st : ChangesetState) : Changeset :=
  mkChangeset (cs_name cs) (cs_initial_prompt cs) (cs_clarification_qa cs) (cs_version cs)
    (cs_models cs) (cs_sessions cs) st (cs_artifacts cs) (cs_discovery cs)
    (cs_worktree cs) (cs_branch cs) (cs_branch_suggestion cs) (cs_worktree_suggestion cs)
    (cs_remote_pushed cs) (cs_repo_path cs) (cs_recipe cs) (cs_workflow cs)
    (cs_effective_worktree_integration_base_ref cs) (cs_worktree_integration_base_ref cs)
    (cs_stack cs) (cs_orchestrator_session_id cs) (cs_orchestrator_daemon_instance_id cs).

Definition set_sessions (cs : Changeset) (ss : list SessionEntry) : Changeset :=
  mkChangeset (cs_name cs) (cs_initial_prompt cs) (cs_clarification_qa cs) (cs_version cs)
    (cs_models cs) ss (cs_state cs) (cs_artifacts cs) (cs_discovery cs)
    (cs_worktree cs) (cs_branch cs) (cs_branch_suggestion cs) (cs_worktree_suggestion cs)
    (cs_remote_pushed cs) (cs_repo_path cs) (cs_recipe cs) (cs_workflow cs)
    (cs_effective_worktree_integration_base_ref cs) (cs_worktree_integration_base_ref cs)
    (cs_stack cs) (cs_orchestrator_session_id cs) (cs_orchestrator_daemon_instance_id cs).

Definition set_recipe (cs : Changeset) (r : option string) : Changeset :=
  mkChangeset (cs_name cs) (cs_initial_prompt cs) (cs_clarification_qa cs) (cs_version cs)
    (cs_models cs) (cs_sessions cs) (cs_state cs) (cs_artifacts cs) (cs_discovery cs)
    (cs_worktree cs) (cs_branch cs) (cs_branch_suggestion cs) (cs_worktree_suggestion cs)
    (cs_remote_pushed cs) (cs_repo_path cs) r (cs_workflow cs)
    (cs_effective_worktree_integration_base_ref cs) (cs_worktree_integration_base_ref cs)
    (cs_stack cs) (cs_orchestrator_session_id cs) (cs_orchestrator_daemon_instance_id cs).

(** ** State updates (merge.rs) *)

(** [update_state]: append to the history, then move. *)
Definition update_state (now : string) (cs : Changeset) (new_state : WorkflowState) : Changeset :=
  set_state cs (mkChangesetState new_state (cst_session_id (cs_state cs)) now
    (cst_history (cs_state cs) ++ [mkStateTransition new_state now])).

(** [append_session_and_update_state]. *)
Definition append_session_and_update_state (now : string) (cs : Changeset) (session_id tag : string)
    (new_state : WorkflowState) (agent : string) (system_prompt_file : option string) : Changeset :=
  let cs := set_sessions cs
    (cs_sessions cs ++ [mkSessionEntry session_id agent tag now system_prompt_file]) in
  set_state cs (mkChangesetState new_state (Some session_id) now
    (cst_history (cs_state cs) ++ [mkStateTransition new_state now])).

(** [iter().rfind(p)]. *)
Fixpoint rfind {A} (p : A -> bool) (l : list A) : option A :=
  match l with
  | [] => None
  | x :: l' => match rfind p l' with
               | Some y => Some y
               | None => if p x then Some x else None
               end
  end.

Definition get_session_for_tag (cs : Changeset) (tag : string) : option string :=
  se_id <$> rfind (fun s => bool_decide (se_tag s = tag)) (cs_sessions cs).

Definition resolve_agent_from_changeset (cs : Changeset) (preferred_tag : string) : option string :=
  match se_agent <$> rfind (fun s => bool_decide (se_tag s = preferred_tag)) (cs_sessions cs) with
  | Some a => Some a
  | None => se_agent <$> last (cs_sessions cs)
  end.

(** [resolve_model]: CLI override, then changeset, then recipe default. *)
Definition resolve_model (changeset : option Changeset) (goal : string) (cli_model : option string)
    (recipe_defaults : option (gmap string string)) : option string :=
  match cli_model with
  | Some m => Some m
  | None =>
      match (c ← changeset; cs_models c !! goal) with
      | Some m => Some m
      | None => d ← recipe_defaults; d !! goal
      end
  end.

(** ** Paths *)

Definition unified_session_dir_path (session_base session_id : string) : string :=
  path_join (path_join session_base "sessions") session_id.

(** ** The disk *)

(** What [fs::read_to_string] finds at a path: the text, or an error other than
    [NotFound] (which is the absence of an entry). *)
Inductive file := Text (contents : string) | Unreadable (e : string).

(** [write_error p]: why a write to [p] would fail, when it would. *)
Record disk := mkDisk {
  files : gmap string file;
  write_error : string -> option string }.

Class YamlCodec := {
  yaml_to_string : Changeset -> string + string;
  yaml_from_str : string -> string + Changeset;
  yaml_roundtrip : forall cs text, yaml_to_string cs = inr text -> yaml_from_str text = inr cs }.

Section storage.
Context {yaml : YamlCodec}.

Definition changeset_path (session_dir : string) : string := path_join session_dir "changeset.yaml".

Definition read_changeset (session_dir : string) : io disk WorkflowError Changeset := fun w =>
  let path := changeset_path session_dir in
  match files w !! path with
  | None =>
      (Err (ChangesetMissing ("changeset.yaml not found in " +:+ session_dir
              +:+ " — run the plan goal first")), w)
  | Some (Unreadable e) => (Err (ChangesetInvalid e), w)
  | Some (Text content) =>
      match yaml_from_str content with
      | inl e => (Err (ChangesetInvalid e), w)
      | inr cs => (Ok cs, w)
      end
  end.

(** [atomic_file::write_atomic_labelled]: all of the contents, or the file as it was. *)
Definition write_atomic_labelled (path contents : string) : io disk string unit := fun w =>
  match write_error w path with
  | Some e => (Err (path +:+ ": " +:+ e), w)
  | None => (Ok (), mkDisk (<[path := Text contents]> (files w)) (write_error w))
  end.

Definition write_changeset_atomic (session_dir : string) (changeset : Changeset)
  : io disk WorkflowError unit :=
  let path := changeset_path session_dir in
  let! content := io_lift (match yaml_to_string changeset with
                           | inl e => Err (WriteFailed e)
                           | inr s => Ok s
                           end) in
  io_map_err WriteFailed (write_atomic_labelled path content).

Definition ensure_changeset_recipe (now session_dir recipe_name : string)
  : io disk WorkflowError unit := fun w =>
  let '(r, w) := read_changeset session_dir w in
  match (match r with
         | Err (ChangesetMissing _) => Ok (Changeset_default now)
         | r => r
         end) with
  | Ok cs =>
      match cs_recipe cs with
      | Some _ => (Ok (), w)
      | None => write_changeset_atomic session_dir (set_recipe cs (Some recipe_name)) w
      end
  | Err e => (Err e, w)
  | Panic => (Panic, w)
  end.

(** [update_stack_atomic]: read, apply the closure to the stack (created when
    absent), write back. *)
Definition update_stack_atomic {A} (dir : string) (f : Stack -> A * Stack)
  : io disk WorkflowError A :=
  let! changeset := read_changeset dir in
  let '(a, stack) := f (default Stack_default (cs_stack changeset)) in
  write_changeset_atomic dir (set_stack changeset (Some stack));;
  io_ret a.

(** *** Facts about the storage *)

(** What a session directory holds, when its changeset is readable. *)
Definition stored (w : disk) (dir : string) : option Changeset :=
  match read_changeset dir w with
  | (Ok cs, _) => Some cs
  | _ => None
  end.

(** The stack a session directory holds, as the writers read it. *)
Definition stored_stack (w : disk) (dir : string) : option Stack :=
  (fun cs => default Stack_default (cs_stack cs)) <$> stored w dir.

(** A write of [cs] to [dir] goes through: the codec prints it and the disk takes it. *)
Definition writable (w : disk) (dir : string) (cs : Changeset) : Prop :=
  (exists text, yaml_to_string cs = inr text) /\ write_error w (changeset_path dir) = None.

Lemma read_changeset_pure dir w : (read_changeset dir w).2 = w.
Proof. unfold read_changeset. by repeat case_match. Qed.

Lemma read_changeset_no_panic dir w : (read_changeset dir w).1 <> Panic.
Proof. unfold read_changeset. by repeat case_match. Qed.

Lemma stored_read dir w cs : stored w dir = Some cs <-> read_changeset dir w = (Ok cs, w).
Proof.
  unfold stored. pose proof (read_changeset_pure dir w) as Hp.
  destruct (read_changeset dir w) as [[] w']; simpl in *; naive_solver.
Qed.

Lemma write_changeset_Ok dir cs w w' a :
  write_changeset_atomic dir cs w = (Ok a, w') ->
  stored w' dir = Some cs /\
  (forall p, p <> changeset_path dir -> files w' !! p = files w !! p) /\
  write_error w' = write_error w.
Proof.
  unfold write_changeset_atomic, io_bind, io_lift, io_map_err, write_atomic_labelled.
  destruct (yaml_to_string cs) as [e|text] eqn:Hy; [done|].
  destruct (write_error w (changeset_path dir)); [done|]. intros [= <- <-]. simpl.
  split; [|split; [|done]].
  - unfold stored, read_changeset. simpl. rewrite lookup_insert_eq.
    by rewrite (yaml_roundtrip cs text) by done.
  - intros p Hp. by rewrite lookup_insert_ne.
Qed.

(** A write that fails leaves the disk as it was. *)
Lemma write_changeset_failed dir cs w e w' :
  write_changeset_atomic dir cs w = (Err e, w') -> w' = w.
Proof.
  unfold write_changeset_atomic, io_bind, io_lift, io_map_err, write_atomic_labelled.
  destruct (yaml_to_string cs); [naive_solver|].
  destruct (write_error w (changeset_path dir)); naive_solver.
Qed.

Lemma write_changeset_no_panic dir cs w : (write_changeset_atomic dir cs w).1 <> Panic.
Proof.
  unfold write_changeset_atomic, io_bind, io_lift, io_map_err, write_atomic_labelled.
  destruct (yaml_to_string cs); [done|]. by destruct (write_error _ _).
Qed.

Lemma writable_write dir cs w : writable w dir cs -> exists w', write_changeset_atomic dir cs w = (Ok (), w').
Proof.
  intros [[text Ht] Hw].
  unfold write_changeset_atomic, io_bind, io_lift, io_map_err, write_atomic_labelled.
  rewrite Ht, Hw. eauto.
Qed.

Lemma update_stack_Ok {A} dir (f : Stack -> A * Stack) w a w' :
  update_stack_atomic dir f w = (Ok a, w') ->
  exists cs st, stored w dir = Some cs /\
    f (default Stack_default (cs_stack cs)) = (a, st) /\
    stored w' dir = Some (set_stack cs (Some st)) /\
    (forall p, p <> changeset_path dir -> files w' !! p = files w !! p) /\
    write_error w' = write_error w.
Proof.
  unfold update_stack_atomic. intros (cs & w1 & Hr & H)%io_bind_Ok.
  pose proof (read_changeset_pure dir w) as Hp. rewrite Hr in Hp. simpl in Hp. subst w1.
  destruct (f _) as [a' st] eqn:Hf. apply io_bind_Ok in H as (u & w2 & Hw & [= <- <-]).
  apply write_changeset_Ok in Hw as (Hst & Hoth & Hwe).
  exists cs, st. split; [by apply stored_read|]. split; [done|]. done.
Qed.

Lemma update_stack_failed {A} dir (f : Stack -> A * Stack) w e w' :
  update_stack_atomic dir f w = (Err e, w') -> w' = w.
Proof.
  unfold update_stack_atomic, io_bind at 1. pose proof (read_changeset_pure dir w) as Hp.
  destruct (read_changeset dir w) as [[cs|e'|] w1]; simpl in *; subst; [|naive_solver|naive_solver].
  destruct (f _) as [a st]. unfold io_bind, io_ret.
  destruct (write_changeset_atomic dir _ w) as [[u|e1|] w2] eqn:Hw; [naive_solver| |naive_solver].
  intros [= <- <-]. by eapply write_changeset_failed.
Qed.

Lemma update_stack_no_panic {A} dir (f : Stack -> A * Stack) w :
  (update_stack_atomic dir f w).1 <> Panic.
Proof.
  unfold update_stack_atomic, io_bind. pose proof (read_changeset_no_panic dir w) as Hp.
  destruct (read_changeset dir w) as [[cs|e|] w1]; simpl in *; [|done|done].
  destruct (f _) as [a st].
  pose proof (write_changeset_no_panic dir (set_stack cs (Some st)) w1).
  by destruct (write_changeset_atomic dir _ w1) as [[] w2].
Qed.
End storage.

(** ** A concrete codec *)

(** Prints the changesets of a table as their index: an instance of [YamlCodec] on
    which the properties below are evaluated. *)
Definition table_index (t : list Changeset) (cs : Changeset) : option nat :=
  fst <$> list_find (eq cs) t.

Fixpoint tally (n : nat) : string := match n with 0 => "" | S n => String "."%char (tally n) end.

#[local] Program Instance table_codec (t : list Changeset) : YamlCodec := {|
  yaml_to_string cs := match table_index t cs with
                       | Some i => inr (tally i)
                       | None => inl "unsupported value"
                       end;
  yaml_from_str text := match t !! String.length text with
                        | Some cs => inr cs
                        | None => inl "malformed document"
                        end |}.
Next Obligation.
  intros t cs text. unfold table_index.
  destruct (list_find (eq cs) t) as [[i x]|] eqn:Hf; simpl; [|done]. intros [= <-].
  assert (String.length (tally i) = i) as -> by (clear; induction i; simpl; congruence).
  apply list_find_Some in Hf as (Hi & <- & _). by rewrite Hi.
Qed.
