(* ===== verification/NodeIds.v ===== *)
(** * Node ids

    [next_free_node_id] of [src/packages/tddy-pr-stack/src/stack_ops/mod.rs], with the
    decimal parsing ([str::parse::<u32>]) and printing it relies on. *)

From Stdlib Require Import Ascii.
From S2P Require Import Prelude Text Stack.

Local Open Scope io_scope.

(** ** Decimal numbers *)

Definition digit (c : Ascii.ascii) : option N :=
  let n := Ascii.N_of_ascii c in
  if decide (48 <= n <= 57)%N then Some (n - 48)%N else None.

(** The digit loop of [from_str]: an invalid digit or an overflow is an error. *)
Fixpoint parse_digits (max acc : N) (s : string) : option N :=
  match s with
  | "" => Some acc
  | String c s' =>
      d ← digit c;
      let acc' := (acc * 10 + d)%N in
      if decide (acc' <= max)%N then parse_digits max acc' s' else None
  end.

(** [str::parse] for an unsigned type of maximum [max]: an optional [+], then at
    least one digit. *)
Definition parse_unsigned (max : N) (s : string) : option N :=
  match s with
  | "" => None
  | String "+"%char "" => None
  | String "+"%char s' => parse_digits max 0 s'
  | _ => parse_digits max 0 s
  end.

Definition parse_u32 : string -> option N := parse_unsigned u32_max.
Definition parse_u64 : string -> option N := parse_unsigned u64_max.

Lemma digit_pretty d : (d < 10)%N -> digit (pretty_N_char d) = Some d.
Proof.
  intros Hd. by case_digit d.
Qed.

Lemma parse_digits_pretty max n s :
  (n <= max)%N -> parse_digits max 0 (pretty_N_go n s) = parse_digits max n s.
Proof.
  revert s. induction (N.lt_wf_0 n) as [n _ IH]. intros s Hn.
  destruct (decide (n = 0)%N) as [->|Hnz]; [by rewrite pretty_N_go_0|].
  rewrite pretty_N_go_step by lia.
  rewrite IH; [|apply N.div_lt; lia|]; [|etrans; [apply N.Div0.div_le_upper_bound|exact Hn]; lia].
  simpl. rewrite digit_pretty by (apply N.mod_lt; lia). simpl.
  replace (n `div` 10 * 10 + n `mod` 10)%N with n.
  - by rewrite decide_True.
  - pose proof (N.div_mod n 10). lia.
Qed.

Lemma pretty_N_go_head n s :
  (0 < n)%N -> exists d s', pretty_N_go n s = String (pretty_N_char d) s' /\ (d < 10)%N.
Proof.
  revert s. induction (N.lt_wf_0 n) as [n _ IH]. intros s Hn.
  rewrite pretty_N_go_step by done. destruct (decide (n `div` 10 = 0)%N) as [->|Hz].
  - rewrite pretty_N_go_0. eexists _, _. split; [done|]. apply N.mod_lt. lia.
  - apply IH; [apply N.div_lt; lia|by apply N.neq_0_lt_0].
Qed.

Lemma pretty_N_char_plain d : (d < 10)%N -> plain (pretty_N_char d) = true.
Proof.
  intros Hd. by case_digit d.
Qed.

Lemma pretty_N_go_plain n s :
  Forall (fun a => plain a = true) (String.list_ascii_of_string s) ->
  Forall (fun a => plain a = true) (String.list_ascii_of_string (pretty_N_go n s)).
Proof.
  revert s. induction (N.lt_wf_0 n) as [n _ IH]; intros s Hs.
  destruct (decide (n = 0)%N) as [->|Hn]; [by rewrite pretty_N_go_0|].
  rewrite pretty_N_go_step by lia. apply IH; [apply N.div_lt; lia|].
  constructor; [|done]. apply pretty_N_char_plain, N.mod_lt. lia.
Qed.

Lemma pretty_plain (n : N) :
  Forall (fun a => plain a = true) (String.list_ascii_of_string (pretty n)) /\ pretty n <> "".
Proof.
  unfold pretty, pretty_N. case_decide as Hn; [split; [by repeat constructor|done]|].
  split; [by apply pretty_N_go_plain|].
  destruct (pretty_N_go_head n "") as (d & s' & -> & _); [lia|done].
Qed.

(** Printing then parsing gives the number back. *)
Lemma parse_unsigned_pretty max n : (n <= max)%N -> parse_unsigned max (pretty n) = Some n.
Proof.
  intros Hn. unfold pretty, pretty_N. case_decide as Hz.
  { subst. simpl. unfold digit. simpl. by rewrite decide_True by lia. }
  destruct (pretty_N_go_head n "") as (d & s' & Heq & Hd); [lia|].
  transitivity (parse_digits max 0 (pretty_N_go n "")); [|by rewrite parse_digits_pretty].
  rewrite Heq.
  by case_digit d.
Qed.

(** ** The next free id *)

Lemma parse_digits_bound max acc s n : (acc <= max)%N -> parse_digits max acc s = Some n -> (n <= max)%N.
Proof.
  revert acc. induction s as [|a s IH]; intros acc Hacc; simpl; [by intros [= <-]|].
  destruct (digit a); simpl; [|done]. case_decide; [by apply IH|done].
Qed.

Lemma parse_unsigned_bound max s n : parse_unsigned max s = Some n -> (n <= max)%N.
Proof.
  intros Hp. assert (exists s', parse_digits max 0 s' = Some n) as [s' Hs'].
  { revert Hp. unfold parse_unsigned. repeat case_match; eauto; try done. }
  eapply parse_digits_bound; [|done]. lia.
Qed.

Lemma pretty_N_go_digits n s :
  Forall (fun a => is_Some (digit a)) (String.list_ascii_of_string s) ->
  Forall (fun a => is_Some (digit a)) (String.list_ascii_of_string (pretty_N_go n s)).
Proof.
  revert s. induction (N.lt_wf_0 n) as [n _ IH]; intros s Hs.
  destruct (decide (n = 0)%N) as [->|Hn]; [by rewrite pretty_N_go_0|].
  rewrite pretty_N_go_step by lia. apply IH; [apply N.div_lt; lia|].
  constructor; [|done]. rewrite digit_pretty by (apply N.mod_lt; lia). by eexists.
Qed.

(** A number is written with digits only. *)
Lemma pretty_digits (n : N) :
  Forall (fun a => is_Some (digit a)) (String.list_ascii_of_string (pretty n)).
Proof.
  unfold pretty, pretty_N. case_decide; [repeat constructor; by eexists|].
  apply pretty_N_go_digits. constructor.
Qed.

(** [s.strip_prefix('n')]. *)
Definition strip_n (s : string) : option string :=
  match s with String "n"%char s' => Some s' | _ => None end.

(** [n.node_id.strip_prefix('n')?.parse::<u32>().ok()]. *)
Definition node_number (id : string) : option N := strip_n id ≫= parse_u32.

Definition max_node_number (s : Stack) : N :=
  foldr N.max 0%N (omap node_number (node_ids s)).

Definition next_free_node_id {E} (overflow_checks : bool) (s : Stack) : res E string :=
  let? n := u32_add overflow_checks (max_node_number s) 1 in
  Ok ("n" +:+ pretty n).

Lemma node_number_pretty n : (n <= u32_max)%N -> node_number ("n" +:+ pretty n) = Some n.
Proof. intros Hn. unfold node_number. simpl. by apply parse_unsigned_pretty. Qed.

Lemma max_node_number_ge s id n :
  id ∈ node_ids s -> node_number id = Some n -> (n <= max_node_number s)%N.
Proof.
  intros Hid Hn. unfold max_node_number.
  assert (n ∈ omap node_number (node_ids s)) as Hin by (apply list_elem_of_omap; eauto).
  induction (omap _ _) as [|m l IH]; [set_solver|]. simpl.
  apply elem_of_cons in Hin as [->|Hin]; [lia|]. specialize (IH Hin). lia.
Qed.

Lemma next_free_node_id_ok {E} oc s :
  (max_node_number s < u32_max)%N ->
  exists id, next_free_node_id (E := E) oc s = Ok id /\ id ∉ node_ids s.
Proof.
  intros Hroom. unfold next_free_node_id. rewrite u32_add_fits by lia. simpl.
  eexists. split; [done|]. intros Hin.
  apply max_node_number_ge with (n := (max_node_number s + 1)%N) in Hin; [lia|].
  apply node_number_pretty. lia.
Qed.

(** Below the [u32] limit the id handed to a new node is fresh, with and without
    overflow checks; at the limit a checked build panics and an unchecked one wraps
    to ["n0"], which a stack can already hold. *)
Theorem next_free_node_id_fresh oc s :
  ((max_node_number s < u32_max)%N ->
     exists id, next_free_node_id (E := string) oc s = Ok id /\ id ∉ node_ids s) /\
  (max_node_number s = u32_max ->
     next_free_node_id (E := string) oc s = if oc then Panic else Ok "n0").
Proof.
  split; [apply next_free_node_id_ok|]. intros Hmax. unfold next_free_node_id.
  rewrite Hmax. by destruct oc; vm_compute.
Qed.

(** The wrapped id collides: a stack holding ["n0"] and ["n4294967295"]. *)
Example next_free_node_id_wraps :
  let s := mkStack 1 [a_node "n0" [] None; a_node "n4294967295" [] None] in
  next_free_node_id (E := string) false s = Ok "n0" /\ "n0" ∈ node_ids s.
Proof. split; [vm_compute; reflexivity|by_decide]. Qed.
