(* ===== verification/PrInsight.v ===== *)
(** * Reading pull requests

    [src/packages/tddy-pr-stack/src/pr_insight.rs] and the data of
    [src/packages/tddy-github/src/pr_api.rs] it reads: the fold of a review history
    into standing positions, the reconstruction of comment threads, the search cap,
    and the pull number recovered from a node's recorded url. The GitHub calls are
    the class [PrInsightApi] over the remote's state. *)

From S2P Require Import Prelude Text Stack NodeIds.

Local Open Scope io_scope.

(** ** Data (tddy-github/src/pr_api.rs) *)

Inductive PrState := PrState_Open | PrState_Merged | PrState_Closed | PrState_Draft.

Record PrDetail := mkPrDetail {
  pd_number : N; pd_url : string; pd_title : string; pd_body : string; pd_state : PrState;
  pd_base_branch : string; pd_head_branch : string; pd_head_sha : string;
  pd_mergeable : option bool; pd_mergeable_state : string;
  pd_additions : N; pd_deletions : N; pd_changed_files : N }.

Record PrFile := mkPrFile { pf_path : string; pf_status : string }.
Record CheckRun := mkCheckRun { cr_name : string; cr_conclusion : string }.
Record PrReview := mkPrReview {
  rv_author : string; rv_state : string; rv_body : string; rv_submitted_at : string }.
Record PrReviewComment := mkPrReviewComment {
  rcm_id : N; rcm_in_reply_to_id : option N; rcm_author : string; rcm_body : string;
  rcm_path : string; rcm_line : option N; rcm_diff_hunk : string; rcm_created_at : string }.
Record PrIssueComment := mkPrIssueComment {
  ic_author : string; ic_body : string; ic_created_at : string }.
Record PrSearchQuery := mkPrSearchQuery {
  sq_repo : string; sq_text : option string; sq_state : string; sq_author : option string;
  sq_base : option string; sq_limit : N }.
Record PrSearchHit := mkPrSearchHit {
  sh_number : N; sh_title : string; sh_state : string; sh_draft : bool; sh_author : string;
  sh_url : string; sh_updated_at : string }.

(** [pr_state_from_github]. *)
Definition pr_state_from_github (state : string) (merged_at : option string) (draft : bool)
  : PrState :=
  if decide (state = "closed") then
    match merged_at with Some _ => PrState_Merged | None => PrState_Closed end
  else if draft then PrState_Draft else PrState_Open.

(** [qualified_head]: [owner:branch], unless it is qualified already or has no owner. *)
Definition qualified_head (repo branch : string) : string :=
  if has_char ":"%char branch then branch
  else match split_on "/"%char repo with
       | owner :: _ :: _ => if decide (owner = "") then branch else owner +:+ ":" +:+ branch
       | _ => branch
       end.

Class PrInsightApi (X : Type) := {
  get_pr : X -> N -> WorkflowError + PrDetail;
  list_pr_files : X -> N -> WorkflowError + list PrFile;
  list_check_runs : X -> string -> WorkflowError + list CheckRun;
  list_reviews : X -> N -> WorkflowError + list PrReview;
  list_review_comments : X -> N -> WorkflowError + list PrReviewComment;
  list_issue_comments : X -> N -> WorkflowError + list PrIssueComment;
  search_prs : X -> PrSearchQuery -> WorkflowError + list PrSearchHit;
  patch_pr_title_body : N -> option string -> option string -> io X WorkflowError unit }.

(** ** Standing review positions *)

Record ReviewerState := mkReviewerState { rs_author : string; rs_state : string }.

Definition note_review (latest : gmap string PrReview) (review : PrReview) : gmap string PrReview :=
  match latest !! rv_author review with
  | Some seen =>
      if decide (String.le (rv_submitted_at seen) (rv_submitted_at review))
      then <[rv_author review := review]> latest else latest
  | None => <[rv_author review := review]> latest
  end.

Definition latest_state_per_reviewer (reviews : list PrReview) : list ReviewerState :=
  (fun e => mkReviewerState (rv_author e.2) (rv_state e.2))
    <$> btree_iter (foldl note_review ∅ reviews).

(** ** Comment threads *)

Record PrThreadComment := mkPrThreadComment {
  tc_author : string; tc_body : string; tc_created_at : string }.
Record PrReviewThread := mkPrReviewThread {
  th_path : string; th_line : option N; th_diff_hunk : string; th_comments : list PrThreadComment }.

Definition thread_comment (c : PrReviewComment) : PrThreadComment :=
  mkPrThreadComment (rcm_author c) (rcm_body c) (rcm_created_at c).

(** A [BTreeMap<u64, _>]'s entries in key order. *)
Definition btree_iter_N {V} (m : gmap N V) : list (N * V) :=
  sort_by (fun x y => bool_decide (x.1 <= y.1)%N) (map_to_list m).

Definition index_by_id (comments : list PrReviewComment) : gmap N PrReviewComment :=
  foldl (fun m c => <[rcm_id c := c]> m) ∅ comments.

(** [for _ in 0..by_id.len()] of [root_id_of]. *)
Fixpoint root_walk (by_id : gmap N PrReviewComment) (steps : nat) (current : PrReviewComment)
  : PrReviewComment :=
  match steps with
  | 0 => current
  | S steps' =>
      match (pid ← rcm_in_reply_to_id current; by_id !! pid) with
      | None => current
      | Some parent => root_walk by_id steps' parent
      end
  end.

Definition root_id_of (comment : PrReviewComment) (by_id : gmap N PrReviewComment) : N :=
  rcm_id (root_walk by_id (size by_id) comment).

(** [grouped.entry(k).or_default().push(c)]. *)
Definition group_push {A} (g : gmap N (list A)) (k : N) (x : A) : gmap N (list A) :=
  <[k := default [] (g !! k) ++ [x]]> g.

Definition group_comments (by_id : gmap N PrReviewComment) (comments : list PrReviewComment)
  : gmap N (list PrReviewComment) :=
  foldl (fun g c => group_push g (root_id_of c by_id) c) ∅ comments.

Definition created_leb (a b : PrReviewComment) : bool :=
  bool_decide (String.le (rcm_created_at a) (rcm_created_at b)).

Definition thread_of (by_id : gmap N PrReviewComment) (e : N * list PrReviewComment)
  : option PrReviewThread :=
  root ← by_id !! e.1;
  Some (mkPrReviewThread (rcm_path root) (rcm_line root) (rcm_diff_hunk root)
          (thread_comment <$> sort_by created_leb e.2)).

Definition threads_of (comments : list PrReviewComment) : list PrReviewThread :=
  let by_id := index_by_id comments in
  omap (thread_of by_id) (btree_iter_N (group_comments by_id comments)).

(** ** Search *)

Definition MAX_SEARCH_LIMIT : N := 100.
Definition DEFAULT_SEARCH_LIMIT : N := 20.

Definition effective_search_limit (requested : N) : N :=
  if decide (requested = 0%N) then DEFAULT_SEARCH_LIMIT else N.min requested MAX_SEARCH_LIMIT.

Record PrSearchInput := mkPrSearchInput {
  si_text : option string; si_state : string; si_author : option string;
  si_base : option string; si_limit : N }.

(** ** Pull numbers *)

Definition pr_number_from_status_url (status : option GithubPrStatus) : option N :=
  st ← status; url ← ps_url st; parse_u64 (after_last "/"%char url).

Definition pull_number_for_node (s : Stack) (node_id : string) : res string N :=
  let? n := ok_or (node s node_id) ("pull_number_for_node: node '" +:+ node_id +:+ "' not found") in
  ok_or (pr_number_from_status_url (sn_pr_status n))
    ("pull_number_for_node: node '" +:+ node_id
      +:+ "' records no pull request url, so it cannot be addressed by node id — name the pull number instead").

(** ** The reads *)

Record PrReadView := mkPrReadView {
  pv_pr : PrDetail; pv_reviews : list ReviewerState; pv_checks : list CheckRun;
  pv_files : option (list PrFile) }.

Record PrCommentsView := mkPrCommentsView {
  cv_reviews : list PrReview; cv_threads : list PrReviewThread;
  cv_conversation : list PrIssueComment }.

Definition from_sum {E A} (r : E + A) : res E A :=
  match r with inl e => Err e | inr a => Ok a end.

Section reads.
Context {X : Type} `{!PrInsightApi X} (gh : X).

Definition read_pr (number : N) (include_files : bool) : res WorkflowError PrReadView :=
  let? pr := from_sum (get_pr gh number) in
  let? rvs := from_sum (list_reviews gh number) in
  let reviews := latest_state_per_reviewer rvs in
  let? checks := from_sum (list_check_runs gh (pd_head_sha pr)) in
  let? files := (if include_files
                 then let? fs := from_sum (list_pr_files gh number) in Ok (Some fs)
                 else Ok None) in
  Ok (mkPrReadView pr reviews checks files).

Definition read_pr_comments (number : N) : res WorkflowError PrCommentsView :=
  let? reviews := from_sum (list_reviews gh number) in
  let? cs := from_sum (list_review_comments gh number) in
  let? conversation := from_sum (list_issue_comments gh number) in
  Ok (mkPrCommentsView reviews (threads_of cs) conversation).

Definition search_repository_prs (repo : string) (input : PrSearchInput)
  : res WorkflowError (list PrSearchHit) :=
  let limit := effective_search_limit (si_limit input) in
  let? hits := from_sum (search_prs gh (mkPrSearchQuery repo (si_text input) (si_state input)
                           (si_author input) (si_base input) limit)) in
  Ok (take (N.to_nat limit) hits).
End reads.

(** ** Threads: nothing is hidden *)

Definition flatten {A} (g : gmap N (list A)) : list A := map_to_list g ≫= snd.

Lemma flatten_group_push {A} (g : gmap N (list A)) k x :
  flatten (group_push g k x) ≡ₚ x :: flatten g.
Proof.
  unfold flatten, group_push.
  assert (forall h : gmap N (list A), h !! k = None -> forall l,
            map_to_list (<[k := l]> h) ≫= snd ≡ₚ l ++ (map_to_list h ≫= snd)) as Hins.
  { intros h Hh l. by rewrite map_to_list_insert. }
  destruct (g !! k) as [l|] eqn:Hk; simpl; [|by rewrite Hins].
  rewrite <- (insert_delete_eq g k (l ++ [x])), Hins by apply lookup_delete_eq.
  transitivity (x :: l ++ (map_to_list (delete k g) ≫= snd)); [by rewrite <- (Permutation_cons_append l x)|].
  rewrite <- (Hins (delete k g)) by apply lookup_delete_eq. by rewrite insert_delete_id.
Qed.

Lemma flatten_group_comments by_id comments : flatten (group_comments by_id comments) ≡ₚ comments.
Proof.
  induction comments as [|c cs IH] using rev_ind; [done|].
  unfold group_comments in *. rewrite foldl_snoc, flatten_group_push, IH.
  by rewrite <- Permutation_cons_append.
Qed.

Lemma index_by_id_Some comments i c :
  index_by_id comments !! i = Some c -> c ∈ comments /\ rcm_id c = i.
Proof.
  unfold index_by_id. induction comments as [|d cs IH] using rev_ind; [done|].
  rewrite foldl_snoc. intros [[<- <-]|[Hne H]]%lookup_insert_Some; [set_solver|].
  apply IH in H. set_solver.
Qed.

Lemma index_by_id_total comments c : c ∈ comments -> is_Some (index_by_id comments !! rcm_id c).
Proof.
  unfold index_by_id. induction comments as [|d cs IH] using rev_ind; [set_solver|].
  rewrite foldl_snoc. intros [Hc| ->%list_elem_of_singleton]%elem_of_app.
  - destruct (decide (rcm_id d = rcm_id c)) as [<-|]; [by rewrite lookup_insert_eq|].
    rewrite lookup_insert_ne by done. auto.
  - by rewrite lookup_insert_eq.
Qed.

Lemma root_walk_elem comments steps c :
  c ∈ comments -> root_walk (index_by_id comments) steps c ∈ comments.
Proof.
  revert c. induction steps as [|steps IH]; intros c Hc; simpl; [done|].
  destruct (rcm_in_reply_to_id c) as [pid|]; simpl; [|done].
  destruct (index_by_id comments !! pid) eqn:Hp; [|done].
  apply IH. by apply index_by_id_Some in Hp as [].
Qed.

Lemma group_comments_key by_id comments k l c :
  group_comments by_id comments !! k = Some l -> c ∈ l -> c ∈ comments /\ root_id_of c by_id = k.
Proof.
  unfold group_comments. revert k l. induction comments as [|d cs IH] using rev_ind; intros k l; [done|].
  rewrite foldl_snoc. unfold group_push. intros [[<- <-]|[Hne H]]%lookup_insert_Some Hc.
  - apply elem_of_app in Hc as [Hc|Hc]; [|set_solver].
    destruct (foldl _ ∅ cs !! _) eqn:Hg; simpl in Hc; [|set_solver].
    destruct (IH _ _ Hg Hc). set_solver.
  - destruct (IH _ _ H Hc). set_solver.
Qed.

Lemma group_comments_nonempty by_id comments k : group_comments by_id comments !! k <> Some [].
Proof.
  unfold group_comments. induction comments as [|d cs IH] using rev_ind; [done|].
  rewrite foldl_snoc. unfold group_push. intros [[_ H]|[_ H]]%lookup_insert_Some; [|done].
  by destruct (default [] _).
Qed.

(** Every group has its root comment in the list. *)
Lemma group_comments_root comments k l :
  group_comments (index_by_id comments) comments !! k = Some l ->
  is_Some (index_by_id comments !! k).
Proof.
  intros Hg. destruct l as [|c l]; [by apply group_comments_nonempty in Hg|].
  destruct (group_comments_key _ _ _ _ c Hg) as [Hc <-]; [left|].
  apply index_by_id_total, root_walk_elem, Hc.
Qed.

Lemma btree_iter_N_Permutation {V} (m : gmap N V) : btree_iter_N m ≡ₚ map_to_list m.
Proof. apply sort_by_Permutation. Qed.

Lemma omap_threads by_id (l : list (N * list PrReviewComment)) :
  (forall e, e ∈ l -> is_Some (by_id !! e.1)) ->
  omap (thread_of by_id) l ≫= th_comments ≡ₚ thread_comment <$> (l ≫= snd).
Proof.
  induction l as [|e l IH]; intros Hl; [done|]. simpl.
  unfold thread_of at 1. destruct (Hl e (list_elem_of_here _ _)) as [root ->]. simpl.
  rewrite fmap_app, IH by (intros; apply Hl; by right).
  by rewrite sort_by_Permutation.
Qed.

(** ** Threads: the bound on the walk is enough *)

Definition replies_to (by_id : gmap N PrReviewComment) (c p : PrReviewComment) : Prop :=
  exists pid, rcm_in_reply_to_id c = Some pid /\ by_id !! pid = Some p.

Definition is_root (by_id : gmap N PrReviewComment) (c : PrReviewComment) : Prop :=
  forall p, ~ replies_to by_id c p.

Section walk.
Context (by_id : gmap N PrReviewComment).

Lemma replies_to_det c p q : replies_to by_id c p -> replies_to by_id c q -> p = q.
Proof. intros (? & ? & ?) (? & ? & ?). by simplify_eq. Qed.

Lemma root_walk_chain n steps c r :
  nsteps (replies_to by_id) n c r -> is_root by_id r -> n <= steps ->
  root_walk by_id steps c = r.
Proof.
  intros Hn Hr. revert steps. induction Hn as [c|n c p r (pid & Hc & Hp) _ IH]; intros steps Hle.
  - destruct steps; simpl; [done|]. destruct (rcm_in_reply_to_id c) eqn:Hc; simpl; [|done].
    destruct (by_id !! n) eqn:Hp; [|done]. by destruct (Hr p); exists n.
  - destruct steps as [|steps]; [lia|]. simpl. rewrite Hc. simpl. rewrite Hp.
    apply IH; [done|lia].
Qed.

(** A chain that ends visits no comment twice, so it is no longer than the map. *)
Lemma chain_keys n c r :
  nsteps (replies_to by_id) n c r -> is_root by_id r ->
  exists pids, length pids = n /\ NoDup pids /\
    forall pid, pid ∈ pids -> exists p k, by_id !! pid = Some p /\ k < n /\
                                          nsteps (replies_to by_id) k p r.
Proof.
  intros Hn Hr. induction Hn as [c|n c p r (pid & Hc & Hp) Hpr IH].
  - exists []. split; [done|]. split; [constructor|set_solver].
  - destruct (IH Hr) as (pids & Hlen & Hnd & Hall). exists (pid :: pids).
    split; [simpl; lia|]. split.
    + constructor; [|done]. intros Hin. destruct (Hall _ Hin) as (p' & k & Hp' & Hk & Hkr).
      simplify_eq. assert (forall i j x, nsteps (replies_to by_id) i x r ->
                             nsteps (replies_to by_id) j x r -> i = j) as Hdet.
      { clear -Hr. induction i as [|i IHi]; intros j x Hi Hj.
        - inversion Hi; subst. inversion Hj; subst; [done|]. by destruct (Hr y).
        - inversion Hi; subst. inversion Hj; subst; [by destruct (Hr y)|].
          f_equal. assert (y = y0) as -> by (by eapply replies_to_det). by eapply IHi. }
      pose proof (Hdet _ _ _ Hkr Hpr). lia.
    + intros q [->|Hq]%elem_of_cons; [by exists p, n; split_and!; [|lia|]|].
      destruct (Hall _ Hq) as (p' & k & ? & ? & ?). exists p', k. split_and!; [done|lia|done].
Qed.

Lemma chain_bounded n c r :
  nsteps (replies_to by_id) n c r -> is_root by_id r -> n <= size by_id.
Proof.
  intros Hn Hr. destruct (chain_keys n c r Hn Hr) as (pids & <- & Hnd & Hall).
  rewrite <- size_dom, <- (size_list_to_set (C := gset N)) by done.
  apply subseteq_size. intros pid Hpid%elem_of_list_to_set.
  destruct (Hall _ Hpid) as (p & _ & Hp & _). by apply elem_of_dom_2 in Hp.
Qed.
End walk.

(** [threads_of] hides nothing and invents nothing: taken together, the threads hold
    exactly the comments of the flat list, whatever the reply pointers are (dangling,
    or looping); and a comment whose reply chain reaches a root is filed under that
    root, however long the chain is, since the walk's bound is never met first. *)
Theorem threads_of_correct comments :
  (threads_of comments ≫= th_comments ≡ₚ thread_comment <$> comments) /\
  (forall c r, rtc (replies_to (index_by_id comments)) c r -> is_root (index_by_id comments) r ->
     root_id_of c (index_by_id comments) = rcm_id r).
Proof.
  split.
  - unfold threads_of. rewrite omap_threads.
    + apply fmap_Permutation. rewrite btree_iter_N_Permutation. apply flatten_group_comments.
    + intros [k l] He. rewrite btree_iter_N_Permutation in He. apply elem_of_map_to_list in He.
      by eapply group_comments_root.
  - intros c r [n Hn]%rtc_nsteps_1 Hr. unfold root_id_of.
    by rewrite (root_walk_chain _ n _ _ r) by eauto using chain_bounded.
Qed.

(** ** Reviewers *)

(** [r] is the standing review of its author: none of the author's other reviews is
    later, and of those submitted at the same instant it is the last in the list. *)
Definition standing (reviews : list PrReview) (r : PrReview) : Prop :=
  exists l1 l2, reviews = l1 ++ r :: l2 /\
    (forall q, q ∈ l1 -> rv_author q = rv_author r -> String.le (rv_submitted_at q) (rv_submitted_at r)) /\
    (forall q, q ∈ l2 -> rv_author q = rv_author r -> ~ String.le (rv_submitted_at r) (rv_submitted_at q)).

Lemma note_review_standing reviews a :
  match foldl note_review ∅ reviews !! a with
  | Some r => rv_author r = a /\ standing reviews r
  | None => a ∉ rv_author <$> reviews
  end.
Proof.
  induction reviews as [|q reviews IH] using rev_ind; [by apply not_elem_of_nil|].
  rewrite foldl_snoc. set (m := foldl note_review ∅ reviews) in *.
  assert (forall r, m !! a = Some r -> (rv_author q <> a \/ ~ String.le (rv_submitted_at r) (rv_submitted_at q)) ->
            rv_author r = a /\ standing (reviews ++ [q]) r) as Hkeep.
  { intros r Hm Hq. rewrite Hm in IH. destruct IH as [Ha (l1 & l2 & -> & H1 & H2)].
    split; [done|]. exists l1, (l2 ++ [q]). rewrite <- app_assoc. split; [done|]. split; [done|].
    intros x [Hx| ->%list_elem_of_singleton]%elem_of_app Hxa; [by apply H2|].
    destruct Hq; [congruence|done]. }
  assert ((forall r, m !! a = Some r -> String.le (rv_submitted_at r) (rv_submitted_at q)) ->
            rv_author q = a -> rv_author q = a /\ standing (reviews ++ [q]) q) as Hnew.
  { intros Hle Ha. split; [done|]. exists reviews, []. split; [done|]. split; [|set_solver].
    intros x Hx Hxa. destruct (m !! a) as [r|] eqn:Hm.
    - destruct IH as [Hra (l1 & l2 & -> & H1 & H2)].
      assert (String.le (rv_submitted_at x) (rv_submitted_at r)); [|by etrans; [|apply Hle]].
      apply elem_of_app in Hx as [Hx|Hx]; [by apply H1; congruence|].
      apply elem_of_cons in Hx as [->|Hx]; [done|].
      destruct (total String.le (rv_submitted_at x) (rv_submitted_at r)) as [|Hxr]; [done|].
      destruct (H2 x); [done|congruence|done].
    - destruct IH. rewrite <- Ha, <- Hxa. by apply list_elem_of_fmap_2. }
  unfold note_review. destruct (decide (rv_author q = a)) as [Ha|Ha].
  - rewrite Ha. destruct (m !! a) as [r|] eqn:Hm; [case_decide as Hle|];
      rewrite ?lookup_insert_eq, ?Hm; auto.
    + apply Hnew; [|done]. by intros ? [= <-].
    + apply Hnew; [|done]. done.
  - assert (match m !! a with
            | Some r => rv_author r = a /\ standing (reviews ++ [q]) r
            | None => a ∉ rv_author <$> reviews ++ [q]
            end) as Hsame.
    { destruct (m !! a) eqn:Hm; [by apply Hkeep; auto|]. rewrite fmap_app. set_solver. }
    destruct (m !! rv_author q); [case_decide|]; rewrite ?lookup_insert_ne by done; exact Hsame.
Qed.

Lemma btree_iter_keys_sorted {V} (m : gmap string V) :
  StronglySorted String.le (fst <$> btree_iter m) /\ NoDup (fst <$> btree_iter m).
Proof.
  split.
  - unfold btree_iter.
    assert (StronglySorted (fun x y => bool_decide (String.le x.1 y.1) = true)
              (sort_by (fun x y => bool_decide (String.le x.1 y.1)) (map_to_list m))) as H.
    { apply sort_by_sorted.
      - intros x y. rewrite !bool_decide_eq_true. apply (total String.le).
      - intros x y z. rewrite !bool_decide_eq_true. apply transitivity. }
    induction H as [|x l _ IH Hx]; [constructor|]. rewrite fmap_cons. constructor; [done|].
    rewrite Forall_fmap. eapply Forall_impl; [done|]. simpl. intros y. by rewrite bool_decide_eq_true.
  - unfold btree_iter. rewrite sort_by_Permutation. apply NoDup_fst_map_to_list.
Qed.

(** [latest_state_per_reviewer] reports one row per reviewer, in author order, and each
    row is that reviewer's standing position: the review they submitted last. *)
Theorem latest_state_per_reviewer_correct reviews :
  let rows := latest_state_per_reviewer reviews in
  StronglySorted String.le (rs_author <$> rows) /\ NoDup (rs_author <$> rows) /\
  (forall a, a ∈ rs_author <$> rows <-> a ∈ rv_author <$> reviews) /\
  (forall row, row ∈ rows ->
     exists r, standing reviews r /\ row = mkReviewerState (rv_author r) (rv_state r)).
Proof.
  intros rows. set (m := foldl note_review ∅ reviews).
  assert (forall e, e ∈ btree_iter m -> e.1 = rv_author e.2 /\ standing reviews e.2) as He.
  { intros [a r] Hin. unfold btree_iter in Hin.
    rewrite sort_by_Permutation, elem_of_map_to_list in Hin.
    pose proof (note_review_standing reviews a) as H. subst m. rewrite Hin in H. naive_solver. }
  assert (rs_author <$> rows = fst <$> btree_iter m) as Hkeys.
  { subst rows. unfold latest_state_per_reviewer. rewrite <- list_fmap_compose.
    apply fmap_ext_in. intros e Hin. symmetry. by apply He. }
  rewrite Hkeys. split; [apply btree_iter_keys_sorted|].
  split; [apply btree_iter_keys_sorted|]. split.
  - intros a. unfold btree_iter. rewrite sort_by_Permutation.
    pose proof (note_review_standing reviews a) as H. fold m in H. split.
    + intros ([b r] & -> & Hin%elem_of_map_to_list)%list_elem_of_fmap. simpl in *. rewrite Hin in H.
      destruct H as [<- (l1 & l2 & -> & _)]. apply list_elem_of_fmap_2. set_solver.
    + intros Ha. destruct (m !! a) as [r|] eqn:Hm; [|done].
      apply elem_of_map_to_list in Hm. by apply (list_elem_of_fmap_2 fst) in Hm.
  - intros row (e & -> & Hin)%list_elem_of_fmap. exists e.2. split; [by apply He|done].
Qed.

Lemma parse_digits_no_char c max acc s n :
  digit c = None -> parse_digits max acc s = Some n -> has_char c s = false.
Proof.
  intros Hc. revert acc. induction s as [|a s IH]; intros acc; simpl; [done|].
  destruct (digit a) eqn:Ha; simpl; [|done]. case_decide; [|done]. intros Hs.
  apply orb_false_iff. split; [apply bool_decide_eq_false; congruence|eauto].
Qed.

Lemma parse_u64_no_slash s n : parse_u64 s = Some n -> has_char "/"%char s = false.
Proof.
  unfold parse_u64, parse_unsigned. destruct s as [|a s]; [done|].
  destruct (decide (a = "+"%char)) as [->|Hp].
  - destruct s; [done|]. intros H. by eapply (parse_digits_no_char "/"%char) in H.
  - intros H. apply (parse_digits_no_char "/"%char u64_max 0 (String a s) n); [done|].
    destruct a as [[] [] [] [] [] [] [] []]; try exact H; done.
Qed.

(** The pull number survives the round trip through the recorded url. *)
Lemma pr_number_from_url_roundtrip base n phase err :
  (n <= u64_max)%N ->
  pr_number_from_status_url (Some (mkGithubPrStatus phase (Some (base +:+ "/" +:+ pretty n)) err)) = Some n.
Proof.
  intros Hn. unfold pr_number_from_status_url. simpl.
  change ("/" +:+ pretty n) with (String "/"%char (pretty n)).
  rewrite after_last_app; [by apply parse_unsigned_pretty|].
  by eapply parse_u64_no_slash, parse_unsigned_pretty.
Qed.
