(* ===== verification/StackNodes.v ===== *)
(** * The planned-node writers

    [src/packages/tddy-pr-stack/src/stack_ops/nodes.rs] (add, update, delete), the
    shared helpers of [stack_ops/mod.rs], the move of [stack_ops/order.rs], and the
    child-session links of [changeset/stack.rs]. Every writer reads the stack,
    validates, then rewrites the file through [update_stack_atomic], which reads it
    again; the two reads are two steps here as well. *)

From S2P Require Import Prelude Stack StackTopo StackOrder Changeset NodeIds.

Local Open Scope io_scope.

(** ** Shared helpers (stack_ops/mod.rs) *)

Definition message_prefix (op : string) : string :=
  if decide (op = "") then "" else op +:+ ": ".

(** The loop of [validate_parents], with the parents already seen. *)
Fixpoint validate_parents_from (s : Stack) (node_id : option string) (seen parents : list string)
    (prefix : string) : res string unit :=
  match parents with
  | [] => Ok ()
  | parent :: parents' =>
      if decide (node_id = Some parent) then
        Err (prefix +:+ "node '" +:+ parent +:+ "' cannot be its own parent")
      else if decide (parent ∉ node_ids s) then
        Err (prefix +:+ "dangling parent ref: " +:+ parent)
      else if decide (is_Some node_id /\ parent ∈ seen) then
        Err (prefix +:+ "parent '" +:+ parent +:+ "' is named more than once")
      else validate_parents_from s node_id (seen ++ [parent]) parents' prefix
  end.

Definition validate_parents (s : Stack) (node_id : option string) (parents : list string)
    (op : string) : res string unit :=
  validate_parents_from s node_id [] parents (message_prefix op).

Definition reject_if_cyclic (candidate : Stack) (op : string) : res string unit :=
  let? _ := map_err (fun e => message_prefix op +:+ "cycle detected: " +:+ WorkflowError_display e)
              (topo_order candidate) in
  Ok ().

Definition failed (op what : string) (e : WorkflowError) : string :=
  op +:+ ": " +:+ what +:+ ": " +:+ WorkflowError_display e.

(** ** Removing a node (nodes.rs) *)

Definition push_unique (acc : list string) (id : string) : list string :=
  if decide (id ∈ acc) then acc else acc ++ [id].

(** A child's new parents: the removed node's place is taken by its own parents. *)
Definition reparent (removed : string) (inherited : list string) (ps : list string) : list string :=
  foldl (fun acc p => foldl push_unique acc (if decide (p = removed) then inherited else [p])) [] ps.

Definition reparent_child (removed : string) (inherited : list string) (child : StackNode)
  : StackNode :=
  if decide (removed ∈ sn_parents child)
  then set_parents child (reparent removed inherited (sn_parents child)) else child.

(** [nodes.remove(position)], the node and the rest. *)
Fixpoint remove_first (id : string) (l : list StackNode) : option (StackNode * list StackNode) :=
  match l with
  | [] => None
  | n :: l' =>
      if decide (sn_node_id n = id) then Some (n, l')
      else (fun p => (p.1, n :: p.2)) <$> remove_first id l'
  end.

Definition remove_node_reparenting_children (s : Stack) (id : string)
  : option (StackNode * list string) * Stack :=
  match remove_first id (st_nodes s) with
  | None => (None, s)
  | Some (removed, rest) =>
      let inherited := filter (fun p => p <> id) (sn_parents removed) in
      (Some (removed, sn_node_id <$> filter (fun c => id ∈ sn_parents c) rest),
       mkStack (st_version s) (reparent_child id inherited <$> rest))
  end.

(** ** The writers *)

Record AddPlannedPrInput := mkAddPlannedPrInput {
  ai_title : string; ai_description : string;
  ai_branch_suggestion : option string; ai_parents : list string;
  ai_child_recipe : option string }.

Record UpdatePlannedPrInput := mkUpdatePlannedPrInput {
  ui_node_id : string; ui_title : option string; ui_description : option string;
  ui_branch_suggestion : option string }.

Record DeletedNode := mkDeletedNode {
  dn_node : StackNode; dn_reparented_children : list string;
  dn_orphaned_branch : option string; dn_orphaned_session_id : option string }.

Section writers.
Context {yaml : YamlCodec} (overflow_checks : bool).

Definition read_stack (dir op : string) : io disk string Stack :=
  let! cs := io_map_err (failed op "failed to read changeset") (read_changeset dir) in
  io_ret (default Stack_default (cs_stack cs)).

(** The closure of [append_node_atomic]. *)
Definition append_numbered (n : StackNode) (s : Stack) : StackNode * Stack :=
  let s := assign_missing_display_order s in
  let appended := set_display_order n (Some (next_display_order s)) in
  (appended, mkStack (st_version s) (st_nodes s ++ [appended])).

Definition append_node_atomic (dir : string) (n : StackNode) (op : string)
  : io disk string StackNode :=
  io_map_err (failed op "failed to write stack") (update_stack_atomic dir (append_numbered n)).

(** The node [add_planned_pr_node] writes, and the checks it passes first. *)
Definition planned_node (existing : Stack) (input : AddPlannedPrInput) : res string StackNode :=
  let? _ := validate_parents existing None (ai_parents input) "" in
  let? id := next_free_node_id overflow_checks existing in
  let new_node := mkStackNode id (ai_title input) (ai_description input)
    (ai_branch_suggestion input) None None (ai_parents input) None None None None in
  let? _ := reject_if_cyclic (mkStack (st_version existing) (st_nodes existing ++ [new_node])) "" in
  Ok new_node.

Definition add_planned_pr_node (dir : string) (input : AddPlannedPrInput)
  : io disk string StackNode :=
  let! existing := read_stack dir "add_planned_pr_node" in
  let! new_node := io_lift (planned_node existing input) in
  append_node_atomic dir new_node "add_planned_pr_node".

(** The fields an update rewrites. *)
Definition apply_update (input : UpdatePlannedPrInput) (n : StackNode) : StackNode :=
  set_texts n (default (sn_title n) (ui_title input))
    (default (sn_description n) (ui_description input))
    (match ui_branch_suggestion input with
     | Some b => Some b
     | None => sn_branch_suggestion n
     end).

(** The closure of [update_planned_pr_node]; the first component is [updated]. *)
Definition update_closure (input : UpdatePlannedPrInput) (s : Stack)
  : option StackNode * Stack :=
  let s := modify_node (ui_node_id input) (apply_update input) (assign_missing_display_order s) in
  (node s (ui_node_id input), s).

Definition update_planned_pr_node (dir : string) (input : UpdatePlannedPrInput)
  : io disk string StackNode :=
  let op := "update_planned_pr_node" in
  let id := ui_node_id input in
  if decide (ui_title input = None /\ ui_description input = None
             /\ ui_branch_suggestion input = None) then
    io_lift (Err (op +:+ ": the update of node '" +:+ id
      +:+ "' names no field to change (expected at least one of title, description, branch_suggestion)"))
  else
    let! s := read_stack dir op in
    let! n := io_lift (ok_or (node s id) (op +:+ ": node '" +:+ id +:+ "' not found")) in
    match sn_branch n, ui_branch_suggestion input with
    | Some branch, Some suggestion =>
        io_lift (Err (op +:+ ": node '" +:+ id +:+ "' already owns branch '" +:+ branch
          +:+ "', so its branch_suggestion cannot be rewritten to '" +:+ suggestion +:+ "'"))
    | _, _ =>
        let! updated := io_map_err (failed op "failed to write stack")
                          (update_stack_atomic dir (update_closure input)) in
        io_lift (ok_or updated
          (op +:+ ": node '" +:+ id +:+ "' vanished before the update was written"))
    end.

Definition pr_is_open (n : StackNode) : bool :=
  match sn_pr_status n with
  | Some st => bool_decide (ps_phase st = "open")
  | None => false
  end.

(** The closure of [delete_planned_pr_node]; the first component is [removed]. *)
Definition delete_closure (id : string) (s : Stack) : option (StackNode * list string) * Stack :=
  remove_node_reparenting_children (assign_missing_display_order s) id.

Definition delete_planned_pr_node (dir id : string) : io disk string DeletedNode :=
  let op := "delete_planned_pr_node" in
  let! s := read_stack dir op in
  let! n := io_lift (ok_or (node s id) (op +:+ ": node '" +:+ id +:+ "' not found")) in
  if pr_is_open n then
    io_lift (Err (op +:+ ": node '" +:+ id
      +:+ "' has an open pull request — merge it with pr_merge or close it with pr_close first"))
  else
    let candidate := (remove_node_reparenting_children s id).2 in
    let! _ := io_lift (reject_if_cyclic candidate op) in
    let! removed := io_map_err (failed op "failed to write stack")
                      (update_stack_atomic dir (delete_closure id)) in
    let! r := io_lift (ok_or removed
      (op +:+ ": node '" +:+ id +:+ "' vanished before the delete was written")) in
    io_ret (mkDeletedNode r.1 r.2 (sn_branch r.1) (sn_session_id r.1)).

(** [move_planned_pr_node] (order.rs). *)
Definition move_planned_pr_node (dir id direction : string) : io disk string Stack :=
  let op := "move_planned_pr_node" in
  let! up := io_lift (if decide (direction = "up") then Ok true
                      else if decide (direction = "down") then Ok false
                      else Err (op +:+ ": unknown direction '" +:+ direction
                             +:+ "' — expected 'up' or 'down'")) in
  let! s := read_stack dir op in
  let! _ := io_lift (ok_or (node s id) (op +:+ ": node '" +:+ id +:+ "' not found")) in
  io_map_err (failed op "failed to write stack")
    (update_stack_atomic dir (fun s =>
       ((), swap_with_neighbour (assign_missing_display_order s) id up)));;
  let! cs := io_map_err (failed op "failed to reload stack") (read_changeset dir) in
  io_ret (default Stack_default (cs_stack cs)).

(** ** Child sessions (changeset/stack.rs) *)

(** [link_stack_node_to_child_session]. *)
Definition link_stack_node_to_child_session (dir id child_session_id : string)
    (branch : option string) : io disk WorkflowError unit :=
  update_stack_atomic dir (fun s =>
    ((), modify_node id (fun n =>
           let n := set_session_id n (Some child_session_id) in
           match branch with Some b => set_branch n (Some b) | None => n end) s)).

(** [resolve_stack_node_branch]: the node's own branch, else its child session's. *)
Definition resolve_stack_node_branch (w : disk) (sessions_root : string) (n : StackNode)
  : option string :=
  match sn_branch n with
  | Some b => Some b
  | None =>
      session_id ← sn_session_id n;
      cs ← stored w (unified_session_dir_path sessions_root session_id);
      cs_branch cs
  end.

Definition read_stack_with_resolved_branches (sessions_root orchestrator_session_id : string)
  : io disk WorkflowError (option Stack) := fun w =>
  (let! cs := read_changeset (unified_session_dir_path sessions_root orchestrator_session_id) in
   io_ret ((fun s => mkStack (st_version s)
              ((fun n => set_branch n (resolve_stack_node_branch w sessions_root n)) <$> st_nodes s))
           <$> cs_stack cs)) w.

(** [sync_stack_node_from_child]. *)
Definition sync_stack_node_from_child (dir sessions_root id : string)
  : io disk WorkflowError unit :=
  let! orch := read_changeset dir in
  match (s ← cs_stack orch; n ← node s id; sn_session_id n) with
  | None => io_ret ()
  | Some session_id =>
      let! child := read_changeset (unified_session_dir_path sessions_root session_id) in
      update_stack_atomic dir (fun s =>
        ((), modify_node id (fun n =>
               set_pr_status (set_child_state n (Some (cst_current (cs_state child))))
                 (cs_workflow child ≫= cw_github_pr_status)) s))
  end.
End writers.
