(* ===== verification/StackRepoint.v ===== *)
(** * Re-parenting a node and realigning git and GitHub with the plan

    [src/packages/tddy-pr-stack/src/stack_ops/repoint.rs] ([repoint_planned_pr_node],
    [realign_node_to_effective_base], [record_rebase_error]) and
    [set_stack_node_parents] of [stack_ops/nodes.rs].

    The git commands ([git_ops.rs] shells out to [git]) and the GitHub REST calls
    (the [GithubPrApi] trait) act on a state outside the repository: they are the
    operations of the class [Remote] over an arbitrary state [X]. *)

From S2P Require Import Prelude Text Stack StackTopo StackOrder Changeset NodeIds StackNodes.

Local Open Scope io_scope.

Class Remote (X : Type) := {
  (** [git_ops::local_branch_exists]. *)
  local_branch_exists : X -> string -> bool;
  (** [git_ops::merge_base]. *)
  merge_base : X -> string -> string -> WorkflowError + string;
  (** [git_ops::rebase_onto]: new base, old base, branch. *)
  rebase_onto : string -> string -> string -> io X WorkflowError unit;
  (** [git rev-parse <branch>], the empty string when it fails. *)
  rev_parse : X -> string -> string;
  (** [tddy_git::detect_default_remote_name]. *)
  detect_default_remote_name : X -> option string;
  (** [git_ops::force_push_with_lease]: remote, branch, expected sha. *)
  force_push_with_lease : string -> string -> string -> io X WorkflowError unit;
  (** [GithubPrApi::get_open_pr]: the number of the open PR of a head branch. *)
  get_open_pr : X -> string -> WorkflowError + option N;
  (** [GithubPrApi::patch_pr_base]. *)
  patch_pr_base : N -> string -> io X WorkflowError unit }.

Record world (X : Type) := mkWorld { w_disk : disk; w_ext : X }.
Arguments mkWorld {X} _ _.
Arguments w_disk {X} _.
Arguments w_ext {X} _.

Definition on_disk {X E A} (m : io disk E A) : io (world X) E A := fun w =>
  let '(r, d) := m (w_disk w) in (r, mkWorld d (w_ext w)).

Definition on_ext {X E A} (m : io X E A) : io (world X) E A := fun w =>
  let '(r, x) := m (w_ext w) in (r, mkWorld (w_disk w) x).

Definition ask {X E A} (f : X -> A) : io (world X) E A := fun w => (Ok (f (w_ext w)), w).

(** Which parents survive a repoint: with a target, exactly those that own it as
    their branch; without one, those not known to be merged. *)
Definition survives (target_base_branch : option string) (s : Stack) (parent_id : string) : bool :=
  match target_base_branch with
  | Some target =>
      match node s parent_id with
      | Some p => bool_decide (sn_branch p = Some target)
      | None => false
      end
  | None => negb (match node s parent_id with Some p => is_skipped p | None => false end)
  end.

(** The closure of [repoint_planned_pr_node]. *)
Definition repoint_closure (target : option string) (id : string) (s : Stack) : Stack :=
  let s := assign_missing_display_order s in
  let retained :=
    match node s id with
    | Some n => filter (fun p => survives target s p = true) (sn_parents n)
    | None => []
    end in
  modify_node id (fun n => set_parents n retained) s.

(** The closure of [set_stack_node_parents]. *)
Definition set_parents_closure (id : string) (parents : list string) (s : Stack) : Stack :=
  modify_node id (fun n => set_parents n parents) (assign_missing_display_order s).

(** The closure of [record_rebase_error]. *)
Definition rebase_error_closure (id err_msg : string) (s : Stack) : Stack :=
  modify_node id (fun n => set_pr_status n (Some (mkGithubPrStatus "error" None (Some err_msg))))
    (assign_missing_display_order s).

Section repoint.
Context {yaml : YamlCodec} {X : Type} `{!Remote X}.

Definition record_rebase_error (op dir id err_msg : string) : io disk string unit :=
  io_map_err (failed op "failed to record error")
    (update_stack_atomic dir (fun s => ((), rebase_error_closure id err_msg s))).

(** The branch a node is realigned onto: the first effective base ref, without
    its [origin/] prefix. *)
Definition effective_base (s : Stack) (id default_branch : string) : string :=
  let base_ref := default default_branch (head (effective_base_refs s id default_branch)) in
  default base_ref (strip_prefix "origin/" base_ref).

(** The git half: rebase, record a conflict, force-push (a failed push only warns). *)
Definition realign_git (op dir id branch base : string) : io (world X) string unit :=
  let! old_base := ask (fun x => match merge_base x branch base with
                                 | inr b => b
                                 | inl _ => base
                                 end) in
  let! rebased := io_catch (on_ext (rebase_onto base old_base branch)) in
  match rebased with
  | inl e =>
      on_disk (record_rebase_error op dir id (WorkflowError_display e));;
      io_lift (Err (op +:+ ": rebase of " +:+ branch +:+ " onto " +:+ base +:+ " failed: "
        +:+ WorkflowError_display e))
  | inr _ =>
      let! expected_sha := ask (fun x => rev_parse x branch) in
      let! remote := ask (fun x => default "origin" (detect_default_remote_name x)) in
      io_catch (on_ext (force_push_with_lease remote branch expected_sha));;
      io_ret ()
  end.

(** The GitHub half: re-target the open PR, when there is one. *)
Definition realign_pr (op branch base : string) : io (world X) string unit :=
  let! found := ask (fun x => get_open_pr x branch) in
  match found with
  | inl e => io_lift (Err (failed op "get_open_pr failed" e))
  | inr None => io_ret ()
  | inr (Some number) =>
      io_map_err (failed op "patch_pr_base failed") (on_ext (patch_pr_base number base))
  end.

Definition realign_node_to_effective_base (op dir id branch default_branch : string)
  : io (world X) string unit :=
  let! cs := io_map_err (failed op "failed to re-read changeset") (on_disk (read_changeset dir)) in
  let base := effective_base (default Stack_default (cs_stack cs)) id default_branch in
  let! local := ask (fun x => local_branch_exists x branch) in
  (if (local : bool) then realign_git op dir id branch base else io_ret ());;
  realign_pr op branch base.

Definition repoint_planned_pr_node (dir id default_branch : string)
    (target_base_branch : option string) : io (world X) string StackNode :=
  let op := "repoint_planned_pr_node" in
  let! cs := io_map_err (failed op "failed to read changeset") (on_disk (read_changeset dir)) in
  let s := default Stack_default (cs_stack cs) in
  let! n := io_lift (ok_or (node s id) (op +:+ ": node '" +:+ id +:+ "' not found")) in
  io_map_err (failed op "failed to persist stack")
    (on_disk (update_stack_atomic dir (fun s => ((), repoint_closure target_base_branch id s))));;
  match sn_branch n with
  | Some branch => realign_node_to_effective_base op dir id branch default_branch
  | None => io_ret ()
  end;;
  let! cs := io_map_err (failed op "failed to reload node") (on_disk (read_changeset dir)) in
  io_lift (ok_or (node (default Stack_default (cs_stack cs)) id)
    (op +:+ ": node '" +:+ id +:+ "' vanished after repoint")).

Definition reload_moved_node (dir id : string) : io disk string StackNode :=
  let op := "set_stack_node_parents" in
  let! cs := io_map_err (failed op "failed to reload node") (read_changeset dir) in
  io_lift (ok_or (node (default Stack_default (cs_stack cs)) id)
    (op +:+ ": node '" +:+ id +:+ "' vanished after the move")).

(** The checks of [set_stack_node_parents], before anything is written. *)
Definition check_new_parents (s : Stack) (id : string) (parents : list string) : res string unit :=
  let op := "set_stack_node_parents" in
  let? _ := ok_or (node s id) (op +:+ ": node '" +:+ id +:+ "' not found") in
  let? _ := validate_parents s (Some id) parents op in
  reject_if_cyclic (modify_node id (fun n => set_parents n parents) s) op.

Definition set_stack_node_parents (dir id : string) (parents : list string)
    (default_branch : string) : io (world X) string StackNode :=
  let op := "set_stack_node_parents" in
  let! s := on_disk (read_stack dir op) in
  let! _ := io_lift (check_new_parents s id parents) in
  io_map_err (failed op "failed to write stack")
    (on_disk (update_stack_atomic dir (fun s => ((), set_parents_closure id parents s))));;
  let! moved := on_disk (reload_moved_node dir id) in
  match sn_branch moved with
  | Some branch => realign_node_to_effective_base op dir id branch default_branch
  | None => io_ret ()
  end;;
  io_ret moved.
End repoint.
