(* ===== verification/StackAdopt.v ===== *)
(** * Seeding a stack and adopting pull requests

    [src/packages/tddy-pr-stack/src/stack_ops/seed.rs] (the base-session rules and
    [seed_stack_with_base_session]) and [stack_ops/adopt.rs] (adoption of an existing
    pull request, and the push of a node's edits to its pull request). *)

From S2P Require Import Prelude Text Stack StackTopo StackOrder Changeset NodeIds PrInsight StackNodes StackRepoint.

Local Open Scope io_scope.

(** ** Seeding (seed.rs) *)

Record SeededBase := mkSeededBase {
  sb_branch : string; sb_title : string; sb_repo_path : option string }.

Inductive StackSeedBaseRefusal :=
| Unresolvable (reason : string)
| Unusable (reason : string).

Definition refusal_reason (r : StackSeedBaseRefusal) : string :=
  match r with Unresolvable s | Unusable s => s end.

Definition non_blank (value : option string) : option string := value ≫= trimmed_some.

Section seed.
Context {yaml : YamlCodec} (overflow_checks : bool).
(** [Path::canonicalize], [None] for an error. *)
Context (canonicalize : disk -> string -> option string).

Definition is_same_session_dir (w : disk) (left right : string) : bool :=
  path_eqb left right ||
  match canonicalize w left, canonicalize w right with
  | Some l, Some r => path_eqb l r
  | _, _ => false
  end.

(** The rules on the changeset a base session holds. *)
Definition seeded_base (base_session_id : string) (base : Changeset)
  : res StackSeedBaseRefusal SeededBase :=
  let? branch := ok_or (non_blank (cs_branch base))
    (Unusable ("session '" +:+ base_session_id
      +:+ "' owns no branch, so there is nothing for the stack's root node to be bound to")) in
  match non_blank (cs_orchestrator_session_id base) with
  | Some owner =>
      Err (Unusable ("session '" +:+ base_session_id
        +:+ "' is already a node of the stack orchestrated by '" +:+ owner
        +:+ "', so a second stack cannot be based on it — two orchestrators with repoint and pull authority over one branch is ambiguous ownership"))
  | None =>
      Ok (mkSeededBase branch (default branch (non_blank (cs_name base)))
            (non_blank (cs_repo_path base)))
  end.

Definition check_stack_seed_base (sessions_root base_session_id : string)
  : io disk StackSeedBaseRefusal SeededBase :=
  let base_session_id := trim base_session_id in
  let base_dir := unified_session_dir_path sessions_root base_session_id in
  let! base := io_map_err (fun e => Unresolvable ("base session '" +:+ base_session_id
                 +:+ "' could not be read: " +:+ WorkflowError_display e))
                 (read_changeset base_dir) in
  io_lift (seeded_base base_session_id base).

Definition check_stack_seed_not_self (orchestrator_dir sessions_root base_session_id : string)
  : io disk string unit := fun w =>
  let base_dir := unified_session_dir_path sessions_root (trim base_session_id) in
  if is_same_session_dir w orchestrator_dir base_dir then
    (Err ("refusing to base the stack on itself — '" +:+ trim base_session_id
            +:+ "' is the session that owns this stack"), w)
  else (Ok (), w).

(** The node a seed writes: the session id is kept as it was given. *)
Definition seeded_node (node_id base_session_id : string) (base : SeededBase) : StackNode :=
  mkStackNode node_id (sb_title base) "" None (Some (sb_branch base)) (Some base_session_id)
    [] None None None None.

Definition seed_stack_with_base_session (orchestrator_dir sessions_root base_session_id : string)
  : io disk string StackNode :=
  let op := "seed_stack_with_base_session" in
  io_map_err (fun reason => op +:+ ": " +:+ reason)
    (check_stack_seed_not_self orchestrator_dir sessions_root base_session_id);;
  let! existing := read_stack orchestrator_dir op in
  if decide (st_nodes existing <> []) then
    io_lift (Err (op +:+ ": this stack already has " +:+ pretty (length (st_nodes existing))
      +:+ " node(s), so there is nothing to seed — a stack is grown with add_planned_pr_node"))
  else
    let! base := io_map_err (fun r => op +:+ ": " +:+ refusal_reason r)
                   (check_stack_seed_base sessions_root base_session_id) in
    let! id := io_lift (next_free_node_id overflow_checks existing) in
    append_node_atomic orchestrator_dir (seeded_node id base_session_id base) op.
End seed.

(** ** Adoption (adopt.rs) *)

Record AdoptedPrFacts := mkAdoptedPrFacts {
  af_pull_number : N; af_title : string; af_body : string; af_head_branch : string;
  af_url : string; af_phase : string }.

Definition find_by (p : StackNode -> bool) (l : list StackNode) : option StackNode :=
  snd <$> list_find (fun n => p n = true) l.

Definition reject_if_branch_bound (s : Stack) (facts : AdoptedPrFacts) : res string unit :=
  match find_by (fun n => bool_decide (sn_branch n = Some (af_head_branch facts))) (st_nodes s) with
  | None => Ok ()
  | Some bound =>
      Err ("adopt_pr_as_stack_node: branch '" +:+ af_head_branch facts
        +:+ "' is already bound to node '" +:+ sn_node_id bound +:+ "', so PR #"
        +:+ pretty (af_pull_number facts) +:+ " is already tracked by this stack")
  end.

Definition reject_if_pull_number_tracked (s : Stack) (facts : AdoptedPrFacts) : res string unit :=
  match find_by (fun n => bool_decide (pr_number_from_status_url (sn_pr_status n)
                                        = Some (af_pull_number facts))) (st_nodes s) with
  | None => Ok ()
  | Some tracking =>
      Err ("adopt_pr_as_stack_node: PR #" +:+ pretty (af_pull_number facts)
        +:+ " is already recorded on node '" +:+ sn_node_id tracking
        +:+ "', so it is already tracked by this stack")
  end.

Section adopt.
Context {yaml : YamlCodec} (overflow_checks : bool).

(** The node an adoption writes, and the checks it passes first. *)
Definition adopted_node (existing : Stack) (facts : AdoptedPrFacts) (parents : list string)
  : res string StackNode :=
  let op := "adopt_pr_as_stack_node" in
  let? _ := validate_parents existing None parents op in
  let? _ := reject_if_branch_bound existing facts in
  let? _ := reject_if_pull_number_tracked existing facts in
  let? id := next_free_node_id overflow_checks existing in
  let new_node := mkStackNode id (af_title facts) (af_body facts) None
    (Some (af_head_branch facts)) None parents
    (Some (mkGithubPrStatus (af_phase facts) (Some (af_url facts)) None)) None None None in
  let? _ := reject_if_cyclic (mkStack (st_version existing) (st_nodes existing ++ [new_node])) op in
  Ok new_node.

Definition adopt_pr_as_stack_node (dir : string) (facts : AdoptedPrFacts) (parents : list string)
  : io disk string StackNode :=
  let op := "adopt_pr_as_stack_node" in
  let! existing := read_stack dir op in
  let! new_node := io_lift (adopted_node existing facts parents) in
  append_node_atomic dir new_node op.

Context {X : Type} `{!PrInsightApi X}.

Definition phase_of_state (st : PrState) : string :=
  match st with
  | PrState_Open | PrState_Draft => "open"
  | PrState_Merged => "merged"
  | PrState_Closed => "closed"
  end.

Definition adopt_pr_into_stack (dir : string) (pull_number : N) (parents : list string)
  : io (world X) string StackNode :=
  let! found := ask (fun x => get_pr x pull_number) in
  match found with
  | inl e => io_lift (Err (failed "adopt_pr_into_stack"
               ("reading PR #" +:+ pretty pull_number +:+ " failed") e))
  | inr pr =>
      on_disk (adopt_pr_as_stack_node dir
        (mkAdoptedPrFacts pull_number (pd_title pr) (pd_body pr) (pd_head_branch pr) (pd_url pr)
           (phase_of_state (pd_state pr))) parents)
  end.

Definition sync_node_to_github_pr (dir node_id : string) (title body : option string)
  : io (world X) string N :=
  let op := "sync_node_to_github_pr" in
  let! cs := io_map_err (failed op "failed to read changeset") (on_disk (read_changeset dir)) in
  let! number := io_lift (map_err (fun e => op +:+ ": " +:+ e)
                   (pull_number_for_node (default Stack_default (cs_stack cs)) node_id)) in
  io_map_err (failed op ("patching PR #" +:+ pretty number +:+ " for node '" +:+ node_id +:+ "' failed"))
    (on_ext (patch_pr_title_body number title body));;
  io_ret number.
End adopt.
