(* ===== verification/StackInv.v ===== *)
(** * Well-formed stacks

    The invariant every PR-stack writer maintains ([stack_ok]: unique ids, no dangling
    parent, no cycle) and its decision procedure; the equivalence of stacks that have
    the same plan ([plan_eq]), which rewriting respects; and how appending, removing and
    re-parenting a node act on them. *)

From S2P Require Import Prelude Stack StackTopo StackOrder Changeset NodeIds StackNodes StackRepoint.

(** ** Plans: stacks up to their reading order *)

Definition plan_eq (s s' : Stack) : Prop := erase_order s = erase_order s'.

#[global] Instance plan_eq_equiv : Equivalence plan_eq.
Proof. split; unfold plan_eq; congruence || (intros ?; congruence). Qed.

Definition no_dangling (s : Stack) : Prop :=
  forall n p, n ∈ st_nodes s -> p ∈ sn_parents n -> p ∈ node_ids s.

Record stack_ok (s : Stack) : Prop := {
  so_ids : NoDup (node_ids s);
  so_parents : no_dangling s;
  so_acyclic : acyclic s }.

(** The invariant is decidable: it is what [topo_order] checks, plus the references. *)
Lemma stack_ok_decides s :
  stack_ok s <->
  Forall (fun n => Forall (fun p => p ∈ node_ids s) (sn_parents n)) (st_nodes s) /\
  is_ok (topo_order s) = true.
Proof.
  rewrite Forall_forall. setoid_rewrite Forall_forall. split.
  - intros [Hids Hd Ha]. destruct (topo_order_complete s Hids Ha) as [order ->]. split; [|done].
    intros n Hn p. by apply Hd.
  - intros [Hd Ho]. destruct (topo_order s) as [order| |] eqn:Ht; [|done..].
    apply topo_order_Ok_valid in Ht as [??]. split; [done| |done]. intros n p Hn. by apply Hd.
Qed.

#[global] Instance stack_ok_dec s : Decision (stack_ok s).
Proof.
  refine (cast_if (decide (Forall (fun n => Forall (fun p => p ∈ node_ids s) (sn_parents n)) (st_nodes s) /\
    is_ok (topo_order s) = true))); by rewrite stack_ok_decides.
Defined.

Lemma node_ids_erase s : node_ids (erase_order s) = node_ids s.
Proof. unfold node_ids, erase_order. simpl. by rewrite <- list_fmap_compose. Qed.

Lemma erase_elem s n :
  n ∈ st_nodes (erase_order s) <-> exists m, m ∈ st_nodes s /\ n = set_display_order m None.
Proof. unfold erase_order. simpl. rewrite list_elem_of_fmap. naive_solver. Qed.

Lemma parent_of_erase s p c : parent_of (erase_order s) p c <-> parent_of s p c.
Proof.
  unfold parent_of. rewrite node_ids_erase. split.
  - intros (n & (m & Hm & ->)%erase_elem & Hid & Hp & Hk). by exists m.
  - intros (m & Hm & Hid & Hp & Hk). exists (set_display_order m None).
    split; [|done]. apply erase_elem. eauto.
Qed.

#[global] Instance node_ids_proper : Proper (plan_eq ==> eq) node_ids.
Proof. intros s s' H. by rewrite <- (node_ids_erase s), <- (node_ids_erase s'), H. Qed.

#[global] Instance parent_of_proper : Proper (plan_eq ==> eq ==> eq ==> iff) parent_of.
Proof.
  intros s s' H p ? <- c ? <-.
  by rewrite <- (parent_of_erase s), <- (parent_of_erase s'), H.
Qed.

Lemma tc_iff {A} (R R' : relation A) x y : (forall a b, R a b -> R' a b) -> tc R x y -> tc R' x y.
Proof. intros Hr. induction 1; [by apply tc_once; auto|eapply tc_l; eauto]. Qed.

Lemma tc_first {A} (R : relation A) x y : tc R x y -> exists z, R x z.
Proof. destruct 1; eauto. Qed.

#[global] Instance acyclic_proper : Proper (plan_eq ==> iff) acyclic.
Proof.
  intros s s' H. unfold acyclic.
  split; intros Ha x Hx; apply (Ha x); eapply tc_iff; [|done| |done]; intros a b; by rewrite H.
Qed.

Lemma no_dangling_erase s : no_dangling (erase_order s) <-> no_dangling s.
Proof.
  unfold no_dangling. rewrite node_ids_erase. split.
  - intros Hn n p Hin Hp. apply (Hn (set_display_order n None) p); [|done]. apply erase_elem. eauto.
  - intros Hn n p (m & Hm & ->)%erase_elem Hp. by apply (Hn m).
Qed.

#[global] Instance no_dangling_proper : Proper (plan_eq ==> iff) no_dangling.
Proof. intros s s' H. by rewrite <- (no_dangling_erase s), <- (no_dangling_erase s'), H. Qed.

#[global] Instance stack_ok_proper : Proper (plan_eq ==> iff) stack_ok.
Proof. intros s s' H. split; intros []; split; by rewrite H in * || by rewrite <- H in *. Qed.

(** Numbering changes no plan, whatever the stack holds. *)
Lemma modify_first_erase id d l :
  (fun n => set_display_order n None) <$> modify_first id (fun n => set_display_order n d) l
  = (fun n => set_display_order n None) <$> l.
Proof. induction l as [|n l IH]; simpl; [done|]. case_decide; simpl; [done|]. by f_equal. Qed.

Lemma assign_missing_plan s : plan_eq (assign_missing_display_order s) s.
Proof.
  unfold plan_eq, erase_order, assign_missing_display_order. simpl. f_equal.
  generalize (next_display_order s) as d, (numbering_order s) as o, (st_nodes s) as l.
  intros d o. revert d. induction o as [|id o IH]; intros d l; [done|]. cbn [foldl].
  unfold number_one at 2. destruct (find_node id l) as [n|]; [|apply IH].
  destruct (sn_display_order n); [apply IH|]. rewrite IH. apply modify_first_erase.
Qed.

Lemma assign_missing_ids s : node_ids (assign_missing_display_order s) = node_ids s.
Proof. apply node_ids_proper, assign_missing_plan. Qed.

Lemma assign_missing_ok s : stack_ok (assign_missing_display_order s) <-> stack_ok s.
Proof. by rewrite assign_missing_plan. Qed.

(** ** Ranks *)

Lemma acyclic_has_rank s :
  NoDup (node_ids s) -> acyclic s ->
  exists f : string -> nat, forall p c, parent_of s p c -> f p < f c.
Proof.
  intros Hids Hacy. destruct (topo_order_complete s Hids Hacy) as [order Hok].
  destruct (topo_order_Ok_inv _ _ Hok) as [[Hperm Hsort] Hnd].
  exists (fun x => default 0 (position_of x order)). intros p c Hpc.
  assert (c ∈ order) as (l1 & l2 & ->)%list_elem_of_split.
  { rewrite Hperm. destruct Hpc as (n & Hn & <- & _). by apply list_elem_of_fmap_2. }
  apply NoDup_app in Hnd as (_ & Hdisj & _).
  rewrite position_of_app_r by (intros ?; set_solver).
  pose proof (Hsort _ _ _ eq_refl _ Hpc) as Hp. rewrite position_of_app_l by done.
  destruct (position_of_elem _ _ Hp) as (i & -> & ?). done.
Qed.

(** ** Appending a node *)

Definition append_node (n : StackNode) (s : Stack) : Stack :=
  mkStack (st_version s) (st_nodes s ++ [n]).

Lemma append_node_ids n s : node_ids (append_node n s) = node_ids s ++ [sn_node_id n].
Proof. unfold node_ids, append_node. simpl. by rewrite fmap_app. Qed.

Lemma lt_succ_max (f : string -> nat) p ps : p ∈ ps -> f p < S (foldr Nat.max 0 (f <$> ps)).
Proof.
  induction ps as [|q ps IH]; [set_solver|]. rewrite fmap_cons. cbn [foldr].
  intros [->|Hp]%elem_of_cons; [|specialize (IH Hp)]; lia.
Qed.

(** A fresh node whose parents exist keeps the stack well-formed. *)
Lemma append_node_ok n s :
  stack_ok s -> sn_node_id n ∉ node_ids s -> (forall p, p ∈ sn_parents n -> p ∈ node_ids s) ->
  stack_ok (append_node n s).
Proof.
  intros [Hids Hdang Hacy] Hfresh Hpar. split.
  - rewrite append_node_ids. apply NoDup_app. split; [done|].
    split; [set_solver|apply NoDup_singleton].
  - intros m p Hm Hp. rewrite append_node_ids, elem_of_app. left.
    apply elem_of_app in Hm as [Hm|Hm%list_elem_of_singleton]; [by eapply Hdang|subst; auto].
  - destruct (acyclic_has_rank s Hids Hacy) as [f Hf].
    pose (top := S (foldr Nat.max 0 (f <$> sn_parents n))).
    apply acyclic_rank with (f := fun x => if decide (x = sn_node_id n) then top else f x).
    intros p c (m & Hm & <- & Hp & _).
    apply elem_of_app in Hm as [Hm|Hm%list_elem_of_singleton].
    + rewrite !decide_False; [|intros Heq; apply Hfresh; rewrite <- Heq..].
      * apply Hf. exists m. split; [done|]. split; [done|]. split; [done|]. by eapply Hdang.
      * by apply list_elem_of_fmap_2.
      * by eapply Hdang.
    + subst m. rewrite (decide_True (P := sn_node_id n = _)) by done.
      rewrite decide_False by (intros ->; auto). subst top. by apply lt_succ_max.
Qed.

(** ** Removing a node *)

Lemma elem_of_push_unique acc l x : x ∈ foldl push_unique acc l <-> x ∈ acc \/ x ∈ l.
Proof.
  revert acc. induction l as [|y l IH]; intros acc; simpl; [set_solver|].
  rewrite IH. unfold push_unique. case_decide; set_solver.
Qed.

Lemma NoDup_push_unique acc l : NoDup acc -> NoDup (foldl push_unique acc l).
Proof.
  revert acc. induction l as [|y l IH]; intros acc Hnd; simpl; [done|]. apply IH.
  unfold push_unique. case_decide; [done|].
  apply NoDup_app. split; [done|]. split; [set_solver|apply NoDup_singleton].
Qed.

Lemma elem_of_reparent rm inh ps x :
  x ∈ reparent rm inh ps <-> (x ∈ ps /\ x <> rm) \/ (rm ∈ ps /\ x ∈ inh).
Proof.
  unfold reparent.
  assert (forall acc, x ∈ foldl (fun acc p => foldl push_unique acc
            (if decide (p = rm) then inh else [p])) acc ps <->
          x ∈ acc \/ (x ∈ ps /\ x <> rm) \/ (rm ∈ ps /\ x ∈ inh)) as H; [|rewrite H; set_solver].
  induction ps as [|p ps IH]; intros acc; simpl; [set_solver|].
  rewrite IH, elem_of_push_unique. case_decide; set_solver.
Qed.

Lemma remove_first_spec id l :
  match remove_first id l with
  | None => id ∉ sn_node_id <$> l
  | Some (n, rest) => sn_node_id n = id /\ n :: rest ≡ₚ l /\ find_node id l = Some n
  end.
Proof.
  induction l as [|m l IH]; simpl; [set_solver|]. case_decide as Hm; [done|].
  destruct (remove_first id l) as [[n rest]|]; simpl.
  - destruct IH as (Hid & Hp & Hf). split; [done|]. split; [|done].
    by rewrite perm_swap, Hp.
  - set_solver.
Qed.

Lemma reparent_child_id rm inh m : sn_node_id (reparent_child rm inh m) = sn_node_id m.
Proof. unfold reparent_child. by case_decide. Qed.

Lemma reparent_child_parents rm inh m x :
  rm ∉ inh ->
  x ∈ sn_parents (reparent_child rm inh m) <->
  (x ∈ sn_parents m /\ x <> rm) \/ (rm ∈ sn_parents m /\ x ∈ inh).
Proof.
  intros Hinh. unfold reparent_child. case_decide as Hin; simpl.
  - rewrite elem_of_reparent. done.
  - split; [|naive_solver]. intros Hx. left. split; [done|]. by intros ->.
Qed.

Section remove.
Context (s : Stack) (id : string) (removed : StackNode) (rest : list StackNode).
Context (Hids : NoDup (node_ids s)) (Hrem : remove_first id (st_nodes s) = Some (removed, rest)).

Notation inherited := (filter (fun p => p <> id) (sn_parents removed)).
Notation s' := (mkStack (st_version s) (reparent_child id inherited <$> rest)).

Lemma remove_facts :
  sn_node_id removed = id /\ removed :: rest ≡ₚ st_nodes s.
Proof. pose proof (remove_first_spec id (st_nodes s)) as H. rewrite Hrem in H. tauto. Qed.

Lemma removed_node_ids : node_ids s' = sn_node_id <$> rest.
Proof.
  unfold node_ids. simpl. rewrite <- list_fmap_compose. apply fmap_ext_in.
  intros. apply reparent_child_id.
Qed.

Lemma node_ids_split : id :: (sn_node_id <$> rest) ≡ₚ node_ids s.
Proof. destruct remove_facts as [<- Hp]. unfold node_ids. by rewrite <- Hp. Qed.

Lemma removed_not_in_rest : id ∉ sn_node_id <$> rest.
Proof.
  pose proof node_ids_split as Hp. pose proof Hids as Hn. rewrite <- Hp in Hn.
  by apply NoDup_cons in Hn as [].
Qed.

Lemma inherited_not_id : id ∉ inherited.
Proof. rewrite list_elem_of_filter. tauto. Qed.

(** An edge of the new stack is an edge of the old one between survivors, or a
    two-edge path of the old one through the removed node. *)
Lemma removed_parent_of p c :
  parent_of s' p c <->
  p <> id /\ c <> id /\ (parent_of s p c \/ (parent_of s p id /\ parent_of s id c)).
Proof.
  destruct remove_facts as [Hrid Hp]. pose proof removed_not_in_rest as Hnr.
  pose proof inherited_not_id as Hni.
  assert (forall m, m ∈ rest -> m ∈ st_nodes s) as Hsub by (intros; rewrite <- Hp; by right).
  assert (removed ∈ st_nodes s) as Hr by (rewrite <- Hp; left).
  assert (forall x, x ∈ node_ids s <-> x = id \/ x ∈ sn_node_id <$> rest) as Hk.
  { intros x. rewrite <- node_ids_split. set_solver. }
  unfold parent_of. rewrite removed_node_ids. cbn [st_nodes]. split.
  - intros (m' & (m & -> & Hm)%list_elem_of_fmap & Hc & Hpar & Hkn).
    rewrite reparent_child_id in Hc. apply reparent_child_parents in Hpar; [|done].
    split; [by intros ->|]. split; [intros ->; apply Hnr; rewrite <- Hc; by apply list_elem_of_fmap_2|].
    destruct Hpar as [[Hpm Hne]|[Hidm Hinh]].
    + left. exists m. repeat split; auto. apply Hk. auto.
    + right. apply list_elem_of_filter in Hinh as [Hne Hinh]. split.
      * exists removed. repeat split; auto. apply Hk. auto.
      * exists m. repeat split; auto. apply Hk. auto.
  - intros (Hpid & Hcid & Hcase).
    assert (forall m, m ∈ st_nodes s -> sn_node_id m = c -> m ∈ rest) as Hrest.
    { intros m Hm Hmc. rewrite <- Hp in Hm. apply elem_of_cons in Hm as [->|]; [congruence|done]. }
    destruct Hcase as [(m & Hm & Hmc & Hpm & Hpk)|[(r & Hr' & Hrid' & Hpr & Hpk) (m & Hm & Hmc & Him & _)]].
    + exists (reparent_child id inherited m). rewrite reparent_child_id.
      split; [by apply list_elem_of_fmap_2, Hrest|]. split; [done|].
      split; [apply reparent_child_parents; auto|]. apply Hk in Hpk as [|]; [congruence|done].
    + assert (r = removed) as -> by (eapply node_unique; eauto; congruence).
      exists (reparent_child id inherited m). rewrite reparent_child_id.
      split; [by apply list_elem_of_fmap_2, Hrest|]. split; [done|].
      split; [|apply Hk in Hpk as [|]; [congruence|done]].
      apply reparent_child_parents; [done|]. right. split; [done|]. by apply list_elem_of_filter.
Qed.

(** Between survivors the ancestor relation is exactly what it was. *)
Lemma removed_ancestors a c :
  a <> id -> c <> id -> (tc (parent_of s') a c <-> tc (parent_of s) a c).
Proof.
  intros Ha Hc. split.
  - induction 1 as [x y H|x y z H _ IH]; apply removed_parent_of in H as (Hx & Hy & [H|[H1 H2]]).
    + by apply tc_once.
    + eapply tc_l; [done|]. by apply tc_once.
    + eapply tc_l; [done|]. by apply IH.
    + eapply tc_l; [done|]. eapply tc_l; [done|]. by apply IH.
  - intros Htc.
    enough ((a <> id -> tc (parent_of s') a c) /\
            (a = id -> forall p, p <> id -> parent_of s p id -> tc (parent_of s') p c)) by tauto.
    clear Ha. induction Htc as [x y H|x y z H _ IH].
    + split; [intros Hx|intros -> p Hp Hpid]; apply tc_once, removed_parent_of; auto.
    + specialize (IH Hc) as [IH1 IH2]. destruct (decide (y = id)) as [->|Hy].
      * split; [intros Hx; by apply IH2|intros -> p Hp Hpid; by apply IH2].
      * split; [intros Hx|intros -> p Hp Hpid]; (eapply tc_l; [apply removed_parent_of|auto]); auto.
Qed.

Lemma removed_ok : stack_ok s -> stack_ok s'.
Proof.
  intros [_ Hdang Hacy]. destruct remove_facts as [Hrid Hp]. split.
  - rewrite removed_node_ids. pose proof Hids as Hn. rewrite <- node_ids_split in Hn.
    by apply NoDup_cons in Hn as [].
  - intros m' p (m & -> & Hm)%list_elem_of_fmap Hpar. rewrite removed_node_ids.
    apply reparent_child_parents in Hpar; [|apply inherited_not_id].
    assert (p ∈ node_ids s /\ p <> id) as [Hk Hne].
    { destruct Hpar as [[Hpm ?]|[_ [? Hinh]%list_elem_of_filter]].
      - split; [|done]. apply (Hdang m); [rewrite <- Hp; by right|done].
      - split; [|done]. apply (Hdang removed); [rewrite <- Hp; left|done]. }
    rewrite <- node_ids_split in Hk. set_solver.
  - intros x Hx. assert (x <> id) as Hne.
    { destruct (tc_first _ _ _ Hx) as [z H]. by apply removed_parent_of in H as (? & _). }
    by apply (Hacy x), removed_ancestors.
Qed.
End remove.
