(* ===== verification/StackWriters.v ===== *)
(** * The writers keep the stack well-formed

    What the writers' checks establish, and every stack writer as a step of
    [writer_step]: the pure closure it hands to [update_stack_atomic], under the checks
    it makes first. Every reachable stack satisfies the invariant. *)

From S2P Require Import Prelude Text Stack StackTopo StackOrder Changeset NodeIds PrInsight StackNodes StackRepoint StackAdopt StackInv.

(** ** Rewriting one node *)

(** [n'] is [n] with other contents: same id, no new parent. *)
Definition shrinks (n n' : StackNode) : Prop :=
  sn_node_id n' = sn_node_id n /\ sn_parents n' ⊆ sn_parents n.

#[global] Instance shrinks_refl : Reflexive shrinks.
Proof. by split. Qed.

Lemma Forall2_shrinks_ids l l' : Forall2 shrinks l l' -> sn_node_id <$> l' = sn_node_id <$> l.
Proof. induction 1 as [|n n' l l' [Hid _] _ IH]; [done|]. rewrite !fmap_cons. congruence. Qed.

Lemma Forall2_shrinks_elem l l' n' :
  Forall2 shrinks l l' -> n' ∈ l' -> exists n, n ∈ l /\ shrinks n n'.
Proof.
  intros H Hin. apply list_elem_of_lookup in Hin as [i Hi].
  destruct (Forall2_lookup_r _ _ _ _ _ H Hi) as (n & Hn & Hs). exists n. split; [|done].
  by eapply list_elem_of_lookup_2.
Qed.

Lemma shrinks_ok s s' : Forall2 shrinks (st_nodes s) (st_nodes s') -> stack_ok s -> stack_ok s'.
Proof.
  intros H [Hids Hd Ha]. pose proof (Forall2_shrinks_ids _ _ H) as Heq. fold (node_ids s) (node_ids s') in Heq.
  split.
  - by rewrite Heq.
  - intros n' p Hn' Hp. rewrite Heq. destruct (Forall2_shrinks_elem _ _ _ H Hn') as (n & Hn & _ & Hsub).
    by eapply Hd; [|apply Hsub].
  - intros x Hx. apply (Ha x). eapply tc_iff; [|exact Hx].
    intros a b (n' & Hn' & <- & Hp & Hk). rewrite Heq in Hk.
    destruct (Forall2_shrinks_elem _ _ _ H Hn') as (n & Hn & Hid & Hsub).
    exists n. split; [done|]. split; [done|]. split; [by apply Hsub|done].
Qed.

Lemma modify_first_shrinks id f l :
  (forall n, n ∈ l -> sn_node_id n = id -> shrinks n (f n)) -> Forall2 shrinks l (modify_first id f l).
Proof.
  induction l as [|n l IH]; intros Hf; simpl; [constructor|]. case_decide.
  - constructor; [apply Hf; [left|done]|]. by apply Forall_Forall2_diag, Forall_true.
  - constructor; [done|]. apply IH. intros; apply Hf; [by right|done].
Qed.

Lemma modify_node_ok id f s :
  (forall n, node s id = Some n -> shrinks n (f n)) -> stack_ok s -> stack_ok (modify_node id f s).
Proof.
  intros Hf Hok. eapply shrinks_ok; [|done]. apply modify_first_shrinks.
  intros n Hn <-. apply Hf. apply find_node_unique; [|done]. by destruct Hok.
Qed.

Lemma modify_node_ids id f s :
  (forall n, sn_node_id (f n) = sn_node_id n) -> node_ids (modify_node id f s) = node_ids s.
Proof. apply modify_first_ids. Qed.

(** Rewrites of the fields other than the reading order respect plans. *)
Lemma modify_node_plan id f s s' :
  (forall n, f (set_display_order n None) = set_display_order (f n) None) ->
  plan_eq s s' -> plan_eq (modify_node id f s) (modify_node id f s').
Proof.
  intros Hf Heq.
  assert (forall l, (fun n => set_display_order n None) <$> modify_first id f l
                    = modify_first id f ((fun n => set_display_order n None) <$> l)) as Hc.
  { induction l as [|n l IH]; [done|]. csimpl. case_decide; csimpl; [by rewrite Hf|by rewrite IH]. }
  unfold plan_eq, erase_order in *. injection Heq as Hv Hn. simpl. by rewrite !Hc, Hv, Hn.
Qed.

(** ** The checks *)

Lemma validate_parents_from_Ok s oid seen ps prefix u :
  validate_parents_from s oid seen ps prefix = Ok u <->
  (forall p, p ∈ ps -> oid <> Some p /\ p ∈ node_ids s) /\
  (is_Some oid -> NoDup ps /\ forall p, p ∈ ps -> p ∉ seen).
Proof.
  revert seen. induction ps as [|q ps IH]; intros seen; simpl.
  { destruct u. split; [|done]. intros _. split; [set_solver|]. intros _. split; [constructor|set_solver]. }
  case_decide as Hself; [split; [done|]; intros [H _]; destruct (H q); [left|done]|].
  case_decide as Hdang; [split; [done|]; intros [H _]; destruct (H q); [left|done]|].
  case_decide as Hdup.
  { split; [done|]. intros [_ H]. destruct Hdup as [Ho Hs]. destruct (H Ho) as [_ Hns].
    by destruct (Hns q); [left|]. }
  rewrite IH. split.
  - intros [H1 H2]. split; [set_solver|]. intros Ho. destruct (H2 Ho) as [Hnd Hns].
    split; [|set_solver]. constructor; [|done]. intros Hin. apply (Hns q Hin). set_solver.
  - intros [H1 H2]. split; [set_solver|]. intros Ho. destruct (H2 Ho) as [Hnd Hns].
    apply NoDup_cons in Hnd as [Hq Hnd]. split; [done|]. set_solver.
Qed.

Lemma validate_parents_Ok s oid ps op u :
  validate_parents s oid ps op = Ok u <->
  (forall p, p ∈ ps -> oid <> Some p /\ p ∈ node_ids s) /\ (is_Some oid -> NoDup ps).
Proof.
  unfold validate_parents. rewrite validate_parents_from_Ok. split.
  - intros [H1 H2]. split; [done|]. intros Ho. by destruct (H2 Ho).
  - intros [H1 H2]. split; [done|]. intros Ho. split; [by apply H2|]. intros. apply not_elem_of_nil.
Qed.

Lemma reject_if_cyclic_Ok s op u :
  reject_if_cyclic s op = Ok u <-> NoDup (node_ids s) /\ acyclic s.
Proof.
  unfold reject_if_cyclic. destruct u. rewrite res_bind_Ok. split.
  - intros (order & H%map_err_Ok & _). by eapply topo_order_Ok_valid.
  - intros [Hn Ha]. destruct (topo_order_complete s Hn Ha) as [order Ho]. exists order.
    by rewrite map_err_Ok.
Qed.

(** The new node of an accepted append: fresh, its parents in the stack. *)
Definition appendable (s : Stack) (n : StackNode) : Prop :=
  sn_node_id n ∉ node_ids s /\ (forall p, p ∈ sn_parents n -> p ∈ node_ids s).

Lemma cyclic_check_fresh s n op u :
  reject_if_cyclic (mkStack (st_version s) (st_nodes s ++ [n])) op = Ok u ->
  sn_node_id n ∉ node_ids s.
Proof.
  intros [Hnd _]%reject_if_cyclic_Ok. change (NoDup (node_ids (append_node n s))) in Hnd.
  rewrite append_node_ids in Hnd. apply NoDup_app in Hnd as (_ & Hd & _). intros Hin.
  apply (Hd _ Hin). set_solver.
Qed.

Lemma planned_node_appendable oc s input n : planned_node oc s input = Ok n -> appendable s n.
Proof.
  unfold planned_node. intros (u & Hv & H)%res_bind_Ok. apply res_bind_Ok in H as (id & Hid & H).
  apply res_bind_Ok in H as (u' & Hc & [= <-]). apply validate_parents_Ok in Hv as [Hv _].
  split; [by apply cyclic_check_fresh in Hc|]. simpl. intros p Hp. by apply Hv.
Qed.

Lemma adopted_node_appendable oc s facts ps n : adopted_node oc s facts ps = Ok n -> appendable s n.
Proof.
  unfold adopted_node. intros (u & Hv & H)%res_bind_Ok. apply res_bind_Ok in H as (_ & _ & H).
  apply res_bind_Ok in H as (_ & _ & H). apply res_bind_Ok in H as (id & Hid & H).
  apply res_bind_Ok in H as (u' & Hc & [= <-]). apply validate_parents_Ok in Hv as [Hv _].
  split; [by apply cyclic_check_fresh in Hc|]. simpl. intros p Hp. by apply Hv.
Qed.

Lemma append_numbered_ok s n : stack_ok s -> appendable s n -> stack_ok (append_numbered n s).2.
Proof.
  intros Hok [Hf Hp]. unfold append_numbered. simpl.
  apply (append_node_ok (set_display_order n _) (assign_missing_display_order s)).
  - by apply assign_missing_ok.
  - by rewrite assign_missing_ids.
  - intros p Hin. rewrite assign_missing_ids. by apply Hp.
Qed.

Lemma swap_with_neighbour_shrinks s id up :
  Forall2 shrinks (st_nodes s) (st_nodes (swap_with_neighbour s id up)).
Proof.
  assert (Forall2 shrinks (st_nodes s) (st_nodes s)) by (by apply Forall_Forall2_diag, Forall_true).
  unfold swap_with_neighbour. repeat case_match; try done. simpl.
  apply Forall2_fmap_r, Forall_Forall2_diag, Forall_true. intros m. unfold swap_one.
  split; repeat case_decide; done.
Qed.

(** Between survivors deletion changes no plan. *)
Lemma delete_closure_ok id s : stack_ok s -> stack_ok (delete_closure id s).2.
Proof.
  intros Hok%assign_missing_ok. unfold delete_closure, remove_node_reparenting_children.
  destruct (remove_first id _) as [[removed rest]|] eqn:Hr; [|done]. simpl.
  by apply (removed_ok (assign_missing_display_order s) id removed rest (so_ids _ Hok)).
Qed.

(** ** Moving a node under new parents *)

Section move_parents.
Context (s : Stack) (id : string) (ps : list string).
Context (Hok : stack_ok s) (Hid : id ∈ node_ids s) (Hself : id ∉ ps).
Context (Hknown : forall p, p ∈ ps -> p ∈ node_ids s).

Notation moved := (modify_node id (fun n => set_parents n ps) s).

Lemma moved_ids : node_ids moved = node_ids s.
Proof. by apply modify_node_ids. Qed.

Lemma moved_parent_of p c :
  parent_of moved p c <-> (c <> id /\ parent_of s p c) \/ (c = id /\ p ∈ ps).
Proof.
  destruct Hok as [Hids Hd _].
  unfold parent_of. rewrite moved_ids. unfold modify_node. cbn [st_nodes].
  rewrite modify_first_map by done. split.
  - intros (m' & (m & -> & Hm)%list_elem_of_fmap & Hc & Hp & Hk). case_decide as Heq.
    + right. simpl in *. split; [congruence|done].
    + left. split; [congruence|]. by exists m.
  - intros [(Hne & m & Hm & <- & Hp & Hk)|[-> Hp]].
    + exists m. split; [|done]. apply list_elem_of_fmap. exists m. by rewrite decide_False.
    + apply list_elem_of_fmap in Hid as (m & Hmid & Hm). exists (set_parents m ps).
      split; [|by split_and!; auto]. apply list_elem_of_fmap. exists m. by rewrite decide_True.
Qed.

(** A path of the moved stack either avoids the new edges or enters the node through one. *)
Lemma moved_path x y :
  tc (parent_of moved) x y ->
  tc (parent_of s) x y \/
  exists p, p ∈ ps /\ rtc (parent_of s) x p /\ rtc (parent_of s) id y.
Proof.
  induction 1 as [x y H|x y z H _ IH]; apply moved_parent_of in H as [[Hne H]|[-> Hp]].
  - left. by apply tc_once.
  - right. by exists x.
  - destruct IH as [IH|(p & Hp & Hyp & Hz)]; [left; by eapply tc_l|].
    right. exists p. split; [done|]. split; [by eapply rtc_l|done].
  - right. exists x. split; [done|]. split; [done|].
    destruct IH as [IH|(_ & _ & _ & IH)]; [by apply tc_rtc|done].
Qed.

Lemma moved_keeps_descent a p :
  rtc (parent_of s) id a -> tc (parent_of s) a p -> tc (parent_of moved) a p.
Proof.
  destruct Hok as [_ _ Hacy]. intros Hida Htc.
  assert (forall x y, rtc (parent_of s) id x -> parent_of s x y -> parent_of moved x y) as Hstep.
  { intros x y Hx Hxy. apply moved_parent_of. left. split; [|done]. intros ->.
    apply (Hacy id). by eapply tc_rtc_l, tc_once. }
  induction Htc as [x y H|x y z H _ IH]; [by apply tc_once, Hstep|].
  eapply tc_l; [by apply Hstep|]. apply IH. by eapply rtc_r.
Qed.

(** The move is acyclic exactly when no new parent descends from the node. *)
Lemma moved_acyclic : acyclic moved <-> forall p, p ∈ ps -> ~ tc (parent_of s) id p.
Proof.
  split.
  - intros Ha p Hp Htc. apply (Ha id). eapply tc_r; [by apply moved_keeps_descent|].
    apply moved_parent_of. auto.
  - intros Hno x [Hx|(p & Hp & Hxp & Hix)]%moved_path.
    + by destruct Hok as [_ _ Hacy]; apply (Hacy x).
    + assert (rtc (parent_of s) id p) as Hr by (by etrans).
      inversion Hr as [|? z ? H1 H2]; subst; [by apply Hself|].
      apply (Hno p Hp). by eapply tc_rtc_r; [apply tc_once|].
Qed.

Lemma moved_ok : (forall p, p ∈ ps -> ~ tc (parent_of s) id p) -> stack_ok moved.
Proof.
  intros Hno. split.
  - rewrite moved_ids. by destruct Hok.
  - intros m' p Hm' Hp. rewrite moved_ids. unfold modify_node in Hm'. simpl in Hm'.
    rewrite modify_first_map in Hm' by (by destruct Hok).
    apply list_elem_of_fmap in Hm' as (m & -> & Hm). case_decide; [by apply Hknown|].
    by destruct Hok as [_ Hd _]; apply (Hd m).
  - by apply moved_acyclic.
Qed.
End move_parents.

Lemma node_is_Some s id : is_Some (node s id) <-> id ∈ node_ids s.
Proof.
  unfold node. split.
  - intros [n [Hn <-]%find_node_Some]. by apply list_elem_of_fmap_2.
  - intros Hin. destruct (find_node id (st_nodes s)) eqn:H; [done|].
    by apply find_node_None in H.
Qed.

(** What [set_stack_node_parents] accepts, as a specification. *)
Definition may_move (s : Stack) (id : string) (ps : list string) : Prop :=
  id ∈ node_ids s /\ NoDup ps /\ id ∉ ps /\ (forall p, p ∈ ps -> p ∈ node_ids s) /\
  forall p, p ∈ ps -> ~ tc (parent_of s) id p.

Lemma check_new_parents_spec s id ps u :
  stack_ok s -> check_new_parents s id ps = Ok u <-> may_move s id ps.
Proof.
  intros Hok. unfold check_new_parents, may_move. rewrite res_bind_Ok. setoid_rewrite ok_or_Ok. split.
  - intros (n & Hn & H). apply res_bind_Ok in H as (u1 & Hv & Hc).
    apply validate_parents_Ok in Hv as [Hv Hnd]. apply reject_if_cyclic_Ok in Hc as [_ Hc].
    assert (id ∈ node_ids s) as Hin by (apply node_is_Some; eauto).
    assert (id ∉ ps) as Hself by (intros Hp; by destruct (Hv _ Hp)).
    assert (forall p, p ∈ ps -> p ∈ node_ids s) as Hk by (intros p Hp; by apply Hv).
    split_and!; eauto. by apply (moved_acyclic s id ps Hok Hin Hself Hk).
  - intros (Hin & Hnd & Hself & Hk & Hno). apply node_is_Some in Hin as [n Hn]. exists n.
    split; [done|]. apply res_bind_Ok. exists (). split.
    + apply validate_parents_Ok. split; [|done]. intros p Hp. split; [|by apply Hk].
      intros [= ->]. done.
    + apply reject_if_cyclic_Ok.
      assert (stack_ok (modify_node id (fun m => set_parents m ps) s)) as [??]; [|done].
      apply moved_ok; auto. apply node_is_Some. eauto.
Qed.

(** ** The writers as steps *)

Section steps.
Context (oc : bool).

(** One successful write of the stack: what the writer checked, and the closure it
    applied. A writer's checks and its closure see the same stack, as they do when
    the session directory has one writer at a time. *)
Inductive writer_step (s : Stack) : Stack -> Prop :=
| step_add input n :
    planned_node oc s input = Ok n -> writer_step s (append_numbered n s).2
| step_adopt facts ps n :
    adopted_node oc s facts ps = Ok n -> writer_step s (append_numbered n s).2
| step_seed id session base :
    st_nodes s = [] -> next_free_node_id (E := string) oc s = Ok id ->
    writer_step s (append_numbered (seeded_node id session base) s).2
| step_update input :
    writer_step s (update_closure input s).2
| step_delete id :
    writer_step s (delete_closure id s).2
| step_move id up :
    writer_step s (swap_with_neighbour (assign_missing_display_order s) id up)
| step_set_parents id ps :
    check_new_parents s id ps = Ok () -> writer_step s (set_parents_closure id ps s)
| step_repoint target id :
    writer_step s (repoint_closure target id s)
| step_rebase_error id msg :
    writer_step s (rebase_error_closure id msg s)
| step_link id child branch :
    writer_step s (modify_node id (fun n =>
      let n := set_session_id n (Some child) in
      match branch with Some b => set_branch n (Some b) | None => n end) s)
| step_sync id state pr :
    writer_step s (modify_node id (fun n =>
      set_pr_status (set_child_state n (Some state)) pr) s).

Lemma set_parents_closure_ok s id ps : stack_ok s -> may_move s id ps -> stack_ok (set_parents_closure id ps s).
Proof.
  intros Hok (Hin & _ & Hself & Hk & Hno). unfold set_parents_closure.
  assert (plan_eq (modify_node id (fun n => set_parents n ps) (assign_missing_display_order s))
                  (modify_node id (fun n => set_parents n ps) s)) as Heq
    by (apply modify_node_plan; [done|apply assign_missing_plan]).
  apply (stack_ok_proper _ _ Heq). by apply moved_ok.
Qed.

Lemma repoint_closure_ok s target id : stack_ok s -> stack_ok (repoint_closure target id s).
Proof.
  intros Hok%assign_missing_ok. unfold repoint_closure.
  set (a := assign_missing_display_order s) in *. apply modify_node_ok; [|done].
  intros n Hn. rewrite Hn. split; [done|]. simpl. intros p. rewrite list_elem_of_filter. tauto.
Qed.

(** Every writer keeps the invariant. *)
Lemma writer_step_ok s s' : stack_ok s -> writer_step s s' -> stack_ok s'.
Proof.
  intros Hok Hstep. pose proof Hok as Hok'. apply assign_missing_ok in Hok'.
  destruct Hstep as [input n H|facts ps n H|id session base Hnil H|input|id|id up|id ps H| | |id c b|].
  - apply append_numbered_ok; [done|]. by eapply planned_node_appendable.
  - apply append_numbered_ok; [done|]. by eapply adopted_node_appendable.
  - apply append_numbered_ok; [done|]. split; [|set_solver].
    unfold node_ids. rewrite Hnil. set_solver.
  - apply modify_node_ok; [|done]. by split.
  - by apply delete_closure_ok.
  - eapply shrinks_ok; [apply swap_with_neighbour_shrinks|done].
  - apply set_parents_closure_ok; [done|]. by apply check_new_parents_spec in H.
  - by apply repoint_closure_ok.
  - apply modify_node_ok; [|done]. by split.
  - apply modify_node_ok; [|done]. intros n _. by destruct b.
  - apply modify_node_ok; [|done]. by split.
Qed.
End steps.

Lemma writer_steps_ok oc s s' : stack_ok s -> rtc (writer_step oc) s s' -> stack_ok s'.
Proof. intros Hok. induction 1; eauto using writer_step_ok. Qed.

Lemma Stack_default_ok : stack_ok Stack_default.
Proof. split; [constructor|intros ? ? []%not_elem_of_nil|]. by apply (acyclic_rank _ (fun _ => 0)); intros ? ? (? & ?%not_elem_of_nil & _). Qed.

(** C1. Whatever sequence of plan writers runs (add, adopt, seed, update, delete, move,
    re-parent, repoint, rebase error, child link, child sync), starting from the empty
    stack, the stack they leave is well-formed: ids are unique, every parent names a
    node, and the parent relation has no cycle, so a topological order always exists. *)
Theorem reachable_stack_ok oc s :
  rtc (writer_step oc) Stack_default s ->
  stack_ok s /\ exists order, topo_order s = Ok order.
Proof.
  intros Hr. assert (stack_ok s) as Hok by eauto using writer_steps_ok, Stack_default_ok.
  split; [done|]. destruct Hok. by apply topo_order_complete.
Qed.

(** Two planned nodes, the second on the first, then the first deleted. *)
Definition root_input : AddPlannedPrInput := mkAddPlannedPrInput "base" "" None [] None.
Definition child_input : AddPlannedPrInput := mkAddPlannedPrInput "tip" "" None ["n1"] None.
Definition planned (id : string) (input : AddPlannedPrInput) (order : option N) : StackNode :=
  mkStackNode id (ai_title input) "" None None None (ai_parents input) None None None order.

Lemma reachable_stack_witness :
  let s := mkStack 0 [planned "n2" (mkAddPlannedPrInput "tip" "" None [] None) (Some 1%N)] in
  stack_ok s /\ exists order, topo_order s = Ok order.
Proof.
  apply (reachable_stack_ok false).
  eapply rtc_l; [apply (step_add _ _ root_input (planned "n1" root_input None)); vm_compute; reflexivity|].
  eapply rtc_l; [apply (step_add _ _ child_input (planned "n2" child_input None)); vm_compute; reflexivity|].
  eapply rtc_l; [apply (step_delete _ _ "n1")|].
  vm_compute. apply rtc_refl.
Defined.
