(* ===== verification/StackRefine.v ===== *)
(** * The stored operations refine the steps

    The operations on the disk, against the step relation of [StackWriters]: an
    operation that succeeds takes exactly one [writer_step] on the stored stack, an
    operation that is refused or fails leaves the disk as it was; the operations that
    also drive git and GitHub take writer steps only, whatever the remote answers. *)

From S2P Require Import Prelude Text Stack StackTopo StackOrder Changeset NodeIds PrInsight StackNodes StackRepoint StackAdopt StackInv StackWriters.

Section refinement.
Context {yaml : YamlCodec} (oc : bool).

(** One step from the stored stack of [w] to that of [w'], every other file kept. *)
Definition steps_to (R : Stack -> Stack -> Prop) (dir : string) (w w' : disk) : Prop :=
  exists s s', stored_stack w dir = Some s /\ stored_stack w' dir = Some s' /\ R s s' /\
    (forall p, p <> changeset_path dir -> files w' !! p = files w !! p) /\
    write_error w' = write_error w.

(** An operation is all or nothing: one step on success, nothing otherwise. *)
Definition atomic_step {E A} (dir : string) (op : io disk E A) : Prop :=
  forall w, match op w with
            | (Ok _, w') => steps_to (writer_step oc) dir w w'
            | (_, w') => w' = w
            end.

Lemma read_stack_cases dir op w :
  (exists cs, stored w dir = Some cs /\
     read_stack dir op w = (Ok (default Stack_default (cs_stack cs)), w)) \/
  (exists e, read_stack dir op w = (Err e, w)).
Proof.
  unfold read_stack, io_bind, io_map_err, io_ret.
  pose proof (read_changeset_pure dir w) as Hp. pose proof (read_changeset_no_panic dir w) as Hn.
  destruct (read_changeset dir w) as [[cs|e|] w1] eqn:Hr; simpl in *; subst; [|eauto|done].
  left. exists cs. split; [by apply stored_read|done].
Qed.

Lemma stored_stack_Some w dir cs :
  stored w dir = Some cs -> stored_stack w dir = Some (default Stack_default (cs_stack cs)).
Proof. unfold stored_stack. by intros ->. Qed.

Lemma update_stack_cases {A} dir (f : Stack -> A * Stack) w s :
  stored_stack w dir = Some s ->
  (exists w', update_stack_atomic dir f w = (Ok (f s).1, w') /\
     steps_to (fun x y => x = s /\ y = (f s).2) dir w w') \/
  (exists e, update_stack_atomic dir f w = (Err e, w)).
Proof.
  intros Hs. pose proof (update_stack_no_panic dir f w) as Hn.
  destruct (update_stack_atomic dir f w) as [[a|e|] w'] eqn:Hu; [|right; exists e|done].
  - left. exists w'. pose proof Hu as Hu'.
    apply update_stack_Ok in Hu as (cs & st & Hcs & Hf & Hst & Hoth & Hwe).
    apply stored_stack_Some in Hcs. rewrite Hs in Hcs. simplify_eq. rewrite Hf. split; [done|].
    eexists _, _. split; [done|]. split; [by apply stored_stack_Some in Hst|]. done.
  - f_equal. by eapply update_stack_failed.
Qed.

Lemma steps_to_mono (R R' : Stack -> Stack -> Prop) dir w w' :
  (forall x y, stored_stack w dir = Some x -> R x y -> R' x y) ->
  steps_to R dir w w' -> steps_to R' dir w w'.
Proof. intros Hr (s & s' & ? & ? & ? & ? & ?). exists s, s'. eauto 10. Qed.

(** An update whose closure is a writer's, on the stack [s] the writer read. *)
Lemma update_then_answer {A B} dir (f : Stack -> A * Stack) (g : WorkflowError -> string)
    (k : A -> io disk string B) w s :
  stored_stack w dir = Some s -> writer_step oc s (f s).2 ->
  (forall w', steps_to (fun x y => x = s /\ y = (f s).2) dir w w' ->
     exists b, k (f s).1 w' = (Ok b, w')) ->
  match io_bind (io_map_err g (update_stack_atomic dir f)) k w with
  | (Ok _, w') => steps_to (writer_step oc) dir w w'
  | (_, w') => w' = w
  end.
Proof.
  intros Hs Hstep Hk. unfold io_bind, io_map_err.
  destruct (update_stack_cases dir f w s Hs) as [(w' & -> & Hw)|[e ->]]; simpl; [|done].
  destruct (Hk w' Hw) as [b ->]. eapply steps_to_mono; [|done]. by intros x y _ [-> ->].
Qed.

Lemma update_is_answer {A} dir (f : Stack -> A * Stack) (g : WorkflowError -> string) w s :
  stored_stack w dir = Some s -> writer_step oc s (f s).2 ->
  match io_map_err g (update_stack_atomic dir f) w with
  | (Ok _, w') => steps_to (writer_step oc) dir w w'
  | (_, w') => w' = w
  end.
Proof.
  intros Hs Hstep. pose proof (update_then_answer dir f g (@io_ret disk string A) w s Hs Hstep) as H.
  unfold io_bind, io_ret in H. destruct (io_map_err _ _ w) as [[] w']; apply H; eauto.
Qed.
End refinement.

(** Runs the read a writer starts with: the stored stack [s], or the error. *)
Ltac run_read dir w Hs :=
  match goal with
  | |- context [read_stack dir ?op w] =>
      destruct (read_stack_cases dir op w) as [(?cs & Hs & ->)|[?e ->]]; [|done];
      apply stored_stack_Some in Hs;
      match type of Hs with _ = Some ?d => set (s := d) in * end
  end.

Section writers.
Context {yaml : YamlCodec} (oc : bool).

Lemma add_atomic dir input : atomic_step oc dir (add_planned_pr_node oc dir input).
Proof.
  intros w. unfold add_planned_pr_node. unfold io_bind at 1. run_read dir w Hs.
  unfold io_bind, io_lift. destruct (planned_node oc s input) as [n|e|] eqn:Hp; [|done..].
  apply update_is_answer with (s := s); [done|]. by eapply step_add.
Qed.

Lemma adopt_atomic dir facts ps : atomic_step oc dir (adopt_pr_as_stack_node oc dir facts ps).
Proof.
  intros w. unfold adopt_pr_as_stack_node. unfold io_bind at 1. run_read dir w Hs.
  unfold io_bind, io_lift. destruct (adopted_node oc s facts ps) as [n|e|] eqn:Hp; [|done..].
  apply update_is_answer with (s := s); [done|]. by eapply step_adopt.
Qed.

Lemma seed_atomic canon dir root base :
  atomic_step oc dir (seed_stack_with_base_session oc canon dir root base).
Proof.
  intros w. unfold seed_stack_with_base_session. unfold io_bind at 1, io_map_err at 1.
  unfold check_stack_seed_not_self. destruct (is_same_session_dir _ _ _ _); simpl; [done|].
  unfold io_bind at 1. run_read dir w Hs. case_decide as Hne; [done|].
  unfold io_bind at 1, io_map_err at 1, check_stack_seed_base, io_bind at 1, io_map_err at 1.
  match goal with |- context [read_changeset ?d w] => pose proof (read_changeset_pure d w) as Hpure;
    destruct (read_changeset d w) as [[c|e|] w1] end; simpl in *; subst; [|done..].
  unfold io_lift at 1. destruct (seeded_base _ c) as [b|e|]; simpl; [|done..].
  unfold io_bind, io_lift. destruct (next_free_node_id oc s) as [id|e|] eqn:Hid; [|done..].
  apply update_is_answer with (s := s); [done|]. by apply step_seed.
Qed.

Lemma update_closure_node input s :
  is_Some (node s (ui_node_id input)) -> is_Some (update_closure input s).1.
Proof.
  unfold update_closure. cbn [fst]. by rewrite !node_is_Some, modify_node_ids, assign_missing_ids.
Qed.

Lemma update_atomic dir input : atomic_step oc dir (update_planned_pr_node dir input).
Proof.
  intros w. unfold update_planned_pr_node. case_decide; [done|].
  unfold io_bind at 1. run_read dir w Hs. unfold io_bind at 1, io_lift at 1, ok_or at 1.
  destruct (node s (ui_node_id input)) as [n|] eqn:Hn; [|done].
  destruct (sn_branch n); [destruct (ui_branch_suggestion input) eqn:?; [done|]|]; (apply update_then_answer with (s := s);
    [done|apply step_update|]; intros w' _;
    destruct (update_closure_node input s) as [m Hm]; [by eauto|]; rewrite Hm; by eexists).
Qed.

Lemma delete_closure_node id s : is_Some (node s id) -> is_Some (delete_closure id s).1.
Proof.
  rewrite node_is_Some, <- assign_missing_ids. intros Hin.
  unfold delete_closure, remove_node_reparenting_children.
  pose proof (remove_first_spec id (st_nodes (assign_missing_display_order s))) as Hr.
  destruct (remove_first id _) as [[]|]; [done|]. by destruct Hr.
Qed.

Lemma delete_atomic dir id : atomic_step oc dir (delete_planned_pr_node dir id).
Proof.
  intros w. unfold delete_planned_pr_node.
  unfold io_bind at 1. run_read dir w Hs. unfold io_bind at 1, io_lift at 1, ok_or at 1.
  destruct (node s id) as [n|] eqn:Hn; [|done]. destruct (pr_is_open n); [done|].
  unfold io_bind at 1, io_lift at 1. destruct (reject_if_cyclic _ _); [|done..].
  apply update_then_answer with (s := s); [done|apply step_delete|]. intros w' _.
  destruct (delete_closure_node id s) as [r ->]; [by eauto|]. by eexists.
Qed.

Lemma move_atomic dir id direction : atomic_step oc dir (move_planned_pr_node dir id direction).
Proof.
  intros w. unfold move_planned_pr_node. unfold io_bind at 1, io_lift at 1.
  match goal with |- context [if decide (direction = "up") then ?a else ?b] =>
    destruct (if decide (direction = "up") then a else b) as [up|e|] end; [|done..].
  unfold io_bind at 1. run_read dir w Hs. unfold io_bind at 1, io_lift at 1, ok_or at 1.
  destruct (node s id) as [n|] eqn:Hn; [|done].
  apply update_then_answer with (s := s); [done|apply step_move|].
  intros w' (x & y & _ & Hy & _). unfold stored_stack in Hy.
  destruct (stored w' dir) as [cs'|] eqn:Hcs; [|done]. apply stored_read in Hcs.
  unfold io_bind, io_map_err. rewrite Hcs. by eexists.
Qed.
End writers.

(** ** Operations that also drive the remote *)

Create HintDb keeps.

Section remote.
Context {yaml : YamlCodec} {X : Type} `{!Remote X, !PrInsightApi X} (oc : bool) (dir : string).

(** The disk is as it was, or the stored stack has taken writer steps. *)
Definition evolves (w w' : world X) : Prop :=
  w_disk w' = w_disk w \/ steps_to (rtc (writer_step oc)) dir (w_disk w) (w_disk w').

#[local] Instance evolves_refl : Reflexive evolves.
Proof. by left. Qed.

#[local] Instance evolves_trans : Transitive evolves.
Proof.
  intros x y z [Hxy|Hxy] [Hyz|Hyz]; unfold evolves; rewrite ?Hyz, <- ?Hxy; auto.
  right. destruct Hxy as (s1 & s2 & ? & ? & ? & Ho1 & He1), Hyz as (s2' & s3 & ? & ? & ? & Ho2 & He2).
  simplify_eq. exists s1, s3. split_and!; [done|done|by etrans| |congruence].
  intros p Hp. by rewrite Ho2, Ho1.
Qed.

(** Whatever a computation answers, the plan only took writer steps. *)
Definition keeps {E A} (m : io (world X) E A) : Prop := forall w, evolves w (m w).2.

Lemma keeps_bind {E A B} (m : io (world X) E A) (k : A -> io (world X) E B) :
  keeps m -> (forall a, keeps (k a)) -> keeps (io_bind m k).
Proof.
  intros Hm Hk w. specialize (Hm w). unfold io_bind.
  destruct (m w) as [[a|e|] w']; simpl in *; [|done..]. etrans; [done|apply Hk].
Qed.

Lemma keeps_ret {E A} (a : A) : keeps (io_ret (E := E) a).
Proof. intros w. done. Qed.
Lemma keeps_lift {E A} (r : res E A) : keeps (io_lift r).
Proof. intros w. done. Qed.
Lemma keeps_ask {E A} (f : X -> A) : keeps (ask (E := E) f).
Proof. intros w. done. Qed.
Lemma keeps_map_err {E F A} (f : E -> F) (m : io (world X) E A) : keeps m -> keeps (io_map_err f m).
Proof. intros Hm w. specialize (Hm w). unfold io_map_err. by destruct (m w) as [[]]. Qed.
Lemma keeps_catch {E F A} (m : io (world X) E A) : keeps m -> keeps (io_catch (F := F) m).
Proof. intros Hm w. specialize (Hm w). unfold io_catch. by destruct (m w) as [[]]. Qed.
Lemma keeps_ext {E A} (m : io X E A) : keeps (on_ext m).
Proof. intros w. unfold on_ext. destruct (m (w_ext w)). by left. Qed.

Lemma keeps_read {E A} (m : io disk E A) : (forall w, (m w).2 = w) -> keeps (on_disk m).
Proof. intros Hm w. unfold on_disk. specialize (Hm (w_disk w)). destruct (m (w_disk w)). by left. Qed.

Lemma keeps_read_changeset d : keeps (on_disk (read_changeset d)).
Proof. apply keeps_read, read_changeset_pure. Qed.

Lemma update_evolves {A} (f : Stack -> A * Stack) w :
  (forall s, stored_stack (w_disk w) dir = Some s -> writer_step oc s (f s).2) ->
  evolves w (on_disk (update_stack_atomic dir f) w).2.
Proof.
  intros Hf. unfold on_disk. pose proof (update_stack_no_panic dir f (w_disk w)) as Hn.
  destruct (update_stack_atomic dir f (w_disk w)) as [[a|e|] w'] eqn:Hu; simpl; [|left|done].
  - apply update_stack_Ok in Hu as (cs & st & Hcs%stored_stack_Some & Hst & Hst' & Ho & He).
    right. eexists _, st. split; [done|]. split; [by apply stored_stack_Some in Hst'|].
    split; [|done]. apply rtc_once. apply Hf in Hcs. by rewrite Hst in Hcs.
  - simpl. by eapply update_stack_failed.
Qed.

Lemma keeps_update {A} (f : Stack -> A * Stack) :
  (forall s, writer_step oc s (f s).2) -> keeps (on_disk (update_stack_atomic dir f)).
Proof. intros Hf w. by apply update_evolves. Qed.

#[local] Hint Resolve keeps_bind keeps_ret keeps_lift keeps_ask keeps_map_err keeps_catch keeps_ext
  keeps_read_changeset keeps_update : keeps.

Lemma keeps_rebase_error op id msg : keeps (on_disk (record_rebase_error op dir id msg)).
Proof.
  intros w. unfold record_rebase_error.
  assert (evolves w (on_disk (update_stack_atomic dir (fun s => ((), rebase_error_closure id msg s))) w).2) as H
    by (apply update_evolves; intros; apply step_rebase_error).
  unfold on_disk, io_map_err in *. by destruct (update_stack_atomic _ _ _) as [[]].
Qed.
#[local] Hint Resolve keeps_rebase_error : keeps.

Lemma keeps_realign op id branch base : keeps (realign_node_to_effective_base op dir id branch base).
Proof.
  unfold realign_node_to_effective_base, realign_git, realign_pr.
  apply keeps_bind; [by auto with keeps|]. intros cs. apply keeps_bind; [by auto with keeps|].
  intros local. apply keeps_bind.
  - destruct local; [|by auto with keeps]. apply keeps_bind; [by auto with keeps|]. intros old.
    apply keeps_bind; [by auto with keeps|]. intros [e|[]]; by auto 8 with keeps.
  - intros _. apply keeps_bind; [by auto with keeps|]. intros [e|[n|]]; by auto with keeps.
Qed.
#[local] Hint Resolve keeps_realign : keeps.

Lemma keeps_repoint id default_branch target :
  keeps (repoint_planned_pr_node dir id default_branch target).
Proof.
  unfold repoint_planned_pr_node. apply keeps_bind; [by auto with keeps|]. intros cs.
  apply keeps_bind; [by auto with keeps|]. intros n. apply keeps_bind.
  - apply keeps_map_err, keeps_update. intros s. apply step_repoint.
  - intros _. apply keeps_bind; [destruct (sn_branch n); by auto with keeps|].
    intros _. by auto with keeps.
Qed.

Lemma keeps_set_parents id ps default_branch :
  keeps (set_stack_node_parents dir id ps default_branch).
Proof.
  intros w. unfold set_stack_node_parents. unfold io_bind at 1, on_disk at 1.
  destruct (read_stack_cases dir "set_stack_node_parents" (w_disk w)) as [(cs & Hs & ->)|[e ->]];
    [|by left].
  apply stored_stack_Some in Hs. unfold io_bind at 1, io_lift.
  destruct (check_new_parents _ id ps) as [[]|e|] eqn:Hc; [|by left..].
  match goal with |- evolves w (io_bind (io_map_err ?g ?m) ?k ?w1).2 =>
    assert (evolves w1 (io_map_err g m w1).2) as Hu; [|assert (forall u, keeps (k u)) as Hk] end.
  - unfold io_map_err.
    pose proof (update_evolves (fun s => ((), set_parents_closure id ps s)) (mkWorld (w_disk w) (w_ext w))) as H.
    simpl in H. destruct (on_disk _ _) as [[]]; apply H; intros s Hst; simplify_eq; by apply step_set_parents.
  - intros u. apply keeps_bind; [|intros m; apply keeps_bind; [destruct (sn_branch m)|]; by auto with keeps].
    apply keeps_read. intros d. unfold reload_moved_node, io_bind, io_map_err, io_lift.
    pose proof (read_changeset_pure dir d). by destruct (read_changeset dir d) as [[]].
  - unfold io_bind. destruct (io_map_err _ _ _) as [[u|e|] w']; simpl in *; [|done..].
    etrans; [exact Hu|apply (Hk u)].
Qed.
End remote.

(** ** The properties *)

(** C24. Every plan writer that touches only the disk is all-or-nothing: when it answers, the
    stored stack has taken exactly one [writer_step] and no other file has changed; when
    it is refused, fails or panics, the disk is exactly as it was. *)
Theorem disk_writers_refine `{YamlCodec} oc canonicalize dir root base input uinput facts ps id direction :
  atomic_step oc dir (add_planned_pr_node oc dir input) /\
  atomic_step oc dir (adopt_pr_as_stack_node oc dir facts ps) /\
  atomic_step oc dir (seed_stack_with_base_session oc canonicalize dir root base) /\
  atomic_step oc dir (update_planned_pr_node dir uinput) /\
  atomic_step oc dir (delete_planned_pr_node dir id) /\
  atomic_step oc dir (move_planned_pr_node dir id direction).
Proof.
  split_and!; [apply add_atomic|apply adopt_atomic|apply seed_atomic|apply update_atomic
    |apply delete_atomic|apply move_atomic].
Qed.

(** Re-parenting and repointing drive git and GitHub between their writes; whatever
    those answer, and on every path out (a refused check, a rebase conflict recorded on
    the node, a failed push or re-target), a well-formed stored plan is still
    well-formed, and the files of no other session have changed. *)
Theorem remote_writers_keep_stack_ok `{YamlCodec, Remote X} (w : world X) dir id default_branch target ps s :
  stored_stack (w_disk w) dir = Some s -> stack_ok s ->
  let repointed := (repoint_planned_pr_node dir id default_branch target w).2 in
  let moved := (set_stack_node_parents dir id ps default_branch w).2 in
  forall w', w' = repointed \/ w' = moved ->
  (exists s', stored_stack (w_disk w') dir = Some s' /\ stack_ok s') /\
  (forall p, p <> changeset_path dir -> files (w_disk w') !! p = files (w_disk w) !! p).
Proof.
  intros Hs Hok repointed moved w' Hw'.
  assert (evolves false dir w w') as [->|(s1 & s2 & H1 & H2 & Hr & Ho & _)].
  { destruct Hw' as [->| ->]; [apply keeps_repoint|apply keeps_set_parents]. }
  - eauto.
  - simplify_eq. split; [|done]. exists s2. split; [done|]. by eapply writer_steps_ok.
Qed.
