(* ===== verification/StackSpec.v ===== *)
(** * What each plan operation promises

    The functional behaviour of the plan writers on well-formed stacks: what they
    accept, what they change, and the base a child worktree is branched off. *)

From S2P Require Import Prelude Text Stack StackTopo StackOrder Changeset NodeIds PrInsight StackNodes StackRepoint StackAdopt StackInv StackWriters StackRefine.

Local Open Scope io_scope.

(** ** Adding *)

Lemma planned_node_accepts oc s input :
  stack_ok s -> (max_node_number s < u32_max)%N ->
  (forall p, p ∈ ai_parents input -> p ∈ node_ids s) ->
  exists n, planned_node oc s input = Ok n /\ sn_node_id n ∉ node_ids s /\
    sn_parents n = ai_parents input /\ sn_title n = ai_title input /\
    sn_description n = ai_description input /\ sn_branch_suggestion n = ai_branch_suggestion input /\
    sn_branch n = None /\ sn_session_id n = None /\ sn_pr_status n = None.
Proof.
  intros Hok Hroom Hp. unfold planned_node.
  destruct (next_free_node_id_ok (E := string) oc s Hroom) as (id & Hid & Hf).
  assert (validate_parents s None (ai_parents input) "" = Ok ()) as ->.
  { apply validate_parents_Ok. split; [|by intros []]. intros p Hin. split; [done|by apply Hp]. }
  cbn [res_bind]. rewrite Hid. cbn [res_bind].
  match goal with |- context [st_nodes s ++ [?x]] => set (n := x) end.
  assert (reject_if_cyclic (append_node n s) "" = Ok ()) as Hc.
  { apply reject_if_cyclic_Ok.
    assert (stack_ok (append_node n s)) as [??]; [|done]. by apply append_node_ok. }
  unfold append_node in Hc. rewrite Hc. cbn [res_bind]. by exists n.
Qed.

Lemma validate_parents_no_panic s oid ps op : validate_parents s oid ps op <> Panic.
Proof.
  unfold validate_parents. generalize (@nil string) as seen.
  induction ps as [|p ps IH]; intros seen; simpl; [done|]. by repeat case_decide.
Qed.

Lemma planned_node_rejects oc s input p :
  p ∈ ai_parents input -> p ∉ node_ids s -> exists e, planned_node oc s input = Err e.
Proof.
  intros Hp Hk. unfold planned_node.
  pose proof (validate_parents_no_panic s None (ai_parents input) "") as Hn.
  destruct (validate_parents s None (ai_parents input) "") as [u|e|] eqn:Hv; simpl; [|eauto|done].
  apply validate_parents_Ok in Hv as [Hv _]. by destruct (Hv p Hp).
Qed.

(** Adding a planned PR to a well-formed stack with room for an id succeeds exactly when
    every named parent is a node of the stack, and then the node has a fresh id, the
    requested texts and parents, and no branch, session or pull request yet; the cycle
    check behind it never refuses. *)
Theorem planned_node_correct oc s input :
  stack_ok s -> (max_node_number s < u32_max)%N ->
  ((forall p, p ∈ ai_parents input -> p ∈ node_ids s) <-> is_ok (planned_node oc s input) = true) /\
  (forall n, planned_node oc s input = Ok n ->
     sn_node_id n ∉ node_ids s /\ sn_parents n = ai_parents input /\
     sn_title n = ai_title input /\ sn_description n = ai_description input /\
     sn_branch_suggestion n = ai_branch_suggestion input /\
     sn_branch n = None /\ sn_session_id n = None /\ sn_pr_status n = None).
Proof.
  intros Hok Hroom.
  destruct (decide (Forall (fun p => p ∈ node_ids s) (ai_parents input))) as [HF|HF].
  - rewrite Forall_forall in HF.
    destruct (planned_node_accepts oc s input Hok Hroom HF) as (n & -> & Hn).
    split; [done|]. by intros m [= <-].
  - apply not_Forall_Exists, Exists_exists in HF as (p & Hp & Hk); [|apply _].
    destruct (planned_node_rejects oc s input p Hp Hk) as [e ->].
    split; [|done]. split; [|done]. intros H. destruct Hk. by apply H.
Qed.

Definition two_nodes : Stack := mkStack 1 [a_node "n1" [] (Some 0%N); a_node "n2" ["n1"] (Some 1%N)].

Lemma planned_node_witness :
  stack_ok two_nodes /\ is_ok (planned_node true two_nodes child_input) = true.
Proof.
  assert (stack_ok two_nodes) as Hok by by_decide. split; [done|].
  apply (planned_node_correct true two_nodes child_input Hok); [by vm_compute|].
  intros p Hp. case_list Hp. by_decide.
Defined.

(** ** Re-parenting *)

(** [set_stack_node_parents] accepts a move exactly when it keeps the plan a forest of
    stacks: the node exists, the new parents are distinct nodes other than it, and none
    of them descends from it. *)
Theorem check_new_parents_correct s id ps :
  stack_ok s -> check_new_parents s id ps = Ok () <-> may_move s id ps.
Proof. apply check_new_parents_spec. Qed.

Lemma check_new_parents_witness :
  stack_ok two_nodes /\ may_move two_nodes "n2" [] /\ ~ may_move two_nodes "n1" ["n2"].
Proof.
  assert (stack_ok two_nodes) as Hok by by_decide. split; [done|].
  split; [apply (check_new_parents_correct two_nodes "n2" [] Hok); by vm_compute|].
  intros H. apply (check_new_parents_correct two_nodes "n1" ["n2"] Hok) in H. by vm_compute in H.
Defined.

(** ** Deleting *)

Lemma removed_ids_filter id l removed rest :
  NoDup (sn_node_id <$> l) -> remove_first id l = Some (removed, rest) ->
  rest = filter (fun n => sn_node_id n <> id) l.
Proof.
  revert rest. induction l as [|n l IH]; intros rest Hnd; simpl; [done|].
  apply NoDup_cons in Hnd as [Hn Hnd]. rewrite filter_cons. case_decide as Hid.
  - intros [= <- <-]. rewrite decide_False by tauto. symmetry. apply filter_all_in.
    intros m Hm Hmid. apply Hn. rewrite Hid, <- Hmid. by apply list_elem_of_fmap_2.
  - destruct (remove_first id l) as [[r rest']|]; simpl; [|done]. intros [= <- <-].
    rewrite decide_True by done. f_equal. by apply IH.
Qed.

(** What deleting [n] (of id [id]) makes of the stack [s], and what it reports. *)
Record deleted (s : Stack) (id : string) (n : StackNode) (s' : Stack) (d : DeletedNode) : Prop := {
  del_ids : node_ids s' = filter (fun x => x <> id) (node_ids s);
  del_unreferenced : forall m, m ∈ st_nodes s' -> id ∉ sn_parents m;
  del_ancestry : forall a c, a <> id -> c <> id -> (tc (parent_of s') a c <-> tc (parent_of s) a c);
  del_ok : stack_ok s';
  del_children : dn_reparented_children d
                 = sn_node_id <$> filter (fun m => id ∈ sn_parents m) (st_nodes s);
  del_node : set_display_order (dn_node d) None = set_display_order n None;
  del_orphans : dn_orphaned_branch d = sn_branch n /\ dn_orphaned_session_id d = sn_session_id n }.

(** Numbering commutes with every selection that does not look at the numbers. *)
Lemma plan_eq_select s s' (P : StackNode -> Prop) `{forall n, Decision (P n)} :
  plan_eq s s' -> (forall n, P n <-> P (set_display_order n None)) ->
  sn_node_id <$> filter P (st_nodes s) = sn_node_id <$> filter P (st_nodes s').
Proof.
  intros Heq HP. unfold plan_eq, erase_order in Heq. injection Heq as _ Heq.
  assert (forall l : list StackNode, sn_node_id <$> filter P l
            = sn_node_id <$> filter P ((fun n => set_display_order n None) <$> l)) as Hs.
  { induction l as [|n l IH]; [done|]. rewrite fmap_cons, !filter_cons.
    destruct (decide (P n)) as [Hn|Hn].
    - rewrite decide_True by (by apply (HP n)). rewrite !fmap_cons. by rewrite IH.
    - rewrite decide_False by (intros Hx; by apply Hn, (HP n)). done. }
  by rewrite (Hs (st_nodes s)), (Hs (st_nodes s')), Heq.
Qed.

Lemma plan_eq_node s s' id :
  plan_eq s s' ->
  (fun n => set_display_order n None) <$> node s id = (fun n => set_display_order n None) <$> node s' id.
Proof.
  intros Heq. unfold plan_eq, erase_order in Heq. injection Heq as _ Heq. unfold node.
  by rewrite <- !(find_node_fmap id (fun n => set_display_order n None)), Heq.
Qed.

Lemma delete_closure_spec s id n :
  stack_ok s -> node s id = Some n ->
  exists r children s', delete_closure id s = (Some (r, children), s') /\
    deleted s id n s' (mkDeletedNode r children (sn_branch r) (sn_session_id r)).
Proof.
  intros Hok Hn. pose proof (assign_missing_plan s) as Hplan.
  pose proof (proj2 (assign_missing_ok s) Hok) as Hok'.
  unfold delete_closure, remove_node_reparenting_children.
  set (a := assign_missing_display_order s) in *.
  pose proof (remove_first_spec id (st_nodes a)) as Hr.
  destruct (remove_first id (st_nodes a)) as [[r rest]|] eqn:Hrem.
  2: { destruct Hr. change (id ∈ node_ids a). rewrite (node_ids_proper _ _ Hplan).
       apply node_is_Some. eauto. }
  destruct Hr as (Hrid & Hperm & Hfind). eexists r, _, _. split; [done|].
  pose proof (removed_ids_filter _ _ _ _ (so_ids _ Hok') Hrem) as Hrest.
  pose proof (removed_not_in_rest a id r rest (so_ids _ Hok') Hrem) as Hnr.
  assert (set_display_order r None = set_display_order n None) as Hrn.
  { pose proof (plan_eq_node a s id Hplan) as H. unfold node in H at 1.
    rewrite Hfind, Hn in H. simpl in H. by apply (inj Some) in H. }
  split.
  - rewrite (removed_node_ids a id r rest), <- (node_ids_proper _ _ Hplan), Hrest.
    unfold node_ids. rewrite filter_fmap_in. done.
  - intros m' (m & -> & Hm)%list_elem_of_fmap Hin.
    apply reparent_child_parents in Hin; [|apply inherited_not_id].
    destruct Hin as [[_ ?]|[_ ?]]; [done|]. by eapply inherited_not_id.
  - intros x c Hx Hc. rewrite (removed_ancestors a id r rest (so_ids _ Hok') Hrem) by done.
    split; apply tc_iff; intros ? ?; by rewrite (parent_of_proper _ _ Hplan _ _ eq_refl _ _ eq_refl).
  - by apply (removed_ok a id r rest (so_ids _ Hok') Hrem).
  - simpl. rewrite <- (plan_eq_select a s) by done. rewrite Hrest, list_filter_filter.
    f_equal. apply filter_ext_in. intros m Hm. split; [tauto|]. intros Hin. split; [done|].
    intros Hid. assert (m = r) as ->.
    { eapply node_unique; [apply (so_ids _ Hok')|done|by rewrite <- Hperm; left|congruence]. }
    apply (so_acyclic _ Hok' id), tc_once. exists r. split_and!; [by rewrite <- Hperm; left|done|done|].
    by apply (so_parents _ Hok' r).
  - done.
  - simpl. by injection Hrn.
Qed.

(** The acyclicity check of the delete path never fires on a well-formed stack. *)
Lemma delete_check_passes s id op :
  stack_ok s -> reject_if_cyclic (remove_node_reparenting_children s id).2 op = Ok ().
Proof.
  intros Hok. apply reject_if_cyclic_Ok. unfold remove_node_reparenting_children.
  destruct (remove_first id (st_nodes s)) as [[r rest]|] eqn:Hr; simpl; [|by destruct Hok].
  assert (stack_ok (mkStack (st_version s)
    (reparent_child id (filter (fun p => p <> id) (sn_parents r)) <$> rest))) as [? _ ?]; [|done].
  by apply (removed_ok s id r rest (so_ids _ Hok) Hr).
Qed.

(** Deleting a node whose pull request is not open always goes through unless the file
    cannot be written (and then nothing changed): exactly that node is gone, no node
    names it as a parent any more, ancestry among the other nodes is exactly what it
    was (its children inherited its parents in its place), and the answer names the
    re-parented children and the branch and session it orphaned. *)
Theorem delete_planned_pr_node_correct `{YamlCodec} w dir id s n :
  stored_stack w dir = Some s -> stack_ok s -> node s id = Some n -> pr_is_open n = false ->
  match delete_planned_pr_node dir id w with
  | (Ok d, w') => exists s', stored_stack w' dir = Some s' /\ deleted s id n s' d
  | (Err _, w') => w' = w /\ exists e, update_stack_atomic dir (delete_closure id) w = (Err e, w)
  | (Panic, _) => False
  end.
Proof.
  intros Hs Hok Hn Hpr. unfold delete_planned_pr_node. unfold io_bind at 1.
  destruct (read_stack_cases dir "delete_planned_pr_node" w) as [(cs & Hcs & ->)|[e Hr]].
  2: { exfalso. unfold stored_stack in Hs. destruct (stored w dir) as [cs|] eqn:Hcs; [|done].
       apply stored_read in Hcs. unfold read_stack, io_bind, io_map_err in Hr. by rewrite Hcs in Hr. }
  apply stored_stack_Some in Hcs. rewrite Hs in Hcs. injection Hcs as <-.
  unfold io_bind at 1, io_lift at 1. rewrite Hn. simpl ok_or. cbv iota. rewrite Hpr.
  unfold io_bind at 1, io_lift at 1. rewrite delete_check_passes by done.
  unfold io_bind at 1, io_map_err.
  destruct (delete_closure_spec s id n Hok Hn) as (r & children & s' & Hd & Hdel).
  destruct (update_stack_cases dir (delete_closure id) w s Hs) as [(w' & Hu & Hst)|[e Hu]]; rewrite Hu.
  - rewrite Hd. simpl. destruct Hst as (x & y & _ & Hy & [_ Hey] & _). rewrite Hd in Hey.
    exists s'. split; [by subst|done].
  - simpl. split; [done|]. by exists e.
Qed.

(** ** Branching a child off the plan *)

Lemma blocking_parent_spec s ps :
  match blocking_parent s ps with
  | Some p => p ∈ ps /\ blocks_spawn s p = true
  | None => forall p, p ∈ ps -> blocks_spawn s p = false
  end.
Proof.
  induction ps as [|q ps IH]; simpl; [set_solver|]. destruct (blocks_spawn s q) eqn:Hq.
  - split; [left|done].
  - destruct (blocking_parent s ps); [|intros p [->|Hp]%elem_of_cons; auto].
    destruct IH. split; [by right|done].
Qed.

(** The first parent of the list that is in the stack and not merged. *)
Definition live_parent (s : Stack) (ps : list string) : option StackNode :=
  head (filter (fun m => is_skipped m = false) (omap (node s) ps)).

Lemma parent_base_refs_head s ps :
  (forall p, p ∈ ps -> blocks_spawn s p = false) ->
  match live_parent s ps with
  | Some m => exists b, sn_branch m = Some b /\ head (parent_base_refs s ps) = Some ("origin/" +:+ b)
  | None => parent_base_refs s ps = []
  end.
Proof.
  unfold live_parent, parent_base_refs. induction ps as [|q ps IH]; intros Hb; [done|].
  pose proof (Hb q (list_elem_of_here _ _)) as Hq. unfold blocks_spawn in Hq.
  specialize (IH (fun p Hp => Hb p (list_elem_of_further _ _ _ Hp))). simpl.
  destruct (node s q) as [m|]; simpl; [|done]. rewrite filter_cons.
  destruct (is_skipped m) eqn:Hm; simpl in *; [done|].
  destruct (sn_branch m) as [b|]; [|done]. simpl. by exists b.
Qed.

(** Spawning a child is refused exactly when some parent that is in the stack and not
    merged owns no branch yet; otherwise the child is branched off the remote branch of
    its first live parent, and off the stack's own base when it has no live parent. *)
Theorem base_ref_for_spawn_correct s id n bottom :
  node s id = Some n ->
  ((exists e, base_ref_for_spawn s id bottom = Err e) <->
   exists p m, p ∈ sn_parents n /\ node s p = Some m /\ is_skipped m = false /\ sn_branch m = None) /\
  (forall r, base_ref_for_spawn s id bottom = Ok r ->
     match live_parent s (sn_parents n) with
     | Some m => exists b, sn_branch m = Some b /\ r = "origin/" +:+ b
     | None => r = bottom
     end) /\
  base_ref_for_spawn s id bottom <> Panic.
Proof.
  intros Hn. unfold base_ref_for_spawn, effective_base_refs. rewrite Hn. simpl.
  pose proof (blocking_parent_spec s (sn_parents n)) as Hb.
  destruct (blocking_parent s (sn_parents n)) as [q|].
  - destruct Hb as [Hq Hb]. unfold blocks_spawn in Hb. destruct (node s q) as [m|] eqn:Hm; [|done].
    apply andb_true_iff in Hb as [Hs Hbr%bool_decide_eq_true]. apply negb_true_iff in Hs.
    split; [|done]. split; [|eauto]. intros _. by exists q, m.
  - pose proof (parent_base_refs_head _ _ Hb) as Hh. split; [|split; [|done]].
    + split; [by intros []|]. intros (p & m & Hp & Hm & Hs & Hbr). specialize (Hb p Hp).
      unfold blocks_spawn in Hb. rewrite Hm, Hs, Hbr in Hb. done.
    + intros r [= <-]. destruct (live_parent s (sn_parents n)) as [m|].
      * destruct Hh as (b & Hbr & Hh). exists b. split; [done|].
        destruct (parent_base_refs s (sn_parents n)); [done|]. simpl in *. by injection Hh as ->.
      * by rewrite Hh.
Qed.

(** ** Updating *)

Definition unnumbered_eq (n m : StackNode) : Prop := set_display_order n None = set_display_order m None.

Lemma node_modify_other s id id' f :
  id' <> id -> (forall n, sn_node_id (f n) = sn_node_id n) -> node (modify_node id f s) id' = node s id'.
Proof.
  intros Hne Hf. unfold node, modify_node. simpl.
  induction (st_nodes s) as [|n l IH]; simpl; [done|]. case_decide; simpl.
  - by rewrite !decide_False by (rewrite ?Hf; congruence).
  - case_decide; [done|]. apply IH.
Qed.

Lemma node_modify_same s id f n :
  (forall n, sn_node_id (f n) = sn_node_id n) -> node s id = Some n -> node (modify_node id f s) id = Some (f n).
Proof.
  intros Hf. unfold node, modify_node. simpl.
  induction (st_nodes s) as [|m l IH]; simpl; [done|]. case_decide; simpl.
  - intros [= <-]. by rewrite decide_True by (by rewrite Hf).
  - by rewrite decide_False.
Qed.

Lemma plan_eq_node_Some s s' id n :
  plan_eq s s' -> node s id = Some n -> exists m, node s' id = Some m /\ unnumbered_eq m n.
Proof.
  intros Heq Hn. pose proof (plan_eq_node _ _ id Heq) as H. rewrite Hn in H. simpl in H.
  destruct (node s' id) as [m|]; [|done]. apply (inj Some) in H. by exists m.
Qed.

(** An update that answers names at least one field, never rewrites the branch
    suggestion of a node that owns a branch, rewrites exactly the named fields of that
    node, and changes no other node (reading-order numbers apart); a refused or failed
    one changes nothing. *)
Theorem update_planned_pr_node_correct `{YamlCodec} w dir input s :
  stored_stack w dir = Some s ->
  let id := ui_node_id input in
  match update_planned_pr_node dir input w with
  | (Ok m, w') =>
      exists n s', node s id = Some n /\ stored_stack w' dir = Some s' /\ node s' id = Some m /\
        unnumbered_eq m (apply_update input n) /\
        (forall id' n', id' <> id -> node s id' = Some n' ->
           exists m', node s' id' = Some m' /\ unnumbered_eq m' n') /\
        (sn_branch n = None \/ ui_branch_suggestion input = None) /\
        ~ (ui_title input = None /\ ui_description input = None /\ ui_branch_suggestion input = None)
  | (_, w') => w' = w
  end.
Proof.
  intros Hs id. pose proof (update_atomic false dir input w) as Hat.
  destruct (update_planned_pr_node dir input w) as [[m|e|] w'] eqn:Hu; [clear Hat|done|done].
  unfold update_planned_pr_node in Hu. case_decide as Hfields; [done|].
  apply io_bind_Ok in Hu as (s0 & w0 & Hr & Hu).
  destruct (read_stack_cases dir "update_planned_pr_node" w) as [(cs & Hcs & Hr')|[e Hr']];
    rewrite Hr' in Hr; [|done]. injection Hr as <- <-. apply stored_stack_Some in Hcs.
  rewrite Hs in Hcs. injection Hcs as Hcs; rewrite <- Hcs in *.
  apply io_bind_Ok in Hu as (n & w0 & Hn & Hu). injection Hn as Hn <-. apply ok_or_Ok in Hn.
  assert ((sn_branch n = None \/ ui_branch_suggestion input = None) /\
    exists r w1, update_stack_atomic dir (update_closure input) w = (Ok r, w1) /\ r = Some m /\ w1 = w')
    as [Hbr (r & w1 & Hup & -> & ->)].
  { destruct (sn_branch n); [destruct (ui_branch_suggestion input); [done|]|]; (split; [auto|]);
      apply io_bind_Ok in Hu as (r & w1 & Hm%io_map_err_Ok & Hu); injection Hu as Hu ->;
      apply ok_or_Ok in Hu; eauto. }
  destruct (update_stack_cases dir (update_closure input) w s Hs) as [(w1 & Hup' & Hst)|[e Hup']];
    rewrite Hup' in Hup; [|done]. injection Hup as Hm <-.
  destruct Hst as (x & s' & _ & Hs' & [_ ->] & _).
  assert (forall k, sn_node_id (apply_update input k) = sn_node_id k) as Hids by done.
  assert (plan_eq s (assign_missing_display_order s)) as Hplan by (symmetry; apply assign_missing_plan).
  exists n, (update_closure input s).2. split_and!; [done|done|done| | |done|done].
  - destruct (plan_eq_node_Some _ _ id n Hplan Hn) as (k & Hk & Hkn).
    unfold update_closure in Hm. cbn [fst] in Hm. fold id in Hm. rewrite (node_modify_same _ _ _ k Hids Hk) in Hm.
    injection Hm as <-. unfold unnumbered_eq in *. by destruct k, n; simplify_eq/=.
  - intros id' n' Hne Hn'. unfold update_closure. cbn [snd].
    rewrite node_modify_other by done. by apply plan_eq_node_Some with s.
Qed.

(** ** Two adds at once *)

(** The id of a new node is chosen from the stack the writer validated, not from the
    stack it appends to: when two writers validate against the same stored plan and then
    both write, the plan ends with two nodes of one id, and no order of it exists. *)
Theorem concurrent_adds_collide oc s input1 input2 n1 n2 :
  planned_node oc s input1 = Ok n1 -> planned_node oc s input2 = Ok n2 ->
  let s' := (append_numbered n2 (append_numbered n1 s).2).2 in
  sn_node_id n1 = sn_node_id n2 /\ ~ NoDup (node_ids s') /\ forall order, topo_order s' <> Ok order.
Proof.
  intros H1 H2 s'.
  assert (forall input n, planned_node oc s input = Ok n ->
            next_free_node_id (E := string) oc s = Ok (sn_node_id n)) as Hid.
  { intros input n. unfold planned_node. intros (_ & _ & H)%res_bind_Ok.
    apply res_bind_Ok in H as (id & Hid & H). by apply res_bind_Ok in H as (_ & _ & [= <-]). }
  assert (sn_node_id n1 = sn_node_id n2) as Heq.
  { apply Hid in H1, H2. congruence. }
  assert (~ NoDup (node_ids s')) as Hnd.
  { assert (sn_node_id n1 ∈ node_ids (append_numbered n1 s).2) as Hin.
    { unfold append_numbered, node_ids. simpl. rewrite fmap_app. set_solver. }
    rewrite <- assign_missing_ids in Hin. subst s'. unfold append_numbered at 1.
    unfold node_ids. cbn [snd st_nodes]. rewrite fmap_app. intros (_ & Hd & _)%NoDup_app.
    apply (Hd _ Hin). rewrite Heq. left. }
  split; [done|]. split; [done|]. intros order Ho. by apply topo_order_Ok_valid in Ho as [].
Qed.

(** ** Witnesses *)

(** A session directory ["d"] holding [two_nodes], on a disk that takes every write. *)
Definition a_changeset (s : Stack) : Changeset := set_stack (Changeset_default "t0") (Some s).
Definition a_disk : disk := mkDisk {["d/changeset.yaml" := Text ""]} (fun _ => None).

(** The codec's table holds the stack before and after the deletion of its root. *)
Definition after_delete : Stack := mkStack 1 [a_node "n2" [] (Some 1%N)].
Definition delete_codec : YamlCodec := table_codec [a_changeset two_nodes; a_changeset after_delete].

Lemma delete_planned_pr_node_witness :
  exists d w', @delete_planned_pr_node delete_codec "d" "n1" a_disk = (Ok d, w') /\
    exists s', @stored_stack delete_codec w' "d" = Some s' /\
      deleted two_nodes "n1" (a_node "n1" [] (Some 0%N)) s' d.
Proof.
  pose proof (@delete_planned_pr_node_correct delete_codec a_disk "d" "n1" two_nodes
    (a_node "n1" [] (Some 0%N)) ltac:(vm_compute; reflexivity) ltac:(by_decide)
    ltac:(vm_compute; reflexivity) eq_refl) as H.
  assert (is_ok (@delete_planned_pr_node delete_codec "d" "n1" a_disk).1 = true) as Hr
    by (vm_compute; reflexivity).
  destruct (@delete_planned_pr_node delete_codec "d" "n1" a_disk) as [[d|e|] w']; [by eauto|done|done].
Defined.

Lemma base_ref_for_spawn_witness : exists e, base_ref_for_spawn two_nodes "n2" "main" = Err e.
Proof.
  apply (proj1 (base_ref_for_spawn_correct two_nodes "n2" (a_node "n2" ["n1"] (Some 1%N)) "main"
    ltac:(vm_compute; reflexivity))).
  exists "n1", (a_node "n1" [] (Some 0%N)). split; [left|]. by vm_compute.
Defined.

Definition retitle : UpdatePlannedPrInput := mkUpdatePlannedPrInput "n2" (Some "renamed") None None.
Definition after_update : Stack :=
  mkStack 1 [a_node "n1" [] (Some 0%N);
             mkStackNode "n2" "renamed" "" None None None ["n1"] None None None (Some 1%N)].
Definition update_codec : YamlCodec := table_codec [a_changeset two_nodes; a_changeset after_update].

Lemma update_planned_pr_node_witness :
  exists m w', @update_planned_pr_node update_codec "d" retitle a_disk = (Ok m, w') /\
    exists n, node two_nodes "n2" = Some n /\ unnumbered_eq m (apply_update retitle n).
Proof.
  pose proof (@update_planned_pr_node_correct update_codec a_disk "d" retitle two_nodes
    ltac:(vm_compute; reflexivity)) as H.
  assert (is_ok (@update_planned_pr_node update_codec "d" retitle a_disk).1 = true) as Hr
    by (vm_compute; reflexivity).
  destruct (@update_planned_pr_node update_codec "d" retitle a_disk) as [[m|e|] w']; [|done|done].
  destruct H as (n & s' & Hn & _ & _ & Hm & _). eauto 10.
Defined.

Lemma concurrent_adds_witness :
  let n := planned "n1" root_input None in
  ~ NoDup (node_ids (append_numbered n (append_numbered n Stack_default).2).2).
Proof.
  exact (proj1 (proj2 (concurrent_adds_collide true Stack_default root_input root_input
    (planned "n1" root_input None) (planned "n1" root_input None)
    ltac:(vm_compute; reflexivity) ltac:(vm_compute; reflexivity)))).
Defined.

(** A remote on which no branch exists and nothing is open. *)
Definition idle_remote : Remote unit := {|
  local_branch_exists _ _ := false;
  merge_base _ _ _ := inl (WriteFailed "no merge base");
  rebase_onto _ _ _ := io_ret ();
  rev_parse _ _ := "";
  detect_default_remote_name _ := None;
  force_push_with_lease _ _ _ := io_ret ();
  get_open_pr _ _ := inr None;
  patch_pr_base _ _ := io_ret () |}.

Lemma remote_writers_witness :
  let w := mkWorld a_disk tt in
  let w' := (@set_stack_node_parents update_codec unit idle_remote "d" "n2" [] "main" w).2 in
  exists s', @stored_stack update_codec (w_disk w') "d" = Some s' /\ stack_ok s'.
Proof.
  exact (proj1 (@remote_writers_keep_stack_ok update_codec unit idle_remote (mkWorld a_disk tt) "d" "n2" "main"
    None [] two_nodes ltac:(vm_compute; reflexivity) ltac:(by_decide) _ (or_intror eq_refl))).
Defined.

(** ** The lease of a realignment *)

Section lease.
Context {yaml : YamlCodec} {X : Type} `{!Remote X}.
(** The tip a remote holds for a branch. *)
Context (remote_tip : X -> string -> string -> string).

(** [git push --force-with-lease=<branch>:<sha>]: refused, with nothing moved, unless the
    remote still holds [sha]. *)
Definition honours_lease : Prop := forall x remote branch sha,
  remote_tip x remote branch <> sha -> exists e, force_push_with_lease remote branch sha x = (Err e, x).

(** A realignment takes the lease of its force-push from the local branch after the
    rebase: when the rebase moved the branch, no remote that honours leases accepts the
    push, and the realignment still answers success with the remote as it was. *)
Theorem realign_push_refused op dir id branch base w x1 :
  honours_lease ->
  (forall b, rebase_onto base b branch (w_ext w) = (Ok (), x1)) ->
  (let remote := default "origin" (detect_default_remote_name x1) in
   remote_tip x1 remote branch <> rev_parse x1 branch) ->
  realign_git op dir id branch base w = (Ok (), mkWorld (w_disk w) x1).
Proof.
  intros Hl Hr Hne. unfold realign_git, io_bind, ask, io_catch, on_ext. cbn -[default].
  rewrite Hr. cbn -[default]. destruct (Hl _ _ _ _ Hne) as [e ->]. done.
Qed.
End lease.

(** One branch: its local tip, and the tip the remote holds. *)
Definition tips_remote : Remote (string * string) := {|
  local_branch_exists _ _ := true;
  merge_base _ _ _ := inr "c0";
  rebase_onto _ _ _ := fun x => (Ok (), ("rebased", x.2));
  rev_parse x _ := x.1;
  detect_default_remote_name _ := Some "origin";
  force_push_with_lease _ _ sha := fun x =>
    if decide (x.2 = sha) then (Ok (), (x.1, x.1)) else (Err (WriteFailed "stale info"), x);
  get_open_pr _ _ := inr None;
  patch_pr_base _ _ := io_ret () |}.

Lemma realign_push_refused_witness :
  let w := mkWorld a_disk ("c1", "c1") in
  @realign_git update_codec _ tips_remote "op" "d" "n1" "feature" "main" w
  = (Ok (), mkWorld a_disk ("rebased", "c1")).
Proof.
  apply (@realign_push_refused update_codec _ tips_remote (fun x _ _ => x.2)); [|done|done].
  intros x r b sha Hne. simpl. rewrite decide_False by done. by eexists.
Defined.
