(* ===== verification/Assess.v ===== *)
(** * The orchestrator's decision

    [src/packages/tddy-pr-stack/src/assess.rs]: the views of a tick ([assemble_views])
    and the action they call for ([decide_next_action], [effective_base_ref]). *)

From S2P Require Import Prelude Text Stack StackTopo StackOrder Changeset NodeIds StackNodes StackRepoint StackInv.

Local Open Scope io_scope.

(** ** Data *)

Inductive ChildPhase :=
| NotSpawned
| SpawnRequested
| Building
| ReadyForPr
| PrOpen
| Failed (reason : string).

Inductive PrLiveStatus :=
| PrNone
| PrLiveOpen (number : N) (base : string)
| PrQueued
| PrLiveMerged
| PrLiveClosed.

Inductive OrchestratorAction :=
| Spawn (node_ids : list string)
| Wait (reason : string)
| Merge (node_id : string) (pr_number : N)
| MarkFailed (node_id reason : string)
| Done.

Record NodeView := mkNodeView {
  nv_node_id : string; nv_branch : string; nv_parent_dep_ids : list string;
  nv_child_session_id : option string; nv_child_state : option WorkflowState;
  nv_child_phase : ChildPhase; nv_pr : PrLiveStatus }.

#[global] Instance ChildPhase_eq_dec : EqDecision ChildPhase.
Proof. solve_decision. Defined.
#[global] Instance PrLiveStatus_eq_dec : EqDecision PrLiveStatus.
Proof. solve_decision. Defined.

(** ** [decide_next_action] *)

Definition find_view (id : string) (views : list NodeView) : option NodeView :=
  snd <$> list_find (fun v => nv_node_id v = id) views.

Definition is_merged (v : NodeView) : bool := bool_decide (nv_pr v = PrLiveMerged).

Definition deps_merged (views : list NodeView) (v : NodeView) : bool :=
  forallb (fun dep => from_option is_merged false (find_view dep views)) (nv_parent_dep_ids v).

Definition deps_spawned (views : list NodeView) (v : NodeView) : bool :=
  forallb (fun dep => from_option (fun o => bool_decide (nv_child_phase o <> NotSpawned)) false
                        (find_view dep views)) (nv_parent_dep_ids v).

(** The first of [views] on which [f] answers: each [for v in views { ... return ... }]. *)
Fixpoint first_some {A B} (f : A -> option B) (l : list A) : option B :=
  match l with
  | [] => None
  | x :: l' => match f x with Some b => Some b | None => first_some f l' end
  end.

Definition failed_action (v : NodeView) : option OrchestratorAction :=
  match nv_child_phase v with
  | Failed reason => Some (MarkFailed (nv_node_id v) reason)
  | _ =>
      if decide (nv_pr v = PrLiveClosed)
      then Some (MarkFailed (nv_node_id v)
                   ("PR for node " +:+ nv_node_id v +:+ " was closed without merging"))
      else None
  end.

Definition spawn_action (views : list NodeView) (v : NodeView) : option OrchestratorAction :=
  if bool_decide (nv_child_phase v = NotSpawned) && deps_spawned views v
  then Some (Spawn [nv_node_id v]) else None.

Definition merge_action (views : list NodeView) (autonomous_merge : bool) (approved : gset string)
    (v : NodeView) : option OrchestratorAction :=
  match nv_pr v with
  | PrLiveOpen number _ =>
      if deps_merged views v then
        if autonomous_merge || bool_decide (nv_node_id v ∈ approved)
        then Some (Merge (nv_node_id v) number)
        else Some (Wait ("node " +:+ nv_node_id v
                           +:+ " is ready to merge but awaiting operator approval"))
      else None
  | _ => None
  end.

Definition waiting : OrchestratorAction := Wait "waiting for child sessions / PRs to progress".

Definition decide_next_action (views : list NodeView) (autonomous_merge : bool)
    (approved : gset string) : OrchestratorAction :=
  match first_some failed_action views with
  | Some a => a
  | None =>
      if bool_decide (views <> []) && forallb is_merged views then Done else
      match first_some (spawn_action views) views with
      | Some a => a
      | None => default waiting (first_some (merge_action views autonomous_merge approved) views)
      end
  end.

(** [effective_base_ref]. *)
Definition effective_base_ref (node_id : string) (views : list NodeView) (default_branch : string)
  : string :=
  match find_view node_id views with
  | None => default_branch
  | Some v =>
      default default_branch (first_some (fun parent_id =>
        p ← find_view parent_id views;
        if decide (nv_branch p = "") then None
        else if is_merged p then None else Some (nv_branch p)) (nv_parent_dep_ids v))
  end.

(** ** [assemble_views] *)

Definition workflow_state_to_child_phase (state : WorkflowState) : ChildPhase :=
  if decide (state = "Done" \/ state = "End") then ReadyForPr
  else if decide (state = "Failed" \/ state = "Error") then Failed state
  else Building.

Record PrRef := mkPrRef { pr_number : N; pr_head_sha : string; pr_base_branch : string; pr_url : string }.

Section assemble.
Context {yaml : YamlCodec} (w : disk) (parent_dir sessions_root : string).
(** [GithubPrApi::get_open_pr]. *)
Context (get_open_pr_ref : string -> WorkflowError + option PrRef).

Definition spawn_marker (node_id : string) : string :=
  path_join (path_join parent_dir ".workflow") ("spawn-request-" +:+ node_id +:+ ".json").

Definition child_view (n : StackNode) (node_id : string) : option WorkflowState * ChildPhase :=
  match sn_session_id n with
  | Some session_id =>
      match stored w (unified_session_dir_path sessions_root session_id) with
      | Some cs => let state := cst_current (cs_state cs) in
                   (Some state, workflow_state_to_child_phase state)
      | None => (None, Building)
      end
  | None =>
      if decide (is_Some (files w !! spawn_marker node_id)) then (None, SpawnRequested)
      else (None, NotSpawned)
  end.

Definition pr_view (n : StackNode) (branch : string) : res WorkflowError PrLiveStatus :=
  if decide (branch = "") then Ok PrNone else
  match get_open_pr_ref branch with
  | inl e => Err e
  | inr (Some pr_ref) => Ok (PrLiveOpen (pr_number pr_ref) (pr_base_branch pr_ref))
  | inr None =>
      match sn_pr_status n with
      | Some status =>
          if decide (ps_phase status = "merged") then Ok PrLiveMerged
          else if decide (ps_phase status = "closed") then Ok PrLiveClosed
          else Ok PrNone
      | None => Ok PrNone
      end
  end.

(** The body of the loop; the [expect] on a missing node is the panic. *)
Definition assemble_view (s : Stack) (node_id : string) : res WorkflowError NodeView :=
  match node s node_id with
  | None => Panic
  | Some n =>
      let branch := default "" (resolve_stack_node_branch w sessions_root n) in
      let '(child_state, child_phase) := child_view n node_id in
      let? pr := pr_view n branch in
      Ok (mkNodeView node_id branch (sn_parents n) (sn_session_id n) child_state child_phase pr)
  end.

Fixpoint assemble_loop (s : Stack) (order : list string) : res WorkflowError (list NodeView) :=
  match order with
  | [] => Ok []
  | id :: order' =>
      let? v := assemble_view s id in
      let? vs := assemble_loop s order' in
      Ok (v :: vs)
  end.

Definition assemble_views (s : Stack) : res WorkflowError (list NodeView) :=
  let? order := topo_order s in
  assemble_loop s order.
End assemble.

(** ** Scanning the views *)

Lemma first_some_Some {A B} (f : A -> option B) l b :
  first_some f l = Some b -> exists x, x ∈ l /\ f x = Some b.
Proof.
  induction l as [|x l IH]; simpl; [done|]. destruct (f x) eqn:Hx.
  - intros [= <-]. exists x. split; [left|done].
  - intros (y & Hy & Hf)%IH. exists y. split; [by right|done].
Qed.

Lemma first_some_None {A B} (f : A -> option B) l :
  first_some f l = None <-> forall x, x ∈ l -> f x = None.
Proof.
  induction l as [|x l IH]; simpl; [set_solver|]. destruct (f x) eqn:Hx.
  - split; [done|]. intros H. specialize (H x). rewrite H in Hx; [done|left].
  - rewrite IH. split; [intros H y [->|Hy]%elem_of_cons|]; auto. intros H y Hy. apply H. by right.
Qed.

Lemma find_view_Some id views v : find_view id views = Some v -> v ∈ views /\ nv_node_id v = id.
Proof.
  unfold find_view. destruct (list_find _ views) as [[i x]|] eqn:H; simpl; [|done].
  intros [= <-]. apply list_find_Some in H as (Hi & ? & _). split; [by eapply list_elem_of_lookup_2|done].
Qed.

Lemma find_view_app l1 l2 id : id ∈ nv_node_id <$> l1 ->
  exists o, find_view id (l1 ++ l2) = Some o /\ o ∈ l1.
Proof.
  intros Hin. unfold find_view. destruct (list_find (fun v => nv_node_id v = id) l1) as [[i o]|] eqn:H.
  - exists o. pose proof H as H'. apply list_find_Some in H' as (Hi & _).
    rewrite (list_find_app_l _ _ _ _ _ H). split; [done|by eapply list_elem_of_lookup_2].
  - exfalso. apply list_find_None in H. rewrite Forall_forall in H.
    apply list_elem_of_fmap in Hin as (v & -> & Hv). by apply (H v).
Qed.

Lemma deps_all (views : list NodeView) (q : NodeView -> bool) ps :
  forallb (fun dep => from_option q false (find_view dep views)) ps = true <->
  forall dep, dep ∈ ps -> exists o, find_view dep views = Some o /\ q o = true.
Proof.
  rewrite forallb_forall. setoid_rewrite <- list_elem_of_In. split; intros H dep Hd; specialize (H dep Hd).
  - destruct (find_view dep views); [eauto|done].
  - by destruct H as (o & -> & ?).
Qed.

(** C32. What an action commits the orchestrator to: a merge is only ever of an open pull
    request all of whose parents are merged, and only with autonomous merging or the
    operator's approval of that very node; a spawn is only of an unspawned node all of
    whose parents are spawned; done means every node is merged; and none of these is
    chosen while a node has failed or a pull request was closed unmerged. *)
Theorem decide_next_action_safe views autonomous approved :
  let nothing_failed := forall v, v ∈ views ->
    (forall r, nv_child_phase v <> Failed r) /\ nv_pr v <> PrLiveClosed in
  match decide_next_action views autonomous approved with
  | Merge id number => nothing_failed /\
      exists v base, v ∈ views /\ nv_node_id v = id /\ nv_pr v = PrLiveOpen number base /\
        (forall dep, dep ∈ nv_parent_dep_ids v ->
           exists o, find_view dep views = Some o /\ nv_pr o = PrLiveMerged) /\
        (autonomous = true \/ id ∈ approved)
  | Spawn ids => nothing_failed /\
      exists v, v ∈ views /\ ids = [nv_node_id v] /\ nv_child_phase v = NotSpawned /\
        (forall dep, dep ∈ nv_parent_dep_ids v ->
           exists o, find_view dep views = Some o /\ nv_child_phase o <> NotSpawned)
  | Done => nothing_failed /\ views <> [] /\ forall v, v ∈ views -> nv_pr v = PrLiveMerged
  | MarkFailed id _ =>
      exists v, v ∈ views /\ nv_node_id v = id /\
        ((exists r, nv_child_phase v = Failed r) \/ nv_pr v = PrLiveClosed)
  | Wait _ => nothing_failed
  end.
Proof.
  intros nothing_failed. unfold decide_next_action.
  destruct (first_some failed_action views) as [a|] eqn:Hf.
  { apply first_some_Some in Hf as (v & Hv & Hf). unfold failed_action in Hf.
    destruct (nv_child_phase v) eqn:Hp; try (case_decide; [|done]); injection Hf as <-; eauto 10. }
  assert nothing_failed as Hnf.
  { intros v Hv. pose proof (proj1 (first_some_None _ _) Hf v Hv) as H. unfold failed_action in H.
    destruct (nv_child_phase v); try done; by case_decide. }
  clear Hf. destruct (bool_decide (views <> []) && forallb is_merged views) eqn:Hd.
  { apply andb_true_iff in Hd as [Hne%bool_decide_eq_true Hm]. split_and!; [done|done|].
    intros v Hv. rewrite forallb_forall in Hm. apply list_elem_of_In, Hm in Hv. by apply bool_decide_eq_true in Hv. }
  destruct (first_some (spawn_action views) views) as [a|] eqn:Hs.
  { apply first_some_Some in Hs as (v & Hv & Hs). unfold spawn_action in Hs.
    destruct (_ && _) eqn:Hb in Hs; [|done]. injection Hs as <-.
    apply andb_true_iff in Hb as [Hp%bool_decide_eq_true Hdep]. split; [done|]. exists v.
    split_and!; [done|done|done|]. unfold deps_spawned in Hdep. rewrite deps_all in Hdep.
    intros dep Hin. destruct (Hdep dep Hin) as (o & ? & ?%bool_decide_eq_true). eauto. }
  destruct (first_some (merge_action views autonomous approved) views) as [a|] eqn:Hm; simpl; [|done].
  apply first_some_Some in Hm as (v & Hv & Hm). unfold merge_action in Hm.
  destruct (nv_pr v) as [|number base| | |] eqn:Hpr; try done.
  destruct (deps_merged views v) eqn:Hdep; [|done].
  destruct (autonomous || bool_decide (nv_node_id v ∈ approved)) eqn:Ha; injection Hm as <-; [|done].
  split; [done|]. exists v, base. split_and!; [done|done|done| |].
  - unfold deps_merged in Hdep. rewrite deps_all in Hdep. intros dep Hin.
    destruct (Hdep dep Hin) as (o & ? & ?%bool_decide_eq_true). eauto.
  - apply orb_true_iff in Ha as [->|?%bool_decide_eq_true]; auto.
Qed.

(** ** Progress *)

(** Dependencies come first. *)
Definition views_ordered (views : list NodeView) : Prop :=
  forall l1 v l2, views = l1 ++ v :: l2 -> forall dep, dep ∈ nv_parent_dep_ids v -> dep ∈ nv_node_id <$> l1.

(** The first view with a property has it after all its dependencies have lost it. *)
Lemma first_with views (P : NodeView -> Prop) `{forall v, Decision (P v)} v0 :
  views_ordered views -> v0 ∈ views -> P v0 ->
  exists v, v ∈ views /\ P v /\
    forall dep, dep ∈ nv_parent_dep_ids v -> exists o, find_view dep views = Some o /\ o ∈ views /\ ~ P o.
Proof.
  intros Hord Hin HP.
  destruct (list_find P views) as [[i v]|] eqn:Hf.
  - pose proof Hf as Hf'. apply list_find_Some in Hf' as (Hi & Hv & Hmin).
    exists v. split; [by eapply list_elem_of_lookup_2|]. split; [done|]. intros dep Hdep.
    pose proof (take_drop_middle _ _ _ Hi) as Hsplit.
    assert (dep ∈ nv_node_id <$> take i views) as Hd.
    { eapply Hord; [by symmetry|done]. }
    destruct (find_view_app _ (drop i views) _ Hd) as (o & Ho & Hoin). rewrite take_drop in Ho.
    exists o. split; [done|]. split; [by eapply find_view_Some|].
    apply list_elem_of_lookup in Hoin as [j Hj]. apply lookup_take_Some in Hj as [Hj Hlt].
    by eapply Hmin.
  - exfalso. apply list_find_None in Hf. rewrite Forall_forall in Hf. by apply (Hf v0).
Qed.

Section progress.
Context {yaml : YamlCodec} (w : disk) (parent_dir sessions_root : string).
Context (get_open_pr_ref : string -> WorkflowError + option PrRef).

Notation assemble := (assemble_views w parent_dir sessions_root get_open_pr_ref).

Lemma assemble_view_Ok s id v :
  assemble_view w parent_dir sessions_root get_open_pr_ref s id = Ok v ->
  nv_node_id v = id /\ exists n, node s id = Some n /\ nv_parent_dep_ids v = sn_parents n.
Proof.
  unfold assemble_view. destruct (node s id) as [n|]; [|done]. destruct (child_view _ _ _ _ _).
  intros (pr & _ & [= <-])%res_bind_Ok. simpl. eauto.
Qed.

Lemma assemble_loop_Ok s order views :
  assemble_loop w parent_dir sessions_root get_open_pr_ref s order = Ok views ->
  nv_node_id <$> views = order /\
  forall v, v ∈ views -> exists n, node s (nv_node_id v) = Some n /\ nv_parent_dep_ids v = sn_parents n.
Proof.
  revert views. induction order as [|id order IH]; simpl; intros views.
  { intros [= <-]. split; [done|set_solver]. }
  intros (v & Hv & H)%res_bind_Ok. apply res_bind_Ok in H as (vs & Hvs & [= <-]).
  apply assemble_view_Ok in Hv as [<- Hn]. apply IH in Hvs as [<- Hall]. split; [done|].
  intros u [->|Hu]%elem_of_cons; auto.
Qed.

Lemma assemble_views_ordered s views : stack_ok s -> assemble s = Ok views -> views_ordered views.
Proof.
  intros [_ Hd _]. unfold assemble_views. intros (order & Ho & Hl)%res_bind_Ok.
  apply topo_order_Ok_inv in Ho as [[Hperm Hsort] _]. apply assemble_loop_Ok in Hl as [<- Hall].
  intros l1 v l2 -> dep Hdep.
  destruct (Hall v) as (n & Hn & Hp); [set_solver|]. rewrite Hp in Hdep.
  apply find_node_Some in Hn as [Hn Hid].
  eapply Hsort; [by rewrite fmap_app, fmap_cons|]. exists n. split_and!; [done|done|done|].
  by apply (Hd n).
Qed.

Lemma find_view_self views v : v ∈ views -> find_view (nv_node_id v) views <> None.
Proof.
  intros Hv. destruct (find_view_app views [] (nv_node_id v)) as (o & Ho & _).
  - by apply list_elem_of_fmap_2.
  - rewrite app_nil_r in Ho. by rewrite Ho.
Qed.
End progress.

Lemma decide_live views autonomous approved :
  (forall v, v ∈ views -> failed_action v = None) -> (exists v, v ∈ views /\ is_merged v = false) ->
  decide_next_action views autonomous approved =
  match first_some (spawn_action views) views with
  | Some a => a
  | None => default waiting (first_some (merge_action views autonomous approved) views)
  end.
Proof.
  intros Hf (v & Hv & Hm). unfold decide_next_action. rewrite (proj2 (first_some_None _ _) Hf).
  destruct (bool_decide (views <> []) && forallb is_merged views) eqn:Hd; [|done].
  apply andb_true_iff in Hd as [_ Hd]. rewrite forallb_forall in Hd.
  rewrite (Hd v) in Hm; [done|]. by apply list_elem_of_In.
Qed.

Lemma first_some_is_Some {A B} (f : A -> option B) l x b :
  x ∈ l -> f x = Some b -> exists y c, y ∈ l /\ f y = Some c /\ first_some f l = Some c.
Proof.
  intros Hx Hf. destruct (first_some f l) as [c|] eqn:H.
  - apply first_some_Some in H as (y & Hy & Hc). eauto.
  - rewrite (proj1 (first_some_None _ _) H x Hx) in Hf. done.
Qed.

(** The orchestrator never stalls on a well-formed plan. With nothing failed and work
    left: while some node is unspawned a tick spawns one; and once every node has an
    open or merged pull request, a tick with autonomous merging merges one. *)
Theorem decide_next_action_progress `{YamlCodec} w parent_dir root gh s views approved :
  stack_ok s -> assemble_views w parent_dir root gh s = Ok views ->
  (forall v, v ∈ views -> failed_action v = None) -> (exists v, v ∈ views /\ is_merged v = false) ->
  ((exists v, v ∈ views /\ nv_child_phase v = NotSpawned) ->
     forall autonomous, exists id, decide_next_action views autonomous approved = Spawn [id]) /\
  ((forall v, v ∈ views -> nv_child_phase v <> NotSpawned /\
      (is_merged v = true \/ exists n b, nv_pr v = PrLiveOpen n b)) ->
     exists id n, decide_next_action views true approved = Merge id n).
Proof.
  intros Hok Ha Hf Hm. pose proof (assemble_views_ordered _ _ _ _ _ _ Hok Ha) as Hord. split.
  - intros (v0 & Hv0 & Hns) autonomous. rewrite decide_live by done.
    destruct (first_with views (fun v => nv_child_phase v = NotSpawned) v0 Hord Hv0 Hns)
      as (v & Hv & Hvn & Hdeps).
    assert (spawn_action views v = Some (Spawn [nv_node_id v])) as Hs.
    { unfold spawn_action. rewrite bool_decide_eq_true_2 by done. simpl.
      replace (deps_spawned views v) with true; [done|]. symmetry. apply deps_all.
      intros dep Hdep. destruct (Hdeps dep Hdep) as (o & ? & _ & ?). exists o.
      by rewrite bool_decide_eq_true. }
    destruct (first_some_is_Some _ _ _ _ Hv Hs) as (y & c & _ & Hc & ->).
    unfold spawn_action in Hc. destruct (_ && _) in Hc; [|done]. injection Hc as <-. by eexists.
  - intros Hall. rewrite decide_live by done.
    assert (first_some (spawn_action views) views = None) as ->.
    { apply first_some_None. intros v Hv. unfold spawn_action.
      rewrite bool_decide_eq_false_2; [done|]. by apply Hall. }
    destruct Hm as (v0 & Hv0 & Hm0).
    destruct (first_with views (fun v => is_merged v = false) v0 Hord Hv0 Hm0) as (v & Hv & Hvm & Hdeps).
    destruct (proj2 (Hall v Hv)) as [?|(n & b & Hpr)]; [congruence|].
    assert (merge_action views true approved v = Some (Merge (nv_node_id v) n)) as Hs.
    { unfold merge_action. rewrite Hpr. replace (deps_merged views v) with true; [done|].
      symmetry. apply deps_all. intros dep Hdep. destruct (Hdeps dep Hdep) as (o & ? & _ & Ho).
      exists o. split; [done|]. by destruct (is_merged o). }
    destruct (first_some_is_Some _ _ _ _ Hv Hs) as (y & c & _ & Hc & ->). simpl.
    unfold merge_action in Hc. destruct (nv_pr y) as [|m| | |]; try done.
    destruct (deps_merged views y); [|done]. simpl in Hc. injection Hc as <-. by eexists _, _.
Qed.

Lemma decide_next_action_witness :
  let s := mkStack 1 [a_node "n1" [] None; a_node "n2" ["n1"] None] in
  let views := [mkNodeView "n1" "" [] None None NotSpawned PrNone;
                mkNodeView "n2" "" ["n1"] None None NotSpawned PrNone] in
  @assemble_views (table_codec []) (mkDisk ∅ (fun _ => None)) "d" "r" (fun _ => inr None) s = Ok views /\
  exists id, decide_next_action views false ∅ = Spawn [id].
Proof.
  intros s views.
  assert (@assemble_views (table_codec []) (mkDisk ∅ (fun _ => None)) "d" "r" (fun _ => inr None) s
          = Ok views) as Ha by (vm_compute; reflexivity).
  split; [done|].
  apply (proj1 (@decide_next_action_progress (table_codec []) _ _ _ _ s views ∅ ltac:(by_decide) Ha
    ltac:(intros v Hv; case_list Hv; reflexivity)
    ltac:(exists (mkNodeView "n1" "" [] None None NotSpawned PrNone); split; [left|reflexivity]))).
  exists (mkNodeView "n1" "" [] None None NotSpawned PrNone). split; [left|done].
Defined.
