(* ===== verification/PullBase.v ===== *)
(** * Taking a base branch into a node's branch

    [src/packages/tddy-pr-stack/src/stack_ops/pull_base.rs], with
    [local_branch_name_for_remote] of [src/packages/tddy-git/src/refs.rs]. The git
    primitives are the class [WorktreeGit] over the repository's state: the reads are
    functions of it, the commands that change it are computations on it. *)

From S2P Require Import Prelude Text Stack Changeset StackNodes StackRepoint.

Local Open Scope io_scope.

Inductive BaseSyncStrategy := SyncMerge | SyncRebase.

#[global] Instance BaseSyncStrategy_eq_dec : EqDecision BaseSyncStrategy.
Proof. solve_decision. Defined.

(** [BaseSyncStrategy::from_wire] and [name]. *)
Definition strategy_from_wire (strategy : string) : BaseSyncStrategy :=
  if decide (trim strategy = "rebase") then SyncRebase else SyncMerge.

Definition strategy_name (s : BaseSyncStrategy) : string :=
  match s with SyncMerge => "merge" | SyncRebase => "rebase" end.

Record PullBaseReport := mkPullBaseReport {
  rep_strategy : string; rep_changed : bool; rep_head_sha : string; rep_pushed : bool;
  rep_push_error : option string }.

Inductive SyncOutcome :=
| AlreadyUpToDate
| Applied (sha : string)
| Conflicted (paths : list string).

(** The commands of git_ops.rs and tddy-git the pull runs; a worktree is its path. *)
Record WorktreeGit (X : Type) := mkWorktreeGit {
  g_default_remote : X -> option string;
  g_worktree_for_branch : X -> string -> option string;
  g_checked_out : X -> string -> string + option string;
  g_outstanding : X -> string -> WorkflowError + list string;
  g_ref_sha : X -> string -> string -> option string;
  g_head_sha : X -> string -> WorkflowError + string;
  g_commit_all_tracked : string -> string -> io X WorkflowError unit;
  g_fetch_ref : string -> string -> string -> io X WorkflowError unit;
  g_merge_ref : string -> string -> io X WorkflowError SyncOutcome;
  g_rebase_ref : string -> string -> io X WorkflowError SyncOutcome;
  g_push_branch : string -> string -> string -> io X WorkflowError unit;
  g_force_push_with_lease : string -> string -> string -> string -> io X WorkflowError unit }.
Arguments g_default_remote {X} _.
Arguments g_worktree_for_branch {X} _.
Arguments g_checked_out {X} _.
Arguments g_outstanding {X} _.
Arguments g_ref_sha {X} _.
Arguments g_head_sha {X} _.
Arguments g_commit_all_tracked {X} _.
Arguments g_fetch_ref {X} _.
Arguments g_merge_ref {X} _.
Arguments g_rebase_ref {X} _.
Arguments g_push_branch {X} _.
Arguments g_force_push_with_lease {X} _.

Definition local_branch_name_for_remote (reference remote : string) : string :=
  let reference := trim reference in
  default reference (strip_prefix (remote +:+ "/") reference).

Section pull.
Context {yaml : YamlCodec} {X : Type} (git : WorktreeGit X).
Notation OP := "pull_base_into_node_branch".

Definition gets {E A} (f : X -> A) : io X E A := fun x => (Ok (f x), x).

Definition commit_outstanding_work (op worktree remote branch commit_message : string)
  : io X string unit :=
  let commit_message := trim commit_message in
  if decide (commit_message = "") then
    io_lift (Err (op +:+ ": committing the outstanding changes in '" +:+ branch
      +:+ "' first needs a commit message"))
  else
    io_map_err (failed op ("could not commit the outstanding changes in '" +:+ branch +:+ "'"))
      (g_commit_all_tracked git worktree commit_message);;
    io_map_err (failed op ("the outstanding changes in '" +:+ branch
        +:+ "' were committed but could not be pushed"))
      (g_push_branch git worktree remote branch).

(** The worktree the pull may touch: the one that has this very branch checked out. *)
Definition node_worktree (x : X) (branch base_branch : string) : res string string :=
  let? worktree := ok_or (g_worktree_for_branch git x branch)
    (OP +:+ ": branch '" +:+ branch +:+ "' has no worktree checked out, so there is nowhere to pull '"
      +:+ base_branch +:+ "' into — start or resume the session that owns it first") in
  match g_checked_out git x worktree with
  | inl e => Err (OP +:+ ": could not read what '" +:+ worktree +:+ "' has checked out: " +:+ e)
  | inr checked_out =>
      if decide (checked_out = Some branch) then Ok worktree
      else Err (OP +:+ ": the worktree found for '" +:+ branch +:+ "' (" +:+ worktree +:+ ") has '"
        +:+ default "a detached HEAD" checked_out +:+ "' checked out, not '" +:+ branch
        +:+ "' — pulling '" +:+ base_branch
        +:+ "' there would move the wrong branch; start or resume the session that owns '"
        +:+ branch +:+ "' first")
  end.

Definition join_paths (paths : list string) : string :=
  match paths with [] => "" | p :: ps => foldl (fun acc q => acc +:+ ", " +:+ q) p ps end.

(** The dirty-worktree gate, before anything touches git state. *)
Definition settle_worktree (worktree remote branch dirty_worktree_action commit_message : string)
  : io X string unit :=
  let! outstanding := gets (fun x => g_outstanding git x worktree) in
  match outstanding with
  | inl e => io_lift (Err (failed OP ("could not read the state of '" +:+ branch +:+ "'") e))
  | inr [] => io_ret ()
  | inr paths =>
      if decide (trim dirty_worktree_action <> "commit") then
        io_lift (Err (OP +:+ ": the worktree for '" +:+ branch +:+ "' has uncommitted changes to "
          +:+ join_paths paths
          +:+ " — commit them, or re-run asking for them to be committed first"))
      else commit_outstanding_work OP worktree remote branch commit_message
  end.

(** The fetch, the merge or rebase, and the push. *)
Definition take_base (worktree remote branch base_branch : string) (strategy : BaseSyncStrategy)
  : io X string PullBaseReport :=
  io_map_err (failed OP ("could not fetch '" +:+ base_branch +:+ "' from '" +:+ remote +:+ "'"))
    (g_fetch_ref git worktree remote base_branch);;
  let base_ref := remote +:+ "/" +:+ base_branch in
  let! base_sha := gets (fun x => g_ref_sha git x worktree base_ref) in
  match base_sha with
  | None => io_lift (Err (OP +:+ ": '" +:+ base_ref +:+ "' names no commit after fetching from '"
              +:+ remote +:+ "', so '" +:+ branch +:+ "' has no base to take"))
  | Some _ =>
      let! lease_sha := gets (fun x =>
        match strategy with
        | SyncRebase => g_ref_sha git x worktree ("refs/remotes/" +:+ remote +:+ "/" +:+ branch)
        | SyncMerge => None
        end) in
      let! outcome := io_map_err (failed OP ("could not " +:+ strategy_name strategy +:+ " '" +:+ base_ref
                                    +:+ "' into '" +:+ branch +:+ "'"))
        (match strategy with
         | SyncMerge => g_merge_ref git worktree base_ref
         | SyncRebase => g_rebase_ref git worktree base_ref
         end) in
      match outcome with
      | Conflicted paths =>
          io_lift (Err (OP +:+ ": '" +:+ branch +:+ "' conflicts with '" +:+ base_ref +:+ "' in "
            +:+ join_paths paths +:+ " — resolve them in the worktree (the " +:+ strategy_name strategy
            +:+ " was aborted and nothing was left half-applied)"))
      | AlreadyUpToDate =>
          let! head := gets (fun x => g_head_sha git x worktree) in
          match head with
          | inl e => io_lift (Err (failed OP ("could not read the tip of '" +:+ branch +:+ "'") e))
          | inr sha => io_ret (mkPullBaseReport (strategy_name strategy) false sha false None)
          end
      | Applied sha =>
          let! push := io_catch (match lease_sha with
                                 | Some lease => g_force_push_with_lease git worktree remote branch lease
                                 | None => g_push_branch git worktree remote branch
                                 end) in
          let push_error := match push with inl e => Some (WorkflowError_display e) | inr _ => None end in
          io_ret (mkPullBaseReport (strategy_name strategy) true sha
                    (bool_decide (push_error = None)) push_error)
      end
  end.

Definition pull_base_into_node_branch (dir node_id base_branch : string) (strategy : BaseSyncStrategy)
    (dirty_worktree_action commit_message : string) : io (world X) string PullBaseReport :=
  let base_branch := trim base_branch in
  if decide (base_branch = "") then
    io_lift (Err (OP +:+ ": node '" +:+ node_id +:+ "' was given no base branch to pull from"))
  else
    let! cs := io_map_err (failed OP "failed to read changeset") (on_disk (read_changeset dir)) in
    let! n := io_lift (ok_or (node (default Stack_default (cs_stack cs)) node_id)
                (OP +:+ ": node '" +:+ node_id +:+ "' not found")) in
    let! branch := io_lift (ok_or (sn_branch n)
      (OP +:+ ": node '" +:+ node_id +:+ "' owns no branch yet, so there is nothing to pull '"
        +:+ base_branch +:+ "' into — start its session first")) in
    let! remote := ask (fun x => default "origin" (g_default_remote git x)) in
    let base_branch := local_branch_name_for_remote base_branch remote in
    let! found := ask (fun x => node_worktree x branch base_branch) in
    let! worktree := io_lift found in
    on_ext (settle_worktree worktree remote branch dirty_worktree_action commit_message);;
    on_ext (take_base worktree remote branch base_branch strategy).
End pull.

(** ** Safety of the order of the checks *)

(** What has to hold before a pull may touch the repository. *)
Definition pull_gate {yaml : YamlCodec} {X} (git : WorktreeGit X) (w : world X)
    (dir node_id base_branch dirty_worktree_action : string) : Prop :=
  trim base_branch <> "" /\
  exists cs n branch worktree,
    stored (w_disk w) dir = Some cs /\ node (default Stack_default (cs_stack cs)) node_id = Some n /\
    sn_branch n = Some branch /\ g_worktree_for_branch git (w_ext w) branch = Some worktree /\
    g_checked_out git (w_ext w) worktree = inr (Some branch) /\
    exists paths, g_outstanding git (w_ext w) worktree = inr paths /\
      (paths = [] \/ trim dirty_worktree_action = "commit").

Lemma node_worktree_Ok {X} (git : WorktreeGit X) x branch base wt :
  node_worktree git x branch base = Ok wt ->
  g_worktree_for_branch git x branch = Some wt /\ g_checked_out git x wt = inr (Some branch).
Proof.
  unfold node_worktree. intros (w & Hw%ok_or_Ok & H)%res_bind_Ok.
  destruct (g_checked_out git x w) eqn:Hc; [done|]. case_decide; [|done]. injection H as <-. by subst.
Qed.

Lemma node_worktree_no_panic {X} (git : WorktreeGit X) x branch base :
  node_worktree git x branch base <> Panic.
Proof.
  unfold node_worktree. destruct (g_worktree_for_branch git x branch); simpl; [|done].
  destruct (g_checked_out git x _); [done|]. by case_decide.
Qed.

Lemma settle_worktree_gate {X} (git : WorktreeGit X) wt remote branch action msg x :
  (exists paths, g_outstanding git x wt = inr paths /\ (paths = [] \/ trim action = "commit")) \/
  exists e, settle_worktree git wt remote branch action msg x = (Err e, x).
Proof.
  unfold settle_worktree, io_bind, gets. destruct (g_outstanding git x wt) as [e|[|p ps]].
  - right. by eexists.
  - left. by exists []; auto.
  - case_decide as Ha; [right; by eexists|]. left. exists (p :: ps). split; [done|]. right. exact Ha.
Qed.

Section gate.
Context {yaml : YamlCodec} {X : Type} (git : WorktreeGit X).

Lemma on_ext_disk {E A} (m : io X E A) (w : world X) : w_disk (on_ext m w).2 = w_disk w.
Proof. unfold on_ext. by destruct (m (w_ext w)). Qed.

Lemma on_ext_bind_disk {E A B} (m : io X E A) (m' : io X E B) (w : world X) :
  w_disk (io_bind (on_ext m) (fun _ => on_ext m') w).2 = w_disk w.
Proof.
  unfold io_bind. pose proof (on_ext_disk m w) as H. destruct (on_ext m w) as [[a|e|] w1]; simpl in *; [|done..].
  by rewrite on_ext_disk.
Qed.

Lemma pull_phases w dir node_id base_branch strategy action msg :
  (exists e, pull_base_into_node_branch git dir node_id base_branch strategy action msg w = (Err e, w)) \/
  exists cs n branch wt remote base,
    trim base_branch <> "" /\ stored (w_disk w) dir = Some cs /\
    node (default Stack_default (cs_stack cs)) node_id = Some n /\ sn_branch n = Some branch /\
    node_worktree git (w_ext w) branch base = Ok wt /\
    pull_base_into_node_branch git dir node_id base_branch strategy action msg w
    = io_bind (on_ext (settle_worktree git wt remote branch action msg))
        (fun _ => on_ext (take_base git wt remote branch base strategy)) w.
Proof.
  unfold pull_base_into_node_branch. case_decide as Hbase; [left; by eexists|].
  destruct w as [d x]. cbn [w_disk w_ext].
  pose proof (read_changeset_pure dir d) as Hp. pose proof (read_changeset_no_panic dir d) as Hnp.
  destruct (read_changeset dir d) as [[cs|e|] d1] eqn:Hr; simpl in Hp, Hnp; subst d1; [| |done].
  2: { left. eexists. unfold io_bind, io_map_err, on_disk. cbn [w_disk w_ext]. by rewrite Hr. }
  destruct (node (default Stack_default (cs_stack cs)) node_id) as [n|] eqn:Hn.
  2: { left. eexists. unfold io_bind, io_map_err, on_disk, io_lift. cbn [w_disk w_ext]. rewrite Hr. simpl. by rewrite Hn. }
  destruct (sn_branch n) as [branch|] eqn:Hb.
  2: { left. eexists. unfold io_bind, io_map_err, on_disk, io_lift. cbn [w_disk w_ext].
       rewrite Hr. simpl. rewrite Hn. simpl. by rewrite Hb. }
  set (remote := default "origin" (g_default_remote git x)).
  set (base := local_branch_name_for_remote (trim base_branch) remote).
  pose proof (node_worktree_no_panic git x branch base) as Hwp.
  destruct (node_worktree git x branch base) as [wt|e|] eqn:Hw; [right|left; exists e|done].
  - exists cs, n, branch, wt, remote, base. split_and!; try done; [by apply stored_read|].
    unfold io_bind, io_map_err, on_disk, io_lift, ask. cbn [w_disk w_ext].
    rewrite Hr. simpl. rewrite Hn. simpl. rewrite Hb. simpl. fold remote. fold base. by rewrite Hw.
  - unfold io_bind, io_map_err, on_disk, io_lift, ask. cbn [w_disk w_ext].
    rewrite Hr. simpl. rewrite Hn. simpl. rewrite Hb. simpl. fold remote. fold base. by rewrite Hw.
Qed.

(** A pull refuses before it touches anything: whenever the base is blank, the node is
    unknown or branchless, no worktree has exactly its branch checked out, or the
    worktree is dirty and committing was not asked for, the answer is an error and the
    repository and the plan are exactly as they were. The plan is never written. *)
Theorem pull_base_refuses_first w dir node_id base_branch strategy action msg :
  w_disk (pull_base_into_node_branch git dir node_id base_branch strategy action msg w).2 = w_disk w /\
  (pull_gate git w dir node_id base_branch action \/
   exists e, pull_base_into_node_branch git dir node_id base_branch strategy action msg w = (Err e, w)).
Proof.
  destruct (pull_phases w dir node_id base_branch strategy action msg)
    as [[e ->]|(cs & n & branch & wt & remote & base & Hb & Hcs & Hn & Hbr & Hw & ->)].
  { split; [done|]. right. by eexists. }
  split; [apply on_ext_bind_disk|].
  destruct (settle_worktree_gate git wt remote branch action msg (w_ext w)) as [Hg|[e He]].
  - left. apply node_worktree_Ok in Hw as [Hw1 Hw2]. split; [done|]. by exists cs, n, branch, wt.
  - right. exists e. unfold io_bind, on_ext. rewrite He. by destruct w.
Qed.

(** The same repository with another force-push. *)
Definition with_force_push (fp : string -> string -> string -> string -> io X WorkflowError unit)
  : WorktreeGit X :=
  mkWorktreeGit X (g_default_remote git) (g_worktree_for_branch git) (g_checked_out git)
    (g_outstanding git) (g_ref_sha git) (g_head_sha git) (g_commit_all_tracked git)
    (g_fetch_ref git) (g_merge_ref git) (g_rebase_ref git) (g_push_branch git) fp.

(** A pull force-pushes only to rebase, and only under a lease that is the sha this
    clone holds for that very remote branch: its outcome is the same for any two
    force-push behaviours when it merges, and for any two that agree under such leases
    when it rebases. *)
Theorem pull_forces_only_under_lease fp fp' w dir node_id base_branch strategy action msg :
  strategy = SyncMerge \/
  (forall wt remote branch lease x,
     g_ref_sha git x wt ("refs/remotes/" +:+ remote +:+ "/" +:+ branch) = Some lease ->
     fp wt remote branch lease = fp' wt remote branch lease) ->
  pull_base_into_node_branch (with_force_push fp) dir node_id base_branch strategy action msg w
  = pull_base_into_node_branch (with_force_push fp') dir node_id base_branch strategy action msg w.
Proof.
  intros [->|Hfp]; [reflexivity|].
  assert (forall wt remote branch base x,
    take_base (with_force_push fp) wt remote branch base strategy x
    = take_base (with_force_push fp') wt remote branch base strategy x) as Htake.
  { intros wt remote branch base x. destruct strategy; [reflexivity|].
    unfold take_base, io_bind, io_map_err, gets. cbn [g_fetch_ref g_ref_sha g_rebase_ref with_force_push].
    destruct (g_fetch_ref git wt remote base x) as [[]x1]; simpl; [|done..].
    destruct (g_ref_sha git x1 wt (remote +:+ "/" +:+ base)); [|done].
    destruct (g_ref_sha git x1 wt ("refs/remotes/" +:+ remote +:+ "/" +:+ branch)) eqn:Hl; [|done].
    destruct (g_rebase_ref git wt _ x1) as [[[]| |] x2]; simpl; [done| |done..].
    unfold io_catch. cbn [g_force_push_with_lease with_force_push]. by rewrite (Hfp _ _ _ _ _ Hl). }
  unfold pull_base_into_node_branch. case_decide; [done|].
  do 6 (apply io_bind_ext; intros ? ?). apply io_bind_ext. intros _ v.
  unfold on_ext. by rewrite Htake.
Qed.
End gate.

(** A repository with one branch, checked out clean and already holding its base. *)
Definition a_repository : WorktreeGit nat := {|
  g_default_remote _ := Some "origin";
  g_worktree_for_branch _ b := if decide (b = "feature") then Some "wt" else None;
  g_checked_out _ _ := inr (Some "feature");
  g_outstanding _ _ := inr [];
  g_ref_sha _ _ _ := Some "c1";
  g_head_sha _ _ := inr "c2";
  g_commit_all_tracked _ _ := io_ret ();
  g_fetch_ref _ _ _ := io_ret ();
  g_merge_ref _ _ := io_ret (Applied "c3");
  g_rebase_ref _ _ := io_ret (Applied "c4");
  g_push_branch _ _ _ := io_ret ();
  g_force_push_with_lease _ _ _ _ := io_ret () |}.

(** A force-push that refuses every lease but ["c1"] makes no difference to it. *)
Lemma pull_forces_only_under_lease_witness :
  let fp (_ _ _ lease : string) : io nat WorkflowError unit :=
    if decide (lease = "c1") then io_ret () else io_lift (Err (WriteFailed "stale info")) in
  let cs := set_stack (Changeset_default "t0") (Some (mkStack 1
              [mkStackNode "n1" "" "" None (Some "feature") None [] None None None None])) in
  let w := mkWorld (mkDisk {["d/changeset.yaml" := Text ""]} (fun _ => None)) 0 in
  @pull_base_into_node_branch (table_codec [cs]) nat (with_force_push a_repository fp) "d" "n1" "main" SyncRebase "" "" w
  = (Ok (mkPullBaseReport "rebase" true "c4" true None), w).
Proof.
  intros fp cs w.
  rewrite (@pull_forces_only_under_lease (table_codec [cs]) nat a_repository fp (fun _ _ _ _ => io_ret ())).
  - vm_compute. reflexivity.
  - right. intros wt remote branch lease x [= <-]. reflexivity.
Defined.
