(* ===== verification/Graph.v ===== *)
(** * Workflow graphs and the flow runner

    [src/packages/tddy-graph/src/]: the context ([context.rs]), tasks and next actions
    ([task.rs]), graphs and their builder ([graph.rs]), sessions and their storage
    ([session.rs]), the runner's hooks ([hooks.rs]) and [FlowRunner::run] ([runner.rs]).

    A [Context] is a handle on one shared map: the context a task or hook receives is
    the very map the session is saved with. The runner's state therefore holds that
    map once, next to the world [W] that tasks, hooks and storage act on. *)

From S2P Require Import Prelude.

Local Open Scope io_scope.

(** ** Context (context.rs) *)

(** [serde_json::Value]; a float is its bit pattern. *)
Inductive json :=
| JNull
| JBool (b : bool)
| JInt (z : Z)
| JFloat (bits : N)
| JString (s : string)
| JArray (l : list json)
| JObject (l : list (string * json)).

Definition context : Type := gmap string json.

(** [get_sync::<T>], by the type asked for. *)
Definition as_string (v : json) : option string := match v with JString s => Some s | _ => None end.
Definition as_bool (v : json) : option bool := match v with JBool b => Some b | _ => None end.

Definition get_string (ctx : context) (key : string) : option string := ctx !! key ≫= as_string.
Definition get_bool (ctx : context) (key : string) : option bool := ctx !! key ≫= as_bool.

(** [set_sync], [remove_sync], [merge_json_object_sync]. *)
Definition set_sync (key : string) (v : json) (ctx : context) : context := <[key := v]> ctx.
Definition remove_sync (key : string) (ctx : context) : context := delete key ctx.
Definition merge_json_object_sync (m : list (string * json)) (ctx : context) : context :=
  foldl (fun c kv => <[kv.1 := kv.2]> c) ctx m.

(** ** Tasks (task.rs) *)

Inductive NextAction :=
| Continue
| ContinueAndExecute
| WaitForInput
| End
| GoTo (id : string)
| GoBack.

Record TaskResult := mkTaskResult {
  tr_response : string; tr_next_action : NextAction; tr_task_id : string;
  tr_status_message : option string }.

Section graph.
Context {W : Type}.

(** A task runs on the shared context and the world, and may fail. *)
Record Task := mkTask { task_id : string; task_run : io (context * W) string TaskResult }.

Definition EchoTask (id : string) : Task := mkTask id (fun '(ctx, w) =>
  let response := default "no input" (get_string ctx "input") in
  (Ok (mkTaskResult response Continue id (Some response)), (ctx, w))).

Definition FailingTask (id : string) : Task := mkTask id (fun st =>
  (Err "FailingTask always fails", st)).

Definition EndTask (id : string) : Task := mkTask id (fun st =>
  (Ok (mkTaskResult "Workflow complete." End id (Some "Complete.")), st)).

Definition WaitingTask (id : string) : Task := mkTask id (fun st =>
  (Ok (mkTaskResult "" WaitForInput id (Some "Waiting.")), st)).

(** ** Graphs (graph.rs) *)

Record ConditionalEdge := mkConditionalEdge {
  ce_from : string; ce_condition : context -> bool; ce_when_true : string; ce_when_false : string }.

Record Graph := mkGraph {
  g_id : string; g_tasks : list (string * Task); g_edges : list (string * string);
  g_conditional_edges : list ConditionalEdge }.

(** [IndexMap::insert]: a known key keeps its place. *)
Fixpoint index_insert (k : string) (t : Task) (l : list (string * Task)) : list (string * Task) :=
  match l with
  | [] => [(k, t)]
  | e :: l' => if decide (e.1 = k) then (k, t) :: l' else e :: index_insert k t l'
  end.

Fixpoint index_get (k : string) (l : list (string * Task)) : option Task :=
  match l with
  | [] => None
  | e :: l' => if decide (e.1 = k) then Some e.2 else index_get k l'
  end.

Definition graph_new (id : string) : Graph := mkGraph id [] [] [].
Definition add_task (g : Graph) (t : Task) : Graph :=
  mkGraph (g_id g) (index_insert (task_id t) t (g_tasks g)) (g_edges g) (g_conditional_edges g).
Definition add_edge (g : Graph) (from to : string) : Graph :=
  mkGraph (g_id g) (g_tasks g) (g_edges g ++ [(from, to)]) (g_conditional_edges g).
Definition add_conditional_edge (g : Graph) (from : string) (condition : context -> bool)
    (when_true when_false : string) : Graph :=
  mkGraph (g_id g) (g_tasks g) (g_edges g)
    (g_conditional_edges g ++ [mkConditionalEdge from condition when_true when_false]).

Definition task_ids (g : Graph) : list string := fst <$> g_tasks g.
Definition get_task (g : Graph) (id : string) : option Task := index_get id (g_tasks g).
Definition contains_task (g : Graph) (id : string) : bool := bool_decide (is_Some (get_task g id)).

(** The conditional edges first, and the first of them decides. *)
Definition next_task_id (g : Graph) (from : string) (ctx : context) : option string :=
  match list_find (fun ce => ce_from ce = from) (g_conditional_edges g) with
  | Some (_, ce) =>
      let next := if ce_condition ce ctx then ce_when_true ce else ce_when_false ce in
      if contains_task g next then Some next else None
  | None => (fun e => e.2.2) <$> list_find (fun e => e.1 = from) (g_edges g)
  end.

(** The [push] closure of [successors]. *)
Definition push_successor (g : Graph) (out : list string) (t : string) : list string :=
  if contains_task g t && negb (bool_decide (t ∈ out)) then out ++ [t] else out.

Definition conditional_targets (g : Graph) (from : string) : list string :=
  filter (fun ce => ce_from ce = from) (g_conditional_edges g)
    ≫= fun ce => [ce_when_true ce; ce_when_false ce].

Definition static_targets (g : Graph) (from : string) : list string :=
  snd <$> filter (fun e => e.1 = from) (g_edges g).

Definition successors (g : Graph) (from : string) : list string :=
  foldl (push_successor g) [] (conditional_targets g from ++ static_targets g from).

(** ** Sessions and their storage (session.rs) *)

Record Session := mkSession {
  s_id : string; s_graph_id : string; s_current_task_id : string;
  s_status_message : option string; s_context : context }.

Definition Session_new_from_task (id graph_id task_id : string) : Session :=
  mkSession id graph_id task_id None ∅.
End graph.
Arguments Task : clear implicits.
Arguments Graph : clear implicits.

(** The [SessionStorage] trait, and what the runner may rely on. *)
Class SessionStorage (W : Type) := {
  storage_save : Session -> io W string unit;
  storage_get : string -> io W string (option Session);
  storage_delete : string -> io W string unit;
  storage_get_pure : forall id w, (storage_get id w).2 = w;
  storage_get_save : forall s w w', storage_save s w = (Ok (), w') ->
    storage_get (s_id s) w' = (Ok (Some s), w') }.

(** ** The runner (hooks.rs, runner.rs) *)

Inductive ElicitationEvent :=
| DocumentApproval (content : string)
| WorktreeConfirmation (suggested_branch suggested_worktree : string).

Inductive ExecutionStatus :=
| Paused (message : option string)
| WaitingForInput (message : option string)
| ElicitationNeeded (event : ElicitationEvent)
| Completed
| StatusError (message : string).

Record ExecutionResult := mkExecutionResult {
  er_status : ExecutionStatus; er_session_id : string; er_current_task_id : option string }.

Record RunnerHooks (W : Type) := mkRunnerHooks {
  on_enter_task : string -> context * W -> context * W;
  on_exit_task : string -> context * W -> context * W;
  before_task : string -> io (context * W) string unit;
  after_task : string -> TaskResult -> io (context * W) string unit;
  elicitation_after_task : string -> TaskResult -> context * W -> option ElicitationEvent * (context * W);
  on_error : string -> string -> context * W -> context * W }.
Arguments mkRunnerHooks {W}.
Arguments on_enter_task {W} _.
Arguments on_exit_task {W} _.
Arguments before_task {W} _.
Arguments after_task {W} _.
Arguments elicitation_after_task {W} _.
Arguments on_error {W} _.

(** What the runner called, in order: the history of a run. *)
Inductive call :=
| CBefore (task : string)
| CEnter (task : string)
| CRun (task : string)
| CExit (task : string)
| CError (task : string)
| CAfter (task : string)
| CElicit (task : string)
| CSave (s : Session).

Section runner.
Context {W : Type} `{!SessionStorage W} (graph : Graph W) (hooks : option (RunnerHooks W)).

(** The runner's state: the shared context, the world, the history. *)
Abbreviation rstate := (context * W * list call)%type.

Definition logged {A} (c : call) (m : io (context * W) string A) : io rstate string A :=
  fun '(st, log) => let '(r, st') := m st in (r, (st', log ++ [c])).

(** A hook call, when there are hooks. *)
Definition hooked {A} (c : call) (dflt : A) (f : RunnerHooks W -> io (context * W) string A)
  : io rstate string A :=
  match hooks with Some h => logged c (f h) | None => io_ret dflt end.

Definition total {A} (f : context * W -> context * W) (a : A) : io (context * W) string A :=
  fun st => (Ok a, f st).

Definition get_session (id : string) : io rstate string (option Session) :=
  fun '(ctx, w, log) => let '(r, w') := storage_get id w in (r, (ctx, w', log)).

(** [storage.save(&session)]: the session's context is the shared one. *)
Definition save_session (s : Session) : io rstate string unit :=
  fun '(ctx, w, log) =>
    let s := mkSession (s_id s) (s_graph_id s) (s_current_task_id s) (s_status_message s) ctx in
    let '(r, w') := storage_save s w in (r, (ctx, w', log ++ [CSave s])).

(** [let ctx = session.context.clone()] with the two engine keys. *)
Definition enter_context (s : Session) : io rstate string unit :=
  fun '(_, w, log) =>
    (Ok (), (set_sync "workflow_engine_current_task_id" (JString (s_current_task_id s))
               (set_sync "workflow_engine_graph_id" (JString (s_graph_id s)) (s_context s)), w, log)).

Definition set_status (s : Session) (m : option string) : Session :=
  mkSession (s_id s) (s_graph_id s) (s_current_task_id s) m (s_context s).
Definition move_to (s : Session) (task : string) (m : option string) : Session :=
  mkSession (s_id s) (s_graph_id s) task m (s_context s).

(** The task with its hooks around it; [on_exit_task] on both outcomes. *)
Definition run_task (task : Task W) (current : string) : io rstate string TaskResult :=
  hooked (CBefore current) () (fun h => before_task h current);;
  hooked (CEnter current) () (fun h => total (on_enter_task h current) ());;
  let! outcome := io_catch (logged (CRun current) (task_run task)) in
  hooked (CExit current) () (fun h => total (on_exit_task h current) ());;
  match outcome with
  | inr r => io_ret r
  | inl e =>
      hooked (CError current) () (fun h => total (on_error h current e) ());;
      io_lift (Err e)
  end.

Definition call_after (current : string) (r : TaskResult) : io rstate string unit :=
  hooked (CAfter current) () (fun h => after_task h current r).

(** The end of a step that stays where it is. *)
Definition stay (session : Session) (r : TaskResult) (session_id : string)
  : io rstate string ExecutionResult :=
  save_session (set_status session (tr_status_message r));;
  io_ret (mkExecutionResult (WaitingForInput (tr_status_message r)) session_id
            (Some (s_current_task_id session))).

(** The end of a step that moves on. *)
Definition advance (session : Session) (r : TaskResult) (session_id next : string)
  : io rstate string ExecutionResult :=
  let current := s_current_task_id session in
  call_after current r;;
  let! elicitation := hooked (CElicit current) None (fun h st =>
    let '(e, st') := elicitation_after_task h current r st in (Ok e, st')) in
  save_session (move_to session next (tr_status_message r));;
  io_ret (mkExecutionResult
    (match elicitation with
     | Some event => ElicitationNeeded event
     | None => Paused (Some "Step complete")
     end) session_id (Some next)).

Definition FlowRunner_run (session_id : string) : io rstate string ExecutionResult :=
  let! found := get_session session_id in
  let! session := io_lift (ok_or found "Session not found") in
  let current := s_current_task_id session in
  let! task := io_lift (ok_or (get_task graph current) "Task not found") in
  enter_context session;;
  let! r := run_task task current in
  match tr_next_action r with
  | WaitForInput => stay session r session_id
  | End =>
      call_after current r;;
      save_session (set_status session (tr_status_message r));;
      io_ret (mkExecutionResult Completed session_id None)
  | Continue | ContinueAndExecute => fun '(ctx, w, log) =>
      match next_task_id graph current ctx with
      | Some next => advance session r session_id next (ctx, w, log)
      | None => stay session r session_id (ctx, w, log)
      end
  | GoTo id => advance session r session_id id
  | GoBack => io_lift (Err "GoBack not implemented")
  end.
End runner.
