(* ===== verification/GraphSpec.v ===== *)
(** * What graphs and the flow runner promise

    Edges against [successors] and [next_task_id]; the order of the runner's calls on
    every path; what a finished step leaves in storage. *)

From S2P Require Import Prelude Graph.

Local Open Scope io_scope.

(** ** Edges *)

Section edges.
Context {W : Type} (g : Graph W).

(** [to] is named by an edge out of [from]: a static one, or a branch of a conditional. *)
Definition edge_target (from to : string) : Prop :=
  (from, to) ∈ g_edges g \/
  exists ce, ce ∈ g_conditional_edges g /\ ce_from ce = from /\
    (to = ce_when_true ce \/ to = ce_when_false ce).

Lemma push_successors_elem l out x :
  x ∈ foldl (push_successor g) out l <-> x ∈ out \/ (x ∈ l /\ contains_task g x = true).
Proof.
  revert out. induction l as [|t l IH]; intros out; simpl; [set_solver|].
  rewrite IH. unfold push_successor. destruct (contains_task g t) eqn:Ht; simpl.
  - case_bool_decide as Hin; simpl; rewrite ?elem_of_app, ?list_elem_of_singleton, elem_of_cons;
      naive_solver.
  - rewrite elem_of_cons. naive_solver congruence.
Qed.

Lemma push_successors_NoDup l out : NoDup out -> NoDup (foldl (push_successor g) out l).
Proof.
  revert out. induction l as [|t l IH]; intros out Hnd; simpl; [done|]. apply IH.
  unfold push_successor. destruct (contains_task g t); simpl; [|done].
  case_bool_decide; simpl; [done|]. apply NoDup_app. split; [done|].
  split; [set_solver|apply NoDup_singleton].
Qed.

Lemma successors_spec from x :
  x ∈ successors g from <-> edge_target from x /\ contains_task g x = true.
Proof.
  unfold successors. rewrite push_successors_elem.
  assert (x ∈ conditional_targets g from ++ static_targets g from <-> edge_target from x) as ->.
  { unfold edge_target, conditional_targets, static_targets.
    rewrite elem_of_app, list_elem_of_bind, list_elem_of_fmap.
    setoid_rewrite list_elem_of_filter. split.
    - intros [(ce & Hx & Hf & Hce)|([a b] & -> & Ha & Hin)]; simpl in *.
      + right. exists ce. set_solver.
      + left. by subst.
    - intros [Hin|(ce & Hce & Hf & Hx)]; [right; by exists (from, x)|left; exists ce; set_solver]. }
  set_solver.
Qed.

Lemma next_task_id_edge from ctx t : next_task_id g from ctx = Some t -> edge_target from t.
Proof.
  unfold next_task_id, edge_target.
  destruct (list_find _ (g_conditional_edges g)) as [[i ce]|] eqn:Hc.
  - apply list_find_Some in Hc as (Hi & Hf & _). case_match; [|done]. intros [= <-]. right.
    exists ce. split; [by eapply list_elem_of_lookup_2|]. split; [done|]. case_match; auto.
  - destruct (list_find _ (g_edges g)) as [[i [a b]]|] eqn:He; [|done]. simpl. intros [= <-].
    apply list_find_Some in He as (Hi & Hf & _). simpl in Hf. subst. left.
    by eapply list_elem_of_lookup_2.
Qed.

(** [successors] is exactly the set of tasks one edge away, each once: every static
    target and both branches of every conditional that are tasks. Wherever the engine
    path ([next_task_id]) can go to a task, the agent-driven path may go too. *)
Theorem successors_correct from :
  NoDup (successors g from) /\
  (forall x, x ∈ successors g from <-> edge_target from x /\ contains_task g x = true) /\
  (forall ctx t, next_task_id g from ctx = Some t -> contains_task g t = true -> t ∈ successors g from).
Proof.
  split; [apply push_successors_NoDup; constructor|]. split; [apply successors_spec|].
  intros ctx t Ht Hc. apply successors_spec. split; [by eapply next_task_id_edge|done].
Qed.
End edges.

(** The two differ on a dangling static edge: [next_task_id] follows it. *)
Example next_task_id_dangling :
  let g := add_edge (add_task (@graph_new unit "g") (EchoTask "a")) "a" "ghost" in
  next_task_id g "a" ∅ = Some "ghost" /\ successors g "a" = [].
Proof. split; vm_compute; reflexivity. Qed.

(** ** The runner's calls *)

(** The calls of a run at task [t] with hooks, and the answer they go with. *)
Inductive history (t : string) : res string ExecutionResult -> list call -> Prop :=
| h_not_started r : (forall er, r <> Ok er) -> history t r []
| h_not_entered r : (forall er, r <> Ok er) -> history t r [CBefore t]
| h_panicked : history t Panic [CBefore t; CEnter t; CRun t]
| h_failed e : history t (Err e) [CBefore t; CEnter t; CRun t; CExit t; CError t]
| h_refused e : history t (Err e) [CBefore t; CEnter t; CRun t; CExit t]
| h_after r : (forall er, r <> Ok er) ->
    history t r [CBefore t; CEnter t; CRun t; CExit t; CAfter t]
| h_waited r s : s_current_task_id s = t ->
    (forall er, r = Ok er -> exists m, er_status er = WaitingForInput m) ->
    history t r [CBefore t; CEnter t; CRun t; CExit t; CSave s]
| h_completed r s : s_current_task_id s = t ->
    (forall er, r = Ok er -> er_status er = Completed) ->
    history t r [CBefore t; CEnter t; CRun t; CExit t; CAfter t; CSave s]
| h_advanced r s :
    (forall er, r = Ok er -> er_current_task_id er = Some (s_current_task_id s) /\
       ((exists m, er_status er = Paused m) \/ exists ev, er_status er = ElicitationNeeded ev)) ->
    history t r [CBefore t; CEnter t; CRun t; CExit t; CAfter t; CElicit t; CSave s].

Section calls.
Context {W : Type} `{!SessionStorage W} (graph : Graph W) (h : RunnerHooks W).

(** The calls around a task. *)
Lemma run_task_calls task t st log :
  let '(r, (_, log')) := run_task (Some h) task t (st, log) in
  match r with
  | Ok _ => log' = log ++ [CBefore t; CEnter t; CRun t; CExit t]
  | Err _ => log' = log ++ [CBefore t] \/
             log' = log ++ [CBefore t; CEnter t; CRun t; CExit t; CError t]
  | Panic => log' = log ++ [CBefore t] \/ log' = log ++ [CBefore t; CEnter t; CRun t]
  end.
Proof.
  unfold run_task, hooked, logged, io_bind, io_catch, total, io_ret, io_lift.
  destruct (before_task h t st) as [[[]|e|] st1]; [|by left..].
  destruct (task_run task (on_enter_task h t st1)) as [[r|e|] st2]; rewrite <- !app_assoc; simpl;
    [done|by right|by right].
Qed.

Lemma stay_calls session r sid st log :
  let '(o, (_, log')) := stay session r sid (st, log) in
  (exists s, s_current_task_id s = s_current_task_id session /\ log' = log ++ [CSave s]) /\
  (forall er, o = Ok er -> exists m, er_status er = WaitingForInput m).
Proof.
  unfold stay, save_session, io_bind, io_ret. destruct st as [ctx w]. simpl.
  destruct (storage_save _ w) as [[[]|e|] w']; (split; [eexists; split; [|done]; done|]); try done.
  intros er [= <-]. simpl. eauto.
Qed.

Lemma advance_calls session r sid next st log :
  let t := s_current_task_id session in
  let '(o, (_, log')) := advance (Some h) session r sid next (st, log) in
  (log' = log ++ [CAfter t] /\ forall er, o <> Ok er) \/
  exists s, s_current_task_id s = next /\ log' = log ++ [CAfter t; CElicit t; CSave s] /\
    forall er, o = Ok er -> er_current_task_id er = Some next /\
      ((exists m, er_status er = Paused m) \/ exists ev, er_status er = ElicitationNeeded ev).
Proof.
  simpl. unfold advance, call_after, hooked, logged, save_session, io_bind, io_ret.
  destruct (after_task h _ r st) as [[[]|e|] st1]; [|by left..].
  destruct (elicitation_after_task h _ r st1) as [ev [ctx w]]. cbn -[app].
  destruct (storage_save _ w) as [[[]|e|] w']; right; rewrite <- !app_assoc;
    (eexists; split; [|split; [done|]]; [done|]); try done.
  intros er [= <-]. simpl. split; [done|]. destruct ev; eauto.
Qed.

(** What the history is once the task has succeeded. *)
Notation ran t := [CBefore t; CEnter t; CRun t; CExit t].

Lemma stay_history session r sid st :
  let t := s_current_task_id session in
  let '(o, (_, _, log)) := stay session r sid (st, ran t) in history t o log.
Proof.
  intros t. pose proof (stay_calls session r sid st (ran t)) as H.
  destruct (stay _ _ _ _) as [o [[? ?] log']]. destruct H as [(s & Hs & ->) Ho]. by constructor.
Qed.

Lemma advance_history session r sid next st :
  let t := s_current_task_id session in
  let '(o, (_, _, log)) := advance (Some h) session r sid next (st, ran t) in history t o log.
Proof.
  intros t. pose proof (advance_calls session r sid next st (ran t)) as H.
  destruct (advance _ _ _ _ _ _) as [o [[? ?] log']].
  destruct H as [[-> Ho]|(s & Hs & -> & Ho)]; [by constructor|]. apply h_advanced. by rewrite Hs.
Qed.

(** The runner's calls are bracketed on every path: [on_enter_task] directly before
    the task, [on_exit_task] directly after it on success and on failure alike (only a
    panic escapes it), [on_error] only after a failure, [after_task] only after a
    success that does not wait for input, and at most one save, which comes last. *)
Theorem run_calls_bracketed sid ctx w :
  let '(r, (_, _, log)) := FlowRunner_run graph (Some h) sid (ctx, w, []) in
  exists t, history t r log.
Proof.
  enough (exists t, let '(r, (_, _, log)) := FlowRunner_run graph (Some h) sid (ctx, w, []) in
                    history t r log) as [t H].
  { destruct (FlowRunner_run _ _ _ _) as [r [[? ?] log]]. by exists t. }
  unfold FlowRunner_run, get_session. unfold io_bind at 1.
  destruct (storage_get sid w) as [[[session|]|e|] w0];
    [|exists ""; by constructor..].
  unfold io_bind at 1, io_lift at 1. cbn [ok_or].
  set (t := s_current_task_id session). exists t. unfold io_bind at 1, io_lift at 1.
  destruct (get_task graph t) as [task|]; cbn [ok_or]; [|by constructor].
  unfold io_bind at 1, enter_context. unfold io_bind at 1.
  match goal with |- context [run_task (Some h) task t (?st, [])] =>
    pose proof (run_task_calls task t st []) as Hrt;
    destruct (run_task (Some h) task t (st, [])) as [[r|e|] [[ctx1 w1] log1]] end;
    [|by destruct Hrt as [->| ->]; constructor..].
  subst log1. cbn [app].
  destruct (tr_next_action r) as [| | | |next|].
  - destruct (next_task_id graph t ctx1) as [next|].
    + apply (advance_history session r sid next (ctx1, w1)).
    + apply (stay_history session r sid (ctx1, w1)).
  - destruct (next_task_id graph t ctx1) as [next|].
    + apply (advance_history session r sid next (ctx1, w1)).
    + apply (stay_history session r sid (ctx1, w1)).
  - apply (stay_history session r sid (ctx1, w1)).
  - unfold call_after, hooked, logged, save_session, io_bind, io_ret.
    destruct (after_task h t r (ctx1, w1)) as [[[]|e|] [ctx2 w2]]; [|by constructor..].
    cbn -[app]. destruct (storage_save _ w2) as [[[]|e|] w3]; (apply h_completed; [done|]); try done.
    by intros er [= <-].
  - apply (advance_history session r sid next (ctx1, w1)).
  - by constructor.
Qed.
End calls.

(** ** What a finished step leaves in storage *)

Section steps.
Context {W : Type} `{!SessionStorage W} (graph : Graph W) (hooks : option (RunnerHooks W)).

(** The saved session: the same session, at [task], with the context as the step left it. *)
Definition saved_at (w : W) (session : Session) (task : string) (m : option string) (ctx : context) : Prop :=
  storage_get (s_id session) w
  = (Ok (Some (mkSession (s_id session) (s_graph_id session) task m ctx)), w).

Lemma save_session_Ok s ctx w log u ctx' w' log' :
  save_session s (ctx, w, log) = (Ok u, (ctx', w', log')) ->
  ctx' = ctx /\ saved_at w' s (s_current_task_id s) (s_status_message s) ctx.
Proof.
  unfold save_session. destruct (storage_save _ w) as [[[]|e|] w1] eqn:Hs; intros H; simplify_eq/=.
  split; [done|]. by apply storage_get_save in Hs.
Qed.

Lemma stay_Ok session r sid st er ctx w log :
  stay session r sid st = (Ok er, (ctx, w, log)) ->
  er = mkExecutionResult (WaitingForInput (tr_status_message r)) sid (Some (s_current_task_id session)) /\
  saved_at w session (s_current_task_id session) (tr_status_message r) ctx.
Proof.
  destruct st as [[ctx0 w0] log0]. unfold stay.
  intros (u & [[ctx1 w1] log1] & Hs & [= <- <- <- <-])%io_bind_Ok.
  by apply save_session_Ok in Hs as [-> Hs].
Qed.

Lemma advance_Ok session r sid next st er ctx w log :
  advance hooks session r sid next st = (Ok er, (ctx, w, log)) ->
  er_session_id er = sid /\ er_current_task_id er = Some next /\
  (er_status er = Paused (Some "Step complete") \/ exists ev, er_status er = ElicitationNeeded ev) /\
  saved_at w session next (tr_status_message r) ctx.
Proof.
  unfold advance. intros (u & st1 & _ & H)%io_bind_Ok.
  apply io_bind_Ok in H as (ev & [[ctx2 w2] log2] & _ & H).
  apply io_bind_Ok in H as (u' & [[ctx3 w3] log3] & Hs & [= <- <- <- <-]).
  apply save_session_Ok in Hs as [-> Hs]. simpl. split_and!; [done|done| |done].
  destruct ev; eauto.
Qed.

(** The answers of a step that went through, and where it leaves the session. *)
Definition step_outcome (session : Session) (er : ExecutionResult) (ctx : context) (w : W) : Prop :=
  let t := s_current_task_id session in
  match er_status er with
  | Completed => er_current_task_id er = None /\ exists m, saved_at w session t m ctx
  | WaitingForInput m => er_current_task_id er = Some t /\ saved_at w session t m ctx
  | Paused _ | ElicitationNeeded _ =>
      exists next m, er_current_task_id er = Some next /\ saved_at w session next m ctx
  | StatusError _ => False
  end.

(** The step taken after the task answered [r] with the context at [ctx1]. *)
Definition step_decided (session : Session) (r : TaskResult) (ctx1 : context) (er : ExecutionResult)
    (ctx : context) (w : W) : Prop :=
  let goes next := er_current_task_id er = Some next /\ exists m, saved_at w session next m ctx in
  let waits := exists m, er_status er = WaitingForInput m in
  match tr_next_action r with
  | Continue | ContinueAndExecute =>
      match next_task_id graph (s_current_task_id session) ctx1 with
      | Some next => goes next
      | None => waits
      end
  | GoTo id => goes id
  | WaitForInput => waits
  | End => er_status er = Completed
  | GoBack => False
  end.

(** The state a task starts in. *)
Definition entry (session : Session) (w : W) (log : list call) : context * W * list call :=
  (set_sync "workflow_engine_current_task_id" (JString (s_current_task_id session))
     (set_sync "workflow_engine_graph_id" (JString (s_graph_id session)) (s_context session)), w, log).

Lemma run_Ok sid ctx0 w0 log0 er ctx w log :
  FlowRunner_run graph hooks sid (ctx0, w0, log0) = (Ok er, (ctx, w, log)) ->
  er_session_id er = sid /\
  exists session task r ctx1 w1 log1,
    storage_get sid w0 = (Ok (Some session), w0) /\
    get_task graph (s_current_task_id session) = Some task /\
    run_task hooks task (s_current_task_id session) (entry session w0 log0) = (Ok r, (ctx1, w1, log1)) /\
    step_decided session r ctx1 er ctx w /\ step_outcome session er ctx w.
Proof.
  unfold FlowRunner_run, get_session. intros (found & st & Hg & H)%io_bind_Ok.
  pose proof (storage_get_pure sid w0) as Hp. destruct (storage_get sid w0) as [fr w1] eqn:Hget.
  simpl in Hp. subst w1. injection Hg as -> <-.
  apply io_bind_Ok in H as (session & st & Hs & H). injection Hs as Hs <-. apply ok_or_Ok in Hs as ->.
  apply io_bind_Ok in H as (task & st & Ht & H). injection Ht as Ht <-. apply ok_or_Ok in Ht.
  apply io_bind_Ok in H as (u & st & He & H). injection He as <- <-.
  apply io_bind_Ok in H as (r & [[ctx1 w1] log1] & Hr & H).
  assert (forall next, advance hooks session r sid next (ctx1, w1, log1) = (Ok er, (ctx, w, log)) ->
    er_session_id er = sid /\ step_outcome session er ctx w /\
    er_current_task_id er = Some next /\ exists m, saved_at w session next m ctx) as Hadv.
  { intros next (Hsid & Hcur & Hst & Hsv)%advance_Ok. split; [done|]. split; [|eauto].
    unfold step_outcome. destruct Hst as [->|[ev ->]]; eauto. }
  assert (stay session r sid (ctx1, w1, log1) = (Ok er, (ctx, w, log)) ->
    er_session_id er = sid /\ step_outcome session er ctx w /\
    exists m, er_status er = WaitingForInput m) as Hstay.
  { intros [-> Hsv]%stay_Ok. split; [done|]. split; [by split|]. simpl. eauto. }
  enough (er_session_id er = sid /\ step_decided session r ctx1 er ctx w /\ step_outcome session er ctx w)
    as (Hsid & Hdec & Hout).
  { split; [exact Hsid|]. by exists session, task, r, ctx1, w1, log1. }
  unfold step_decided.
  destruct (tr_next_action r) as [| | | |next|].
  - destruct (next_task_id graph _ ctx1) as [next|]; [apply Hadv in H|apply Hstay in H]; tauto.
  - destruct (next_task_id graph _ ctx1) as [next|]; [apply Hadv in H|apply Hstay in H]; tauto.
  - apply Hstay in H. tauto.
  - apply io_bind_Ok in H as (u & [[ctx2 w2] log2] & _ & H).
    apply io_bind_Ok in H as (u' & [[ctx3 w3] log3] & Hsv & [= <- <- <- <-]).
    apply save_session_Ok in Hsv as [-> Hsv]. split_and!; try done. split; [done|]. eauto.
  - apply Hadv in H. tauto.
  - done.
Qed.
End steps.

(** A step that goes through starts from the stored session and leaves it stored: at
    the same task when it completes or waits, at the task it answers with otherwise,
    which is the one the graph's edges or the task's own [GoTo] name; and the saved
    context is the shared context as the task and the hooks left it. *)
Theorem flow_step_correct {W} `{!SessionStorage W} (graph : Graph W) hooks sid ctx0 w0 log0 er ctx w log :
  FlowRunner_run graph hooks sid (ctx0, w0, log0) = (Ok er, (ctx, w, log)) ->
  er_session_id er = sid /\
  exists session task r ctx1 w1 log1,
    storage_get sid w0 = (Ok (Some session), w0) /\
    get_task graph (s_current_task_id session) = Some task /\
    run_task hooks task (s_current_task_id session) (entry session w0 log0) = (Ok r, (ctx1, w1, log1)) /\
    step_decided graph session r ctx1 er ctx w /\ step_outcome session er ctx w.
Proof. apply run_Ok. Qed.

(** Storage in memory, on which the theorems are evaluated. *)
#[local] Instance memory_storage : SessionStorage (gmap string Session).
Proof.
  refine {| storage_save s := fun w => (Ok (), <[s_id s := s]> w);
            storage_get id := fun w => (Ok (w !! id), w);
            storage_delete id := fun w => (Ok (), delete id w) |}; [done|].
  intros s w w' [= <-]. by rewrite lookup_insert_eq.
Defined.

Definition two_step_graph : Graph (gmap string Session) :=
  add_edge (add_task (add_task (graph_new "g") (EchoTask "a")) (EndTask "b")) "a" "b".

Definition at_task (t : string) (ctx : context) : Session := mkSession "s" "g" t None ctx.

Lemma flow_step_witness :
  exists er ctx w log,
    FlowRunner_run two_step_graph None "s" (∅, {["s" := at_task "a" ∅]}, []) = (Ok er, (ctx, w, log)) /\
    exists next m, er_current_task_id er = Some next /\ saved_at w (at_task "a" ∅) next m ctx.
Proof.
  set (st := (∅, {["s" := at_task "a" ∅]}, [])).
  assert ((FlowRunner_run two_step_graph None "s" st).1
          = Ok (mkExecutionResult (Paused (Some "Step complete")) "s" (Some "b"))) as Hr
    by (vm_compute; reflexivity).
  destruct (FlowRunner_run two_step_graph None "s" st) as [r [[ctx w] log]] eqn:Hrun.
  cbn [fst] in Hr. subst r. eexists _, ctx, w, log. split; [done|].
  destruct (flow_step_correct two_step_graph None "s" ∅ _ [] _ ctx w log Hrun)
    as [_ (session & task & r & ctx1 & w1 & log1 & Hs & _ & _ & _ & Hout)].
  assert (session = at_task "a" ∅) as -> by (by apply (f_equal fst) in Hs; injection Hs).
  exact Hout.
Defined.
