(* ===== verification/SessionFiles.v ===== *)
(** * Session files

    [FileSessionStorage] of [src/packages/tddy-graph/src/session.rs], as an
    implementation of the [SessionStorage] interface the runner is proved against. The
    file system and [serde_json] are its two parameters. *)

From S2P Require Import Prelude Text Changeset Graph GraphSpec.

Local Open Scope io_scope.

(** [tokio::fs] on a state [D]. A failed write may leave anything at its path. *)
Class FileSystem (D : Type) := {
  fs_create_dir_all : string -> io D string unit;
  fs_write : string -> string -> io D string unit;
  fs_exists : D -> string -> bool;
  fs_read : D -> string -> string + string;
  fs_remove : string -> io D string unit;
  fs_write_read : forall p t d d', fs_write p t d = (Ok (), d') ->
    fs_exists d' p = true /\ fs_read d' p = inr t }.

(** [serde_json::to_string_pretty] and [from_str] on sessions. *)
Class SessionCodec := {
  session_to_json : Session -> string + string;
  session_from_json : string -> string + Session;
  session_roundtrip : forall s t, session_to_json s = inr t -> session_from_json t = inr s }.

Definition WORKFLOW_ENGINE_STORAGE_SUBDIR : string := ".workflow".

Definition workflow_engine_storage_dir (session_dir : string) : string :=
  path_join session_dir WORKFLOW_ENGINE_STORAGE_SUBDIR.

Section files.
Context {D : Type} `{!FileSystem D} `{!SessionCodec} (base_dir : string).

Definition session_path (session_id : string) : string :=
  path_join base_dir (session_id +:+ ".session.json").

Definition file_save (s : Session) : io D string unit :=
  let path := session_path (s_id s) in
  fs_create_dir_all (path_parent path);;
  let! json := io_lift (match session_to_json s with inl e => Err e | inr t => Ok t end) in
  fs_write path json.

Definition file_get (session_id : string) : io D string (option Session) := fun d =>
  let path := session_path session_id in
  if negb (fs_exists d path) then (Ok None, d) else
  match fs_read d path with
  | inl e => (Err e, d)
  | inr text =>
      match session_from_json text with
      | inl e => (Err e, d)
      | inr s => (Ok (Some s), d)
      end
  end.

Definition file_delete (session_id : string) : io D string unit := fun d =>
  let path := session_path session_id in
  if fs_exists d path then fs_remove path d else (Ok (), d).

Lemma file_get_pure id d : (file_get id d).2 = d.
Proof. unfold file_get. by repeat case_match. Qed.

Lemma file_get_save s d d' : file_save s d = (Ok (), d') -> file_get (s_id s) d' = (Ok (Some s), d').
Proof.
  unfold file_save. intros (u & d1 & _ & Hrest)%io_bind_Ok.
  apply io_bind_Ok in Hrest as (text & d2 & Hj & Hw). injection Hj as Hj <-.
  destruct (session_to_json s) as [e|t] eqn:Hs; [done|]. injection Hj as <-.
  apply fs_write_read in Hw as [He Hr]. unfold file_get. rewrite He, Hr. simpl.
  by rewrite (session_roundtrip s t).
Qed.

#[global] Instance FileSessionStorage : SessionStorage D := {|
  storage_save := file_save;
  storage_get := file_get;
  storage_delete := file_delete;
  storage_get_pure := file_get_pure;
  storage_get_save := file_get_save |}.
End files.
