(* ===== verification/Engine.v ===== *)
(** * The workflow engine

    [src/packages/tddy-workflow-engine/src/workflow/]: recipes ([recipe.rs]), the engine
    that runs a recipe's graph to its next stop ([engine.rs]), the conditions of its
    edges ([goal_conditions.rs]) and the goal a resumed session starts at
    ([session_continue.rs]).

    The engine's loop has no bound in the source; here it takes a number of steps to
    try, and answers [None] when they were not enough. *)

From S2P Require Import Prelude Text Stack Changeset Graph GraphSpec.

Local Open Scope io_scope.

(** ** Goal conditions *)

Record BoolContextCondition := mkBoolContextCondition {
  bc_key : string; bc_default_if_missing : bool }.

Definition evaluate_bool_context_condition (ctx : context) (cond : BoolContextCondition) : bool :=
  default (bc_default_if_missing cond) (get_bool ctx (bc_key cond)).

(** ** Recipes *)

Inductive PermissionHint := ReadOnly | AcceptEdits.

Record GoalHints := mkGoalHints {
  gh_display_name : string; gh_permission : PermissionHint; gh_allowed_tools : list string;
  gh_default_model : option string; gh_agent_output : bool; gh_agent_cli_plan_mode : bool;
  gh_claude_nonzero_exit_ok_if_structured_response : bool }.

(** The methods of the [WorkflowRecipe] trait the engine uses. *)
Record WorkflowRecipe := mkWorkflowRecipe {
  recipe_name : string;
  recipe_goal_ids : list string;
  recipe_goal_hints : string -> option GoalHints;
  recipe_start_goal : string;
  recipe_goal_instructions : string -> string;
  recipe_next_goal_for_state_with_changeset : WorkflowState -> Changeset -> option string;
  recipe_skip_failed_resume_transition : WorkflowState -> string -> bool }.

(** The trait's default methods. *)
Definition default_goal_instructions (goal : string) : string :=
  "Proceed with the '" +:+ goal +:+ "' goal.".

Definition default_skip_failed_resume_transition (start_goal : string) (_ : WorkflowState)
    (next_goal : string) : bool := bool_decide (next_goal = start_goal).

(** [BTreeSet<String>] as a sorted list without duplicates. *)
Definition btree_set (l : list string) : list string :=
  sort_by (fun x y => bool_decide (String.le x y)) (remove_dups l).

Definition orchestration_hints (r : WorkflowRecipe) (current : string) : GoalHints :=
  let base := default (mkGoalHints current AcceptEdits [] None true false false)
                (recipe_goal_hints r current) in
  let tools := gh_allowed_tools base
    ++ (omap (recipe_goal_hints r) (recipe_goal_ids r) ≫= gh_allowed_tools) ++ ["Agent"] in
  mkGoalHints (gh_display_name base) AcceptEdits (btree_set tools) (gh_default_model base)
    true false false.

(** ** Resuming a session *)

(** The walk over the history, newest first; the second component is
    [tdd_skipped_trailing_planning]. *)
Fixpoint failed_resume_walk (r : WorkflowRecipe) (cs : Changeset) (newest_first : list StateTransition)
    (skipped_planning : bool) : option string * bool :=
  match newest_first with
  | [] => (None, skipped_planning)
  | t :: rest =>
      if decide (tr_state t = "Failed") then failed_resume_walk r cs rest skipped_planning else
      match recipe_next_goal_for_state_with_changeset r (tr_state t) cs with
      | None => failed_resume_walk r cs rest skipped_planning
      | Some g =>
          if recipe_skip_failed_resume_transition r (tr_state t) g then
            failed_resume_walk r cs rest
              (skipped_planning || bool_decide (recipe_name r = "tdd" /\ tr_state t = "Planning" /\ g = "plan"))
          else (Some g, skipped_planning)
      end
  end.

Definition use_failed_resume_walk (cs : Changeset) : bool :=
  bool_decide (cst_current (cs_state cs) = "Failed") ||
  bool_decide (tr_state <$> last (cst_history (cs_state cs)) = Some "Failed").

Definition start_goal_for_session_continue (r : WorkflowRecipe) (cs : Changeset) : string :=
  let start := recipe_start_goal r in
  if negb (use_failed_resume_walk cs) then
    default start (recipe_next_goal_for_state_with_changeset r (cst_current (cs_state cs)) cs)
  else
    match failed_resume_walk r cs (reverse (cst_history (cs_state cs))) false with
    | (Some g, _) => g
    | (None, skipped) => if bool_decide (recipe_name r = "tdd") && skipped then "plan" else start
    end.

(** ** The engine *)

Section engine.
Context {W : Type} `{!SessionStorage W}.

Record WorkflowEngine := mkWorkflowEngine {
  we_recipe : WorkflowRecipe; we_graph : Graph W; we_hooks : RunnerHooks W;
  we_backend_name : string }.

Context (engine : WorkflowEngine).

(** [for (k, v) in context_values { ctx.set_sync(&k, v) }], with the backend's name. *)
Definition initial_context (values : gmap string json) : context :=
  let values := if decide (is_Some (values !! "backend_name")) then values
                else <["backend_name" := JString (we_backend_name engine)]> values in
  map_fold set_sync ∅ values.

(** [fresh] is what [Uuid::now_v7] would answer. *)
Definition workflow_session_id_from_context (fresh : string) (ctx : context) : string * context :=
  match get_string ctx "session_id" with
  | Some id => if decide (trim id = "") then (fresh, set_sync "session_id" (JString fresh) ctx)
               else (id, ctx)
  | None => (fresh, set_sync "session_id" (JString fresh) ctx)
  end.

Definition runner : string -> io (context * W * list call) string ExecutionResult :=
  FlowRunner_run (we_graph engine) (Some (we_hooks engine)).

(** Create the session at [goal] and save it. *)
Definition open_session (fresh goal : string) (values : gmap string json)
  : io (context * W * list call) string string := fun '(_, w, log) =>
  let '(session_id, ctx) := workflow_session_id_from_context fresh (initial_context values) in
  let session := mkSession session_id (g_id (we_graph engine)) goal None ctx in
  let '(r, st) := save_session session (ctx, w, log) in
  (match r with Ok _ => Ok session_id | Err e => Err e | Panic => Panic end, st).

Definition run_goal (fresh goal : string) (values : gmap string json)
  : io (context * W * list call) string ExecutionResult :=
  let! session_id := open_session fresh goal values in
  runner session_id.

Definition is_paused (er : ExecutionResult) : bool :=
  match er_status er with Paused _ => true | _ => false end.

(** [loop { match result.status { Paused => result = runner.run(..).await?, _ => return } }] *)
Fixpoint run_loop (fuel : nat) (session_id : string)
  : io (context * W * list call) string (option ExecutionResult) :=
  match fuel with
  | 0 => io_ret None
  | S fuel' =>
      let! er := runner session_id in
      if is_paused er then run_loop fuel' session_id else io_ret (Some er)
  end.

Definition run_workflow_from (fuel : nat) (fresh goal : string) (values : gmap string json)
  : io (context * W * list call) string (option ExecutionResult) :=
  let! session_id := open_session fresh goal values in
  run_loop fuel session_id.

Definition run_full_workflow (fuel : nat) (fresh : string) (values : gmap string json)
  : io (context * W * list call) string (option ExecutionResult) :=
  run_workflow_from fuel fresh (recipe_start_goal (we_recipe engine)) values.

Definition update_session_context (session_id : string) (updates : gmap string json)
  : io W string unit :=
  let! found := storage_get session_id in
  let! session := io_lift (ok_or found "Session not found") in
  storage_save (mkSession (s_id session) (s_graph_id session) (s_current_task_id session)
    (s_status_message session) (map_fold set_sync (s_context session) updates)).
End engine.
Arguments WorkflowEngine : clear implicits.

(** ** What the resume rule picks *)

(** The goal a history entry votes for after a failure. *)
Definition resume_candidate (r : WorkflowRecipe) (cs : Changeset) (t : StateTransition) : option string :=
  if decide (tr_state t = "Failed") then None else
  g ← recipe_next_goal_for_state_with_changeset r (tr_state t) cs;
  if recipe_skip_failed_resume_transition r (tr_state t) g then None else Some g.

Lemma failed_resume_walk_spec r cs l skipped :
  match failed_resume_walk r cs l skipped with
  | (Some g, _) => exists l1 t l2, l = l1 ++ t :: l2 /\ resume_candidate r cs t = Some g /\
                     forall t', t' ∈ l1 -> resume_candidate r cs t' = None
  | (None, sk) => (forall t, t ∈ l -> resume_candidate r cs t = None) /\
                  (sk = true -> skipped = true \/ recipe_name r = "tdd")
  end.
Proof.
  revert skipped. induction l as [|t l IH]; intros skipped; simpl.
  { split; [set_solver|auto]. }
  assert (forall sk', resume_candidate r cs t = None -> (sk' = true -> skipped = true \/ recipe_name r = "tdd") ->
    match failed_resume_walk r cs l sk' with
    | (Some g, _) => exists l1 t' l2, t :: l = l1 ++ t' :: l2 /\ resume_candidate r cs t' = Some g /\
                       forall t'', t'' ∈ l1 -> resume_candidate r cs t'' = None
    | (None, sk) => (forall t', t' ∈ t :: l -> resume_candidate r cs t' = None) /\
                    (sk = true -> skipped = true \/ recipe_name r = "tdd")
    end) as Hskip.
  { intros sk' Ht Hsk. specialize (IH sk'). destruct (failed_resume_walk r cs l sk') as [[g|] sk].
    - destruct IH as (l1 & t' & l2 & -> & Hg & Hl1). exists (t :: l1), t', l2. split; [done|].
      split; [done|]. intros x [->|Hx]%elem_of_cons; auto.
    - destruct IH as [Hall Hs]. split; [intros x [->|Hx]%elem_of_cons; auto|]. naive_solver. }
  unfold resume_candidate in Hskip at 1. case_decide as Hf; [by apply Hskip; auto|].
  destruct (recipe_next_goal_for_state_with_changeset r (tr_state t) cs) as [g|] eqn:Hn; simpl in Hskip;
    [|by apply Hskip; auto].
  destruct (recipe_skip_failed_resume_transition r (tr_state t) g) eqn:Hs.
  - apply Hskip; [done|]. intros [?|H%bool_decide_eq_true]%orb_true_iff; [auto|naive_solver].
  - exists [], t, l. split; [done|]. split; [|set_solver]. unfold resume_candidate.
    by rewrite decide_False, Hn; simpl; [rewrite Hs|].
Qed.

(** Resuming: a session that did not fail goes on at the goal its state calls for. A
    failed one retries the goal of its newest history entry that names one worth
    retrying, and every entry after that one names none; only when no entry names one
    does it start over (or re-plan, for a TDD session). *)
Theorem start_goal_for_session_continue_correct r cs :
  let goal := start_goal_for_session_continue r cs in
  let history := cst_history (cs_state cs) in
  (use_failed_resume_walk cs = false ->
     goal = default (recipe_start_goal r)
              (recipe_next_goal_for_state_with_changeset r (cst_current (cs_state cs)) cs)) /\
  (use_failed_resume_walk cs = true ->
     (exists before t after, history = before ++ t :: after /\ resume_candidate r cs t = Some goal /\
        forall t', t' ∈ after -> resume_candidate r cs t' = None) \/
     ((forall t, t ∈ history -> resume_candidate r cs t = None) /\
      (goal = recipe_start_goal r \/ (recipe_name r = "tdd" /\ goal = "plan")))).
Proof.
  intros goal history. subst goal. unfold start_goal_for_session_continue.
  split; intros Hu; rewrite Hu; [done|]. simpl. fold history.
  pose proof (failed_resume_walk_spec r cs (reverse history) false) as H.
  destruct (failed_resume_walk r cs (reverse history) false) as [[g|] sk].
  - left. destruct H as (l1 & t & l2 & Hrev & Hg & Hl1). exists (reverse l2), t, (reverse l1).
    split; [|split; [done|]; intros t'; by rewrite elem_of_reverse; auto].
    rewrite <- (reverse_involutive history), Hrev, reverse_app, reverse_cons, <- app_assoc. done.
  - right. destruct H as [Hall Hsk]. split; [intros t Ht; apply Hall; by rewrite elem_of_reverse|].
    case_bool_decide; [|auto]. destruct sk; simpl; auto.
Qed.

(** ** The engine's loop ends *)

Section termination.
Context {W : Type} `{!SessionStorage W} (engine : WorkflowEngine W).

Context (rank : string -> nat).

(** A task that jumps ([GoTo]) jumps to one of lower rank. *)
Definition jumps_descend : Prop := forall id t st r st' target,
  get_task (we_graph engine) id = Some t -> task_run t st = (Ok r, st') ->
  tr_next_action r = GoTo target -> rank target < rank id.

Context (Hjump : jumps_descend).
Context (Hrank : forall from to, edge_target (we_graph engine) from to -> rank to < rank from).

Lemma run_task_result hooks (task : Task W) t st r st' :
  run_task hooks task t st = (Ok r, st') ->
  exists st1 st2, task_run task st1 = (Ok r, st2).
Proof.
  unfold run_task. intros (u & st1 & _ & H)%io_bind_Ok. apply io_bind_Ok in H as (u1 & st2 & _ & H).
  apply io_bind_Ok in H as (o & st3 & Hr & H). apply io_bind_Ok in H as (u2 & st4 & _ & H).
  destruct o as [e|r'].
  - by apply io_bind_Ok in H as (? & ? & _ & ?).
  - injection H as -> <-. unfold io_catch, logged in Hr. destruct st2 as [s log].
    destruct (task_run task s) as [[]] eqn:Ht; simplify_eq; eauto.
Qed.

Lemma run_loop_ends fuel sid ctx w log session :
  storage_get sid w = (Ok (Some session), w) -> s_id session = sid ->
  rank (s_current_task_id session) < fuel ->
  forall st', run_loop engine fuel sid (ctx, w, log) <> (Ok None, st').
Proof.
  revert ctx w log session. induction fuel as [|fuel IH]; intros ctx w log session Hget Hid Hlt st'; [lia|].
  simpl. intros (er & [[ctx1 w1] log1] & Hrun & H)%io_bind_Ok.
  unfold runner in Hrun. apply run_Ok in Hrun
    as [_ (session' & task & r & ctx2 & w2 & log2 & Hget' & Ht & Hr & Hdec & Hout)].
  rewrite Hget in Hget'. injection Hget' as <-.
  destruct (is_paused er) eqn:Hp; [|done]. revert H.
  unfold is_paused in Hp. unfold step_outcome in Hout. destruct (er_status er) eqn:Hst; try done.
  destruct Hout as (next & m & Hcur & Hsv). unfold saved_at in Hsv. rewrite Hid in Hsv.
  eapply IH; [exact Hsv|done|]. simpl.
  enough (rank next < rank (s_current_task_id session)) by lia.
  apply run_task_result in Hr as (st1 & st2 & Hr). unfold step_decided in Hdec.
  pose proof (fun target => Hjump _ _ _ _ _ target Ht Hr) as Hj.
  destruct (tr_next_action r) eqn:Ha; try destruct (next_task_id _ _ _) as [n|] eqn:Hn;
    try congruence; try done; try (by destruct Hdec; congruence);
    destruct Hdec as [Hcur' _]; rewrite Hcur in Hcur'; injection Hcur' as ->;
    first [by apply Hj|by eapply Hrank, next_task_id_edge].
Qed.

Lemma open_session_Ok fresh goal values st sid st' :
  open_session engine fresh goal values st = (Ok sid, st') ->
  exists session, storage_get sid st'.1.2 = (Ok (Some session), st'.1.2) /\ s_id session = sid /\
    s_current_task_id session = goal.
Proof.
  destruct st as [[ctx w] log]. unfold open_session.
  destruct (workflow_session_id_from_context _ _) as [id c].
  destruct (save_session _ _) as [r s] eqn:Hs. intros Hr. injection Hr as Hr <-.
  destruct r as [u|e|]; [|done..]. injection Hr as <-. destruct s as [[ctx1 w1] log1].
  apply save_session_Ok in Hs as [-> Hs]. eexists. split; [exact Hs|done].
Qed.
End termination.

(** C34. A workflow whose edges descend in some rank, and so do the jumps its tasks make, is
    run to an end: [run_workflow_from] stops within as many steps as the rank of its first
    goal plus one, whatever else the tasks and hooks do. (A recipe whose tasks jump back,
    as the orchestrator's does on every tick, has no such rank.) *)
Theorem run_workflow_terminates {W} `{!SessionStorage W} (engine : WorkflowEngine W) rank fuel fresh goal values st :
  (forall from to, edge_target (we_graph engine) from to -> rank to < rank from) ->
  jumps_descend engine rank ->
  rank goal < fuel ->
  (run_workflow_from engine fuel fresh goal values st).1 <> Ok None.
Proof.
  intros Hr Hj Hlt Hnone. unfold run_workflow_from in Hnone.
  destruct (io_bind _ _ st) as [res st'] eqn:Hrun. simpl in Hnone. subst res.
  apply io_bind_Ok in Hrun as (sid & [[ctx w] log] & Ho & Hl).
  apply open_session_Ok in Ho as (session & Hget & Hid & Hcur). simpl in Hget.
  eapply run_loop_ends in Hl; try done. by rewrite Hcur.
Qed.

(** When the engine's loop returns, it is at a stop that is the caller's to handle: the
    workflow completed, or it waits for input or for an elicitation; it never returns in
    the middle of a run of steps, nor with the unused error status. *)
Theorem run_loop_result {W} `{!SessionStorage W} (engine : WorkflowEngine W) fuel sid st er st' :
  run_loop engine fuel sid st = (Ok (Some er), st') ->
  er_session_id er = sid /\
  match er_status er with
  | Completed | WaitingForInput _ | ElicitationNeeded _ => True
  | Paused _ | StatusError _ => False
  end.
Proof.
  revert st. induction fuel as [|fuel IH]; intros st; simpl; [done|].
  intros (er' & [[ctx1 w1] log1] & Hrun & H)%io_bind_Ok. destruct (is_paused er') eqn:Hp; [by apply IH in H|].
  injection H as <- <-. unfold runner in Hrun. destruct st as [[ctx w] log].
  apply run_Ok in Hrun as [Hsid (session & task & r & ctx2 & w2 & log2 & _ & _ & _ & _ & Hout)].
  split; [done|]. unfold step_outcome in Hout. unfold is_paused in Hp. by destruct (er_status er').
Qed.

(** ** Witnesses *)

Definition quiet_hooks {W} : RunnerHooks W :=
  mkRunnerHooks (fun _ st => st) (fun _ st => st) (fun _ => io_ret ()) (fun _ _ => io_ret ())
    (fun _ _ st => (None, st)) (fun _ _ st => st).

Definition a_recipe : WorkflowRecipe :=
  mkWorkflowRecipe "demo" ["a"; "b"] (fun _ => None) "a" default_goal_instructions
    (fun s _ => if decide (s = "Ready") then Some "b" else None)
    (default_skip_failed_resume_transition "a").

Definition an_engine : WorkflowEngine (gmap string Session) :=
  mkWorkflowEngine a_recipe two_step_graph quiet_hooks "stub".

(** A first task that jumps over an edge, and a last one. *)
Definition jumping_engine : WorkflowEngine (gmap string Session) :=
  mkWorkflowEngine a_recipe
    (add_edge (add_task (add_task (graph_new "g")
       (mkTask "a" (fun st => (Ok (mkTaskResult "" (GoTo "c") "a" None), st)))) (EndTask "c")) "a" "b") quiet_hooks "stub".

Lemma run_workflow_terminates_witness :
  (@run_workflow_from _ memory_storage jumping_engine 2 "s" "a" ∅ (∅, ∅, [])).1 <> Ok None.
Proof.
  apply (@run_workflow_terminates _ memory_storage jumping_engine (fun t => if decide (t = "a") then 1 else 0)).
  - intros from to [H|(ce & H & _)]; simpl in H; [|by apply not_elem_of_nil in H].
    apply list_elem_of_singleton in H. injection H as -> ->. simpl. lia.
  - intros id t st r st' target Ht Hr. unfold get_task in Ht. simpl in Ht.
    repeat case_decide; simplify_eq/=; try done. intros [= <-]. simpl. lia.
  - simpl. lia.
Defined.

Lemma run_loop_result_witness :
  exists er st', @run_loop _ memory_storage an_engine 3 "s" (∅, {["s" := at_task "a" ∅]}, []) = (Ok (Some er), st') /\
    match er_status er with
    | Completed | WaitingForInput _ | ElicitationNeeded _ => True
    | Paused _ | StatusError _ => False
    end.
Proof.
  set (st := (∅, {["s" := at_task "a" ∅]}, [])).
  assert ((@run_loop _ memory_storage an_engine 3 "s" st).1 = Ok (Some (mkExecutionResult Completed "s" None)))
    as Hr by (vm_compute; reflexivity).
  destruct (@run_loop _ memory_storage an_engine 3 "s" st) as [r st'] eqn:Hrun. cbn [fst] in Hr. subst r.
  eexists _, st'. split; [done|]. exact (proj2 (@run_loop_result _ memory_storage an_engine 3 "s" st _ st' Hrun)).
Defined.
