(* ===== verification/Controller.v ===== *)
(** * The agent-driven controller

    [src/packages/tddy-workflow-engine/src/workflow/controller.rs]: the state machine the
    agent's [transition] tool talks to. Its state is the current goal and the pending
    provisional target; around it are the disk, where the changeset is persisted, and
    the events sent to the view. *)

From S2P Require Import Prelude Text Stack Changeset Graph GraphSpec Engine.

Local Open Scope io_scope.

Inductive TransitionOutcome :=
| Committed (from to instructions : string)
| RecordedProvisional (to : string)
| Rejected (reason : string).

(** The events the controller emits. *)
Inductive WorkflowEvent :=
| StateChange (from to : string)
| GoalStarted (goal : string).

Record controller_state := mkControllerState {
  c_current : string;
  c_provisional : option string;
  c_disk : disk;
  c_events : list WorkflowEvent }.

(** [valid.join(", ")]. *)
Definition join_comma (l : list string) : string :=
  match l with [] => "" | x :: l' => foldl (fun acc y => acc +:+ ", " +:+ y) x l' end.

Section controller.
Context {yaml : YamlCodec} {W : Type} (recipe : WorkflowRecipe) (graph : Graph W).
(** [session_dir], and whether a view is attached ([event_tx]). *)
Context (session_dir : option string) (event_tx : bool).

(** [WorkflowController::new_at] and [new]. *)
Definition controller_new_at (start : string) (d : disk) : controller_state :=
  mkControllerState start None d [].
Definition controller_new (d : disk) : controller_state :=
  controller_new_at (recipe_start_goal recipe) d.

Definition persist_state (now dir to : string) : io disk WorkflowError unit :=
  let! cs := read_changeset dir in
  write_changeset_atomic dir (update_state now cs to).

Definition emit (e : WorkflowEvent) (events : list WorkflowEvent) : list WorkflowEvent :=
  if event_tx then events ++ [e] else events.

(** [transition]: [now] is the clock's answer, should the state be persisted. *)
Definition transition (now to : string) (provisional : bool) (c : controller_state)
  : res unit TransitionOutcome * controller_state :=
  let from := c_current c in
  if decide (to = from) then
    (Ok (Rejected ("already at goal '" +:+ from +:+ "'; no transition performed")), c)
  else
    let valid := successors graph from in
    if decide (to ∉ valid) then
      (Ok (Rejected ("'" +:+ to +:+ "' is not a valid transition from '" +:+ from
         +:+ "'. Valid next goals: [" +:+ join_comma valid +:+ "]")), c)
    else if provisional then
      (Ok (RecordedProvisional to),
       mkControllerState from (Some to) (c_disk c) (c_events c))
    else
      match (match session_dir with
             | Some dir => persist_state now dir to (c_disk c)
             | None => (Ok (), c_disk c)
             end) with
      | (Err e, d) =>
          (Ok (Rejected ("failed to persist transition to '" +:+ to +:+ "': " +:+ WorkflowError_display e)),
           mkControllerState from (c_provisional c) d (c_events c))
      | (Panic, d) => (Panic, mkControllerState from (c_provisional c) d (c_events c))
      | (Ok _, d) =>
          (Ok (Committed from to (recipe_goal_instructions recipe to)),
           mkControllerState to None d (emit (GoalStarted to) (emit (StateChange from to) (c_events c))))
      end.

(** A sequence of tool calls: clock, target, provisional. *)
Fixpoint transitions (calls : list (string * string * bool)) (c : controller_state)
  : list TransitionOutcome * controller_state :=
  match calls with
  | [] => ([], c)
  | (now, to, provisional) :: calls' =>
      match transition now to provisional c with
      | (Ok o, c') => let '(os, c'') := transitions calls' c' in (o :: os, c'')
      | (_, c') => ([], c')
      end
  end.
End controller.

(** ** Correctness *)

Lemma persist_state_cases {yaml : YamlCodec} now dir to d :
  match persist_state now dir to d with
  | (Ok _, d') => exists cs, stored d dir = Some cs /\ stored d' dir = Some (update_state now cs to)
  | (Err _, d') => d' = d
  | (Panic, _) => False
  end.
Proof.
  unfold persist_state, io_bind. pose proof (read_changeset_pure dir d) as Hp.
  pose proof (read_changeset_no_panic dir d) as Hn.
  destruct (read_changeset dir d) as [[cs|e|] d1] eqn:Hr; simpl in *; subst; [|done|done].
  pose proof (write_changeset_no_panic dir (update_state now cs to) d) as Hwp.
  destruct (write_changeset_atomic dir _ d) as [[u|e|] d2] eqn:Hw; simpl in *; [|by eapply write_changeset_failed|done].
  apply write_changeset_Ok in Hw as (Hst & _). exists cs. split; [by apply stored_read|done].
Qed.

Section spec.
Context {yaml : YamlCodec} {W : Type} (recipe : WorkflowRecipe) (graph : Graph W).
Context (session_dir : option string) (event_tx : bool).

Notation step := (transition recipe graph session_dir event_tx).

(** The state the changeset of the session records, when the controller persists. *)
Definition recorded (c : controller_state) : option ChangesetState :=
  dir ← session_dir; cs_state <$> stored (c_disk c) dir.

Lemma transition_cases now to provisional c :
  match step now to provisional c with
  | (Ok (Committed from to' instr), c') =>
      from = c_current c /\ to' = to /\ provisional = false /\ instr = recipe_goal_instructions recipe to /\
      to <> from /\ to ∈ successors graph from /\ c_current c' = to /\ c_provisional c' = None /\
      c_events c' = emit event_tx (GoalStarted to) (emit event_tx (StateChange from to) (c_events c)) /\
      match session_dir with
      | None => c_disk c' = c_disk c
      | Some dir => exists cs, stored (c_disk c) dir = Some cs /\
                               stored (c_disk c') dir = Some (update_state now cs to)
      end
  | (Ok (RecordedProvisional to'), c') =>
      to' = to /\ provisional = true /\ to ∈ successors graph (c_current c) /\
      c' = mkControllerState (c_current c) (Some to) (c_disk c) (c_events c)
  | (Ok (Rejected _), c') => c' = c
  | (Err _, _) => False
  | (Panic, _) => False
  end.
Proof.
  unfold transition. case_decide as Hne; [done|]. case_decide as Hv; [done|].
  destruct provisional; [done|]. destruct session_dir as [dir|].
  - pose proof (persist_state_cases now dir to (c_disk c)) as Hp.
    destruct (persist_state now dir to (c_disk c)) as [[u|e|] d].
    + simpl. split_and!; try done; by apply dec_stable.
    + subst d. by destruct c.
    + done.
  - simpl. split_and!; try done; by apply dec_stable.
Qed.

(** One [transition] call, on every branch. A commit is only ever an authoritative
    move along a graph edge to another goal; it is on disk before the position moves
    and before the view hears of it (state change, then goal started). A provisional
    call only records its target, and a refused one (an illegal edge, a no-op, or a
    write that failed) changes nothing at all: the position is never ahead of the
    changeset. No call panics. *)
Theorem transition_correct now to provisional c :
  match step now to provisional c with
  | (Ok (Committed from to' instr), c') =>
      from = c_current c /\ to' = to /\ provisional = false /\ instr = recipe_goal_instructions recipe to /\
      to <> from /\ to ∈ successors graph from /\ c_current c' = to /\ c_provisional c' = None /\
      c_events c' = emit event_tx (GoalStarted to) (emit event_tx (StateChange from to) (c_events c)) /\
      match session_dir with
      | None => c_disk c' = c_disk c
      | Some dir => exists cs, stored (c_disk c) dir = Some cs /\
                               stored (c_disk c') dir = Some (update_state now cs to)
      end
  | (Ok (RecordedProvisional to'), c') =>
      to' = to /\ provisional = true /\ to ∈ successors graph (c_current c) /\
      c' = mkControllerState (c_current c) (Some to) (c_disk c) (c_events c)
  | (Ok (Rejected _), c') => c' = c
  | (Err _, _) => False
  | (Panic, _) => False
  end.
Proof. apply transition_cases. Qed.

(** ** Runs of calls *)

(** The targets committed by a run, in order. *)
Definition committed (os : list TransitionOutcome) : list string :=
  omap (fun o => match o with Committed _ to _ => Some to | _ => None end) os.

(** The path a run of commits takes through the graph. *)
Fixpoint is_path (from : string) (goals : list string) : Prop :=
  match goals with
  | [] => True
  | g :: goals' => g ∈ successors graph from /\ is_path g goals'
  end.

(** The events a run of commits sends. *)
Fixpoint commit_events (from : string) (goals : list string) : list WorkflowEvent :=
  match goals with
  | [] => []
  | g :: goals' => StateChange from g :: GoalStarted g :: commit_events g goals'
  end.

Definition end_of (from : string) (goals : list string) : string := default from (last goals).

Lemma end_of_cons from g goals : end_of from (g :: goals) = end_of g goals.
Proof. unfold end_of. rewrite last_cons. by destruct (last goals). Qed.

Lemma transitions_length calls c :
  length (transitions recipe graph session_dir event_tx calls c).1 = length calls.
Proof.
  revert c. induction calls as [|[[now to] provisional] calls IH]; intros c; [done|]. simpl.
  pose proof (transition_cases now to provisional c) as H.
  destruct (step now to provisional c) as [[o|e|] c']; [|done|done].
  specialize (IH c'). destruct (transitions _ _ _ _ calls c'). simpl in *. by f_equal.
Qed.

(** C29. Whatever sequence of tool calls the agents make, every call is answered; the goals
    committed form a path of the graph from where the controller started; the position
    is the end of that path; the view hears exactly that path; and the changeset's
    history grows by exactly that path, with its current state the position. *)
Theorem transitions_correct calls c :
  let '(os, c') := transitions recipe graph session_dir event_tx calls c in
  let goals := committed os in
  length os = length calls /\ is_path (c_current c) goals /\ c_current c' = end_of (c_current c) goals /\
  c_events c' = c_events c ++ (if event_tx then commit_events (c_current c) goals else []) /\
  match recorded c with
  | Some st => exists st', recorded c' = Some st' /\
      (tr_state <$> cst_history st') = (tr_state <$> cst_history st) ++ goals /\
      cst_current st' = end_of (cst_current st) goals
  | None => True
  end.
Proof.
  pose proof (transitions_length calls c) as Hlen.
  destruct (transitions _ _ _ _ calls c) as [os c'] eqn:Hrun. simpl in Hlen. split; [done|]. clear Hlen.
  revert c os Hrun. induction calls as [|[[now to] provisional] calls IH]; simpl; intros c os Hrun.
  { injection Hrun as <- <-. simpl. split_and!; try done; [by destruct event_tx; rewrite app_nil_r|].
    destruct (recorded c); [|done]. eexists. split; [done|]. by rewrite app_nil_r. }
  pose proof (transition_cases now to provisional c) as H.
  destruct (step now to provisional c) as [[o|e|] c1]; [|done|done].
  destruct (transitions _ _ _ _ calls c1) as [os1 c2] eqn:Hrest. injection Hrun as <- <-.
  specialize (IH c1 os1 Hrest). destruct o as [from to' instr|to'|reason].
  - destruct H as (-> & -> & _ & _ & _ & Hin & Hcur & _ & Hev & Hdisk). simpl.
    rewrite Hcur in IH. destruct IH as (Hpath & Hend & Hevs & Hrec).
    split_and!; [done|done| | |].
    + change (c_current c2 = end_of (c_current c) (to :: committed os1)). by rewrite end_of_cons.
    + rewrite Hevs, Hev. unfold emit. destruct event_tx; [|done]. by rewrite <- !app_assoc.
    + unfold recorded in *. destruct session_dir as [dir|]; [|done]. simpl in *.
      destruct Hdisk as (cs & Hcs & Hcs'). rewrite Hcs. rewrite Hcs' in Hrec. simpl in *.
      destruct Hrec as (st' & Hst & Hh & Hc). exists st'. split; [done|]. split.
      * by rewrite Hh, fmap_app, <- app_assoc.
      * rewrite Hc. symmetry. apply end_of_cons.
  - destruct H as (-> & _ & _ & ->). exact IH.
  - subst c1. exact IH.
Qed.
End spec.
