(* ===== verification/Restart.v ===== *)
(** * Restart policy and service life cycle

    [src/packages/tddy-supervisor/src/restart.rs] (exponential backoff with a
    retry budget), [service.rs] and [services.rs] (the state of one managed
    service).  Durations are milliseconds. *)

From S2P Require Import Prelude.

(** ** Backoff, restart.rs *)

Record RestartPolicy := mk_policy {
  max_retries : N;             (* u32 *)
  initial_backoff_ms : N;      (* u64 *)
  max_backoff_ms : N;          (* u64 *)
  stability_threshold_ms : N;  (* u64 *)
}.

Definition default_policy : RestartPolicy := mk_policy 5 500 30000 10000.

(** The bounds of the machine types the policy is made of. *)
Definition policy_fits (p : RestartPolicy) : Prop :=
  (max_retries p <= u32_max /\ initial_backoff_ms p <= u64_max /\
   max_backoff_ms p <= u64_max /\ stability_threshold_ms p <= u64_max)%N.

#[global] Instance policy_fits_dec p : Decision (policy_fits p).
Proof. unfold policy_fits. apply _. Defined.

Inductive RestartDecision := Restart (after : N) | GiveUp.

#[global] Instance RestartDecision_eq_dec : EqDecision RestartDecision.
Proof. solve_decision. Defined.

Record BackoffState := mk_backoff { policy : RestartPolicy; restarts : N (* u32 *) }.

Definition backoff_new (p : RestartPolicy) : BackoffState := mk_backoff p 0.

Definition restore_budget (b : BackoffState) : BackoffState := mk_backoff (policy b) 0.

(** [u64::checked_pow] and [u64::saturating_mul]. *)
Definition u64_checked_pow (b n : N) : option N :=
  if decide (b ^ n <= u64_max)%N then Some (b ^ n)%N else None.

Definition u64_saturating_mul (a b : N) : N := N.min (a * b) u64_max.

(** The delay before restart number [n] (from 1). *)
Definition backoff_delay (p : RestartPolicy) (n : N) : N :=
  N.min
    (u64_saturating_mul (default u64_max (u64_checked_pow 2 (n - 1))) (initial_backoff_ms p))
    (max_backoff_ms p).

(** [BackoffState::record_exit].  [self.restarts += 1] runs only below
    [max_retries], so it stays within [u32] ([record_exit_fits]). *)
Definition backoff_record_exit (b : BackoffState) (uptime : N) : RestartDecision * BackoffState :=
  let b := if decide (stability_threshold_ms (policy b) <= uptime)%N then restore_budget b else b in
  if decide (max_retries (policy b) <= restarts b)%N then (GiveUp, b)
  else
    let n := (restarts b + 1)%N in
    (Restart (backoff_delay (policy b) n), mk_backoff (policy b) n).

(** ** Service state, service.rs and services.rs *)

Inductive ServiceState := Starting | Running | Backoff | GaveUp | Stopped.

#[global] Instance ServiceState_eq_dec : EqDecision ServiceState.
Proof. solve_decision. Defined.

Record ServiceStatus := mk_status {
  status_name : string;
  status_pid : option N;
  status_state : ServiceState;
  status_restarts : N;
}.

Inductive ExitOutcome := RestartAfter (after : N) | OutcomeGaveUp | StoppedOnRequest.

#[global] Instance ExitOutcome_eq_dec : EqDecision ExitOutcome.
Proof. solve_decision. Defined.

Definition STARTUP_GRACE_PERIOD : N := 500.

Record ServiceRuntime := mk_runtime {
  rt_name : string;
  rt_state : ServiceState;
  rt_pid : option N;
  rt_backoff : BackoffState;
  rt_stop_requested : bool;
}.

Definition runtime_new (name : string) (restart : RestartPolicy) : ServiceRuntime :=
  mk_runtime name Starting None (backoff_new restart) false.

Definition runtime_status (r : ServiceRuntime) : ServiceStatus :=
  mk_status (rt_name r) (rt_pid r) (rt_state r) (restarts (rt_backoff r)).

Definition record_started (pid : N) (r : ServiceRuntime) : ServiceRuntime :=
  mk_runtime (rt_name r) Starting (Some pid) (rt_backoff r) (rt_stop_requested r).

Definition record_survived_startup (r : ServiceRuntime) : ServiceRuntime :=
  if decide (rt_state r = Starting) then
    mk_runtime (rt_name r) Running (rt_pid r) (rt_backoff r) (rt_stop_requested r)
  else r.

Definition runtime_record_exit (uptime : N) (r : ServiceRuntime) : ExitOutcome * ServiceRuntime :=
  if rt_stop_requested r then
    (StoppedOnRequest, mk_runtime (rt_name r) Stopped None (rt_backoff r) false)
  else
    match backoff_record_exit (rt_backoff r) uptime with
    | (Restart after, b) =>
        (RestartAfter after, mk_runtime (rt_name r) Backoff None b false)
    | (GiveUp, b) =>
        (OutcomeGaveUp, mk_runtime (rt_name r) GaveUp None b false)
    end.

Definition record_stop_requested (r : ServiceRuntime) : ServiceRuntime :=
  mk_runtime (rt_name r) (rt_state r) (rt_pid r) (rt_backoff r) true.

Definition record_start_requested (r : ServiceRuntime) : ServiceRuntime :=
  mk_runtime (rt_name r) (rt_state r) (rt_pid r) (restore_budget (rt_backoff r)) false.

(** ** Backoff: the machine arithmetic is the intended one *)

Lemma pow2_checked n :
  u64_checked_pow 2 n = if decide (n < 64)%N then Some (2 ^ n)%N else None.
Proof.
  unfold u64_checked_pow. destruct (decide (n < 64)%N) as [Hn|Hn].
  - rewrite decide_True; [done|]. assert (2 ^ n <= 2 ^ 63)%N by (apply N.pow_le_mono_r; lia).
    unfold u64_max. change (2 ^ 63)%N with 9223372036854775808%N in *. lia.
  - rewrite decide_False; [done|]. assert (2 ^ 64 <= 2 ^ n)%N by (apply N.pow_le_mono_r; lia).
    unfold u64_max. change (2 ^ 64)%N with 18446744073709551616%N in *. lia.
Qed.

(** Saturation never shows: the delay is [min(initial * 2^(n-1), max)] over the
    unbounded integers. *)
Lemma backoff_delay_exact p n :
  policy_fits p ->
  backoff_delay p n = N.min (initial_backoff_ms p * 2 ^ (n - 1)) (max_backoff_ms p).
Proof.
  intros (_ & _ & Hmax & _). unfold backoff_delay, u64_saturating_mul.
  rewrite pow2_checked. case_decide as Hn; simpl; [lia|].
  assert (2 ^ 64 <= 2 ^ (n - 1))%N by (apply N.pow_le_mono_r; lia).
  change (2 ^ 64)%N with 18446744073709551616%N in *.
  destruct (decide (initial_backoff_ms p = 0%N)) as [->|Hi]; [lia|].
  assert (18446744073709551616 <= initial_backoff_ms p * 2 ^ (n - 1))%N by nia.
  unfold u64_max in *. nia.
Qed.

Lemma record_exit_fits b uptime :
  policy_fits (policy b) -> (restarts b <= u32_max)%N ->
  (restarts (backoff_record_exit b uptime).2 <= u32_max)%N.
Proof.
  intros (Hr & _) Hb. unfold backoff_record_exit. repeat case_decide; simpl in *; lia.
Qed.

(** A sequence of exits, each with the uptime before it. *)
Fixpoint exits (b : BackoffState) (uptimes : list N) : list RestartDecision * BackoffState :=
  match uptimes with
  | [] => ([], b)
  | u :: us =>
      let '(d, b') := backoff_record_exit b u in
      let '(ds, b'') := exits b' us in (d :: ds, b'')
  end.

(** What the policy promises for unstable exits number [k], [k+1], ... since the
    last stable run: a doubling, capped delay while the budget lasts. *)
Fixpoint intended (p : RestartPolicy) (k : N) (n : nat) : list RestartDecision :=
  match n with
  | O => []
  | S n' =>
      (if decide (k < max_retries p)%N
       then Restart (N.min (initial_backoff_ms p * 2 ^ k) (max_backoff_ms p))
       else GiveUp)
      :: intended p (if decide (k < max_retries p)%N then k + 1 else k)%N n'
  end.

Lemma exits_unstable p k us :
  policy_fits p -> Forall (fun u => (u < stability_threshold_ms p)%N) us ->
  (exits (mk_backoff p k) us).1 = intended p k (length us).
Proof.
  intros Hp Hus. revert k. induction Hus as [|u us Hu Hus IH]; intros k; [done|].
  simpl. unfold backoff_record_exit. simpl. rewrite (decide_False (P := (_ <= u)%N)) by lia. simpl.
  destruct (decide (k < max_retries p)%N).
  - rewrite decide_False by lia. specialize (IH (k + 1)%N).
    destruct (exits (mk_backoff p (k + 1)) us) as [ds b']. simpl in *.
    rewrite backoff_delay_exact by done. rewrite IH. by replace (k + 1 - 1)%N with k by lia.
  - rewrite decide_True by lia. specialize (IH k).
    destruct (exits (mk_backoff p k) us) as [ds b']. simpl in *. by rewrite IH.
Qed.

Lemma intended_lookup p k n i :
  (i < n)%nat -> (k <= max_retries p)%N ->
  intended p k n !! i =
    Some (if decide (k + N.of_nat i < max_retries p)%N
          then Restart (N.min (initial_backoff_ms p * 2 ^ (k + N.of_nat i)) (max_backoff_ms p))
          else GiveUp).
Proof.
  revert k i. induction n as [|n IH]; intros k i Hi Hk; [lia|]. destruct i as [|i]; simpl.
  { by rewrite N.add_0_r. }
  destruct (decide (k < max_retries p)%N).
  - rewrite IH by lia. do 2 f_equal. by replace (k + 1 + N.of_nat i)%N with (k + N.pos (Pos.of_succ_nat i))%N by lia.
  - rewrite IH by lia. by rewrite !decide_False by lia.
Qed.

(** C40.  Whatever happened before, after a stable run the service has its whole
    budget: of the exits that follow (the stable one is number 0), those before
    [max_retries] are restarted after [min(initial * 2^i, max)] milliseconds,
    computed without overflow on [u64], and every later one gives up, for as
    long as no run is stable. *)
Theorem backoff_schedule (b : BackoffState) (u : N) (us : list N) (i : nat) :
  policy_fits (policy b) ->
  (stability_threshold_ms (policy b) <= u)%N ->
  Forall (fun u => (u < stability_threshold_ms (policy b))%N) us ->
  (i <= length us)%nat ->
  (exits b (u :: us)).1 !! i =
    Some (if decide (N.of_nat i < max_retries (policy b))%N
          then Restart (N.min (initial_backoff_ms (policy b) * 2 ^ N.of_nat i) (max_backoff_ms (policy b)))
          else GiveUp).
Proof.
  intros Hp Hu Hus Hi.
  assert ((exits b (u :: us)).1 = intended (policy b) 0 (S (length us))) as ->.
  { simpl. unfold backoff_record_exit. rewrite (decide_True (P := (_ <= u)%N)) by done. simpl.
    destruct (decide (0 < max_retries (policy b))%N).
    - rewrite decide_False by lia. change (0 + 1)%N with 1%N. pose proof (exits_unstable (policy b) 1 us Hp Hus) as He.
      simpl. destruct (exits (mk_backoff (policy b) 1) us) as [ds b']. simpl in *.
      by rewrite backoff_delay_exact, He by done.
    - rewrite decide_True by lia. pose proof (exits_unstable (policy b) 0 us Hp Hus) as He.
      simpl. unfold restore_budget. destruct (exits (mk_backoff (policy b) 0) us) as [ds b'].
      simpl in *. by rewrite He. }
  rewrite intended_lookup by lia. done.
Qed.

Lemma backoff_schedule_witness :
  (exits (mk_backoff default_policy 3) [10000; 7; 7; 7; 7; 7; 7]%N).1 !! 4%nat = Some (Restart 8000)%N /\
  (exits (mk_backoff default_policy 3) [10000; 7; 7; 7; 7; 7; 7]%N).1 !! 5%nat = Some GiveUp.
Proof.
  split.
  - apply (backoff_schedule (mk_backoff default_policy 3) 10000 [7; 7; 7; 7; 7; 7]%N 4);
      [by_decide|by_decide|by_decide|simpl; lia].
  - apply (backoff_schedule (mk_backoff default_policy 3) 10000 [7; 7; 7; 7; 7; 7]%N 5);
      [by_decide|by_decide|by_decide|simpl; lia].
Defined.

(** ** One service *)

(** A pid is recorded only in [Starting] and [Running], and the count of
    restarts never exceeds the budget. *)
Definition runtime_ok (r : ServiceRuntime) : Prop :=
  (is_Some (rt_pid r) -> rt_state r = Starting \/ rt_state r = Running) /\
  (restarts (rt_backoff r) <= max_retries (policy (rt_backoff r)))%N.

Lemma runtime_new_ok name p : runtime_ok (runtime_new name p).
Proof. split; simpl; [intros [? [=]]|lia]. Qed.

Lemma record_started_ok pid r : runtime_ok r -> runtime_ok (record_started pid r).
Proof. intros [_ ?]. split; simpl; auto. Qed.

Lemma record_survived_startup_ok r : runtime_ok r -> runtime_ok (record_survived_startup r).
Proof.
  intros [Hp Hb]. unfold record_survived_startup. case_decide; [|by split].
  split; simpl; auto.
Qed.

Lemma runtime_record_exit_ok uptime r : runtime_ok r -> runtime_ok (runtime_record_exit uptime r).2.
Proof.
  intros [_ Hb]. unfold runtime_record_exit, backoff_record_exit.
  destruct (rt_stop_requested r); [split; simpl; [intros [? [=]]|done]|].
  repeat case_decide; simpl in *; (split; simpl; [intros [? [=]]|lia]).
Qed.

Lemma record_stop_requested_ok r : runtime_ok r -> runtime_ok (record_stop_requested r).
Proof. by intros [??]. Qed.

Lemma record_start_requested_ok r : runtime_ok r -> runtime_ok (record_start_requested r).
Proof. intros [? _]. split; simpl; [done|lia]. Qed.

Lemma runtime_record_exit_pid uptime r : rt_pid (runtime_record_exit uptime r).2 = None.
Proof.
  unfold runtime_record_exit. destruct (rt_stop_requested r); [done|].
  by destruct (backoff_record_exit _ _) as [[]].
Qed.

Lemma runtime_record_exit_name uptime r : rt_name (runtime_record_exit uptime r).2 = rt_name r.
Proof.
  unfold runtime_record_exit. destruct (rt_stop_requested r); [done|].
  by destruct (backoff_record_exit _ _) as [[]].
Qed.

Lemma record_survived_startup_pid r : rt_pid (record_survived_startup r) = rt_pid r.
Proof. unfold record_survived_startup. by case_decide. Qed.

Lemma record_survived_startup_name r : rt_name (record_survived_startup r) = rt_name r.
Proof. unfold record_survived_startup. by case_decide. Qed.

#[export] Hint Resolve runtime_new_ok record_started_ok record_survived_startup_ok
  runtime_record_exit_ok record_stop_requested_ok record_start_requested_ok : supervisor.
