(* ===== verification/SessionTable.v ===== *)
(** * The supervisor's session table

    [src/packages/tddy-supervisor/src/supervisor/session_table.rs]: the
    sessions spawned on a caller's behalf, by pid, with a generation per spawn
    because pids are reissued, and a bounded memory of exit statuses.

    The table is related to [log], the history of every session ever spawned,
    which forgets nothing and is keyed by generation.  [table_refines] is the
    simulation relation; every operation preserves it under what the kernel
    promises about pids (a fork does not return the pid of an unreaped child,
    a child is reaped once). *)

From S2P Require Import Prelude.

(** ** Data *)

Inductive SessionOutcome := OutcomeRunning | OutcomeExited (code : option Z).

#[global] Instance SessionOutcome_eq_dec : EqDecision SessionOutcome.
Proof. solve_decision. Defined.

Inductive SessionState := SessionRunning | SessionExited.

Record SessionStatus := mk_session_status {
  sst_pid : N;
  sst_state : SessionState;
  sst_exit_code : option Z;
}.

(** [SessionGeneration(u64)]. *)
Notation SessionGeneration := N (only parsing).

Record SessionRecord := mk_record { generation : SessionGeneration; outcome : SessionOutcome }.

#[global] Instance SessionRecord_eq_dec : EqDecision SessionRecord.
Proof. solve_decision. Defined.

Record SessionTable := mk_table {
  records : gmap N SessionRecord;
  exited : list N;
  spawned : N;  (* u64 *)
  scopes : gmap SessionGeneration string;
}.

Definition table_default : SessionTable := mk_table ∅ [] 0 ∅.

Definition RETAINED_EXITED_SESSIONS : nat := 256.

Inductive SupervisorError :=
| Denied
| NotFound (name : string)
| Invalid (message : string)
| Unavailable (message : string)
| OperationFailed (message : string).

(** ** Operations *)

(** [self.spawned += 1] on [u64]. *)
Definition u64_succ {E} (overflow_checks : bool) (n : N) : res E N :=
  if decide (n < u64_max)%N then Ok (n + 1)%N
  else if overflow_checks then Panic else Ok 0%N.

Definition record_spawned {E} (overflow_checks : bool) (pid : N) (t : SessionTable)
  : res E (SessionGeneration * SessionTable) :=
  let exited' := filter (fun p => p <> pid) (exited t) in
  res_bind (u64_succ overflow_checks (spawned t)) (fun g =>
    Ok (g, mk_table (<[pid := mk_record g OutcomeRunning]> (records t)) exited' g (scopes t))).

Definition own_scope (g : SessionGeneration) (scope : string) (t : SessionTable) : SessionTable :=
  mk_table (records t) (exited t) (spawned t) (<[g := scope]> (scopes t)).

(** The part of [fork_session] after the fork: under one lock, the session is
    recorded together with the scope it was placed in. *)
Definition record_session {E} (overflow_checks : bool) (pid : N) (scope : option string) (t : SessionTable)
  : res E (SessionGeneration * SessionTable) :=
  res_bind (record_spawned overflow_checks pid t) (fun '(g, t') =>
    Ok (g, match scope with Some sc => own_scope g sc t' | None => t' end)).

(** [while self.exited.len() > RETAINED_EXITED_SESSIONS]. *)
Fixpoint evict (ex : list N) (rs : gmap N SessionRecord) : list N * gmap N SessionRecord :=
  match ex with
  | [] => ([], rs)
  | p :: ex' =>
      if decide (RETAINED_EXITED_SESSIONS < length ex)%nat then evict ex' (delete p rs) else (ex, rs)
  end.

(** [SessionTable::record_exit]: the scope handed back and the new table. *)
Definition record_exit (pid : N) (code : option Z) (t : SessionTable) : option string * SessionTable :=
  match records t !! pid with
  | None => (None, t)
  | Some r =>
      let rs := <[pid := mk_record (generation r) (OutcomeExited code)]> (records t) in
      let '(ex, rs) := evict (exited t ++ [pid]) rs in
      (scopes t !! generation r, mk_table rs ex (spawned t) (delete (generation r) (scopes t)))
  end.

Definition status_of (pid : N) (o : SessionOutcome) : SessionStatus :=
  match o with
  | OutcomeRunning => mk_session_status pid SessionRunning None
  | OutcomeExited code => mk_session_status pid SessionExited code
  end.

Definition session_status (t : SessionTable) (pid : N) : option SessionStatus :=
  (fun r => status_of pid (outcome r)) <$> records t !! pid.

Definition snapshot (t : SessionTable) (pid : N) : option (SessionGeneration * SessionStatus) :=
  match records t !! pid with
  | None => None
  | Some r => (fun status => (generation r, status)) <$> session_status t pid
  end.

Definition is_running_generation (t : SessionTable) (pid : N) (g : SessionGeneration) : bool :=
  bool_decide (records t !! pid = Some (mk_record g OutcomeRunning)).

(** The map iterates in key order. *)
Definition running_pids (t : SessionTable) : list N :=
  sort_by N.leb (fst <$> filter (fun kr => outcome kr.2 = OutcomeRunning) (map_to_list (records t))).

Definition require_running (t : SessionTable) (pid : N) : res SupervisorError unit :=
  match outcome <$> records t !! pid with
  | Some OutcomeRunning => Ok tt
  | Some (OutcomeExited _) | None => Err Denied
  end.

(** ** The history the table is a bounded view of *)

Record session := mk_session { s_pid : N; s_scope : option string; s_outcome : SessionOutcome }.

(** Newest first; a session's generation is its position from the end. *)
Fixpoint session_at (log : list session) (g : N) : option session :=
  match log with
  | [] => None
  | s :: older => if decide (g = N.of_nat (length log)) then Some s else session_at older g
  end.

(** The last session spawned as [pid]. *)
Fixpoint latest (log : list session) (pid : N) : option (N * session) :=
  match log with
  | [] => None
  | s :: older =>
      if decide (s_pid s = pid) then Some (N.of_nat (length log), s) else latest older pid
  end.

Definition log_spawn (pid : N) (scope : option string) (log : list session) : list session :=
  mk_session pid scope OutcomeRunning :: log.

Fixpoint log_exit (pid : N) (code : option Z) (log : list session) : list session :=
  match log with
  | [] => []
  | s :: older =>
      if decide (s_pid s = pid) then mk_session pid (s_scope s) (OutcomeExited code) :: older
      else s :: log_exit pid code older
  end.

Definition log_running (log : list session) (pid : N) : Prop :=
  exists g s, latest log pid = Some (g, s) /\ s_outcome s = OutcomeRunning.

(** [t] is a view of [log]: what it records is the last session of the pid,
    every running session is recorded, a scope is kept for exactly the running
    sessions that have one, and the exited pids are remembered once, 256 at most. *)
Record table_refines (t : SessionTable) (log : list session) : Prop := {
  tr_spawned : spawned t = N.of_nat (length log);
  tr_records : forall pid r, records t !! pid = Some r ->
    exists s, latest log pid = Some (generation r, s) /\ s_outcome s = outcome r;
  tr_running : forall pid, log_running log pid -> is_Some (records t !! pid);
  tr_scopes : forall g sc, scopes t !! g = Some sc <->
    exists s, session_at log g = Some s /\ s_outcome s = OutcomeRunning /\ s_scope s = Some sc;
  tr_latest : forall g s, session_at log g = Some s -> s_outcome s = OutcomeRunning ->
    latest log (s_pid s) = Some (g, s);
  tr_exited : forall pid, pid ∈ exited t <->
    exists g code, records t !! pid = Some (mk_record g (OutcomeExited code));
  tr_nodup : NoDup (exited t);
  tr_bound : (length (exited t) <= RETAINED_EXITED_SESSIONS)%nat;
}.

(** ** Lemmas on the history *)

Lemma session_at_bound log g s : session_at log g = Some s -> (1 <= g <= N.of_nat (length log))%N.
Proof.
  induction log as [|s' log IH]; [done|]. simpl. case_decide; [intros _; lia|].
  intros ?%IH. lia.
Qed.

Lemma latest_session_at log pid g s :
  latest log pid = Some (g, s) -> session_at log g = Some s /\ s_pid s = pid.
Proof.
  induction log as [|s' log IH]; [done|]. cbn [latest session_at]. case_decide as Hp.
  - intros [= <- <-]. by rewrite decide_True.
  - intros Hl. destruct (IH Hl) as [Hs Hpid]. split; [|done].
    rewrite decide_False; [done|]. apply session_at_bound in Hs. simpl. lia.
Qed.

Lemma log_exit_length pid code log : length (log_exit pid code log) = length log.
Proof. induction log; simpl; [done|]. case_decide; simpl; auto. Qed.

Lemma latest_log_exit pid code log q :
  latest (log_exit pid code log) q =
    if decide (q = pid) then
      (fun '(g, s) => (g, mk_session pid (s_scope s) (OutcomeExited code))) <$> latest log pid
    else latest log q.
Proof.
  induction log as [|s log IH]; [by case_decide|]. cbn [log_exit].
  destruct (decide (s_pid s = pid)) as [Hp|Hp]; cbn [latest].
  - cbn [s_pid length]. destruct (decide (q = pid)) as [->|Hq].
    + rewrite !decide_True by done. done.
    + rewrite !decide_False by congruence. done.
  - cbn [length]. rewrite log_exit_length, IH.
    destruct (decide (q = pid)) as [->|Hq]; [by rewrite !decide_False by done|done].
Qed.

Lemma session_at_log_exit pid code log g :
  session_at (log_exit pid code log) g =
    match latest log pid with
    | Some (g', s) =>
        if decide (g = g') then Some (mk_session pid (s_scope s) (OutcomeExited code))
        else session_at log g
    | None => session_at log g
    end.
Proof.
  induction log as [|s log IH]; [done|]. cbn [log_exit latest].
  destruct (decide (s_pid s = pid)) as [Hp|Hp]; cbn [session_at length].
  - by case_decide.
  - rewrite log_exit_length. destruct (latest log pid) as [[g' s']|] eqn:Hl.
    + pose proof (latest_session_at _ _ _ _ Hl) as [Hb%session_at_bound _].
      case_decide; [by rewrite decide_False by lia|]. by rewrite IH.
    + case_decide; [done|]. by rewrite IH.
Qed.

(** ** Lemmas on eviction *)

Lemma evict_short ex rs : (length ex <= RETAINED_EXITED_SESSIONS)%nat -> evict ex rs = (ex, rs).
Proof. destruct ex; simpl; [done|]. intros. by rewrite decide_False by lia. Qed.

(** One exit past the capacity evicts the oldest status, and only that. *)
Lemma evict_snoc ex pid rs :
  (length ex <= RETAINED_EXITED_SESSIONS)%nat ->
  evict (ex ++ [pid]) rs = (ex ++ [pid], rs) /\ (length (ex ++ [pid]) <= RETAINED_EXITED_SESSIONS)%nat \/
  exists old ex', ex = old :: ex' /\ length ex = RETAINED_EXITED_SESSIONS /\
    evict (ex ++ [pid]) rs = (ex' ++ [pid], delete old rs).
Proof.
  intros Hlen. destruct (decide (length ex < RETAINED_EXITED_SESSIONS)%nat) as [Hlt|Hge].
  - left. assert (length (ex ++ [pid]) <= RETAINED_EXITED_SESSIONS)%nat by (rewrite length_app; simpl; lia).
    by rewrite evict_short.
  - right. destruct ex as [|old ex']; [unfold RETAINED_EXITED_SESSIONS in *; simpl in *; lia|].
    exists old, ex'. split_and!; [done|lia|]. cbn [evict app].
    rewrite decide_True by (simpl; rewrite length_app; simpl in *; lia).
    apply evict_short. rewrite length_app. simpl in *. lia.
Qed.

(** ** The operations implement the history *)

Lemma table_default_refines : table_refines table_default [].
Proof.
  split; simpl; try done.
  - intros pid (g & s & [=] & _).
  - intros g sc. rewrite lookup_empty. naive_solver.
  - intros pid. rewrite elem_of_nil. setoid_rewrite lookup_empty. naive_solver.
  - constructor.
  - unfold RETAINED_EXITED_SESSIONS. lia.
Qed.

Lemma record_session_Ok {E} oc pid scope t :
  (spawned t < u64_max)%N ->
  record_session (E := E) oc pid scope t =
    Ok ((spawned t + 1)%N,
        mk_table (<[pid := mk_record (spawned t + 1) OutcomeRunning]> (records t))
          (filter (fun p => p <> pid) (exited t)) (spawned t + 1)
          (match scope with Some sc => <[(spawned t + 1)%N := sc]> (scopes t) | None => scopes t end)).
Proof.
  intros. unfold record_session, record_spawned, u64_succ. rewrite decide_True by done.
  by destruct scope.
Qed.

Lemma record_session_refines {E} oc pid scope t log :
  table_refines t log -> ~ log_running log pid -> (spawned t < u64_max)%N ->
  exists t', record_session (E := E) oc pid scope t = Ok ((spawned t + 1)%N, t') /\
    table_refines t' (log_spawn pid scope log).
Proof.
  intros [Hsp Hrec Hrun Hsc Hlat Hex Hnd Hb] Hfree Hlt.
  assert (spawned t + 1 = N.of_nat (S (length log)))%N as Hg by (rewrite Hsp; lia).
  rewrite record_session_Ok by done. eexists. split; [reflexivity|]. split; simpl; rewrite ?Hg.
  - done.
  - intros q r. rewrite lookup_insert_Some.
    intros [[<- <-]|[Hne Hr]]; [rewrite decide_True by done|rewrite decide_False by done; by apply Hrec].
    eexists. split; [done|done].
  - intros q (g & s & Hl & Ho). destruct (decide (pid = q)) as [->|Hne]; [by rewrite lookup_insert_eq|].
    rewrite lookup_insert_ne by done. apply Hrun.
    cbn [log_spawn latest s_pid] in Hl. rewrite decide_False in Hl by done. by exists g, s.
  - intros g sc. destruct (decide (g = _)) as [->|Hne].
    + assert (scopes t !! N.of_nat (S (length log)) = None) as Hnew.
      { apply eq_None_not_Some. intros [sc' (s & Hs%session_at_bound & _)%Hsc]. lia. }
      destruct scope as [sc'|]; [rewrite lookup_insert_eq|setoid_rewrite Hnew]; naive_solver.
    + destruct scope as [sc'|]; [rewrite lookup_insert_ne by done|]; apply Hsc.
  - intros g s. case_decide as Hd.
    + intros [= <-] _. simpl. by rewrite decide_True, Hd by done.
    + intros Hs Ho. pose proof (Hlat _ _ Hs Ho) as Hl. rewrite decide_False; [done|].
      intros ->. apply Hfree. by exists g, s.
  - intros q. rewrite list_elem_of_filter, Hex. setoid_rewrite lookup_insert_Some. naive_solver.
  - by apply NoDup_filter.
  - pose proof (length_filter (fun p => p <> pid) (exited t)). lia.
Qed.

(** A running session's record, from the history. *)
Lemma running_record t log pid g s :
  table_refines t log -> latest log pid = Some (g, s) -> s_outcome s = OutcomeRunning ->
  records t !! pid = Some (mk_record g OutcomeRunning).
Proof.
  intros HR Hl Ho. destruct (tr_running _ _ HR pid) as [[g' o] Hr]; [by exists g, s|].
  destruct (tr_records _ _ HR _ _ Hr) as (s' & Hl' & Ho'). simpl in *. rewrite Hr. congruence.
Qed.

(** What an exit does to the two collections: the status is replaced, and at
    most one other exited status, the oldest, is forgotten. *)
Lemma evict_exit t log pid g s code :
  table_refines t log -> latest log pid = Some (g, s) -> s_outcome s = OutcomeRunning ->
  exists gone ex rs,
    evict (exited t ++ [pid]) (<[pid := mk_record g (OutcomeExited code)]> (records t)) = (ex, rs) /\
    (forall q, q ∈ gone -> q <> pid /\ q ∈ exited t) /\
    exited t ++ [pid] = gone ++ ex /\ (length ex <= RETAINED_EXITED_SESSIONS)%nat /\
    (forall q, rs !! q = if decide (q ∈ gone) then None
                         else <[pid := mk_record g (OutcomeExited code)]> (records t) !! q).
Proof.
  intros HR Hl Ho. pose proof (running_record _ _ _ _ _ HR Hl Ho) as Hr.
  assert (pid ∉ exited t) as Hnin.
  { intros (? & ? & He)%(tr_exited _ _ HR). congruence. }
  destruct (evict_snoc (exited t) pid (<[pid := mk_record g (OutcomeExited code)]> (records t))
    (tr_bound _ _ HR)) as [[He Hb]|(old & ex' & Hex & Hlen & He)].
  - exists [], (exited t ++ [pid]). eexists. split_and!; [exact He| |done|done|].
    + by intros q ?%not_elem_of_nil.
    + intros q. rewrite decide_False; [done|]. apply not_elem_of_nil.
  - exists [old], (ex' ++ [pid]). eexists. rewrite Hex in *.
    assert (old <> pid) by (intros ->; apply Hnin; left).
    split_and!; [exact He| |done| |].
    + intros q ->%list_elem_of_singleton. split; [done|left].
    + rewrite length_app. simpl in *. lia.
    + intros q. destruct (decide (q ∈ [old])) as [->%list_elem_of_singleton|Hq].
      * by rewrite lookup_delete_eq.
      * rewrite lookup_delete_ne; [done|]. intros ->. apply Hq. by apply list_elem_of_singleton.
Qed.

Lemma record_exit_refines pid code t log g s :
  table_refines t log -> latest log pid = Some (g, s) -> s_outcome s = OutcomeRunning ->
  (record_exit pid code t).1 = s_scope s /\
  table_refines (record_exit pid code t).2 (log_exit pid code log).
Proof.
  intros HR Hl Ho. unfold record_exit. rewrite (running_record _ _ _ _ _ HR Hl Ho). simpl.
  destruct (evict_exit _ _ _ _ _ code HR Hl Ho) as (gone & ex & rs & -> & Hgone & Hex & Hlen & Hrs). simpl.
  destruct (latest_session_at _ _ _ _ Hl) as [Hat Hpid].
  destruct HR as [Hsp Hrec Hrun Hsc Hlat Hexd Hnd Hb]. split.
  { apply option_eq. intros sc. rewrite Hsc. naive_solver. }
  assert (NoDup (gone ++ ex)) as Hnd'.
  { rewrite <- Hex. apply NoDup_app. split_and!; [done| |apply NoDup_singleton].
    intros q (g' & c & Hq)%Hexd ->%list_elem_of_singleton.
    destruct (Hrec _ _ Hq) as (s' & Hl' & Ho'). simpl in *. congruence. }
  apply NoDup_app in Hnd' as (_ & Hdisj & Hndex).
  split; simpl; [by rewrite log_exit_length|..|done|done].
  - intros q r. rewrite Hrs, latest_log_exit. case_decide as Hq; [done|].
    rewrite lookup_insert_Some. intros [[<- <-]|[Hne Hr]].
    + rewrite decide_True by done. rewrite Hl. simpl. eauto.
    + rewrite decide_False by done. by apply Hrec.
  - intros q (g' & s' & Hlq & Hoq). rewrite latest_log_exit in Hlq.
    destruct (decide (q = pid)) as [->|Hne]; [rewrite Hl in Hlq; by simplify_eq/=|].
    rewrite Hrs, lookup_insert_ne by done. rewrite decide_False; [apply Hrun; by exists g', s'|].
    intros [_ (g2 & c & Hq)%Hexd]%Hgone. destruct (Hrec _ _ Hq) as (s2 & Hl2 & Ho2).
    simpl in *. congruence.
  - intros g' sc. rewrite session_at_log_exit, Hl. rewrite lookup_delete_Some, Hsc.
    case_decide; naive_solver.
  - intros g' s'. rewrite session_at_log_exit, Hl, latest_log_exit. case_decide as Hg; [by intros [= <-]|].
    intros Hs' Ho'. pose proof (Hlat _ _ Hs' Ho') as Hl'.
    rewrite decide_False; [done|]. intros Hp. rewrite Hp in Hl'. congruence.
  - intros q. rewrite Hrs. assert (q ∈ ex <-> q ∉ gone /\ (q ∈ exited t \/ q = pid)) as ->.
    { split.
      - intros Hq. split; [intros Hq'; by eapply Hdisj|].
        assert (q ∈ exited t ++ [pid]) as Hq' by (rewrite Hex; set_solver). set_solver.
      - intros [Hng Hq]. assert (q ∈ gone ++ ex) as Hq' by (rewrite <- Hex; set_solver). set_solver. }
    rewrite Hexd. case_decide as Hg; [naive_solver|]. setoid_rewrite lookup_insert_Some.
    split; [|naive_solver].
    intros [_ [(g' & c & Hq)| ->]]; [|by eauto].
    destruct (decide (pid = q)) as [->|]; [by eauto|]. eauto 10.
Qed.

(** A reaped pid the table does not know leaves it alone. *)
Lemma record_exit_unknown pid code t :
  records t !! pid = None -> record_exit pid code t = (None, t).
Proof. intros Hr. unfold record_exit. by rewrite Hr. Qed.

(** ** Executions *)

Inductive table_event := Spawn (pid : N) (scope : option string) | Exit (pid : N) (code : option Z).

(** One event on the table and on the history side by side.  The guards are
    the kernel's: a fork does not return the pid of a running child, and the
    exit of a session is reported while it is running.  2^64 spawns are not
    reached. *)
Inductive table_step (oc : bool) : table_event -> SessionTable * list session -> SessionTable * list session -> Prop :=
| step_spawn pid scope t t' log g :
    ~ log_running log pid -> (spawned t < u64_max)%N ->
    record_session (E := Empty_set) oc pid scope t = Ok (g, t') ->
    table_step oc (Spawn pid scope) (t, log) (t', log_spawn pid scope log)
| step_exit pid code t log :
    log_running log pid ->
    table_step oc (Exit pid code) (t, log) ((record_exit pid code t).2, log_exit pid code log).

Inductive table_trace (oc : bool) : list table_event -> SessionTable * list session -> SessionTable * list session -> Prop :=
| trace_nil x : table_trace oc [] x x
| trace_cons e es x y z : table_step oc e x y -> table_trace oc es y z -> table_trace oc (e :: es) x z.

Lemma table_step_refines oc e x y :
  table_step oc e x y -> table_refines x.1 x.2 -> table_refines y.1 y.2.
Proof.
  intros [pid scope t t' log g Hf Hlt Hs|pid code t log (g & s & Hl & Ho)] HR; simpl in *.
  - destruct (record_session_refines (E := Empty_set) oc pid scope t log HR Hf Hlt) as (t2 & Hs' & HR').
    rewrite Hs in Hs'. by simplify_eq.
  - by eapply record_exit_refines.
Qed.

Lemma table_trace_refines oc es x y :
  table_trace oc es x y -> table_refines x.1 x.2 -> table_refines y.1 y.2.
Proof. induction 1; eauto using table_step_refines. Qed.

(** ** What a caller is told *)

Lemma session_status_spec t log pid st :
  table_refines t log -> session_status t pid = Some st ->
  exists g s, latest log pid = Some (g, s) /\ st = status_of pid (s_outcome s).
Proof.
  intros HR (r & Hr & ->)%fmap_Some. destruct (tr_records _ _ HR _ _ Hr) as (s & Hl & Ho).
  exists (generation r), s. by rewrite Ho.
Qed.

Lemma is_running_generation_spec t log pid g :
  table_refines t log ->
  is_running_generation t pid g = true <->
  exists s, session_at log g = Some s /\ s_pid s = pid /\ s_outcome s = OutcomeRunning.
Proof.
  intros HR. unfold is_running_generation. rewrite bool_decide_eq_true. split.
  - intros Hr. destruct (tr_records _ _ HR _ _ Hr) as (s & Hl & Ho).
    destruct (latest_session_at _ _ _ _ Hl). eauto.
  - intros (s & Hs & <- & Ho). eapply running_record; eauto using tr_latest.
Qed.

Lemma running_pids_spec t log pid :
  table_refines t log -> pid ∈ running_pids t <-> log_running log pid.
Proof.
  intros HR. unfold running_pids. rewrite sort_by_Permutation, list_elem_of_fmap. split.
  - intros ([q [g o]] & -> & [Ho Hr%elem_of_map_to_list]%list_elem_of_filter). simpl in *. subst.
    destruct (tr_records _ _ HR _ _ Hr) as (s & Hl & Ho). by exists g, s.
  - intros (g & s & Hl & Ho). exists (pid, mk_record g OutcomeRunning). split; [done|].
    apply list_elem_of_filter. split; [done|]. apply elem_of_map_to_list.
    eauto using running_record.
Qed.

Lemma running_pids_NoDup t : NoDup (running_pids t).
Proof.
  unfold running_pids. rewrite sort_by_Permutation.
  eapply sublist_NoDup; [apply (NoDup_fst_map_to_list (records t))|].
  apply fmap_sublist. apply sublist_filter.
Qed.

Lemma require_running_spec t log pid :
  table_refines t log -> require_running t pid = Ok tt <-> log_running log pid.
Proof.
  intros HR. unfold require_running. split.
  - destruct (records t !! pid) as [[g []]|] eqn:Hr; intros [=].
    destruct (tr_records _ _ HR _ _ Hr) as (s & Hl & Ho). by exists g, s.
  - intros (g & s & Hl & Ho). by rewrite (running_record _ _ _ _ _ HR Hl Ho).
Qed.

(** The table holds the running sessions and the retained exits, nothing else. *)
Lemma records_size t log :
  table_refines t log -> size (records t) = (length (running_pids t) + length (exited t))%nat.
Proof.
  intros HR. rewrite <- length_app, <- length_map_to_list, <- (length_fmap fst (map_to_list _)).
  apply Permutation_length, NoDup_Permutation; [apply NoDup_fst_map_to_list| |].
  - apply NoDup_app. split_and!; [apply running_pids_NoDup| |apply (tr_nodup _ _ HR)].
    intros q (g & s & Hl & Ho)%(running_pids_spec _ _ _ HR) (g' & c & Hr)%(tr_exited _ _ HR).
    pose proof (running_record _ _ _ _ _ HR Hl Ho). congruence.
  - intros q. rewrite elem_of_app, (running_pids_spec _ _ _ HR), (tr_exited _ _ HR), list_elem_of_fmap.
    split.
    + intros ([q' [g []]] & -> & Hr%elem_of_map_to_list); simpl in *; [left|by eauto].
      destruct (tr_records _ _ HR _ _ Hr) as (s & Hl & Ho). by exists g, s.
    + intros [(g & s & Hl & Ho)|(g & c & Hr)].
      * pose proof (running_record _ _ _ _ _ HR Hl Ho) as Hr.
        eexists (q, _). split; [done|]. by apply elem_of_map_to_list.
      * eexists (q, _). split; [done|]. by apply elem_of_map_to_list.
Qed.

(** C22.  Along every execution the table tells the truth about the whole
    history of sessions: a reported status is that of the last session spawned
    as the pid; a running session is always reported, and only running sessions
    may be acted on; a generation is running exactly when that very session is,
    however often its pid was reissued; the pids to shut down are exactly the
    running ones, once each; and what is remembered beyond them is at most 256
    exited sessions. *)
Theorem table_reports_truth (oc : bool) (es : list table_event) (t : SessionTable) (log : list session) :
  table_trace oc es (table_default, []) (t, log) ->
  (forall pid st, session_status t pid = Some st ->
     exists g s, latest log pid = Some (g, s) /\ st = status_of pid (s_outcome s)) /\
  (forall pid, require_running t pid = Ok tt <-> log_running log pid) /\
  (forall pid g, is_running_generation t pid g = true <->
     exists s, session_at log g = Some s /\ s_pid s = pid /\ s_outcome s = OutcomeRunning) /\
  (forall pid, pid ∈ running_pids t <-> log_running log pid) /\ NoDup (running_pids t) /\
  (size (records t) <= length (running_pids t) + RETAINED_EXITED_SESSIONS)%nat.
Proof.
  intros HR%table_trace_refines; [|apply table_default_refines]. simpl in HR.
  split_and!; eauto using session_status_spec, running_pids_NoDup.
  - intros pid. by apply require_running_spec.
  - intros pid g. by apply is_running_generation_spec.
  - intros pid. by apply running_pids_spec.
  - rewrite (records_size _ _ HR). pose proof (tr_bound _ _ HR). lia.
Qed.

(** A pid reissued after an exit: the first incarnation is not the running one. *)
Definition reissue_events : list table_event :=
  [Spawn 42 (Some "a.scope"); Exit 42 (Some 0%Z); Spawn 42 None].

Lemma table_reports_truth_witness :
  exists t log, table_trace false reissue_events (table_default, []) (t, log) /\
    is_running_generation t 42 1 = false /\ is_running_generation t 42 2 = true /\
    (size (records t) <= length (running_pids t) + RETAINED_EXITED_SESSIONS)%nat.
Proof.
  eexists _, _.
  assert (table_trace false reissue_events (table_default, [])
    (mk_table {[42%N := mk_record 2 OutcomeRunning]} [] 2 ∅,
     [mk_session 42 None OutcomeRunning; mk_session 42 (Some "a.scope") (OutcomeExited (Some 0%Z))])) as Htr.
  { eapply trace_cons; [eapply step_spawn|eapply trace_cons; [apply step_exit|
      eapply trace_cons; [eapply step_spawn|]]].
    - intros (? & ? & [=] & _).
    - by_decide.
    - reflexivity.
    - eexists _, _. split; reflexivity.
    - intros (? & ? & [= <- <-] & [=]).
    - by_decide.
    - reflexivity.
    - apply trace_nil. }
  split; [exact Htr|].
  destruct (table_reports_truth _ _ _ _ Htr) as (_ & _ & Hgen & _ & _ & Hsize).
  split_and!; [|by apply Hgen; eexists; split_and!; reflexivity|exact Hsize].
  apply not_true_is_false. intros (s & [= <-] & _ & [=])%Hgen.
Defined.

(** ** How long a status stays available *)

Definition is_exit (e : table_event) : bool := match e with Exit _ _ => true | Spawn _ _ => false end.
Definition exit_count (es : list table_event) : nat := length (filter (fun e => is_exit e = true) es).

(** [pid]'s exit is on record and at most [n] sessions have exited since. *)
Definition retained (pid : N) (code : option Z) (n : nat) (t : SessionTable) : Prop :=
  exists g l1 l2, records t !! pid = Some (mk_record g (OutcomeExited code)) /\
    exited t = l1 ++ pid :: l2 /\ (length l2 <= n)%nat.

Lemma retained_spawn {E} oc pid code n t q scope g t' :
  retained pid code n t -> q <> pid ->
  record_session (E := E) oc q scope t = Ok (g, t') -> retained pid code n t'.
Proof.
  intros (g0 & l1 & l2 & Hr & Hex & Hn) Hq Hs.
  assert (records t' = <[q := mk_record g OutcomeRunning]> (records t) /\
          exited t' = filter (fun p => p <> q) (exited t)) as [Hr' Hex'].
  { unfold record_session, record_spawned in Hs.
    destruct (u64_succ oc (spawned t)); simplify_eq/=. by destruct scope; simplify_eq/=. }
  exists g0, (filter (fun p => p <> q) l1), (filter (fun p => p <> q) l2).
  rewrite Hr', Hex', Hex, lookup_insert_ne, filter_app, filter_cons, decide_True by done.
  split_and!; [done|done|]. pose proof (length_filter (fun p => p <> q) l2). lia.
Qed.

Lemma retained_exit pid code n t log q code' :
  table_refines t log -> retained pid code n t -> log_running log q ->
  (S n < RETAINED_EXITED_SESSIONS)%nat -> retained pid code (S n) (record_exit q code' t).2.
Proof.
  intros HR (g0 & l1 & l2 & Hr & Hex & Hn) (g & s & Hl & Ho) Hlt.
  pose proof (running_record _ _ _ _ _ HR Hl Ho) as Hq.
  assert (q <> pid) as Hne by (intros ->; congruence).
  unfold record_exit. rewrite Hq. simpl.
  destruct (evict_snoc (exited t) q (<[q := mk_record g (OutcomeExited code')]> (records t))
    (tr_bound _ _ HR)) as [[-> _]|(old & ex' & Hold & Hlen & ->)]; simpl.
  - exists g0, l1, (l2 ++ [q]). simpl. rewrite lookup_insert_ne by done. split_and!; [done| |].
    + simpl. by rewrite Hex, <- app_assoc.
    + rewrite length_app. simpl. lia.
  - destruct l1 as [|o l1]; simpl in Hex.
    { rewrite Hold in Hex. simplify_eq. rewrite Hold in Hlen. simpl in *. lia. }
    assert (old = o /\ ex' = l1 ++ pid :: l2) as [-> ->] by (rewrite Hold in Hex; by simplify_eq).
    assert (o <> pid) as Hop.
    { pose proof (tr_nodup _ _ HR) as Hnd. rewrite Hex in Hnd.
      inversion Hnd as [|?? Hin]; subst. set_solver. }
    exists g0, l1, (l2 ++ [q]). simpl. rewrite lookup_delete_ne, lookup_insert_ne by done.
    split_and!; [done|by rewrite <- app_assoc|rewrite length_app; simpl; lia].
Qed.

Lemma retained_trace oc pid code es x y n :
  table_trace oc es x y -> table_refines x.1 x.2 -> retained pid code n x.1 ->
  Forall (fun e => forall scope, e <> Spawn pid scope) es ->
  (n + exit_count es < RETAINED_EXITED_SESSIONS)%nat ->
  retained pid code (n + exit_count es) y.1.
Proof.
  intros Htr. revert n. induction Htr as [x|e es x y z Hst Htr IH]; intros n HR Hk Hes Hlt.
  { unfold exit_count. simpl. by rewrite Nat.add_0_r. }
  inversion Hes as [|?? He Hes']; subst. pose proof (table_step_refines _ _ _ _ Hst HR) as HR'.
  unfold exit_count in *. rewrite filter_cons in *.
  destruct Hst as [q scope t t' log g Hf Hsp Hs|q code' t log Hq]; simpl in *.
  - apply IH; [done| |done|done]. eapply retained_spawn; [done| |done]. intros ->. by eapply He.
  - rewrite <- Nat.add_succ_comm in *. apply IH; [done| |done|done].
    eapply retained_exit; [done..|]. lia.
Qed.

(** The exit status of a session stays available until 256 later sessions
    have exited or its pid was given to a new session: a caller that polls
    within that window is told the code the session exited with. *)
Theorem exit_status_retained (oc : bool) (es es' : list table_event) (pid : N) (code : option Z)
    (t t' : SessionTable) (log log' : list session) :
  table_trace oc es (table_default, []) (t, log) ->
  log_running log pid ->
  table_trace oc es' ((record_exit pid code t).2, log_exit pid code log) (t', log') ->
  Forall (fun e => forall scope, e <> Spawn pid scope) es' ->
  (exit_count es' < RETAINED_EXITED_SESSIONS)%nat ->
  session_status t' pid = Some (mk_session_status pid SessionExited code).
Proof.
  intros HR%table_trace_refines Hrun Htr Hes Hlt; [|apply table_default_refines]. simpl in HR.
  destruct Hrun as (g & s & Hl & Ho).
  destruct (record_exit_refines pid code _ _ _ _ HR Hl Ho) as [_ HR'].
  assert (retained pid code 0 (record_exit pid code t).2) as Hk.
  { unfold record_exit. rewrite (running_record _ _ _ _ _ HR Hl Ho). simpl.
    destruct (evict_exit _ _ _ _ _ code HR Hl Ho) as (gone & ex & rs & -> & Hgone & Hex & _ & Hrs). simpl.
    assert (exists l1, ex = l1 ++ [pid]) as [l1 ->].
    { destruct (exists_last (l := ex)) as (l1 & z & ->).
      - intros ->. rewrite app_nil_r in Hex.
        destruct (Hgone pid); [rewrite <- Hex; set_solver|done].
      - rewrite app_assoc in Hex. apply app_inj_tail in Hex as [_ ->]. by exists l1. }
    exists g, l1, []. simpl. split_and!; [|done|lia].
    rewrite Hrs. rewrite decide_False; [by rewrite lookup_insert_eq|]. intros [? _]%Hgone. done. }
  destruct (retained_trace _ _ _ _ _ _ _ Htr HR' Hk Hes Hlt) as (g' & l1 & l2 & Hr & _).
  unfold session_status. simpl in Hr. by rewrite Hr.
Qed.

Lemma exit_status_retained_witness :
  session_status (record_exit 42 (Some 3%Z)
    (mk_table {[42%N := mk_record 1 OutcomeRunning]} [] 1 ∅)).2 42 =
  Some (mk_session_status 42 SessionExited (Some 3%Z)).
Proof.
  eapply (exit_status_retained false [Spawn 42 None] [] 42 (Some 3%Z) _ _ [mk_session 42 None OutcomeRunning]).
  - eapply trace_cons; [eapply step_spawn|apply trace_nil];
      [intros (? & ? & [=] & _)|by_decide|reflexivity].
  - eexists _, _. split; reflexivity.
  - apply trace_nil.
  - constructor.
  - by_decide.
Defined.

(** A scope directory is handed back for removal only by the exit of the
    running session that was spawned into it: a repeated reap of its pid, a
    pid the table does not know, or the exit of a later session with the same
    pid never hands it back. *)
Theorem scope_handed_back_once (oc : bool) (es : list table_event) (t : SessionTable)
    (log : list session) (pid : N) (code : option Z) :
  table_trace oc es (table_default, []) (t, log) ->
  (record_exit pid code t).1 =
    match latest log pid with
    | Some (_, mk_session _ scope OutcomeRunning) => scope
    | _ => None
    end.
Proof.
  intros HR%table_trace_refines; [|apply table_default_refines]. simpl in HR.
  destruct (records t !! pid) as [[g o]|] eqn:Hr.
  - destruct (tr_records _ _ HR _ _ Hr) as ([p sc o'] & Hl & Ho). simpl in *. subst o'.
    rewrite Hl. destruct o as [|c]; [by destruct (record_exit_refines pid code _ _ _ _ HR Hl eq_refl)|].
    unfold record_exit. rewrite Hr. simpl. destruct (evict _ _). simpl.
    apply eq_None_not_Some. intros [sc' (s & Hs & Ho & _)%(tr_scopes _ _ HR)].
    apply latest_session_at in Hl as [Hl _]. rewrite Hs in Hl. by simplify_eq.
  - rewrite record_exit_unknown by done. simpl.
    destruct (latest log pid) as [[g [p sc []]]|] eqn:Hl; [|done..].
    destruct (tr_running _ _ HR pid) as [r Hr']; [by eexists _, _|congruence].
Qed.

Lemma scope_handed_back_once_witness :
  (record_exit 42 None (mk_table {[42%N := mk_record 1 OutcomeRunning]} [] 1 {[1%N := "a.scope"]})).1 =
    Some "a.scope".
Proof.
  apply (scope_handed_back_once false [Spawn 42 (Some "a.scope")] _
    [mk_session 42 (Some "a.scope") OutcomeRunning] 42 None).
  eapply trace_cons; [eapply step_spawn|apply trace_nil];
    [intros (? & ? & [=] & _)|by_decide|reflexivity].
Defined.
