(* ===== verification/Supervisor.v ===== *)
(** * The supervisor

    [src/packages/tddy-supervisor/src/supervisor.rs], [supervisor/service_restart.rs],
    the session handlers of [supervisor/session_table.rs] and [authz.rs]:
    services and sessions under one process that forks, reaps, restarts and
    shuts down.

    Handlers that await the fork are cut at the await ([start_begin],
    [start_complete]); delayed work is a [Timer] of the state.  [sup_step]
    interleaves the pieces with the kernel, whose part is [alive], the children
    forked and not yet reaped.  A slot index always comes from the slots, so a
    position out of range, where the code would panic, leaves the model's
    list as it is. *)

From S2P Require Import Prelude Restart SessionTable.

(** ** State *)

Record Slot := mk_slot {
  slot_name : string;
  slot_runtime : ServiceRuntime;
  slot_started_at : option N;
}.

(** Delayed work: [tokio::spawn] of a sleep followed by a call. *)
Inductive Timer :=
| RestartTimer (index : nat) (due : N)
| StartupTimer (index : nat) (pid : N) (due : N)
| KillTimer (pid : N) (g : N) (due : N).

#[global] Instance Timer_eq_dec : EqDecision Timer.
Proof. solve_decision. Defined.

Inductive Signal := TERMINATE | KILL.
(** [signal_process] and [signal_process_group]. *)
Inductive Sent := ToProcess (pid : N) (sig : Signal) | ToGroup (pid : N) (sig : Signal).

Record Supervisor := mk_sup {
  slots : list Slot;
  sessions : SessionTable;
  shutting_down : bool;
  declared : list nat;     (* services start_declared_services has yet to start *)
  in_flight : list nat;    (* starts past the shutdown check, awaiting their fork *)
  timers : list Timer;
  signals : list Sent;     (* sent so far, oldest first *)
}.

Definition set_slots (f : list Slot -> list Slot) (s : Supervisor) : Supervisor :=
  mk_sup (f (slots s)) (sessions s) (shutting_down s) (declared s) (in_flight s) (timers s) (signals s).
Definition set_sessions (t : SessionTable) (s : Supervisor) : Supervisor :=
  mk_sup (slots s) t (shutting_down s) (declared s) (in_flight s) (timers s) (signals s).
Definition add_timer (t : Timer) (s : Supervisor) : Supervisor :=
  mk_sup (slots s) (sessions s) (shutting_down s) (declared s) (in_flight s) (timers s ++ [t]) (signals s).
Definition set_timers (ts : list Timer) (s : Supervisor) : Supervisor :=
  mk_sup (slots s) (sessions s) (shutting_down s) (declared s) (in_flight s) ts (signals s).
Definition set_in_flight (l : list nat) (s : Supervisor) : Supervisor :=
  mk_sup (slots s) (sessions s) (shutting_down s) (declared s) l (timers s) (signals s).
Definition set_declared (l : list nat) (s : Supervisor) : Supervisor :=
  mk_sup (slots s) (sessions s) (shutting_down s) l (in_flight s) (timers s) (signals s).
Definition send (l : list Sent) (s : Supervisor) : Supervisor :=
  mk_sup (slots s) (sessions s) (shutting_down s) (declared s) (in_flight s) (timers s) (signals s ++ l).

Definition on_runtime (f : ServiceRuntime -> ServiceRuntime) (sl : Slot) : Slot :=
  mk_slot (slot_name sl) (f (slot_runtime sl)) (slot_started_at sl).

Definition slot_pid (sl : Slot) : option N := rt_pid (slot_runtime sl).

(** [Supervisor::new] followed by [start_declared_services]: every declared
    service, not yet started, to be started in declaration order. *)
Definition sup_new (services : list (string * RestartPolicy)) : Supervisor :=
  mk_sup ((fun '(name, p) => mk_slot name (runtime_new name p) None) <$> services)
    table_default false (seq 0 (length services)) [] [] [].

(** ** Services *)

Definition schedule_restart (now : N) (index : nat) (o : ExitOutcome) (s : Supervisor) : Supervisor :=
  match o with
  | RestartAfter after => add_timer (RestartTimer index (now + after)) s
  | OutcomeGaveUp | StoppedOnRequest => s
  end.

(** [start] up to its first await. *)
Definition start_begin (index : nat) (s : Supervisor) : Supervisor :=
  if shutting_down s then s else set_in_flight (in_flight s ++ [index]) s.

(** [start] from the fork on, with the fork's answer. *)
Definition start_complete (now : N) (index : nat) (forked : option N) (s : Supervisor) : Supervisor :=
  match forked with
  | Some pid =>
      add_timer (StartupTimer index pid (now + STARTUP_GRACE_PERIOD))
        (set_slots (alter (fun sl => mk_slot (slot_name sl) (record_started pid (slot_runtime sl)) (Some now)) index) s)
  | None =>
      match slots s !! index with
      | None => s
      | Some sl =>
          let '(o, r) := runtime_record_exit 0 (slot_runtime sl) in
          schedule_restart now index o (set_slots (alter (fun sl => mk_slot (slot_name sl) r None) index) s)
      end
  end.

Definition startup_elapsed (index : nat) (pid : N) (s : Supervisor) : Supervisor :=
  match slots s !! index with
  | Some sl =>
      if decide (slot_pid sl = Some pid) then set_slots (alter (on_runtime record_survived_startup) index) s else s
  | None => s
  end.

(** [Supervisor::record_exit]: the slot an exit belongs to, and what follows. *)
Definition attribute_exit (now pid : N) (s : Supervisor) : option (nat * ExitOutcome * Supervisor) :=
  match list_find (fun sl => slot_pid sl = Some pid) (slots s) with
  | None => None
  | Some (index, sl) =>
      let uptime := match slot_started_at sl with Some started => (now - started)%N | None => 0%N end in
      let '(o, r) := runtime_record_exit uptime (slot_runtime sl) in
      Some (index, o, set_slots (alter (fun sl => mk_slot (slot_name sl) r None) index) s)
  end.

(** One child of the drain in [reap].  The reclaimed scope's removal is file
    system work and is left to the caller. *)
Definition reap_child (now : N) (child : N * option Z) (s : Supervisor) : Supervisor :=
  match attribute_exit now child.1 s with
  | Some (index, o, s') => schedule_restart now index o s'
  | None => set_sessions (record_exit child.1 child.2 (sessions s)).2 s
  end.

Definition reap (now : N) (children : list (N * option Z)) (s : Supervisor) : Supervisor :=
  foldl (fun s child => reap_child now child s) s children.

Definition index_of (name : string) (s : Supervisor) : res SupervisorError nat :=
  ok_or (fst <$> list_find (fun sl => slot_name sl = name) (slots s)) (NotFound name).

Definition statuses (s : Supervisor) : list ServiceStatus :=
  (fun sl => runtime_status (slot_runtime sl)) <$> slots s.

Definition status (name : string) (s : Supervisor) : res SupervisorError ServiceStatus :=
  ok_or ((fun x => runtime_status (slot_runtime x.2)) <$> list_find (fun sl => slot_name sl = name) (slots s))
    (NotFound name).

(** [start_by_name] up to its await: whether a start is needed, and the request
    recorded. *)
Definition start_by_name (name : string) (s : Supervisor) : res SupervisorError bool * Supervisor :=
  match index_of name s with
  | Ok index =>
      match slots s !! index with
      | Some sl =>
          if decide (is_Some (slot_pid sl)) then (Ok false, s)
          else (Ok true, start_begin index (set_slots (alter (on_runtime record_start_requested) index) s))
      | None => (Panic, s)
      end
  | Err e => (Err e, s)
  | Panic => (Panic, s)
  end.

Definition stop_by_name (name : string) (s : Supervisor) : res SupervisorError ServiceStatus * Supervisor :=
  match index_of name s with
  | Ok index =>
      match slots s !! index with
      | Some sl =>
          let s := set_slots (alter (on_runtime record_stop_requested) index) s in
          (Ok (runtime_status (record_stop_requested (slot_runtime sl))),
           match slot_pid sl with Some pid => send [ToProcess pid TERMINATE] s | None => s end)
      | None => (Panic, s)
      end
  | Err e => (Err e, s)
  | Panic => (Panic, s)
  end.

(** ** Sessions *)

(** [fork_session] with the fork's answer, an [io::Result]. *)
Definition fork_session {E} (oc : bool) (forked : res E N) (scope : option string) (s : Supervisor)
  : res E (N * Supervisor) :=
  res_bind forked (fun pid =>
  res_bind (record_session oc pid scope (sessions s)) (fun '(_, t) =>
  Ok (pid, set_sessions t s))).

Definition stop_session (now grace pid : N) (s : Supervisor) : res SupervisorError SessionStatus * Supervisor :=
  match snapshot (sessions s) pid with
  | None => (Err Denied, s)
  | Some (g, st) =>
      match sst_state st with
      | SessionExited => (Ok st, s)
      | SessionRunning => (Ok st, add_timer (KillTimer pid g (now + grace)) (send [ToGroup pid TERMINATE] s))
      end
  end.

(** The task [stop_session] leaves behind. *)
Definition kill_elapsed (pid g : N) (s : Supervisor) : Supervisor :=
  if is_running_generation (sessions s) pid g then send [ToGroup pid KILL] s else s.

(** ** Shutdown *)

Definition service_pids (s : Supervisor) : list N := omap slot_pid (slots s).

Definition live_children (s : Supervisor) : list N := service_pids s ++ running_pids (sessions s).

(** [shutdown] up to its first wait. *)
Definition shutdown_begin (s : Supervisor) : Supervisor :=
  let s := mk_sup (on_runtime record_stop_requested <$> slots s) (sessions s) true
             (declared s) (in_flight s) (timers s) (signals s) in
  send ((fun pid => ToProcess pid TERMINATE) <$> live_children s) s.

(** [shutdown] once the grace period is over. *)
Definition shutdown_kill (s : Supervisor) : Supervisor :=
  send ((fun pid => ToProcess pid KILL) <$> live_children s) s.

(** ** Authorisation *)

Record PeerIdentity := mk_peer { peer_uid : N; peer_gid : N; peer_pid : N }.

Definition from_service_uids (uids : list N) : gset N := list_to_set uids.

(** [Authorizer::authorize]. *)
Definition authorize (authorized_uids : gset N) (peer : PeerIdentity) : res SupervisorError unit :=
  if decide (peer_uid peer ∈ authorized_uids) then Ok tt else Err Denied.

(** ** The supervisor and the kernel *)

Record config := mk_config {
  sup : Supervisor;
  alive : gset N;        (* children forked and not yet reaped *)
  history : list session;
}.

Definition restart_index (t : Timer) : option nat :=
  match t with RestartTimer i _ => Some i | _ => None end.

(** The services with a start under way or scheduled. *)
Definition pending (s : Supervisor) : list nat :=
  declared s ++ in_flight s ++ omap restart_index (timers s).

(** No start of the service is under way or scheduled. *)
Definition idle (name : string) (s : Supervisor) : Prop :=
  forall i, index_of name s = Ok i -> i ∉ pending s.

(** The history after a child was reaped: an exit no service claims is that of
    a session. *)
Definition reaped_history (pid : N) (code : option Z) (s : Supervisor) (log : list session) : list session :=
  if decide (pid ∈ service_pids s) then log else log_exit pid code log.

(** One step.  With [careful], start requests come only for services that have
    no start under way or scheduled.  The kernel's part: a fork returns no pid
    of an unreaped child, and a child is reaped once. *)
Inductive sup_step (oc careful : bool) : config -> config -> Prop :=
| sup_declared s a log i rest :
    declared s = i :: rest ->
    sup_step oc careful (mk_config s a log) (mk_config (start_begin i (set_declared rest s)) a log)
| sup_forked s a log now i pid l1 l2 :
    in_flight s = l1 ++ i :: l2 -> pid ∉ a ->
    sup_step oc careful (mk_config s a log)
      (mk_config (start_complete now i (Some pid) (set_in_flight (l1 ++ l2) s)) ({[pid]} ∪ a) log)
| sup_fork_failed s a log now i l1 l2 :
    in_flight s = l1 ++ i :: l2 ->
    sup_step oc careful (mk_config s a log)
      (mk_config (start_complete now i None (set_in_flight (l1 ++ l2) s)) a log)
| sup_restart_due s a log now i due l1 l2 :
    timers s = l1 ++ RestartTimer i due :: l2 -> (due <= now)%N ->
    sup_step oc careful (mk_config s a log) (mk_config (start_begin i (set_timers (l1 ++ l2) s)) a log)
| sup_startup_due s a log now i pid due l1 l2 :
    timers s = l1 ++ StartupTimer i pid due :: l2 -> (due <= now)%N ->
    sup_step oc careful (mk_config s a log) (mk_config (startup_elapsed i pid (set_timers (l1 ++ l2) s)) a log)
| sup_kill_due s a log now pid g due l1 l2 :
    timers s = l1 ++ KillTimer pid g due :: l2 -> (due <= now)%N ->
    sup_step oc careful (mk_config s a log) (mk_config (kill_elapsed pid g (set_timers (l1 ++ l2) s)) a log)
| sup_reap s a log now pid code :
    pid ∈ a ->
    sup_step oc careful (mk_config s a log)
      (mk_config (reap_child now (pid, code) s) (a ∖ {[pid]}) (reaped_history pid code s log))
| sup_start_by_name s a log name :
    (careful = true -> idle name s) ->
    sup_step oc careful (mk_config s a log) (mk_config (start_by_name name s).2 a log)
| sup_stop_by_name s a log name :
    sup_step oc careful (mk_config s a log) (mk_config (stop_by_name name s).2 a log)
| sup_fork_session s a log pid scope s' :
    pid ∉ a -> (spawned (sessions s) < u64_max)%N ->
    fork_session (E := Empty_set) oc (Ok pid) scope s = Ok (pid, s') ->
    sup_step oc careful (mk_config s a log) (mk_config s' ({[pid]} ∪ a) (log_spawn pid scope log))
| sup_stop_session s a log now grace pid :
    sup_step oc careful (mk_config s a log) (mk_config (stop_session now grace pid s).2 a log)
| sup_shutdown s a log :
    sup_step oc careful (mk_config s a log) (mk_config (shutdown_begin s) a log)
| sup_shutdown_kill s a log :
    sup_step oc careful (mk_config s a log) (mk_config (shutdown_kill s) a log).

(** ** Accounting for children *)

Definition pid_at (ss : list Slot) (i : nat) : option N := ss !! i ≫= slot_pid.

(** Every child belongs to exactly one service or one running session, and a
    service has at most one child, or one start to come. *)
Record accounted (n : nat) (pid_of : nat -> option N) (pend : list nat) (a : gset N) (log : list session) : Prop := {
  acc_nodup : NoDup pend;
  acc_range : forall i, i ∈ pend -> (i < n)%nat;
  acc_free : forall i, i ∈ pend -> pid_of i = None;
  acc_alive : forall p, p ∈ a <-> (exists i, pid_of i = Some p) \/ log_running log p;
  acc_excl : forall i p, pid_of i = Some p -> ~ log_running log p;
  acc_inj : forall i j p, pid_of i = Some p -> pid_of j = Some p -> i = j;
}.

Lemma accounted_mono n f g pend pend' a log :
  accounted n f pend a log -> (forall i, g i = f i) -> pend' ⊆+ pend -> accounted n g pend' a log.
Proof.
  intros [Hnd Hr Hf Ha He Hi] Hg Hsub.
  assert (forall i, i ∈ pend' -> i ∈ pend) as Hin by eauto using elem_of_submseteq.
  split; try setoid_rewrite Hg; eauto.
  destruct (submseteq_Permutation _ _ Hsub) as [k Hk]. rewrite Hk in Hnd. by apply NoDup_app in Hnd as [? _].
Qed.

Lemma accounted_begin n f pend i a log :
  accounted n f pend a log -> i ∉ pend -> (i < n)%nat -> f i = None -> accounted n f (i :: pend) a log.
Proof.
  intros [Hnd Hr Hf Ha He Hi] Hni Hlt Hfi. split; try done.
  - by constructor.
  - intros j [->|?]%elem_of_cons; auto.
  - intros j [->|?]%elem_of_cons; auto.
Qed.

Lemma accounted_fork n f g pend i pid a log :
  accounted n f (i :: pend) a log -> pid ∉ a ->
  (forall j, g j = if decide (j = i) then Some pid else f j) ->
  accounted n g pend ({[pid]} ∪ a) log.
Proof.
  intros [Hnd Hr Hf Ha He Hi] Hpid Hg. apply NoDup_cons in Hnd as [Hni Hnd].
  assert (f i = None) as Hfi by (apply Hf; left).
  assert (forall j, f j <> Some pid) as Hno by (intros j Hj; apply Hpid, Ha; eauto).
  split; [done|intros j ?; apply Hr; by right|..].
  - intros j Hj. rewrite Hg, decide_False by (intros ->; done). apply Hf. by right.
  - intros p. rewrite elem_of_union, elem_of_singleton, Ha. split.
    + intros [->|[[j Hj]|?]]; [left; exists i; by rewrite Hg, decide_True|left; exists j|by right].
      rewrite Hg, decide_False; [done|]. intros ->. congruence.
    + intros [[j Hj]|?]; [rewrite Hg in Hj; case_decide; [left; congruence|]|]; eauto.
  - intros j p. rewrite Hg. case_decide as Hj; [intros [= <-] Hrun; apply Hpid, Ha; by right|apply He].
  - intros j k p. rewrite !Hg. repeat case_decide; subst; try done; intros; simplify_eq; eauto;
      exfalso; by eapply Hno.
Qed.

Lemma accounted_service_exit n f g pend i pid a log :
  accounted n f pend a log -> f i = Some pid ->
  (forall j, g j = if decide (j = i) then None else f j) ->
  accounted n g pend (a ∖ {[pid]}) log /\ i ∉ pend.
Proof.
  intros [Hnd Hr Hf Ha He Hi] Hfi Hg. split; [|intros Hin%Hf; congruence].
  split; [done|done|..].
  - intros j Hj. rewrite Hg. case_decide; [done|auto].
  - intros p. rewrite elem_of_difference, elem_of_singleton, Ha. split.
    + intros [[[j Hj]|?] Hne]; [left; exists j|by right].
      rewrite Hg, decide_False; [done|]. intros ->. congruence.
    + intros [[j Hj]|Hrun].
      * rewrite Hg in Hj. case_decide as Hd; [done|]. split; [eauto|]. intros ->. eauto.
      * split; [eauto|]. intros ->. by eapply He.
  - intros j p. rewrite Hg. case_decide; [done|]. apply He.
  - intros j k p. rewrite !Hg. repeat case_decide; try done. apply Hi.
Qed.

Lemma log_running_spawn pid scope log q :
  log_running (log_spawn pid scope log) q <-> q = pid \/ (q <> pid /\ log_running log q).
Proof.
  unfold log_running. cbn [log_spawn latest s_pid]. destruct (decide (pid = q)) as [->|Hne].
  - split; [by left|]. intros _. eexists _, _. by split.
  - split; [by right|]. intros [->|[_ ?]]; done.
Qed.

Lemma log_running_exit pid code log q :
  log_running (log_exit pid code log) q <-> q <> pid /\ log_running log q.
Proof.
  unfold log_running. setoid_rewrite latest_log_exit. destruct (decide (q = pid)) as [->|Hne].
  - split; [|by intros [? _]]. intros (g & s & ([g' s'] & Hl & Heq)%fmap_Some & Ho). by simplify_eq.
  - split; [by split|by intros [_ ?]].
Qed.

Lemma accounted_session_spawn n f pend pid scope a log :
  accounted n f pend a log -> pid ∉ a -> accounted n f pend ({[pid]} ∪ a) (log_spawn pid scope log).
Proof.
  intros [Hnd Hr Hf Ha He Hi] Hpid. split; try done.
  - intros p. rewrite elem_of_union, elem_of_singleton, log_running_spawn, Ha.
    destruct (decide (p = pid)); naive_solver.
  - intros i p Hp. rewrite log_running_spawn. intros [->|[_ Hrun]]; [|by eapply He].
    apply Hpid, Ha. eauto.
Qed.

Lemma accounted_session_exit n f pend pid code a log :
  accounted n f pend a log -> log_running log pid ->
  accounted n f pend (a ∖ {[pid]}) (log_exit pid code log).
Proof.
  intros [Hnd Hr Hf Ha He Hi] Hpid. split; try done.
  - intros p. rewrite elem_of_difference, elem_of_singleton, log_running_exit, Ha.
    split; [naive_solver|]. intros [[i Hp]|?]; [|naive_solver].
    split; [eauto|]. intros ->. by eapply He.
  - intros i p Hp. rewrite log_running_exit. intros [_ ?]. by eapply He.
Qed.

(** ** The invariant *)

Definition slot_ok (sl : Slot) : Prop :=
  runtime_ok (slot_runtime sl) /\ (is_Some (slot_started_at sl) <-> is_Some (slot_pid sl)) /\
  rt_name (slot_runtime sl) = slot_name sl.

Record sup_ok (c : config) : Prop := {
  sup_table : table_refines (sessions (sup c)) (history c);
  sup_accounted : accounted (length (slots (sup c))) (pid_at (slots (sup c))) (pending (sup c)) (alive c) (history c);
  sup_slots : Forall slot_ok (slots (sup c));
}.

Lemma pid_at_alter f ss i j :
  pid_at (alter f i ss) j = if decide (j = i) then (f <$> ss !! i) ≫= slot_pid else pid_at ss j.
Proof.
  unfold pid_at. case_decide; subst; [by rewrite list_lookup_alter_eq|].
  by rewrite list_lookup_alter_ne.
Qed.

(** An update that keeps the pid. *)
Lemma pid_at_alter_same f ss i j :
  (forall sl, slot_pid (f sl) = slot_pid sl) -> pid_at (alter f i ss) j = pid_at ss j.
Proof.
  intros Hf. rewrite pid_at_alter. case_decide; [subst|done]. unfold pid_at.
  destruct (ss !! i); simpl; [apply Hf|done].
Qed.

Lemma service_pids_spec s p : p ∈ service_pids s <-> exists i, pid_at (slots s) i = Some p.
Proof.
  unfold service_pids, pid_at. rewrite list_elem_of_omap. setoid_rewrite list_elem_of_lookup. split.
  - intros (sl & [i Hi] & Hp). exists i. by rewrite Hi.
  - intros (i & (sl & Hi & Hp)%bind_Some). eauto.
Qed.

Lemma on_runtime_pid g sl :
  rt_pid (g (slot_runtime sl)) = rt_pid (slot_runtime sl) -> slot_pid (on_runtime g sl) = slot_pid sl.
Proof. done. Qed.

Lemma on_runtime_ok g sl :
  slot_ok sl -> runtime_ok (g (slot_runtime sl)) ->
  rt_pid (g (slot_runtime sl)) = rt_pid (slot_runtime sl) ->
  rt_name (g (slot_runtime sl)) = rt_name (slot_runtime sl) -> slot_ok (on_runtime g sl).
Proof.
  intros (Hr & Hs & Hn) Hg Hp Hname. split_and!; simpl; [done| |congruence].
  unfold slot_pid in *. simpl. by rewrite Hp.
Qed.

Lemma started_ok now pid sl :
  slot_ok sl -> slot_ok (mk_slot (slot_name sl) (record_started pid (slot_runtime sl)) (Some now)).
Proof. intros (Hr & Hs & Hn). split_and!; simpl; auto with supervisor. split; eauto. Qed.

Lemma exited_ok uptime sl :
  slot_ok sl -> slot_ok (mk_slot (slot_name sl) (runtime_record_exit uptime (slot_runtime sl)).2 None).
Proof.
  intros (Hr & Hs & Hn). split_and!; simpl; auto with supervisor.
  - unfold slot_pid. simpl. rewrite runtime_record_exit_pid. split; by intros [? ?].
  - by rewrite runtime_record_exit_name.
Qed.

Lemma start_begin_slots i s : slots (start_begin i s) = slots s /\ sessions (start_begin i s) = sessions s.
Proof. unfold start_begin. by destruct (shutting_down s). Qed.

Lemma start_begin_pending i s : pending (start_begin i s) ⊆+ i :: pending s.
Proof.
  unfold start_begin. destruct (shutting_down s); [by apply submseteq_cons|].
  unfold pending. simpl. rewrite <- !app_assoc. simpl.
  by rewrite <- !Permutation_middle.
Qed.

(** A step that touches neither pids nor sessions and adds no pending start. *)
Lemma sup_ok_update s s' a log :
  sup_ok (mk_config s a log) -> sessions s' = sessions s -> length (slots s') = length (slots s) ->
  (forall i, pid_at (slots s') i = pid_at (slots s) i) -> pending s' ⊆+ pending s ->
  Forall slot_ok (slots s') -> sup_ok (mk_config s' a log).
Proof.
  intros [Ht Ha Hs] Hse Hlen Hpid Hp Hok. split; simpl in *; [by rewrite Hse| |done].
  rewrite Hlen. by eapply accounted_mono.
Qed.

Lemma sup_ok_start_begin i s s0 a log :
  sup_ok (mk_config s a log) -> sessions s0 = sessions s -> slots s0 = slots s ->
  i :: pending s0 ⊆+ pending s -> sup_ok (mk_config (start_begin i s0) a log).
Proof.
  intros Hok Hse Hsl Hp. pose proof (start_begin_slots i s0) as [Hs1 Hs2].
  eapply sup_ok_update; [done|congruence|congruence|intros; congruence| |].
  - etrans; [apply start_begin_pending|done].
  - rewrite Hs1, Hsl. apply (sup_slots _ Hok).
Qed.

Lemma pending_add_timer t s : pending (add_timer t s) ≡ₚ option_list (restart_index t) ++ pending s.
Proof.
  unfold pending. simpl. rewrite omap_app. simpl. destruct (restart_index t); simpl.
  - by rewrite !app_assoc, <- Permutation_cons_append.
  - by rewrite app_nil_r.
Qed.

Lemma pending_in_flight s i l1 l2 :
  in_flight s = l1 ++ i :: l2 -> pending s ≡ₚ i :: pending (set_in_flight (l1 ++ l2) s).
Proof.
  intros Hl. unfold pending. simpl. rewrite Hl, <- !app_assoc. simpl. by rewrite <- !Permutation_middle.
Qed.

Lemma pending_timers s t l1 l2 :
  timers s = l1 ++ t :: l2 ->
  pending s ≡ₚ option_list (restart_index t) ++ pending (set_timers (l1 ++ l2) s).
Proof.
  intros Hl. unfold pending. simpl. rewrite Hl, !omap_app. simpl. destruct (restart_index t); simpl; [|done].
  by rewrite <- !Permutation_middle.
Qed.

Lemma pending_schedule now i o s : pending (schedule_restart now i o s) ⊆+ i :: pending s.
Proof.
  destruct o; simpl; [|by apply submseteq_cons..]. by rewrite pending_add_timer.
Qed.

Lemma schedule_restart_frame now i o s :
  slots (schedule_restart now i o s) = slots s /\ sessions (schedule_restart now i o s) = sessions s.
Proof. by destruct o. Qed.

Lemma Forall_slot_alter f i ss :
  Forall slot_ok ss -> (forall sl, slot_ok sl -> slot_ok (f sl)) -> Forall slot_ok (alter f i ss).
Proof. intros Hss Hf. apply Forall_alter; auto. Qed.

Lemma fork_succeeds_ok s a log now i pid l1 l2 :
  sup_ok (mk_config s a log) -> in_flight s = l1 ++ i :: l2 -> pid ∉ a ->
  sup_ok (mk_config (start_complete now i (Some pid) (set_in_flight (l1 ++ l2) s)) ({[pid]} ∪ a) log).
Proof.
  intros [Ht Ha Hs] Hl Hpid. pose proof (pending_in_flight _ _ _ _ Hl) as Hp. simpl in *.
  assert (accounted (length (slots s)) (pid_at (slots s)) (i :: pending (set_in_flight (l1 ++ l2) s)) a log) as Ha'.
  { eapply accounted_mono; [done|done|]. by rewrite Hp. }
  split; simpl; [done| |apply Forall_slot_alter; eauto using started_ok].
  rewrite length_alter. eapply accounted_mono; [|done|by rewrite pending_add_timer].
  eapply accounted_fork; [done|done|].
  intros j. rewrite pid_at_alter. destruct (decide (j = i)) as [->|]; [|done].
  destruct (lookup_lt_is_Some_2 (slots s) i) as [sl ->]; [|done].
  eapply (acc_range _ _ _ _ _ Ha'). left.
Qed.

(** The slot of a service whose process ended, or could not be started. *)
Lemma service_exit_pids i r s j :
  rt_pid r = None ->
  pid_at (alter (fun sl => mk_slot (slot_name sl) r None) i s) j =
    if decide (j = i) then None else pid_at s j.
Proof.
  intros Hr. rewrite pid_at_alter. case_decide; [|done]. by destruct (s !! i); [exact Hr|].
Qed.

Lemma runtime_exit_slot_ok uptime i ss sl :
  Forall slot_ok ss -> ss !! i = Some sl ->
  Forall slot_ok (alter (fun sl' => mk_slot (slot_name sl') (runtime_record_exit uptime (slot_runtime sl)).2 None) i ss).
Proof.
  intros Hss Hi. apply Forall_alter; [done|]. intros sl' Hi' Hok. simplify_eq. by apply exited_ok.
Qed.

Lemma fork_fails_ok s a log now i l1 l2 :
  sup_ok (mk_config s a log) -> in_flight s = l1 ++ i :: l2 ->
  sup_ok (mk_config (start_complete now i None (set_in_flight (l1 ++ l2) s)) a log).
Proof.
  intros Hok Hl. pose proof (pending_in_flight _ _ _ _ Hl) as Hp. simpl.
  assert (i ∈ pending s) as Hi by (rewrite Hp; left).
  pose proof (acc_free _ _ _ _ _ (sup_accounted _ Hok) i Hi) as Hfree. simpl in Hfree.
  destruct (slots s !! i) as [sl|] eqn:Hsl.
  2:{ eapply sup_ok_update; [done|done|done|done| |apply (sup_slots _ Hok)]. rewrite Hp. by apply submseteq_cons. }
  destruct (runtime_record_exit 0 (slot_runtime sl)) as [o r] eqn:Hr.
  assert (r = (runtime_record_exit 0 (slot_runtime sl)).2) as -> by by rewrite Hr.
  destruct (schedule_restart_frame now i o (set_slots (alter (fun sl0 => mk_slot (slot_name sl0)
    (runtime_record_exit 0 (slot_runtime sl)).2 None) i) (set_in_flight (l1 ++ l2) s))) as [Hs1 Hs2].
  eapply sup_ok_update; [done|by rewrite Hs2|rewrite Hs1; by apply length_alter| | |].
  - intros j. rewrite Hs1. simpl. rewrite service_exit_pids by apply runtime_record_exit_pid.
    by case_decide; subst.
  - etrans; [apply pending_schedule|]. by rewrite Hp.
  - rewrite Hs1. apply runtime_exit_slot_ok; [apply (sup_slots _ Hok)|done].
Qed.

Lemma attribute_exit_spec now pid s :
  match attribute_exit now pid s with
  | None => forall i, pid_at (slots s) i <> Some pid
  | Some (i, o, s') =>
      exists sl uptime, slots s !! i = Some sl /\ slot_pid sl = Some pid /\
        o = (runtime_record_exit uptime (slot_runtime sl)).1 /\
        s' = set_slots (alter (fun sl0 => mk_slot (slot_name sl0)
          (runtime_record_exit uptime (slot_runtime sl)).2 None) i) s
  end.
Proof.
  unfold attribute_exit.
  destruct (list_find (fun sl => slot_pid sl = Some pid) (slots s)) as [[i sl]|] eqn:Hf.
  - apply list_find_Some in Hf as (Hi & Hp & _).
    set (u := match slot_started_at sl with Some started => (now - started)%N | None => 0%N end).
    destruct (runtime_record_exit u (slot_runtime sl)) as [o r] eqn:Hr.
    exists sl, u. rewrite Hr. by split_and!.
  - apply list_find_None in Hf. rewrite Forall_lookup in Hf.
    intros i (sl & Hi & Hp)%bind_Some. by eapply Hf.
Qed.

Lemma reap_child_ok s a log now pid code :
  sup_ok (mk_config s a log) -> pid ∈ a ->
  sup_ok (mk_config (reap_child now (pid, code) s) (a ∖ {[pid]}) (reaped_history pid code s log)).
Proof.
  intros [Ht Ha Hs] Hpid. unfold reap_child, reaped_history. simpl in *.
  pose proof (attribute_exit_spec now pid s) as Hat.
  destruct (attribute_exit now pid s) as [[[i o] s']|].
  - destruct Hat as (sl & u & Hi & Hp & Ho & ->).
    assert (pid_at (slots s) i = Some pid) as Hpi by (unfold pid_at; by rewrite Hi).
    rewrite decide_True by (apply service_pids_spec; eauto).
    destruct (schedule_restart_frame now i o (set_slots (alter (fun sl0 => mk_slot (slot_name sl0)
      (runtime_record_exit u (slot_runtime sl)).2 None) i) s)) as [Hs1 Hs2].
    split; simpl; [by rewrite Hs2| |rewrite Hs1; by apply runtime_exit_slot_ok].
    rewrite Hs1. simpl. rewrite length_alter.
    edestruct (accounted_service_exit _ _ (pid_at (alter (fun sl0 => mk_slot (slot_name sl0)
      (runtime_record_exit u (slot_runtime sl)).2 None) i (slots s))) _ _ _ _ _ Ha Hpi) as [Ha' Hni].
    { intros j. apply service_exit_pids, runtime_record_exit_pid. }
    eapply accounted_mono; [eapply (accounted_begin _ _ _ i); [exact Ha'|done| |]|done|].
    + by eapply lookup_lt_Some.
    + rewrite service_exit_pids by apply runtime_record_exit_pid. by rewrite decide_True.
    + etrans; [apply pending_schedule|done].
  - rewrite decide_False by (rewrite service_pids_spec; naive_solver).
    assert (log_running log pid) as Hrun.
    { apply (acc_alive _ _ _ _ _ Ha) in Hpid as [[i Hi]|?]; [by apply Hat in Hi|done]. }
    split; simpl; [|by apply accounted_session_exit|done].
    destruct Hrun as (g & ses & Hl & Ho). by eapply record_exit_refines.
Qed.

Lemma index_of_Ok name s i :
  index_of name s = Ok i -> exists sl, slots s !! i = Some sl /\ slot_name sl = name.
Proof.
  unfold index_of. rewrite ok_or_Ok. intros ([j sl] & (? & ? & _)%list_find_Some & ->)%fmap_Some.
  eauto.
Qed.

Lemma on_runtime_alter_ok g i s a log :
  (forall r, runtime_ok r -> runtime_ok (g r)) ->
  (forall r, rt_pid (g r) = rt_pid r) -> (forall r, rt_name (g r) = rt_name r) ->
  sup_ok (mk_config s a log) -> sup_ok (mk_config (set_slots (alter (on_runtime g) i) s) a log).
Proof.
  intros Hr Hp Hn Hok. eapply sup_ok_update; [done|done| | |done|]; simpl.
  - by rewrite length_alter.
  - intros j. apply pid_at_alter_same. intros sl. apply on_runtime_pid, Hp.
  - apply Forall_slot_alter; [apply (sup_slots _ Hok)|]. intros sl Hsl.
    apply on_runtime_ok; [done|apply Hr, Hsl|apply Hp|apply Hn].
Qed.

Lemma start_by_name_ok name s a log :
  sup_ok (mk_config s a log) -> idle name s -> sup_ok (mk_config (start_by_name name s).2 a log).
Proof.
  intros Hok Hidle. unfold start_by_name. destruct (index_of name s) as [i| |] eqn:Hi; [|done..].
  specialize (Hidle i Hi). apply index_of_Ok in Hi as (sl & Hsl & _). rewrite Hsl.
  case_decide as Hpid; [done|]. simpl.
  set (s1 := set_slots _ s).
  assert (sup_ok (mk_config s1 a log)) as Hok1.
  { apply on_runtime_alter_ok; auto with supervisor. }
  pose proof (start_begin_slots i s1) as [Hs1 Hs2].
  destruct Hok1 as [Ht Ha Hs]. split; simpl in *; rewrite ?Hs1, ?Hs2; [done| |done].
  eapply accounted_mono; [|done|apply start_begin_pending].
  apply accounted_begin; [done|done| |].
  - subst s1. simpl. rewrite length_alter. by eapply lookup_lt_Some.
  - subst s1. simpl. rewrite pid_at_alter_same by done. unfold pid_at. rewrite Hsl. simpl.
    by apply eq_None_not_Some.
Qed.

Lemma stop_by_name_ok name s a log :
  sup_ok (mk_config s a log) -> sup_ok (mk_config (stop_by_name name s).2 a log).
Proof.
  intros Hok. unfold stop_by_name. destruct (index_of name s) as [i| |] eqn:Hi; [|done..].
  apply index_of_Ok in Hi as (sl & Hsl & _). rewrite Hsl. simpl.
  assert (sup_ok (mk_config (set_slots (alter (on_runtime record_stop_requested) i) s) a log)) as Hok1.
  { apply on_runtime_alter_ok; auto with supervisor. }
  destruct (slot_pid sl); [|done].
  eapply sup_ok_update; [exact Hok1|done..|apply (sup_slots _ Hok1)].
Qed.

Lemma startup_elapsed_ok i pid s a log :
  sup_ok (mk_config s a log) -> sup_ok (mk_config (startup_elapsed i pid s) a log).
Proof.
  intros Hok. unfold startup_elapsed. destruct (slots s !! i); [|done]. case_decide; [|done].
  apply on_runtime_alter_ok; auto using record_survived_startup_pid, record_survived_startup_name with supervisor.
Qed.

Lemma fork_session_ok oc s a log pid scope s' :
  sup_ok (mk_config s a log) -> pid ∉ a -> (spawned (sessions s) < u64_max)%N ->
  fork_session (E := Empty_set) oc (Ok pid) scope s = Ok (pid, s') ->
  sup_ok (mk_config s' ({[pid]} ∪ a) (log_spawn pid scope log)).
Proof.
  intros [Ht Ha Hs] Hpid Hlt Hf. simpl in *.
  assert (~ log_running log pid) as Hnr.
  { intros Hrun. apply Hpid, (acc_alive _ _ _ _ _ Ha). by right. }
  destruct (record_session_refines (E := Empty_set) oc pid scope _ _ Ht Hnr Hlt) as (t' & Hrec & Ht').
  unfold fork_session in Hf. simpl in Hf. rewrite Hrec in Hf. simplify_eq/=.
  split; simpl; [done| |done]. by apply accounted_session_spawn.
Qed.

Lemma shutdown_begin_ok s a log :
  sup_ok (mk_config s a log) -> sup_ok (mk_config (shutdown_begin s) a log).
Proof.
  intros Hok. eapply sup_ok_update; [done|done| | |done|]; simpl.
  - by rewrite length_fmap.
  - intros i. unfold pid_at. rewrite list_lookup_fmap. by destruct (slots s !! i).
  - apply Forall_fmap. eapply Forall_impl; [apply (sup_slots _ Hok)|]. intros sl Hsl. simpl.
    apply on_runtime_ok; [done|apply record_stop_requested_ok, Hsl|done|done].
Qed.

(** ** Every step keeps the accounts *)

Lemma sup_step_ok oc c c' : sup_step oc true c c' -> sup_ok c -> sup_ok c'.
Proof.
  intros Hst Hok.
  destruct Hst as [s a log i rest H|s a log now i pid l1 l2 H|s a log now i l1 l2 H
    |s a log now i due l1 l2 H|s a log now i pid due l1 l2 H|s a log now pid g due l1 l2 H
    |s a log now pid code|s a log name|s a log name|s a log pid scope s'|s a log now grace pid|s a log|s a log].
  - eapply sup_ok_start_begin; [done..|]. unfold pending. simpl. by rewrite H.
  - by apply fork_succeeds_ok.
  - by apply fork_fails_ok.
  - eapply sup_ok_start_begin; [done..|]. by rewrite (pending_timers _ _ _ _ H).
  - apply startup_elapsed_ok. eapply sup_ok_update; [done..| |apply (sup_slots _ Hok)].
    by rewrite (pending_timers s _ _ _ H).
  - eapply (sup_ok_update s); [done|..]; unfold kill_elapsed;
      destruct (is_running_generation _ _ _); try done; try apply (sup_slots _ Hok);
      by rewrite (pending_timers s _ _ _ H).
  - by apply reap_child_ok.
  - apply start_by_name_ok; auto.
  - by apply stop_by_name_ok.
  - by eapply fork_session_ok.
  - unfold stop_session. destruct (snapshot _ _) as [[g st]|]; [|done].
    destruct (sst_state st); [|done].
    eapply sup_ok_update; [done|done|done|done| |apply (sup_slots _ Hok)].
    simpl. by rewrite pending_add_timer.
  - by apply shutdown_begin_ok.
  - eapply sup_ok_update; [done..|apply (sup_slots _ Hok)].
Qed.

Lemma sup_new_ok services : sup_ok (mk_config (sup_new services) ∅ []).
Proof.
  split; simpl; [apply table_default_refines| |].
  - rewrite length_fmap. assert (forall i, pid_at ((fun '(name, p) => mk_slot name (runtime_new name p) None)
      <$> services) i = None) as Hno.
    { intros i. unfold pid_at. rewrite list_lookup_fmap. by destruct (services !! i) as [[]|]. }
    unfold pending. simpl. rewrite app_nil_r. split.
    + apply NoDup_seq.
    + intros i ?%elem_of_seq. lia.
    + done.
    + intros p. split; [set_solver|]. intros [[i Hi]|(? & ? & [=] & _)]. by rewrite Hno in Hi.
    + intros i p Hi. by rewrite Hno in Hi.
    + intros i j p Hi. by rewrite Hno in Hi.
  - apply Forall_fmap, Forall_forall. intros [name p] _. split_and!; simpl; auto with supervisor.
Qed.

Lemma reachable_ok oc services c :
  rtc (sup_step oc true) (mk_config (sup_new services) ∅ []) c -> sup_ok c.
Proof.
  generalize (sup_new_ok services). intros H0 Hr. induction Hr; eauto using sup_step_ok.
Qed.

Lemma live_children_spec c p : sup_ok c -> p ∈ live_children (sup c) <-> p ∈ alive c.
Proof.
  intros [Ht Ha _]. unfold live_children.
  by rewrite elem_of_app, service_pids_spec, (running_pids_spec _ _ _ Ht), (acc_alive _ _ _ _ _ Ha).
Qed.

Lemma service_pids_NoDup ss :
  (forall i j p, pid_at ss i = Some p -> pid_at ss j = Some p -> i = j) -> NoDup (omap slot_pid ss).
Proof.
  induction ss as [|sl ss IH]; intros Hinj; simpl; [constructor|].
  assert (NoDup (omap slot_pid ss)) as Hnd.
  { apply IH. intros i j p Hi Hj. by apply (Nat.succ_inj i j), (Hinj (S i) (S j) p). }
  destruct (slot_pid sl) as [p|] eqn:Hp; [|done]. constructor; [|done].
  intros (sl' & [j Hj]%list_elem_of_lookup & Hp')%list_elem_of_omap.
  assert (0%nat = S j); [|done]. apply (Hinj _ _ p); unfold pid_at; simpl; [by rewrite Hp|by rewrite Hj].
Qed.

(** C23.  Whatever interleaving of starts, exits, restarts, timers, sessions and
    shutdown, as long as a start is requested only for a service with none under
    way, the children the supervisor has on record are exactly its unreaped
    child processes, each once, so shutdown signals and waits for all of them;
    and a service has a pid only while it is starting or running, with no more
    restarts counted than its policy allows. *)
Theorem children_accounted (oc : bool) (services : list (string * RestartPolicy)) (c : config) :
  rtc (sup_step oc true) (mk_config (sup_new services) ∅ []) c ->
  NoDup (live_children (sup c)) /\
  (forall p, p ∈ live_children (sup c) <-> p ∈ alive c) /\
  forall sl, sl ∈ slots (sup c) ->
    (is_Some (slot_pid sl) -> rt_state (slot_runtime sl) = Starting \/ rt_state (slot_runtime sl) = Running) /\
    (restarts (rt_backoff (slot_runtime sl)) <= max_retries (policy (rt_backoff (slot_runtime sl))))%N.
Proof.
  intros Hok%reachable_ok. split_and!.
  - destruct Hok as [Ht Ha _]. apply NoDup_app. split_and!; [|intros p|apply running_pids_NoDup].
    + apply service_pids_NoDup. apply (acc_inj _ _ _ _ _ Ha).
    + rewrite service_pids_spec, (running_pids_spec _ _ _ Ht). intros [i Hi]. by eapply acc_excl.
  - intros p. by apply live_children_spec.
  - intros sl Hsl. pose proof (sup_slots _ Hok) as Hs. rewrite Forall_forall in Hs. apply (Hs sl Hsl).
Qed.

(** ** Concrete executions *)

Definition web : list (string * RestartPolicy) := [("web", default_policy)].

(** The service is started as pid 100, dies after 7 ms and waits out its backoff. *)
Definition in_backoff : Supervisor :=
  reap_child 7 (100%N, None)
    (start_complete 0 0 (Some 100%N) (set_in_flight [] (start_begin 0 (set_declared [] (sup_new web))))).

Lemma in_backoff_reachable oc careful :
  rtc (sup_step oc careful) (mk_config (sup_new web) ∅ [])
    (mk_config in_backoff (({[100%N]} ∪ ∅) ∖ {[100%N]}) []).
Proof.
  eapply rtc_l; [by apply (sup_declared _ _ _ _ _ 0 [])|].
  eapply rtc_l; [apply (sup_forked _ _ _ _ _ 0 0 100 [] []); [reflexivity|set_solver]|].
  eapply rtc_l; [apply (sup_reap _ _ _ _ _ 7 100 None); set_solver|].
  apply rtc_refl.
Qed.

Lemma children_accounted_witness :
  NoDup (live_children in_backoff) /\ (100%N ∉ live_children in_backoff).
Proof.
  destruct (children_accounted false web (mk_config in_backoff (({[100%N]} ∪ ∅) ∖ {[100%N]}) [])
    (in_backoff_reachable false true)) as (Hnd & Hiff & _). simpl in *.
  split; [exact Hnd|]. intros Hin%Hiff. set_solver.
Defined.

(** ** Signals *)

Definition target (x : Sent) : N := match x with ToProcess p _ | ToGroup p _ => p end.

Lemma schedule_restart_signals now i o s : signals (schedule_restart now i o s) = signals s.
Proof. by destruct o. Qed.

Lemma start_begin_signals i s : signals (start_begin i s) = signals s.
Proof. unfold start_begin. by destruct (shutting_down s). Qed.

Lemma start_complete_signals now i forked s : signals (start_complete now i forked s) = signals s.
Proof.
  destruct forked; [done|]. simpl. destruct (slots s !! i); [|done].
  destruct (runtime_record_exit 0 _). by rewrite schedule_restart_signals.
Qed.

Lemma reap_child_signals now child s : signals (reap_child now child s) = signals s.
Proof.
  unfold reap_child. pose proof (attribute_exit_spec now child.1 s) as Hat.
  destruct (attribute_exit _ _ _) as [[[i o] s']|]; [|done].
  destruct Hat as (sl & u & _ & _ & _ & ->). by rewrite schedule_restart_signals.
Qed.

(** The signals a step sends go to unreaped children. *)
Definition sends_safely (s s' : Supervisor) (a : gset N) : Prop :=
  exists new, signals s' = signals s ++ new /\ Forall (fun x => target x ∈ a) new.

Lemma sends_nothing s s' a : signals s' = signals s -> sends_safely s s' a.
Proof. intros Hs. exists []. by rewrite Hs, app_nil_r. Qed.

Lemma snapshot_running t log pid g st :
  table_refines t log -> snapshot t pid = Some (g, st) -> sst_state st = SessionRunning ->
  exists s, session_at log g = Some s /\ s_pid s = pid /\ s_outcome s = OutcomeRunning /\ log_running log pid.
Proof.
  intros HR Hs Hst. unfold snapshot, session_status in Hs.
  destruct (records t !! pid) as [[g' o]|] eqn:Hr; simplify_eq/=. destruct o; [|done].
  destruct (tr_records _ _ HR _ _ Hr) as (s & Hl & Ho). simpl in *.
  destruct (latest_session_at _ _ _ _ Hl). exists s. split_and!; try done. by eexists _, s.
Qed.

(** Every signal goes to the supervisor's own: in every state reachable
    with start requests for idle services only, whatever step is taken, a process it signals is one of its children that has
    not been reaped, so the pid cannot have been recycled by the kernel. *)
Theorem signals_hit_own_children (oc : bool) (services : list (string * RestartPolicy)) (c c' : config) :
  rtc (sup_step oc true) (mk_config (sup_new services) ∅ []) c ->
  sup_step oc true c c' -> sends_safely (sup c) (sup c') (alive c).
Proof.
  intros Hok%reachable_ok Hst.
  destruct Hst as [s a log i rest|s a log now i pid l1 l2|s a log now i l1 l2
    |s a log now i due l1 l2|s a log now i pid due l1 l2|s a log now pid g due l1 l2
    |s a log now pid code|s a log name|s a log name|s a log pid scope s' Hp Hlt Hf|s a log now grace pid|s a log|s a log];
    cbn [sup alive].
  - apply sends_nothing. by rewrite start_begin_signals.
  - by apply sends_nothing.
  - apply sends_nothing. by rewrite start_complete_signals.
  - apply sends_nothing. by rewrite start_begin_signals.
  - apply sends_nothing. unfold startup_elapsed. simpl. destruct (slots s !! i); [|done]. by case_decide.
  - unfold kill_elapsed. destruct (is_running_generation _ _ _) eqn:Hg; [|by apply sends_nothing].
    exists [ToGroup pid KILL]. split; [done|]. constructor; [|done]. simpl.
    apply (is_running_generation_spec _ _ _ _ (sup_table _ Hok)) in Hg as (ses & Hs & <- & Ho).
    apply (acc_alive _ _ _ _ _ (sup_accounted _ Hok)). right. exists g, ses. split; [|done].
    by apply (tr_latest _ _ (sup_table _ Hok)).
  - apply sends_nothing. by rewrite reap_child_signals.
  - apply sends_nothing. unfold start_by_name. destruct (index_of name s); [|done..].
    destruct (slots s !! _); [|done]. case_decide; [done|]. simpl. by rewrite start_begin_signals.
  - unfold stop_by_name. destruct (index_of name s) as [i| |] eqn:Hi; [|by apply sends_nothing..].
    destruct (slots s !! i) as [sl|] eqn:Hsl; [|by apply sends_nothing].
    destruct (slot_pid sl) as [pid|] eqn:Hpid; [|by apply sends_nothing].
    exists [ToProcess pid TERMINATE]. split; [done|]. constructor; [|done]. simpl.
    apply (acc_alive _ _ _ _ _ (sup_accounted _ Hok)). left. exists i. unfold pid_at. simpl. by rewrite Hsl.
  - apply sends_nothing. unfold fork_session, record_session in Hf. simpl in Hf.
    destruct (record_spawned _ _ _) as [[]| |]; by simplify_eq/=.
  - unfold stop_session. destruct (snapshot _ _) as [[g st]|] eqn:Hsn; [|by apply sends_nothing].
    destruct (sst_state st) eqn:Hst; [|by apply sends_nothing].
    exists [ToGroup pid TERMINATE]. split; [done|]. constructor; [|done]. simpl.
    destruct (snapshot_running _ _ _ _ _ (sup_table _ Hok) Hsn Hst) as (? & _ & _ & _ & Hrun).
    apply (acc_alive _ _ _ _ _ (sup_accounted _ Hok)). by right.
  - eexists. split; [done|]. apply Forall_fmap, Forall_forall. intros p Hp. simpl.
    apply (live_children_spec _ _ (shutdown_begin_ok _ _ _ Hok)). exact Hp.
  - eexists. split; [done|]. apply Forall_fmap, Forall_forall. intros p Hp. simpl.
    apply (live_children_spec _ _ Hok). exact Hp.
Qed.

(** The kill a stopped session is threatened with reaches only that very
    session (with start requests for idle services only): when it goes out, the session recorded as running when the stop was
    requested is still running under the same pid, even if the pid was freed and
    reissued in between. *)
Theorem stop_session_kills_that_session (oc : bool) (services : list (string * RestartPolicy))
    (c1 c2 : config) (now grace pid g due : N) :
  rtc (sup_step oc true) (mk_config (sup_new services) ∅ []) c1 ->
  rtc (sup_step oc true) c1 c2 ->
  timers (stop_session now grace pid (sup c1)).2 = timers (sup c1) ++ [KillTimer pid g due] ->
  signals (kill_elapsed pid g (sup c2)) <> signals (sup c2) ->
  (exists s1, session_at (history c1) g = Some s1 /\ s_pid s1 = pid /\ s_outcome s1 = OutcomeRunning) /\
  (exists s2, session_at (history c2) g = Some s2 /\ s_pid s2 = pid /\ s_outcome s2 = OutcomeRunning) /\
  pid ∈ alive c2 /\ due = (now + grace)%N.
Proof.
  intros Hr1 Hr2 Hst Hk. pose proof (reachable_ok _ _ _ Hr1) as Hok1.
  assert (sup_ok c2) as Hok2 by (eapply reachable_ok; by etrans).
  unfold kill_elapsed in Hk. destruct (is_running_generation _ _ _) eqn:Hg; [|done].
  apply (is_running_generation_spec _ _ _ _ (sup_table _ Hok2)) in Hg as (s2 & Hs2 & Hp2 & Ho2).
  unfold stop_session in Hst.
  assert (forall l : list Timer, l <> l ++ [KillTimer pid g due]) as Hne.
  { intros l Hl%(f_equal length). rewrite length_app in Hl. simpl in Hl. lia. }
  destruct (snapshot _ _) as [[g' st]|] eqn:Hsn; [|by apply Hne in Hst].
  destruct (sst_state st) eqn:Hrun; [|by apply Hne in Hst].
  simpl in Hst. apply app_inj_2 in Hst as [_ Hst]; [|done]. injection Hst as -> <-.
  destruct (snapshot_running _ _ _ _ _ (sup_table _ Hok1) Hsn Hrun) as (s1 & Hs1 & Hp1 & Ho1 & _).
  split_and!; [by eauto|by eauto| |done].
  apply (acc_alive _ _ _ _ _ (sup_accounted _ Hok2)). right. exists g, s2. split; [|done].
  rewrite <- Hp2. by apply (tr_latest _ _ (sup_table _ Hok2)).
Qed.

(** The session of a concrete run: spawned as pid 42, told to stop at time 5. *)
Definition one_session : Supervisor :=
  set_sessions (mk_table {[42%N := mk_record 1 OutcomeRunning]} [] 1 ∅) (sup_new []).

Lemma one_session_reachable oc careful :
  rtc (sup_step oc careful) (mk_config (sup_new []) ∅ [])
    (mk_config one_session ({[42%N]} ∪ ∅) [mk_session 42 None OutcomeRunning]).
Proof.
  apply rtc_once. eapply sup_fork_session; [set_solver|by_decide|reflexivity].
Qed.

Lemma signals_hit_own_children_witness :
  sends_safely one_session (stop_session 5 10 42 one_session).2 ({[42%N]} ∪ ∅).
Proof.
  apply (signals_hit_own_children false [] _
    (mk_config (stop_session 5 10 42 one_session).2 ({[42%N]} ∪ ∅) [mk_session 42 None OutcomeRunning])
    (one_session_reachable false true)).
  apply sup_stop_session.
Defined.

Lemma stop_session_kills_that_session_witness :
  42%N ∈ alive (mk_config one_session ({[42%N]} ∪ ∅) [mk_session 42 None OutcomeRunning]) /\
  (15 = 5 + 10)%N.
Proof.
  assert (signals (kill_elapsed 42 1 one_session) <> signals one_session) as Hk by done.
  destruct (stop_session_kills_that_session false []
    (mk_config one_session ({[42%N]} ∪ ∅) [mk_session 42 None OutcomeRunning])
    (mk_config one_session ({[42%N]} ∪ ∅) [mk_session 42 None OutcomeRunning]) 5 10 42 1 15
    (one_session_reachable false true) (rtc_refl _ _) eq_refl Hk) as (_ & _ & Ha & Hd).
  exact (conj Ha Hd).
Defined.

(** ** Start and stop requests during a backoff *)

(** The service that waits out its backoff is started by request as pid 101;
    then its restart timer goes off and it is started again as pid 102. *)
Definition started_twice : Supervisor :=
  let s := (start_by_name "web" in_backoff).2 in
  let s := start_complete 20 0 (Some 101%N) (set_in_flight [] s) in
  let s := start_begin 0 (set_timers [StartupTimer 0 100 500; StartupTimer 0 101 520] s) in
  start_complete 600 0 (Some 102%N) (set_in_flight [] s).

(** The restriction on start requests is needed: a start requested while a restart is
    scheduled ends with two processes for one service, of which the supervisor
    has only the second on record.  Shutdown neither signals nor waits for the
    first. *)
Theorem start_in_backoff_orphans_child (oc : bool) :
  exists a, rtc (sup_step oc false) (mk_config (sup_new web) ∅ []) (mk_config started_twice a []) /\
    a = {[101%N; 102%N]} /\
    live_children started_twice = [102%N] /\
    signals (shutdown_begin started_twice) = [ToProcess 102 TERMINATE].
Proof.
  eexists. split; [|split; [|by vm_compute]].
  - etrans; [apply in_backoff_reachable|].
    eapply rtc_l; [by apply (sup_start_by_name _ _ _ _ _ "web")|].
    eapply rtc_l; [apply (sup_forked _ _ _ _ _ 20 0 101 [] []); [reflexivity|set_solver]|].
    eapply rtc_l; [apply (sup_restart_due _ _ _ _ _ 600 0 507 [StartupTimer 0 100 500] [StartupTimer 0 101 520]);
      [reflexivity|by_decide]|].
    eapply rtc_l; [apply (sup_forked _ _ _ _ _ 600 0 102 [] []); [reflexivity|set_solver]|].
    apply rtc_refl.
  - set_solver.
Qed.

(** A stop requested while a service waits out its backoff sends nothing
    and leaves the scheduled restart in place: when that comes due the service
    is started all the same, and the stop only suppresses the restart after the
    next exit. *)
Theorem stop_in_backoff_still_restarts (name : string) (s : Supervisor) (i : nat) (sl : Slot)
    (now due pid uptime : N) (l1 l2 : list Timer) :
  index_of name s = Ok i -> slots s !! i = Some sl -> slot_pid sl = None -> shutting_down s = false ->
  timers s = l1 ++ RestartTimer i due :: l2 ->
  let s1 := (stop_by_name name s).2 in
  let s2 := start_complete now i (Some pid) (set_in_flight (in_flight s) (start_begin i (set_timers (l1 ++ l2) s1))) in
  timers s1 = timers s /\ signals s1 = signals s /\
  exists sl', slots s2 !! i = Some sl' /\ slot_pid sl' = Some pid /\
    (runtime_record_exit uptime (slot_runtime sl')).1 = StoppedOnRequest.
Proof.
  intros Hi Hsl Hpid Hdown Ht. unfold stop_by_name. rewrite Hi, Hsl, Hpid. simpl.
  unfold start_begin. simpl. rewrite Hdown. simpl. split_and!; [done|done|].
  rewrite !list_lookup_alter_eq, Hsl. simpl. by eexists.
Qed.

Lemma stop_in_backoff_still_restarts_witness :
  timers (stop_by_name "web" in_backoff).2 = timers in_backoff /\
  signals (stop_by_name "web" in_backoff).2 = signals in_backoff.
Proof.
  destruct (stop_in_backoff_still_restarts "web" in_backoff 0
    (mk_slot "web" (mk_runtime "web" Backoff None (mk_backoff default_policy 1) false) None)
    600 507 101 7 [StartupTimer 0 100 500] [] eq_refl eq_refl eq_refl eq_refl eq_refl) as (Ht & Hs & _).
  exact (conj Ht Hs).
Defined.

(** [reap] drains a whole list of children as single steps. *)
Lemma reap_steps oc careful now children s a log :
  NoDup children.*1 -> (forall p, p ∈ children.*1 -> p ∈ a) ->
  exists log', rtc (sup_step oc careful) (mk_config s a log)
    (mk_config (reap now children s) (a ∖ list_to_set children.*1) log').
Proof.
  revert s a log. induction children as [|[pid code] children IH]; intros s a log Hnd Hin.
  { exists log. simpl. replace (a ∖ ∅) with a by set_solver. apply rtc_refl. }
  rewrite fmap_cons in *. cbn [fst] in *. apply NoDup_cons in Hnd as [Hni Hnd].
  destruct (IH (reap_child now (pid, code) s) (a ∖ {[pid]}) (reaped_history pid code s log)) as [log' Hr];
    [done| |].
  { intros p Hp. apply elem_of_difference. split; [apply Hin; by right|]. set_solver. }
  exists log'. eapply rtc_l; [apply (sup_reap _ _ _ _ _ now pid code), Hin; left|].
  rewrite list_to_set_cons, <- difference_difference_l_L. exact Hr.
Qed.

Lemma authorize_spec uids peer : authorize (from_service_uids uids) peer = Ok tt <-> peer_uid peer ∈ uids.
Proof. unfold authorize, from_service_uids. case_decide; set_solver. Qed.
