(* ===== verification/Policy.v ===== *)
(** * The supervisor's spawn and limit policy

    [src/packages/tddy-supervisor/src/policy.rs] and [config/spawn_policy.rs]:
    which users, binaries, environment variables, mount sources, limits and
    scope names a caller may ask for.  The kernel's resolution of a mount source
    beneath its root ([openat2]) is the parameter [open_beneath]. *)

From Stdlib Require Import Ascii.
From S2P Require Import Prelude Text NodeIds SessionTable.
Local Open Scope io_scope.

(** ** [str::split_whitespace] *)

Definition push_word (acc : list ascii) (ws : list (list ascii)) : list (list ascii) :=
  if decide (acc = []) then ws else reverse acc :: ws.

(** [acc] is the word being read, reversed. *)
Fixpoint words_of (acc l : list ascii) : list (list ascii) :=
  match l with
  | [] => push_word acc []
  | a :: l1 =>
      if ws1 a then push_word acc (words_of [] l1) else
      match l1 with
      | b :: l2 =>
          if ws2 a b then push_word acc (words_of [] l2) else
          match l2 with
          | c :: l3 => if ws3 a b c then push_word acc (words_of [] l3) else words_of (a :: acc) l1
          | [] => words_of (a :: acc) l1
          end
      | [] => words_of (a :: acc) l1
      end
  end.

Definition split_whitespace (s : string) : list string :=
  String.string_of_list_ascii <$> words_of [] (String.list_ascii_of_string s).

Example split_whitespace_example : split_whitespace "  10 	20 " = ["10"; "20"].
Proof. vm_compute. reflexivity. Qed.

(** ** [cpu.max] *)

Record CpuMax := mk_cpu { quota_us : N; period_us : N }.

#[global] Instance CpuMax_eq_dec : EqDecision CpuMax.
Proof. solve_decision. Defined.

Definition CpuMax_from_str (text : string) : res SupervisorError CpuMax :=
  let malformed := Invalid ("cpu.max must be `<quota_us> <period_us>`, got `" +:+ text +:+ "`") in
  match split_whitespace text with
  | [quota; period] =>
      let? quota := ok_or (parse_u64 quota) malformed in
      let? period := ok_or (parse_u64 period) malformed in
      if decide (period = 0%N) then Err (Invalid "cpu.max period must be greater than zero")
      else Ok (mk_cpu quota period)
  | _ => Err malformed
  end.

Definition CpuMax_display (c : CpuMax) : string := pretty (quota_us c) +:+ " " +:+ pretty (period_us c).

(** ** Limits *)

Record CgroupCeilings := mk_ceilings {
  memory_max_ceiling : option N;
  cpu_max_ceiling : option string;
  pids_max_ceiling : option N;
}.

(** [RequestedLimits] and [AppliedLimits] have the same fields. *)
Record Limits := mk_limits { memory_max : option N; cpu_max : option string; pids_max : option N }.

Definition clamp_scalar (requested ceiling : option N) : option N :=
  match requested, ceiling with
  | Some r, Some c => Some (N.min r c)
  | Some r, None => Some r
  | None, _ => ceiling
  end.

(** [Option::transpose] of a parse. *)
Definition parse_cpu (text : option string) : res SupervisorError (option CpuMax) :=
  match text with
  | None => Ok None
  | Some t => let? c := CpuMax_from_str t in Ok (Some c)
  end.

Definition clamp_cpu (requested ceiling : option string) : res SupervisorError (option string) :=
  let? requested := parse_cpu requested in
  let? ceiling := parse_cpu ceiling in
  match requested, ceiling with
  | Some r, Some c =>
      if decide (period_us r <> period_us c) then
        Err (Invalid ("cpu.max period " +:+ pretty (period_us r) +:+ " does not match the policy period "
                        +:+ pretty (period_us c)))
      else Ok (Some (CpuMax_display (mk_cpu (N.min (quota_us r) (quota_us c)) (period_us c))))
  | Some r, None => Ok (Some (CpuMax_display r))
  | None, c => Ok (CpuMax_display <$> c)
  end.

Definition clamp_limits (policy : CgroupCeilings) (requested : Limits) : res SupervisorError Limits :=
  let? cpu := clamp_cpu (cpu_max requested) (cpu_max_ceiling policy) in
  Ok (mk_limits (clamp_scalar (memory_max requested) (memory_max_ceiling policy)) cpu
        (clamp_scalar (pids_max requested) (pids_max_ceiling policy))).

(** ** What may be spawned *)

Record SpawnPolicy := mk_spawn_policy {
  allowed_session_users : list string;
  allowed_tool_paths : list string;
  allowed_relay_tool_paths : list string;
  allowed_mount_roots : list string;
  allowed_env_keys : list string;
}.

Definition ROOT_USER : string := "root".

Definition resolve_session_user (policy : SpawnPolicy) (requested : string) : res SupervisorError string :=
  if decide (requested = ROOT_USER) then Err Denied
  else if decide (requested ∈ allowed_session_users policy) then Ok requested
  else Err Denied.

Definition plain_absolute_path (path : string) : res SupervisorError string :=
  let '(absolute, components) := path_components path in
  if absolute && bool_decide (".." ∉ components) then Ok path else Err Denied.

Definition allowed_path (allowed : list string) (requested : string) : res SupervisorError string :=
  let? requested := plain_absolute_path requested in
  if existsb (fun a => path_eqb a requested) allowed then Ok requested else Err Denied.

Definition resolve_tool_path (policy : SpawnPolicy) : string -> res SupervisorError string :=
  allowed_path (allowed_tool_paths policy).

Definition resolve_relay_tool_path (policy : SpawnPolicy) : string -> res SupervisorError string :=
  allowed_path (allowed_relay_tool_paths policy).

Definition LOADER_ENV_PREFIXES : list string := ["LD_"; "MALLOC_"].
Definition LOADER_ENV_KEYS : list string :=
  ["GCONV_PATH"; "NLSPATH"; "LOCPATH"; "HOSTALIASES"; "RESOLV_HOST_CONF"].

Definition is_loader_env_key (key : string) : bool :=
  existsb (fun prefix => starts_with prefix key) LOADER_ENV_PREFIXES || bool_decide (key ∈ LOADER_ENV_KEYS).

(** The keys of the map in order; the first bad one decides. *)
Fixpoint check_env_keys (policy : SpawnPolicy) (keys : list string) : res SupervisorError unit :=
  match keys with
  | [] => Ok tt
  | key :: keys' =>
      if is_loader_env_key key then Err Denied
      else if decide (key ∉ allowed_env_keys policy) then Err Denied
      else check_env_keys policy keys'
  end.

(** Every refusal is the same [Denied], so the order of the keys does not show. *)
Definition resolve_env (policy : SpawnPolicy) (requested : gmap string string)
  : res SupervisorError (gmap string string) :=
  let? _ := check_env_keys policy (map_to_list requested).*1 in Ok requested.

(** [Path::components], the root directory included. *)
Definition components (p : string) : list string :=
  let '(absolute, rest) := path_components p in if absolute then "/" :: rest else rest.

(** [Path::strip_prefix] and [Path::starts_with] compare components. *)
Fixpoint strip_components (root path : list string) : option (list string) :=
  match root, path with
  | [], _ => Some path
  | r :: root', p :: path' => if decide (r = p) then strip_components root' path' else None
  | _ :: _, [] => None
  end.

Definition path_strip_prefix (root path : string) : option (list string) :=
  strip_components (components root) (components path).

(** [openat2] beneath the root, without symbolic links. *)
Inductive Opened := OpenedFd | OpenError (errno : N).
Definition ENOENT : N := 2.

(** [spawn_broker::path_to_c_string] fails on an interior NUL. *)
Definition c_string_ok (s : string) : bool := negb (has_char zero s).

Definition containment_of (resolved : Opened) : res SupervisorError unit :=
  match resolved with
  | OpenedFd => Ok tt
  | OpenError errno => if decide (errno = ENOENT) then Ok tt else Err Denied
  end.

Section mount.
Context (open_beneath : string -> list string -> Opened).

Definition resolve_mount_source (policy : SpawnPolicy) (requested : string) : res SupervisorError string :=
  let? requested := plain_absolute_path requested in
  match List.find (fun root => bool_decide (is_Some (path_strip_prefix root requested))) (allowed_mount_roots policy) with
  | None => Err Denied
  | Some root =>
      let? beneath := ok_or (path_strip_prefix root requested) Denied in
      if negb (c_string_ok root && forallb c_string_ok beneath) then Err Denied else
      let beneath := if decide (beneath = []) then ["."] else beneath in
      let? _ := containment_of (open_beneath root beneath) in
      Ok requested
  end.
End mount.

(** The part of [SupervisorConfig::validate] about this policy. *)
Definition require_absolute (path : string) : bool := (path_components path).1.

Definition validate_spawn_policy (policy : SpawnPolicy) : bool :=
  bool_decide (ROOT_USER ∉ allowed_session_users policy) &&
  forallb require_absolute (allowed_tool_paths policy) &&
  forallb require_absolute (allowed_relay_tool_paths policy) &&
  forallb require_absolute (allowed_mount_roots policy) &&
  forallb (fun key => negb (is_loader_env_key key)) (allowed_env_keys policy).

(** ** Scope directories *)

(** [Path::join] with a relative file name. *)
Definition join_file (base file : string) : string :=
  if decide (base = "") then file
  else if decide (last (String.list_ascii_of_string base) = Some "/"%char) then base +:+ file
  else base +:+ "/" +:+ file.

(** [Path::new(name).components()] yields exactly one [Normal] component. *)
Definition single_normal (name : string) : option string :=
  match path_components name with
  | (false, [w]) => if decide (w = "." \/ w = "..") then None else Some w
  | _ => None
  end.

Definition scope_dir (base name : string) : res SupervisorError string :=
  match single_normal name with
  | Some single => if decide (single = name) then Ok (join_file base ("tddy-" +:+ name +:+ ".scope")) else Err Denied
  | None => Err Denied
  end.

(** ** Printing and parsing [cpu.max] *)

Lemma words_of_plain_cons acc a l : plain a = true -> words_of acc (a :: l) = words_of (a :: acc) l.
Proof.
  intros Ha. assert (ws1 a = false) as Hw.
  { unfold plain in Ha. by destruct (ws1 a). }
  cbn [words_of]. rewrite Hw. destruct l as [|b [|c l]].
  - done.
  - by rewrite plain_ws2.
  - by rewrite plain_ws2, plain_ws3.
Qed.

Lemma words_of_plain acc l rest :
  Forall (fun a => plain a = true) l -> words_of acc (l ++ rest) = words_of (reverse l ++ acc) rest.
Proof.
  intros Hl. revert acc. induction Hl as [|a l Ha Hl IH]; intros acc; [done|].
  rewrite <- app_comm_cons, words_of_plain_cons, IH by done.
  by rewrite reverse_cons, <- app_assoc.
Qed.

Lemma split_two_words s t :
  Forall (fun a => plain a = true) (String.list_ascii_of_string s) -> s <> "" ->
  Forall (fun a => plain a = true) (String.list_ascii_of_string t) -> t <> "" ->
  split_whitespace (s +:+ " " +:+ t) = [s; t].
Proof.
  intros Hs Hs0 Ht Ht0. unfold split_whitespace. rewrite !list_ascii_app.
  rewrite words_of_plain by done. rewrite app_nil_r. cbn [String.list_ascii_of_string app words_of].
  replace (ws1 " ") with true by done.
  rewrite <- (app_nil_r (String.list_ascii_of_string t)), words_of_plain by done. simpl.
  rewrite app_nil_r. unfold push_word.
  rewrite decide_False. 2:{ intros Hr. apply Hs0. destruct s; [done|]. by apply (f_equal length) in Hr; rewrite length_reverse in Hr. }
  rewrite decide_False. 2:{ intros Hr. apply Ht0. destruct t; [done|]. by apply (f_equal length) in Hr; rewrite length_reverse in Hr. }
  rewrite !reverse_involutive. simpl. by rewrite !String.string_of_list_ascii_of_string.
Qed.

Definition cpu_fits (c : CpuMax) : Prop := (quota_us c <= u64_max /\ 0 < period_us c <= u64_max)%N.

Lemma cpu_roundtrip c : cpu_fits c -> CpuMax_from_str (CpuMax_display c) = Ok c.
Proof.
  intros [Hq Hp]. unfold CpuMax_from_str, CpuMax_display.
  destruct (pretty_plain (quota_us c)), (pretty_plain (period_us c)).
  rewrite split_two_words by done. unfold parse_u64. rewrite !parse_unsigned_pretty by lia. simpl.
  rewrite decide_False by lia. by destruct c.
Qed.

(** ** Clamping *)

Lemma parse_u64_bound s n : parse_u64 s = Some n -> (n <= u64_max)%N.
Proof.
  unfold parse_u64, parse_unsigned. intros H. assert (0 <= u64_max)%N by lia.
  repeat case_match; try done; by eapply parse_digits_bound.
Qed.

Lemma from_str_fits t c : CpuMax_from_str t = Ok c -> cpu_fits c.
Proof.
  unfold CpuMax_from_str. destruct (split_whitespace t) as [|q [|p [|]]]; try done.
  intros (qn & Hq%ok_or_Ok & (pn & Hp%ok_or_Ok & H)%res_bind_Ok)%res_bind_Ok.
  apply parse_u64_bound in Hq, Hp. case_decide; simplify_eq. split; simpl; lia.
Qed.

(** The applied value obeys the ceiling and never gives more than was asked. *)
Definition scalar_clamped (requested ceiling applied : option N) : Prop :=
  (forall c, ceiling = Some c -> exists a, applied = Some a /\ (a <= c)%N) /\
  (forall r, requested = Some r -> exists a, applied = Some a /\ (a <= r)%N) /\
  (ceiling = None -> applied = requested).

(** The same for [cpu.max], whose quotas compare within one period. *)
Definition cpu_at_most (applied bound : string) : Prop :=
  exists a b, CpuMax_from_str applied = Ok a /\ CpuMax_from_str bound = Ok b /\
    (quota_us a <= quota_us b)%N /\ period_us a = period_us b.

Definition cpu_clamped (requested ceiling applied : option string) : Prop :=
  (forall c, ceiling = Some c -> exists a, applied = Some a /\ cpu_at_most a c) /\
  (forall r, requested = Some r -> exists a, applied = Some a /\ cpu_at_most a r) /\
  (ceiling = None -> requested = None -> applied = None).

(** Why limits are refused: a malformed text, or two periods. *)
Definition cpu_conflict (requested ceiling : option string) : Prop :=
  (exists t e, (requested = Some t \/ ceiling = Some t) /\ CpuMax_from_str t = Err e) \/
  (exists r c cr cc, requested = Some r /\ ceiling = Some c /\
     CpuMax_from_str r = Ok cr /\ CpuMax_from_str c = Ok cc /\ period_us cr <> period_us cc).

Lemma clamp_scalar_clamped r c : scalar_clamped r c (clamp_scalar r c).
Proof.
  split_and!; destruct r as [r|], c as [c|]; simpl; try done; intros; simplify_eq;
    eexists; (split; [done|lia]).
Qed.

Lemma clamp_scalar_idem r c : clamp_scalar (clamp_scalar r c) c = clamp_scalar r c.
Proof. destruct r, c; simpl; f_equal; lia. Qed.

Lemma from_str_no_panic t : CpuMax_from_str t <> Panic.
Proof.
  unfold CpuMax_from_str. destruct (split_whitespace t) as [|q [|p [|]]]; try done.
  destruct (parse_u64 q); [|done]. destruct (parse_u64 p); [|done]. simpl. by case_decide.
Qed.

(** Both texts parse, or the request is refused for the one that does not. *)
Lemma clamp_cpu_cases r c :
  match clamp_cpu r c with
  | Ok a => cpu_clamped r c a /\ clamp_cpu a c = Ok a
  | Err _ => cpu_conflict r c
  | Panic => False
  end.
Proof.
  unfold clamp_cpu.
  destruct r as [rt|]; simpl; [destruct (CpuMax_from_str rt) as [rc|e|] eqn:Hr; simpl|];
    [|by left; eauto 10|by apply from_str_no_panic in Hr|];
    (destruct c as [ct|]; simpl; [destruct (CpuMax_from_str ct) as [cc|e|] eqn:Hc; simpl|];
      [|by left; eauto 10|by apply from_str_no_panic in Hc|]).
  - pose proof (from_str_fits _ _ Hr) as Hrf. pose proof (from_str_fits _ _ Hc) as Hcf.
    destruct (decide (period_us rc <> period_us cc)) as [Hp|Hp]; [by right; eauto 15|].
    apply dec_stable in Hp.
    set (m := mk_cpu (N.min (quota_us rc) (quota_us cc)) (period_us cc)).
    assert (CpuMax_from_str (CpuMax_display m) = Ok m) as Hm.
    { apply cpu_roundtrip. destruct Hrf, Hcf. split; simpl; lia. }
    split.
    + split_and!; [intros ? [= <-]|intros ? [= <-]|done]; eexists; (split; [done|]);
        eexists _, _; split_and!; [done|done|simpl; lia|simpl; congruence|done|done|simpl; lia|simpl; congruence].
    + simpl. rewrite Hm. simpl. rewrite decide_False by (simpl; tauto).
      subst m. simpl. do 3 f_equal. by rewrite N.min_l by lia.
  - pose proof (cpu_roundtrip _ (from_str_fits _ _ Hr)) as Hm. split; [|simpl; by rewrite Hm].
    split_and!; [done|intros ? [= <-]|done]. eexists. split; [done|]. eexists _, _. by split_and!.
  - pose proof (cpu_roundtrip _ (from_str_fits _ _ Hc)) as Hm. split.
    + split_and!; [intros ? [= <-]|done|done]. eexists. split; [done|]. eexists _, _. by split_and!.
    + simpl. rewrite Hm. simpl. rewrite decide_False by tauto. destruct cc. simpl. by rewrite N.min_id.
  - split; [by split_and!|done].
Qed.

(** Limits are clamped, never raised: what is applied is within every
    ceiling of the policy even when the caller names no limit, never more than
    the caller asked for, and clamping it again changes nothing; a request is
    refused only for a malformed [cpu.max] or a period the ceiling does not share. *)
Theorem clamp_limits_correct (policy : CgroupCeilings) (requested : Limits) :
  match clamp_limits policy requested with
  | Ok applied =>
      scalar_clamped (memory_max requested) (memory_max_ceiling policy) (memory_max applied) /\
      scalar_clamped (pids_max requested) (pids_max_ceiling policy) (pids_max applied) /\
      cpu_clamped (cpu_max requested) (cpu_max_ceiling policy) (cpu_max applied) /\
      clamp_limits policy applied = Ok applied
  | Err _ => cpu_conflict (cpu_max requested) (cpu_max_ceiling policy)
  | Panic => False
  end.
Proof.
  unfold clamp_limits. pose proof (clamp_cpu_cases (cpu_max requested) (cpu_max_ceiling policy)) as Hc.
  destruct (clamp_cpu (cpu_max requested) (cpu_max_ceiling policy)) as [a| |]; simpl; [|done|done].
  destruct Hc as [Hc Hi]. split_and!; [apply clamp_scalar_clamped|apply clamp_scalar_clamped|done|].
  by rewrite Hi, !clamp_scalar_idem.
Qed.

(** ** Scope directories stay under the delegated base *)

Lemma split_on_snoc c s t : split_on c (s +:+ String c t) = split_on c s ++ split_on c t.
Proof.
  induction s as [|a s IH].
  - change ("" +:+ String c t) with (String c t). simpl. by rewrite decide_True.
  - change (String a s +:+ String c t) with (String a (s +:+ String c t)). cbn [split_on]. rewrite IH.
    case_decide; [done|]. pose proof (split_on_nonempty c s). by destruct (split_on c s).
Qed.

(** A name that is one ordinary path component. *)
Definition file_name_ok (f : string) : Prop :=
  f <> "" /\ f <> "." /\ f <> ".." /\ has_char "/"%char f = false.

Lemma split_on_pieces c s w : w ∈ split_on c s -> has_char c w = false.
Proof.
  revert w. induction s as [|a s IH]; intros w; cbn [split_on].
  { by intros ->%list_elem_of_singleton. }
  case_decide as Ha.
  - intros [->|?]%elem_of_cons; [done|by apply IH].
  - destruct (split_on c s) as [|v vs]; [intros ->%list_elem_of_singleton|intros [->|Hw]%elem_of_cons].
    + simpl. by rewrite bool_decide_eq_false_2.
    + simpl. rewrite bool_decide_eq_false_2 by done. apply IH. left.
    + apply IH. by right.
Qed.

Lemma has_char_starts c s : has_char c s = false -> starts_with (String c "") s = false.
Proof.
  unfold starts_with. rewrite bool_decide_eq_false. destruct s as [|a s]; simpl; [by intros _ [? [=]]|].
  intros [Ha _]%orb_false_iff. apply bool_decide_eq_false in Ha.
  rewrite decide_False by congruence. by intros [? [=]].
Qed.

Lemma path_components_file f : file_name_ok f -> path_components f = (false, [f]).
Proof.
  intros (H0 & H1 & H2 & Hc). unfold path_components.
  rewrite (has_char_starts "/"%char), split_on_free by done.
  rewrite filter_cons, decide_True by done. simpl. by repeat case_match; simplify_eq.
Qed.

Lemma single_normal_spec name : single_normal name = Some name <-> file_name_ok name.
Proof.
  split.
  - unfold single_normal. destruct (path_components name) as [[] [|w [|]]] eqn:Hpc; try done.
    case_decide as Hw; [done|]. intros [= ->]. unfold path_components in Hpc.
    assert (name ∈ filter (fun w => w <> "" /\ w <> ".") (split_on "/"%char name)) as Hin.
    { injection Hpc as Habs Hl. rewrite Habs in Hl.
      assert (filter (fun w => w <> "" /\ w <> ".") (split_on "/"%char name) = [name]) as ->; [|left].
      repeat case_match; simplify_eq; tauto. }
    apply list_elem_of_filter in Hin as [[? ?] Hin%split_on_pieces].
    split_and!; try done; tauto.
  - intros Hf. unfold single_normal. rewrite path_components_file by done.
    destruct Hf as (_ & ? & ? & _). by rewrite decide_False by tauto.
Qed.

(** The components of a base directory followed by more of a path. *)
Lemma components_app b t :
  b <> "" ->
  components (b +:+ String "/" t) = components b ++ filter (fun w => w <> "" /\ w <> ".") (split_on "/"%char t).
Proof.
  intros Hb. unfold components, path_components. rewrite split_on_snoc, filter_app.
  assert (starts_with "/" (b +:+ String "/" t) = starts_with "/" b) as ->.
  { destruct b as [|a b]; [done|]. change (String a b +:+ String "/" t) with (String a (b +:+ String "/" t)).
    unfold starts_with. simpl. case_decide; [|done]. apply bool_decide_ext. split; intros _; by eexists. }
  destruct (starts_with "/" b); simpl; [done|].
  destruct (split_on "/"%char b) as [|w ws] eqn:Hs; [by apply split_on_nonempty in Hs|].
  rewrite <- app_comm_cons. by repeat case_match.
Qed.

Lemma file_pieces f :
  file_name_ok f -> filter (fun w => w <> "" /\ w <> ".") (split_on "/"%char f) = [f].
Proof.
  intros (H0 & H1 & H2 & Hc). rewrite split_on_free by done.
  by rewrite filter_cons, decide_True.
Qed.

Lemma last_slash base :
  last (String.list_ascii_of_string base) = Some "/"%char -> exists b, base = b +:+ "/".
Proof.
  intros (l & Hl)%last_Some. exists (String.string_of_list_ascii l).
  rewrite <- (String.string_of_list_ascii_of_string base), Hl. clear.
  induction l as [|a l IH]; [done|]. simpl. by rewrite IH.
Qed.

Lemma components_join base f :
  file_name_ok f -> components (join_file base f) = components base ++ [f].
Proof.
  intros Hf. unfold join_file. destruct (decide (base = "")) as [->|Hb].
  { unfold components at 1. by rewrite path_components_file. }
  case_decide as Hl.
  2:{ change ("/" +:+ f) with (String "/" f). by rewrite components_app, file_pieces. }
  apply last_slash in Hl as [b ->]. rewrite str_app_assoc. change ("/" +:+ f) with (String "/" f).
  destruct (decide (b = "")) as [->|Hb'].
  - change ("" +:+ String "/" f) with (String "/" f). change ("" +:+ "/") with "/".
    unfold components, path_components. change (starts_with "/" (String "/" f)) with true.
    change (split_on "/"%char (String "/" f)) with ("" :: split_on "/"%char f).
    rewrite filter_cons, decide_False, file_pieces by tauto. done.
  - rewrite !components_app, file_pieces by done. by rewrite app_nil_r.
Qed.

Lemma scope_file_ok name :
  has_char "/"%char name = false -> file_name_ok ("tddy-" +:+ name +:+ ".scope").
Proof.
  intros Hn. unfold file_name_ok. split_and!; [done|done|done|].
  change ("tddy-" +:+ name +:+ ".scope") with
    (String "t" (String "d" (String "d" (String "y" (String "-" (name +:+ ".scope")))))).
  cbn [has_char]. rewrite !bool_decide_eq_false_2 by done. simpl.
  induction name as [|a name IH]; [done|]. cbn [has_char] in Hn. apply orb_false_iff in Hn as [Ha Hn].
  change (String a name +:+ ".scope") with (String a (name +:+ ".scope")). cbn [has_char].
  rewrite Ha. by apply IH.
Qed.

(** A scope name is accepted exactly when it is one ordinary path
    component; the scope's directory is then the base's components and that one
    more, so it lies directly under the delegated base, and different names have
    different directories. *)
Theorem scope_dir_correct (base name : string) :
  match scope_dir base name with
  | Ok d =>
      file_name_ok name /\
      components d = components base ++ ["tddy-" +:+ name +:+ ".scope"] /\
      forall name', scope_dir base name' = Ok d -> name' = name
  | Err e => e = Denied /\ ~ file_name_ok name
  | Panic => False
  end.
Proof.
  assert (forall n d, scope_dir base n = Ok d ->
    file_name_ok n /\ components d = components base ++ ["tddy-" +:+ n +:+ ".scope"]) as Hok.
  { intros n d. unfold scope_dir. destruct (single_normal n) as [w|] eqn:Hw; [|done].
    case_decide; [subst|done]. intros [= <-]. apply single_normal_spec in Hw. split; [done|].
    apply components_join, scope_file_ok, Hw. }
  destruct (scope_dir base name) as [d|e|] eqn:Hs.
  - destruct (Hok _ _ Hs) as [Hf Hc]. split_and!; [done|done|].
    intros name' [_ Hc']%Hok. rewrite Hc in Hc'. apply app_inv_head in Hc'.
    injection Hc' as Hn. exact (eq_sym (string_app_inj_r name name' ".scope" Hn)).
  - unfold scope_dir in Hs. split.
    + destruct (single_normal name); [case_decide|]; congruence.
    + intros Hf%single_normal_spec. rewrite Hf, decide_True in Hs; done.
  - unfold scope_dir in Hs. destruct (single_normal name); [case_decide|]; congruence.
Qed.

(** ** What is granted *)

Lemma plain_absolute_path_Ok p v :
  plain_absolute_path p = Ok v <-> v = p /\ (path_components p).1 = true /\ ".." ∉ (path_components p).2.
Proof.
  unfold plain_absolute_path. destruct (path_components p) as [[] l]; simpl; [|naive_solver].
  case_bool_decide; naive_solver.
Qed.

Lemma allowed_path_Ok allowed p v :
  allowed_path allowed p = Ok v <->
  v = p /\ (path_components p).1 = true /\ ".." ∉ (path_components p).2 /\
  exists a, a ∈ allowed /\ path_components a = path_components p.
Proof.
  unfold allowed_path. rewrite res_bind_Ok. setoid_rewrite plain_absolute_path_Ok. split.
  - intros (q & (-> & Ha & Hd) & H). destruct (existsb _ _) eqn:He; [|done]. simplify_eq.
    apply existsb_exists in He as (a & Hin & Heq%bool_decide_eq_true).
    split_and!; try done. exists a. split; [by apply list_elem_of_In|done].
  - intros (-> & Ha & Hd & a & Hin & Heq). exists p. split; [done|].
    assert (existsb (fun a => path_eqb a p) allowed = true) as ->; [|done].
    apply existsb_exists. exists a. split; [by apply list_elem_of_In|]. by apply bool_decide_eq_true.
Qed.

Lemma check_env_keys_Ok policy keys :
  check_env_keys policy keys = Ok tt <->
  forall k, k ∈ keys -> k ∈ allowed_env_keys policy /\ is_loader_env_key k = false.
Proof.
  induction keys as [|k keys IH]; simpl; [split; [set_solver|done]|].
  destruct (is_loader_env_key k) eqn:Hk.
  { split; [done|]. intros H. destruct (H k) as [_ ?]; [left|congruence]. }
  case_decide as Hin.
  { split; [done|]. intros H. destruct (H k); [left|done]. }
  rewrite IH. split; [|set_solver].
  intros H k' [->|?]%elem_of_cons; auto.
Qed.

Lemma strip_components_Some root path rest :
  strip_components root path = Some rest <-> path = root ++ rest.
Proof.
  revert path. induction root as [|r root IH]; intros [|p path]; simpl; try naive_solver.
  case_decide; naive_solver.
Qed.

Section grants.
Context (open_beneath : string -> list string -> Opened) (policy : SpawnPolicy).

Lemma mount_source_granted src v :
  resolve_mount_source open_beneath policy src = Ok v ->
  v = src /\ (path_components src).1 = true /\ ".." ∉ (path_components src).2 /\
  exists root rest, root ∈ allowed_mount_roots policy /\ components src = components root ++ rest /\
    containment_of (open_beneath root (if decide (rest = []) then ["."] else rest)) = Ok tt.
Proof.
  unfold resolve_mount_source.
  intros (q & (-> & Ha & Hd)%plain_absolute_path_Ok & H)%res_bind_Ok.
  destruct (List.find _ _) as [root|] eqn:Hf; [|done].
  apply find_some in Hf as [Hin%list_elem_of_In _].
  apply res_bind_Ok in H as (rest & Hrest%ok_or_Ok & H). apply strip_components_Some in Hrest.
  destruct (negb _); [done|].
  apply res_bind_Ok in H as ([] & Hopen & [= <-]). split_and!; try done. eauto 10.
Qed.

(** The spelling of a path by its components, and a path that is spelled that way: no doubled
    or trailing slash, no [.] component. *)
Definition spelling (p : string) : string :=
  let '(absolute, names) := path_components p in (if absolute then "/" else "") +:+ String.concat "/" names.

Definition plainly_spelled (p : string) : Prop := spelling p = p.

Lemma plainly_spelled_eq a p : plainly_spelled a -> plainly_spelled p -> path_components a = path_components p -> a = p.
Proof. unfold plainly_spelled, spelling. intros Ha Hp E. rewrite <- Ha, E. exact Hp. Qed.

(** A binary is granted unchanged, as an absolute path without [..] that names one of the
    listed paths; where paths are spelled plainly, exactly when it is listed verbatim. *)
Definition granted_from (allowed : list string) (resolve : string -> res SupervisorError string) : Prop :=
  (forall p v, resolve p = Ok v ->
     v = p /\ (path_components p).1 = true /\ ".." ∉ (path_components p).2 /\
     exists a, a ∈ allowed /\ path_components a = path_components p) /\
  (forall p, plainly_spelled p -> Forall plainly_spelled allowed ->
     (resolve p = Ok p <-> (path_components p).1 = true /\ ".." ∉ (path_components p).2 /\ p ∈ allowed)).

Lemma allowed_path_granted allowed : granted_from allowed (allowed_path allowed).
Proof.
  split; [intros p v; by rewrite allowed_path_Ok|]. intros p Hp Hall. rewrite allowed_path_Ok. split.
  - intros (_ & Ha & Hd & a & Hin & E). split_and!; [done..|].
    rewrite Forall_forall in Hall. by rewrite <- (plainly_spelled_eq a p (Hall _ Hin) Hp E).
  - intros (Ha & Hd & Hin). split_and!; [done..|]. by exists p.
Qed.

(** C35. The policy denies by default. A user is granted exactly when it is listed and not
    root, an environment exactly when each of its variables is listed and none chooses
    code, and both unchanged. A binary is granted unchanged, as an absolute path without
    [..] that has the components of a listed one; where the request and the list are
    spelled plainly, exactly when it is listed verbatim. (Other spellings of a listed path
    are granted too, [tool_path_spelling].) A mount source is granted unchanged, and lies
    under an allowed root component by component, where the kernel resolved it or found
    nothing at its place. *)
Theorem policy_grants :
  (forall u v, resolve_session_user policy u = Ok v <->
     v = u /\ u <> ROOT_USER /\ u ∈ allowed_session_users policy) /\
  granted_from (allowed_tool_paths policy) (resolve_tool_path policy) /\
  granted_from (allowed_relay_tool_paths policy) (resolve_relay_tool_path policy) /\
  (forall e v, resolve_env policy e = Ok v <->
     v = e /\ forall k, is_Some (e !! k) -> k ∈ allowed_env_keys policy /\ is_loader_env_key k = false) /\
  (forall src v, resolve_mount_source open_beneath policy src = Ok v ->
     v = src /\ (path_components src).1 = true /\ ".." ∉ (path_components src).2 /\
     exists root rest, root ∈ allowed_mount_roots policy /\ components src = components root ++ rest /\
       containment_of (open_beneath root (if decide (rest = []) then ["."] else rest)) = Ok tt).
Proof.
  split_and!.
  - intros u v. unfold resolve_session_user. repeat case_decide; naive_solver.
  - apply allowed_path_granted.
  - apply allowed_path_granted.
  - intros e v. unfold resolve_env. rewrite res_bind_Ok.
    assert (forall k, k ∈ (map_to_list e).*1 <-> is_Some (e !! k)) as Hk.
    { intros k. rewrite list_elem_of_fmap. split.
      - intros ([k' x] & -> & Hx%elem_of_map_to_list). by eexists.
      - intros [x Hx]. exists (k, x). split; [done|]. by apply elem_of_map_to_list. }
    split.
    + intros ([] & Hc & [= <-]). split; [done|]. intros k Hs. apply (check_env_keys_Ok policy _) with (k := k) in Hc; [done|].
      by apply Hk.
    + intros [-> H]. exists tt. split; [|done]. apply check_env_keys_Ok. intros k ?%Hk. auto.
  - apply mount_source_granted.
Qed.
End grants.

(** A policy the configuration loader accepts has absolute roots and lists
    neither root nor a variable that chooses code. *)
Lemma validated_policy policy :
  validate_spawn_policy policy = true ->
  ROOT_USER ∉ allowed_session_users policy /\
  (forall root, root ∈ allowed_mount_roots policy -> (path_components root).1 = true) /\
  (forall k, k ∈ allowed_env_keys policy -> is_loader_env_key k = false).
Proof.
  unfold validate_spawn_policy. rewrite !andb_true_iff, bool_decide_eq_true, !forallb_forall.
  intros ((((Hu & _) & _) & Hm) & He). split_and!; [done|..].
  - intros root Hr. apply Hm. by apply list_elem_of_In.
  - intros k Hk. apply negb_true_iff, He. by apply list_elem_of_In.
Qed.

(** A plainly spelled list grants exactly what it lists. *)
Example plain_path_granted :
  let policy := mk_spawn_policy [] ["/usr/bin/agent"] [] [] [] in
  plainly_spelled "/usr/bin/agent" /\ resolve_tool_path policy "/usr/bin/agent" = Ok "/usr/bin/agent" /\
  resolve_tool_path policy "/usr/bin/agents" = Err Denied.
Proof. vm_compute. done. Qed.

(** Listed paths are compared by components, so another spelling of a listed
    path is granted, and handed on as the caller spelled it. *)
Example tool_path_spelling :
  resolve_tool_path (mk_spawn_policy [] ["/usr/bin/agent"] [] [] []) "/usr//bin/./agent" = Ok "/usr//bin/./agent".
Proof. vm_compute. reflexivity. Qed.
