(* ===== verification/RpcStatus.v ===== *)
(** * RPC status codes

    [src/packages/tddy-rpc/src/status.rs], the Connect spellings and HTTP codes of
    [tddy-connectrpc/src/error.rs], and the client's reading of them
    ([connect_code] of [tddy-session-tool-client/src/daemon_http_rpc.rs]). *)

From S2P Require Import Prelude.

Inductive Code :=
| CodeOk
| CodeCancelled
| CodeUnknown
| CodeInvalidArgument
| CodeDeadlineExceeded
| CodeNotFound
| CodeAlreadyExists
| CodePermissionDenied
| CodeResourceExhausted
| CodeFailedPrecondition
| CodeAborted
| CodeOutOfRange
| CodeUnimplemented
| CodeInternal
| CodeUnavailable
| CodeDataLoss
| CodeUnauthenticated.

#[global] Instance Code_eq_dec : EqDecision Code.
Proof. solve_decision. Defined.

Record Status := mk_rpc_status { st_code : Code; st_message : string }.

#[global] Instance Status_eq_dec : EqDecision Status.
Proof. solve_decision. Defined.

Definition Code_as_str (c : Code) : string :=
  match c with
  | CodeOk => "OK"
  | CodeCancelled => "CANCELLED"
  | CodeUnknown => "UNKNOWN"
  | CodeInvalidArgument => "INVALID_ARGUMENT"
  | CodeDeadlineExceeded => "DEADLINE_EXCEEDED"
  | CodeNotFound => "NOT_FOUND"
  | CodeAlreadyExists => "ALREADY_EXISTS"
  | CodePermissionDenied => "PERMISSION_DENIED"
  | CodeResourceExhausted => "RESOURCE_EXHAUSTED"
  | CodeFailedPrecondition => "FAILED_PRECONDITION"
  | CodeAborted => "ABORTED"
  | CodeOutOfRange => "OUT_OF_RANGE"
  | CodeUnimplemented => "UNIMPLEMENTED"
  | CodeInternal => "INTERNAL"
  | CodeUnavailable => "UNAVAILABLE"
  | CodeDataLoss => "DATA_LOSS"
  | CodeUnauthenticated => "UNAUTHENTICATED"
  end.

(** [Code::from_str]: [Unknown] for anything else. *)
Definition Code_from_str (s : string) : Code :=
  if decide (s = "OK") then CodeOk else
  if decide (s = "CANCELLED") then CodeCancelled else
  if decide (s = "UNKNOWN") then CodeUnknown else
  if decide (s = "INVALID_ARGUMENT") then CodeInvalidArgument else
  if decide (s = "DEADLINE_EXCEEDED") then CodeDeadlineExceeded else
  if decide (s = "NOT_FOUND") then CodeNotFound else
  if decide (s = "ALREADY_EXISTS") then CodeAlreadyExists else
  if decide (s = "PERMISSION_DENIED") then CodePermissionDenied else
  if decide (s = "RESOURCE_EXHAUSTED") then CodeResourceExhausted else
  if decide (s = "FAILED_PRECONDITION") then CodeFailedPrecondition else
  if decide (s = "ABORTED") then CodeAborted else
  if decide (s = "OUT_OF_RANGE") then CodeOutOfRange else
  if decide (s = "UNIMPLEMENTED") then CodeUnimplemented else
  if decide (s = "INTERNAL") then CodeInternal else
  if decide (s = "UNAVAILABLE") then CodeUnavailable else
  if decide (s = "DATA_LOSS") then CodeDataLoss else
  if decide (s = "UNAUTHENTICATED") then CodeUnauthenticated else
  CodeUnknown.

Definition code_to_connect_str (c : Code) : string :=
  match c with
  | CodeOk => "ok"
  | CodeCancelled => "canceled"
  | CodeUnknown => "unknown"
  | CodeInvalidArgument => "invalid_argument"
  | CodeDeadlineExceeded => "deadline_exceeded"
  | CodeNotFound => "not_found"
  | CodeAlreadyExists => "already_exists"
  | CodePermissionDenied => "permission_denied"
  | CodeResourceExhausted => "resource_exhausted"
  | CodeFailedPrecondition => "failed_precondition"
  | CodeAborted => "aborted"
  | CodeOutOfRange => "out_of_range"
  | CodeUnimplemented => "unimplemented"
  | CodeInternal => "internal"
  | CodeUnavailable => "unavailable"
  | CodeDataLoss => "data_loss"
  | CodeUnauthenticated => "unauthenticated"
  end.

Definition code_to_http_status (c : Code) : N :=
  match c with
  | CodeOk => 200
  | CodeCancelled => 499
  | CodeUnknown => 500
  | CodeInvalidArgument => 400
  | CodeDeadlineExceeded => 504
  | CodeNotFound => 404
  | CodeAlreadyExists => 409
  | CodePermissionDenied => 403
  | CodeResourceExhausted => 429
  | CodeFailedPrecondition => 400
  | CodeAborted => 409
  | CodeOutOfRange => 400
  | CodeUnimplemented => 501
  | CodeInternal => 500
  | CodeUnavailable => 503
  | CodeDataLoss => 500
  | CodeUnauthenticated => 401
  end.

(** [connect_code], the client's inverse of [code_to_connect_str]. *)
Definition connect_code (s : string) : Code :=
  if decide (s = "canceled") then CodeCancelled else
  if decide (s = "unknown") then CodeUnknown else
  if decide (s = "invalid_argument") then CodeInvalidArgument else
  if decide (s = "deadline_exceeded") then CodeDeadlineExceeded else
  if decide (s = "not_found") then CodeNotFound else
  if decide (s = "already_exists") then CodeAlreadyExists else
  if decide (s = "permission_denied") then CodePermissionDenied else
  if decide (s = "resource_exhausted") then CodeResourceExhausted else
  if decide (s = "failed_precondition") then CodeFailedPrecondition else
  if decide (s = "aborted") then CodeAborted else
  if decide (s = "out_of_range") then CodeOutOfRange else
  if decide (s = "unimplemented") then CodeUnimplemented else
  if decide (s = "internal") then CodeInternal else
  if decide (s = "unavailable") then CodeUnavailable else
  if decide (s = "data_loss") then CodeDataLoss else
  if decide (s = "unauthenticated") then CodeUnauthenticated else
  CodeUnknown.

Lemma Code_roundtrip c : Code_from_str (Code_as_str c) = c.
Proof. by destruct c. Qed.

(** [ok] is no error code of the Connect protocol: a client reads it as [Unknown]. *)
Lemma connect_code_roundtrip c :
  connect_code (code_to_connect_str c) = if decide (c = CodeOk) then CodeUnknown else c.
Proof. by destruct c. Qed.

(** An error status never travels as an HTTP success. *)
Lemma error_is_not_http_success c :
  c <> CodeOk -> (400 <= code_to_http_status c < 600)%N.
Proof. by destruct c. Qed.

(** [Status]'s constructors. *)
Definition status_not_found (m : string) : Status := mk_rpc_status CodeNotFound m.
Definition status_invalid_argument (m : string) : Status := mk_rpc_status CodeInvalidArgument m.
Definition status_internal (m : string) : Status := mk_rpc_status CodeInternal m.
Definition status_unimplemented (m : string) : Status := mk_rpc_status CodeUnimplemented m.
Definition status_unavailable (m : string) : Status := mk_rpc_status CodeUnavailable m.
