(* ===== verification/Framing.v ===== *)
(** * Frames on a byte stream

    Length-prefixed codecs: the duplex RPC frames of
    [src/packages/tddy-rpc/src/transport.rs], read by the loop of
    [tddy-stdio/src/endpoint.rs], are here; the Connect envelopes are in [Connect].

    What both readers rely on is the class [FrameSource]: taking the next frame off a
    buffer only looks at that frame. From it alone follows that it does not matter how
    the transport cuts the bytes ([read_chunks_concat]); the codecs are instances. *)

From Stdlib Require Import Strings.Byte.
From S2P Require Import Prelude.

Notation bytes := (list byte).

#[global] Instance byte_eq_dec : EqDecision byte.
Proof. exact Byte.byte_eq_dec. Defined.

(** ** Big-endian [u32] *)

Definition byte_of (n : N) : byte := default x00 (Byte.of_N (n mod 256)).

(** [n as u32] followed by [to_be_bytes]. *)
Definition to_be_bytes (n : N) : bytes :=
  [byte_of (n / 16777216); byte_of (n / 65536); byte_of (n / 256); byte_of n].

Definition from_be_bytes (a b c d : byte) : N :=
  (Byte.to_N a * 16777216 + Byte.to_N b * 65536 + Byte.to_N c * 256 + Byte.to_N d)%N.

Lemma to_N_byte_of n : Byte.to_N (byte_of n) = (n mod 256)%N.
Proof.
  unfold byte_of. destruct (Byte.of_N (n mod 256)) as [b|] eqn:Hb.
  - by apply Byte.to_of_N.
  - apply Byte.of_N_None_iff in Hb. pose proof (N.mod_lt n 256). lia.
Qed.

(** The cast to [u32] keeps the low 32 bits. *)
Lemma be_bytes_roundtrip n :
  match to_be_bytes n with
  | [a; b; c; d] => from_be_bytes a b c d = (n mod 4294967296)%N
  | _ => False
  end.
Proof.
  simpl. unfold from_be_bytes. rewrite !to_N_byte_of.
  pose proof (N.div_mod n 4294967296 ltac:(lia)).
  pose proof (N.div_mod n 256 ltac:(lia)). pose proof (N.div_mod (n / 256) 256 ltac:(lia)).
  pose proof (N.div_mod (n / 65536) 256 ltac:(lia)). pose proof (N.div_mod (n / 16777216) 256 ltac:(lia)).
  assert (n / 65536 = n / 256 / 256)%N by (rewrite N.Div0.div_div; done).
  assert (n / 16777216 = n / 65536 / 256)%N by (rewrite N.Div0.div_div; done).
  assert (n / 4294967296 = n / 16777216 / 256)%N by (rewrite N.Div0.div_div; done).
  lia.
Qed.

(** ** Reading frames off a stream *)

(** The next frame of a buffer and the bytes after it, [None] when no frame can
    be taken. *)
Class FrameSource (F : Type) := {
  next_frame : bytes -> option (F * bytes);
  next_frame_shrinks : forall b f r, next_frame b = Some (f, r) -> (length r < length b)%nat;
  next_frame_app : forall b f r c, next_frame b = Some (f, r) -> next_frame (b ++ c) = Some (f, r ++ c);
}.

Section reader.
Context {F : Type} `{FrameSource F}.

(** [while let Some(frame) = decoder.next_frame()]: one unit of fuel per frame. *)
Fixpoint drain_with (fuel : nat) (b : bytes) : list F * bytes :=
  match fuel with
  | O => ([], b)
  | S fuel' =>
      match next_frame b with
      | None => ([], b)
      | Some (f, r) => let '(fs, r') := drain_with fuel' r in (f :: fs, r')
      end
  end.

Definition drain (b : bytes) : list F * bytes := drain_with (length b) b.

(** A chunk read from the transport: [feed], then take every complete frame. *)
Definition read_chunk (st : list F * bytes) (chunk : bytes) : list F * bytes :=
  let '(fs, r) := drain (st.2 ++ chunk) in (st.1 ++ fs, r).

Definition read_chunks (chunks : list bytes) : list F * bytes := foldl read_chunk ([], []) chunks.

Lemma drain_with_enough fuel b :
  (length b <= fuel)%nat -> drain_with fuel b = drain b.
Proof.
  unfold drain. assert (forall n m c, (length c <= n)%nat -> (length c <= m)%nat ->
    drain_with n c = drain_with m c) as Hgen; [|intros; by apply Hgen].
  induction n as [|n IH]; intros m c Hn Hm.
  - destruct c; [|simpl in Hn; lia]. destruct m; [done|]. simpl.
    destruct (next_frame []) as [[f r]|] eqn:Hf; [|done].
    apply next_frame_shrinks in Hf. simpl in Hf. lia.
  - destruct m as [|m].
    { destruct c; [|simpl in Hm; lia]. simpl.
      destruct (next_frame []) as [[f r]|] eqn:Hf; [|done].
      apply next_frame_shrinks in Hf. simpl in Hf. lia. }
    simpl. destruct (next_frame c) as [[f r]|] eqn:Hf; [|done].
    apply next_frame_shrinks in Hf. by rewrite (IH m r) by lia.
Qed.

(** The loop body, without fuel. *)
Lemma drain_unfold b :
  drain b = match next_frame b with
            | None => ([], b)
            | Some (f, r) => let '(fs, r') := drain r in (f :: fs, r')
            end.
Proof.
  destruct (next_frame b) as [[f r]|] eqn:Hf; unfold drain at 1.
  - pose proof (next_frame_shrinks _ _ _ Hf). destruct b as [|x b]; [simpl in *; lia|].
    simpl. rewrite Hf, drain_with_enough by (simpl in *; lia). done.
  - destruct b; simpl; [done|]. by rewrite Hf.
Qed.

(** What the loop leaves holds no complete frame. *)
Lemma drain_rest b : next_frame (drain b).2 = None.
Proof.
  remember (length b) as n eqn:Hn. revert b Hn. induction (lt_wf n) as [n _ IH]; intros b ->.
  rewrite drain_unfold. destruct (next_frame b) as [[f r]|] eqn:Hf; [|done].
  pose proof (next_frame_shrinks _ _ _ Hf) as Hlt.
  specialize (IH _ Hlt r eq_refl). by destruct (drain r).
Qed.

(** Draining, then more bytes, then draining again is draining once. *)
Lemma drain_app b c :
  drain (b ++ c) = let '(fs, r) := drain b in let '(fs', r') := drain (r ++ c) in (fs ++ fs', r').
Proof.
  remember (length b) as n eqn:Hn. revert b Hn. induction (lt_wf n) as [n _ IH]; intros b ->.
  rewrite (drain_unfold b). destruct (next_frame b) as [[f r]|] eqn:Hf.
  - pose proof (next_frame_shrinks _ _ _ Hf) as Hlt.
    rewrite drain_unfold, (next_frame_app _ _ _ _ Hf), (IH _ Hlt r eq_refl).
    destruct (drain r) as [fs r']. by destruct (drain (r' ++ c)).
  - by destruct (drain (b ++ c)).
Qed.

(** However the transport cuts the stream, the frames are those of the whole. *)
Lemma read_chunks_concat chunks : read_chunks chunks = drain (concat chunks).
Proof.
  unfold read_chunks. assert (forall fs b, drain b = ([], b) ->
    foldl read_chunk (fs, b) chunks = let '(fs', r) := drain (b ++ concat chunks) in (fs ++ fs', r)) as Hgen.
  { induction chunks as [|c chunks IH]; intros fs b Hb; simpl.
    - by rewrite app_nil_r, Hb, app_nil_r.
    - unfold read_chunk at 2. simpl. rewrite app_assoc, (drain_app (b ++ c)).
      pose proof (drain_rest (b ++ c)) as Hr. destruct (drain (b ++ c)) as [fs1 r1]. simpl in Hr.
      rewrite IH by (by rewrite drain_unfold, Hr). destruct (drain (r1 ++ concat chunks)).
      by rewrite app_assoc. }
  rewrite Hgen by done. by destruct (drain _).
Qed.

(** Encoders the source takes back apart. *)
Lemma drain_encoded {A} (enc : A -> bytes) (dec : A -> F) (xs : list A) :
  (forall x c, x ∈ xs -> next_frame (enc x ++ c) = Some (dec x, c)) ->
  next_frame [] = None ->
  drain (concat (enc <$> xs)) = (dec <$> xs, []).
Proof.
  intros Henc Hnil. induction xs as [|x xs IH].
  - simpl. by rewrite drain_unfold, Hnil.
  - rewrite !fmap_cons. cbn [concat]. rewrite drain_unfold, Henc by left.
    rewrite IH by (intros; apply Henc; by right). done.
Qed.

(** A proper prefix of one encoding holds no frame: the laws alone say so. *)
Lemma next_frame_proper_prefix (e b c : bytes) f :
  next_frame e = Some (f, []) -> e = b ++ c -> c <> [] -> next_frame b = None.
Proof.
  intros He -> Hc. destruct (next_frame b) as [[f' r]|] eqn:Hb; [|done].
  rewrite (next_frame_app _ _ _ c Hb) in He. injection He as _ Hr.
  apply app_nil in Hr as [_ ?]. done.
Qed.

(** A stream cut short gives the frames that arrived whole, and no other. *)
Lemma drain_cut {A} (enc : A -> bytes) (dec : A -> F) (xs : list A) (b c : bytes) :
  (forall x c, x ∈ xs -> next_frame (enc x ++ c) = Some (dec x, c)) ->
  next_frame [] = None ->
  concat (enc <$> xs) = b ++ c -> c <> [] ->
  exists k, (k < length xs)%nat /\ (drain b).1 = dec <$> take k xs.
Proof.
  intros Henc Hnil. revert b. induction xs as [|x xs IH]; intros b Heq Hc.
  { apply eq_sym, app_nil in Heq as [_ ?]. done. }
  rewrite fmap_cons in Heq. cbn [concat] in Heq. apply app_eq_inv in Heq as [(k & Hx & Hk)|(k & -> & Hk)].
  - (* the cut is inside the first encoding, or at its end *)
    destruct (decide (k = [])) as [->|Hne].
    + rewrite app_nil_r in Hx. subst b. simpl in Hk. destruct xs as [|x' xs'].
      { simpl in Hk. by subst c. }
      exists 1%nat. split; [simpl; lia|].
      rewrite drain_unfold. rewrite <- (app_nil_r (enc x)) at 1. rewrite Henc by left.
      by rewrite drain_unfold, Hnil.
    + exists 0%nat. split; [simpl; lia|].
      rewrite drain_unfold, (next_frame_proper_prefix (enc x) b k (dec x)); [done| |done..].
      rewrite <- (app_nil_r (enc x)). apply Henc. left.
  - destruct (IH ltac:(intros; apply Henc; by right) k Hk Hc) as (n & Hn & Hd).
    exists (S n). split; [simpl; lia|]. rewrite drain_unfold, Henc by left.
    destruct (drain k) as [fs r]. simpl in *. by rewrite Hd.
Qed.
End reader.

(** ** RPC frames (transport.rs) *)

Inductive FrameKind := KRequest | KResponse.

#[global] Instance FrameKind_eq_dec : EqDecision FrameKind.
Proof. solve_decision. Defined.

Definition FrameKind_to_byte (k : FrameKind) : byte :=
  match k with KRequest => x00 | KResponse => x01 end.

Definition FrameKind_from_byte (b : byte) : option FrameKind :=
  match b with x00 => Some KRequest | x01 => Some KResponse | _ => None end.

Definition LENGTH_PREFIX_BYTES : nat := 4.
Definition KIND_BYTES : nat := 1.

Definition encode_frame (kind : FrameKind) (payload : bytes) : bytes :=
  let body_len := (KIND_BYTES + length payload)%nat in
  to_be_bytes (N.of_nat body_len) ++ [FrameKind_to_byte kind] ++ payload.

(** [FrameDecoder::next_frame] on the decoder's buffer; [None] keeps the buffer. *)
Definition rpc_next_frame (buffer : bytes) : option (FrameKind * bytes * bytes) :=
  match buffer with
  | a :: b :: c :: d :: body =>
      let body_len := N.to_nat (from_be_bytes a b c d) in
      if decide (body_len < KIND_BYTES)%nat then None
      else if decide (length body < body_len)%nat then None
      else
        match body with
        | k :: rest =>
            kind ← FrameKind_from_byte k;
            Some (kind, take (body_len - KIND_BYTES) rest, drop (body_len - KIND_BYTES) rest)
        | [] => None
        end
  | _ => None
  end.

Lemma rpc_next_frame_shrinks b f r : rpc_next_frame b = Some (f, r) -> (length r < length b)%nat.
Proof.
  destruct b as [|b0 [|b1 [|b2 [|b3 body]]]]; simpl; try done.
  repeat (case_decide; [done|]). destruct body as [|k rest]; [done|].
  destruct (FrameKind_from_byte k); simpl; [|done]. intros [= <- <-]. rewrite length_drop. lia.
Qed.

Lemma rpc_next_frame_app b f r c :
  rpc_next_frame b = Some (f, r) -> rpc_next_frame (b ++ c) = Some (f, r ++ c).
Proof.
  destruct b as [|b0 [|b1 [|b2 [|b3 body]]]]; cbn [rpc_next_frame app]; try done.
  unfold KIND_BYTES. set (n := N.to_nat _). destruct (decide (n < 1)%nat); [done|].
  destruct (decide (length body < n)%nat) as [|Hlen]; [done|].
  rewrite (decide_False (P := (length (body ++ c) < n)%nat)) by (rewrite length_app; lia).
  destruct body as [|k rest]; [done|]. simpl in *. destruct (FrameKind_from_byte k); simpl; [|done].
  intros [= <- <-]. by rewrite take_app_le, drop_app_le by lia.
Qed.

#[global] Instance rpc_frames : FrameSource (FrameKind * bytes) := {|
  next_frame := rpc_next_frame;
  next_frame_shrinks := rpc_next_frame_shrinks;
  next_frame_app := rpc_next_frame_app;
|}.

(** The frame's length fits its 32-bit prefix. *)
Definition frame_fits (payload : bytes) : Prop := (N.of_nat (KIND_BYTES + length payload) <= u32_max)%N.

Lemma from_to_be n :
  exists a b c d, to_be_bytes n = [a; b; c; d] /\ from_be_bytes a b c d = (n mod 4294967296)%N.
Proof. pose proof (be_bytes_roundtrip n). eexists _, _, _, _. split; [done|]. exact H. Qed.

Lemma rpc_next_frame_encoded kind payload c :
  frame_fits payload -> rpc_next_frame (encode_frame kind payload ++ c) = Some (kind, payload, c).
Proof.
  unfold frame_fits, encode_frame, u32_max. intros Hfit.
  destruct (from_to_be (N.of_nat (KIND_BYTES + length payload))) as (b0 & b1 & b2 & b3 & -> & Hn).
  cbn [rpc_next_frame app]. rewrite Hn, N.mod_small, Nat2N.id by lia. unfold KIND_BYTES in *.
  rewrite decide_False by lia. rewrite decide_False by (simpl; rewrite length_app; lia).
  replace (FrameKind_from_byte (FrameKind_to_byte kind)) with (Some kind) by by destruct kind.
  simpl. rewrite Nat.sub_0_r. by rewrite take_app_length, drop_app_length.
Qed.

(** Whatever frames are written and however the transport cuts the bytes,
    reading chunk by chunk gives back exactly those frames, in order, and leaves
    nothing in the buffer. *)
Theorem rpc_frames_roundtrip (frames : list (FrameKind * bytes)) (chunks : list bytes) :
  Forall (fun f => frame_fits f.2) frames ->
  concat chunks = concat ((fun f => encode_frame f.1 f.2) <$> frames) ->
  read_chunks chunks = (frames, []).
Proof.
  intros Hfit Hc. rewrite read_chunks_concat, Hc.
  rewrite (drain_encoded (fun f => encode_frame f.1 f.2) id).
  - by rewrite list_fmap_id.
  - intros [k p] c Hin. rewrite Forall_forall in Hfit. apply rpc_next_frame_encoded, (Hfit _ Hin).
  - done.
Qed.

Lemma rpc_frames_roundtrip_witness :
  read_chunks [[x00; x00]; [x00; x03; x00; x61]; [x62; x00; x00; x00; x01; x01]] =
    ([(KRequest, [x61; x62]); (KResponse, [])], []).
Proof.
  apply (rpc_frames_roundtrip [(KRequest, [x61; x62]); (KResponse, [])]); [|reflexivity].
  repeat constructor; by_decide.
Defined.

(** A frame no reader takes: complete, but of an unknown kind, or of length zero. *)
Definition malformed_head (buffer : bytes) : Prop :=
  exists a b c d body, buffer = a :: b :: c :: d :: body /\
    (from_be_bytes a b c d = 0%N \/
     exists k rest, body = k :: rest /\ FrameKind_from_byte k = None).

(** A malformed frame wedges the connection: once one is at the head of the
    buffer no later byte is ever taken off it, every following frame is lost and
    the buffer grows with everything the peer sends. *)
Theorem malformed_frame_wedges (buffer : bytes) (chunks : list bytes) :
  malformed_head buffer ->
  foldl read_chunk ([] : list (FrameKind * bytes), buffer) chunks = ([], buffer ++ concat chunks).
Proof.
  intros Hm. assert (forall c, rpc_next_frame (buffer ++ c) = None) as Hstuck.
  { destruct Hm as (a & b & c' & d & body & -> & Hbad). intros c. cbn [rpc_next_frame app].
    destruct Hbad as [->|(k & rest & -> & Hk)]; [by rewrite decide_True by (simpl; unfold KIND_BYTES; lia)|].
    repeat (case_decide; [done|]). simpl. by rewrite Hk. }
  assert (forall suffix, foldl read_chunk ([] : list (FrameKind * bytes), buffer ++ suffix) chunks =
    ([], (buffer ++ suffix) ++ concat chunks)) as Hgen.
  { induction chunks as [|c chunks IH]; intros suffix; simpl; [by rewrite app_nil_r|].
    unfold read_chunk at 2. simpl. rewrite drain_unfold. rewrite <- app_assoc. cbn [next_frame rpc_frames].
    rewrite Hstuck. simpl. rewrite IH. by rewrite <- !app_assoc. }
  specialize (Hgen []). by rewrite app_nil_r in Hgen.
Qed.

Lemma malformed_frame_wedges_witness :
  foldl read_chunk ([] : list (FrameKind * bytes), [x00; x00; x00; x01; x07]) [encode_frame KRequest [x61]] =
    ([], [x00; x00; x00; x01; x07] ++ encode_frame KRequest [x61] ++ []).
Proof.
  apply (malformed_frame_wedges [x00; x00; x00; x01; x07] [encode_frame KRequest [x61]]).
  eexists _, _, _, _, _. split; [reflexivity|]. right. eexists _, _. split; reflexivity.
Defined.
