(* ===== verification/Utf8.v ===== *)
(** * Text as bytes

    The bytes of a string, and the two ways the program reads bytes as text:
    [String::from_utf8], which refuses what is not UTF-8, and
    [String::from_utf8_lossy], which replaces it. *)

From Stdlib Require Import Strings.Byte.
From S2P Require Import Prelude Framing.

Definition text_bytes (s : string) : bytes := String.list_byte_of_string s.
Definition bytes_text (b : bytes) : string := String.string_of_list_byte b.

Lemma bytes_text_bytes s : bytes_text (text_bytes s) = s.
Proof. apply String.string_of_list_byte_of_string. Qed.

(** The continuation bytes a UTF-8 lead byte asks for, the range of the first given
    separately; [None] for a byte that starts no sequence. *)
Definition utf8_lead (n : N) : option (nat * (N * N)) :=
  if decide (n < 128)%N then Some (0%nat, (128, 191)%N)
  else if decide (194 <= n <= 223)%N then Some (1%nat, (128, 191)%N)
  else if decide (n = 224)%N then Some (2%nat, (160, 191)%N)
  else if decide (n = 237)%N then Some (2%nat, (128, 159)%N)
  else if decide (225 <= n <= 239)%N then Some (2%nat, (128, 191)%N)
  else if decide (n = 240)%N then Some (3%nat, (144, 191)%N)
  else if decide (241 <= n <= 243)%N then Some (3%nat, (128, 191)%N)
  else if decide (n = 244)%N then Some (3%nat, (128, 143)%N)
  else None.

(** Whether the bytes are UTF-8; the arguments are those of [utf8_lossy_go]. *)
Fixpoint utf8_valid_go (need : nat) (range : N * N) (b : bytes) : bool :=
  match b with
  | [] => bool_decide (need = 0)%nat
  | x :: rest =>
      match need with
      | O =>
          match utf8_lead (Byte.to_N x) with
          | Some (n, r) => utf8_valid_go n r rest
          | None => false
          end
      | S need' =>
          bool_decide (range.1 <= Byte.to_N x <= range.2)%N && utf8_valid_go need' (128, 191)%N rest
      end
  end.

Definition utf8_valid (b : bytes) : bool := utf8_valid_go 0 (128, 191)%N b.

(** [String::from_utf8]. *)
Definition from_utf8 (b : bytes) : option string := if utf8_valid b then Some (bytes_text b) else None.

Definition REPLACEMENT : bytes := [xef; xbf; xbd].

(** [String::from_utf8_lossy]: valid sequences stay, each maximal invalid part
    becomes one replacement character. [seen] holds the sequence being read, [need]
    how many continuation bytes it misses and [range] that of the next one. *)
Fixpoint utf8_lossy_go (seen : bytes) (need : nat) (range : N * N) (b : bytes) : bytes :=
  let start x rest :=
    match utf8_lead (Byte.to_N x) with
    | Some (O, _) => x :: utf8_lossy_go [] 0 (128, 191)%N rest
    | Some (n, r) => utf8_lossy_go [x] n r rest
    | None => REPLACEMENT ++ utf8_lossy_go [] 0 (128, 191)%N rest
    end in
  match b with
  | [] => if decide (need = 0)%nat then [] else REPLACEMENT
  | x :: rest =>
      match need with
      | O => start x rest
      | S need' =>
          if decide (range.1 <= Byte.to_N x <= range.2)%N then
            match need' with
            | O => (seen ++ [x]) ++ utf8_lossy_go [] 0 (128, 191)%N rest
            | _ => utf8_lossy_go (seen ++ [x]) need' (128, 191)%N rest
            end
          else REPLACEMENT ++ start x rest
      end
  end.

Definition from_utf8_lossy (b : bytes) : string := bytes_text (utf8_lossy_go [] 0 (128, 191)%N b).

Example utf8_lossy_example :
  utf8_lossy_go [] 0 (128, 191)%N [x61; xe2; x82; x62; xe2; x82; xac; xff] =
    [x61] ++ REPLACEMENT ++ [x62; xe2; x82; xac] ++ REPLACEMENT.
Proof. reflexivity. Qed.
