(* ===== verification/Json.v ===== *)
(** * JSON text

    What the program relies on of [serde_json]'s reader and writer, as a class: an
    object of strings, nested to any depth, reads back as it was written, and the
    two characters of the literal the servers write for an empty trailer read as
    the empty object; no value is written as the empty text. An instance shows the laws can hold. *)

From Stdlib Require Import Strings.Byte.
From stdpp Require Import countable.
From S2P Require Import Prelude Graph.

(** [Value::get] on an object; [None] on anything else. *)
Definition json_get (v : json) (key : string) : option json :=
  match v with
  | JObject l => found ← list_find (fun kv => kv.1 = key) l; Some found.2.2
  | _ => None
  end.

Fixpoint sorted_keys (ks : list string) : bool :=
  match ks with
  | k :: ((k' :: _) as ks') => String.ltb k k' && sorted_keys ks'
  | _ => true
  end.

(** Strings, and objects of them with the keys in a [serde_json::Map]'s order. *)
Fixpoint text_json (v : json) : bool :=
  match v with
  | JString _ => true
  | JObject l =>
      sorted_keys (fst <$> l) &&
      (fix go l := match l with [] => true | (_, v) :: l' => text_json v && go l' end) l
  | _ => false
  end.

Class JsonText := {
  json_to_string : json -> string;
  json_from_str : string -> string + json;
  json_roundtrip : forall v, text_json v = true -> json_from_str (json_to_string v) = inr v;
  json_empty_object : json_from_str "{}" = inr (JObject []);
  json_blank : exists e, json_from_str "" = inl e;
}.

(** ** An instance *)

Fixpoint json_to_tree (v : json) : gen_tree string :=
  match v with
  | JString s => GenLeaf s
  | JObject l =>
      GenNode 0 ((fix go l := match l with
                              | [] => []
                              | (k, v) :: l' => GenLeaf k :: json_to_tree v :: go l'
                              end) l)
  | _ => GenNode 1 []
  end.

Fixpoint json_of_tree (t : gen_tree string) : json :=
  match t with
  | GenLeaf s => JString s
  | GenNode _ ts =>
      JObject ((fix go ts := match ts with
                             | GenLeaf k :: v :: ts' => (k, json_of_tree v) :: go ts'
                             | _ => []
                             end) ts)
  end.

Fixpoint json_of_to_tree (v : json) : text_json v = true -> json_of_tree (json_to_tree v) = v.
Proof.
  destruct v as [| | | |s|l|l]; intros H; try done.
  cbn in H |- *. apply andb_prop in H as [_ H]. f_equal.
  induction l as [|[k v] l IH]; [done|]. cbn in H |- *. apply andb_prop in H as [Hv Hl].
  rewrite (IH Hl), (json_of_to_tree v Hv). done.
Qed.

Fixpoint pos_to_text (p : positive) : string :=
  match p with
  | xH => ""
  | xO p => String "0" (pos_to_text p)
  | xI p => String "1" (pos_to_text p)
  end.

Fixpoint pos_of_text (s : string) : positive :=
  match s with
  | "" => xH
  | String c s => if decide (c = "1"%char) then xI (pos_of_text s) else xO (pos_of_text s)
  end.

Lemma pos_of_to_text p : pos_of_text (pos_to_text p) = p.
Proof. induction p as [p IH|p IH|]; simpl; by rewrite ?IH. Qed.

Definition tree_json_from_str (s : string) : string + json :=
  match s with
  | String "{" "}" => inr (JObject [])
  | String "[" s => from_option (fun t => inr (json_of_tree t)) (inl "not a value") (decode (pos_of_text s))
  | _ => inl "not a value"
  end.

Definition tree_json : JsonText.
Proof.
  refine {|
    json_to_string v := String "[" (pos_to_text (encode (json_to_tree v)));
    json_from_str := tree_json_from_str;
  |}.
  - abstract (intros v Hv; simpl; rewrite pos_of_to_text, decode_encode; simpl; by rewrite json_of_to_tree).
  - abstract reflexivity.
  - abstract (by eexists).
Defined.
