(* ===== verification/RpcBridge.v ===== *)
(** * Dispatch of an RPC to a service

    [src/packages/tddy-rpc/src/message.rs] and [bridge.rs]: how a request reached the
    process, the service trait with its default methods, the multiplexer by service
    name and the bridge the transports call.

    A service is a record of operations over a world [W] of its own; a live stream is
    the list of items its receiver will yield. *)

From S2P Require Import Prelude RpcStatus Framing.

Inductive RequestTransport := InProcess | LiveKit | UnixSocket | Pipe | Http | Grpc | Direct.

#[global] Instance RequestTransport_eq_dec : EqDecision RequestTransport.
Proof. solve_decision. Defined.

Record RequestMetadata := mkMetadata {
  md_transport : RequestTransport;
  md_sender_identity : option string }.

Definition metadata_over (t : RequestTransport) : RequestMetadata := mkMetadata t None.

Definition with_sender_identity (m : RequestMetadata) (sender : option string) : RequestMetadata :=
  mkMetadata (md_transport m) sender.

Record RpcMessage := mkRpcMessage { msg_payload : bytes; msg_metadata : RequestMetadata }.

(** What a receiver yields: a payload or the status the stream ends with. *)
Notation item := (Status + bytes)%type.

Inductive RpcResult :=
| Unary (r : Status + bytes)
| ServerStream (r : Status + list item).

Inductive ResponseBody :=
| Complete (chunks : list bytes)
| Streaming (rx : list item).

Section bridge.
Context {W : Type}.

Record RpcService := mkService {
  svc_is_bidi_stream : string -> string -> bool;
  svc_handle_rpc : string -> string -> RpcMessage -> W -> RpcResult * W;
  svc_handle_rpc_stream : string -> string -> list RpcMessage -> W -> RpcResult * W;
  svc_start_bidi_stream : string -> string -> RequestMetadata -> list RpcMessage -> W -> (Status + ResponseBody) * W }.

(** The trait's default methods: what a service that only implements [handle_rpc] does. *)
Definition default_is_bidi_stream (service method : string) : bool := false.

Definition default_handle_rpc_stream (handle_rpc : string -> string -> RpcMessage -> W -> RpcResult * W)
    (service method : string) (messages : list RpcMessage) (w : W) : RpcResult * W :=
  match messages with
  | [m] => handle_rpc service method m w
  | _ => (Unary (inl (status_unimplemented "streaming not supported")), w)
  end.

Definition default_start_bidi_stream (service method : string) (metadata : RequestMetadata)
    (input : list RpcMessage) (w : W) : (Status + ResponseBody) * W :=
  (inl (status_unimplemented "bidi streaming not supported"), w).

Definition unary_service (handle_rpc : string -> string -> RpcMessage -> W -> RpcResult * W) : RpcService := {|
  svc_is_bidi_stream := default_is_bidi_stream;
  svc_handle_rpc := handle_rpc;
  svc_handle_rpc_stream := default_handle_rpc_stream handle_rpc;
  svc_start_bidi_stream := default_start_bidi_stream |}.

(** ** [MultiRpcService] *)

Record ServiceEntry := mkEntry { entry_name : string; entry_service : RpcService }.

Definition find_service (entries : list ServiceEntry) (service : string) : option RpcService :=
  found ← list_find (fun e => entry_name e = service) entries; Some (entry_service found.2).

Definition service_names (entries : list ServiceEntry) : list string := entry_name <$> entries.

Definition unknown_service (service : string) : Status :=
  status_not_found ("Unknown service: " +:+ service).

Definition multi_service (entries : list ServiceEntry) : RpcService := {|
  svc_is_bidi_stream service method :=
    from_option (fun s => svc_is_bidi_stream s service method) false (find_service entries service);
  svc_handle_rpc service method message w :=
    match find_service entries service with
    | Some s => svc_handle_rpc s service method message w
    | None => (Unary (inl (unknown_service service)), w)
    end;
  svc_handle_rpc_stream service method messages w :=
    match find_service entries service with
    | Some s => svc_handle_rpc_stream s service method messages w
    | None => (Unary (inl (unknown_service service)), w)
    end;
  svc_start_bidi_stream service method metadata input w :=
    match find_service entries service with
    | Some s => svc_start_bidi_stream s service method metadata input w
    | None => (inl (unknown_service service), w)
    end |}.

(** ** [RpcBridge::handle_messages] *)

Definition body_of_result (r : RpcResult) : Status + ResponseBody :=
  match r with
  | Unary (inr response_bytes) => inr (Complete [response_bytes])
  | Unary (inl status) => inl status
  | ServerStream (inr rx) => inr (Streaming rx)
  | ServerStream (inl status) => inl status
  end.

Definition handle_messages (svc : RpcService) (service method : string) (messages : list RpcMessage)
    (w : W) : (Status + ResponseBody) * W :=
  let '(result, w') :=
    match messages with
    | [m] => if svc_is_bidi_stream svc service method
             then svc_handle_rpc_stream svc service method messages w
             else svc_handle_rpc svc service method m w
    | _ => svc_handle_rpc_stream svc service method messages w
    end in
  (body_of_result result, w').

(** ** Properties *)

Lemma find_service_Some entries name s :
  find_service entries name = Some s -> exists e, e ∈ entries /\ entry_name e = name /\ entry_service e = s.
Proof.
  unfold find_service. destruct (list_find _ entries) as [[i e]|] eqn:Hf; simpl; [|done].
  intros [= <-]. apply list_find_Some in Hf as (Hi & He & _).
  exists e. eauto using list_elem_of_lookup_2.
Qed.

Lemma find_service_None entries name :
  find_service entries name = None <-> name ∉ service_names entries.
Proof.
  unfold find_service, service_names. destruct (list_find _ entries) as [[i e]|] eqn:Hf; simpl.
  - apply list_find_Some in Hf as (Hi & He & _). split; [done|]. intros Hn. destruct Hn.
    apply list_elem_of_fmap. exists e. eauto using list_elem_of_lookup_2.
  - apply list_find_None in Hf. split; [|done]. intros _ Hin.
    apply list_elem_of_fmap in Hin as (e & -> & He). rewrite Forall_forall in Hf. by destruct (Hf _ He).
Qed.

(** A body the bridge answers with is one chunk or a live stream. *)
Lemma handle_messages_body svc service method messages w chunks w' :
  handle_messages svc service method messages w = (inr (Complete chunks), w') -> exists c, chunks = [c].
Proof.
  unfold handle_messages. destruct (match messages with [] => _ | _ => _ end) as [[[|b]|[|rx]] w0];
    simpl; intros [= <- <-]; eauto.
Qed.

(** The bridge over a multiplexer is the bridge over the first service registered
    under the name; with none it answers [NOT_FOUND] and touches nothing. *)
Lemma handle_messages_multi entries service method messages w :
  handle_messages (multi_service entries) service method messages w =
    match find_service entries service with
    | Some s => handle_messages s service method messages w
    | None => (inl (unknown_service service), w)
    end.
Proof.
  unfold handle_messages. simpl. destruct (find_service entries service); simpl; [done|].
  by destruct messages as [|m [|m' ms]].
Qed.
End bridge.

Arguments RpcService : clear implicits.
Arguments ServiceEntry : clear implicits.
