(* ===== verification/Connect.v ===== *)
(** * The Connect protocol over HTTP

    The server, [src/packages/tddy-connectrpc/src/envelope.rs], [protocol.rs],
    [error.rs] and [router.rs], and its client,
    [tddy-session-tool-client/src/daemon_http_rpc.rs].

    The response body of a server stream is the list of envelopes the router writes;
    the client's relay reads them from chunks cut anywhere. [serde_json] is the class
    [JsonText]; the service behind the router is the record of operations of
    [RpcBridge]. *)

From Stdlib Require Import Strings.Byte Ascii.
From S2P Require Import Prelude Text Graph RpcStatus Framing Utf8 Json RpcBridge.

(** ** Envelopes (envelope.rs) *)

Definition MESSAGE : byte := x00.
Definition COMPRESSED : byte := x01.
Definition END_STREAM : byte := x02.

Definition ENVELOPE_HEADER_SIZE : nat := 5.

(** [envelope(flags, payload)]; the writers of envelope.rs are its instances. *)
Definition envelope (flags : byte) (payload : bytes) : bytes :=
  [flags] ++ to_be_bytes (N.of_nat (length payload)) ++ payload.

Definition wrap_envelope (payload : bytes) (compressed : bool) : bytes :=
  envelope (if compressed then COMPRESSED else MESSAGE) payload.

Definition wrap_end_stream (payload : bytes) : bytes := envelope END_STREAM payload.

(** The flags, the length, and the bytes after the header. *)
Definition parse_envelope_header (data : bytes) : option (byte * N * bytes) :=
  match data with
  | f :: a :: b :: c :: d :: rest => Some (f, from_be_bytes a b c d, rest)
  | _ => None
  end.

(** The server's loop over a whole body; one unit of fuel per envelope. *)
Fixpoint parse_frames_with (fuel : nat) (body : bytes) : string + list bytes :=
  match fuel, body with
  | _, [] => inr []
  | O, _ => inl "incomplete envelope header"
  | S fuel', _ =>
      match parse_envelope_header body with
      | None => inl "incomplete envelope header"
      | Some (flags, length_, rest) =>
          if decide (length rest < N.to_nat length_)%nat
          then inl "envelope payload extends past body"
          else
            let payload := take (N.to_nat length_) rest in
            if decide (flags = END_STREAM) then inr []
            else
              match parse_frames_with fuel' (drop (N.to_nat length_) rest) with
              | inl e => inl e
              | inr messages =>
                  inr (if decide (flags = MESSAGE \/ flags = COMPRESSED)
                       then payload :: messages else messages)
              end
      end
  end.

Definition parse_envelope_frames (body : bytes) : string + list bytes :=
  parse_frames_with (length body) body.

(** ** The client's reader *)

(** What [EnvelopeReader::next_frame] takes off its buffer. *)
Inductive Frame :=
| EMessage (payload : bytes)
| EEndOfStream (trailer : bytes)
| EBadFlags (flags : byte).

Definition frame_of_flags (flags : byte) (payload : bytes) : Frame :=
  if decide (flags = MESSAGE) then EMessage payload
  else if decide (flags = END_STREAM) then EEndOfStream payload
  else EBadFlags flags.

Definition envelope_next_frame (buffered : bytes) : option (Frame * bytes) :=
  match buffered with
  | f :: a :: b :: c :: d :: rest =>
      let length_ := N.to_nat (from_be_bytes a b c d) in
      if decide (length rest < length_)%nat then None
      else Some (frame_of_flags f (take length_ rest), drop length_ rest)
  | _ => None
  end.

Lemma envelope_next_frame_shrinks b f r :
  envelope_next_frame b = Some (f, r) -> (length r < length b)%nat.
Proof.
  destruct b as [|b0 [|b1 [|b2 [|b3 [|b4 rest]]]]]; simpl; try done.
  case_decide; [done|]. intros [= <- <-]. rewrite length_drop. lia.
Qed.

Lemma envelope_next_frame_app b f r c :
  envelope_next_frame b = Some (f, r) -> envelope_next_frame (b ++ c) = Some (f, r ++ c).
Proof.
  destruct b as [|b0 [|b1 [|b2 [|b3 [|b4 rest]]]]]; cbn [envelope_next_frame app]; try done.
  set (n := N.to_nat _). destruct (decide (length rest < n)%nat); [done|].
  rewrite (decide_False (P := (length (rest ++ c) < n)%nat)) by (rewrite length_app; lia).
  intros [= <- <-]. by rewrite take_app_le, drop_app_le by lia.
Qed.

#[global] Instance envelope_frames : FrameSource Frame := {|
  next_frame := envelope_next_frame;
  next_frame_shrinks := envelope_next_frame_shrinks;
  next_frame_app := envelope_next_frame_app;
|}.

(** The payload's length fits the 32-bit length field. *)
Definition payload_fits (payload : bytes) : Prop := (N.of_nat (length payload) <= u32_max)%N.

#[global] Instance payload_fits_dec payload : Decision (payload_fits payload).
Proof. unfold payload_fits. apply _. Defined.

(** What the header parser and the reader share of an envelope that was written. *)
Lemma parse_header_envelope flags payload c :
  payload_fits payload ->
  parse_envelope_header (envelope flags payload ++ c) = Some (flags, N.of_nat (length payload), payload ++ c).
Proof.
  unfold payload_fits, envelope, u32_max. intros Hfit.
  destruct (from_to_be (N.of_nat (length payload))) as (a & b & c' & d & -> & Hn).
  cbn [parse_envelope_header app]. by rewrite Hn, N.mod_small by lia.
Qed.

Lemma envelope_next_frame_header b :
  envelope_next_frame b =
    '(flags, n, rest) ← parse_envelope_header b;
    if decide (length rest < N.to_nat n)%nat then None
    else Some (frame_of_flags flags (take (N.to_nat n) rest), drop (N.to_nat n) rest).
Proof. by destruct b as [|b0 [|b1 [|b2 [|b3 [|b4 rest]]]]]. Qed.

Lemma envelope_next_frame_encoded flags payload c :
  payload_fits payload ->
  envelope_next_frame (envelope flags payload ++ c) = Some (frame_of_flags flags payload, c).
Proof.
  intros Hfit. rewrite envelope_next_frame_header, parse_header_envelope by done. simpl.
  rewrite Nat2N.id, decide_False by (rewrite length_app; lia).
  by rewrite take_app_length, drop_app_length.
Qed.

Lemma parse_frames_enough fuel body :
  (length body <= fuel)%nat -> parse_frames_with fuel body = parse_envelope_frames body.
Proof.
  unfold parse_envelope_frames. assert (forall n m b, (length b <= n)%nat -> (length b <= m)%nat ->
    parse_frames_with n b = parse_frames_with m b) as Hgen; [|intros; by apply Hgen].
  induction n as [|n IH]; intros m b Hn Hm.
  { destruct b; [by destruct m|simpl in Hn; lia]. }
  destruct b as [|x b]; [by destruct m|]. destruct m as [|m]; [simpl in Hm; lia|].
  cbn [parse_frames_with]. destruct (parse_envelope_header (x :: b)) as [[[f l] rest]|] eqn:Hh; [|done].
  destruct b as [|b1 [|b2 [|b3 [|b4 b]]]]; simplify_eq/=.
  case_decide; [done|]. case_decide; [done|].
  by rewrite (IH m) by (rewrite length_drop; lia).
Qed.

(** The server reads an envelope it is sent, whatever follows. *)
Lemma parse_envelope_frames_cons flags payload rest :
  payload_fits payload ->
  parse_envelope_frames (envelope flags payload ++ rest) =
    if decide (flags = END_STREAM) then inr []
    else match parse_envelope_frames rest with
         | inl e => inl e
         | inr messages => inr (if decide (flags = MESSAGE \/ flags = COMPRESSED)
                                then payload :: messages else messages)
         end.
Proof.
  intros Hfit. unfold parse_envelope_frames at 1.
  pose proof (parse_header_envelope flags payload rest Hfit) as Hh.
  destruct (envelope flags payload ++ rest) as [|x b] eqn:Hb; [done|].
  cbn [parse_frames_with length]. rewrite Hh, Nat2N.id.
  rewrite decide_False by (rewrite length_app; lia). case_decide; [done|].
  rewrite take_app_length, drop_app_length, parse_frames_enough; [done|].
  apply (f_equal length) in Hb. unfold envelope in Hb. rewrite !length_app in Hb. simpl in Hb. lia.
Qed.

(** ** Content types and versions (protocol.rs) *)

Definition CONNECT_PROTOCOL_VERSION : string := "1".
Definition CONTENT_TYPE_PROTO : string := "application/proto".
Definition CONTENT_TYPE_CONNECT_PROTO : string := "application/connect+proto".
Definition CONTENT_TYPE_CONNECT_JSON : string := "application/connect+json".

Inductive RequestProtocol :=
| ConnectUnaryProto | ConnectUnaryJson | ConnectStreamProto | ConnectStreamJson | UnknownProtocol.

#[global] Instance RequestProtocol_eq_dec : EqDecision RequestProtocol.
Proof. solve_decision. Defined.

Definition from_content_type (content_type : string) : RequestProtocol :=
  let ct := trim (default "" (head (split_on ";" content_type))) in
  if starts_with "application/connect+proto" ct then ConnectStreamProto
  else if starts_with "application/connect+json" ct then ConnectStreamJson
  else if starts_with "application/proto" ct then ConnectUnaryProto
  else if starts_with "application/json" ct then ConnectUnaryJson
  else UnknownProtocol.

Definition is_proto (p : RequestProtocol) : bool :=
  match p with ConnectUnaryProto | ConnectStreamProto => true | _ => false end.

Definition is_streaming (p : RequestProtocol) : bool :=
  match p with ConnectStreamProto | ConnectStreamJson => true | _ => false end.

Definition response_content_type (p : RequestProtocol) : string :=
  match p with
  | ConnectUnaryProto | ConnectStreamProto => CONTENT_TYPE_PROTO
  | ConnectUnaryJson | ConnectStreamJson => "application/json"
  | UnknownProtocol => "application/json"
  end.

Definition streaming_response_content_type (p : RequestProtocol) : string :=
  if is_proto p then CONTENT_TYPE_CONNECT_PROTO else CONTENT_TYPE_CONNECT_JSON.

(** The version header as text, [None] when there is none (or it is not text). *)
Definition validate_protocol_version (version : option string) : option string :=
  match version with
  | Some v => if decide (v = CONNECT_PROTOCOL_VERSION) then None
              else Some ("connect-protocol-version must be " +:+ String "034" (String "1" (String "034" "")))
  | None => None
  end.

(** ** The server (router.rs, error.rs) *)

(** A request as the handler reads it: the two headers as text and the body,
    [None] when it cannot be read. *)
Record HttpRequest := mkHttpRequest {
  rq_version : option string; rq_content_type : option string; rq_body : option bytes }.

(** A response: status, content type and the body as the chunks it is written in. *)
Record HttpResponse := mkHttpResponse {
  rs_status : N; rs_content_type : string; rs_body : list bytes }.

Definition over_http : RequestMetadata := metadata_over Http.

Section connect.
Context `{!JsonText} {W : Type}.
Context (http_reason : N -> string).

(** [ErrorResponseBody] as JSON: an empty message and the empty details are skipped. *)
Definition status_to_error_body (status : Status) : json :=
  JObject (("code", JString (code_to_connect_str (st_code status))) ::
    (if decide (st_message status = "") then [] else [("message", JString (st_message status))])).

Definition error_response (status : Status) : HttpResponse :=
  mkHttpResponse (code_to_http_status (st_code status)) "application/json"
    [text_bytes (json_to_string (status_to_error_body status))].

(** The trailer of a stream that ends in [status]. *)
Definition error_trailer (status : Status) : bytes :=
  text_bytes (json_to_string (JObject [("error",
    JObject [("code", JString (code_to_connect_str (st_code status)));
             ("message", JString (st_message status))])])).

(** The task that writes a live stream: an envelope per item, up to the first error. *)
Fixpoint stream_envelopes (rx : list item) : list bytes :=
  match rx with
  | [] => [wrap_end_stream (text_bytes "{}")]
  | inr payload :: rx' => wrap_envelope payload false :: stream_envelopes rx'
  | inl status :: _ => [wrap_end_stream (error_trailer status)]
  end.

Definition request_messages (protocol : RequestProtocol) (body : bytes) : Status + list RpcMessage :=
  if is_streaming protocol then
    match parse_envelope_frames body with
    | inr [] => inl (status_invalid_argument "streaming request has no messages")
    | inr frames => inr ((fun payload => mkRpcMessage payload over_http) <$> frames)
    | inl e => inl (status_invalid_argument ("invalid envelope framing: " +:+ e))
    end
  else inr [mkRpcMessage body over_http].

Definition response_of_body (protocol : RequestProtocol) (body : ResponseBody) : HttpResponse :=
  match body with
  | Complete [chunk] =>
      if is_streaming protocol
      then mkHttpResponse 200 (streaming_response_content_type protocol)
             [wrap_envelope chunk false ++ wrap_end_stream (text_bytes "{}")]
      else mkHttpResponse 200 (response_content_type protocol) [chunk]
  | Complete _ => error_response (status_internal "unexpected response chunks")
  | Streaming rx => mkHttpResponse 200 (streaming_response_content_type protocol) (stream_envelopes rx)
  end.

Definition handle_rpc (svc : RpcService W) (service method : string) (request : HttpRequest) (w : W)
    : HttpResponse * W :=
  match validate_protocol_version (rq_version request) with
  | Some msg => (error_response (status_invalid_argument msg), w)
  | None =>
      let protocol := from_content_type (default "" (rq_content_type request)) in
      if decide (protocol = UnknownProtocol)
      then (error_response (status_invalid_argument "unsupported content-type"), w)
      else
        match rq_body request with
        | None => (error_response (status_invalid_argument "failed to read request body"), w)
        | Some body =>
            match request_messages protocol body with
            | inl status => (error_response status, w)
            | inr messages =>
                match handle_messages svc service method messages w with
                | (inr rb, w') => (response_of_body protocol rb, w')
                | (inl status, w') => (error_response status, w')
                end
            end
        end
  end.

(** ** The client (daemon_http_rpc.rs) *)

(** What a sent request meets: no answer, or a status and a body that arrives in
    chunks and then ends, or fails. *)
Record HttpExchange := mkExchange {
  ex_status : N; ex_chunks : list bytes; ex_failure : option string }.

Definition transport_error (error : string) : Status :=
  status_unavailable ("the daemon's HTTP endpoint did not answer: " +:+ error).

Definition status_from_error_object (error : json) : Status :=
  mk_rpc_status
    (from_option connect_code CodeUnknown (json_get error "code" ≫= as_string))
    (default "" (json_get error "message" ≫= as_string)).

Definition trailer_error (trailer : bytes) : option Status :=
  match trailer with
  | [] => None
  | _ =>
      match json_from_str (bytes_text trailer) with
      | inl error => Some (status_internal ("the daemon's end-of-stream envelope is not JSON: " +:+ error))
      | inr value => status_from_error_object <$> json_get value "error"
      end
  end.

Definition error_from_body (http_status : N) (body : bytes) : Status :=
  let unknown := mk_rpc_status CodeUnknown
    ("the daemon answered HTTP " +:+ http_reason http_status +:+ ": " +:+ trim (from_utf8_lossy body)) in
  match json_from_str (bytes_text body) with
  | inr value => if json_get value "code" then status_from_error_object value else unknown
  | inl _ => unknown
  end.

Definition is_success (http_status : N) : bool := bool_decide (200 <= http_status < 300)%N.

(** The whole body, or why it could not be read. *)
Definition response_bytes (ex : HttpExchange) : Status + bytes :=
  match ex_failure ex with
  | Some error => inl (transport_error error)
  | None => inr (concat (ex_chunks ex))
  end.

Definition unary_request (request_bytes : bytes) : HttpRequest :=
  mkHttpRequest (Some CONNECT_PROTOCOL_VERSION) (Some CONTENT_TYPE_PROTO) (Some request_bytes).

Definition stream_request (request_bytes : bytes) : HttpRequest :=
  mkHttpRequest (Some CONNECT_PROTOCOL_VERSION) (Some CONTENT_TYPE_CONNECT_PROTO)
    (Some (envelope MESSAGE request_bytes)).

Definition call_unary (sent : string + HttpExchange) : Status + bytes :=
  match sent with
  | inl error => inl (transport_error error)
  | inr ex =>
      match response_bytes ex with
      | inl status => inl status
      | inr body => if is_success (ex_status ex) then inr body
                    else inl (error_from_body (ex_status ex) body)
      end
  end.

Definition hex_digit (n : N) : ascii := ascii_of_N (if decide (n < 10)%N then 48 + n else 87 + n).

Definition bad_flags_status (flags : byte) : Status :=
  let n := Byte.to_N flags in
  status_internal ("the daemon sent an envelope with flags 0x" +:+
    String (hex_digit (n / 16)) (String (hex_digit (n mod 16)) "") +:+ ", which this client does not read").

(** The inner loop of [relay_envelopes] over the frames of one chunk: what is sent,
    and whether the relay returned. *)
Fixpoint relay_frames (frames : list Frame) : list item * bool :=
  match frames with
  | [] => ([], false)
  | EMessage payload :: frames' => let '(sent, done) := relay_frames frames' in (inr payload :: sent, done)
  | EEndOfStream trailer :: _ => (from_option (fun status => [inl status]) [] (trailer_error trailer), true)
  | EBadFlags flags :: _ => ([inl (bad_flags_status flags)], true)
  end.

(** [relay_envelopes]: what a receiver that keeps reading is sent. *)
Fixpoint relay_envelopes (buffered : bytes) (chunks : list bytes) (failure : option string) : list item :=
  match chunks with
  | [] =>
      [inl match failure with
           | Some error => transport_error error
           | None => status_unavailable "the daemon closed the stream before its end-of-stream envelope"
           end]
  | chunk :: chunks' =>
      let '(frames, buffered') := drain (buffered ++ chunk) in
      let '(sent, done) := relay_frames frames in
      sent ++ (if done : bool then [] else relay_envelopes buffered' chunks' failure)
  end.

Definition call_server_stream (sent : string + HttpExchange) : Status + list item :=
  match sent with
  | inl error => inl (transport_error error)
  | inr ex =>
      if is_success (ex_status ex) then inr (relay_envelopes [] (ex_chunks ex) (ex_failure ex))
      else
        match response_bytes ex with
        | inl status => inl status
        | inr body => inl (error_from_body (ex_status ex) body)
        end
  end.

(** ** Properties *)

(** What a stream that stops without an end-of-stream envelope ends with. *)
Definition cut_status (failure : option string) : Status :=
  match failure with
  | Some error => transport_error error
  | None => status_unavailable "the daemon closed the stream before its end-of-stream envelope"
  end.

Lemma relay_frames_app fs fs' :
  relay_frames (fs ++ fs') =
    let '(sent, done) := relay_frames fs in
    if done : bool then (sent, true)
    else let '(sent', done') := relay_frames fs' in (sent ++ sent', done').
Proof.
  induction fs as [|[p|t|f] fs IH]; simpl; [by destruct (relay_frames fs')| |done|done].
  rewrite IH. destruct (relay_frames fs) as [s []]; [done|]. by destruct (relay_frames fs').
Qed.

(** How the body is cut into chunks does not matter to the relay. *)
Lemma relay_envelopes_whole buffered chunks failure :
  drain buffered = ([] : list Frame, buffered) ->
  relay_envelopes buffered chunks failure =
    let '(sent, done) := relay_frames (drain (buffered ++ concat chunks)).1 in
    sent ++ (if done : bool then [] else [inl (cut_status failure)]).
Proof.
  revert buffered. induction chunks as [|c chunks IH]; intros b Hb.
  - cbn [relay_envelopes concat]. rewrite app_nil_r, Hb. by destruct failure.
  - cbn [relay_envelopes concat]. rewrite app_assoc, (drain_app (b ++ c)).
    pose proof (drain_rest (F := Frame) (b ++ c)) as Hr.
    destruct (drain (b ++ c)) as [fs r]. cbn [snd] in Hr.
    rewrite IH by (by rewrite drain_unfold, Hr).
    destruct (drain (r ++ concat chunks)) as [fs' r']. cbn [fst]. rewrite relay_frames_app.
    destruct (relay_frames fs) as [s []]; [done|]. destruct (relay_frames fs') as [s' d'].
    by rewrite app_assoc.
Qed.

(** The envelopes of a stream, as flags and payload. *)
Fixpoint stream_parts (rx : list item) : list (byte * bytes) :=
  match rx with
  | [] => [(END_STREAM, text_bytes "{}")]
  | inr payload :: rx' => (MESSAGE, payload) :: stream_parts rx'
  | inl status :: _ => [(END_STREAM, error_trailer status)]
  end.

Lemma stream_envelopes_parts rx :
  stream_envelopes rx = (fun p => envelope p.1 p.2) <$> stream_parts rx.
Proof. induction rx as [|[st|p] rx IH]; simpl; [done..|]. by rewrite IH. Qed.

(** Every payload and every error trailer of the stream fits an envelope. *)
Definition item_fits (i : item) : Prop :=
  match i with inr payload => payload_fits payload | inl status => payload_fits (error_trailer status) end.

(** The items a client is owed: those up to the first error, that error with the
    code its wire name stands for. *)
Definition seen_status (status : Status) : Status :=
  mk_rpc_status (if decide (st_code status = CodeOk) then CodeUnknown else st_code status) (st_message status).

Fixpoint delivered (rx : list item) : list item :=
  match rx with
  | [] => []
  | inr payload :: rx' => inr payload :: delivered rx'
  | inl status :: _ => [inl (seen_status status)]
  end.

Lemma trailer_error_clean : trailer_error (text_bytes "{}") = None.
Proof. unfold trailer_error. simpl. by rewrite json_empty_object. Qed.

Lemma json_get_head k v l : json_get (JObject ((k, v) :: l)) k = Some v.
Proof. unfold json_get. simpl. by rewrite decide_True. Qed.

Lemma trailer_error_status status : trailer_error (error_trailer status) = Some (seen_status status).
Proof.
  unfold trailer_error, error_trailer. set (v := JObject _).
  assert (json_from_str (json_to_string v) = inr v) as Hrt by by apply json_roundtrip.
  destruct (text_bytes (json_to_string v)) as [|x l] eqn:Hb.
  - apply (f_equal bytes_text) in Hb. rewrite bytes_text_bytes in Hb. change (bytes_text []) with "" in Hb.
    destruct json_blank as [e He]. by rewrite Hb, He in Hrt.
  - rewrite <- Hb, bytes_text_bytes, Hrt. unfold v. rewrite json_get_head. simpl. f_equal.
    unfold status_from_error_object, seen_status. rewrite json_get_head. simpl.
    by rewrite connect_code_roundtrip.
Qed.

Lemma stream_parts_fit rx f p :
  Forall item_fits rx -> (f, p) ∈ stream_parts rx -> payload_fits p.
Proof.
  intros Hfit Hin. induction Hfit as [|[st|q] rx Hq _ IH]; simpl in Hin.
  - apply list_elem_of_singleton in Hin as [= -> ->]. by_decide.
  - by apply list_elem_of_singleton in Hin as [= -> ->].
  - by apply elem_of_cons in Hin as [[= -> ->]|Hin]; [|apply IH].
Qed.

Lemma drain_stream rx :
  Forall item_fits rx ->
  drain (concat (stream_envelopes rx)) = ((fun p => frame_of_flags p.1 p.2) <$> stream_parts rx, []).
Proof.
  intros Hfit. rewrite stream_envelopes_parts. apply drain_encoded; [|done].
  intros [f p] c Hin. apply envelope_next_frame_encoded. by eapply stream_parts_fit.
Qed.

Lemma relay_stream rx :
  relay_frames ((fun p => frame_of_flags p.1 p.2) <$> stream_parts rx) = (delivered rx, true).
Proof.
  assert (forall t, relay_frames [frame_of_flags END_STREAM t] =
    (from_option (fun status => [inl status]) [] (trailer_error t), true)) as Hend by done.
  induction rx as [|[st|p] rx IH]; cbn [stream_parts delivered]; rewrite fmap_cons.
  - etrans; [apply Hend|]. cbn [snd]. by rewrite trailer_error_clean.
  - etrans; [apply Hend|]. cbn [snd]. by rewrite trailer_error_status.
  - change (relay_frames _) with (let '(sent, done) :=
      relay_frames ((fun p => frame_of_flags p.1 p.2) <$> stream_parts rx) in (inr p :: sent : list item, done)).
    by rewrite IH.
Qed.

(** What the relay makes of the bytes of a stream, however they were cut. *)
Lemma relay_delivers rx chunks failure :
  Forall item_fits rx -> concat chunks = concat (stream_envelopes rx) ->
  relay_envelopes [] chunks failure = delivered rx.
Proof.
  intros Hfit Hc. rewrite relay_envelopes_whole by done. simpl. rewrite Hc, drain_stream by done.
  simpl. rewrite relay_stream. apply app_nil_r.
Qed.

Lemma error_from_body_status status http_status :
  error_from_body http_status (text_bytes (json_to_string (status_to_error_body status))) = seen_status status.
Proof.
  unfold error_from_body. rewrite bytes_text_bytes, json_roundtrip.
  2: { simpl. by destruct (decide (st_message status = "")). }
  unfold status_to_error_body. rewrite json_get_head.
  unfold status_from_error_object, seen_status. rewrite json_get_head. simpl.
  rewrite connect_code_roundtrip. f_equal. by destruct (decide (st_message status = "")) as [->|].
Qed.

Lemma error_response_fails status :
  st_code status <> CodeOk -> is_success (rs_status (error_response status)) = false.
Proof.
  intros Hc. apply bool_decide_eq_false. pose proof (error_is_not_http_success _ Hc). simpl. lia.
Qed.
(** The transport delivers the response, cut anywhere. *)
Definition carries (resp : HttpResponse) (ex : HttpExchange) : Prop :=
  ex_status ex = rs_status resp /\ concat (ex_chunks ex) = concat (rs_body resp) /\ ex_failure ex = None.

(** The payloads of an answer fit their envelopes; an error is not [OK]. *)
Definition answer_fits (result : Status + ResponseBody) : Prop :=
  match result with
  | inl status => st_code status <> CodeOk
  | inr (Complete chunks) => Forall payload_fits chunks
  | inr (Streaming rx) => Forall item_fits rx
  end.

Lemma stream_request_handled svc service method req w :
  payload_fits req ->
  handle_rpc svc service method (stream_request req) w =
    match handle_messages svc service method [mkRpcMessage req over_http] w with
    | (inr rb, w') => (response_of_body ConnectStreamProto rb, w')
    | (inl status, w') => (error_response status, w')
    end.
Proof.
  intros Hfit. unfold handle_rpc, stream_request. cbn [rq_version rq_content_type rq_body default].
  replace (validate_protocol_version (Some CONNECT_PROTOCOL_VERSION)) with (None : option string) by done.
  replace (from_content_type _) with ConnectStreamProto by (vm_compute; reflexivity).
  rewrite decide_False by done. unfold request_messages. cbn [is_streaming].
  rewrite <- (app_nil_r (envelope MESSAGE req)), parse_envelope_frames_cons by done.
  by rewrite decide_False by done.
Qed.

Lemma unary_request_handled svc service method req w :
  handle_rpc svc service method (unary_request req) w =
    match handle_messages svc service method [mkRpcMessage req over_http] w with
    | (inr rb, w') => (response_of_body ConnectUnaryProto rb, w')
    | (inl status, w') => (error_response status, w')
    end.
Proof. done. Qed.

Lemma call_fails status ex :
  st_code status <> CodeOk -> carries (error_response status) ex ->
  call_server_stream (inr ex) = inl (seen_status status) /\ call_unary (inr ex) = inl (seen_status status).
Proof.
  intros Hok (Hst & Hc & Hf). unfold call_server_stream, call_unary, response_bytes.
  rewrite Hst, error_response_fails, Hf, Hc by done. cbn [rs_body error_response concat].
  by rewrite app_nil_r, error_from_body_status.
Qed.

Lemma seen_status_id status : st_code status <> CodeOk -> seen_status status = status.
Proof. destruct status. unfold seen_status. simpl. intros. by rewrite decide_False. Qed.

(** What a server-streaming client is owed of the bridge's answer. *)
Definition stream_answer (result : Status + ResponseBody) : Status + list item :=
  match result with
  | inl status => inl status
  | inr (Complete [chunk]) => inr [inr chunk]
  | inr (Complete _) => inl (status_internal "unexpected response chunks")
  | inr (Streaming rx) => inr (delivered rx)
  end.

(** C13.  Server streams end to end: whatever the service answers, however the
    transport cuts the body, the client's receiver yields exactly the service's items
    up to its first error, that error with its code and message, and a failed call
    returns the service's own status. *)
Theorem connect_stream_end_to_end svc service method req w ex :
  payload_fits req ->
  answer_fits (handle_messages svc service method [mkRpcMessage req over_http] w).1 ->
  carries (handle_rpc svc service method (stream_request req) w).1 ex ->
  call_server_stream (inr ex) =
    stream_answer (handle_messages svc service method [mkRpcMessage req over_http] w).1 /\
  (handle_rpc svc service method (stream_request req) w).2 =
    (handle_messages svc service method [mkRpcMessage req over_http] w).2.
Proof.
  intros Hreq. rewrite stream_request_handled by done.
  destruct (handle_messages _ _ _ _ w) as [[status|[chunks|rx]] w'] eqn:Hm; cbn [fst snd answer_fits].
  - intros Hok Hex. split; [|done]. by rewrite (proj1 (call_fails _ _ Hok Hex)), seen_status_id.
  - destruct (handle_messages_body _ _ _ _ _ _ _ Hm) as [chunk ->].
    intros Hfit (Hst & Hc & Hf). split; [|done]. unfold call_server_stream. rewrite Hst. simpl.
    f_equal. apply (relay_delivers [inr chunk]).
    + apply Forall_cons_1 in Hfit as [Hp _]. constructor; [exact Hp|constructor].
    + rewrite Hc. simpl. by rewrite !app_nil_r.
  - intros Hfit (Hst & Hc & Hf). split; [|done]. unfold call_server_stream. rewrite Hst. simpl.
    f_equal. by apply relay_delivers.
Qed.

(** What a unary client makes of the bridge's answer. *)
Definition unary_answer (result : Status + ResponseBody) : Status + bytes :=
  match result with
  | inl status =>
      if decide (st_code status = CodeOk)
      then inr (text_bytes (json_to_string (status_to_error_body status)))
      else inl status
  | inr (Complete [chunk]) => inr chunk
  | inr (Complete _) => inl (status_internal "unexpected response chunks")
  | inr (Streaming rx) => inr (concat (stream_envelopes rx))
  end.

(** Unary calls end to end: the client gets the service's bytes unchanged, or
    the service's own status. (A status whose code is [OK] travels as an HTTP success,
    so its JSON is taken for the reply; the body of a live stream is taken raw.) *)
Theorem connect_unary_end_to_end svc service method req w ex :
  carries (handle_rpc svc service method (unary_request req) w).1 ex ->
  call_unary (inr ex) = unary_answer (handle_messages svc service method [mkRpcMessage req over_http] w).1 /\
  (handle_rpc svc service method (unary_request req) w).2 =
    (handle_messages svc service method [mkRpcMessage req over_http] w).2.
Proof.
  rewrite unary_request_handled.
  destruct (handle_messages _ _ _ _ w) as [[status|[chunks|rx]] w'] eqn:Hm; cbn [fst snd unary_answer].
  - intros Hex. split; [|done]. case_decide as Hok.
    + destruct Hex as (Hst & Hc & Hf). unfold call_unary, response_bytes.
      rewrite Hf, Hst, Hc. simpl. rewrite Hok. simpl. by rewrite app_nil_r.
    + by rewrite (proj2 (call_fails _ _ Hok Hex)), seen_status_id.
  - destruct (handle_messages_body _ _ _ _ _ _ _ Hm) as [chunk ->].
    intros (Hst & Hc & Hf). unfold call_unary, response_bytes. rewrite Hf, Hst, Hc. simpl.
    by rewrite app_nil_r.
  - intros (Hst & Hc & Hf). unfold call_unary, response_bytes. by rewrite Hf, Hst, Hc.
Qed.

(** The messages of a stream before its end. *)
Fixpoint stream_messages (rx : list item) : list bytes :=
  match rx with
  | inr payload :: rx' => payload :: stream_messages rx'
  | _ => []
  end.

Lemma relay_frames_cut rx k :
  (k < length (stream_parts rx))%nat ->
  relay_frames ((fun p => frame_of_flags p.1 p.2) <$> take k (stream_parts rx)) =
    (inr <$> take k (stream_messages rx), false).
Proof.
  revert k. induction rx as [|[st|p] rx IH]; intros [|k]; simpl; intros Hk; try done; try lia.
  by rewrite IH by lia.
Qed.

(** A stream that is cut short never looks finished: the receiver yields the
    messages that arrived whole, in order, and then an error. *)
Theorem cut_stream_is_an_error rx chunks lost failure :
  Forall item_fits rx ->
  concat (stream_envelopes rx) = concat chunks ++ lost -> lost <> [] ->
  exists k, relay_envelopes [] chunks failure =
    (inr <$> take k (stream_messages rx)) ++ [inl (cut_status failure)].
Proof.
  intros Hfit Hc Hlost. rewrite stream_envelopes_parts in Hc.
  destruct (drain_cut (fun p => envelope p.1 p.2) (fun p => frame_of_flags p.1 p.2) (stream_parts rx)
    (concat chunks) lost) as (k & Hk & Hd); [|done..|].
  { intros [f p] c Hin. apply envelope_next_frame_encoded. by eapply stream_parts_fit. }
  exists k. rewrite relay_envelopes_whole by done. simpl. by rewrite Hd, relay_frames_cut.
Qed.
End connect.

(** ** Witnesses *)

(** A service that answers every call with two items and then an error. *)
Definition two_then_error : RpcService nat :=
  unary_service (fun _ _ m w =>
    (ServerStream (inr [inr (msg_payload m); inr [x62]; inl (status_not_found "gone"); inr [x63]]), S w)).

Definition echo_service : RpcService nat :=
  unary_service (fun _ _ m w => (Unary (inr (msg_payload m)), S w)).

(** One byte per chunk. *)
Definition byte_by_byte (resp : HttpResponse) : HttpExchange :=
  mkExchange (rs_status resp) ((fun b => [b]) <$> concat (rs_body resp)) None.

Lemma concat_singletons (l : bytes) : concat ((fun b => [b]) <$> l) = l.
Proof. induction l as [|b l IH]; [done|]. rewrite fmap_cons. simpl. by rewrite IH. Qed.

Lemma byte_by_byte_carries resp : carries resp (byte_by_byte resp).
Proof. repeat split. apply concat_singletons. Qed.

Lemma connect_stream_end_to_end_witness :
  let resp := (@handle_rpc tree_json nat two_then_error "s" "m" (stream_request [x61]) 0%nat).1 in
  @call_server_stream tree_json (fun _ => "") (inr (byte_by_byte resp)) =
    inr [inr [x61]; inr [x62]; inl (status_not_found "gone")].
Proof.
  refine (proj1 (@connect_stream_end_to_end tree_json nat (fun _ => "") two_then_error "s" "m" [x61] 0%nat
    _ _ _ (byte_by_byte_carries _))); [by_decide|].
  repeat (constructor; try by_decide).
Defined.

Lemma connect_unary_end_to_end_witness :
  let resp := (@handle_rpc tree_json nat echo_service "s" "m" (unary_request [x61]) 0%nat).1 in
  @call_unary tree_json (fun _ => "") (inr (byte_by_byte resp)) = inr [x61].
Proof.
  exact (proj1 (@connect_unary_end_to_end tree_json nat (fun _ => "") echo_service "s" "m" [x61] 0%nat
    _ (byte_by_byte_carries _))).
Defined.

Lemma cut_stream_is_an_error_witness :
  exists k, @relay_envelopes tree_json [] [[x00; x00; x00; x00; x01; x61; x02]] None =
    (inr <$> take k [[x61]]) ++ [inl (cut_status None)].
Proof.
  apply (@cut_stream_is_an_error tree_json [inr [x61]] [[x00; x00; x00; x00; x01; x61; x02]]
    [x00; x00; x00; x02; x7b; x7d] None); [repeat constructor; by_decide|reflexivity|done].
Defined.
