(* ===== verification/RpcClient.v ===== *)
(** * Correlation of RPC calls and responses

    [src/packages/tddy-rpc/src/envelope.rs] (the wire records of [proto/rpc_envelope.proto], the
    origin a response carries) and [client_engine.rs].

    A call's receiver is the handle [Pending] keeps the sender of; an engine step
    returns the items it sends, each with its handle. A channel never refuses: what a
    receiver that keeps reading gets is what is sent to its handle. Maps that the wire
    records carry and nothing of the engines reads ([metadata], [trailers], the error's
    [details]) are left out; they are always written empty. *)

From Stdlib Require Import Strings.Byte.
From S2P Require Import Prelude RpcStatus Framing RpcBridge.

(** ** Wire records *)

Record CallMetadata := mkCall { cm_service : string; cm_method : string }.

#[global] Instance CallMetadata_eq_dec : EqDecision CallMetadata.
Proof. solve_decision. Defined.

Record RpcRequest := mkRpcRequest {
  rq_id : Z; rq_message : bytes; rq_call : option CallMetadata; rq_end_of_stream : bool;
  rq_abort : bool; rq_sender_identity : option string; rq_client_epoch : N }.

Record RpcError := mkRpcError { err_code : string; err_message : string }.

Record RpcResponse := mkRpcResponse {
  rs_id : Z; rs_message : bytes; rs_end_of_stream : bool; rs_error : option RpcError;
  rs_client_epoch : N; rs_call : option CallMetadata }.

Record CallOrigin := mkOrigin {
  or_request_id : Z; or_client_epoch : N; or_call : option CallMetadata }.

Definition origin_of (request : RpcRequest) : CallOrigin :=
  mkOrigin (rq_id request) (rq_client_epoch request) (rq_call request).

Definition error_of_status (status : Status) : RpcError :=
  mkRpcError (Code_as_str (st_code status)) (st_message status).

Definition response_from_result (origin : CallOrigin) (result : item) : RpcResponse :=
  match result with
  | inr b => mkRpcResponse (or_request_id origin) b true None (or_client_epoch origin) (or_call origin)
  | inl status => mkRpcResponse (or_request_id origin) [] true (Some (error_of_status status))
                    (or_client_epoch origin) (or_call origin)
  end.

(** ** The client engine *)

Record Pending := mkPending { p_call : CallMetadata; p_sender : nat }.

Record ClientEngine := mkClient {
  ce_local_identity : string; ce_client_epoch : N;
  ce_pending_unary : gmap Z Pending; ce_pending_streams : gmap Z Pending }.

(** What a process shares: the request counter, and the channels it has made. *)
Record RpcProcess := mkProcess { next_request_id : Z; channels : nat }.

(** [AtomicI32::fetch_add] wraps around. *)
Definition wrap_i32 (z : Z) : Z := ((z + 2147483648) mod 4294967296 - 2147483648)%Z.

Definition next_id (p : RpcProcess) : Z * RpcProcess :=
  (next_request_id p, mkProcess (wrap_i32 (next_request_id p + 1)) (channels p)).

Definition new_channel (p : RpcProcess) : nat * RpcProcess :=
  (channels p, mkProcess (next_request_id p) (S (channels p))).

(** [mint_client_epoch] on the hash the process drew: never zero. *)
Definition mint_client_epoch (hash : N) : N :=
  let epoch := (N.shiftr hash 32 mod 4294967296)%N in if decide (epoch = 0)%N then 1%N else epoch.

Definition with_client_epoch (local_identity : string) (epoch : N) : ClientEngine :=
  mkClient local_identity epoch ∅ ∅.

Definition new_client (local_identity : string) (hash : N) : ClientEngine :=
  with_client_epoch local_identity (mint_client_epoch hash).

Definition register_unary (e : ClientEngine) (service method : string) (p : RpcProcess)
    : Z * nat * ClientEngine * RpcProcess :=
  let '(id, p1) := next_id p in
  let '(tx, p2) := new_channel p1 in
  (id, tx, mkClient (ce_local_identity e) (ce_client_epoch e)
             (<[id := mkPending (mkCall service method) tx]> (ce_pending_unary e)) (ce_pending_streams e), p2).

Definition register_stream (e : ClientEngine) (service method : string) (p : RpcProcess)
    : Z * nat * ClientEngine * RpcProcess :=
  let '(id, p1) := next_id p in
  let '(tx, p2) := new_channel p1 in
  (id, tx, mkClient (ce_local_identity e) (ce_client_epoch e) (ce_pending_unary e)
             (<[id := mkPending (mkCall service method) tx]> (ce_pending_streams e)), p2).

Definition build_request (e : ClientEngine) (request_id : Z) (service method : string) (payload : bytes)
    (end_of_stream : bool) : RpcRequest :=
  mkRpcRequest request_id payload (Some (mkCall service method)) end_of_stream false
    (Some (ce_local_identity e)) (ce_client_epoch e).

Definition build_continuation (e : ClientEngine) (request_id : Z) (payload : bytes)
    (end_of_stream : bool) : RpcRequest :=
  mkRpcRequest request_id payload None end_of_stream false
    (Some (ce_local_identity e)) (ce_client_epoch e).

Definition begin_unary (e : ClientEngine) (service method : string) (payload : bytes) (p : RpcProcess)
    : RpcRequest * nat * ClientEngine * RpcProcess :=
  let '(id, rx, e', p') := register_unary e service method p in
  (build_request e id service method payload true, rx, e', p').

Definition begin_stream (e : ClientEngine) (service method : string) (payload : bytes) (p : RpcProcess)
    : RpcRequest * nat * ClientEngine * RpcProcess :=
  let '(id, rx, e', p') := register_stream e service method p in
  (build_request e id service method payload true, rx, e', p').

Definition answers_the_pending_call (e : ClientEngine) (request_id : Z) (call : option CallMetadata) : bool :=
  match call with
  | None => true
  | Some call =>
      let expected :=
        match ce_pending_streams e !! request_id with
        | Some pending => Some (p_call pending)
        | None => p_call <$> ce_pending_unary e !! request_id
        end in
      match expected with
      | Some expected => bool_decide (expected = call)
      | None => true
      end
  end.

Definition is_terminal (r : RpcResponse) : bool :=
  rs_end_of_stream r || bool_decide (is_Some (rs_error r)).

Definition is_pure_closing_signal (r : RpcResponse) : bool :=
  rs_end_of_stream r && bool_decide (rs_error r = None) && bool_decide (rs_message r = []).

Definition response_result (r : RpcResponse) : item :=
  match rs_error r with
  | Some err => inl (mk_rpc_status (Code_from_str (err_code err)) (err_message err))
  | None => inr (rs_message r)
  end.

(** [on_response]: the engine after it, and what it sent to which handle. *)
Definition on_response (e : ClientEngine) (r : RpcResponse) : ClientEngine * list (nat * item) :=
  let id := rs_id r in
  if decide (rs_client_epoch r <> ce_client_epoch e) then (e, [])
  else if negb (answers_the_pending_call e id (rs_call r)) then (e, [])
  else
    match ce_pending_streams e !! id with
    | Some pending =>
        (mkClient (ce_local_identity e) (ce_client_epoch e) (ce_pending_unary e)
           (if is_terminal r then delete id (ce_pending_streams e) else ce_pending_streams e),
         if is_pure_closing_signal r then [] else [(p_sender pending, response_result r)])
    | None =>
        match ce_pending_unary e !! id with
        | Some pending =>
            (mkClient (ce_local_identity e) (ce_client_epoch e) (delete id (ce_pending_unary e))
               (ce_pending_streams e), [(p_sender pending, response_result r)])
        | None => (e, [])
        end
    end.

Fixpoint on_responses (e : ClientEngine) (rs : list RpcResponse) : ClientEngine * list (nat * item) :=
  match rs with
  | [] => (e, [])
  | r :: rs' =>
      let '(e1, out) := on_response e r in
      let '(e2, out') := on_responses e1 rs' in (e2, out ++ out')
  end.

(** ** Properties *)

(** What a handle was sent. *)
Definition sent_to (h : nat) (out : list (nat * item)) : list item := snd <$> filter (fun d => d.1 = h) out.

Lemma sent_to_app h o o' : sent_to h (o ++ o') = sent_to h o ++ sent_to h o'.
Proof. unfold sent_to. by rewrite filter_app, fmap_app. Qed.

Lemma sent_to_singleton h k i : sent_to h [(k, i)] = if decide (k = h) then [i] else [].
Proof. unfold sent_to. rewrite filter_cons, filter_nil. simpl. by destruct (decide (k = h)). Qed.

(** The response answers the call [call] opened as [id] on the connection [epoch]. *)
Definition answers (epoch : N) (id : Z) (call : CallMetadata) (r : RpcResponse) : Prop :=
  rs_client_epoch r = epoch /\ rs_id r = id /\ (rs_call r = None \/ rs_call r = Some call).

#[global] Instance answers_dec epoch id call r : Decision (answers epoch id call r).
Proof. unfold answers. apply _. Defined.

(** No two pending calls share an id or a receiver. *)
Record client_ok (e : ClientEngine) : Prop := mkClientOk {
  ok_ids : forall i p q, ce_pending_streams e !! i = Some p -> ce_pending_unary e !! i = Some q -> False;
  ok_streams : forall i j p q, ce_pending_streams e !! i = Some p -> ce_pending_streams e !! j = Some q ->
    p_sender p = p_sender q -> i = j;
  ok_unary : forall i j p q, ce_pending_unary e !! i = Some p -> ce_pending_unary e !! j = Some q ->
    p_sender p = p_sender q -> i = j;
  ok_cross : forall i j p q, ce_pending_streams e !! i = Some p -> ce_pending_unary e !! j = Some q ->
    p_sender p <> p_sender q }.

(** No call an engine has pending resolves [h]. *)
Definition handle_gone (e : ClientEngine) (h : nat) : Prop :=
  (forall i p, ce_pending_streams e !! i = Some p -> p_sender p <> h) /\
  (forall i p, ce_pending_unary e !! i = Some p -> p_sender p <> h).

(** A response only removes calls. *)
Lemma on_response_shrinks e r :
  ce_pending_streams (on_response e r).1 ⊆ ce_pending_streams e /\
  ce_pending_unary (on_response e r).1 ⊆ ce_pending_unary e /\
  ce_client_epoch (on_response e r).1 = ce_client_epoch e.
Proof.
  unfold on_response. case_decide; [done|]. destruct (negb _); [done|].
  destruct (ce_pending_streams e !! rs_id r); simpl.
  - destruct (is_terminal r); split_and!; first [done|apply delete_subseteq].
  - destruct (ce_pending_unary e !! rs_id r); split_and!; first [done|apply delete_subseteq].
Qed.

Lemma client_ok_shrinks e e' :
  ce_pending_streams e' ⊆ ce_pending_streams e -> ce_pending_unary e' ⊆ ce_pending_unary e ->
  client_ok e -> client_ok e'.
Proof.
  intros Hs Hu [H1 H2 H3 H4]. split; intros; eauto using lookup_weaken.
Qed.

Lemma on_response_ok e r : client_ok e -> client_ok (on_response e r).1.
Proof. destruct (on_response_shrinks e r) as (? & ? & _). by apply client_ok_shrinks. Qed.

Lemma handle_gone_shrinks e e' h :
  ce_pending_streams e' ⊆ ce_pending_streams e -> ce_pending_unary e' ⊆ ce_pending_unary e ->
  handle_gone e h -> handle_gone e' h.
Proof. intros Hs Hu [H1 H2]. split; eauto using lookup_weaken. Qed.

Lemma handle_gone_silent e rs h : handle_gone e h -> sent_to h (on_responses e rs).2 = [].
Proof.
  revert e. induction rs as [|r rs IH]; intros e Hg; simpl; [done|].
  destruct (on_response_shrinks e r) as (Hs & Hu & _).
  specialize (IH _ (handle_gone_shrinks _ _ _ Hs Hu Hg)).
  assert (sent_to h (on_response e r).2 = []) as H1.
  { destruct Hg as [Hs' Hu']. unfold on_response. case_decide; [done|]. destruct (negb _); [done|].
    destruct (ce_pending_streams e !! rs_id r) as [q|] eqn:Hq; simpl.
    - destruct (is_pure_closing_signal r); [done|]. rewrite sent_to_singleton, decide_False; eauto.
    - destruct (ce_pending_unary e !! rs_id r) as [q'|] eqn:Hq'; simpl; [|done].
      rewrite sent_to_singleton, decide_False; eauto. }
  destruct (on_response e r) as [e1 o]. simpl in *. destruct (on_responses e1 rs) as [e2 o'].
  simpl in *. by rewrite sent_to_app, H1, IH.
Qed.

(** A response that does not answer a stream leaves it, and its receiver, alone. *)
Lemma stream_frame e id call h r :
  client_ok e -> ce_pending_streams e !! id = Some (mkPending call h) ->
  ~ answers (ce_client_epoch e) id call r ->
  ce_pending_streams (on_response e r).1 !! id = Some (mkPending call h) /\ sent_to h (on_response e r).2 = [].
Proof.
  intros Hok Hp Hno. unfold on_response. destruct (decide (rs_client_epoch r <> _)) as [|Hep]; [done|].
  apply dec_stable in Hep. destruct (answers_the_pending_call _ _ _) eqn:Ha; simpl; [|done].
  destruct (decide (rs_id r = id)) as [Hid|Hid].
  - exfalso. apply Hno. split_and!; [done..|]. revert Ha. unfold answers_the_pending_call. rewrite Hid, Hp.
    destruct (rs_call r); [|by left]. simpl. rewrite bool_decide_eq_true. intros ->. by right.
  - destruct (ce_pending_streams e !! rs_id r) as [q|] eqn:Hq; simpl.
    + split; [destruct (is_terminal r); [by rewrite lookup_delete_ne by done|done]|].
      destruct (is_pure_closing_signal r); [done|]. rewrite sent_to_singleton, decide_False; [done|].
      intros Heq. apply Hid. by eapply (ok_streams e Hok).
    + destruct (ce_pending_unary e !! rs_id r) as [q'|] eqn:Hq'; simpl; [|done]. split; [done|].
      rewrite sent_to_singleton, decide_False; [done|]. intros Heq.
      by eapply (ok_cross e Hok _ _ _ _ Hp Hq').
Qed.

Lemma unary_frame e id call h r :
  client_ok e -> ce_pending_unary e !! id = Some (mkPending call h) ->
  ~ answers (ce_client_epoch e) id call r ->
  ce_pending_unary (on_response e r).1 !! id = Some (mkPending call h) /\ sent_to h (on_response e r).2 = [].
Proof.
  intros Hok Hp Hno. unfold on_response. destruct (decide (rs_client_epoch r <> _)) as [|Hep]; [done|].
  apply dec_stable in Hep. destruct (answers_the_pending_call _ _ _) eqn:Ha; simpl; [|done].
  destruct (decide (rs_id r = id)) as [Hid|Hid].
  - exfalso. apply Hno. split_and!; [done..|]. revert Ha. unfold answers_the_pending_call. rewrite Hid, Hp.
    destruct (ce_pending_streams e !! id) eqn:Hs; [by destruct (ok_ids e Hok _ _ _ Hs Hp)|].
    destruct (rs_call r); [|by left]. simpl. rewrite bool_decide_eq_true. intros ->. by right.
  - destruct (ce_pending_streams e !! rs_id r) as [q|] eqn:Hq; simpl.
    + split; [done|]. destruct (is_pure_closing_signal r); [done|].
      rewrite sent_to_singleton, decide_False; [done|]. by eapply (ok_cross e Hok _ _ _ _ Hq Hp).
    + destruct (ce_pending_unary e !! rs_id r) as [q'|] eqn:Hq'; simpl; [|done].
      split; [by rewrite lookup_delete_ne|]. rewrite sent_to_singleton, decide_False; [done|].
      intros Heq. apply Hid. by eapply (ok_unary e Hok).
Qed.

(** A response that answers a pending stream is sent to its receiver. *)
Lemma stream_hit e id call h r :
  ce_pending_streams e !! id = Some (mkPending call h) -> answers (ce_client_epoch e) id call r ->
  sent_to h (on_response e r).2 = (if is_pure_closing_signal r then [] else [response_result r]) /\
  ce_pending_streams (on_response e r).1 !! id = (if is_terminal r then None else Some (mkPending call h)).
Proof.
  intros Hp (Hep & Hid & Hcall). unfold on_response. rewrite decide_False by congruence.
  replace (answers_the_pending_call _ _ _) with true; simpl.
  - rewrite Hid, Hp. simpl. split.
    + destruct (is_pure_closing_signal r); [done|]. by rewrite sent_to_singleton, decide_True.
    + destruct (is_terminal r); [apply lookup_delete_eq|done].
  - unfold answers_the_pending_call. rewrite Hid, Hp. destruct Hcall as [->| ->]; [done|].
    simpl. by rewrite bool_decide_eq_true_2.
Qed.

Lemma unary_hit e id call h r :
  client_ok e ->
  ce_pending_unary e !! id = Some (mkPending call h) -> answers (ce_client_epoch e) id call r ->
  sent_to h (on_response e r).2 = [response_result r] /\ handle_gone (on_response e r).1 h.
Proof.
  intros Hok Hp (Hep & Hid & Hcall). unfold on_response. rewrite decide_False by congruence.
  destruct (ce_pending_streams e !! id) eqn:Hs; [by destruct (ok_ids e Hok _ _ _ Hs Hp)|].
  replace (answers_the_pending_call _ _ _) with true; simpl.
  - rewrite Hid, Hs, Hp. simpl. split; [by rewrite sent_to_singleton, decide_True|].
    split; simpl; intros i q Hq Heq; [by eapply (ok_cross e Hok _ _ _ _ Hq Hp)|].
    apply lookup_delete_Some in Hq as [Hne Hq]. apply Hne. by eapply (ok_unary e Hok _ _ _ _ Hp Hq).
  - unfold answers_the_pending_call. rewrite Hid, Hs, Hp. destruct Hcall as [->| ->]; [done|].
    simpl. by rewrite bool_decide_eq_true_2.
Qed.

Lemma stream_closed_gone e id call h r :
  client_ok e -> ce_pending_streams e !! id = Some (mkPending call h) ->
  answers (ce_client_epoch e) id call r -> is_terminal r = true -> handle_gone (on_response e r).1 h.
Proof.
  intros Hok Hp Ha Ht. destruct (stream_hit _ _ _ _ _ Hp Ha) as [_ Hgone]. rewrite Ht in Hgone.
  destruct (on_response_shrinks e r) as (Hs & Hu & _). split; intros i q Hq Heq.
  - assert (i = id) as ->; [|congruence].
    eapply (ok_streams e Hok); [by eapply lookup_weaken|exact Hp|done].
  - eapply (ok_cross e Hok _ _ _ _ Hp); [by eapply lookup_weaken|done].
Qed.

(** What a receiver is owed of the responses that answer its stream: every result up
    to the first terminal one, a pure closing signal being none. *)
Fixpoint stream_view (rs : list RpcResponse) : list item :=
  match rs with
  | [] => []
  | r :: rs' =>
      (if is_pure_closing_signal r then [] else [response_result r]) ++
      (if is_terminal r then [] else stream_view rs')
  end.

Lemma on_responses_cons e r rs :
  on_responses e (r :: rs) =
    ((on_responses (on_response e r).1 rs).1, (on_response e r).2 ++ (on_responses (on_response e r).1 rs).2).
Proof. simpl. destruct (on_response e r) as [e1 o]. simpl. by destruct (on_responses e1 rs). Qed.

Lemma stream_delivery e id call h rs :
  client_ok e -> ce_pending_streams e !! id = Some (mkPending call h) ->
  let mine := filter (answers (ce_client_epoch e) id call) rs in
  sent_to h (on_responses e rs).2 = stream_view mine /\
  (ce_pending_streams (on_responses e rs).1 !! id = None <-> Exists (fun r => is_terminal r = true) mine).
Proof.
  simpl. revert e. induction rs as [|r rs IH]; intros e Hok Hp.
  { simpl. rewrite Hp. split; [done|]. split; [done|]. intros H. inversion H. }
  destruct (on_response_shrinks e r) as (Hs & Hu & Hep). pose proof (on_response_ok e r Hok) as Hok'.
  rewrite on_responses_cons. cbn [fst snd]. rewrite sent_to_app, filter_cons.
  destruct (decide (answers (ce_client_epoch e) id call r)) as [Ha|Ha].
  - destruct (stream_hit _ _ _ _ _ Hp Ha) as [-> Hp']. cbn [stream_view]. rewrite Exists_cons.
    destruct (is_terminal r) eqn:Ht.
    + pose proof (stream_closed_gone _ _ _ _ _ Hok Hp Ha Ht) as Hgone.
      rewrite handle_gone_silent by done. split; [done|]. split; [by left|]. intros _.
      destruct (ce_pending_streams (on_responses _ rs).1 !! id) as [q|] eqn:Hq; [|done]. exfalso.
      enough (forall e', ce_pending_streams (on_responses e' rs).1 ⊆ ce_pending_streams e') as Hsub.
      { eapply lookup_weaken in Hq; [|apply Hsub]. congruence. }
      clear. induction rs as [|r rs IH]; intros e'; [done|]. rewrite on_responses_cons. simpl.
      etrans; [apply IH|]. apply on_response_shrinks.
    + destruct (IH _ Hok' Hp') as [-> ->]. rewrite Hep. split; [done|]. naive_solver.
  - destruct (stream_frame _ _ _ _ _ Hok Hp Ha) as [Hp' ->]. rewrite <- Hep. by apply IH.
Qed.

(** C25.  Attribution of streams: whatever responses reach the connection, a stream's
    receiver yields exactly the results that carry its epoch, its id and its method
    (or no method), in order, until the first terminal one; the call stays pending
    until then and no longer. *)
Theorem stream_delivery_exact e id call h rs :
  client_ok e -> ce_pending_streams e !! id = Some (mkPending call h) ->
  let mine := filter (answers (ce_client_epoch e) id call) rs in
  sent_to h (on_responses e rs).2 = stream_view mine /\
  (ce_pending_streams (on_responses e rs).1 !! id = None <-> Exists (fun r => is_terminal r = true) mine).
Proof. apply stream_delivery. Qed.

Lemma unary_delivery e id call h rs :
  client_ok e -> ce_pending_unary e !! id = Some (mkPending call h) ->
  sent_to h (on_responses e rs).2 =
    take 1 (response_result <$> filter (answers (ce_client_epoch e) id call) rs).
Proof.
  revert e. induction rs as [|r rs IH]; intros e Hok Hp; [done|].
  destruct (on_response_shrinks e r) as (Hs & Hu & Hep).
  rewrite on_responses_cons. cbn [snd]. rewrite sent_to_app, filter_cons.
  destruct (decide (answers (ce_client_epoch e) id call r)) as [Ha|Ha].
  - destruct (unary_hit _ _ _ _ _ Hok Hp Ha) as [-> Hgone]. by rewrite handle_gone_silent.
  - destruct (unary_frame _ _ _ _ _ Hok Hp Ha) as [Hp' ->]. rewrite <- Hep.
    apply IH; [by apply on_response_ok|done].
Qed.

(** Attribution of unary calls: a unary call resolves at most once, with the
    first response that carries its epoch, its id and its method (or no method),
    whatever else reaches the connection. *)
Theorem unary_delivery_exact e id call h rs :
  client_ok e -> ce_pending_unary e !! id = Some (mkPending call h) ->
  sent_to h (on_responses e rs).2 =
    take 1 (response_result <$> filter (answers (ce_client_epoch e) id call) rs).
Proof. apply unary_delivery. Qed.

(** ** Registration *)

(** Every receiver an engine holds was made before. *)
Definition handles_made (e : ClientEngine) (p : RpcProcess) : Prop :=
  (forall i q, ce_pending_streams e !! i = Some q -> (p_sender q < channels p)%nat) /\
  (forall i q, ce_pending_unary e !! i = Some q -> (p_sender q < channels p)%nat).

(** The id the process hands out next is not pending on this engine. *)
Definition id_free (e : ClientEngine) (p : RpcProcess) : Prop :=
  ce_pending_streams e !! next_request_id p = None /\ ce_pending_unary e !! next_request_id p = None.

Lemma client_ok_fresh id call h e :
  client_ok e -> handle_gone e h -> ce_pending_streams e !! id = None -> ce_pending_unary e !! id = None ->
  client_ok (mkClient (ce_local_identity e) (ce_client_epoch e) (ce_pending_unary e)
               (<[id := mkPending call h]> (ce_pending_streams e))) /\
  client_ok (mkClient (ce_local_identity e) (ce_client_epoch e)
               (<[id := mkPending call h]> (ce_pending_unary e)) (ce_pending_streams e)).
Proof.
  intros [H1 H2 H3 H4] [G1 G2] Hs Hu. split; split; simpl; intros *;
    rewrite ?lookup_insert_Some; intros; destruct_or?; destruct_and?; simplify_eq/=; naive_solver.
Qed.

Lemma handles_gone e p : handles_made e p -> handle_gone e (channels p).
Proof. intros [H1 H2]. split; intros i q Hq Heq; [apply H1 in Hq|apply H2 in Hq]; lia. Qed.

Lemma register_ok e service method p :
  client_ok e -> handles_made e p -> id_free e p ->
  (let '(id, rx, e', p') := register_stream e service method p in
   client_ok e' /\ handles_made e' p' /\ ce_pending_streams e' !! id = Some (mkPending (mkCall service method) rx)) /\
  (let '(id, rx, e', p') := register_unary e service method p in
   client_ok e' /\ handles_made e' p' /\ ce_pending_unary e' !! id = Some (mkPending (mkCall service method) rx)).
Proof.
  intros Hok Hm [Hs Hu]. simpl.
  destruct (client_ok_fresh _ (mkCall service method) _ e Hok (handles_gone _ _ Hm) Hs Hu) as [Hok1 Hok2].
  destruct Hm as [H1 H2].
  split; split_and!; try done; try apply lookup_insert_eq; split; simpl; intros i q;
    rewrite ?lookup_insert_Some; naive_solver lia.
Qed.

(** The ids a process hands out. *)
Fixpoint nth_id (n : nat) (p : RpcProcess) : Z :=
  match n with O => (next_id p).1 | S n => nth_id n (next_id p).2 end.

Definition is_i32 (z : Z) : Prop := (-2147483648 <= z < 2147483648)%Z.

Lemma wrap_i32_range z : is_i32 (wrap_i32 z).
Proof. unfold is_i32, wrap_i32. Z.to_euclidean_division_equations. lia. Qed.

Lemma nth_id_wrap n p :
  is_i32 (next_request_id p) -> nth_id n p = wrap_i32 (next_request_id p + Z.of_nat n).
Proof.
  revert p. induction n as [|n IH]; intros p Hp; simpl.
  - rewrite Z.add_0_r. unfold is_i32, wrap_i32 in *. Z.to_euclidean_division_equations. lia.
  - rewrite IH by apply wrap_i32_range. simpl. unfold wrap_i32. Z.to_euclidean_division_equations. lia.
Qed.

(** Request ids: among any 2^32 consecutive calls of a process no two have the
    same id, the wrap-around of the counter included. *)
Theorem request_ids_distinct p i j :
  is_i32 (next_request_id p) -> i <> j -> (Z.abs (Z.of_nat i - Z.of_nat j) < 4294967296)%Z ->
  nth_id i p <> nth_id j p.
Proof.
  intros Hp Hne Hij. rewrite !nth_id_wrap by done. unfold wrap_i32.
  Z.to_euclidean_division_equations. lia.
Qed.

Lemma request_ids_distinct_witness :
  nth_id 0 (mkProcess 2147483647 0) <> nth_id 1 (mkProcess 2147483647 0) /\
  nth_id 1 (mkProcess 2147483647 0) = (-2147483648)%Z.
Proof. split; [apply request_ids_distinct; [by split; vm_compute|lia|by vm_compute]|reflexivity]. Defined.

(** ** A connection with one stream and one unary call *)

Definition demo_client : ClientEngine :=
  mkClient "me" 7 {[ 2%Z := mkPending (mkCall "s" "unary") 1 ]} {[ 1%Z := mkPending (mkCall "s" "stream") 0 ]}.

Lemma demo_client_ok : client_ok demo_client.
Proof.
  split; unfold demo_client; simpl; intros *; rewrite ?lookup_singleton_Some; intros;
    destruct_and?; simplify_eq/=; done.
Qed.

(** Frames of another connection and of another method under the same ids, between
    those of the two calls. *)
Definition demo_responses : list RpcResponse :=
  [mkRpcResponse 1 [Byte.x61] false None 7 (Some (mkCall "s" "stream"));
   mkRpcResponse 1 [Byte.x7a] true None 6 (Some (mkCall "s" "stream"));
   mkRpcResponse 2 [Byte.x7a] true None 7 (Some (mkCall "s" "other"));
   mkRpcResponse 2 [Byte.x75] true None 7 (Some (mkCall "s" "unary"));
   mkRpcResponse 1 [] true None 7 (Some (mkCall "s" "stream"))].

Lemma stream_delivery_exact_witness :
  sent_to 0 (on_responses demo_client demo_responses).2 = [inr [Byte.x61]].
Proof.
  exact (proj1 (stream_delivery_exact demo_client 1 (mkCall "s" "stream") 0 demo_responses
    demo_client_ok eq_refl)).
Defined.

Lemma unary_delivery_exact_witness :
  sent_to 1 (on_responses demo_client demo_responses).2 = [inr [Byte.x75]].
Proof.
  exact (unary_delivery_exact demo_client 2 (mkCall "s" "unary") 1 demo_responses demo_client_ok eq_refl).
Defined.
