(* ===== verification/RpcServer.v ===== *)
(** * The server side of the RPC engines

    [src/packages/tddy-rpc/src/server_engine.rs]: requests of many peers multiplexed by
    [(peer, request_id)], client-streaming calls collected until their last fragment,
    bidirectional sessions fed as their messages arrive, and the background forwards
    that publish the responses, released together when a peer goes away.

    [on_request] and [on_peer_disconnected] are functions on the engine's state; the
    forwards they spawn run in [step], an interleaving of handler results, publications
    and ends. Channels never fill up (the bounded channels' back-pressure is not
    modelled), and the two calls are atomic. What a bidirectional handler answers is not
    determined by what it was sent, so any answer may come. *)

From Stdlib Require Import Strings.Byte.
From S2P Require Import Prelude RpcStatus Framing RpcBridge RpcClient.

Notation session_key := (string * Z)%type.

Record PendingMultiMessage := mkMulti {
  pm_messages : list RpcMessage; pm_service : string; pm_method : string }.

(** What a spawned forward does, and how far it is. *)
Inductive Job :=
| JDispatch (service method : string) (messages : list RpcMessage)
| JBidi (service method : string) (metadata : RequestMetadata).

Inductive Progress :=
| Handling
| Sending (rest : list RpcResponse).

Record Forward := mkForward { fw_origin : CallOrigin; fw_job : Job; fw_progress : Progress }.

(** A bidirectional session is its input channel, named by the forward that reads
    it; [se_inputs] holds what was sent into each channel. *)
Record ServerEngine := mkServer {
  se_transport : RequestTransport;
  se_active_bidi_sessions : gmap session_key N;
  se_pending_multi_message : gmap session_key PendingMultiMessage;
  se_next_id : N;
  se_by_peer : gmap string (gmap N Forward);
  se_inputs : gmap N (list RpcMessage) }.

Definition new_server (transport : RequestTransport) : ServerEngine :=
  mkServer transport ∅ ∅ 0 ∅ ∅.

Definition with_by_peer (f : gmap string (gmap N Forward)) (e : ServerEngine) : ServerEngine :=
  mkServer (se_transport e) (se_active_bidi_sessions e) (se_pending_multi_message e) (se_next_id e) f (se_inputs e).

Definition with_bidi (m : gmap session_key N) (e : ServerEngine) : ServerEngine :=
  mkServer (se_transport e) m (se_pending_multi_message e) (se_next_id e) (se_by_peer e) (se_inputs e).

Definition with_pending (m : gmap session_key PendingMultiMessage) (e : ServerEngine) : ServerEngine :=
  mkServer (se_transport e) (se_active_bidi_sessions e) m (se_next_id e) (se_by_peer e) (se_inputs e).

Definition with_inputs (m : gmap N (list RpcMessage)) (e : ServerEngine) : ServerEngine :=
  mkServer (se_transport e) (se_active_bidi_sessions e) (se_pending_multi_message e) (se_next_id e) (se_by_peer e) m.

(** ** [PeerForwards] *)

Definition forwards_of (by_peer : gmap string (gmap N Forward)) (peer : string) : gmap N Forward :=
  default ∅ (by_peer !! peer).

(** A new forward of [peer], under the next identity. *)
Definition spawn (e : ServerEngine) (peer : string) (forward : Forward) : ServerEngine :=
  mkServer (se_transport e) (se_active_bidi_sessions e) (se_pending_multi_message e) (se_next_id e + 1)
    (<[peer := <[se_next_id e := forward]> (forwards_of (se_by_peer e) peer)]> (se_by_peer e)) (se_inputs e).

Definition forget (by_peer : gmap string (gmap N Forward)) (peer : string) (forward_id : N)
    : gmap string (gmap N Forward) :=
  match by_peer !! peer with
  | None => by_peer
  | Some forwards =>
      let forwards' := delete forward_id forwards in
      if decide (forwards' = ∅) then delete peer by_peer else <[peer := forwards']> by_peer
  end.

Definition abort_all (by_peer : gmap string (gmap N Forward)) (peer : string) : gmap string (gmap N Forward) :=
  delete peer by_peer.

(** ** Responses *)

Definition response_message (origin : CallOrigin) (b : bytes) (end_of_stream : bool) : RpcResponse :=
  mkRpcResponse (or_request_id origin) b end_of_stream None (or_client_epoch origin) (or_call origin).

Definition error_response (origin : CallOrigin) (status : Status) : RpcResponse :=
  mkRpcResponse (or_request_id origin) [] true (Some (error_of_status status))
    (or_client_epoch origin) (or_call origin).

(** The last chunk of a complete body carries [end_of_stream]. *)
Fixpoint complete_responses (origin : CallOrigin) (chunks : list bytes) : list RpcResponse :=
  match chunks with
  | [] => []
  | [b] => [response_message origin b true]
  | b :: chunks' => response_message origin b false :: complete_responses origin chunks'
  end.

(** A live stream: one frame per item, then an empty closing frame, or the error. *)
Fixpoint streaming_responses (origin : CallOrigin) (rx : list item) : list RpcResponse :=
  match rx with
  | [] => [response_message origin [] true]
  | inr b :: rx' => response_message origin b false :: streaming_responses origin rx'
  | inl status :: _ => [error_response origin status]
  end.

Definition forward_response_body (origin : CallOrigin) (body : ResponseBody) : list RpcResponse :=
  match body with
  | Complete chunks => complete_responses origin chunks
  | Streaming rx => streaming_responses origin rx
  end.

(** What a forward publishes once its handler has answered. *)
Definition answer_responses (origin : CallOrigin) (result : Status + ResponseBody) : list RpcResponse :=
  match result with
  | inr body => forward_response_body origin body
  | inl status => [error_response origin status]
  end.

(** ** Requests *)

Definition metadata_of (e : ServerEngine) (request : RpcRequest) : RequestMetadata :=
  with_sender_identity (metadata_over (se_transport e)) (rq_sender_identity request).

Definition to_rpc_message (e : ServerEngine) (request : RpcRequest) : RpcMessage :=
  mkRpcMessage (rq_message request) (metadata_of e request).

Definition send_input (e : ServerEngine) (channel : N) (m : RpcMessage) : ServerEngine :=
  with_inputs (<[channel := default [] (se_inputs e !! channel) ++ [m]]> (se_inputs e)) e.

(** [None]: not handled, go on. *)
Definition route_bidi_continuation (e : ServerEngine) (k : session_key) (request : RpcRequest)
    : option ServerEngine :=
  channel ← se_active_bidi_sessions e !! k;
  let e1 := send_input e channel (to_rpc_message e request) in
  Some (if rq_end_of_stream request then with_bidi (delete k (se_active_bidi_sessions e1)) e1 else e1).

Definition spawn_dispatch (e : ServerEngine) (peer : string) (origin : CallOrigin) (service method : string)
    (messages : list RpcMessage) : ServerEngine * list (string * Forward) :=
  let forward := mkForward origin (JDispatch service method messages) Handling in
  (spawn e peer forward, [(peer, forward)]).

Definition route_multi_message_continuation (e : ServerEngine) (k : session_key) (request : RpcRequest)
    : option (ServerEngine * list (string * Forward)) :=
  entry ← se_pending_multi_message e !! k;
  let entry' := mkMulti (pm_messages entry ++ [to_rpc_message e request]) (pm_service entry) (pm_method entry) in
  Some (if rq_end_of_stream request
        then spawn_dispatch (with_pending (delete k (se_pending_multi_message e)) e) k.1
               (mkOrigin (rq_id request) (rq_client_epoch request)
                  (Some (mkCall (pm_service entry) (pm_method entry))))
               (pm_service entry) (pm_method entry) (pm_messages entry')
        else (with_pending (<[k := entry']> (se_pending_multi_message e)) e, [])).

Definition open_bidi_session (e : ServerEngine) (peer : string) (request : RpcRequest) (service method : string)
    : ServerEngine * list (string * Forward) :=
  let channel := se_next_id e in
  let e1 := send_input e channel (to_rpc_message e request) in
  let e2 := if rq_end_of_stream request then e1
            else with_bidi (<[(peer, rq_id request) := channel]> (se_active_bidi_sessions e1)) e1 in
  let forward := mkForward (origin_of request) (JBidi service method (metadata_of e request)) Handling in
  (spawn e2 peer forward, [(peer, forward)]).

Definition on_peer_disconnected (e : ServerEngine) (peer : string) : ServerEngine :=
  with_by_peer (abort_all (se_by_peer e) peer)
    (with_pending (filter (fun kv => kv.1.1 <> peer) (se_pending_multi_message e))
       (with_bidi (filter (fun kv => kv.1.1 <> peer) (se_active_bidi_sessions e)) e)).

Section server.
Context {W : Type} (svc : RpcService W).

(** [on_request]: the engine after it, and the forwards it spawned. *)
Definition on_request (e : ServerEngine) (peer : string) (request : RpcRequest)
    : ServerEngine * list (string * Forward) :=
  let k := (peer, rq_id request) in
  match route_bidi_continuation e k request with
  | Some e' => (e', [])
  | None =>
      match route_multi_message_continuation e k request with
      | Some out => out
      | None =>
          let service := from_option cm_service "" (rq_call request) in
          let method := from_option cm_method "" (rq_call request) in
          let opens_bidi_session :=
            bool_decide (is_Some (rq_call request)) && svc_is_bidi_stream svc service method in
          if opens_bidi_session then open_bidi_session e peer request service method
          else if rq_end_of_stream request
          then spawn_dispatch e peer (origin_of request) service method [to_rpc_message e request]
          else (with_pending (<[k := mkMulti [to_rpc_message e request] service method]>
                  (se_pending_multi_message e)) e, [])
      end
  end.

(** ** Runs *)

(** The engine, the service's world, what was published on [outgoing] and, as a
    history, the requests received. *)
Record server_state := mkState {
  ss_engine : ServerEngine; ss_world : W;
  ss_outgoing : list (string * RpcResponse); ss_received : list (string * RpcRequest) }.

Inductive event :=
| EvRequest (peer : string) (request : RpcRequest)
| EvDisconnect (peer : string)
| EvForward (peer : string) (forward_id : N).

Definition forward_at (e : ServerEngine) (peer : string) (fid : N) : option Forward :=
  forwards_of (se_by_peer e) peer !! fid.

Definition set_progress (e : ServerEngine) (peer : string) (fid : N) (f : Forward) (p : Progress) : ServerEngine :=
  with_by_peer (<[peer := <[fid := mkForward (fw_origin f) (fw_job f) p]> (forwards_of (se_by_peer e) peer)]>
    (se_by_peer e)) e.

Inductive step : server_state -> event -> server_state -> Prop :=
| StepRequest e w out rcv peer request :
    step (mkState e w out rcv) (EvRequest peer request)
      (mkState (on_request e peer request).1 w out (rcv ++ [(peer, request)]))
| StepDisconnect e w out rcv peer :
    step (mkState e w out rcv) (EvDisconnect peer) (mkState (on_peer_disconnected e peer) w out rcv)
| StepHandled e w out rcv peer fid f service method messages result w' :
    forward_at e peer fid = Some f -> fw_progress f = Handling ->
    fw_job f = JDispatch service method messages ->
    handle_messages svc service method messages w = (result, w') ->
    step (mkState e w out rcv) (EvForward peer fid)
      (mkState (set_progress e peer fid f (Sending (answer_responses (fw_origin f) result))) w' out rcv)
| StepBidi e w out rcv peer fid f service method metadata result w' :
    forward_at e peer fid = Some f -> fw_progress f = Handling ->
    fw_job f = JBidi service method metadata ->
    step (mkState e w out rcv) (EvForward peer fid)
      (mkState (set_progress e peer fid f (Sending (answer_responses (fw_origin f) result))) w' out rcv)
| StepPublish e w out rcv peer fid f r rest :
    forward_at e peer fid = Some f -> fw_progress f = Sending (r :: rest) ->
    step (mkState e w out rcv) (EvForward peer fid)
      (mkState (set_progress e peer fid f (Sending rest)) w (out ++ [(peer, r)]) rcv)
| StepOutgoingClosed e w out rcv peer fid f r rest :
    forward_at e peer fid = Some f -> fw_progress f = Sending (r :: rest) ->
    step (mkState e w out rcv) (EvForward peer fid)
      (mkState (set_progress e peer fid f (Sending [])) w out rcv)
| StepForget e w out rcv peer fid f :
    forward_at e peer fid = Some f -> fw_progress f = Sending [] ->
    step (mkState e w out rcv) (EvForward peer fid)
      (mkState (with_by_peer (forget (se_by_peer e) peer fid) e) w out rcv).

Inductive steps : server_state -> list event -> server_state -> Prop :=
| steps_nil s : steps s [] s
| steps_snoc s evs s1 ev s2 : steps s evs s1 -> step s1 ev s2 -> steps s (evs ++ [ev]) s2.

Definition initial (transport : RequestTransport) (w : W) : server_state :=
  mkState (new_server transport) w [] [].

(** ** Invariants of a run *)

(** The two ways [on_request] leaves the forwards: as they were, or with one more, of
    this peer, answering this request. *)
Lemma on_request_forwards e peer r :
  ((on_request e peer r).2 = [] /\ se_by_peer (on_request e peer r).1 = se_by_peer e) \/
  (exists f, (on_request e peer r).2 = [(peer, f)] /\
    se_by_peer (on_request e peer r).1 =
      <[peer := <[se_next_id e := f]> (forwards_of (se_by_peer e) peer)]> (se_by_peer e) /\
    or_request_id (fw_origin f) = rq_id r /\ or_client_epoch (fw_origin f) = rq_client_epoch r /\
    fw_progress f = Handling).
Proof.
  unfold on_request, route_bidi_continuation, route_multi_message_continuation.
  destruct (se_active_bidi_sessions e !! _) as [c|]; simpl.
  { left. by destruct (rq_end_of_stream r). }
  destruct (se_pending_multi_message e !! _) as [entry|]; simpl.
  { destruct (rq_end_of_stream r); [|by left]. right. eexists. split_and!; done. }
  destruct (_ && _).
  { right. unfold open_bidi_session. destruct (rq_end_of_stream r); eexists; split_and!; done. }
  destruct (rq_end_of_stream r); [|by left]. right. eexists. split_and!; done.
Qed.

Lemma lookup_forward_insert by_peer peer m q fid :
  forwards_of (<[peer := m]> by_peer) q !! fid =
    if decide (q = peer) then m !! fid else forwards_of by_peer q !! fid.
Proof.
  unfold forwards_of. destruct (decide (q = peer)) as [->|Hne].
  - by rewrite lookup_insert_eq.
  - by rewrite lookup_insert_ne.
Qed.

Lemma forward_at_request e peer r q fid f :
  forward_at (on_request e peer r).1 q fid = Some f ->
  forward_at e q fid = Some f \/
  (q = peer /\ or_request_id (fw_origin f) = rq_id r /\ or_client_epoch (fw_origin f) = rq_client_epoch r /\
   fw_progress f = Handling).
Proof.
  unfold forward_at. destruct (on_request_forwards e peer r) as [[_ ->]|(g & _ & -> & Hg)]; [by left|].
  rewrite lookup_forward_insert. case_decide; [|by left]. subst.
  rewrite lookup_insert_Some. intros [[_ <-]|[_ Hf]]; [right; naive_solver|by left].
Qed.

Lemma forward_at_progress e peer fid f p q gid g :
  forward_at (set_progress e peer fid f p) q gid = Some g ->
  forward_at e q gid = Some g \/ (q = peer /\ gid = fid /\ g = mkForward (fw_origin f) (fw_job f) p).
Proof.
  unfold forward_at, set_progress. simpl. rewrite lookup_forward_insert. case_decide; [|by left]. subst.
  rewrite lookup_insert_Some. intros [[<- <-]|[_ Hf]]; [by right|by left].
Qed.

Lemma forward_at_forget e peer fid q gid g :
  forward_at (with_by_peer (forget (se_by_peer e) peer fid) e) q gid = Some g -> forward_at e q gid = Some g.
Proof.
  unfold forward_at, forget. simpl. destruct (se_by_peer e !! peer) as [m|] eqn:Hm; [|done].
  case_decide as Hemp.
  - unfold forwards_of. destruct (decide (q = peer)) as [->|]; [by rewrite lookup_delete_eq|].
    by rewrite lookup_delete_ne.
  - rewrite lookup_forward_insert. case_decide; [|done]. subst. unfold forwards_of. rewrite Hm. simpl.
    by intros [_ Hg]%lookup_delete_Some.
Qed.

Lemma forward_at_disconnect e peer q fid :
  forward_at (on_peer_disconnected e peer) q fid = if decide (q = peer) then None else forward_at e q fid.
Proof.
  unfold forward_at, on_peer_disconnected, forwards_of. simpl. unfold abort_all.
  case_decide; subst; [by rewrite lookup_delete_eq|by rewrite lookup_delete_ne].
Qed.

(** Responses of a call carry its id and epoch. *)
Definition carries_origin (origin : CallOrigin) (r : RpcResponse) : Prop :=
  rs_id r = or_request_id origin /\ rs_client_epoch r = or_client_epoch origin /\ rs_call r = or_call origin.

Lemma answer_carries_origin origin result : Forall (carries_origin origin) (answer_responses origin result).
Proof.
  destruct result as [st|[chunks|rx]]; simpl.
  - by repeat constructor.
  - induction chunks as [|b [|b' chunks] IH]; simpl; [done|by repeat constructor|]. by constructor.
  - induction rx as [|[st|b] rx IH]; simpl; by repeat constructor.
Qed.

Definition asked (rcv : list (string * RpcRequest)) (peer : string) (id : Z) (epoch : N) : Prop :=
  exists request, (peer, request) ∈ rcv /\ rq_id request = id /\ rq_client_epoch request = epoch.

Definition progress_of (origin : CallOrigin) (p : Progress) : Prop :=
  match p with Handling => True | Sending rest => Forall (carries_origin origin) rest end.

(** Every forward answers a request of its peer, and so does all that was published. *)
Record attributed (s : server_state) : Prop := mkAttributed {
  at_forwards : forall peer fid f, forward_at (ss_engine s) peer fid = Some f ->
    asked (ss_received s) peer (or_request_id (fw_origin f)) (or_client_epoch (fw_origin f)) /\
    progress_of (fw_origin f) (fw_progress f);
  at_outgoing : forall peer r, (peer, r) ∈ ss_outgoing s ->
    asked (ss_received s) peer (rs_id r) (rs_client_epoch r) }.

Lemma asked_snoc rcv peer id epoch x : asked rcv peer id epoch -> asked (rcv ++ [x]) peer id epoch.
Proof. intros (request & Hin & ?). exists request. rewrite elem_of_app. naive_solver. Qed.

Lemma attributed_progress e w w' out rcv peer fid f p :
  forward_at e peer fid = Some f -> progress_of (fw_origin f) p ->
  attributed (mkState e w out rcv) -> attributed (mkState (set_progress e peer fid f p) w' out rcv).
Proof.
  intros Hf Hp [H1 H2]. split; simpl in *; [|done]. intros q gid g Hg.
  apply forward_at_progress in Hg as [Hg|(-> & -> & ->)]; [by eapply H1|]. simpl.
  split; [by eapply H1|done].
Qed.

Lemma step_attributed s ev s' : step s ev s' -> attributed s -> attributed s'.
Proof.
  destruct 1 as [| | | |????? fid f r rest Hf Hr| |]; intros Hat.
  - destruct Hat as [H1 H2]. split; simpl in *.
    + intros q fid f Hf. apply forward_at_request in Hf as [Hf|(-> & -> & -> & ->)].
      * destruct (H1 _ _ _ Hf). split; [by apply asked_snoc|done].
      * split; [|done]. exists request. rewrite elem_of_app, list_elem_of_singleton. naive_solver.
    + intros q r Hr. by apply asked_snoc, H2.
  - destruct Hat as [H1 H2]. split; simpl in *; [|done]. intros q fid f.
    rewrite forward_at_disconnect. case_decide; [done|]. apply H1.
  - eapply attributed_progress; [done| |done]. apply answer_carries_origin.
  - eapply attributed_progress; [done| |done]. apply answer_carries_origin.
  - destruct (at_forwards _ Hat _ _ _ Hf) as [Hask Hpr]. rewrite Hr in Hpr. simpl in Hpr.
    apply Forall_cons in Hpr as [(Hid & Hep & _) Hrest].
    pose proof (attributed_progress _ _ w _ _ _ _ _ (Sending rest) Hf Hrest Hat) as [H1 H2].
    split; simpl in *; [done|]. intros q r'. rewrite elem_of_app, list_elem_of_singleton.
    intros [Hin|[= -> ->]]; [by apply H2|]. by rewrite Hid, Hep.
  - by eapply attributed_progress; [done|constructor|done].
  - destruct Hat as [H1 H2]. split; simpl in *; [|done]. intros q gid g Hg.
    apply forward_at_forget in Hg. by eapply H1.
Qed.

(** *** The transport stamp *)

Definition stamped_with (t : RequestTransport) (m : RpcMessage) : Prop := md_transport (msg_metadata m) = t.

Definition job_stamped (t : RequestTransport) (j : Job) : Prop :=
  match j with
  | JDispatch _ _ messages => Forall (stamped_with t) messages
  | JBidi _ _ metadata => md_transport metadata = t
  end.

(** Everything a handler is or will be given carries the host's transport. *)
Record stamped (t : RequestTransport) (e : ServerEngine) : Prop := mkStamped {
  sp_transport : se_transport e = t;
  sp_pending : forall k m, se_pending_multi_message e !! k = Some m -> Forall (stamped_with t) (pm_messages m);
  sp_inputs : forall c l, se_inputs e !! c = Some l -> Forall (stamped_with t) l;
  sp_jobs : forall peer fid f, forward_at e peer fid = Some f -> job_stamped t (fw_job f) }.

Lemma to_rpc_message_stamped t e request : se_transport e = t -> stamped_with t (to_rpc_message e request).
Proof. done. Qed.

Lemma stamped_spawn t e peer f : stamped t e -> job_stamped t (fw_job f) -> stamped t (spawn e peer f).
Proof.
  intros [Ht Hp Hi Hj] Hf. split; simpl; [done..|]. intros q fid g. unfold forward_at, spawn. simpl.
  rewrite lookup_forward_insert. case_decide; [|apply Hj]. subst.
  rewrite lookup_insert_Some. intros [[_ <-]|[_ Hg]]; [done|by eapply Hj].
Qed.

Lemma stamped_send t e c m : stamped t e -> stamped_with t m -> stamped t (send_input e c m).
Proof.
  intros [Ht Hp Hi Hj] Hm. split; simpl; [done..| |done]. intros c' l.
  rewrite lookup_insert_Some. intros [[<- <-]|[_ Hl]]; [|by eapply Hi].
  apply Forall_app. split; [|by repeat constructor].
  destruct (se_inputs e !! c) eqn:Hc; simpl; [by eapply Hi|constructor].
Qed.

Lemma stamped_bidi t e m : stamped t e -> stamped t (with_bidi m e).
Proof. by intros [Ht Hp Hi Hj]. Qed.

Lemma stamped_pending t e m :
  (forall k x, m !! k = Some x -> Forall (stamped_with t) (pm_messages x)) ->
  stamped t e -> stamped t (with_pending m e).
Proof. by intros Hm [Ht Hp Hi Hj]. Qed.

#[local] Hint Resolve stamped_spawn stamped_send stamped_bidi to_rpc_message_stamped : stamps.

Lemma on_request_stamped t e peer r : stamped t e -> stamped t (on_request e peer r).1.
Proof.
  intros He. pose proof (sp_transport _ _ He) as Ht. pose proof (sp_pending _ _ He) as Hp.
  unfold on_request, route_bidi_continuation, route_multi_message_continuation.
  destruct (se_active_bidi_sessions e !! _) as [c|]; simpl.
  { destruct (rq_end_of_stream r); eauto with stamps. }
  destruct (se_pending_multi_message e !! _) as [entry|] eqn:Hentry; simpl.
  { assert (Forall (stamped_with t) (pm_messages entry ++ [to_rpc_message e r])) as Hms.
    { apply Forall_app. split; [by eapply Hp|]. by repeat constructor. }
    destruct (rq_end_of_stream r); simpl.
    - apply stamped_spawn; [|done]. apply stamped_pending; [|done]. intros k x [_ Hx]%lookup_delete_Some. by eapply Hp.
    - apply stamped_pending; [|done]. intros k x. rewrite lookup_insert_Some.
      intros [[_ <-]|[_ Hx]]; [done|by eapply Hp]. }
  destruct (_ && _).
  { unfold open_bidi_session. destruct (rq_end_of_stream r); simpl; eauto with stamps. }
  destruct (rq_end_of_stream r); simpl.
  - apply stamped_spawn; [done|]. by repeat constructor.
  - apply stamped_pending; [|done]. intros k x. rewrite lookup_insert_Some.
    intros [[_ <-]|[_ Hx]]; [by repeat constructor|by eapply Hp].
Qed.

Lemma stamped_progress t e peer fid f p :
  forward_at e peer fid = Some f -> stamped t e -> stamped t (set_progress e peer fid f p).
Proof.
  intros Hf [Ht Hp Hi Hj]. split; simpl; [done..|]. intros q gid g Hg.
  apply forward_at_progress in Hg as [Hg|(-> & -> & ->)]; [by eapply Hj|]. by eapply (Hj _ _ _ Hf).
Qed.

Lemma step_stamped t s ev s' : step s ev s' -> stamped t (ss_engine s) -> stamped t (ss_engine s').
Proof.
  destruct 1; simpl; intros He; try by eapply stamped_progress.
  - by apply on_request_stamped.
  - destruct He as [Ht Hp Hi Hj]. split; simpl; [done| |done|].
    + intros k m [Hm _]%map_lookup_filter_Some. by eapply Hp.
    + intros q fid f. rewrite forward_at_disconnect. case_decide; [done|]. apply Hj.
  - destruct He as [Ht Hp Hi Hj]. split; simpl; [done..|]. intros q gid g Hg.
    apply forward_at_forget in Hg. by eapply Hj.
Qed.

(** Whatever peers send and however the forwards interleave: every response
    published to a peer carries the id and the connection epoch of a request that
    peer sent, and every message any handler is given carries the transport the host
    named, which nothing in a request can change. *)
Theorem server_run_sound transport w evs s :
  steps (initial transport w) evs s ->
  attributed s /\ stamped transport (ss_engine s).
Proof.
  intros Hrun. remember (initial transport w) as s0 eqn:Hs0.
  induction Hrun as [s|s evs s1 ev s2 _ IH Hstep].
  - subst s. split.
    + split; simpl; [intros peer fid f Hf|intros peer r Hr; by apply not_elem_of_nil in Hr].
      unfold forward_at, forwards_of in Hf. simpl in Hf. by rewrite lookup_empty in Hf.
    + split; simpl; [done|intros *; by rewrite lookup_empty..|].
      intros *. unfold forward_at, forwards_of. simpl. by rewrite lookup_empty.
  - destruct (IH Hs0). eauto using step_attributed, step_stamped.
Qed.

(** *** A peer that goes away *)

(** The engine holds nothing for [peer]. *)
Definition released (e : ServerEngine) (peer : string) : Prop :=
  (forall id, se_active_bidi_sessions e !! (peer, id) = None) /\
  (forall id, se_pending_multi_message e !! (peer, id) = None) /\
  se_by_peer e !! peer = None.

Lemma keep_others {A} (m : gmap session_key A) (peer q : string) (id : Z) :
  q <> peer -> filter (fun kv => kv.1.1 <> peer) m !! (q, id) = m !! (q, id).
Proof.
  intros Hq. rewrite map_lookup_filter. destruct (m !! (q, id)); simpl; [|done].
  by rewrite option_guard_True.
Qed.

Lemma disconnect_released e peer : released (on_peer_disconnected e peer) peer.
Proof.
  split_and!; simpl.
  - intros id. apply map_lookup_filter_None. right. intros ? _. simpl. naive_solver.
  - intros id. apply map_lookup_filter_None. right. intros ? _. simpl. naive_solver.
  - apply lookup_delete_eq.
Qed.

Lemma on_request_other e q r peer :
  q <> peer -> released e peer -> released (on_request e q r).1 peer.
Proof.
  intros Hq (Hb & Hp & Hf). unfold released.
  assert (se_by_peer (on_request e q r).1 !! peer = None) as ->.
  { destruct (on_request_forwards e q r) as [[_ ->]|(f & _ & -> & _)]; [done|]. by rewrite lookup_insert_ne. }
  unfold on_request, route_bidi_continuation, route_multi_message_continuation, open_bidi_session.
  split_and!; [..|done]; intros id.
  all: destruct (se_active_bidi_sessions e !! (q, rq_id r)); simpl;
    [destruct (rq_end_of_stream r); simpl; rewrite ?lookup_delete_None; auto|].
  all: destruct (se_pending_multi_message e !! (q, rq_id r)); simpl;
    [destruct (rq_end_of_stream r); simpl; rewrite ?lookup_delete_None, ?lookup_insert_None; naive_solver|].
  all: destruct (_ && _); destruct (rq_end_of_stream r); simpl; rewrite ?lookup_insert_None; naive_solver.
Qed.

Definition to_peer (peer : string) (out : list (string * RpcResponse)) : list RpcResponse :=
  snd <$> filter (fun o => o.1 = peer) out.

(** A released peer is published nothing and gets nothing held for it, until it asks again. *)
Lemma step_released s ev s' peer :
  step s ev s' -> (forall r, ev <> EvRequest peer r) -> released (ss_engine s) peer ->
  released (ss_engine s') peer /\ to_peer peer (ss_outgoing s') = to_peer peer (ss_outgoing s).
Proof.
  assert (forall e q fid f p, released e peer -> forward_at e q fid = Some f ->
    q <> peer /\ released (set_progress e q fid f p) peer) as Hset.
  { intros e q fid f p (Hb & Hp & Hf) Hat. assert (q <> peer) as Hq.
    { intros ->. unfold forward_at, forwards_of in Hat. by rewrite Hf in Hat. }
    split; [done|]. split_and!; simpl; [done..|]. by rewrite lookup_insert_ne. }
  destruct 1; simpl; intros Hev Hrel.
  - split; [|done]. apply on_request_other; [|done]. intros ->. by destruct (Hev request).
  - split; [|done]. destruct (decide (peer0 = peer)) as [->|Hne]; [apply disconnect_released|].
    destruct Hrel as (Hb & Hp & Hf). split_and!; simpl.
    + intros id. apply map_lookup_filter_None. by left.
    + intros id. apply map_lookup_filter_None. by left.
    + unfold abort_all. by rewrite lookup_delete_None; right.
  - split; [|done]. by eapply Hset.
  - split; [|done]. by eapply Hset.
  - destruct (Hset _ _ _ _ (Sending rest) Hrel H) as [Hq Hrel']. split; [done|].
    unfold to_peer. rewrite filter_app, filter_cons, decide_False by done. by rewrite filter_nil, app_nil_r.
  - split; [|done]. by eapply Hset.
  - split; [|done]. destruct (Hset _ _ _ _ Handling Hrel H) as [Hq _].
    destruct Hrel as (Hb & Hp & Hf). split_and!; simpl; [done..|]. unfold forget.
    destruct (se_by_peer e !! peer0); [|done]. case_decide; by rewrite ?lookup_delete_ne, ?lookup_insert_ne.
Qed.

Lemma steps_released s0 evs s peer :
  steps s0 evs s -> Forall (fun ev => forall r, ev <> EvRequest peer r) evs ->
  released (ss_engine s0) peer ->
  released (ss_engine s) peer /\ to_peer peer (ss_outgoing s) = to_peer peer (ss_outgoing s0).
Proof.
  induction 1 as [s|s evs s1 ev s2 _ IH Hstep]; [done|]. intros [Hevs [Hev _]%Forall_cons]%Forall_app Hrel.
  destruct (IH Hevs Hrel) as [Hrel1 Hout]. destruct (step_released _ _ _ _ Hstep Hev Hrel1) as [? Hout'].
  split; [done|congruence].
Qed.

(** A departed peer: once [on_peer_disconnected] returns, the engine holds no
    session, no fragment and no forward of that peer, keeps every other peer's, and
    whatever then happens nothing is published to it until it sends a new request. *)
Theorem disconnect_releases_peer e w out rcv peer evs s :
  steps (mkState (on_peer_disconnected e peer) w out rcv) evs s ->
  Forall (fun ev => forall r, ev <> EvRequest peer r) evs ->
  released (ss_engine s) peer /\ to_peer peer (ss_outgoing s) = to_peer peer out /\
  forall q, q <> peer ->
    (forall id, se_active_bidi_sessions (on_peer_disconnected e peer) !! (q, id) = se_active_bidi_sessions e !! (q, id)) /\
    (forall id, se_pending_multi_message (on_peer_disconnected e peer) !! (q, id) = se_pending_multi_message e !! (q, id)) /\
    se_by_peer (on_peer_disconnected e peer) !! q = se_by_peer e !! q.
Proof.
  intros Hrun Hevs.
  destruct (steps_released _ _ _ peer Hrun Hevs (disconnect_released _ _)) as [Hrel Hout].
  split_and!; [done..|]. clear. intros q Hq. split_and!; simpl.
  - intros id. by apply keep_others.
  - intros id. by apply keep_others.
  - by apply lookup_delete_ne.
Qed.

(** *** Client-streaming calls *)

Fixpoint on_requests (e : ServerEngine) (reqs : list (string * RpcRequest))
    : ServerEngine * list (string * Forward) :=
  match reqs with
  | [] => (e, [])
  | (peer, r) :: reqs' =>
      let '(e1, sp) := on_request e peer r in
      let '(e2, sp') := on_requests e1 reqs' in (e2, sp ++ sp')
  end.

Definition of_key (k : session_key) (qr : string * RpcRequest) : Prop := (qr.1, rq_id qr.2) = k.

#[global] Instance of_key_dec k qr : Decision (of_key k qr).
Proof. unfold of_key. apply _. Defined.

(** The forwards that answer the call [k]. *)
Definition spawned_for (k : session_key) (sp : list (string * Forward)) : list Forward :=
  snd <$> filter (fun qf => (qf.1, or_request_id (fw_origin qf.2)) = k) sp.

Lemma spawned_for_app k sp sp' : spawned_for k (sp ++ sp') = spawned_for k sp ++ spawned_for k sp'.
Proof. unfold spawned_for. by rewrite filter_app, fmap_app. Qed.

Lemma spawned_for_singleton k q f :
  spawned_for k [(q, f)] = if decide ((q, or_request_id (fw_origin f)) = k) then [f] else [].
Proof. unfold spawned_for. rewrite filter_cons, filter_nil. simpl. by destruct (decide _). Qed.

Lemma on_request_transport e q r : se_transport (on_request e q r).1 = se_transport e.
Proof.
  unfold on_request, route_bidi_continuation, route_multi_message_continuation, open_bidi_session.
  destruct (se_active_bidi_sessions e !! _); simpl; [by destruct (rq_end_of_stream r)|].
  destruct (se_pending_multi_message e !! _); simpl; [by destruct (rq_end_of_stream r)|].
  by destruct (_ && _), (rq_end_of_stream r).
Qed.

(** A request of another call leaves the call [k] alone. *)
Lemma on_request_frame e q r k :
  ~ of_key k (q, r) ->
  se_active_bidi_sessions (on_request e q r).1 !! k = se_active_bidi_sessions e !! k /\
  se_pending_multi_message (on_request e q r).1 !! k = se_pending_multi_message e !! k /\
  spawned_for k (on_request e q r).2 = [].
Proof.
  intros Hk. unfold of_key in Hk. simpl in Hk. split_and!.
  3: { destruct (on_request_forwards e q r) as [[-> _]|(f & -> & _ & Hid & _)]; [done|].
       by rewrite spawned_for_singleton, Hid, decide_False. }
  all: unfold on_request, route_bidi_continuation, route_multi_message_continuation, open_bidi_session.
  all: destruct (se_active_bidi_sessions e !! (q, rq_id r)); simpl;
    [destruct (rq_end_of_stream r); simpl; by rewrite ?lookup_delete_ne|].
  all: destruct (se_pending_multi_message e !! (q, rq_id r)); simpl;
    [destruct (rq_end_of_stream r); simpl; by rewrite ?lookup_delete_ne, ?lookup_insert_ne|].
  all: destruct (_ && _), (rq_end_of_stream r); simpl; by rewrite ?lookup_insert_ne.
Qed.

Lemma on_requests_cons e q r reqs :
  on_requests e ((q, r) :: reqs) =
    ((on_requests (on_request e q r).1 reqs).1, (on_request e q r).2 ++ (on_requests (on_request e q r).1 reqs).2).
Proof. simpl. destruct (on_request e q r) as [e1 sp]. simpl. by destruct (on_requests e1 reqs). Qed.

Lemma no_requests_no_call e reqs k :
  filter (of_key k) reqs = [] ->
  se_active_bidi_sessions (on_requests e reqs).1 !! k = se_active_bidi_sessions e !! k /\
  se_pending_multi_message (on_requests e reqs).1 !! k = se_pending_multi_message e !! k /\
  spawned_for k (on_requests e reqs).2 = [].
Proof.
  revert e. induction reqs as [|[q r] reqs IH]; intros e; [done|]. rewrite filter_cons.
  case_decide as Hk; [done|]. intros Hf. rewrite on_requests_cons. simpl.
  destruct (on_request_frame e q r k Hk) as (Hb & Hp & Hs). destruct (IH (on_request e q r).1 Hf) as (-> & -> & Hs').
  by rewrite spawned_for_app, Hs, Hs', Hb, Hp.
Qed.

Lemma messages_transport e e' (rs : list RpcRequest) :
  se_transport e = se_transport e' -> to_rpc_message e <$> rs = to_rpc_message e' <$> rs.
Proof.
  intros Ht. apply list_fmap_ext. intros i r _. unfold to_rpc_message, metadata_of. by rewrite Ht.
Qed.

(** A collecting call: its fragments append, the terminal one dispatches them all. *)
Lemma collecting_call e reqs k entry middle last :
  se_active_bidi_sessions e !! k = None -> se_pending_multi_message e !! k = Some entry ->
  snd <$> filter (of_key k) reqs = middle ++ [last] ->
  Forall (fun r => rq_end_of_stream r = false) middle -> rq_end_of_stream last = true ->
  se_active_bidi_sessions (on_requests e reqs).1 !! k = None /\
  se_pending_multi_message (on_requests e reqs).1 !! k = None /\
  spawned_for k (on_requests e reqs).2 =
    [mkForward (mkOrigin k.2 (rq_client_epoch last) (Some (mkCall (pm_service entry) (pm_method entry))))
       (JDispatch (pm_service entry) (pm_method entry)
          (pm_messages entry ++ (to_rpc_message e <$> middle ++ [last]))) Handling].
Proof.
  revert e entry middle. induction reqs as [|[q r] reqs IH]; intros e entry middle Hb Hp Hf Hmid Hlast.
  { by destruct middle. }
  rewrite on_requests_cons. simpl. rewrite spawned_for_app. rewrite filter_cons in Hf.
  pose proof (on_request_transport e q r) as Ht. case_decide as Hk.
  - unfold of_key in Hk. simpl in Hk. subst k. rewrite fmap_cons in Hf. cbn [snd] in Hf |- *.
    unfold on_request, route_bidi_continuation, route_multi_message_continuation in *.
    rewrite Hb, Hp in *. simpl in *. destruct middle as [|m middle]; simpl in Hf; injection Hf as -> Hf.
    + rewrite Hlast in *. simpl in *. apply fmap_nil_inv in Hf.
      match goal with |- context [on_requests ?e1 reqs] => destruct (no_requests_no_call e1 reqs _ Hf) as (-> & -> & ->) end.
      simpl. rewrite lookup_delete_eq, spawned_for_singleton, decide_True by done. done.
    + apply Forall_cons in Hmid as [-> Hmid]. simpl in *.
      edestruct IH as (-> & -> & ->); [..|exact Hf|exact Hmid|exact Hlast|];
        [exact Hb|apply lookup_insert_eq|]. simpl. by rewrite <- app_assoc.
  - destruct (on_request_frame e q r k Hk) as (Hb' & Hp' & ->). rewrite Hb in Hb'. rewrite Hp in Hp'.
    destruct (IH _ _ _ Hb' Hp' Hf Hmid Hlast) as (-> & -> & ->). simpl.
    by rewrite (messages_transport _ _ _ Ht).
Qed.

(** A client-streaming call is dispatched exactly once, with all its messages in
    the order they were sent and under the method its first fragment named, however
    the requests of other calls and peers interleave with it. *)
Theorem client_stream_dispatched_once e reqs peer first middle last :
  let k := (peer, rq_id first) in
  let service := from_option cm_service "" (rq_call first) in
  let method := from_option cm_method "" (rq_call first) in
  se_active_bidi_sessions e !! k = None -> se_pending_multi_message e !! k = None ->
  bool_decide (is_Some (rq_call first)) && svc_is_bidi_stream svc service method = false ->
  snd <$> filter (of_key k) reqs = first :: middle ++ [last] ->
  Forall (fun r => rq_end_of_stream r = false) (first :: middle) -> rq_end_of_stream last = true ->
  se_pending_multi_message (on_requests e reqs).1 !! k = None /\
  spawned_for k (on_requests e reqs).2 =
    [mkForward (mkOrigin (rq_id first) (rq_client_epoch last) (Some (mkCall service method)))
       (JDispatch service method (to_rpc_message e <$> first :: middle ++ [last])) Handling].
Proof.
  intros k service method. revert e. induction reqs as [|[q r] reqs IH]; intros e Hb Hp Hopen Hf Hall Hlast; [done|].
  rewrite on_requests_cons. simpl. rewrite spawned_for_app. rewrite filter_cons in Hf.
  pose proof (on_request_transport e q r) as Ht. case_decide as Hk.
  - unfold of_key in Hk. simpl in Hk. rewrite fmap_cons in Hf. cbn [snd] in Hf. injection Hf as -> Hf.
    assert (q = peer) as -> by (unfold k in Hk; congruence).
    apply Forall_cons in Hall as [Heos Hmid].
    unfold on_request, route_bidi_continuation, route_multi_message_continuation in *.
    fold k service method in Ht |- *. rewrite Hb, Hp in *. simpl in *. rewrite Hopen, Heos in *. simpl.
    edestruct (collecting_call (with_pending (<[k := mkMulti [to_rpc_message e first] service method]>
      (se_pending_multi_message e)) e) reqs k) as (_ & -> & ->);
      [exact Hb|apply lookup_insert_eq|exact Hf|exact Hmid|exact Hlast|]. done.
  - destruct (on_request_frame e q r k Hk) as (Hb' & Hp' & ->). rewrite Hb in Hb'. rewrite Hp in Hp'.
    destruct (IH _ Hb' Hp' Hopen Hf Hall Hlast) as (-> & Hs). split; [done|].
    rewrite (messages_transport _ _ _ Ht) in Hs. exact Hs.
Qed.

(** A call reopened under an id still in use is taken for a continuation: while
    the engine holds a session or fragments for [(peer, id)], a request that opens a
    new call (another connection epoch, another method) starts nothing. Its message
    is fed to the old session, or dispatched at its end under the old call's method. *)
Theorem reopened_call_is_absorbed e peer r :
  (forall channel, se_active_bidi_sessions e !! (peer, rq_id r) = Some channel ->
    (on_request e peer r).2 = [] /\
    se_inputs (on_request e peer r).1 !! channel =
      Some (default [] (se_inputs e !! channel) ++ [to_rpc_message e r])) /\
  (forall entry, se_active_bidi_sessions e !! (peer, rq_id r) = None ->
    se_pending_multi_message e !! (peer, rq_id r) = Some entry -> rq_end_of_stream r = true ->
    (on_request e peer r).2 =
      [(peer, mkForward (mkOrigin (rq_id r) (rq_client_epoch r)
                (Some (mkCall (pm_service entry) (pm_method entry))))
         (JDispatch (pm_service entry) (pm_method entry) (pm_messages entry ++ [to_rpc_message e r])) Handling)]).
Proof.
  unfold on_request, route_bidi_continuation, route_multi_message_continuation. split.
  - intros channel ->. simpl. split; [done|]. destruct (rq_end_of_stream r); apply lookup_insert_eq.
  - intros entry -> -> ->. done.
Qed.
End server.

(** ** A call end to end *)

(** What the responses of an answer come to at a stream's caller. *)
Fixpoint complete_items (chunks : list bytes) : list item :=
  match chunks with
  | [] => []
  | [b] => if decide (b = []) then [] else [inr b]
  | b :: chunks' => inr b :: complete_items chunks'
  end.

Fixpoint items_to_error (rx : list item) : list item :=
  match rx with
  | [] => []
  | inr b :: rx' => inr b :: items_to_error rx'
  | inl status :: _ => [inl status]
  end.

Definition stream_items (result : Status + ResponseBody) : list item :=
  match result with
  | inl status => [inl status]
  | inr (Complete chunks) => complete_items chunks
  | inr (Streaming rx) => items_to_error rx
  end.

(** And at a unary caller: the first item, or the empty reply of an empty stream. *)
Definition unary_items (result : Status + ResponseBody) : list item :=
  match result with
  | inl status => [inl status]
  | inr (Complete chunks) => take 1 (inr <$> chunks)
  | inr (Streaming rx) => [default (inr []) (head rx)]
  end.

Lemma error_response_result origin status : response_result (error_response origin status) = inl status.
Proof. destruct status. unfold response_result. simpl. by rewrite Code_roundtrip. Qed.

Lemma complete_view origin chunks : stream_view (complete_responses origin chunks) = complete_items chunks.
Proof.
  induction chunks as [|b [|b' chunks] IH]; [done| |].
  - simpl. unfold is_pure_closing_signal. simpl.
    destruct (decide (b = [])) as [->|]; [done|]. by rewrite bool_decide_eq_false_2.
  - change (complete_items _) with (inr b :: complete_items (b' :: chunks)). by rewrite <- IH.
Qed.

Lemma streaming_view origin rx : stream_view (streaming_responses origin rx) = items_to_error rx.
Proof.
  induction rx as [|[status|b] rx IH]; simpl; [done| |].
  - by rewrite error_response_result.
  - by rewrite <- IH.
Qed.

Lemma answer_view origin result : stream_view (answer_responses origin result) = stream_items result.
Proof.
  destruct result as [status|[chunks|rx]].
  - simpl. by rewrite error_response_result.
  - apply complete_view.
  - apply streaming_view.
Qed.

Lemma answer_terminates origin result :
  result <> inr (Complete []) <-> Exists (fun r => is_terminal r = true) (answer_responses origin result).
Proof.
  destruct result as [status|[chunks|rx]]; simpl.
  - split; [by constructor|done].
  - destruct chunks as [|b chunks].
    { split; [done|]. intros H. inversion H. }
    split; [intros _|done]. revert b. induction chunks as [|b' chunks IH]; intros b; [by constructor|].
    apply Exists_cons_tl, IH.
  - split; [intros _|done]. induction rx as [|[status|b] rx IH]; simpl; [by constructor..|by apply Exists_cons_tl].
Qed.

Lemma answer_first origin result :
  take 1 (response_result <$> answer_responses origin result) = unary_items result.
Proof.
  destruct result as [status|[[|b [|b' chunks]]|[|[status|b] rx]]]; try done.
  - simpl. by rewrite error_response_result.
  - simpl. by rewrite error_response_result.
Qed.

(** What the handler answered, up to its first error. *)
Definition handler_items (result : Status + ResponseBody) : list item :=
  match result with
  | inl status => [inl status]
  | inr (Complete chunks) => inr <$> chunks
  | inr (Streaming rx) => items_to_error rx
  end.

(** The answer is not a complete body that has no chunk or whose last chunk is empty. *)
Definition ends_with_data (result : Status + ResponseBody) : Prop :=
  match result with
  | inr (Complete chunks) => exists b, last chunks = Some b /\ b <> []
  | _ => True
  end.

Lemma complete_items_snoc chunks b :
  complete_items (chunks ++ [b]) = (inr <$> chunks) ++ (if decide (b = []) then [] else [inr b]).
Proof.
  induction chunks as [|c chunks IH]; [done|]. rewrite fmap_cons. simpl in *. rewrite IH. by destruct chunks.
Qed.

Lemma stream_items_all result : ends_with_data result -> stream_items result = handler_items result /\ result <> inr (Complete []).
Proof.
  destruct result as [status|[chunks|rx]]; [done| |done]. simpl. intros (b & Hl & Hb).
  apply last_Some in Hl as [chunks' ->]. rewrite complete_items_snoc, decide_False, fmap_app by done.
  split; [done|]. by destruct chunks'.
Qed.

(** C12. Calls end to end over the engines, when the responses that answer a call are those
    its forward published, among whatever other traffic. A stream whose answer is an error,
    a stream, or a complete body that ends with data: its receiver yields exactly the
    handler's items up to the first error, with the status the handler returned, and ends.
    Of a complete body whose last chunk is empty it yields all chunks but that one, and
    ends; a complete body without a chunk yields nothing and leaves the stream open. A
    unary call resolves with the handler's first item, with no bytes for a stream that has
    none, and not at all for a complete body without a chunk. *)
Theorem rpc_call_end_to_end e id service method payload h result rs :
  let call := mkCall service method in
  let origin := origin_of (build_request e id service method payload true) in
  let after := on_responses e rs in
  client_ok e ->
  filter (answers (ce_client_epoch e) id call) rs = answer_responses origin result ->
  (ce_pending_streams e !! id = Some (mkPending call h) ->
    (ends_with_data result -> sent_to h after.2 = handler_items result /\ ce_pending_streams after.1 !! id = None) /\
    (forall chunks, result = inr (Complete (chunks ++ [[]])) ->
       sent_to h after.2 = inr <$> chunks /\ ce_pending_streams after.1 !! id = None) /\
    (result = inr (Complete []) -> sent_to h after.2 = [] /\ is_Some (ce_pending_streams after.1 !! id))) /\
  (ce_pending_unary e !! id = Some (mkPending call h) ->
    sent_to h after.2 =
      match result with
      | inr (Complete []) => []
      | inr (Streaming []) => [inr []]
      | _ => take 1 (handler_items result)
      end).
Proof.
  intros call origin after Hok Hrs. split; intros Hp.
  - destruct (stream_delivery e id call h rs Hok Hp) as [E Hend]. fold after in E, Hend. rewrite Hrs in E, Hend.
    rewrite answer_view in E. rewrite <- answer_terminates in Hend. rewrite E. split_and!.
    + intros [-> Hne]%stream_items_all. split; [done|by apply Hend].
    + intros chunks ->. cbn [stream_items]. rewrite complete_items_snoc, decide_True, app_nil_r by done.
      split; [done|]. apply Hend. by destruct chunks.
    + intros ->. split; [done|]. apply not_eq_None_Some. intros Hn%Hend. by apply Hn.
  - unfold after. rewrite (unary_delivery e id call h rs Hok Hp), Hrs, answer_first.
    by destruct result as [status|[[|b chunks]|[|[status|b] rx]]].
Qed.

(** ** Witnesses *)

Definition demo_service : RpcService nat :=
  unary_service (fun _ _ m w => (ServerStream (inr [inr (msg_payload m); inl (status_not_found "gone")]), S w)).

Definition demo_request (id : Z) (b : bytes) (eos : bool) : RpcRequest :=
  mkRpcRequest id b (Some (mkCall "s" "stream")) eos false (Some "me") 7.

(** One request, its handler, one publication. *)
Definition demo_run_state : server_state :=
  mkState (set_progress (set_progress (on_request demo_service (new_server UnixSocket) "p" (demo_request 1 [x61] true)).1
      "p" 0 (mkForward (origin_of (demo_request 1 [x61] true))
               (JDispatch "s" "stream" [mkRpcMessage [x61] (mkMetadata UnixSocket (Some "me"))]) Handling)
      (Sending (answer_responses (origin_of (demo_request 1 [x61] true))
                  (inr (Streaming [inr [x61]; inl (status_not_found "gone")])))))
      "p" 0 (mkForward (origin_of (demo_request 1 [x61] true))
               (JDispatch "s" "stream" [mkRpcMessage [x61] (mkMetadata UnixSocket (Some "me"))])
               (Sending (answer_responses (origin_of (demo_request 1 [x61] true))
                  (inr (Streaming [inr [x61]; inl (status_not_found "gone")])))))
      (Sending [error_response (origin_of (demo_request 1 [x61] true)) (status_not_found "gone")]))
    1%nat ([] ++ [("p", response_message (origin_of (demo_request 1 [x61] true)) [x61] false)])
    ([] ++ [("p", demo_request 1 [x61] true)]).

Lemma demo_run :
  steps demo_service (initial UnixSocket 0%nat)
    [EvRequest "p" (demo_request 1 [x61] true); EvForward "p" 0; EvForward "p" 0] demo_run_state.
Proof.
  eapply (steps_snoc demo_service _ [EvRequest _ _; EvForward "p" 0] _ (EvForward "p" 0)).
  - eapply (steps_snoc demo_service _ [EvRequest _ _] _ (EvForward "p" 0)).
    + eapply (steps_snoc demo_service _ []); constructor.
    + eapply StepHandled; reflexivity.
  - eapply StepPublish; reflexivity.
Qed.

Lemma server_run_sound_witness : attributed demo_run_state /\ stamped UnixSocket (ss_engine demo_run_state).
Proof. exact (server_run_sound demo_service UnixSocket 0%nat _ _ demo_run). Defined.

Lemma disconnect_releases_peer_witness :
  released (on_peer_disconnected (ss_engine demo_run_state) "p") "p".
Proof.
  exact (proj1 (disconnect_releases_peer demo_service (ss_engine demo_run_state) 1%nat [] [] "p" []
    (mkState (on_peer_disconnected (ss_engine demo_run_state) "p") 1%nat [] [])
    (steps_nil demo_service _) (Forall_nil_2 _))).
Defined.

Lemma client_stream_dispatched_once_witness :
  let reqs := [("p", demo_request 1 [x61] false); ("q", demo_request 1 [x7a] true); ("p", demo_request 1 [x62] true)] in
  spawned_for ("p", 1%Z) (on_requests demo_service (new_server Http) reqs).2 =
    [mkForward (mkOrigin 1 7 (Some (mkCall "s" "stream")))
       (JDispatch "s" "stream" [mkRpcMessage [x61] (mkMetadata Http (Some "me"));
                                mkRpcMessage [x62] (mkMetadata Http (Some "me"))]) Handling].
Proof.
  refine (proj2 (client_stream_dispatched_once demo_service (new_server Http) _ "p"
    (demo_request 1 [x61] false) [] (demo_request 1 [x62] true) _ _ _ _ _ _)); try reflexivity.
  by repeat constructor.
Defined.

Lemma rpc_call_end_to_end_witness :
  sent_to 0 (on_responses demo_client
    [mkRpcResponse 2 [x7a] true None 7 None; mkRpcResponse 1 [x61] false None 7 (Some (mkCall "s" "stream"));
     mkRpcResponse 1 [] true None 7 (Some (mkCall "s" "stream"))]).2 = [inr [x61]].
Proof.
  refine (proj1 (proj1 (proj1 (rpc_call_end_to_end demo_client 1 "s" "stream" [] 0 (inr (Streaming [inr [x61]])) _
    demo_client_ok _) _) _)); [reflexivity|reflexivity|exact I].
Defined.
