(* ===== verification/BuildGraph.v ===== *)
(** * The build graph

    [src/packages/tddy-build/src/graph.rs] with the data of [manifest.rs],
    [error.rs] and [proto/]: assembly of the target graph, build order, cycle
    detection and the waves of actions that may run in parallel.

    A target's open configuration is a type [F] the handlers read: which members a
    group names and which target builds a tool's binary are the class
    [ConfigReader] ([serde_yaml] and the tool definition's parser), what a target
    lowers to is a parameter, and so is a glob pattern's match. The recursive visit
    takes fuel; [visit_fuel] shows that one unit per target and one more are enough. *)

From S2P Require Import Prelude Text.

Inductive BuildError :=
| BYaml (m : string)
| BManifest (m : string)
| BCycle (m : string)
| BUnknownTarget (m : string)
| BIo (m : string)
| BExec (m : string).

Record FileSet := mkFileSet { fs_include : list string; fs_exclude : list string; fs_root : string }.

Inductive OutputKind := KUnspecified | KFile | KDirectory.
Inductive ActionType := TUnspecified | TCommand | TCopy | TTool.

Record OutputDecl := mkOutput { out_path : string; out_kind : OutputKind }.

Record BuildAction := mkAction {
  ba_id : string; ba_description : string; ba_type : ActionType; ba_command : list string;
  ba_env : gmap string string; ba_inputs : list FileSet; ba_outputs : list OutputDecl;
  ba_tool_dep_ids : list string; ba_working_dir : string; ba_sandbox : bool }.

Section graph.
Context {F : Type}.

Record TargetConfig := mkConfig { cfg_type : string; cfg_fields : F }.

Record BuildTarget := mkTarget {
  bt_id : string; bt_name : string; bt_deps : list string; bt_actions : list BuildAction;
  bt_config : option TargetConfig }.

Record BuildManifest := mkManifest { bm_schema_version : N; bm_targets : list BuildTarget }.

(** What the graph reads of a configuration. *)
Class ConfigReader := {
  group_member_ids : F -> BuildError + list string;
  (** the target that builds an inline tool definition's binary *)
  tool_binary_target : string -> F -> option string;
}.

Context `{!ConfigReader}.

Definition GROUP : string := "group".
Definition TOOL : string := "tool".

Record BuildGraph := mkGraph { bg_targets : gmap string BuildTarget; bg_order : list string }.

Definition tool_producer (target : BuildTarget) : option string :=
  config ← bt_config target;
  if decide (cfg_type config = TOOL) then tool_binary_target (bt_id target) (cfg_fields config) else None.

Local Open Scope io_scope.

Definition target_edges (target : BuildTarget) : res BuildError (list string) :=
  let? members :=
    match bt_config target with
    | Some config =>
        if decide (cfg_type config = GROUP)
        then match group_member_ids (cfg_fields config) with inr members => Ok members | inl e => Err e end
        else Ok []
    | None => Ok []
    end in
  Ok (bt_deps target ++ members ++ (bt_actions target ≫= ba_tool_dep_ids) ++ option_list (tool_producer target)).

(** [visit_build_order] on [(visited, on_stack)]; [None] only without fuel. *)
Fixpoint visit_build_order (g : BuildGraph) (fuel : nat) (id : string) (visited on_stack : list string)
    : option (res BuildError (list string)) :=
  match fuel with
  | O => None
  | S fuel' =>
      if decide (id ∈ visited) then Some (Ok visited) else
      match stack_from id on_stack with
      | Some cycle => Some (Err (BCycle ("cycle through target " +:+ join " → " (cycle ++ [id]))))
      | None =>
          let finish (v : option (res BuildError (list string))) :=
            match v with
            | Some (Ok visited') => Some (Ok (visited' ++ [id]))
            | other => other
            end in
          match bg_targets g !! id with
          | None => finish (Some (Ok visited))
          | Some target =>
              match target_edges target with
              | Ok deps =>
                  finish ((fix go deps visited :=
                    match deps with
                    | [] => Some (Ok visited)
                    | dep :: deps' =>
                        match visit_build_order g fuel' dep visited (on_stack ++ [id]) with
                        | Some (Ok visited') => go deps' visited'
                        | other => other
                        end
                    end) deps visited)
              | Err e => Some (Err e)
              | Panic => Some Panic
              end
          end
      end
  end.

(** The loop over a target's edges. *)
Fixpoint visit_all (g : BuildGraph) (fuel : nat) (deps visited on_stack : list string)
    : option (res BuildError (list string)) :=
  match deps with
  | [] => Some (Ok visited)
  | dep :: deps' =>
      match visit_build_order g fuel dep visited on_stack with
      | Some (Ok visited') => visit_all g fuel deps' visited' on_stack
      | other => other
      end
  end.

Definition visit_enough (g : BuildGraph) : nat := S (size (bg_targets g)).

(** Fuel never runs out ([visit_fuel]). *)
Definition run_visit (g : BuildGraph) (id : string) : res BuildError (list string) :=
  default Panic (visit_build_order g (visit_enough g) id [] []).

Definition build_order (g : BuildGraph) (target_id : string) : res BuildError (list string) :=
  match bg_targets g !! target_id with
  | None => Err (BUnknownTarget target_id)
  | Some _ => run_visit g target_id
  end.

Fixpoint check_target_cycles (g : BuildGraph) (ids : list string) : res BuildError () :=
  match ids with
  | [] => Ok ()
  | id :: ids' => let? _ := run_visit g id in check_target_cycles g ids'
  end.

Fixpoint add_targets (targets : list BuildTarget) (g : BuildGraph) : res BuildError BuildGraph :=
  match targets with
  | [] => Ok g
  | target :: rest =>
      match bg_targets g !! bt_id target with
      | Some _ => Err (BManifest ("duplicate target id: " +:+ bt_id target))
      | None => add_targets rest (mkGraph (<[bt_id target := target]> (bg_targets g)) (bg_order g ++ [bt_id target]))
      end
  end.

Definition from_manifests (manifests : list BuildManifest) : res BuildError BuildGraph :=
  let? g := add_targets (manifests ≫= bm_targets) (mkGraph ∅ []) in
  let? _ := check_target_cycles g (bg_order g) in
  Ok g.

(** ** The edges as a relation *)

Definition depends (g : BuildGraph) (x y : string) : Prop :=
  exists t deps, bg_targets g !! x = Some t /\ target_edges t = Ok deps /\ y ∈ deps.

Definition unreadable (g : BuildGraph) (x : string) (e : BuildError) : Prop :=
  exists t, bg_targets g !! x = Some t /\ target_edges t = Err e.

Lemma target_edges_no_panic t : target_edges t <> Panic.
Proof.
  unfold target_edges. destruct (bt_config t) as [c|]; [|done].
  case_decide; [|done]. by destruct (group_member_ids (cfg_fields c)).
Qed.

(** One step of the visit, its loop named. *)
Lemma visit_unfold g fuel id visited on_stack :
  visit_build_order g (S fuel) id visited on_stack =
    if decide (id ∈ visited) then Some (Ok visited) else
    match stack_from id on_stack with
    | Some cycle => Some (Err (BCycle ("cycle through target " +:+ join " → " (cycle ++ [id]))))
    | None =>
        match bg_targets g !! id with
        | None => Some (Ok (visited ++ [id]))
        | Some target =>
            match target_edges target with
            | Ok deps =>
                match visit_all g fuel deps visited (on_stack ++ [id]) with
                | Some (Ok visited') => Some (Ok (visited' ++ [id]))
                | other => other
                end
            | Err e => Some (Err e)
            | Panic => Some Panic
            end
        end
    end.
Proof.
  cbn [visit_build_order]. case_decide; [done|]. destruct (stack_from id on_stack); [done|].
  destruct (bg_targets g !! id) as [t|]; [|done]. destruct (target_edges t) as [deps| |]; [|done..].
  enough (forall v, (fix go deps visited :=
    match deps with
    | [] => Some (Ok visited)
    | dep :: deps' =>
        match visit_build_order g fuel dep visited (on_stack ++ [id]) with
        | Some (Ok visited') => go deps' visited'
        | other => other
        end
    end) deps v = visit_all g fuel deps v (on_stack ++ [id])) as ->
    by (by destruct (visit_all g fuel deps visited (on_stack ++ [id])) as [[| |]|]).
  induction deps as [|dep deps IH]; intros v; simpl; [done|].
  destruct (visit_build_order g fuel dep v (on_stack ++ [id])) as [[v'| |]|]; [apply IH|done..].
Qed.

(** What went wrong somewhere at or below the nodes [P]. *)
Definition blamed (g : BuildGraph) (P : string -> Prop) (e : BuildError) : Prop :=
  exists id x, P id /\ rtc (depends g) id x /\
    ((tc (depends g) x x /\ exists m, e = BCycle m) \/ unreadable g x e).

(** A visit's outcome: the nodes added are reachable and not on the stack. *)
Definition visit_post (g : BuildGraph) (P : string -> Prop) (visited on_stack : list string)
    (r : res BuildError (list string)) : Prop :=
  match r with
  | Ok visited' => exists added, visited' = visited ++ added /\ NoDup visited' /\ deps_first (depends g) visited' /\
      (forall id, P id -> id ∈ visited') /\
      (forall x, x ∈ added -> x ∉ on_stack /\ exists id, P id /\ rtc (depends g) id x)
  | Err e => blamed g P e
  | Panic => False
  end.

Definition on_path (g : BuildGraph) (on_stack : list string) (id : string) : Prop :=
  forall x, x ∈ on_stack -> tc (depends g) x id.

Lemma visit_all_post g fuel deps visited on_stack r :
  (forall id v r, id ∈ deps -> NoDup v -> deps_first (depends g) v ->
    visit_build_order g fuel id v on_stack = Some r -> visit_post g (eq id) v on_stack r) ->
  NoDup visited -> deps_first (depends g) visited ->
  visit_all g fuel deps visited on_stack = Some r ->
  visit_post g (fun id => id ∈ deps) visited on_stack r.
Proof.
  intros Hvisit. revert visited. induction deps as [|dep deps IH]; intros visited Hnd Hdf; simpl.
  { intros [= <-]. exists []. rewrite app_nil_r. split_and!; [done..|set_solver|set_solver]. }
  destruct (visit_build_order g fuel dep visited on_stack) as [r1|] eqn:Hv; [|done].
  pose proof (Hvisit dep visited r1 ltac:(left) Hnd Hdf Hv) as Hp. destruct r1 as [v1|e|]; simpl in Hp.
  - destruct Hp as (a1 & -> & Hnd1 & Hdf1 & Hin1 & Hr1). intros Hall.
    specialize (IH ltac:(intros; eapply Hvisit; [by right|done..]) _ Hnd1 Hdf1 Hall).
    destruct r as [v2|e|]; simpl in *; [|destruct IH as (id & x & Hid & Hx); exists id, x; set_solver|done].
    destruct IH as (a2 & -> & Hnd2 & Hdf2 & Hin2 & Hr2). exists (a1 ++ a2).
    rewrite app_assoc. split_and!; [done..| |].
    + intros id [->|Hid]%elem_of_cons; [|by apply Hin2]. apply elem_of_app. left. by apply Hin1.
    + intros x [Hx|Hx]%elem_of_app; [|set_solver].
      destruct (Hr1 x Hx) as (Hns & id & <- & Hreach). split; [done|]. exists dep. split; [by left|done].
  - intros [= <-]. destruct Hp as (id & x & <- & Hx). exists dep, x. split; [by left|done].
  - done.
Qed.

Lemma visit_ok g fuel id visited on_stack r :
  NoDup visited -> deps_first (depends g) visited -> on_path g on_stack id ->
  visit_build_order g fuel id visited on_stack = Some r -> visit_post g (eq id) visited on_stack r.
Proof.
  revert id visited on_stack r. induction fuel as [|fuel IH]; intros id visited on_stack r Hnd Hdf Hpath; [done|].
  rewrite visit_unfold. case_decide as Hin.
  { intros [= <-]. exists []. rewrite app_nil_r. split_and!; [done..|naive_solver|set_solver]. }
  destruct (stack_from id on_stack) as [cycle|] eqn:Hst.
  { intros [= <-]. exists id, id. split_and!; [done|done|]. left.
    split; [apply Hpath, stack_from_elem; by eexists|by eexists]. }
  assert (id ∉ on_stack) as Hns by (rewrite <- stack_from_elem, Hst; by intros []).
  destruct (bg_targets g !! id) as [t|] eqn:Ht.
  2: { intros [= <-]. exists [id]. split_and!; [done| | | |].
       - apply NoDup_app. split_and!; [done|set_solver|apply NoDup_singleton].
       - apply deps_first_snoc; [done|]. intros y (t & deps & Ht' & _). congruence.
       - intros ? <-. set_solver.
       - intros x Hx%list_elem_of_singleton. subst. split; [done|]. by exists id. }
  pose proof (target_edges_no_panic t) as Hnp.
  destruct (target_edges t) as [deps|e|] eqn:He; [| |done].
  2: { intros [= <-]. exists id, id. split_and!; [done..|]. right. by exists t. }
  destruct (visit_all g fuel deps visited (on_stack ++ [id])) as [r1|] eqn:Hall; [|done].
  assert (forall dep, dep ∈ deps -> depends g id dep) as Hdep by (intros; by exists t, deps).
  apply visit_all_post in Hall; [|clear Hall r1..|done|done].
  2: { intros dep v r1 Hd Hnd' Hdf' Hv. eapply IH; [done..| |exact Hv].
       intros x [Hx|Hx%list_elem_of_singleton]%elem_of_app; [|subst; by apply tc_once, Hdep].
       eapply tc_r; [by apply Hpath|by apply Hdep]. }
  destruct r1 as [v1|e|]; simpl in Hall; [|intros [= <-]|done].
  2: { destruct Hall as (dep & x & Hd & Hr & Hx). exists id, x. split_and!; [done|eapply rtc_l; [exact (Hdep _ Hd)|done]|done]. }
  destruct Hall as (a & -> & Hnd1 & Hdf1 & Hin1 & Hr1). intros [= <-].
  exists (a ++ [id]). rewrite app_assoc. split_and!; [done| | | |].
  - apply NoDup_app. split_and!; [done| |apply NoDup_singleton]. intros x Hx ->%list_elem_of_singleton.
    apply elem_of_app in Hx as [?|Hx]; [done|]. destruct (Hr1 _ Hx) as [Hno _]. set_solver.
  - apply deps_first_snoc; [done|]. intros y (t' & deps' & Ht' & He' & Hy). rewrite Ht in Ht'. injection Ht' as <-. rewrite He in He'. injection He' as <-. exact (Hin1 _ Hy).
  - intros ? <-. set_solver.
  - intros x [Hx|Hx%list_elem_of_singleton]%elem_of_app.
    + destruct (Hr1 _ Hx) as (Hno & dep & Hd & Hreach). split; [set_solver|]. exists id.
      split; [done|]. eapply rtc_l; [exact (Hdep _ Hd)|done].
    + subst. split; [done|]. by exists id.
Qed.

(** ** Fuel *)

Lemma visit_all_fuel g fuel deps visited on_stack :
  (forall dep v, visit_build_order g fuel dep v on_stack <> None) ->
  visit_all g fuel deps visited on_stack <> None.
Proof.
  intros Hv. revert visited. induction deps as [|dep deps IH]; intros visited; simpl; [done|].
  specialize (Hv dep visited). destruct (visit_build_order g fuel dep visited on_stack) as [[]|]; [apply IH|done..].
Qed.

Lemma visit_fuel g fuel id visited on_stack :
  NoDup on_stack -> (forall x, x ∈ on_stack -> is_Some (bg_targets g !! x)) ->
  size (bg_targets g) < fuel + length on_stack ->
  visit_build_order g fuel id visited on_stack <> None.
Proof.
  revert id visited on_stack. induction fuel as [|fuel IH]; intros id visited s Hnd Hin Hlt.
  - exfalso. assert (size (list_to_set s : gset string) <= size (dom (bg_targets g))) as Hle.
    { apply subseteq_size. intros x. rewrite elem_of_list_to_set. intros ?%Hin. by apply elem_of_dom. }
    rewrite size_list_to_set, size_dom in Hle by done. simpl in Hlt. lia.
  - rewrite visit_unfold. case_decide; [done|]. destruct (stack_from id s) eqn:Hst; [done|].
    destruct (bg_targets g !! id) as [t|] eqn:Ht; [|done].
    destruct (target_edges t) as [deps| |]; [|done..].
    assert (visit_all g fuel deps visited (s ++ [id]) <> None) as Hall.
    { apply visit_all_fuel. intros dep v. apply IH.
      - apply NoDup_app. split_and!; [done| |apply NoDup_singleton]. intros x Hx ->%list_elem_of_singleton.
        apply stack_from_elem in Hx as [? ?]. congruence.
      - intros x [Hx|Hx%list_elem_of_singleton]%elem_of_app; [by apply Hin|subst; by eexists].
      - rewrite length_app. simpl. lia. }
    by destruct (visit_all g fuel deps visited (s ++ [id])) as [[]|].
Qed.

(** ** Correctness of the order *)

Lemma run_visit_post g id :
  match run_visit g id with
  | Ok l => NoDup l /\ deps_first (depends g) l /\ last l = Some id /\ (forall x, x ∈ l <-> rtc (depends g) id x)
  | Err e => blamed g (eq id) e
  | Panic => False
  end.
Proof.
  unfold run_visit, visit_enough.
  destruct (visit_build_order g (S (size (bg_targets g))) id [] []) as [r|] eqn:Hv; simpl.
  2: { exfalso. revert Hv. apply visit_fuel; [constructor|set_solver|simpl; lia]. }
  assert (deps_first (depends g) []) as Hd0 by (intros l1 x l2 Heq; by destruct l1).
  pose proof (visit_ok g _ id [] [] r (NoDup_nil_2) Hd0 ltac:(intros x Hx; set_solver) Hv) as Hp.
  destruct r as [l|e|]; [|done..]. destruct Hp as (a & -> & Hnd & Hdf & Hin & Hr). cbn [app] in *.
  split_and!; [done..| |].
  - rewrite visit_unfold in Hv. rewrite decide_False in Hv by set_solver. simpl in Hv.
    destruct (bg_targets g !! id) as [t|]; [|injection Hv as <-; done].
    destruct (target_edges t) as [deps| |]; [|done..].
    destruct (visit_all g _ deps [] [id]) as [[]|]; simplify_eq. by rewrite last_snoc.
  - intros x. split; [intros Hx; by destruct (Hr x Hx) as (_ & ? & <- & ?)|].
    intros Hreach. assert (id ∈ a) as Hid by by apply Hin.
    clear -Hdf Hid Hreach. induction Hreach as [|x y z Hxy _ IH]; [done|]. apply IH.
    by eapply deps_first_closed.
Qed.

(** Build order: for a known target the order lists, once each, exactly the
    targets it depends on however indirectly, dependencies first and the target
    last; a refusal names an unknown target, or is due to a cycle or an unreadable
    configuration among those dependencies. The visit always ends. *)
Theorem build_order_correct g id :
  match build_order g id with
  | Ok l => is_Some (bg_targets g !! id) /\ NoDup l /\ deps_first (depends g) l /\ last l = Some id /\
      (forall x, x ∈ l <-> rtc (depends g) id x)
  | Err e => (bg_targets g !! id = None /\ e = BUnknownTarget id) \/ blamed g (eq id) e
  | Panic => False
  end.
Proof.
  unfold build_order. destruct (bg_targets g !! id) as [t|] eqn:Ht; [|by left].
  pose proof (run_visit_post g id) as Hp. destruct (run_visit g id); [|by right|done].
  split; [by eexists|done].
Qed.

(** ** Assembly *)

Lemma add_targets_ok ts g :
  NoDup (bg_order g) -> (forall x, is_Some (bg_targets g !! x) <-> x ∈ bg_order g) ->
  match add_targets ts g with
  | Ok g' => bg_order g' = bg_order g ++ (bt_id <$> ts) /\ NoDup (bg_order g') /\
      (forall x, is_Some (bg_targets g' !! x) <-> x ∈ bg_order g') /\
      (forall t, t ∈ ts -> bg_targets g' !! bt_id t = Some t) /\ bg_targets g ⊆ bg_targets g'
  | Err e => ~ NoDup (bg_order g ++ (bt_id <$> ts)) /\ exists id, e = BManifest ("duplicate target id: " +:+ id)
  | Panic => False
  end.
Proof.
  revert g. induction ts as [|t ts IH]; intros g Hnd Hdom; simpl.
  { rewrite app_nil_r. split_and!; [done..|set_solver|done]. }
  destruct (bg_targets g !! bt_id t) as [t'|] eqn:Ht.
  { assert (bt_id t ∈ bg_order g) as Hin by (apply Hdom; by eexists). split; [|by eexists].
    intros (_ & Hdisj & _)%NoDup_app. apply (Hdisj _ Hin). left. }
  assert (bt_id t ∉ bg_order g) as Hnin by (rewrite <- Hdom, Ht; by intros []).
  specialize (IH (mkGraph (<[bt_id t:=t]> (bg_targets g)) (bg_order g ++ [bt_id t]))). simpl in IH.
  rewrite <- app_assoc in IH. simpl in IH.
  assert (bg_targets g ⊆ <[bt_id t:=t]> (bg_targets g)) as Hsub by by apply insert_subseteq.
  destruct (add_targets ts _) as [g'|e|]; [|apply IH..].
  - destruct IH as (Ho & Hnd' & Hdom' & Hts & Hsub').
    + apply NoDup_app. split_and!; [done|set_solver|apply NoDup_singleton].
    + intros x. rewrite elem_of_app, list_elem_of_singleton, <- Hdom, lookup_insert_is_Some. naive_solver.
    + split_and!; [done..| |by etrans]. intros t0 [->|Hin]%elem_of_cons; [|by apply Hts].
      eapply lookup_weaken; [|exact Hsub']. apply lookup_insert_eq.
  - apply NoDup_app. split_and!; [done|set_solver|apply NoDup_singleton].
  - intros x. rewrite elem_of_app, list_elem_of_singleton, <- Hdom, lookup_insert_is_Some. naive_solver.
  - apply NoDup_app. split_and!; [done|set_solver|apply NoDup_singleton].
  - intros x. rewrite elem_of_app, list_elem_of_singleton, <- Hdom, lookup_insert_is_Some. naive_solver.
Qed.

Lemma check_target_cycles_ok g ids :
  match check_target_cycles g ids with
  | Ok _ => forall id, id ∈ ids -> exists l, run_visit g id = Ok l
  | Err e => blamed g (fun id => id ∈ ids) e
  | Panic => False
  end.
Proof.
  induction ids as [|id ids IH]; simpl; [set_solver|].
  pose proof (run_visit_post g id) as Hp. destruct (run_visit g id) as [l|e|] eqn:Hv; simpl; [| |done].
  - destruct (check_target_cycles g ids) as [|e|]; [|destruct IH as (x & y & ?); exists x, y; set_solver|done].
    intros id' [->|Hin]%elem_of_cons; [by eexists|by apply IH].
  - destruct Hp as (x & y & <- & ?). exists id, y. split; [left|done].
Qed.

(** Assembly: the graph holds every declared target under its id, in
    declaration order, is free of cycles, and every target of it has a build order;
    a refusal means a duplicate id, a cycle or an unreadable configuration. *)
Theorem from_manifests_correct manifests :
  let targets := manifests ≫= bm_targets in
  match from_manifests manifests with
  | Ok g => NoDup (bt_id <$> targets) /\ bg_order g = bt_id <$> targets /\
      (forall t, t ∈ targets -> bg_targets g !! bt_id t = Some t) /\
      (forall x, is_Some (bg_targets g !! x) -> x ∈ bt_id <$> targets) /\
      (forall x, ~ tc (depends g) x x) /\
      (forall t, t ∈ targets -> exists l, build_order g (bt_id t) = Ok l)
  | Err e => ~ NoDup (bt_id <$> targets) \/
      exists g, add_targets targets (mkGraph ∅ []) = Ok g /\ blamed g (fun id => id ∈ bt_id <$> targets) e
  | Panic => False
  end.
Proof.
  intros targets. unfold from_manifests. fold targets.
  pose proof (add_targets_ok targets (mkGraph ∅ []) NoDup_nil_2) as Hadd. simpl in Hadd.
  specialize (Hadd ltac:(intros x; rewrite lookup_empty; split; [by intros []|set_solver])).
  destruct (add_targets targets (mkGraph ∅ [])) as [g|e|] eqn:Hg; simpl; [|left; apply Hadd|done].
  destruct Hadd as (Ho & Hnd & Hdom & Hts & _).
  pose proof (check_target_cycles_ok g (bg_order g)) as Hc. rewrite Ho in *.
  destruct (check_target_cycles g (bt_id <$> targets)) as [|e|]; simpl; [|right; by exists g|done].
  split_and!; try done; [by intros; apply Hdom| |].
  - intros x Hcyc. assert (exists y, depends g x y) as [y (t & deps & Ht & _)].
    { inversion Hcyc; subst; eauto. }
    destruct (Hc x) as [l Hl]; [apply Hdom; by eexists|].
    pose proof (run_visit_post g x) as Hp. rewrite Hl in Hp. destruct Hp as (Hndl & Hdf & _ & Hreach).
    eapply (deps_first_acyclic (depends g)); [exact Hndl|exact Hdf| |exact Hcyc]. by apply Hreach.
  - intros t Ht. unfold build_order. rewrite (Hts _ Ht).
    apply Hc. apply list_elem_of_fmap. by exists t.
Qed.
End graph.
