(* ===== verification/BuildWaves.v ===== *)
(** * Waves of build actions

    The second half of [src/packages/tddy-build/src/graph.rs]: the edges between the
    actions of one run and Kahn's algorithm by waves. An index outside its vector and
    a subtraction below zero are panics; [glob::Pattern] is a parameter, a pattern's
    matcher or [None] when it does not parse. *)

From S2P Require Import Prelude BuildGraph.

(** ** Edges between actions *)

(** [trim_end_matches('/')]. *)
Fixpoint trim_end_slash (s : string) : string :=
  match s with
  | "" => ""
  | String a s' =>
      let r := trim_end_slash s' in
      if decide (a = "/"%char /\ r = "") then "" else String a r
  end.

Section overlap.
Context (pattern : string -> option (string -> bool)).

Definition glob_matches (root include candidate : string) : bool :=
  let patterns := include :: (if decide (root = "" \/ root = ".") then []
                              else [trim_end_slash root +:+ "/" +:+ include]) in
  existsb (fun p => match pattern p with
                    | Some matches => matches candidate
                    | None => bool_decide (p = candidate)
                    end) patterns.

Definition consumer_consumes (consumer : BuildAction) (output_path : string) : bool :=
  existsb (fun file_set =>
    existsb (fun include => glob_matches (fs_root file_set) include output_path) (fs_include file_set))
    (ba_inputs consumer).

Definition action_overlap_edges (actions : list BuildAction) : list (nat * nat) :=
  concat (imap (fun producer_idx producer =>
    ba_outputs producer ≫= fun output =>
      concat (imap (fun consumer_idx consumer =>
        if decide (producer_idx = consumer_idx) then []
        else if consumer_consumes consumer (out_path output) then [(producer_idx, consumer_idx)] else [])
        actions)) actions).
End overlap.

(** ** Kahn's algorithm by waves *)

(** [v[i]] updated in place; [None] is the index panic. *)
Definition vec_update {A} (l : list A) (i : nat) (f : A -> A) : option (list A) :=
  x ← l !! i; Some (<[i := f x]> l).

Fixpoint kahn_init (edges : list (nat * nat)) (indegree : list nat) (adjacency : list (list nat))
    : option (list nat * list (list nat)) :=
  match edges with
  | [] => Some (indegree, adjacency)
  | (from, to) :: edges' =>
      adjacency' ← vec_update adjacency from (fun l => l ++ [to]);
      indegree' ← vec_update indegree to S;
      kahn_init edges' indegree' adjacency'
  end.

(** The inner loops over the neighbours of one wave. *)
Fixpoint relax (neighbors : list nat) (indegree next : list nat) : option (list nat * list nat) :=
  match neighbors with
  | [] => Some (indegree, next)
  | neighbor :: rest =>
      d ← indegree !! neighbor;
      if decide (d = 0) then None
      else relax rest (<[neighbor := d - 1]> indegree) (if decide (d - 1 = 0) then next ++ [neighbor] else next)
  end.

Definition sort_unstable (l : list nat) : list nat := sort_by (fun x y => bool_decide (x <= y)) l.

Fixpoint kahn_loop (fuel : nat) (adjacency : list (list nat)) (current indegree : list nat)
    (waves : list (list nat)) (consumed : nat) : option (list (list nat) * nat) :=
  match current with
  | [] => Some (waves, consumed)
  | _ =>
      match fuel with
      | O => None
      | S fuel' =>
          neighbors ← mapM (fun node => adjacency !! node) current;
          '(indegree', next) ← relax (concat neighbors) indegree [];
          kahn_loop fuel' adjacency (sort_unstable next) indegree' (waves ++ [current]) (consumed + length current)
      end
  end.

Definition kahn_waves (n : nat) (edges : list (nat * nat)) : res BuildError (list (list nat)) :=
  match
    '(indegree, adjacency) ← kahn_init edges (replicate n 0) (replicate n []);
    kahn_loop n adjacency (sort_unstable (filter (fun i => indegree !! i = Some 0) (seq 0 n))) indegree [] 0
  with
  | None => Panic
  | Some (waves, consumed) =>
      if decide (consumed = n) then Ok waves else Err (BCycle "action dependency cycle detected")
  end.

Definition action_waves (pattern : string -> option (string -> bool)) (actions : list BuildAction)
    : res BuildError (list (list nat)) :=
  kahn_waves (length actions) (action_overlap_edges pattern actions).

(** ** Counting edges *)

Definition outs (E : list (nat * nat)) (a : nat) : list nat := snd <$> filter (fun e => e.1 = a) E.

(** The edges into [c] from outside [D]. *)
Definition waiting (E : list (nat * nat)) (D : list nat) (c : nat) : nat :=
  length (filter (fun e => e.2 = c /\ e.1 ∉ D) E).

Definition count (c : nat) (l : list nat) : nat := length (filter (fun x => x = c) l).

Lemma count_cons c x l : count c (x :: l) = (if decide (x = c) then 1 else 0) + count c l.
Proof. unfold count. rewrite filter_cons. by destruct (decide (x = c)). Qed.

Lemma count_app c l l' : count c (l ++ l') = count c l + count c l'.
Proof. unfold count. by rewrite filter_app, length_app. Qed.

Lemma count_elem c l : count c l <> 0 <-> c ∈ l.
Proof.
  induction l as [|x l IH]; [unfold count; simpl; set_solver|].
  rewrite count_cons, elem_of_cons. case_decide; naive_solver lia.
Qed.

Lemma waiting_zero E D c : waiting E D c = 0 <-> forall a, (a, c) ∈ E -> a ∈ D.
Proof.
  unfold waiting. induction E as [|[a b] E IH]; [set_solver|].
  rewrite filter_cons. case_decide as Hd; simpl in *.
  - split; [done|]. intros H. destruct Hd as [-> Hn]. destruct Hn. apply H. left.
  - rewrite IH. split.
    + intros H a' [[= -> ->]|Hin]%elem_of_cons; [|by apply H]. destruct (decide (a ∈ D)); naive_solver.
    + intros H a' Hin. apply H. by right.
Qed.

Lemma waiting_snoc E D a c : a ∉ D -> waiting E D c = count c (outs E a) + waiting E (D ++ [a]) c.
Proof.
  intros Ha. unfold waiting, outs. induction E as [|[x y] E IH]; [done|]. rewrite !filter_cons. simpl.
  destruct (decide (x = a)) as [->|Hxa].
  - rewrite fmap_cons, count_cons. simpl. destruct (decide (y = c)) as [->|Hyc].
    + rewrite (decide_True (P := c = c /\ a ∉ D)) by done. rewrite decide_False by set_solver. simpl. lia.
    + rewrite !decide_False by naive_solver. lia.
  - destruct (decide (y = c /\ x ∉ D)) as [[-> Hx]|Hn].
    + rewrite decide_True by set_solver. simpl. lia.
    + rewrite decide_False by set_solver. lia.
Qed.

Lemma waiting_app E D C c :
  NoDup C -> (forall a, a ∈ C -> a ∉ D) ->
  waiting E D c = count c (C ≫= outs E) + waiting E (D ++ C) c.
Proof.
  revert D. induction C as [|a C IH]; intros D Hnd Hdisj.
  - by rewrite app_nil_r.
  - apply NoDup_cons in Hnd as [Ha Hnd]. rewrite (waiting_snoc _ _ a) by (apply Hdisj; left).
    rewrite bind_cons, count_app, (IH (D ++ [a])); [|done|set_solver]. rewrite <- app_assoc. simpl app. lia.
Qed.

(** ** Initialisation *)

Definition in_range (n : nat) (E : list (nat * nat)) : Prop := forall a b, (a, b) ∈ E -> a < n /\ b < n.

(** The two vectors describe the edges read so far. *)
Definition vectors_ok (n : nat) (E : list (nat * nat)) (ind : list nat) (adj : list (list nat)) : Prop :=
  length ind = n /\ length adj = n /\
  (forall c, c < n -> ind !! c = Some (waiting E [] c)) /\ (forall a, a < n -> adj !! a = Some (outs E a)).

Lemma waiting_nil_snoc E a b c : waiting (E ++ [(a, b)]) [] c = waiting E [] c + (if decide (b = c) then 1 else 0).
Proof.
  unfold waiting. rewrite filter_app, length_app, filter_cons, filter_nil. simpl.
  destruct (decide (b = c)); [rewrite decide_True by set_solver|rewrite decide_False by naive_solver]; done.
Qed.

Lemma outs_snoc E a b x : outs (E ++ [(a, b)]) x = outs E x ++ (if decide (a = x) then [b] else []).
Proof.
  unfold outs. rewrite filter_app, fmap_app, filter_cons, filter_nil. simpl. by destruct (decide (a = x)).
Qed.

Lemma kahn_init_ok n E E' ind adj :
  in_range n E' -> vectors_ok n E ind adj ->
  exists ind' adj', kahn_init E' ind adj = Some (ind', adj') /\ vectors_ok n (E ++ E') ind' adj'.
Proof.
  revert E ind adj. induction E' as [|[a b] E' IH]; intros E ind adj Hr Hok.
  { exists ind, adj. by rewrite app_nil_r. }
  destruct (Hr a b ltac:(left)) as [Ha Hb]. destruct Hok as (Hli & Hla & Hi & Ha').
  simpl. unfold vec_update. rewrite (Ha' a Ha), (Hi b Hb). simpl.
  destruct (IH (E ++ [(a, b)]) (<[b:=S (waiting E [] b)]> ind) (<[a:=outs E a ++ [b]]> adj)) as (ind' & adj' & -> & Hok').
  - intros x y Hxy. apply Hr. by right.
  - split_and!; [by rewrite length_insert..| |].
    + intros c Hc. rewrite waiting_nil_snoc. destruct (decide (b = c)) as [->|Hne].
      * rewrite list_lookup_insert_eq by lia. f_equal. lia.
      * rewrite list_lookup_insert_ne, Hi by done. f_equal. lia.
    + intros x Hx. rewrite outs_snoc. destruct (decide (a = x)) as [->|Hne].
      * by rewrite list_lookup_insert_eq by lia.
      * by rewrite list_lookup_insert_ne, Ha', app_nil_r by done.
  - exists ind', adj'. by rewrite <- app_assoc in Hok'.
Qed.

Lemma kahn_init_start n E :
  in_range n E ->
  exists ind adj, kahn_init E (replicate n 0) (replicate n []) = Some (ind, adj) /\ vectors_ok n E ind adj.
Proof.
  intros Hr. apply (kahn_init_ok n [] E); [done|]. split_and!; [by rewrite length_replicate..| |];
    intros x Hx; by rewrite lookup_replicate_2.
Qed.

(** ** One wave *)

(** The neighbours' counts go down; those that reach zero come next, once each. *)
Lemma relax_ok n (f : nat -> nat) L ind next :
  length ind = n -> (forall c, c < n -> ind !! c = Some (f c)) -> (forall c, c ∈ L -> c < n) ->
  (forall c, c < n -> count c L <= f c) ->
  exists ind' new, relax L ind next = Some (ind', next ++ new) /\ length ind' = n /\
    (forall c, c < n -> ind' !! c = Some (f c - count c L)) /\ NoDup new /\
    (forall c, c ∈ new <-> c < n /\ f c <> 0 /\ f c = count c L).
Proof.
  revert f ind next. induction L as [|b L IH]; intros f ind next Hlen Hind Hrange Hcnt.
  { exists ind, []. rewrite app_nil_r. split_and!; [done..| | |].
    - intros c Hc. rewrite Hind by done. f_equal. unfold count. simpl. lia.
    - constructor.
    - intros c. unfold count. simpl. split; [set_solver|lia]. }
  assert (b < n) as Hb by (apply Hrange; left).
  pose proof (Hcnt b Hb) as Hcb. rewrite count_cons, decide_True in Hcb by done.
  simpl. rewrite (Hind b Hb). simpl. rewrite decide_False by lia.
  set (f' c := if decide (c = b) then f b - 1 else f c).
  assert (forall c, f c = f' c + (if decide (b = c) then 1 else 0)) as Hf.
  { intros c. unfold f'. destruct (decide (c = b)) as [->|]; [rewrite decide_True by done; lia|].
    rewrite decide_False by done. lia. }
  destruct (IH f' (<[b:=f b - 1]> ind) (if decide (f b - 1 = 0) then next ++ [b] else next))
    as (ind' & new & -> & Hlen' & Hind' & Hnd & Hnew).
  - by rewrite length_insert.
  - intros c Hc. unfold f'. destruct (decide (c = b)) as [->|Hne].
    + by rewrite list_lookup_insert_eq by lia.
    + by rewrite list_lookup_insert_ne, Hind by done.
  - intros c Hc. apply Hrange. by right.
  - intros c Hc. pose proof (Hcnt c Hc) as Hc'. rewrite count_cons, Hf in Hc'. lia.
  - assert (forall c, c < n -> ind' !! c = Some (f c - count c (b :: L))) as Hind2.
    { intros c Hc. rewrite Hind', count_cons, Hf by done. f_equal. lia. }
    assert (forall c, c ∈ new <-> c < n /\ f' c <> 0 /\ f c = count c (b :: L)) as Hnew2.
    { intros c. rewrite Hnew, count_cons, (Hf c). lia. }
    destruct (decide (f b - 1 = 0)) as [Hz|Hz].
    + exists ind', (b :: new). rewrite <- app_assoc. split_and!; [done..| |].
      * constructor; [|done]. rewrite Hnew. unfold f'. rewrite decide_True by done. lia.
      * intros c. rewrite elem_of_cons, Hnew2, count_cons. unfold f'.
        destruct (decide (c = b)) as [->|Hne]; [rewrite decide_True by done|]; naive_solver lia.
    + exists ind', new. split_and!; [done..|]. intros c. rewrite Hnew2. unfold f'.
      destruct (decide (c = b)) as [->|Hne]; lia.
Qed.

(** ** The loop *)

(** Waves respect the edges and are as early as the edges allow. *)
Definition layered (E : list (nat * nat)) (waves : list (list nat)) : Prop :=
  forall w1 w w2, waves = w1 ++ w :: w2 ->
    w <> [] /\ StronglySorted le w /\
    forall b, b ∈ w -> (forall a, (a, b) ∈ E -> a ∈ concat w1) /\
      (forall w0, last w1 = Some w0 -> exists a, a ∈ w0 /\ (a, b) ∈ E).

Record kahn_inv (n : nat) (E : list (nat * nat)) (ind : list nat) (waves : list (list nat)) (C : list nat) : Prop :=
  mkKahnInv {
    ki_len : length ind = n;
    ki_ind : forall c, c < n -> ind !! c = Some (waiting E (concat waves) c);
    ki_nodup : NoDup (concat waves ++ C);
    ki_range : forall c, c ∈ concat waves ++ C -> c < n;
    ki_cur : forall c, c < n -> c ∈ C <-> c ∉ concat waves /\ waiting E (concat waves) c = 0;
    ki_done : forall c, c ∈ concat waves -> waiting E (concat waves) c = 0;
    ki_sorted : StronglySorted le C;
    ki_late : forall b w0, b ∈ C -> last waves = Some w0 -> exists a, a ∈ w0 /\ (a, b) ∈ E;
    ki_waves : layered E waves }.

Lemma sort_unstable_perm l : sort_unstable l ≡ₚ l.
Proof. apply sort_by_Permutation. Qed.

Lemma sort_unstable_sorted l : StronglySorted le (sort_unstable l).
Proof.
  assert (StronglySorted (fun x y => bool_decide (x <= y) = true) (sort_unstable l)) as Hs.
  { apply sort_by_sorted.
    - intros x y. rewrite !bool_decide_eq_true. lia.
    - intros x y z. rewrite !bool_decide_eq_true. lia. }
  induction Hs as [|x l' _ IH Hx]; constructor; [done|].
  eapply Forall_impl; [exact Hx|]. intros y. by rewrite bool_decide_eq_true.
Qed.

Lemma layered_snoc E waves C :
  layered E waves -> C <> [] -> StronglySorted le C ->
  (forall b, b ∈ C -> (forall a, (a, b) ∈ E -> a ∈ concat waves) /\
    (forall w0, last waves = Some w0 -> exists a, a ∈ w0 /\ (a, b) ∈ E)) ->
  layered E (waves ++ [C]).
Proof.
  intros Hl Hne Hs HC w1 w w2 Heq. destruct w2 as [|z w2 _] using rev_ind.
  - apply app_inj_tail in Heq as [<- <-]. done.
  - rewrite app_comm_cons, app_assoc in Heq. apply app_inj_tail in Heq as [-> _]. by eapply Hl.
Qed.

Lemma concat_snoc {A} (ls : list (list A)) l : concat (ls ++ [l]) = concat ls ++ l.
Proof. by rewrite concat_app, concat_cons, concat_nil, app_nil_r. Qed.

Lemma adjacency_of E n (adj : list (list nat)) C :
  (forall a, a < n -> adj !! a = Some (outs E a)) -> (forall c, c ∈ C -> c < n) ->
  mapM (fun node => adj !! node) C = Some (outs E <$> C) /\ concat (outs E <$> C) = C ≫= outs E.
Proof.
  intros Hadj. induction C as [|a C IH]; intros Hr; [done|].
  destruct IH as [H1 H2]; [intros; apply Hr; by right|]. split.
  - simpl. rewrite Hadj by (apply Hr; left). simpl. by rewrite H1.
  - by rewrite fmap_cons, concat_cons, bind_cons, H2.
Qed.

Lemma wave_step n E (adj : list (list nat)) ind waves C :
  in_range n E -> (forall a, a < n -> adj !! a = Some (outs E a)) -> C <> [] ->
  kahn_inv n E ind waves C ->
  exists ind' next, relax (C ≫= outs E) ind [] = Some (ind', next) /\
    kahn_inv n E ind' (waves ++ [C]) (sort_unstable next).
Proof.
  intros Hr Hadj Hne [Hlen Hind Hnd Hrange Hcur Hdone Hs Hlate Hlay]. set (D := concat waves) in *.
  apply NoDup_app in Hnd as (HndD & Hdisj & HndC).
  assert (forall a, a ∈ C -> a ∉ D) as HCD by (intros a Ha Hd; by eapply Hdisj).
  assert (forall c, waiting E D c = count c (C ≫= outs E) + waiting E (D ++ C) c) as Hw by (intros; by apply waiting_app).
  destruct (relax_ok n (waiting E D) (C ≫= outs E) ind []) as (ind' & new & Hrel & Hlen' & Hind' & Hndn & Hnew); try done.
  { intros c (a & Hc & Ha)%list_elem_of_bind. apply list_elem_of_fmap in Hc as ([x y] & -> & [_ Hxy]%list_elem_of_filter).
    destruct (Hr _ _ Hxy); simpl; lia. }
  { intros c _. rewrite Hw. lia. }
  assert (forall c, c ∈ new <-> c < n /\ c ∉ D ++ C /\ waiting E (D ++ C) c = 0) as Hnew2.
  { intros c. rewrite Hnew, elem_of_app. split.
    - intros (Hc & Hnz & Heq). rewrite Hw in Heq. split_and!; [done| |lia].
      intros [Hd|HC]; [by apply Hnz, Hdone|]. apply Hcur in HC as [_ Hz]; [by apply Hnz|done].
    - intros (Hc & Hn & Hz). split_and!; [done| |rewrite Hw; lia]. intros Hz'. apply Hn. right. apply Hcur; naive_solver. }
  exists ind', new. split; [exact Hrel|].
  split; try done; rewrite ?concat_snoc; fold D.
  - intros c Hc. rewrite Hind', Hw by done. f_equal. lia.
  - rewrite sort_unstable_perm. apply NoDup_app. split_and!; [by apply NoDup_app| |done].
    intros c Hc Hn. apply Hnew2 in Hn. naive_solver.
  - intros c. intros [Hc|Hc]%elem_of_app; [by apply Hrange|].
    rewrite sort_unstable_perm in Hc. by apply Hnew2 in Hc as [? _].
  - intros c Hc. rewrite sort_unstable_perm, Hnew2. naive_solver.
  - intros c. intros [Hc|Hc]%elem_of_app.
    + pose proof (Hdone c Hc). rewrite Hw in *. lia.
    + apply Hcur in Hc as [_ Hz]; [|apply Hrange; set_solver]. rewrite Hw in Hz. lia.
  - apply sort_unstable_sorted.
  - intros b w0 Hb. rewrite last_snoc. intros [= <-]. rewrite sort_unstable_perm in Hb.
    apply Hnew in Hb as (_ & Hnz & Heq). rewrite Heq in Hnz. apply count_elem in Hnz.
    apply list_elem_of_bind in Hnz as (a & Hb & Ha). exists a. split; [done|].
    apply list_elem_of_fmap in Hb as ([x y] & -> & [Hx Hxy]%list_elem_of_filter). simpl in *. by subst.
  - apply layered_snoc; [done..|]. intros b Hb. split; [|by eauto].
    apply waiting_zero. apply Hcur; [apply Hrange; set_solver|done].
Qed.

Lemma NoDup_below n (l : list nat) : NoDup l -> (forall c, c ∈ l -> c < n) -> length l <= n.
Proof.
  intros Hnd Hlt. rewrite <- (length_seq n 0). apply submseteq_length, NoDup_submseteq; [done|].
  intros x Hx. apply elem_of_seq. specialize (Hlt x Hx). lia.
Qed.

(** [n] rounds are enough: each takes a node that was not taken. *)
Lemma kahn_loop_ok n E adj fuel ind waves C :
  in_range n E -> (forall a, a < n -> adj !! a = Some (outs E a)) ->
  kahn_inv n E ind waves C -> n <= fuel + length (concat waves) ->
  exists ind' waves', kahn_loop fuel adj C ind waves (length (concat waves)) = Some (waves', length (concat waves')) /\
    kahn_inv n E ind' waves' [].
Proof.
  intros Hr Hadj. revert ind waves C. induction fuel as [|fuel IH]; intros ind waves C Hinv Hfuel;
    (destruct C as [|c C]; [simpl; by eauto|]).
  - exfalso. pose proof (NoDup_below n _ (ki_nodup _ _ _ _ _ Hinv) (ki_range _ _ _ _ _ Hinv)) as Hle.
    rewrite length_app in Hle. simpl in *. lia.
  - destruct (wave_step n E adj ind waves (c :: C) Hr Hadj ltac:(done) Hinv) as (ind' & next & Hrel & Hinv').
    destruct (adjacency_of E n adj (c :: C) Hadj) as [Hm Hc].
    { intros x Hx. apply (ki_range _ _ _ _ _ Hinv). set_solver. }
    cbn [kahn_loop]. rewrite Hm. cbv beta iota delta [mbind option_bind]. rewrite Hc, Hrel.
    assert (length (concat (waves ++ [c :: C])) = length (concat waves) + length (c :: C)) as Hlen
      by (by rewrite concat_snoc, length_app).
    rewrite <- Hlen. apply (IH ind'); [done|]. rewrite Hlen. simpl in *. lia.
Qed.

Lemma kahn_start n E ind adj :
  vectors_ok n E ind adj ->
  kahn_inv n E ind [] (sort_unstable (filter (fun i => ind !! i = Some 0) (seq 0 n))).
Proof.
  intros (Hli & Hla & Hi & Ha).
  assert (forall c, c ∈ sort_unstable (filter (fun i => ind !! i = Some 0) (seq 0 n)) <->
            c < n /\ waiting E [] c = 0) as Hin.
  { intros c. rewrite sort_unstable_perm, list_elem_of_filter, elem_of_seq. split.
    - intros [Hz Hc]. split; [lia|]. rewrite Hi in Hz by lia. congruence.
    - intros [Hc Hz]. split; [rewrite Hi by done; congruence|lia]. }
  split; simpl; try done.
  - rewrite sort_unstable_perm. apply NoDup_filter, NoDup_seq.
  - intros c Hc. by apply Hin in Hc as [? _].
  - intros c Hc. rewrite Hin. set_solver.
  - set_solver.
  - apply sort_unstable_sorted.
  - intros w1 w w2 Heq. by destruct w1.
Qed.

Definition edge_rel (E : list (nat * nat)) : relation nat := fun a b => (a, b) ∈ E.

Lemma kahn_done_acyclic n E ind waves :
  in_range n E -> kahn_inv n E ind waves [] -> (forall x, ~ tc (edge_rel E) x x) -> length (concat waves) = n.
Proof.
  intros Hr [Hlen Hind Hnd Hrange Hcur Hdone _ _ _] Hac. rewrite app_nil_r in Hnd, Hrange.
  destruct (decide (length (concat waves) = n)) as [|Hne]; [done|exfalso].
  set (X := list_to_set (filter (fun i => i ∉ concat waves) (seq 0 n)) : gset nat).
  assert (forall x, x ∈ X <-> x < n /\ x ∉ concat waves) as HX.
  { intros x. unfold X. rewrite elem_of_list_to_set, list_elem_of_filter, elem_of_seq. naive_solver lia. }
  destruct (decide (X = ∅)) as [Hemp|[x0 Hx0]%set_choose_L].
  - apply Hne. apply Nat.le_antisymm; [by apply NoDup_below|].
    rewrite <- (length_seq n 0) at 1. apply submseteq_length, NoDup_submseteq; [apply NoDup_seq|].
    intros x Hx%elem_of_seq. destruct (decide (x ∈ concat waves)) as [|Hn]; [done|exfalso].
    assert (x ∈ X) as Hin by (apply HX; split; [lia|done]). rewrite Hemp in Hin. set_solver.
  - eapply (finite_no_source (edge_rel E) X x0); [done| |done]. intros x [Hx Hn]%HX.
    destruct (decide (waiting E (concat waves) x = 0)) as [Hz|Hz].
    + exfalso. eapply not_elem_of_nil. apply (Hcur x Hx). done.
    + unfold waiting in Hz. destruct (filter _ E) as [|[a b] l] eqn:Hf; [done|].
      assert ((a, b) ∈ E /\ b = x /\ a ∉ concat waves) as (Hab & -> & Ha).
      { assert ((a, b) ∈ (a, b) :: l) as Hin by left. rewrite <- Hf in Hin.
        apply list_elem_of_filter in Hin. naive_solver. }
      exists a. split; [|done]. apply HX. split; [exact (proj1 (Hr _ _ Hab))|done].
Qed.

Lemma layered_edge E waves w1 w w2 a b :
  layered E waves -> waves = w1 ++ w :: w2 -> b ∈ w -> (a, b) ∈ E -> a ∈ concat w1.
Proof. intros Hl Heq Hb Hab. destruct (Hl _ _ _ Heq) as (_ & _ & Hb'). by apply Hb' in Hb as [Hb _]; apply Hb. Qed.

(** What the algorithm promises of [n] nodes: a partition into waves that respects
    the edges, as early as they allow. *)
Definition waves_ok (n : nat) (E : list (nat * nat)) (waves : list (list nat)) : Prop :=
  concat waves ≡ₚ seq 0 n /\ layered E waves.

Lemma kahn_waves_ok n E :
  in_range n E ->
  match kahn_waves n E with
  | Ok waves => waves_ok n E waves
  | Err _ => ~ (forall x, ~ tc (edge_rel E) x x)
  | Panic => False
  end.
Proof.
  intros Hr. unfold kahn_waves. destruct (kahn_init_start n E Hr) as (ind & adj & -> & Hv). simpl.
  destruct (kahn_loop_ok n E adj n ind [] _ Hr (proj2 (proj2 (proj2 Hv))) (kahn_start n E ind adj Hv))
    as (ind' & waves & Hloop & Hinv); [simpl; lia|]. simpl in Hloop. rewrite Hloop.
  case_decide as Hn; [|intros Hac; by eapply Hn, kahn_done_acyclic].
  pose proof Hinv as [_ _ Hnd Hrange _ _ _ _ Hlay]. rewrite app_nil_r in Hnd, Hrange. split; [|done].
  apply NoDup_incl_Permutation; [done| |rewrite length_seq; lia].
  intros x Hx. apply elem_of_seq. specialize (Hrange x Hx). lia.
Qed.

(** ** The waves of a list of actions *)

Section actions.
Context (pattern : string -> option (string -> bool)).

(** One action reads what another writes. *)
Definition feeds (actions : list BuildAction) (i j : nat) : Prop :=
  i <> j /\ exists producer consumer output, actions !! i = Some producer /\ actions !! j = Some consumer /\
    output ∈ ba_outputs producer /\ consumer_consumes pattern consumer (out_path output) = true.

Lemma elem_of_overlap actions i j : (i, j) ∈ action_overlap_edges pattern actions <-> feeds actions i j.
Proof.
  unfold action_overlap_edges, feeds. rewrite list_elem_of_In, in_concat. setoid_rewrite <- list_elem_of_In.
  setoid_rewrite list_elem_of_lookup at 1. split.
  - intros (l & (k & Hk) & Hl). rewrite list_lookup_imap in Hk.
    destruct (actions !! k) as [producer|] eqn:Hp; simplify_eq/=.
    apply list_elem_of_bind in Hl as (output & Hl & Hout).
    rewrite list_elem_of_In, in_concat in Hl. setoid_rewrite <- list_elem_of_In in Hl.
    destruct Hl as (l' & (m & Hm)%list_elem_of_lookup & Hl'). rewrite list_lookup_imap in Hm.
    destruct (actions !! m) as [consumer|] eqn:Hc; simplify_eq/=.
    case_decide; [set_solver|]. destruct (consumer_consumes _ _ _) eqn:Hcc; [|set_solver].
    apply list_elem_of_singleton in Hl' as [= -> ->]. naive_solver.
  - intros (Hne & producer & consumer & output & Hp & Hc & Hout & Hcc).
    eexists. split; [exists i; rewrite list_lookup_imap, Hp; done|].
    apply list_elem_of_bind. exists output. split; [|done].
    rewrite list_elem_of_In, in_concat. eexists. rewrite <- !list_elem_of_In. split.
    + apply list_elem_of_lookup. exists j. by rewrite list_lookup_imap, Hc.
    + simpl. rewrite decide_False, Hcc by done. left.
Qed.

Lemma overlap_in_range actions : in_range (length actions) (action_overlap_edges pattern actions).
Proof.
  intros i j (_ & p & c & o & Hp & Hc & _)%elem_of_overlap. by split; eapply lookup_lt_Some.
Qed.

(** Waves of actions: every action is in exactly one wave; an action runs in
    a later wave than each action whose output it reads, and no later than that
    forces it to; there is a refusal only when the actions feed each other in a
    circle. The computation neither runs out of its bound nor panics. *)
Theorem action_waves_correct actions :
  match action_waves pattern actions with
  | Ok waves => concat waves ≡ₚ seq 0 (length actions) /\
      forall w1 w w2 j, waves = w1 ++ w :: w2 -> j ∈ w ->
        (forall i, feeds actions i j -> i ∈ concat w1) /\
        (forall w0, last w1 = Some w0 -> exists i, i ∈ w0 /\ feeds actions i j)
  | Err _ => ~ (forall i, ~ tc (feeds actions) i i)
  | Panic => False
  end.
Proof.
  pose proof (kahn_waves_ok _ _ (overlap_in_range actions)) as Hk. unfold action_waves.
  destruct (kahn_waves _ _) as [waves|e|]; [|intros Hac; apply Hk|done].
  - destruct Hk as [Hperm Hlay]. split; [done|]. intros w1 w w2 j Heq Hj.
    destruct (Hlay _ _ _ Heq) as (_ & _ & Hb). destruct (Hb j Hj) as [Hb1 Hb2].
    setoid_rewrite elem_of_overlap in Hb1. setoid_rewrite elem_of_overlap in Hb2. done.
  - intros x Hx. apply (Hac x). eapply (tc_congruence (fun z => z) (feeds actions)); [|exact Hx].
    intros i j. apply elem_of_overlap.
Qed.
End actions.
