(* ===== verification/BuildCache.v ===== *)
(** * Lowering and cache keys

    [src/packages/tddy-build/src/lower.rs] (with the modes of [capabilities.rs] and the
    plugins of [plugin.rs]) and the keys of [cache.rs]: what a target lowers to and the
    key an action's cache entry is kept under. SHA-256, the plugins and the script
    configuration's reader are parameters. *)

From Stdlib Require Import Ascii.
From stdpp Require Import pretty.
From S2P Require Import Prelude Text Graph Json Stack BuildGraph BuildWaves.

(** ** Lowering (lower.rs, capabilities.rs, plugin.rs) *)

Inductive BuildMode := Compile | TestMode | Run.

#[global] Instance BuildMode_eq_dec : EqDecision BuildMode.
Proof. solve_decision. Defined.

Definition mode_label (m : BuildMode) : string :=
  match m with Compile => "compile" | TestMode => "test" | Run => "run" end.

Definition SCRIPT : string := "script".

Definition unsupported (type_name : string) (mode : BuildMode) : BuildError :=
  BManifest ("target type '" +:+ type_name +:+ "' does not support " +:+ mode_label mode).

Section lower.
Context {F : Type}.

(** A plugin lowers a target for a mode. *)
Definition plugin : Type := @BuildTarget F -> BuildMode -> BuildError + list BuildAction.

(** The default [lower_mode] of a plugin that only compiles. *)
Definition compile_only (type_name : string) (lower : @BuildTarget F -> BuildError + list BuildAction) : plugin :=
  fun target mode =>
    match mode with
    | Compile => lower target
    | other => inl (unsupported type_name other)
    end.

Context (script_action : F -> BuildError + BuildAction) (registry : gmap string plugin).

Definition lower_target (target : @BuildTarget F) (mode : BuildMode) : BuildError + list BuildAction :=
  let actions := if decide (mode = Compile) then bt_actions target else [] in
  match bt_config target with
  | None => inr actions
  | Some config =>
      if decide (cfg_type config ∈ [SCRIPT; TOOL; GROUP]) then
        if decide (mode = Compile) then
          if decide (cfg_type config = SCRIPT) then
            match script_action (cfg_fields config) with
            | inr action => inr (actions ++ [action])
            | inl e => inl e
            end
          else inr actions
        else inl (unsupported (cfg_type config) mode)
      else
        match registry !! cfg_type config with
        | None => inl (BManifest ("unknown target type: " +:+ cfg_type config))
        | Some p =>
            match p target mode with
            | inr more => inr (actions ++ more)
            | inl e => inl e
            end
        end
  end.

Definition actions_for_mode (g : @BuildGraph F) (target_id : string) (mode : BuildMode)
    : BuildError + list BuildAction :=
  match bg_targets g !! target_id with
  | None => inl (BUnknownTarget target_id)
  | Some target => lower_target target mode
  end.
End lower.

(** ** Cache keys (cache.rs) *)

Record FileFingerprint := mkFingerprint { fp_path : string; fp_size : N; fp_mtime_ms : N }.

Definition action_type_str (t : ActionType) : string :=
  match t with TCommand => "command" | TCopy => "copy" | TTool => "tool" | TUnspecified => "unspecified" end.

Definition output_kind_str (k : OutputKind) : string :=
  match k with KFile => "file" | KDirectory => "directory" | KUnspecified => "unspecified" end.

Definition str_leb (x y : string) : bool := bool_decide (String.le x y).

(** Between NUL bytes. *)
Definition nul_tag (s : string) : string := String "000" (s +:+ String "000" "").

Fixpoint str_concat (l : list string) : string :=
  match l with [] => "" | x :: l' => x +:+ str_concat l' end.

Definition fingerprint_str (fp : FileFingerprint) : string :=
  fp_path fp +:+ ":" +:+ pretty (fp_size fp) +:+ ":" +:+ pretty (fp_mtime_ms fp) +:+ ";".

Definition fp_path_leb (a b : FileFingerprint) : bool := str_leb (fp_path a) (fp_path b).

(** The tuple order on path, size and time. *)
Definition fp_leb (a b : FileFingerprint) : bool :=
  if decide (fp_path a = fp_path b) then
    if decide (fp_size a = fp_size b) then bool_decide (fp_mtime_ms a <= fp_mtime_ms b)%N
    else bool_decide (fp_size a < fp_size b)%N
  else str_leb (fp_path a) (fp_path b).

Section keys.
Context `{!JsonText} (sha256 : string -> string).

(** The bytes [compute_cache_key] hashes. *)
Definition key_preimage (action : BuildAction) (input_fingerprints : list FileFingerprint) : string :=
  ba_id action +:+ nul_tag "type" +:+ action_type_str (ba_type action) +:+
  nul_tag "cmd" +:+ json_to_string (JArray (JString <$> ba_command action)) +:+
  nul_tag "wd" +:+ ba_working_dir action +:+
  nul_tag "env" +:+ str_concat ((fun kv => kv.1 +:+ "=" +:+ kv.2 +:+ ";") <$> btree_iter (ba_env action)) +:+
  nul_tag "inputs" +:+ str_concat (fingerprint_str <$> sort_by fp_path_leb input_fingerprints) +:+
  "|outputs|" +:+ str_concat ((fun o => out_path o +:+ ":" +:+ output_kind_str (out_kind o) +:+ ";") <$>
     sort_by (fun a b => str_leb (out_path a) (out_path b)) (ba_outputs action)) +:+
  "|tool_deps|" +:+ str_concat ((fun td => td +:+ ";") <$> sort_by str_leb (ba_tool_dep_ids action)).

Definition digest (preimage : string) : string := "sha256:" +:+ sha256 preimage.

Definition compute_cache_key (action : BuildAction) (input_fingerprints : list FileFingerprint) : string :=
  digest (key_preimage action input_fingerprints).

Definition tools_preimage (key : string) (tool_fingerprints : list FileFingerprint) : string :=
  key +:+ "|tools|" +:+ str_concat (fingerprint_str <$> sort_by fp_leb tool_fingerprints).

Definition compute_cache_key_with_tools (action : BuildAction)
    (input_fingerprints tool_fingerprints : list FileFingerprint) : string :=
  let key := compute_cache_key action input_fingerprints in
  match tool_fingerprints with
  | [] => key
  | _ => digest (tools_preimage key tool_fingerprints)
  end.

Definition compute_run_cache_key (action : BuildAction)
    (input_fingerprints tool_fingerprints : list FileFingerprint) (hermetic : bool) : string :=
  let key := compute_cache_key_with_tools action input_fingerprints tool_fingerprints in
  if hermetic then digest (key +:+ "|hermetic|") else key.

(** *** Order does not matter *)

Lemma str_leb_total x y : str_leb x y = true \/ str_leb y x = true.
Proof. unfold str_leb. rewrite !bool_decide_eq_true. apply (base.total String.le). Qed.

Lemma str_leb_trans x y z : str_leb x y = true -> str_leb y z = true -> str_leb x z = true.
Proof. unfold str_leb. rewrite !bool_decide_eq_true. by etrans. Qed.

Lemma str_leb_anti x y : str_leb x y = true -> str_leb y x = true -> x = y.
Proof. unfold str_leb. rewrite !bool_decide_eq_true. by apply (anti_symm String.le). Qed.

(** Sorting by an order that tells the elements apart forgets the order they came in. *)
Lemma sort_by_perm {A} (leb : A -> A -> bool) (l l' : list A) :
  (forall x y, leb x y = true \/ leb y x = true) ->
  (forall x y z, leb x y = true -> leb y z = true -> leb x z = true) ->
  (forall x y, x ∈ l -> y ∈ l -> leb x y = true -> leb y x = true -> x = y) ->
  l ≡ₚ l' -> sort_by leb l = sort_by leb l'.
Proof.
  intros Htot Htr Hanti Hp. eapply (sorted_unique (fun x y => leb x y = true)).
  - intros x y. rewrite !sort_by_Permutation. apply Hanti.
  - by apply sort_by_sorted.
  - by apply sort_by_sorted.
  - by rewrite !sort_by_Permutation.
Qed.

Lemma fp_leb_total x y : fp_leb x y = true \/ fp_leb y x = true.
Proof.
  unfold fp_leb. destruct (decide (fp_path x = fp_path y)) as [Hp|Hp].
  - rewrite (decide_True (P := fp_path y = fp_path x)) by done.
    destruct (decide (fp_size x = fp_size y)) as [Hs|Hs].
    + rewrite (decide_True (P := fp_size y = fp_size x)) by done. rewrite !bool_decide_eq_true. lia.
    + rewrite (decide_False (P := fp_size y = fp_size x)) by done. rewrite !bool_decide_eq_true. lia.
  - rewrite (decide_False (P := fp_path y = fp_path x)) by done. apply str_leb_total.
Qed.

Lemma fp_leb_trans x y z : fp_leb x y = true -> fp_leb y z = true -> fp_leb x z = true.
Proof.
  unfold fp_leb. destruct (decide (fp_path x = fp_path y)) as [Hxy|Hxy], (decide (fp_path y = fp_path z)) as [Hyz|Hyz].
  - rewrite (decide_True (P := fp_path x = fp_path z)) by congruence.
    repeat case_decide; rewrite !bool_decide_eq_true; lia.
  - rewrite (decide_False (P := fp_path x = fp_path z)) by congruence. by rewrite Hxy.
  - rewrite (decide_False (P := fp_path x = fp_path z)) by congruence. by rewrite Hyz.
  - intros H1 H2. case_decide as Hxz; [|by eapply str_leb_trans]. exfalso. apply Hxy.
    rewrite Hxz in H1 |- *. by apply str_leb_anti.
Qed.

Lemma fp_leb_anti x y : fp_leb x y = true -> fp_leb y x = true -> x = y.
Proof.
  unfold fp_leb. destruct x as [p s m], y as [p' s' m']. simpl.
  destruct (decide (p = p')) as [->|Hp].
  - rewrite (decide_True (P := p' = p')) by done. destruct (decide (s = s')) as [->|Hs].
    + rewrite (decide_True (P := s' = s')) by done. rewrite !bool_decide_eq_true. intros. f_equal. lia.
    + rewrite (decide_False (P := s' = s)) by done. rewrite !bool_decide_eq_true. lia.
  - rewrite decide_False by done. intros H1 H2. destruct Hp. by apply str_leb_anti.
Qed.

(** The key depends on which inputs and tools there are, not on the order they are
    found in. *)
Lemma cache_key_order action inputs inputs' tools tools' hermetic :
  NoDup (fp_path <$> inputs) -> inputs ≡ₚ inputs' -> tools ≡ₚ tools' ->
  compute_run_cache_key action inputs tools hermetic = compute_run_cache_key action inputs' tools' hermetic.
Proof.
  intros Hnd Hi Ht. unfold compute_run_cache_key, compute_cache_key_with_tools, compute_cache_key, key_preimage.
  rewrite (sort_by_perm fp_path_leb inputs inputs'); [| | | |done].
  - unfold tools_preimage. rewrite (sort_by_perm fp_leb tools tools' fp_leb_total fp_leb_trans
      (fun x y _ _ => fp_leb_anti x y) Ht).
    destruct tools as [|t tools]; [apply Permutation_nil_l in Ht as <-; done|].
    destruct tools' as [|t' tools']; [by apply Permutation_nil_r in Ht|done].
  - intros x y. apply str_leb_total.
  - intros x y z. apply str_leb_trans.
  - intros x y Hx Hy H1 H2. apply list_elem_of_lookup in Hx as [i Hi'], Hy as [j Hj].
    assert (fp_path x = fp_path y) as Heq by by apply str_leb_anti.
    assert (i = j) as ->; [|congruence]. apply (NoDup_lookup (fp_path <$> inputs) i j (fp_path x)); [done| |].
    + by rewrite list_lookup_fmap, Hi'.
    + rewrite list_lookup_fmap, Hj, Heq. done.
Qed.

(** *** Hermetic and unconfined entries *)

(** The last characters of a text, last first. *)
Definition ending (n : nat) (s : string) : list ascii := take n (reverse (String.list_ascii_of_string s)).

Lemma ending_app n s t : (n <= length (String.list_ascii_of_string t))%nat -> ending n (s +:+ t) = ending n t.
Proof.
  intros Hn. unfold ending. rewrite list_ascii_app, reverse_app, take_app_le; [done|]. by rewrite length_reverse.
Qed.

(** A non-empty sequence of items that end in a semicolon ends in one. *)
Lemma ending_items (items : list string) :
  items <> [] -> (forall x, x ∈ items -> exists y, x = y +:+ ";") -> exists y, str_concat items = y +:+ ";".
Proof.
  induction items as [|x items IH]; [done|]. intros _ Hall. destruct items as [|x' items].
  - destruct (Hall x ltac:(left)) as [y ->]. exists y. simpl. by rewrite str_app_assoc.
  - destruct IH as [y Hy]; [done|intros; apply Hall; by right|]. simpl in Hy |- *. rewrite Hy.
    exists (x +:+ y). by rewrite str_app_assoc.
Qed.

Lemma ending_semicolon p : ending 2 (p +:+ ";") <> ending 2 "|hermetic|".
Proof. unfold ending. rewrite list_ascii_app, reverse_app. simpl. by intros [= ?]. Qed.

(** An unconfined key's text never ends as a hermetic one does. *)
Lemma preimage_ending action inputs :
  ending 2 (key_preimage action inputs) <> ending 2 "|hermetic|".
Proof.
  unfold key_preimage. rewrite <- !str_app_assoc. set (pre := _ +:+ "|tool_deps|").
  destruct (sort_by str_leb (ba_tool_dep_ids action)) as [|td tds] eqn:Hs.
  - simpl. unfold pre. rewrite str_app_assoc. rewrite ending_app by (simpl; lia). done.
  - destruct (ending_items ((fun td => td +:+ ";") <$> (td :: tds))) as [y ->]; [done| |].
    { intros x (z & -> & _)%list_elem_of_fmap. by eexists. }
    rewrite <- str_app_assoc. apply ending_semicolon.
Qed.

(** An entry an unconfined run wrote never serves a hermetic run, nor the
    reverse: whatever the two actions, their inputs and their tools, the keys differ,
    or SHA-256 has a collision. *)
Theorem hermetic_keys_separate a b inputs inputs' tools tools' :
  compute_run_cache_key a inputs tools false <> compute_run_cache_key b inputs' tools' true \/
  exists p q, p <> q /\ sha256 p = sha256 q.
Proof.
  unfold compute_run_cache_key. set (kb := compute_cache_key_with_tools b inputs' tools').
  assert (forall p, ending 2 p <> ending 2 "|hermetic|" ->
    digest p <> digest (kb +:+ "|hermetic|") \/ exists p q, p <> q /\ sha256 p = sha256 q) as Hsep.
  { intros p Hp. destruct (decide (sha256 p = sha256 (kb +:+ "|hermetic|"))) as [Heq|Hne].
    - right. eexists _, _. split; [|exact Heq]. intros ->. apply Hp. by rewrite ending_app by (simpl; lia).
    - left. unfold digest. intros Heq. apply Hne. by simplify_eq. }
  unfold compute_cache_key_with_tools at 1. destruct tools as [|t tools].
  - apply Hsep, preimage_ending.
  - apply Hsep. unfold tools_preimage.
    destruct (ending_items (fingerprint_str <$> sort_by fp_leb (t :: tools))) as [y ->].
    + intros Hnil%fmap_nil_inv. pose proof (sort_by_Permutation fp_leb (t :: tools)) as Hp.
      rewrite Hnil in Hp. by apply Permutation_nil_l in Hp.
    + intros x (fp & -> & _)%list_elem_of_fmap. unfold fingerprint_str. rewrite <- !str_app_assoc. by eexists.
    + rewrite <- !str_app_assoc. apply ending_semicolon.
Qed.

(** The key does not tell environments apart: a value that holds a semicolon and
    an equals sign reads like two variables, so two actions that run in different
    environments share a key, whatever SHA-256 is. *)
Theorem cache_key_env_ambiguous a inputs tools hermetic :
  let with_env env := mkAction (ba_id a) (ba_description a) (ba_type a) (ba_command a) env (ba_inputs a)
    (ba_outputs a) (ba_tool_dep_ids a) (ba_working_dir a) (ba_sandbox a) in
  let one : gmap string string := {["A" := "1;B=2"]} in
  let two : gmap string string := {["A" := "1"; "B" := "2"]} in
  one <> two /\
  compute_run_cache_key (with_env one) inputs tools hermetic =
    compute_run_cache_key (with_env two) inputs tools hermetic.
Proof.
  intros with_env one two. split; [by_decide|].
  unfold compute_run_cache_key, compute_cache_key_with_tools, compute_cache_key, key_preimage. simpl.
  by replace (str_concat ((fun kv => kv.1 +:+ "=" +:+ kv.2 +:+ ";") <$> btree_iter one))
    with (str_concat ((fun kv => kv.1 +:+ "=" +:+ kv.2 +:+ ";") <$> btree_iter two)) by (vm_compute; reflexivity).
Qed.
End keys.
