(* ===== verification/BuildExec.v ===== *)
(** * Running a build

    The entries of [src/packages/tddy-build/src/cache.rs] and [executor.rs]: the run of
    a target and its dependencies, wave by wave, with the cache.

    The file system, the processes and the clock are the class [BuildHost] over a
    world [W]; the tools' resolution is a parameter. A [build_world] adds the cache
    entries by path and, as a history, the processes that ran: for each the action, what
    its inputs and its tools were when it started, its confinement and its exit code; a
    key is no part of it. The actions of a wave, which run concurrently, are taken one
    after another. *)

From Stdlib Require Import Ascii.
From S2P Require Import Prelude Json BuildGraph BuildWaves BuildCache.

(** ** Cache entries *)

Inductive CacheMode := ReadWrite | ReadOnly | Offline.

Definition cache_writes (m : CacheMode) : bool := match m with ReadWrite => true | _ => false end.

Record ActionCacheEntry := mkCacheEntry {
  ace_schema_version : N; ace_cache_key : string; ace_created_at_ms : N;
  ace_input_fingerprints : list FileFingerprint; ace_output_paths : list string;
  ace_action_id : string; ace_target_id : string }.

Definition CACHE_DIR : string := ".tddy-build/cache".

Definition unsafe_char (c : ascii) : bool := bool_decide (c ∈ ["/"; ":"; "\"; " "]%char).

Fixpoint sanitize (id : string) : string :=
  match id with
  | "" => ""
  | String c id' => String (if unsafe_char c then "_" else c) (sanitize id')
  end.

Definition cache_entry_path (repo_root target_id action_id : string) : string :=
  repo_root +:+ "/" +:+ CACHE_DIR +:+ "/" +:+ sanitize target_id +:+ "/" +:+ sanitize action_id +:+ ".json".

(** ** The executor (executor.rs) *)

Record ExecuteOptions := mkOptions {
  eo_no_cache : bool; eo_dry_run : bool; eo_cache_mode : CacheMode; eo_hermetic : bool }.

Record ActionOutcome := mkOutcome {
  ao_action_id : string; ao_cached : bool; ao_exit_code : Z; ao_argv : list string;
  ao_stdout : string; ao_stderr : string }.

Record BuildRecord := mkRecord { br_target : string; br_actions : list ActionOutcome }.

(** What the executor asks of the machine: the files an action's patterns name,
    [file_fingerprint], [prepare_outputs], and [run_hermetic] or [run_action] with the
    tools' binaries. *)
Class BuildHost (W : Type) := {
  host_inputs : W -> BuildAction -> list FileFingerprint;
  host_fingerprint : W -> string -> BuildError + FileFingerprint;
  host_exists : W -> string -> bool;
  host_prepare : W -> BuildAction -> W;
  host_run : bool -> string -> BuildAction -> list string -> W -> (BuildError + ActionOutcome) * W;
  host_persist_error : W -> string -> option string;
  host_now_ms : W -> N;
}.

(** A process that ran. *)
Record ran := mkRan {
  ran_target : string; ran_action : BuildAction; ran_inputs : list FileFingerprint;
  ran_tools : list FileFingerprint; ran_hermetic : bool; ran_exit : Z }.

Section executor.
Context {W : Type} `{!BuildHost W} `{!JsonText} (sha256 : string -> string) (repo_root : string).
Context (closure : BuildAction -> BuildError + list string).

Record build_world := mkBuildWorld {
  bw_env : W; bw_cache : gmap string ActionCacheEntry; bw_ran : list ran }.

(** Sorted by path, the first of each path kept. *)
Fixpoint dedup_path (l : list FileFingerprint) : list FileFingerprint :=
  match l with
  | a :: ((b :: l'') as l') =>
      if decide (fp_path a = fp_path b) then
        match dedup_path l' with _ :: r => a :: r | [] => [a] end
      else a :: dedup_path l'
  | l => l
  end.

Definition fingerprint_inputs (w : W) (action : BuildAction) : list FileFingerprint :=
  dedup_path (sort_by fp_path_leb (host_inputs w action)).

Definition lookup_cache (w : build_world) (target_id action_id expected_key : string) : option ActionCacheEntry :=
  entry ← bw_cache w !! cache_entry_path repo_root target_id action_id;
  if decide (ace_cache_key entry = expected_key) then
    if forallb (fun output => host_exists (bw_env w) output) (ace_output_paths entry) then Some entry else None
  else None.

Definition persist_cache (target_id : string) (entry : ActionCacheEntry) : io build_world BuildError () :=
  fun w =>
    let path := cache_entry_path repo_root target_id (ace_action_id entry) in
    match host_persist_error (bw_env w) path with
    | Some e => (Err (BIo e), w)
    | None => (Ok (), mkBuildWorld (bw_env w) (<[path := entry]> (bw_cache w)) (bw_ran w))
    end.

Fixpoint collect_fingerprints (w : W) (binaries : list string) : BuildError + list FileFingerprint :=
  match binaries with
  | [] => inr []
  | b :: rest =>
      match host_fingerprint w b with
      | inl e => inl e
      | inr fp => match collect_fingerprints w rest with inl e => inl e | inr fps => inr (fp :: fps) end
      end
  end.

Definition served (action : BuildAction) (cached : bool) : ActionOutcome :=
  mkOutcome (ba_id action) cached 0 (ba_command action) "" "".

Definition record_run (opts : ExecuteOptions) (target_id : string) (action : BuildAction) (key : string)
    (fingerprints : list FileFingerprint) (outcome : ActionOutcome) : io build_world BuildError ActionOutcome :=
  fun w =>
    if bool_decide (ao_exit_code outcome = 0%Z) && negb (eo_no_cache opts) && cache_writes (eo_cache_mode opts) then
      match persist_cache target_id
        (mkCacheEntry 1 key (host_now_ms (bw_env w)) fingerprints (out_path <$> ba_outputs action)
           (ba_id action) target_id) w with
      | (Ok _, w') => (Ok outcome, w')
      | (Err e, w') => (Err e, w')
      | (Panic, w') => (Panic, w')
      end
    else (Ok outcome, w).

Definition run_one (opts : ExecuteOptions) (target_id : string) (action : BuildAction)
    : io build_world BuildError ActionOutcome :=
  fun w =>
    if eo_dry_run opts then (Ok (served action false), w)
    else
      match closure action with
      | inl e => (Err e, w)
      | inr binaries =>
          match collect_fingerprints (bw_env w) binaries with
          | inl e => (Err e, w)
          | inr tools =>
              let fingerprints := fingerprint_inputs (bw_env w) action in
              let hermetic := eo_hermetic opts || ba_sandbox action in
              let key := compute_run_cache_key sha256 action fingerprints tools hermetic in
              if negb (eo_no_cache opts) && bool_decide (is_Some (lookup_cache w target_id (ba_id action) key))
              then (Ok (served action true), w)
              else
                match host_run hermetic target_id action binaries (host_prepare (bw_env w) action) with
                | (inl e, env') => (Err e, mkBuildWorld env' (bw_cache w) (bw_ran w))
                | (inr outcome, env') =>
                    record_run opts target_id action key fingerprints outcome
                      (mkBuildWorld env' (bw_cache w)
                         (bw_ran w ++ [mkRan target_id action fingerprints tools hermetic (ao_exit_code outcome)]))
                end
          end
      end.

(** The futures of one wave, all of them, then their results. *)
Fixpoint run_wave (opts : ExecuteOptions) (target_id : string) (actions : list BuildAction) (wave : list nat)
    (w : build_world) : list (nat * res BuildError ActionOutcome) * build_world :=
  match wave with
  | [] => ([], w)
  | idx :: rest =>
      let '(r, w1) :=
        match actions !! idx with
        | Some action => run_one opts target_id action w
        | None => (Panic, w)
        end in
      let '(rs, w2) := run_wave opts target_id actions rest w1 in ((idx, r) :: rs, w2)
  end.

(** [outcomes[idx] = Some(result?)] over a wave's results. *)
Fixpoint store_results (results : list (nat * res BuildError ActionOutcome))
    (outcomes : list (option ActionOutcome)) : res BuildError (list (option ActionOutcome)) :=
  match results with
  | [] => Ok outcomes
  | (idx, Ok o) :: rest =>
      if decide (idx < length outcomes) then store_results rest (<[idx := Some o]> outcomes) else Panic
  | (_, Err e) :: _ => Err e
  | (_, Panic) :: _ => Panic
  end.

Fixpoint run_waves (opts : ExecuteOptions) (target_id : string) (actions : list BuildAction)
    (waves : list (list nat)) (outcomes : list (option ActionOutcome))
    : io build_world BuildError (list (option ActionOutcome)) :=
  fun w =>
    match waves with
    | [] => (Ok outcomes, w)
    | wave :: rest =>
        let '(results, w1) := run_wave opts target_id actions wave w in
        match store_results results outcomes with
        | Ok outcomes' => run_waves opts target_id actions rest outcomes' w1
        | Err e => (Err e, w1)
        | Panic => (Panic, w1)
        end
    end.

Context (pattern : string -> option (string -> bool)).

Definition run_target_actions (opts : ExecuteOptions) (target_id : string) (actions : list BuildAction)
    : io build_world BuildError (list ActionOutcome) :=
  fun w =>
    match action_waves pattern actions with
    | Err e => (Err e, w)
    | Panic => (Panic, w)
    | Ok waves =>
        match run_waves opts target_id actions waves (replicate (length actions) None) w with
        | (Ok outcomes, w') => (match mapM id outcomes with Some os => Ok os | None => Panic end, w')
        | (Err e, w') => (Err e, w')
        | (Panic, w') => (Panic, w')
        end
    end.

Fixpoint run_plans (opts : ExecuteOptions) (target_id : string) (plans : list (string * list BuildAction))
    (record : BuildRecord) : io build_world BuildError BuildRecord :=
  fun w =>
    match plans with
    | [] => (Ok record, w)
    | (current, actions) :: rest =>
        match run_target_actions opts current actions w with
        | (Ok outcomes, w') =>
            run_plans opts target_id rest
              (if decide (current = target_id) then mkRecord (br_target record) outcomes else record) w'
        | (Err e, w') => (Err e, w')
        | (Panic, w') => (Panic, w')
        end
    end.

(** *** What a single action does *)

(** The key that what a process started from comes to. *)
Definition ran_key (r : ran) : string :=
  compute_run_cache_key sha256 (ran_action r) (ran_inputs r) (ran_tools r) (ran_hermetic r).

(** Every entry was written for a process that exited with success, under the key of what
    that process started from. *)
Definition cache_sound (w : build_world) : Prop :=
  forall path entry, bw_cache w !! path = Some entry ->
    exists r, r ∈ bw_ran w /\ ran_exit r = 0%Z /\ ace_cache_key entry = ran_key r /\
      ace_output_paths entry = out_path <$> ba_outputs (ran_action r).

(** What a process of [action] started in [w] would start from. *)
Definition started (opts : ExecuteOptions) (target_id : string) (action : BuildAction) (w : build_world)
    (tools : list FileFingerprint) (exit : Z) : ran :=
  mkRan target_id action (fingerprint_inputs (bw_env w) action) tools (eo_hermetic opts || ba_sandbox action) exit.

(** The action's process was not run: a dry run; a hit, on an entry of a successful process
    whose key is the one of what this action would start from and whose outputs are there;
    or the tools, their files or the process itself failed. *)
Definition not_run (opts : ExecuteOptions) (target_id : string) (action : BuildAction) (w : build_world)
    (r : res BuildError ActionOutcome) : Prop :=
  match r with
  | Ok o =>
      (eo_dry_run opts = true /\ o = served action false) \/
      (eo_dry_run opts = false /\ eo_no_cache opts = false /\ o = served action true /\
       exists binaries tools r0, closure action = inr binaries /\
         collect_fingerprints (bw_env w) binaries = inr tools /\ r0 ∈ bw_ran w /\ ran_exit r0 = 0%Z /\
         ran_key r0 = ran_key (started opts target_id action w tools 0) /\
         forall output, output ∈ ba_outputs (ran_action r0) -> host_exists (bw_env w) (out_path output) = true)
  | Err e =>
      eo_dry_run opts = false /\
      (closure action = inl e \/
       exists binaries, closure action = inr binaries /\
         (collect_fingerprints (bw_env w) binaries = inl e \/
          (host_run (eo_hermetic opts || ba_sandbox action) target_id action binaries (host_prepare (bw_env w) action)).1 = inl e))
  | Panic => False
  end.

(** The process was run: what it started from and how it ended are in the history, and the
    cache has its entry, under the key of what it started from, exactly when it succeeded,
    the cache is in use and written to, and the entry could be stored. *)
Definition was_run (opts : ExecuteOptions) (target_id : string) (action : BuildAction) (w : build_world)
    (r : res BuildError ActionOutcome) (w' : build_world) : Prop :=
  exists binaries tools outcome,
    eo_dry_run opts = false /\ closure action = inr binaries /\ collect_fingerprints (bw_env w) binaries = inr tools /\
    let this := started opts target_id action w tools (ao_exit_code outcome) in
    let path := cache_entry_path repo_root target_id (ba_id action) in
    (eo_no_cache opts = true \/ lookup_cache w target_id (ba_id action) (ran_key this) = None) /\
    host_run (ran_hermetic this) target_id action binaries (host_prepare (bw_env w) action) = (inr outcome, bw_env w') /\
    bw_ran w' = bw_ran w ++ [this] /\
    if decide (ao_exit_code outcome = 0%Z /\ eo_no_cache opts = false /\ cache_writes (eo_cache_mode opts) = true) then
      match host_persist_error (bw_env w') path with
      | Some e => r = Err (BIo e) /\ bw_cache w' = bw_cache w
      | None => r = Ok outcome /\
          bw_cache w' = <[path := mkCacheEntry 1 (ran_key this) (host_now_ms (bw_env w')) (ran_inputs this)
                            (out_path <$> ba_outputs action) (ba_id action) target_id]> (bw_cache w)
      end
    else r = Ok outcome /\ bw_cache w' = bw_cache w.

Lemma lookup_cache_sound w target_id action_id key entry :
  cache_sound w -> lookup_cache w target_id action_id key = Some entry ->
  exists r0, r0 ∈ bw_ran w /\ ran_exit r0 = 0%Z /\ ran_key r0 = key /\
    forall output, output ∈ ba_outputs (ran_action r0) -> host_exists (bw_env w) (out_path output) = true.
Proof.
  unfold lookup_cache. intros Hs. destruct (bw_cache w !! _) as [e|] eqn:He; simpl; [|done].
  case_decide as Hk; [|done]. destruct (forallb _ _) eqn:Hf; [|done]. intros [= ->].
  destruct (Hs _ _ He) as (r & Hr & Hx & Hrk & Ho). exists r. split_and!; [done|done|congruence|].
  intros output Hout. rewrite forallb_forall in Hf. apply Hf. rewrite Ho. apply list_elem_of_In.
  apply list_elem_of_fmap. by exists output.
Qed.

(** Every call of [run_one] is one of the two. *)
Lemma run_one_cases opts target_id action w r w' :
  cache_sound w -> run_one opts target_id action w = (r, w') ->
  (bw_ran w' = bw_ran w /\ bw_cache w' = bw_cache w /\ not_run opts target_id action w r) \/
  was_run opts target_id action w r w'.
Proof.
  intros Hs. unfold run_one. destruct (eo_dry_run opts) eqn:Hdry.
  { intros [= <- <-]. left. split_and!; [done..|]. by left. }
  destruct (closure action) as [e|binaries] eqn:Hc.
  { intros [= <- <-]. left. split_and!; [done..|]. split; [done|by left]. }
  destruct (collect_fingerprints (bw_env w) binaries) as [e|tools] eqn:Hf.
  { intros [= <- <-]. left. split_and!; [done..|]. split; [done|]. right. eauto. }
  destruct (negb (eo_no_cache opts) && _) eqn:Hhit.
  { intros [= <- <-]. left. split_and!; [done..|]. right. apply andb_prop in Hhit as [Hn%negb_true_iff [entry He]%bool_decide_eq_true].
    destruct (lookup_cache_sound _ _ _ _ _ Hs He) as (r0 & ? & ? & ? & ?). split_and!; [done..|]. by exists binaries, tools, r0. }
  destruct (host_run _ target_id action binaries _) as [[e|outcome] env'] eqn:Hrun.
  { intros [= <- <-]. left. split_and!; [done..|]. split; [done|]. right. exists binaries. rewrite Hrun. eauto. }
  intros Hrec. right. exists binaries, tools, outcome. split_and!; [done..|]. intros this path.
  assert (eo_no_cache opts = true \/ lookup_cache w target_id (ba_id action) (ran_key this) = None) as Hmiss.
  { destruct (eo_no_cache opts); [by left|]. right. by apply bool_decide_eq_false, eq_None_not_Some in Hhit. }
  revert Hrec. clear Hhit. unfold record_run, persist_cache. cbn [bw_env bw_cache bw_ran ace_action_id]. fold path.
  destruct (eo_no_cache opts) eqn:Hn, (cache_writes (eo_cache_mode opts)) eqn:Hw;
    cbn [negb]; rewrite ?andb_false_r, ?andb_true_r; try (intros [= <- <-]; rewrite decide_False by (intros (?&?&?); congruence); by split_and!).
  destruct (decide (ao_exit_code outcome = 0%Z)) as [H0|H0].
  - rewrite bool_decide_eq_true_2, decide_True by done. 
    destruct (host_persist_error env' path) as [e|] eqn:Hp; intros [= <- <-]; cbn [bw_env]; rewrite Hp; by split_and!.
  - rewrite bool_decide_eq_false_2 by done. intros [= <- <-]. rewrite decide_False by (intros (?&?&?); congruence). by split_and!.
Qed.

Lemma run_one_sound opts target_id action w r w' :
  cache_sound w -> run_one opts target_id action w = (r, w') -> cache_sound w'.
Proof.
  intros Hs Hrun. destruct (run_one_cases _ _ _ _ _ _ Hs Hrun) as [(Hr & Hc & _)|(binaries & tools & outcome & _ & _ & _ & _ & _ & Hr & Hc)].
  { intros path entry. rewrite Hc. intros (x & Hx & ?)%Hs. exists x. by rewrite Hr. }
  assert (forall path entry, bw_cache w !! path = Some entry -> exists x, x ∈ bw_ran w' /\ ran_exit x = 0%Z /\
    ace_cache_key entry = ran_key x /\ ace_output_paths entry = out_path <$> ba_outputs (ran_action x)) as Hold.
  { intros path entry (x & Hx & ?)%Hs. exists x. rewrite Hr. split; [apply elem_of_app; by left|done]. }
  case_decide as Hd; [destruct (host_persist_error _ _)|]; destruct Hc as [_ Hc]; intros path entry; rewrite Hc; [by apply Hold| |by apply Hold].
  rewrite lookup_insert_Some. intros [[_ <-]|[_ ?]]; [|by eapply Hold].
  eexists. rewrite Hr. split; [apply elem_of_app; right; left|]. by split_and!; [apply Hd|..].
Qed.

(** C27. One action, whichever options: without a process run for it, it was a dry run, it
    failed before its process answered, or it was served from the cache, and then some
    process has run to success before that started from what has the very key this action
    would start from (action, inputs, tools, confinement) and everything that process
    declared to write is still there. Otherwise its process ran once, after no entry was
    found, and the cache takes an entry under the key of what the process started from
    exactly when it succeeded, caching is on and written to, and the entry could be stored.
    So the cache only ever holds entries of successful processes under their own keys. *)
Theorem run_one_correct opts target_id action w :
  cache_sound w ->
  let '(r, w') := run_one opts target_id action w in
  cache_sound w' /\
  ((bw_ran w' = bw_ran w /\ bw_cache w' = bw_cache w /\ not_run opts target_id action w r) \/
   was_run opts target_id action w r w').
Proof.
  intros Hs. destruct (run_one opts target_id action w) as [r w'] eqn:E.
  split; [by eapply run_one_sound|by apply run_one_cases].
Qed.

(** *** A target's actions *)

Lemma run_one_no_panic opts target_id action w : (run_one opts target_id action w).1 <> Panic.
Proof.
  unfold run_one. destruct (eo_dry_run opts); [done|]. destruct (closure action) as [|binaries]; [done|].
  destruct (collect_fingerprints _ _) as [|tools]; [done|]. destruct (_ && _); [done|].
  destruct (host_run _ _ _ _ _) as [[|outcome] env']; [done|]. unfold record_run, persist_cache.
  destruct (_ && _); [|done]. by destruct (host_persist_error _ _).
Qed.

Definition run_of (r : ran) : string * BuildAction := (ran_target r, ran_action r).

Lemma run_one_runs opts target_id action w o w' :
  eo_no_cache opts = true -> eo_dry_run opts = false -> run_one opts target_id action w = (Ok o, w') ->
  exists r, bw_ran w' = bw_ran w ++ [r] /\ run_of r = (target_id, action).
Proof.
  intros Hn Hd. unfold run_one. rewrite Hd, Hn. destruct (closure action) as [|binaries]; [done|].
  destruct (collect_fingerprints _ _) as [|tools]; [done|]. simpl.
  destruct (host_run _ _ _ _ _) as [[|outcome] env']; [done|]. unfold record_run. rewrite Hn.
  rewrite andb_false_r. simpl. intros [= _ <-]. by eexists.
Qed.

(** After a wave every slot of the wave is filled, the others are as they were. *)
Lemma store_results_ok results outcomes outcomes' :
  store_results results outcomes = Ok outcomes' ->
  length outcomes' = length outcomes /\
  (forall i o, (i, Ok o) ∈ results \/ outcomes !! i = Some (Some o) -> exists o', outcomes' !! i = Some (Some o')) /\
  Forall (fun ir => exists o, ir.2 = Ok o) results.
Proof.
  revert outcomes. induction results as [|[idx r] results IH]; intros outcomes; simpl.
  { intros [= <-]. split_and!; [done| |constructor]. intros i o [Hin|Ho]; [by apply not_elem_of_nil in Hin|by eexists]. }
  destruct r as [o| |]; [|done..]. case_decide as Hlt; [|done]. intros Hst.
  destruct (IH _ Hst) as (Hlen & Hfill & Hall). rewrite length_insert in Hlen.
  split_and!; [done| |constructor; [by eexists|done]].
  intros i o' [[[= -> ->]|Hin]%elem_of_cons|Ho].
  - apply (Hfill idx o). right. by rewrite list_lookup_insert_eq.
  - apply (Hfill i o'). by left.
  - destruct (decide (i = idx)) as [->|Hne].
    + apply (Hfill idx o). right. by rewrite list_lookup_insert_eq.
    + apply (Hfill i o'). right. by rewrite list_lookup_insert_ne.
Qed.

Lemma store_results_no_panic results outcomes :
  (forall i r, (i, r) ∈ results -> i < length outcomes /\ r <> Panic) -> store_results results outcomes <> Panic.
Proof.
  revert outcomes. induction results as [|[idx r] results IH]; intros outcomes Hr; simpl; [done|].
  destruct (Hr idx r ltac:(left)) as [Hlt Hp]. destruct r as [o| |]; [|done..].
  rewrite decide_True by done. apply IH. intros i r Hin. rewrite length_insert. apply Hr. by right.
Qed.

Lemma run_wave_ok opts target_id actions wave w :
  (forall i, i ∈ wave -> i < length actions) ->
  (forall i r, (i, r) ∈ (run_wave opts target_id actions wave w).1 -> i ∈ wave /\ r <> Panic) /\
  (forall i, i ∈ wave -> exists r, (i, r) ∈ (run_wave opts target_id actions wave w).1).
Proof.
  revert w. induction wave as [|idx wave IH]; intros w Hlt; simpl; [set_solver|].
  destruct (lookup_lt_is_Some_2 actions idx) as [action Ha]; [apply Hlt; left|]. rewrite Ha.
  pose proof (run_one_no_panic opts target_id action w) as Hnp.
  destruct (run_one opts target_id action w) as [r w1]. simpl in Hnp.
  destruct (IH w1) as [H1 H2]; [intros; apply Hlt; by right|].
  destruct (run_wave opts target_id actions wave w1) as [rs w2]. simpl in *. split.
  - intros i r' [[= -> ->]|Hin]%elem_of_cons; [split; [left|done]|]. destruct (H1 _ _ Hin). split; [by right|done].
  - intros i [->|Hin]%elem_of_cons; [exists r; left|]. destruct (H2 _ Hin) as [r' Hr']. exists r'. by right.
Qed.

Lemma run_waves_ok opts target_id actions waves outcomes w :
  (forall i, i ∈ concat waves -> i < length actions) -> length outcomes = length actions ->
  match (run_waves opts target_id actions waves outcomes w).1 with
  | Ok outcomes' => length outcomes' = length actions /\
      forall i, i ∈ concat waves \/ (exists o, outcomes !! i = Some (Some o)) -> exists o, outcomes' !! i = Some (Some o)
  | Err _ => True
  | Panic => False
  end.
Proof.
  revert outcomes w. induction waves as [|wave waves IH]; intros outcomes w Hlt Hlen; simpl.
  { split; [done|]. intros i [Hin|Ho]; [by apply not_elem_of_nil in Hin|done]. }
  destruct (run_wave_ok opts target_id actions wave w) as [H1 H2]; [intros; apply Hlt; set_solver|].
  destruct (run_wave opts target_id actions wave w) as [results w1]. simpl in *.
  pose proof (store_results_no_panic results outcomes) as Hnp.
  destruct (store_results results outcomes) as [outcomes'|e|] eqn:Hst; simpl; [|done|].
  - destruct (store_results_ok _ _ _ Hst) as (Hlen' & Hfill & Hall).
    specialize (IH outcomes' w1 ltac:(intros; apply Hlt; set_solver) ltac:(congruence)).
    destruct (run_waves opts target_id actions waves outcomes' w1) as [[out| |] w2]; simpl in *; [|done..].
    destruct IH as [Hl Hf]. split; [done|]. intros i [[Hi|Hi]%elem_of_app|[o Ho]].
    + apply Hf. right. destruct (H2 _ Hi) as [r Hr]. rewrite Forall_forall in Hall.
      destruct (Hall _ Hr) as [o Ho]. simpl in Ho. subst r. by apply (Hfill i o); left.
    + apply Hf. by left.
    + apply Hf. right. by apply (Hfill i o); right.
  - apply Hnp; [|done]. intros i r Hin. destruct (H1 _ _ Hin). split; [rewrite Hlen; apply Hlt; set_solver|done].
Qed.

Lemma waves_of_actions actions waves :
  action_waves pattern actions = Ok waves -> concat waves ≡ₚ seq 0 (length actions).
Proof.
  intros Hw. unfold action_waves in Hw.
  pose proof (kahn_waves_ok _ _ (overlap_in_range pattern actions)) as Hk. rewrite Hw in Hk. by destruct Hk.
Qed.

(** Every action ran: the [expect] of the last step cannot fail, and there is one
    outcome per action. *)
Lemma run_target_actions_ok opts target_id actions w :
  match (run_target_actions opts target_id actions w).1 with
  | Ok outcomes => length outcomes = length actions
  | Err _ => True
  | Panic => False
  end.
Proof.
  unfold run_target_actions. pose proof (kahn_waves_ok _ _ (overlap_in_range pattern actions)) as Hk.
  fold (action_waves pattern actions) in Hk.
  destruct (action_waves pattern actions) as [waves|e|] eqn:Hw; [|done..].
  pose proof (waves_of_actions _ _ Hw) as Hperm.
  assert (forall i, i ∈ concat waves <-> i < length actions) as Hin.
  { intros i. rewrite Hperm, elem_of_seq. lia. }
  pose proof (run_waves_ok opts target_id actions waves (replicate (length actions) None) w
    (fun i => proj1 (Hin i)) ltac:(by rewrite length_replicate)) as Hr.
  destruct (run_waves _ _ _ _ _ _) as [[outcomes| |] w']; simpl in *; [|done..].
  destruct Hr as [Hlen Hfull]. destruct (mapM id outcomes) as [os|] eqn:Hm.
  - apply length_mapM in Hm. congruence.
  - apply mapM_None in Hm. apply Exists_exists in Hm as (x & Hx & Hnone).
    apply list_elem_of_lookup in Hx as [i Hi].
    destruct (Hfull i) as [o Ho]; [left; apply Hin; apply lookup_lt_Some in Hi; lia|].
    rewrite Hi in Ho. simplify_eq/=. 
Qed.

(** *** The calls of a build *)

(** One call of [run_one] after another, each answered: target, action and outcome. *)
Inductive calls (opts : ExecuteOptions) : build_world -> list (string * BuildAction * ActionOutcome) -> build_world -> Prop :=
| calls_nil w : calls opts w [] w
| calls_cons w w1 w2 t a o cs :
    run_one opts t a w = (Ok o, w1) -> calls opts w1 cs w2 -> calls opts w ((t, a, o) :: cs) w2.

Lemma calls_app opts w w1 w2 cs1 cs2 : calls opts w cs1 w1 -> calls opts w1 cs2 w2 -> calls opts w (cs1 ++ cs2) w2.
Proof. induction 1; [done|]. intros ?. econstructor; eauto. Qed.

(** With the cache off every call is a process. *)
Lemma calls_run opts w cs w' :
  eo_no_cache opts = true -> eo_dry_run opts = false -> calls opts w cs w' ->
  exists new, bw_ran w' = bw_ran w ++ new /\ run_of <$> new = fst <$> cs.
Proof.
  intros Hn Hd. induction 1 as [w|w w1 w2 t a o cs Hr _ (new & Hnew & Hf)]; [exists []; by rewrite app_nil_r|].
  destruct (run_one_runs _ _ _ _ _ _ Hn Hd Hr) as (x & Hx & Hxr). exists (x :: new).
  rewrite Hnew, Hx, <- app_assoc. split; [done|]. by rewrite !fmap_cons, Hxr, Hf.
Qed.

Section calls.
Context (opts : ExecuteOptions).

Lemma run_wave_calls target_id actions wave w :
  Forall (fun ir => exists o, ir.2 = Ok o) (run_wave opts target_id actions wave w).1 ->
  exists cs, calls opts w cs (run_wave opts target_id actions wave w).2 /\
    Forall2 (fun i c => (fun a => (target_id, a)) <$> actions !! i = Some c.1) wave cs.
Proof.
  revert w. induction wave as [|idx wave IH]; intros w; simpl.
  { intros _. exists []. split; constructor. }
  destruct (actions !! idx) as [action|] eqn:Ha.
  - destruct (run_one opts target_id action w) as [r w1] eqn:Hr. specialize (IH w1).
    destruct (run_wave opts target_id actions wave w1) as [rs w2]. simpl in *.
    intros [[o Ho] Hall]%Forall_cons. simpl in Ho. subst r.
    destruct (IH Hall) as (cs & Hcs & Hf). exists ((target_id, action, o) :: cs).
    split; [by econstructor|]. constructor; [|done]. by rewrite Ha.
  - destruct (run_wave opts target_id actions wave w) as [rs w2]. simpl. intros [[o Ho] _]%Forall_cons. done.
Qed.

Lemma run_waves_calls target_id actions waves outcomes w outcomes' w' :
  run_waves opts target_id actions waves outcomes w = (Ok outcomes', w') ->
  exists cs, calls opts w cs w' /\
    Forall2 (fun i c => (fun a => (target_id, a)) <$> actions !! i = Some c.1) (concat waves) cs.
Proof.
  revert outcomes w. induction waves as [|wave waves IH]; intros outcomes w; simpl.
  { intros [= _ <-]. exists []. split; constructor. }
  pose proof (run_wave_calls target_id actions wave w) as Hw.
  destruct (run_wave opts target_id actions wave w) as [results w1]. simpl in Hw.
  destruct (store_results results outcomes) as [out1| |] eqn:Hst; [|done..]. intros Hrest.
  destruct (store_results_ok _ _ _ Hst) as (_ & _ & Hall). destruct (Hw Hall) as (c1 & Hc1 & Hf1).
  destruct (IH _ _ Hrest) as (c2 & Hc2 & Hf2). exists (c1 ++ c2).
  split; [by eapply calls_app|]. by apply Forall2_app.
Qed.

Lemma run_target_actions_calls target_id actions w outcomes w' :
  run_target_actions opts target_id actions w = (Ok outcomes, w') ->
  exists cs, calls opts w cs w' /\ fst <$> cs ≡ₚ (fun a => (target_id, a)) <$> actions.
Proof.
  unfold run_target_actions. destruct (action_waves pattern actions) as [waves| |] eqn:Hw; [|done..].
  destruct (run_waves _ _ _ _ _ _) as [[out| |] w1] eqn:Hr; [|done..].
  destruct (mapM id out); [|done]. intros [= _ <-]. destruct (run_waves_calls _ _ _ _ _ _ _ Hr) as (cs & Hcs & Hf).
  exists cs. split; [done|]. apply waves_of_actions in Hw.
  assert (Some <$> (fst <$> cs) = (fun i => (fun a => (target_id, a)) <$> actions !! i) <$> concat waves) as Heq.
  { clear -Hf. induction Hf as [|i c ixs cs Hi _ IH]; [done|]. rewrite !fmap_cons, Hi, IH. done. }
  assert (Some <$> (fst <$> cs) ≡ₚ Some <$> ((fun a => (target_id, a)) <$> actions)) as Hp.
  { rewrite Heq, Hw. clear. induction actions as [|a actions IH] using rev_ind; [done|].
    rewrite length_app. simpl. rewrite seq_app, !fmap_app. simpl. f_equiv.
    - rewrite <- IH. rewrite (fmap_ext_in _ (fun i => (fun a => (target_id, a)) <$> actions !! i)); [done|].
      intros i Hi%elem_of_seq. by rewrite lookup_app_l by lia.
    - by rewrite lookup_app_r, Nat.sub_diag by lia. }
  apply Permutation_map_inv in Hp as (ys & Hys & Hp').
  apply (inj (fmap (M := list) Some)) in Hys. by rewrite Hys, Hp'.
Qed.

(** The calls of a build, plan by plan. *)
Lemma run_plans_calls target_id plans record w record' w' :
  run_plans opts target_id plans record w = (Ok record', w') ->
  exists segs, calls opts w (concat segs) w' /\
    Forall2 (fun p seg => fst <$> seg ≡ₚ (fun a => (p.1, a)) <$> p.2) plans segs.
Proof.
  revert record w. induction plans as [|[t actions] plans IH]; intros record w; simpl.
  { intros [= _ <-]. exists []. split; constructor. }
  destruct (run_target_actions opts t actions w) as [[outcomes| |] w1] eqn:Hr; [|done..]. intros Hrest.
  destruct (run_target_actions_calls _ _ _ _ _ Hr) as (cs & Hcs & Hp).
  destruct (IH _ _ Hrest) as (segs & Hsegs & Hf). exists (cs :: segs).
  simpl. split; [by eapply calls_app|]. by constructor.
Qed.
End calls.
End executor.

Arguments build_world : clear implicits.

(** ** [execute_target_with_tools] *)

Section execute.
Context {F : Type} `{!@ConfigReader F} {W : Type} `{!BuildHost W} `{!JsonText}.
Context (sha256 : string -> string) (repo_root : string) (pattern : string -> option (string -> bool)).
Context (script_action : F -> BuildError + BuildAction) (registry : gmap string (@plugin F)).
(** [ToolRun::new] and its [closure]: the tools the planned actions name, read before any runs. *)
Context (tool_run : list BuildAction -> BuildError + (BuildAction -> BuildError + list string)).

Fixpoint make_plans (g : @BuildGraph F) (target_id : string) (mode : BuildMode) (order : list string)
    : BuildError + list (string * list BuildAction) :=
  match order with
  | [] => inr []
  | current :: rest =>
      let current_mode := if decide (current = target_id) then mode else Compile in
      match actions_for_mode script_action registry g current current_mode with
      | inl e => inl e
      | inr actions =>
          match make_plans g target_id mode rest with
          | inl e => inl e
          | inr plans => inr (match actions with [] => plans | _ => (current, actions) :: plans end)
          end
      end
  end.

Definition execute_target (g : @BuildGraph F) (target_id : string) (opts : ExecuteOptions) (mode : BuildMode)
    : io (build_world W) BuildError BuildRecord :=
  fun w =>
    match build_order g target_id with
    | Err e => (Err e, w)
    | Panic => (Panic, w)
    | Ok order =>
        match make_plans g target_id mode order with
        | inl e => (Err e, w)
        | inr plans =>
            match tool_run (plans ≫= snd) with
            | inl e => (Err e, w)
            | inr closure =>
                run_plans sha256 repo_root closure pattern opts target_id plans (mkRecord target_id []) w
            end
        end
    end.

(** The plans are the non-empty lowerings of the order, in order. *)
Lemma make_plans_split g target_id mode order plans p1 p p2 :
  make_plans g target_id mode order = inr plans -> plans = p1 ++ p :: p2 ->
  exists o1 o2, order = o1 ++ p.1 :: o2 /\
    forall d actions, d ∈ o1 ->
      actions_for_mode script_action registry g d (if decide (d = target_id) then mode else Compile) = inr actions ->
      actions <> [] -> (d, actions) ∈ p1.
Proof.
  revert plans p1. induction order as [|t order IH]; intros plans p1; simpl.
  { intros [= <-]. by destruct p1. }
  destruct (actions_for_mode _ _ g t _) as [e|acts] eqn:Ha; [done|].
  destruct (make_plans g target_id mode order) as [e|plans'] eqn:Hm; [done|]. intros [= <-] Heq.
  assert (forall q1, plans' = q1 ++ p :: p2 -> (forall acts', acts = acts' -> acts' <> [] -> (t, acts') ∈ p1) ->
    (forall x, x ∈ q1 -> x ∈ p1) ->
    exists o1 o2, t :: order = o1 ++ p.1 :: o2 /\
      forall d actions, d ∈ o1 ->
        actions_for_mode script_action registry g d (if decide (d = target_id) then mode else Compile) = inr actions ->
        actions <> [] -> (d, actions) ∈ p1) as Hrec.
  { intros q1 Hq Ht Hsub. destruct (IH _ _ eq_refl Hq) as (o1 & o2 & -> & Ho).
    exists (t :: o1), o2. split; [done|]. intros d actions [->|Hd]%elem_of_cons Hact Hne.
    - apply Ht; congruence.
    - eapply Hsub, Ho; done. }
  destruct acts as [|a acts]; [by apply (Hrec p1)|].
  destruct p1 as [|q p1]; simplify_eq/=.
  - exists [], order. split; [done|]. intros d actions Hd. by apply not_elem_of_nil in Hd.
  - apply (Hrec p1); [done| |intros; by right]. intros acts' <- _. left.
Qed.

Lemma concat_split {A} (segs : list (list A)) l1 x l2 :
  concat segs = l1 ++ x :: l2 ->
  exists s1 seg s2, segs = s1 ++ seg :: s2 /\ x ∈ seg /\ (forall y, y ∈ concat s1 -> y ∈ l1).
Proof.
  revert l1. induction segs as [|seg segs IH]; intros l1 Heq; simpl in Heq; [by destruct l1|].
  apply app_eq_inv in Heq as [(k & -> & Hk)|(k & -> & Hk)].
  - destruct k as [|y k].
    + simpl in Hk. destruct (IH [] (eq_sym Hk)) as (s1 & seg' & s2 & -> & Hx & Hsub).
      exists ((l1 ++ []) :: s1), seg', s2. split_and!; [done..|]. simpl. intros z. rewrite app_nil_r, elem_of_app.
      intros [Hz|Hz]; [done|]. by apply Hsub, not_elem_of_nil in Hz.
    + injection Hk as <- ->. exists [], (l1 ++ x :: k), segs. split_and!; [done|set_solver|].
      intros z Hz. by apply not_elem_of_nil in Hz.
  - destruct (IH k Hk) as (s1 & seg' & s2 & -> & Hx & Hsub).
    exists (seg :: s1), seg', s2. split_and!; [done..|]. simpl. intros z. rewrite !elem_of_app. naive_solver.
Qed.

End execute.

(** ** A library and the application that depends on it *)

Definition shell_action (id : string) : BuildAction :=
  mkAction id "" TCommand ["sh"; id] ∅ [] [] [] "" false.

Definition lib_target : @BuildTarget () := mkTarget "lib" "lib" [] [shell_action "bad"] None.
Definition app_target : @BuildTarget () := mkTarget "app" "app" ["lib"] [shell_action "link"] None.

#[local] Instance no_config : @ConfigReader () := {|
  group_member_ids _ := inr []; tool_binary_target _ _ := None |}.

Definition demo_graph : @BuildGraph () :=
  mkGraph {["lib" := lib_target; "app" := app_target]} ["lib"; "app"].

(** A machine without files on which the action [bad] exits with 1. *)
#[local] Instance demo_host : BuildHost () := {|
  host_inputs _ _ := []; host_fingerprint _ p := inr (mkFingerprint p 0%N 0%N); host_exists _ _ := true;
  host_prepare w _ := w;
  host_run _ _ action _ w :=
    (inr (mkOutcome (ba_id action) false (if decide (ba_id action = "bad") then 1%Z else 0%Z) (ba_command action) "" ""), w);
  host_persist_error _ _ := None; host_now_ms _ := 0%N |}.

Definition demo_execute (no_cache : bool) : io (build_world ()) BuildError BuildRecord :=
  @execute_target () _ () _ tree_json (fun p => p) "/repo" (fun _ => None) (fun _ => inl (BExec ""))
    ∅ (fun _ => inr (fun _ => inr [])) demo_graph "app" (mkOptions no_cache false ReadWrite false) Compile.

Definition empty_world : build_world () := mkBuildWorld () ∅ [].

(** A dependency that fails is not reported: its process exits with 1, the
    application is built on top of it all the same, and the record the build answers
    with holds the application's success only. *)
Theorem failed_dependency_unreported :
  exists w', demo_execute false empty_world =
    (Ok (mkRecord "app" [mkOutcome "link" false 0 ["sh"; "link"] "" ""]), w') /\
  (fun r => (ran_target r, ran_exit r)) <$> bw_ran w' = [("lib", 1%Z); ("app", 0%Z)].
Proof. eexists. split; vm_compute; reflexivity. Qed.


Lemma empty_world_sound : @cache_sound () tree_json (fun p => p) empty_world.
Proof. intros path entry. simpl. by rewrite lookup_empty. Qed.

Lemma run_one_correct_witness :
  @cache_sound () tree_json (fun p => p) (@run_one () demo_host tree_json (fun p => p) "/repo" (fun _ => inr [])
    (mkOptions false false ReadWrite false) "app" (shell_action "link") empty_world).2.
Proof.
  pose proof (@run_one_correct () demo_host tree_json (fun p => p) "/repo" (fun _ => inr [])
    (mkOptions false false ReadWrite false) "app" (shell_action "link") empty_world empty_world_sound) as Hok.
  destruct (run_one _ _ _ _ _ _ _). exact (proj1 Hok).
Defined.
