(* ===== verification/HostPattern.v ===== *)
(** * Host patterns of a tool's network section

    [src/packages/tddy-actions/src/tool/network.rs]: reading and writing
    [host[:port]] and [*.domain[:port]]. *)

From Stdlib Require Import Ascii.
From stdpp Require Import pretty.
From S2P Require Import Prelude Text NodeIds.

Definition DEFAULT_EGRESS_PORT : N := 443.
Definition u16_max : N := 65535.

Record HostPattern := mkHostPattern { hp_host : string; hp_port : N }.

Record HostPatternError := mkHostPatternError { hpe_pattern : string; hpe_reason : string }.

Inductive Egress := EgressNone | EgressAny | EgressHosts (hosts : list HostPattern).

Record NetworkSection := mkNetwork { ns_egress : Egress; ns_oauth_inbound : bool }.

(** [str::contains] of a text. *)
Fixpoint contains_str (pat s : string) : bool :=
  starts_with pat s || match s with "" => false | String _ s' => contains_str pat s' end.

Definition is_alphanumeric (a : ascii) : bool :=
  let n := N_of_ascii a in
  bool_decide (48 <= n <= 57 \/ 65 <= n <= 90 \/ 97 <= n <= 122)%N.

Definition to_ascii_lowercase_char (a : ascii) : ascii :=
  let n := N_of_ascii a in if decide (65 <= n <= 90)%N then ascii_of_N (n + 32) else a.

Fixpoint to_ascii_lowercase (s : string) : string :=
  match s with "" => "" | String a s' => String (to_ascii_lowercase_char a) (to_ascii_lowercase s') end.

Fixpoint all_chars (p : ascii -> bool) (s : string) : bool :=
  match s with "" => true | String a s' => p a && all_chars p s' end.

Definition label_char (a : ascii) : bool := is_alphanumeric a || bool_decide (a = "-"%char).

(** The first label that is refused, with why. *)
Fixpoint check_labels (labels : list string) : option string :=
  match labels with
  | [] => None
  | label :: rest =>
      if decide (label = "") then Some "empty label"
      else if all_chars label_char label then check_labels rest
      else Some "not a valid host name"
  end.

(** [HostPattern::parse]. *)
Definition parse_pattern (pattern : string) : HostPatternError + HostPattern :=
  let refuse reason := inl (mkHostPatternError pattern reason) in
  if contains_str "://" pattern then refuse "a scheme is not a host"
  else
    let split :=
      match rsplit_once ":" pattern with
      | Some (name, port) =>
          match parse_unsigned u16_max port with
          | Some p => if decide (p = 0)%N then None else Some (name, p)
          | None => None
          end
      | None => Some (pattern, DEFAULT_EGRESS_PORT)
      end in
    match split with
    | None => refuse "port must be 1..=65535"
    | Some (name, port) =>
        if has_char "/" name then refuse "a path is not part of a host"
        else
          let domain := default name (strip_prefix "*." name) in
          if has_char "*" domain then refuse "`*` is only allowed as a leading `*.`"
          else
            match check_labels (split_on "." domain) with
            | Some reason => refuse reason
            | None => inr (mkHostPattern (to_ascii_lowercase name) port)
            end
    end.

(** [Display], which is how a pattern is written back to a tool file. *)
Definition pattern_to_string (p : HostPattern) : string := hp_host p +:+ ":" +:+ pretty (hp_port p).

Example parse_pattern_examples :
  parse_pattern "API.anthropic.com" = inr (mkHostPattern "api.anthropic.com" 443) /\
  parse_pattern "*.statsig.com:8080" = inr (mkHostPattern "*.statsig.com" 8080) /\
  parse_pattern "a.*.com" = inl (mkHostPatternError "a.*.com" "`*` is only allowed as a leading `*.`") /\
  parse_pattern "a..com" = inl (mkHostPatternError "a..com" "empty label") /\
  parse_pattern "host:0" = inl (mkHostPatternError "host:0" "port must be 1..=65535").
Proof. split_and!; vm_compute; reflexivity. Qed.

(** ** Reading back what was written *)

(** A label: lower-case letters, digits and dashes, at least one. *)
Definition lower_label_char (a : ascii) : bool := label_char a && bool_decide (to_ascii_lowercase_char a = a).

Definition valid_domain (domain : string) : Prop :=
  Forall (fun label => label <> "" /\ all_chars lower_label_char label = true) (split_on "." domain).

(** What every pattern that was read is: a lower-case host name, possibly after a
    leading wildcard, and a port. *)
Definition pattern_ok (p : HostPattern) : Prop :=
  (1 <= hp_port p <= u16_max)%N /\
  exists domain, valid_domain domain /\ (hp_host p = domain \/ hp_host p = "*." +:+ domain).

Lemma lowercase_app s t : to_ascii_lowercase (s +:+ t) = to_ascii_lowercase s +:+ to_ascii_lowercase t.
Proof. induction s as [|a s IH]; [done|]. change (String a s +:+ t) with (String a (s +:+ t)). simpl. by rewrite IH. Qed.

(** Lower-casing a character: a finite case analysis. *)
Ltac all_ascii a := destruct a as [[] [] [] [] [] [] [] []]; vm_compute; try done.

Lemma lowercase_char_idem a : to_ascii_lowercase_char (to_ascii_lowercase_char a) = to_ascii_lowercase_char a.
Proof. all_ascii a. Qed.

Lemma lowercase_label_char a : label_char a = true -> lower_label_char (to_ascii_lowercase_char a) = true.
Proof. all_ascii a. Qed.

Lemma lowercase_dot a : to_ascii_lowercase_char a = "."%char <-> a = "."%char.
Proof. all_ascii a. Qed.

Lemma lower_label_plain a : lower_label_char a = true -> a <> "*"%char /\ a <> "/"%char /\ a <> ":"%char /\ a <> "."%char.
Proof. all_ascii a. Qed.

Lemma lowercase_label s : all_chars label_char s = true -> all_chars lower_label_char (to_ascii_lowercase s) = true.
Proof.
  induction s as [|a s IH]; [done|]. simpl. intros [Ha Hs]%andb_prop.
  by rewrite lowercase_label_char, IH.
Qed.

Lemma lower_is_label s :
  all_chars lower_label_char s = true -> all_chars label_char s = true /\ to_ascii_lowercase s = s.
Proof.
  induction s as [|a s IH]; [done|]. simpl. intros [Ha Hs]%andb_prop.
  apply andb_prop in Ha as [Ha Hl]. apply bool_decide_eq_true in Hl.
  destruct (IH Hs) as [-> ->]. by rewrite Ha, Hl.
Qed.

Lemma split_on_lowercase s : split_on "." (to_ascii_lowercase s) = to_ascii_lowercase <$> split_on "." s.
Proof.
  induction s as [|a s IH]; [done|]. cbn [to_ascii_lowercase split_on].
  destruct (decide (a = "."%char)) as [->|Ha].
  - rewrite decide_True by done. by rewrite fmap_cons, IH.
  - rewrite decide_False by (by rewrite lowercase_dot). rewrite IH.
    pose proof (split_on_nonempty "." s) as Hne. destruct (split_on "." s) as [|w ws]; [done|]. done.
Qed.

Lemma check_labels_None labels :
  check_labels labels = None <-> Forall (fun l => l <> "" /\ all_chars label_char l = true) labels.
Proof.
  induction labels as [|l labels IH]; simpl; [by split|]. rewrite Forall_cons, <- IH.
  case_decide; [naive_solver|]. destruct (all_chars label_char l); naive_solver.
Qed.

Lemma valid_domain_lowercase domain :
  check_labels (split_on "." domain) = None -> valid_domain (to_ascii_lowercase domain).
Proof.
  rewrite check_labels_None. unfold valid_domain. rewrite split_on_lowercase, Forall_fmap.
  intros Hall. eapply Forall_impl; [exact Hall|]. intros l [Hne Hl].
  split; [by destruct l|]. by apply lowercase_label.
Qed.

Lemma has_char_app c s t : has_char c (s +:+ t) = has_char c s || has_char c t.
Proof.
  induction s as [|a s IH]; [done|]. change (String a s +:+ t) with (String a (s +:+ t)). simpl.
  by rewrite IH, orb_assoc.
Qed.

Lemma has_char_split c s : c <> "."%char -> has_char c s = existsb (has_char c) (split_on "." s).
Proof.
  intros Hc. induction s as [|a s IH]; [done|]. cbn [has_char split_on].
  destruct (decide (a = "."%char)) as [->|Ha].
  - simpl. rewrite bool_decide_eq_false_2 by done. done.
  - rewrite IH. pose proof (split_on_nonempty "." s). destruct (split_on "." s) as [|w ws]; [done|].
    simpl. by rewrite orb_assoc.
Qed.

Lemma has_char_label c s :
  (forall a, lower_label_char a = true -> a <> c) -> all_chars lower_label_char s = true -> has_char c s = false.
Proof.
  intros Hc. induction s as [|a s IH]; [done|]. simpl. intros [Ha Hs]%andb_prop.
  rewrite bool_decide_eq_false_2 by eauto. by apply IH.
Qed.

Lemma valid_domain_free c domain :
  c <> "."%char -> (forall a, lower_label_char a = true -> a <> c) ->
  valid_domain domain -> has_char c domain = false.
Proof.
  intros Hdot Hc Hv. rewrite has_char_split by done. unfold valid_domain in Hv.
  induction Hv as [|l ls [_ Hl] _ IH]; [done|]. simpl. rewrite has_char_label by done. done.
Qed.

Lemma digits_free c s :
  digit c = None -> Forall (fun a => is_Some (digit a)) (String.list_ascii_of_string s) -> has_char c s = false.
Proof.
  intros Hc. induction s as [|a s IH]; [done|]. simpl. intros [[d Hd] Hs]%Forall_cons.
  rewrite bool_decide_eq_false_2 by congruence. by apply IH.
Qed.

Lemma contains_scheme s : contains_str "://" s = true -> has_char "/" s = true.
Proof.
  induction s as [|a s IH]; [done|]. cbn [contains_str]. intros [Hs|Hs]%orb_prop.
  - unfold starts_with in Hs. apply bool_decide_eq_true in Hs as [t Ht]. apply strip_prefix_Some in Ht.
    rewrite Ht, has_char_app. done.
  - simpl. rewrite (IH Hs). apply orb_true_r.
Qed.

Lemma split_lower s :
  Forall (fun label => all_chars lower_label_char label = true) (split_on "." s) -> to_ascii_lowercase s = s.
Proof.
  induction s as [|a s IH]; [done|]. cbn [to_ascii_lowercase split_on].
  destruct (decide (a = "."%char)) as [->|Ha].
  - intros [_ Hs]%Forall_cons. by rewrite (IH Hs).
  - destruct (split_on "." s) as [|w ws] eqn:Hsp; [by apply split_on_nonempty in Hsp|].
    intros [Hw Hws]%Forall_cons. simpl in Hw. apply andb_prop in Hw as [Hc Hw].
    apply andb_prop in Hc as [_ Hc%bool_decide_eq_true]. rewrite Hc. f_equal. apply IH. by constructor.
Qed.

Lemma valid_domain_lower domain : valid_domain domain -> to_ascii_lowercase domain = domain.
Proof. intros Hv. apply split_lower. eapply Forall_impl; [exact Hv|]. by intros l [_ Hl]. Qed.

Lemma parse_pattern_ok pattern p : parse_pattern pattern = inr p -> pattern_ok p.
Proof.
  unfold parse_pattern. destruct (contains_str "://" pattern); [done|].
  assert (forall name port, (1 <= port <= u16_max)%N ->
    match (if has_char "/" name then inl (mkHostPatternError pattern "a path is not part of a host")
           else if has_char "*" (default name (strip_prefix "*." name))
           then inl (mkHostPatternError pattern "`*` is only allowed as a leading `*.`")
           else match check_labels (split_on "." (default name (strip_prefix "*." name))) with
                | Some reason => inl (mkHostPatternError pattern reason)
                | None => inr (mkHostPattern (to_ascii_lowercase name) port)
                end) with
    | inr q => pattern_ok q
    | inl _ => True
    end) as Hgen.
  { intros name port Hport. destruct (has_char "/" name); [done|]. destruct (has_char "*" _); [done|].
    destruct (check_labels _) eqn:Hl; [done|]. split; [done|]. apply valid_domain_lowercase in Hl.
    exists (to_ascii_lowercase (default name (strip_prefix "*." name))). split; [done|].
    destruct (strip_prefix "*." name) as [d|] eqn:Hs; [right|by left].
    apply strip_prefix_Some in Hs as ->. simpl. by rewrite lowercase_app. }
  intros Hp. destruct (rsplit_once ":" pattern) as [[name port]|].
  - destruct (parse_unsigned u16_max port) as [n|] eqn:Hn; [|done]. case_decide as Hz; [done|].
    apply parse_unsigned_bound in Hn. specialize (Hgen name n). cbv beta zeta iota in Hp. rewrite Hp in Hgen.
    apply Hgen. lia.
  - specialize (Hgen pattern DEFAULT_EGRESS_PORT). cbv beta zeta iota in Hp.
    rewrite Hp in Hgen. by apply Hgen.
Qed.

Lemma parse_written p : pattern_ok p -> parse_pattern (pattern_to_string p) = inr p.
Proof.
  destruct p as [host port]. intros [Hport (domain & Hv & Hhost)]. simpl in *.
  assert (forall c, c <> "."%char -> c <> "*"%char -> (forall a, lower_label_char a = true -> a <> c) ->
    has_char c host = false) as Hfree.
  { intros c Hd Hs Hc. destruct Hhost as [->| ->]; [by apply valid_domain_free|].
    rewrite has_char_app, (valid_domain_free c domain), orb_false_r by done. cbn [has_char].
    rewrite !bool_decide_eq_false_2 by congruence. done. }
  assert (has_char "/" host = false) as Hslash by (apply Hfree; try done; intros a Ha; apply lower_label_plain in Ha; tauto).
  unfold parse_pattern, pattern_to_string. cbn [hp_host hp_port].
  change (":" +:+ pretty port) with (String ":" (pretty port)).
  destruct (contains_str "://" _) eqn:Hc.
  { apply contains_scheme in Hc. rewrite has_char_app, Hslash in Hc. simpl in Hc.
    by rewrite (digits_free "/" _ eq_refl (pretty_digits port)) in Hc. }
  rewrite rsplit_once_app by apply (digits_free ":" _ eq_refl (pretty_digits port)).
  rewrite parse_unsigned_pretty, decide_False by lia. rewrite Hslash.
  assert (default host (strip_prefix "*." host) = domain) as ->.
  { destruct Hhost as [->| ->]; [|by rewrite strip_prefix_app].
    destruct (strip_prefix "*." domain) as [t|] eqn:Hs; [|done]. apply strip_prefix_Some in Hs.
    assert (has_char "*" domain = false) as Hno.
    { apply valid_domain_free; [done| |done]. intros a Ha. apply lower_label_plain in Ha; tauto. }
    by rewrite Hs in Hno. }
  rewrite valid_domain_free; [|done|intros a Ha; apply lower_label_plain in Ha; tauto|done].
  assert (check_labels (split_on "." domain) = None) as ->.
  { apply check_labels_None. eapply Forall_impl; [exact Hv|]. intros l [Hne Hl]. split; [done|].
    by apply lower_is_label. }
  enough (to_ascii_lowercase host = host) as -> by done.
  destruct Hhost as [->| ->]; rewrite ?lowercase_app, (valid_domain_lower domain); done.
Qed.

(** A host pattern that is read has a port in 1..=65535 and, after at most one leading [*.],
    a host name of non-empty lower-case labels; written back to its tool file it is
    read as the same pattern. *)
Theorem host_pattern_roundtrip pattern p :
  parse_pattern pattern = inr p -> pattern_ok p /\ parse_pattern (pattern_to_string p) = inr p.
Proof. intros Hp. apply parse_pattern_ok in Hp. split; [done|]. by apply parse_written. Qed.

Lemma host_pattern_roundtrip_witness :
  parse_pattern "*.Statsig.com" = inr (mkHostPattern "*.statsig.com" 443) /\
  parse_pattern "*.statsig.com:443" = inr (mkHostPattern "*.statsig.com" 443).
Proof.
  assert (parse_pattern "*.Statsig.com" = inr (mkHostPattern "*.statsig.com" 443)) as H
    by (vm_compute; reflexivity).
  split; [exact H|]. exact (proj2 (host_pattern_roundtrip _ _ H)).
Defined.
