(* ===== verification/Worktree.v ===== *)
(** * What a stored changeset means for the run about to happen

    [src/packages/tddy-changeset/src/changeset/merge.rs] (the context merging and the
    clarification answers), [changeset/model.rs] (the worktree's directory name) and
    [branch_worktree_intent.rs].

    [str::to_lowercase] maps Unicode; of it the class [Lowercase] states what it does to
    ASCII. A character that is not ASCII becomes one dash in the source and one per byte
    here, which the dropping of empty segments makes the same. *)

From Stdlib Require Import Ascii.
From S2P Require Import Prelude Text Stack Changeset Graph HostPattern.
Local Open Scope io_scope.

(** ** The directory name *)

Class Lowercase := {
  to_lowercase : string -> string;
  (** ASCII is lower-cased character by character. *)
  lowercase_ascii : forall s, all_chars (fun a => bool_decide (N_of_ascii a < 128)%N) s = true ->
    to_lowercase s = to_ascii_lowercase s;
  (** No upper-case ASCII letter is left. *)
  lowercase_lower : forall s, all_chars (fun a => bool_decide (to_ascii_lowercase_char a = a)) (to_lowercase s) = true
}.

Fixpoint map_chars (f : ascii -> ascii) (s : string) : string :=
  match s with "" => "" | String a s' => String (f a) (map_chars f s') end.

Definition slug_char (a : ascii) : ascii := if is_alphanumeric a then a else "-"%char.

Definition blank (s : string) : bool := bool_decide (trim s = "").

Section worktree.
Context `{!Lowercase}.

Definition slugify_changeset_segment_for_worktree (name : string) : string :=
  join "-" (filter (fun s => s <> "") (split_on "-" (map_chars slug_char (to_lowercase name)))).

(** [Option::or_else]. *)
Definition or_else {A} (o : option A) (k : option A) : option A := match o with Some a => Some a | None => k end.

Definition worktree_directory_basename (cs : Changeset) : option string :=
  or_else (cs_worktree_suggestion cs)
    (or_else (slugify_changeset_segment_for_worktree <$> cs_name cs)
      (or_else (w ← cs_workflow cs; b ← cw_selected_branch_to_work_on w;
                if blank b then None else Some (slugify_changeset_segment_for_worktree b))
        (w ← cs_workflow cs; b ← cw_new_branch_name w;
         if blank b then None else Some (slugify_changeset_segment_for_worktree b)))).

(** ** The branch plan *)

Record WorktreeBranchPlan := mkPlan {
  wp_checkout_branch : string; wp_worktree_directory_basename : string; wp_integration_start_ref : option string
}.

Definition given (o : option string) : option string := s ← o; if blank s then None else Some s.

Definition validate_workflow_branch_intent (cs : Changeset) : res string () :=
  match cs_workflow cs with
  | None => Ok ()
  | Some wf =>
      match cw_branch_worktree_intent wf with
      | None => Ok ()
      | Some NewBranchFromBase =>
          if decide (is_Some (given (cw_new_branch_name wf))) then Ok ()
          else Err "workflow.new_branch_name is required when branch_worktree_intent is new_branch_from_base"
      | Some WorkOnSelectedBranch =>
          if decide (is_Some (given (cw_selected_branch_to_work_on wf))) then Ok ()
          else Err "workflow.selected_branch_to_work_on is required when branch_worktree_intent is work_on_selected_branch"
      end
  end.

Definition resolve_branch_and_worktree_plan (cs : Changeset) : res string WorktreeBranchPlan :=
  let? wf := ok_or (cs_workflow cs) "changeset has no workflow block" in
  let? intent := ok_or (cw_branch_worktree_intent wf) "workflow.branch_worktree_intent not set" in
  let? basename := ok_or (worktree_directory_basename cs) "no worktree_suggestion or name for worktree directory" in
  match intent with
  | NewBranchFromBase =>
      let? checkout := ok_or (given (cw_new_branch_name wf)) "workflow.new_branch_name is required for new_branch_from_base" in
      let? start := ok_or (given (cw_selected_integration_base_ref wf))
                      "workflow.selected_integration_base_ref is required for new_branch_from_base" in
      Ok (mkPlan checkout basename (Some start))
  | WorkOnSelectedBranch =>
      let? checkout := ok_or (given (cw_selected_branch_to_work_on wf))
                         "workflow.selected_branch_to_work_on is required for work_on_selected_branch" in
      Ok (mkPlan checkout basename None)
  end.
End worktree.

(** ** Merging into the session's context *)

Definition set_opt {A} (key : string) (v : option A) (f : A -> json) (ctx : context) : context :=
  match v with Some a => set_sync key (f a) ctx | None => ctx end.

Definition merge_branch_worktree_intent_into_context (wf : ChangesetWorkflow) (ctx : context) : context :=
  let ctx := set_opt "branch_worktree_intent" (cw_branch_worktree_intent wf)
               (fun i => JString (BranchWorktreeIntent_as_str i)) ctx in
  let ctx := set_opt "selected_integration_base_ref" (cw_selected_integration_base_ref wf) JString ctx in
  let ctx := set_opt "new_branch_name" (cw_new_branch_name wf) JString ctx in
  set_opt "selected_branch_to_work_on" (cw_selected_branch_to_work_on wf) JString ctx.

Definition json_opt (o : option string) : json := match o with Some s => JString s | None => JNull end.

(** [serde_json::to_value] of the status: an object in key order. *)
Definition github_pr_status_json (s : GithubPrStatus) : json :=
  JObject [("error", json_opt (ps_error s)); ("phase", JString (ps_phase s)); ("url", json_opt (ps_url s))].

Definition merge_post_workflow_into_context (wf : ChangesetWorkflow) (ctx : context) : context :=
  let ctx := set_opt "post_workflow_open_github_pr" (cw_post_workflow_open_github_pr wf) JBool ctx in
  let ctx := set_opt "post_workflow_remove_session_worktree" (cw_post_workflow_remove_session_worktree wf) JBool ctx in
  let ctx := set_opt "operator_remove_session_worktree" (cw_operator_remove_session_worktree wf) JBool ctx in
  set_opt "github_pr_status" (cw_github_pr_status wf) github_pr_status_json ctx.

Definition merge_workflow (wf : ChangesetWorkflow) (ctx : context) : context :=
  let ctx := set_opt "run_optional_step_x" (cw_run_optional_step_x wf) JBool ctx in
  let ctx := if decide (cw_demo_options wf = []) then ctx
             else set_sync "demo_options" (JArray (JString <$> cw_demo_options wf)) ctx in
  merge_post_workflow_into_context wf (merge_branch_worktree_intent_into_context wf ctx).

Definition merge_persisted_workflow_into_context `{!YamlCodec} (session_dir : string) (ctx : context)
    : io disk WorkflowError context :=
  let! cs := read_changeset session_dir in
  io_ret (match cs_workflow cs with None => ctx | Some wf => merge_workflow wf ctx end).

(** ** Clarification answers *)

Record ClarificationQuestion := mkClarificationQuestion {
  bq_header : string; bq_question : string; bq_options : list QuestionOptionForQa; bq_multi_select : bool;
  bq_allow_other : bool }.

(** Each question with the answer line of its index, or an empty answer. *)
Definition clarification_qa_from_backend (questions : list ClarificationQuestion) (answers : string)
    : list ClarificationQa :=
  let answer_lines := trim <$> split_on "010" answers in
  imap (fun i q => mkClarificationQa
          (mkClarificationQuestionForQa (bq_header q) (bq_question q) (bq_options q) (bq_multi_select q))
          (default "" (answer_lines !! i))) questions.

(** ** The directory name is one *)

(** A segment: lower-case letters and digits, at least one. *)
Definition segment_char (a : ascii) : bool := is_alphanumeric a && bool_decide (to_ascii_lowercase_char a = a).
Definition segment (s : string) : Prop := s <> "" /\ all_chars segment_char s = true.

Lemma all_chars_impl (p q : ascii -> bool) s :
  (forall a, p a = true -> q a = true) -> all_chars p s = true -> all_chars q s = true.
Proof. intros Hpq. induction s as [|a s IH]; simpl; [done|]. intros [Ha Hs]%andb_prop. by rewrite Hpq, IH. Qed.

Lemma all_chars_free p c s : (forall a, p a = true -> a <> c) -> all_chars p s = true -> has_char c s = false.
Proof.
  intros Hp. induction s as [|a s IH]; simpl; [done|]. intros [Ha Hs]%andb_prop.
  rewrite bool_decide_eq_false_2 by auto. by apply IH.
Qed.

Lemma split_on_all_chars p c s :
  all_chars (fun a => p a || bool_decide (a = c)) s = true -> Forall (fun w => all_chars p w = true) (split_on c s).
Proof.
  induction s as [|a s IH]; simpl; [by repeat constructor|]. intros [Ha Hs]%andb_prop. specialize (IH Hs).
  case_decide as Hac; [by constructor|]. rewrite bool_decide_eq_false_2, orb_false_r in Ha by done.
  destruct (split_on c s) as [|w ws]; [by repeat constructor; simpl; rewrite Ha|].
  apply Forall_cons in IH as [Hw Hws]. constructor; [simpl; by rewrite Ha, Hw|done].
Qed.

Lemma split_on_join c l :
  l <> [] -> Forall (fun w => has_char c w = false) l -> split_on c (join (String c "") l) = l.
Proof.
  induction l as [|w l IH]; [done|]. intros _ [Hw Hl]%Forall_cons. destruct l as [|v l]; [by apply split_on_free|].
  specialize (IH ltac:(done) Hl).
  change (join (String c "") (w :: v :: l)) with (w +:+ String c "" +:+ join (String c "") (v :: l)).
  change (String c "" +:+ ?x) with (String c x). revert IH. generalize (join (String c "") (v :: l)). intros t IH.
  clear Hl. induction w as [|a w IHw]; simpl in *.
  - change ("" +:+ String c t) with (String c t). simpl. by rewrite decide_True, IH.
  - apply orb_false_elim in Hw as [Ha Hw]. apply bool_decide_eq_false in Ha.
    change (String a w +:+ String c t) with (String a (w +:+ String c t)). simpl. rewrite decide_False by done.
    by rewrite (IHw Hw).
Qed.

Lemma join_all_chars p sep l :
  all_chars p sep = true -> Forall (fun w => all_chars p w = true) l -> all_chars p (join sep l) = true.
Proof.
  intros Hs. assert (forall s t, all_chars p (s +:+ t) = all_chars p s && all_chars p t) as Happ.
  { intros s t. induction s as [|a s IH]; [done|]. change (String a s +:+ t) with (String a (s +:+ t)). simpl.
    by rewrite IH, andb_assoc. }
  induction l as [|w l IH]; [done|]. intros [Hw Hl]%Forall_cons. destruct l as [|v l]; [done|].
  change (join sep (w :: v :: l)) with (w +:+ sep +:+ join sep (v :: l)). by rewrite !Happ, Hw, Hs, IH.
Qed.

Section slug.
Context `{!Lowercase}.
Notation slug := slugify_changeset_segment_for_worktree.

Lemma slug_pieces s :
  Forall segment (filter (fun w => w <> "") (split_on "-" (map_chars slug_char (to_lowercase s)))).
Proof.
  apply Forall_forall. intros w [Hne Hw]%list_elem_of_filter. split; [done|]. revert w Hw Hne.
  assert (all_chars (fun a => segment_char a || bool_decide (a = "-"%char)) (map_chars slug_char (to_lowercase s)) = true) as Hall.
  { pose proof (lowercase_lower s) as Hl. induction (to_lowercase s) as [|a t IH]; [done|]. simpl in *.
    apply andb_prop in Hl as [Ha Ht]. rewrite (IH Ht), andb_true_r. unfold slug_char.
    destruct (is_alphanumeric a) eqn:Hal; [|done]. unfold segment_char. by rewrite Hal, Ha. }
  apply split_on_all_chars in Hall. rewrite Forall_forall in Hall. eauto.
Qed.

Lemma slug_of_segments l : Forall segment l -> slug (join "-" l) = join "-" l.
Proof.
  intros Hl. set (p := fun a => segment_char a || bool_decide (a = "-"%char)).
  assert (all_chars p (join "-" l) = true) as Hp.
  { apply join_all_chars; [done|]. eapply Forall_impl; [exact Hl|]. intros w [_ Hw].
    eapply all_chars_impl; [|exact Hw]. intros a Ha. unfold p. by rewrite Ha. }
  unfold slugify_changeset_segment_for_worktree. rewrite lowercase_ascii.
  2: { eapply all_chars_impl; [|exact Hp]. intros a. unfold p. all_ascii a. }
  assert (map_chars slug_char (to_ascii_lowercase (join "-" l)) = join "-" l) as ->.
  { revert Hp. generalize (join "-" l). intros t. induction t as [|a t IH]; [done|]. simpl.
    intros [Ha Ht]%andb_prop. rewrite (IH Ht). f_equal. revert Ha. unfold p. all_ascii a. }
  destruct (decide (l = [])) as [->|Hne]; [done|]. rewrite split_on_join; [|done|].
  - f_equal. clear Hp p Hne. induction Hl as [|w l [Hw _] _ IH]; [done|]. by rewrite filter_cons_True, IH.
  - eapply Forall_impl; [exact Hl|]. intros w [_ Hw]. eapply all_chars_free; [|exact Hw].
    intros a Ha ->. done.
Qed.

(** A slug is dash-separated segments of lower-case letters and digits, so one plain
    directory name, or empty; and a slug is its own slug. *)
Theorem slug_correct s :
  (exists l, Forall segment l /\ slug s = join "-" l /\ (slug s <> "" -> split_on "-" (slug s) = l)) /\
  slug (slug s) = slug s.
Proof.
  pose proof (slug_pieces s) as Hp. unfold slugify_changeset_segment_for_worktree at 1 2 3 5 6.
  set (l := filter _ _) in *. split; [|by apply slug_of_segments]. exists l. split_and!; [done..|].
  intros Hne. apply split_on_join; [by intros Hl; rewrite Hl in Hne|].
  eapply Forall_impl; [exact Hp|]. intros w [_ Hw]. eapply all_chars_free; [|exact Hw]. intros a Ha ->. done.
Qed.
End slug.

(** ** The context after a merge *)

(** What a workflow block says about the context's keys. *)
Definition workflow_entries (wf : ChangesetWorkflow) : list (string * option json) := [
  ("run_optional_step_x", JBool <$> cw_run_optional_step_x wf);
  ("demo_options", if decide (cw_demo_options wf = []) then None else Some (JArray (JString <$> cw_demo_options wf)));
  ("branch_worktree_intent", (fun i => JString (BranchWorktreeIntent_as_str i)) <$> cw_branch_worktree_intent wf);
  ("selected_integration_base_ref", JString <$> cw_selected_integration_base_ref wf);
  ("new_branch_name", JString <$> cw_new_branch_name wf);
  ("selected_branch_to_work_on", JString <$> cw_selected_branch_to_work_on wf);
  ("post_workflow_open_github_pr", JBool <$> cw_post_workflow_open_github_pr wf);
  ("post_workflow_remove_session_worktree", JBool <$> cw_post_workflow_remove_session_worktree wf);
  ("operator_remove_session_worktree", JBool <$> cw_operator_remove_session_worktree wf);
  ("github_pr_status", github_pr_status_json <$> cw_github_pr_status wf)].

Definition lookup_entries (k : string) (l : list (string * option json)) : option json :=
  foldr (fun kv rest => if decide (k = kv.1) then kv.2 else rest) None l.

Definition persisted (wf : ChangesetWorkflow) (k : string) : option json :=
  lookup_entries k (workflow_entries wf).

Lemma lookup_set_opt {A} key (v : option A) f ctx k :
  set_opt key v f ctx !! k = if decide (k = key) then or_else (f <$> v) (ctx !! k) else ctx !! k.
Proof.
  unfold set_opt, set_sync. destruct v as [a|]; case_decide as Hk; [subst; apply lookup_insert_eq| |done..].
  by apply lookup_insert_ne.
Qed.

Lemma lookup_entries_None k l : k ∉ l.*1 -> lookup_entries k l = None.
Proof.
  induction l as [|kv l IH]; [done|]. simpl. intros [Hk Hl]%not_elem_of_cons. by rewrite decide_False, IH.
Qed.

Lemma set_entries_lookup (l : list (string * option json)) ctx k :
  NoDup l.*1 ->
  foldl (fun c kv => set_opt kv.1 kv.2 id c) ctx l !! k = or_else (lookup_entries k l) (ctx !! k).
Proof.
  revert ctx. induction l as [|[key v] l IH]; intros ctx; [done|]. simpl. intros [Hkey Hnd]%NoDup_cons.
  rewrite IH, lookup_set_opt by done. case_decide as Hk; [|done]. subst.
  rewrite lookup_entries_None by done. by destruct v.
Qed.

Lemma set_opt_fmap {A} key (v : option A) f ctx : set_opt key v f ctx = set_opt key (f <$> v) id ctx.
Proof. by destruct v. Qed.

Lemma merge_workflow_lookup wf ctx k : merge_workflow wf ctx !! k = or_else (persisted wf k) (ctx !! k).
Proof.
  unfold persisted. rewrite <- set_entries_lookup by by_decide.
  unfold merge_workflow, merge_post_workflow_into_context, merge_branch_worktree_intent_into_context.
  cbn [workflow_entries foldl fst snd]. rewrite <- !set_opt_fmap. by case_decide.
Qed.

(** Merging reads the changeset and nothing else: every key the workflow block gives a
    value is set to it, every other key keeps its value, and a changeset that cannot be
    read is the error. *)
Theorem workflow_merge_correct `{!YamlCodec} dir ctx w :
  let '(r, w') := merge_persisted_workflow_into_context dir ctx w in
  w' = w /\
  match r, (read_changeset dir w).1 with
  | Ok ctx', Ok cs => forall k, ctx' !! k = or_else (wf ← cs_workflow cs; persisted wf k) (ctx !! k)
  | Err e, Err e' => e = e'
  | Panic, Panic => True
  | _, _ => False
  end.
Proof.
  unfold merge_persisted_workflow_into_context, io_bind, io_ret. pose proof (read_changeset_pure dir w) as Hp.
  destruct (read_changeset dir w) as [[cs|e|] w']; simpl in *; subst; [|done..]. split; [done|].
  intros k. destruct (cs_workflow cs) as [wf|]; [apply merge_workflow_lookup|done].
Qed.

(** ** The branch plan *)

Section plan.
Context `{!Lowercase}.

(** A plan is resolved exactly when the intent, a directory name and the fields of the
    intent are given, and is made of them. *)
Theorem branch_plan_correct cs p :
  resolve_branch_and_worktree_plan cs = Ok p <->
  exists wf, cs_workflow cs = Some wf /\ worktree_directory_basename cs = Some (wp_worktree_directory_basename p) /\
    match cw_branch_worktree_intent wf with
    | Some NewBranchFromBase =>
        given (cw_new_branch_name wf) = Some (wp_checkout_branch p) /\
        is_Some (wp_integration_start_ref p) /\ given (cw_selected_integration_base_ref wf) = wp_integration_start_ref p
    | Some WorkOnSelectedBranch =>
        given (cw_selected_branch_to_work_on wf) = Some (wp_checkout_branch p) /\ wp_integration_start_ref p = None
    | None => False
    end.
Proof.
  unfold resolve_branch_and_worktree_plan. destruct (cs_workflow cs) as [wf|]; simpl; [|naive_solver].
  destruct (cw_branch_worktree_intent wf) as [[]|] eqn:Hi; simpl.
  - destruct (worktree_directory_basename cs) as [b|]; simpl; [|naive_solver].
    destruct (given (cw_new_branch_name wf)) as [c|] eqn:Hc; simpl.
    2: { split; [done|]. intros (wf' & [= <-] & Hb & Hm). rewrite Hi in Hm. destruct Hm as [H1 _]. congruence. }
    destruct (given (cw_selected_integration_base_ref wf)) as [r|] eqn:Hr; simpl.
    + split; [intros [= <-]; exists wf; rewrite Hi; split_and!; try done; by eexists|].
      intros (wf' & [= <-] & Hb & Hm). rewrite Hi in Hm. destruct p, Hm as (H1 & _ & H3). simpl in *. congruence.
    + split; [done|]. intros (wf' & [= <-] & Hb & Hm). rewrite Hi in Hm. destruct Hm as (_ & [x Hx] & H3). congruence.
  - destruct (worktree_directory_basename cs) as [b|]; simpl; [|naive_solver].
    destruct (given (cw_selected_branch_to_work_on wf)) as [c|] eqn:Hc; simpl.
    + split; [intros [= <-]; exists wf; by rewrite Hi|].
      intros (wf' & [= <-] & Hb & Hm). rewrite Hi in Hm. destruct p, Hm as [H1 H2]. simpl in *. congruence.
    + split; [done|]. intros (wf' & [= <-] & Hb & Hm). rewrite Hi in Hm. destruct Hm as [H1 _]. congruence.
  - split; [done|]. intros (wf' & [= <-] & Hb & Hm). by rewrite Hi in Hm.
Qed.
End plan.

Lemma ascii_lowercase_lower s :
  all_chars (fun a => bool_decide (to_ascii_lowercase_char a = a)) (to_ascii_lowercase s) = true.
Proof. induction s as [|a s IH]; [done|]. simpl. rewrite IH, andb_true_r. all_ascii a. Qed.

#[local] Instance ascii_lowercase : Lowercase :=
  {| to_lowercase := to_ascii_lowercase; lowercase_ascii := fun _ _ => eq_refl; lowercase_lower := ascii_lowercase_lower |}.

Definition named (name : string) : Changeset :=
  mkChangeset (Some name) None [] 1 ∅ [] (cs_state (Changeset_default "")) ∅ None None None None None false None None
    (Some (mkChangesetWorkflow None [] None (Some NewBranchFromBase) None (Some "feature/x") None None None None None))
    None None None None None.

(** Two gaps: validation passes for an intent whose plan is then refused, for it does not ask
    for the base ref; and a name without letters or digits gives an empty directory name,
    although a branch name is there to fall back to. *)
Theorem worktree_plan_gaps :
  validate_workflow_branch_intent (named "A b") = Ok () /\
  resolve_branch_and_worktree_plan (named "A b") =
    Err "workflow.selected_integration_base_ref is required for new_branch_from_base" /\
  worktree_directory_basename (named "A b") = Some "a-b" /\
  worktree_directory_basename (named "!!!") = Some "".
Proof. by vm_compute. Qed.
