(* ===== verification/AtomicFile.v ===== *)
(** * Replacing a file: swap, flush, rename

    [src/packages/tddy-session-store/src/atomic_file.rs]: every write of session
    state. A call is modelled as a writer that makes one system call per step, so
    that any number of writers, from any process, interleave; a system call goes
    through or is refused, and the machine may stop after any step.

    The model is of one directory, the one the target lies in: a call creates its
    swap file there and renames it there. A file is an inode with its data, its
    mode, and whether the data was flushed; a power loss leaves arbitrary data in
    an inode that was not, and may bring back any directory entry the directory
    was not flushed after. *)

From Stdlib Require Import Strings.Byte.
From stdpp Require Import pretty.
From S2P Require Import Prelude Text NodeIds.

(** ** The directory *)

Record inode := mkInode { i_data : list byte; i_synced : bool; i_mode : N }.

(** [d_stale]: the entries the directory had since it was last flushed. *)
Record directory := mkDirectory {
  d_names : gmap string nat; d_inodes : gmap nat inode; d_next : nat; d_stale : list (gmap string nat)
}.

Definition set_entries (names : gmap string nat) (d : directory) : directory :=
  mkDirectory names (d_inodes d) (d_next d) (d_names d :: d_stale d).

Definition on_inode (ino : nat) (f : inode -> inode) (d : directory) : directory :=
  mkDirectory (d_names d) (alter f ino (d_inodes d)) (d_next d) (d_stale d).

(** What a reader that opens [name] now finds. *)
Definition reads (d : directory) (name : string) : option (list byte) :=
  i_data <$> (ino ← d_names d !! name; d_inodes d !! ino).

(** What may be found under [name] after a power loss. *)
Definition survives_crash (d : directory) (name : string) (found : option (list byte)) : Prop :=
  exists entries, entries ∈ d_names d :: d_stale d /\
  match entries !! name with
  | None => found = None
  | Some ino =>
      exists node data, d_inodes d !! ino = Some node /\ found = Some data /\
      (i_synced node = true -> data = i_data node)
  end.

(** ** One call *)

(** What the kernel answers a system call: it goes through ([write] takes [n]
    bytes), or is refused. *)
Inductive kernel := Goes (n : nat) | Refuses (e : string).

Inductive phase :=
| AtDirs | AtCreate | AtWrite (written : nat) | AtSync | AtMetadata | AtChmod (mode : N)
| AtRename | AtDirSync | AtCleanup (e : string) | Finished (r : string + unit).

Record Writer := mkWriter {
  wr_target : string; wr_swap : string; wr_contents : list byte; wr_mode : option N;
  wr_file : nat; wr_phase : phase
}.

Definition goto (p : phase) (w : Writer) : Writer :=
  mkWriter (wr_target w) (wr_swap w) (wr_contents w) (wr_mode w) (wr_file w) p.

(** [swap_path], within the directory. *)
Definition swap_name (base : string) (process_id : N) (uuid : string) : string :=
  "." +:+ base +:+ "." +:+ pretty process_id +:+ "." +:+ uuid +:+ ".swap".

(** [write_atomic] ([mode] absent) and [write_atomic_with_mode], called on the
    file [target] of the directory. *)
Definition write_swapped (target : string) (process_id : N) (uuid : string) (contents : list byte)
    (mode : option N) : Writer :=
  mkWriter target (swap_name target process_id uuid) contents mode 0 AtDirs.

Definition DEFAULT_FILE_MODE : N := 438. (* 0o666 *)

Definition create_swap (umask : N) (w : Writer) (d : directory) : Writer * directory :=
  match d_names d !! wr_swap w with
  | Some _ => (goto (Finished (inl "File exists")) w, d)
  | None =>
      let ino := d_next d in
      let node := mkInode [] false (N.ldiff (default DEFAULT_FILE_MODE (wr_mode w)) umask) in
      (mkWriter (wr_target w) (wr_swap w) (wr_contents w) (wr_mode w) ino (AtWrite 0),
       mkDirectory (<[wr_swap w := ino]> (d_names d)) (<[ino := node]> (d_inodes d)) (S ino)
         (d_names d :: d_stale d))
  end.

(** One [write] of [write_all]'s loop. *)
Definition write_some (written n : nat) (w : Writer) (d : directory) : Writer * directory :=
  match drop written (wr_contents w) with
  | [] => (goto AtSync w, d)
  | rest =>
      match n with
      | 0 => (goto (AtCleanup "failed to write whole buffer") w, d)
      | _ => (goto (AtWrite (written + length (take n rest))) w,
              on_inode (wr_file w)
                (fun node => mkInode (i_data node ++ take n rest) false (i_mode node)) d)
      end
  end.

(** One system call of [write_swapped]. *)
Definition writer_step (umask : N) (k : kernel) (w : Writer) (d : directory) : Writer * directory :=
  match wr_phase w, k with
  | AtDirs, Goes _ => (goto AtCreate w, d)
  | AtDirs, Refuses e => (goto (Finished (inl e)) w, d)
  | AtCreate, Goes _ => create_swap umask w d
  | AtCreate, Refuses e => (goto (Finished (inl e)) w, d)
  | AtWrite written, Goes n => write_some written n w d
  | AtWrite _, Refuses e => (goto (AtCleanup e) w, d)
  | AtSync, Goes _ =>
      (goto (if wr_mode w then AtRename else AtMetadata) w,
       on_inode (wr_file w) (fun node => mkInode (i_data node) true (i_mode node)) d)
  | AtSync, Refuses e => (goto (AtCleanup e) w, d)
  | AtMetadata, Goes _ =>
      match ino ← d_names d !! wr_target w; d_inodes d !! ino with
      | Some node => (goto (AtChmod (i_mode node)) w, d)
      | None => (goto AtRename w, d)
      end
  | AtMetadata, Refuses _ => (goto AtRename w, d)
  | AtChmod mode, Goes _ =>
      match d_names d !! wr_swap w with
      | Some ino =>
          (goto AtRename w, on_inode ino (fun node => mkInode (i_data node) (i_synced node) mode) d)
      | None => (goto (AtCleanup "No such file or directory") w, d)
      end
  | AtChmod _, Refuses e => (goto (AtCleanup e) w, d)
  | AtRename, Goes _ =>
      match d_names d !! wr_swap w with
      | Some ino =>
          (goto AtDirSync w, set_entries (<[wr_target w := ino]> (delete (wr_swap w) (d_names d))) d)
      | None => (goto (AtCleanup "No such file or directory") w, d)
      end
  | AtRename, Refuses e => (goto (AtCleanup e) w, d)
  | AtDirSync, Goes _ =>
      (goto (Finished (inr ())) w, mkDirectory (d_names d) (d_inodes d) (d_next d) [])
  | AtDirSync, Refuses _ => (goto (Finished (inr ())) w, d)
  | AtCleanup e, Goes _ =>
      (goto (Finished (inl e)) w, set_entries (delete (wr_swap w) (d_names d)) d)
  | AtCleanup e, Refuses _ => (goto (Finished (inl e)) w, d)
  | Finished _, _ => (w, d)
  end.

(** ** Any number of calls at once *)

Definition fs_state : Type := directory * list Writer.

Definition fs_step (umask : N) (s : fs_state) (turn : nat * kernel) : fs_state :=
  match s.2 !! turn.1 with
  | None => s
  | Some w => let '(w', d') := writer_step umask turn.2 w s.1 in (d', <[turn.1 := w']> s.2)
  end.

Definition fs_run (umask : N) (turns : list (nat * kernel)) (s : fs_state) : fs_state :=
  foldl (fs_step umask) s turns.

(** The target was replaced: the call answers [Ok], or is about to. *)
Definition published (w : Writer) : bool :=
  match wr_phase w with AtDirSync | Finished (inr _) => true | _ => false end.

(** ** What holds while calls run *)

(** The call has a file of its own. *)
Definition has_file (w : Writer) : bool :=
  match wr_phase w with
  | AtWrite _ | AtSync | AtMetadata | AtChmod _ | AtRename | AtDirSync | Finished (inr _) => true
  | _ => false
  end.

(** The swap file is the call's own until it is renamed. *)
Definition swap_held (w : Writer) : bool := has_file w && negb (published w).

(** What the call has written so far, and whether it was flushed. *)
Definition file_state (w : Writer) (node : inode) : Prop :=
  match wr_phase w with
  | AtWrite n => i_data node = take n (wr_contents w)
  | AtSync => i_data node = wr_contents w
  | _ => i_data node = wr_contents w /\ i_synced node = true
  end.

(** No permission bit the caller's mode does not have. *)
Definition mode_kept (w : Writer) (node : inode) : Prop :=
  match wr_mode w with Some m => N.ldiff (i_mode node) m = 0%N | None => True end.

Definition chmod_only_carried (w : Writer) : Prop :=
  match wr_phase w with AtMetadata | AtChmod _ => wr_mode w = None | _ => True end.

Record writer_ok (d : directory) (w : Writer) : Prop := {
  wo_swap : swap_held w = true -> d_names d !! wr_swap w = Some (wr_file w);
  wo_file : has_file w = true ->
    exists node, d_inodes d !! wr_file w = Some node /\ file_state w node /\ mode_kept w node;
  wo_chmod : chmod_only_carried w
}.

(** What one system call can change, given what its call holds. *)
Record step_effect (d : directory) (w : Writer) (d' : directory) (w' : Writer) : Prop := {
  se_same : wr_target w' = wr_target w /\ wr_swap w' = wr_swap w /\
    wr_contents w' = wr_contents w /\ wr_mode w' = wr_mode w;
  se_names : forall n, n <> wr_swap w -> n <> wr_target w -> d_names d' !! n = d_names d !! n;
  se_target : d_names d' !! wr_target w = d_names d !! wr_target w \/
    (published w' = true /\ d_names d' !! wr_target w = Some (wr_file w'));
  se_stale : forall e, e ∈ d_stale d' -> e = d_names d \/ e ∈ d_stale d;
  se_inodes : forall k, (has_file w' = true -> k <> wr_file w') -> d_inodes d' !! k = d_inodes d !! k;
  se_next : d_next d <= d_next d';
  se_kept : has_file w = true -> has_file w' = true -> wr_file w' = wr_file w;
  se_fresh : has_file w = false -> has_file w' = true -> wr_file w' = d_next d /\ d_next d' = S (d_next d);
  se_published : published w = true -> published w' = true
}.

Lemma alter_lookup_other {A} (f : A -> A) (m : gmap nat A) i k : k <> i -> alter f i m !! k = m !! k.
Proof. intros. by rewrite lookup_alter_ne. Qed.

(** A step that only moves its call on: it has the file it had, or gives it up. *)
Lemma goto_effect d w p :
  (has_file (goto p w) = true -> has_file w = true) ->
  (published (goto p w) = published w) ->
  step_effect d w d (goto p w).
Proof.
  intros Hf Hp. split; simpl; eauto; try lia. intros Hw Hg. by rewrite (Hf Hg) in Hw.
Qed.

Lemma step_effect_refl d w : step_effect d w d w.
Proof. split; simpl; eauto; congruence. Qed.

(** A step that changes the call's own file. *)
Lemma on_inode_effect d w p g :
  has_file w = true -> has_file (goto p w) = true -> published w = false ->
  step_effect d w (on_inode (wr_file w) g d) (goto p w).
Proof.
  intros Hw Hg Hp. split; simpl; eauto; [|congruence..].
  intros i Hi. apply alter_lookup_other. by apply Hi.
Qed.

(** A step that removes the swap name. *)
Lemma remove_swap_effect d w p :
  wr_swap w <> wr_target w -> has_file (goto p w) = false -> published w = false ->
  step_effect d w (set_entries (delete (wr_swap w) (d_names d)) d) (goto p w).
Proof.
  intros Hne Hg Hp. split; simpl; eauto; try congruence.
  - intros n Hn _. by rewrite lookup_delete_ne.
  - left. by rewrite lookup_delete_ne.
  - intros e [->|He]%elem_of_cons; auto.
Qed.

Lemma rename_effect d w :
  has_file w = true -> d_names d !! wr_swap w = Some (wr_file w) ->
  step_effect d w (set_entries (<[wr_target w := wr_file w]> (delete (wr_swap w) (d_names d))) d)
    (goto AtDirSync w).
Proof.
  intros Hw Hs. split; simpl; eauto; [| | |congruence].
  - intros n Hn Ht. by rewrite lookup_insert_ne, lookup_delete_ne.
  - right. by rewrite lookup_insert_eq.
  - intros e [->|He]%elem_of_cons; auto.
Qed.

Lemma create_effect umask d w :
  wr_swap w <> wr_target w -> published w = false -> has_file w = false ->
  let '(w', d') := create_swap umask w d in step_effect d w d' w'.
Proof.
  intros Hne Hp Hf. unfold create_swap. destruct (d_names d !! wr_swap w) as [i|] eqn:Hs.
  { by apply goto_effect. }
  split; simpl; auto; try congruence.
  - intros x Hx _. by rewrite lookup_insert_ne.
  - left. by rewrite lookup_insert_ne.
  - intros e [->|He]%elem_of_cons; auto.
  - intros i Hi. rewrite lookup_insert_ne; [done|]. intros <-. by apply Hi.
Qed.

Lemma step_effect_ok umask k d w :
  wr_swap w <> wr_target w -> writer_ok d w ->
  let '(w', d') := writer_step umask k w d in step_effect d w d' w'.
Proof.
  intros Hne [Hswap _ _]. unfold writer_step, swap_held in *.
  destruct (wr_phase w) as [| |n| | |mode| | |e|[e|[]]] eqn:Hph, k as [n'|e'];
    assert (has_file w = has_file (goto (wr_phase w) w)) as Hhf by done;
    assert (published w = published (goto (wr_phase w) w)) as Hpub by done;
    rewrite Hph in Hhf, Hpub; cbn in Hhf, Hpub; rewrite ?Hhf, ?Hpub in Hswap;
    try apply step_effect_refl; try (apply goto_effect; rewrite ?Hhf, ?Hpub; done).
  - by apply create_effect.
  - unfold write_some. destruct (drop n (wr_contents w)).
    { apply goto_effect; rewrite ?Hhf, ?Hpub; done. }
    destruct n'; [apply goto_effect; rewrite ?Hhf, ?Hpub; done|]. by apply on_inode_effect.
  - apply on_inode_effect; try done. by destruct (wr_mode w).
  - destruct (d_names d !! wr_target w ≫= _); apply goto_effect; rewrite ?Hhf, ?Hpub; done.
  - rewrite (Hswap eq_refl). by apply on_inode_effect.
  - rewrite (Hswap eq_refl). apply rename_effect; auto.
  - split; simpl; eauto; [set_solver|congruence].
  - by apply remove_swap_effect.
Qed.

(** The three ways for a call to be in order: it has no file, it holds its swap
    file, or it was renamed. *)
Lemma no_file_ok d w : has_file w = false -> chmod_only_carried w -> writer_ok d w.
Proof. intros Hf Hc. split; [|congruence|done]. unfold swap_held. by rewrite Hf. Qed.

Lemma held_ok d w node :
  chmod_only_carried w -> d_names d !! wr_swap w = Some (wr_file w) -> d_inodes d !! wr_file w = Some node ->
  file_state w node -> mode_kept w node -> writer_ok d w.
Proof. intros. split; eauto. Qed.

Lemma renamed_ok d w node :
  published w = true -> chmod_only_carried w -> d_inodes d !! wr_file w = Some node ->
  file_state w node -> mode_kept w node -> writer_ok d w.
Proof. intros Hp **. split; eauto. unfold swap_held. rewrite Hp. by rewrite andb_false_r. Qed.

Lemma writer_ok_held d w :
  writer_ok d w -> swap_held w = true ->
  d_names d !! wr_swap w = Some (wr_file w) /\
  exists node, d_inodes d !! wr_file w = Some node /\ file_state w node /\ mode_kept w node.
Proof.
  intros [Hs Hf _] Hh. split; [by apply Hs|]. apply Hf. unfold swap_held in Hh.
  by apply andb_prop in Hh as [Hh _].
Qed.

Lemma create_ok umask d w : writer_ok d w -> let '(w', d') := create_swap umask w d in writer_ok d' w'.
Proof.
  intros Hok. unfold create_swap. destruct (d_names d !! wr_swap w) as [i|] eqn:Hs; [by apply no_file_ok|].
  eapply held_ok; simpl; [done|by rewrite lookup_insert_eq|by rewrite lookup_insert_eq|done|].
  unfold mode_kept. simpl. destruct (wr_mode w) as [m|]; [|done]. simpl. apply N.bits_inj. intros j.
  rewrite !N.ldiff_spec, N.bits_0. by destruct (N.testbit m j), (N.testbit umask j).
Qed.

Lemma take_so_far {A} n k (l : list A) :
  take n l ++ take k (drop n l) = take (n + length (take k (drop n l))) l.
Proof.
  rewrite take_take_drop, length_take, length_drop. destruct (decide (k <= length l - n)) as [Hk|Hk].
  - by rewrite Nat.min_l.
  - rewrite Nat.min_r by lia. rewrite !take_ge by lia. done.
Qed.

Lemma write_some_ok written n d w :
  wr_phase w = AtWrite written -> writer_ok d w ->
  let '(w', d') := write_some written n w d in writer_ok d' w'.
Proof.
  intros Hph Hok. pose proof (writer_ok_held d w Hok) as Hh. unfold swap_held, has_file, published in Hh.
  rewrite Hph in Hh. destruct (Hh eq_refl) as (Hs & node & Hn & Hst & Hm).
  unfold file_state in Hst. rewrite Hph in Hst. unfold write_some.
  destruct (drop written (wr_contents w)) as [|b rest] eqn:Hd.
  { eapply held_ok; simpl; eauto; [done|]. unfold file_state. simpl. rewrite Hst.
    rewrite <- (take_drop written (wr_contents w)) at 2. by rewrite Hd, app_nil_r. }
  destruct n as [|n]; [by apply no_file_ok|].
  eapply held_ok; [done|done|cbn [d_inodes on_inode wr_file goto]; by rewrite lookup_alter_eq, Hn| |done].
  unfold file_state. cbn [wr_phase goto i_data wr_contents]. by rewrite Hst, <- Hd, take_so_far.
Qed.

(** The call that takes the step still holds what it held. *)
Lemma step_writer_ok umask k d w :
  wr_swap w <> wr_target w -> writer_ok d w ->
  let '(w', d') := writer_step umask k w d in writer_ok d' w'.
Proof.
  intros Hne Hok. pose proof (writer_ok_held d w Hok) as Hh. pose proof (wo_file _ _ Hok) as Hf.
  pose proof (wo_chmod _ _ Hok) as Hc.
  unfold writer_step. unfold swap_held, has_file, published, chmod_only_carried in Hh, Hf, Hc.
  destruct (wr_phase w) as [| |n| | |mode| | |e|[e|[]]] eqn:Hph, k as [n'|e'];
    try (by apply no_file_ok); try done;
    try (destruct (Hh eq_refl) as (Hs & node & Hn & Hst & Hm));
    unfold file_state in *; try rewrite Hph in Hst.
  - by apply create_ok.
  - by apply write_some_ok.
  - eapply held_ok; simpl; [|done|by rewrite lookup_alter_eq, Hn| |done].
    + unfold chmod_only_carried. simpl. by destruct (wr_mode w).
    + unfold file_state. simpl. by destruct (wr_mode w).
  - destruct (d_names d !! wr_target w ≫= _); by eapply held_ok.
  - by eapply held_ok.
  - rewrite Hs. eapply held_ok; simpl; [done|done|by rewrite lookup_alter_eq, Hn|done|].
    unfold mode_kept. simpl. by rewrite Hc.
  - rewrite Hs. eapply renamed_ok; simpl; eauto; done.
  - destruct (Hf eq_refl) as (node & Hn & Hst & Hm). eapply renamed_ok; simpl; eauto; try done.
    unfold file_state in Hst. by rewrite Hph in Hst.
  - destruct (Hf eq_refl) as (node & Hn & Hst & Hm). eapply renamed_ok; simpl; eauto; try done.
    unfold file_state in Hst. by rewrite Hph in Hst.
Qed.

(** ** Every interleaving *)

(** The swap names are the calls' own: no two share one, and none is a target. *)
Definition names_apart (ws : list Writer) : Prop :=
  (forall i j wi wj, ws !! i = Some wi -> ws !! j = Some wj -> i <> j -> wr_swap wi <> wr_swap wj) /\
  (forall i j wi wj, ws !! i = Some wi -> ws !! j = Some wj -> wr_swap wi <> wr_target wj).

(** A directory nothing is pending in. *)
Definition settled (d : directory) : Prop :=
  d_stale d = [] /\
  (forall name ino, d_names d !! name = Some ino ->
    exists node, d_inodes d !! ino = Some node /\ i_synced node = true /\ ino < d_next d).

(** An entry for [n] is the first one, or one a call published. *)
Definition entry_ok (d0 : directory) (ws : list Writer) (n : string) (found : option nat) : Prop :=
  found = d_names d0 !! n \/
  exists w, w ∈ ws /\ wr_target w = n /\ published w = true /\ found = Some (wr_file w).

Record fs_inv (d0 : directory) (s : fs_state) : Prop := {
  fi_apart : names_apart s.2;
  fi_ok : forall i w, s.2 !! i = Some w -> writer_ok s.1 w;
  fi_fresh : forall i w, s.2 !! i = Some w -> has_file w = true -> d_next d0 <= wr_file w < d_next s.1;
  fi_distinct : forall i j wi wj, s.2 !! i = Some wi -> s.2 !! j = Some wj -> i <> j ->
    has_file wi = true -> has_file wj = true -> wr_file wi <> wr_file wj;
  fi_next : d_next d0 <= d_next s.1;
  fi_old : forall k, k < d_next d0 -> d_inodes s.1 !! k = d_inodes d0 !! k;
  fi_names : forall n, (forall w, w ∈ s.2 -> wr_swap w <> n) ->
    forall e, e ∈ d_names s.1 :: d_stale s.1 -> entry_ok d0 s.2 n (e !! n)
}.

Lemma published_has_file w : published w = true -> has_file w = true.
Proof. unfold published, has_file. by destruct (wr_phase w) as [| | | | | | | | |[]]. Qed.

(** A call that does not move keeps what it holds. *)
Lemma writer_ok_frame d d' w :
  d_names d' !! wr_swap w = d_names d !! wr_swap w ->
  (has_file w = true -> d_inodes d' !! wr_file w = d_inodes d !! wr_file w) ->
  writer_ok d w -> writer_ok d' w.
Proof. intros Hn Hi [Hs Hf Hc]. split; [by rewrite Hn| |done]. intros Hh. rewrite (Hi Hh). by apply Hf. Qed.

Lemma entry_ok_move d0 ws i w d d' w' n found :
  ws !! i = Some w -> step_effect d w d' w' -> entry_ok d0 ws n found -> entry_ok d0 (<[i:=w']> ws) n found.
Proof.
  intros Hi [(Et & _) _ _ _ _ _ Ek _ Ep] [->|(v & Hv & Hn & Hp & ->)]; [by left|right].
  apply list_elem_of_lookup in Hv as [j Hj]. destruct (decide (j = i)) as [->|Hne].
  - simplify_eq. exists w'. split_and!; [|done|by apply Ep|].
    + apply list_elem_of_insert. by eapply lookup_lt_Some.
    + rewrite Ek; [done|by apply published_has_file|]. apply published_has_file. by apply Ep.
  - exists v. split_and!; [|done..]. apply list_elem_of_lookup. exists j. by rewrite list_lookup_insert_ne.
Qed.

Lemma entries_ok_move d0 ws i w d d' w' n :
  ws !! i = Some w -> step_effect d w d' w' -> wr_swap w <> n ->
  (forall e, e ∈ d_names d :: d_stale d -> entry_ok d0 ws n (e !! n)) ->
  forall e, e ∈ d_names d' :: d_stale d' -> entry_ok d0 (<[i:=w']> ws) n (e !! n).
Proof.
  intros Hi He Hsw Hall e [->|Hst]%elem_of_cons.
  - destruct (decide (wr_target w = n)) as [Htg|Htg].
    + destruct (se_target _ _ _ _ He) as [Heq|[Hp Heq]].
      * rewrite <- Htg, Heq, Htg. eapply entry_ok_move; [done..|]. apply Hall. by left.
      * right. exists w'. destruct (se_same _ _ _ _ He) as (Et & _). rewrite Et, <- Htg.
        split_and!; [|done..]. apply list_elem_of_insert. by eapply lookup_lt_Some.
    + rewrite (se_names _ _ _ _ He) by congruence. eapply entry_ok_move; [done..|]. apply Hall. by left.
  - eapply entry_ok_move; [done..|]. apply Hall.
    destruct (se_stale _ _ _ _ He _ Hst) as [->|?]; [by left|by right].
Qed.

Lemma insert_lookup_inv {A} (l : list A) i x j y :
  <[i:=x]> l !! j = Some y -> (j = i /\ y = x) \/ (j <> i /\ l !! j = Some y).
Proof.
  intros Hj. destruct (decide (j = i)) as [->|Hne].
  - assert (i < length l) by (rewrite <- (length_insert l i x); by eapply lookup_lt_Some).
    rewrite list_lookup_insert_eq in Hj by done. left. by simplify_eq.
  - rewrite list_lookup_insert_ne in Hj by done. by right.
Qed.

Lemma names_apart_move ws i w w' :
  ws !! i = Some w -> wr_swap w' = wr_swap w -> wr_target w' = wr_target w ->
  names_apart ws -> names_apart (<[i:=w']> ws).
Proof.
  intros Hi Es Et [Hsw Htg]. split; [intros j l wj wl Hj Hl Hne|intros j l wj wl Hj Hl];
    apply insert_lookup_inv in Hj, Hl; destruct Hj as [[-> ->]|[? ?]], Hl as [[-> ->]|[? ?]];
    rewrite ?Es, ?Et; eauto.
Qed.

Lemma free_name_move (ws : list Writer) (i : nat) w w' n :
  ws !! i = Some w -> wr_swap w' = wr_swap w -> (forall v, v ∈ <[i:=w']> ws -> wr_swap v <> n) ->
  forall v, v ∈ ws -> wr_swap v <> n.
Proof.
  intros Hi Es Hn v [j Hj]%list_elem_of_lookup. destruct (decide (j = i)) as [->|Hne].
  - simplify_eq. rewrite <- Es. apply Hn, list_elem_of_insert. by eapply lookup_lt_Some.
  - apply Hn, list_elem_of_lookup. exists j. by rewrite list_lookup_insert_ne.
Qed.

(** The file of the call that moves is newer than the first directory's, and no
    other call's. *)
Lemma moved_file d0 d ws i w d' w' :
  fs_inv d0 (d, ws) -> ws !! i = Some w -> step_effect d w d' w' -> has_file w' = true ->
  d_next d0 <= wr_file w' < d_next d' /\
  forall j wj, ws !! j = Some wj -> j <> i -> has_file wj = true -> wr_file wj <> wr_file w'.
Proof.
  intros [_ _ Hfr Hdis Hnx _ _] Hi He Hfw. pose proof (se_next _ _ _ _ He). simpl in *.
  destruct (has_file w) eqn:Hf.
  - rewrite (se_kept _ _ _ _ He) by done. pose proof (Hfr _ _ Hi Hf). split; [lia|].
    intros j wj Hj Hne Hfj. by eapply Hdis.
  - destruct (se_fresh _ _ _ _ He Hf Hfw) as [-> ->]. split; [lia|].
    intros j wj Hj Hne Hfj. pose proof (Hfr _ _ Hj Hfj). lia.
Qed.

Lemma fs_step_inv umask d0 s turn : fs_inv d0 s -> fs_inv d0 (fs_step umask s turn).
Proof.
  destruct s as [d ws], turn as [i k]. intros Hinv. unfold fs_step. simpl.
  destruct (ws !! i) as [w|] eqn:Hi; [|done].
  pose proof Hinv as [Hapart Hok Hfr Hdis Hnx Hold Hnames]; simpl in *.
  destruct Hapart as [Hsw Htg]. pose proof (Hok _ _ Hi) as Hw.
  pose proof (step_effect_ok umask k d w (Htg _ _ _ _ Hi Hi) Hw) as He.
  pose proof (step_writer_ok umask k d w (Htg _ _ _ _ Hi Hi) Hw) as Hw'.
  destruct (writer_step umask k w d) as [w' d'].
  destruct (se_same _ _ _ _ He) as (Et & Es & _ & _). pose proof (moved_file _ _ _ _ _ _ _ Hinv Hi He) as Hmv.
  pose proof (se_next _ _ _ _ He).
  split; simpl.
  - by eapply names_apart_move.
  - intros j wj Hj. apply insert_lookup_inv in Hj as [[-> ->]|[Hne Hj]]; [done|].
    apply (writer_ok_frame d); [|intros Hfj|by eapply Hok].
    + apply (se_names _ _ _ _ He); [by eapply Hsw|by eapply Htg].
    + apply (se_inodes _ _ _ _ He). intros Hfw. by eapply Hmv.
  - intros j wj Hj Hfj. apply insert_lookup_inv in Hj as [[-> ->]|[Hne Hj]]; [by apply Hmv|].
    pose proof (Hfr _ _ Hj Hfj). lia.
  - intros j l wj wl Hj Hl Hne Hfj Hfl. apply insert_lookup_inv in Hj, Hl.
    destruct Hj as [[-> ->]|[? Hj]], Hl as [[-> ->]|[? Hl]]; [done| | |by eapply Hdis].
    + apply not_eq_sym. by eapply Hmv.
    + by eapply Hmv.
  - lia.
  - intros x Hx. rewrite (se_inodes _ _ _ _ He); [by apply Hold|]. intros Hfw ->.
    destruct (Hmv Hfw). lia.
  - intros n Hn. pose proof (free_name_move _ _ _ _ _ Hi Es Hn) as Hn0.
    eapply entries_ok_move; [done..| |by apply Hnames]. apply Hn0. by eapply list_elem_of_lookup_2.
Qed.

Lemma fs_run_inv umask d0 turns s : fs_inv d0 s -> fs_inv d0 (fs_run umask turns s).
Proof. revert s. induction turns as [|turn turns IH]; intros s Hs; [done|]. apply IH. by apply fs_step_inv. Qed.

Lemma fs_start_inv d ws :
  settled d -> names_apart ws -> Forall (fun w => wr_phase w = AtDirs) ws -> fs_inv d (d, ws).
Proof.
  intros [Hst _] Hapart Hall.
  assert (forall i w, ws !! i = Some w -> has_file w = false /\ chmod_only_carried w) as Hno.
  { intros i w Hw. rewrite Forall_lookup in Hall. apply Hall in Hw. unfold has_file, chmod_only_carried.
    by rewrite Hw. }
  split; simpl; auto.
  - intros i w Hw. apply no_file_ok; by eapply Hno.
  - intros i w Hw Hf. apply Hno in Hw as [Hw _]. congruence.
  - intros i j wi wj Hi Hj _ Hf. apply Hno in Hi as [Hi _]. congruence.
  - intros n _ e He. rewrite Hst in He. apply list_elem_of_singleton in He as ->. by left.
Qed.

Lemma inv_published d0 s w :
  fs_inv d0 s -> w ∈ s.2 -> published w = true ->
  exists node, d_inodes s.1 !! wr_file w = Some node /\ i_data node = wr_contents w /\
    i_synced node = true /\ mode_kept w node.
Proof.
  intros Hinv [i Hi]%list_elem_of_lookup Hp. destruct (fi_ok _ _ Hinv _ _ Hi) as [_ Hf _].
  destruct (Hf (published_has_file _ Hp)) as (node & Hn & Hst & Hm). exists node.
  unfold file_state, published in *. destruct (wr_phase w) as [| | | | | | | | |[]]; naive_solver.
Qed.

(** What is found under a name in any state, now or after a power loss, that no
    call uses for its swap file. *)
Lemma inv_found d0 s n found :
  settled d0 -> fs_inv d0 s -> (forall w, w ∈ s.2 -> wr_swap w <> n) ->
  (found = reads s.1 n \/ survives_crash s.1 n found) ->
  found = reads d0 n \/
  exists w, w ∈ s.2 /\ wr_target w = n /\ published w = true /\ found = Some (wr_contents w).
Proof.
  intros [_ Hset] Hinv Hfree Hfound.
  assert (exists e, e ∈ d_names s.1 :: d_stale s.1 /\
    ((e !! n = None /\ found = None) \/
     exists ino, e !! n = Some ino /\ forall node, d_inodes s.1 !! ino = Some node ->
       i_synced node = true -> found = Some (i_data node))) as (e & He & Hcase).
  { destruct Hfound as [->|(e & He & Hf)].
    - exists (d_names s.1). split; [by left|]. unfold reads. destruct (d_names s.1 !! n) as [ino|]; [right|by left].
      exists ino. split; [done|]. intros node Hn _. simpl. by rewrite Hn.
    - exists e. split; [done|]. destruct (e !! n) as [ino|]; [right|by left].
      destruct Hf as (node & data & Hn & -> & Hd). exists ino. split; [done|].
      intros node' Hn' Hs. simplify_eq. by rewrite Hd. }
  destruct (fi_names _ _ Hinv n Hfree e He) as [Heq|(w & Hw & Ht & Hp & Heq)].
  - left. destruct Hcase as [[Hnone ->]|(ino & Hino & Hd)].
    + unfold reads. by rewrite <- Heq, Hnone.
    + rewrite Hino in Heq. symmetry in Heq. destruct (Hset _ _ Heq) as (node & Hn & Hs & Hlt).
      unfold reads. rewrite Heq. simpl. rewrite Hn. simpl. apply Hd; [|done].
      by rewrite (fi_old _ _ Hinv) by done.
  - right. exists w. destruct (inv_published _ _ _ Hinv Hw Hp) as (node & Hn & <- & Hs & _).
    destruct Hcase as [[Hnone _]|(ino & Hino & Hd)]; [congruence|]. split_and!; try done. apply Hd; congruence.
Qed.

(** ** The calls of a program *)

Record call := mkCall {
  c_target : string; c_process_id : N; c_uuid : string; c_contents : list byte; c_mode : option N
}.

Definition start (c : call) : Writer :=
  write_swapped (c_target c) (c_process_id c) (c_uuid c) (c_contents c) (c_mode c).

(** What a version-7 uuid gives: one per call, of hexadecimal digits and dashes,
    that no target's name was built with. *)
Definition uuids_fresh (calls : list call) : Prop :=
  NoDup (c_uuid <$> calls) /\ Forall (fun c => has_char "." (c_uuid c) = false) calls /\
  forall c c', c ∈ calls -> c' ∈ calls -> swap_name (c_target c) (c_process_id c) (c_uuid c) <> c_target c'.

Lemma swap_name_inj b b' n n' u u' :
  has_char "." u = false -> has_char "." u' = false -> swap_name b n u = swap_name b' n' u' -> u = u'.
Proof.
  assert (forall b n u, has_char "." u = false ->
    (r ← rsplit_once "." (swap_name b n u); rsplit_once "." r.1) = Some ("." +:+ b +:+ "." +:+ pretty n, u)) as Hr.
  { intros x m v Hv. unfold swap_name.
    change (".swap") with (String "." "swap"). change ("." +:+ v +:+ String "." "swap") with (String "." (v +:+ String "." "swap")).
    assert ("." +:+ x +:+ "." +:+ pretty m +:+ String "." (v +:+ String "." "swap") =
      (("." +:+ x +:+ "." +:+ pretty m) +:+ String "." v) +:+ String "." "swap") as ->.
    { rewrite !str_app_assoc. done. }
    rewrite rsplit_once_app by done. simpl. by rewrite rsplit_once_app. }
  intros Hu Hu' Heq. pose proof (Hr b n u Hu) as H1. rewrite Heq, (Hr b' n' u' Hu') in H1. by simplify_eq.
Qed.

Lemma uuids_apart calls : uuids_fresh calls -> names_apart (start <$> calls).
Proof.
  intros (Hnd & Hdot & Htg). split.
  - intros i j wi wj. rewrite !list_lookup_fmap. intros (ci & Hi & ->)%fmap_Some (cj & Hj & ->)%fmap_Some Hne Heq.
    simpl in Heq. rewrite Forall_lookup in Hdot. apply swap_name_inj in Heq; [|by eapply Hdot..].
    apply Hne. eapply NoDup_lookup; [exact Hnd|..]; rewrite list_lookup_fmap.
    + by rewrite Hi.
    + by rewrite Hj, Heq.
  - intros i j wi wj. rewrite !list_lookup_fmap. intros (ci & Hi & ->)%fmap_Some (cj & Hj & ->)%fmap_Some.
    apply Htg; by eapply list_elem_of_lookup_2.
Qed.

(** What a call was made with does not change as it runs. *)
Definition statics (w : Writer) : string * string * list byte * option N :=
  (wr_target w, wr_swap w, wr_contents w, wr_mode w).

Lemma writer_step_statics umask k w d : statics (writer_step umask k w d).1 = statics w.
Proof.
  unfold writer_step, create_swap, write_some.
  destruct (wr_phase w) as [| |n| | |mode| | |e|[]], k as [n'|e']; simpl; try done.
  - by destruct (d_names d !! wr_swap w).
  - destruct (drop n (wr_contents w)); [done|]. by destruct n'.
  - by destruct (_ ≫= _).
  - by destruct (d_names d !! wr_swap w).
  - by destruct (d_names d !! wr_swap w).
Qed.

Lemma fs_run_statics umask turns s : statics <$> (fs_run umask turns s).2 = statics <$> s.2.
Proof.
  revert s. induction turns as [|[i k] turns IH]; intros s; [done|].
  change (fs_run umask ((i, k) :: turns) s) with (fs_run umask turns (fs_step umask s (i, k))). rewrite IH.
  unfold fs_step. cbn [fst snd]. destruct (s.2 !! i) as [w|] eqn:Hi; [|done].
  pose proof (writer_step_statics umask k w s.1) as Hst. destruct (writer_step umask k w s.1) as [w' d'].
  simpl in *. rewrite list_fmap_insert, Hst. apply list_insert_id. by rewrite list_lookup_fmap, Hi.
Qed.

Lemma fs_run_call umask turns d calls w :
  w ∈ (fs_run umask turns (d, start <$> calls)).2 ->
  exists c, c ∈ calls /\ wr_target w = c_target c /\ wr_contents w = c_contents c /\ wr_mode w = c_mode c /\
    wr_swap w = swap_name (c_target c) (c_process_id c) (c_uuid c).
Proof.
  intros [i Hi]%list_elem_of_lookup. pose proof (fs_run_statics umask turns (d, start <$> calls)) as Hst.
  apply (f_equal (lookup i)) in Hst. rewrite !list_lookup_fmap, Hi in Hst. simpl in Hst.
  destruct (calls !! i) as [c|] eqn:Hc; [|by rewrite list_lookup_fmap, Hc in Hst].
  rewrite list_lookup_fmap, Hc in Hst. exists c. split; [by eapply list_elem_of_lookup_2|].
  unfold statics in Hst. simpl in Hst. by injection Hst as -> -> -> ->.
Qed.

(** C2. However any number of calls of [write_atomic] and [write_atomic_with_mode]
    interleave, whichever system calls are refused and wherever the machine stops: a
    reader of a target, during the calls or after a power loss, finds what was there
    at the start or all of the contents of a call that reached its rename, never part
    of a file; and the file of a call with a mode never has a permission that mode
    does not have. *)
Theorem atomic_replace_safe umask d calls turns :
  settled d -> uuids_fresh calls ->
  let s := fs_run umask turns (d, start <$> calls) in
  (forall c found, c ∈ calls -> found = reads s.1 (c_target c) \/ survives_crash s.1 (c_target c) found ->
    found = reads d (c_target c) \/
    exists w, w ∈ s.2 /\ wr_target w = c_target c /\ published w = true /\ found = Some (wr_contents w)) /\
  (forall w m, w ∈ s.2 -> has_file w = true -> wr_mode w = Some m ->
    exists node, d_inodes s.1 !! wr_file w = Some node /\ N.ldiff (i_mode node) m = 0%N).
Proof.
  intros Hset Hfresh s. pose proof (uuids_apart _ Hfresh) as Hapart.
  assert (fs_inv d s) as Hinv.
  { apply fs_run_inv, fs_start_inv; [done..|]. rewrite Forall_fmap. by apply Forall_true. }
  split.
  - intros c found Hc Hfound. apply (inv_found d s); try done. intros w Hw.
    apply fs_run_call in Hw as (c' & Hc' & _ & _ & _ & ->). by apply Hfresh.
  - intros w m [i Hi]%list_elem_of_lookup Hf Hm. destruct (fi_ok _ _ Hinv _ _ Hi) as [_ Hok _].
    destruct (Hok Hf) as (node & Hn & _ & Hk). exists node. split; [done|]. unfold mode_kept in Hk. by rewrite Hm in Hk.
Qed.

Definition demo_directory : directory :=
  mkDirectory {[ ".session.yaml" := 0 ]} {[ 0 := mkInode [x61] true 384 ]} 1 [].

Definition demo_calls : list call :=
  [mkCall ".session.yaml" 7 "0190-a" [x62; x63] None; mkCall ".session.yaml" 8 "0190-b" [x64] (Some 384%N)].

Lemma atomic_replace_safe_witness :
  let s := fs_run 18 [(0, Goes 1); (1, Goes 1); (0, Goes 1); (1, Goes 1); (0, Goes 1); (1, Goes 1); (1, Goes 1);
                      (1, Goes 1); (1, Goes 1); (0, Refuses "No space left on device")]
             (demo_directory, start <$> demo_calls) in
  reads s.1 ".session.yaml" = Some [x64] /\
  (reads s.1 ".session.yaml" = reads demo_directory ".session.yaml" \/
   exists w, w ∈ s.2 /\ wr_target w = ".session.yaml" /\ published w = true /\
     reads s.1 ".session.yaml" = Some (wr_contents w)).
Proof.
  split; [vm_compute; reflexivity|].
  refine (proj1 (atomic_replace_safe 18 demo_directory demo_calls _ _ _) (mkCall ".session.yaml" 7 "0190-a" [x62; x63] None)
    _ _ (or_introl eq_refl)).
  - split; [done|]. intros name ino Hn. unfold demo_directory in *. simpl in *.
    apply lookup_singleton_Some in Hn as [<- <-]. eexists. split; [reflexivity|]. simpl. split; [done|lia].
  - split_and!.
    + vm_compute. repeat constructor; set_solver.
    + repeat constructor.
    + intros c c' Hc Hc'. repeat (apply elem_of_cons in Hc as [->|Hc]); repeat (apply elem_of_cons in Hc' as [->|Hc']);
        first [by vm_compute | set_solver].
  - by left.
Defined.

(** ** One call, to its end *)

Definition rank (w : Writer) : nat :=
  match wr_phase w with
  | AtDirs => length (wr_contents w) + 8
  | AtCreate => length (wr_contents w) + 7
  | AtWrite n => length (wr_contents w) - n + 6
  | AtSync => 5 | AtMetadata => 4 | AtChmod _ => 3 | AtRename => 2
  | AtDirSync | AtCleanup _ => 1
  | Finished _ => 0
  end.

Lemma rank_step umask k w d : rank (writer_step umask k w d).1 <= rank w - 1.
Proof.
  unfold writer_step, create_swap, write_some, rank.
  destruct (wr_phase w) as [| |n| | |mode| | |e|[]] eqn:Hph, k as [n'|e']; simpl; rewrite ?Hph; try lia.
  - destruct (d_names d !! wr_swap w); simpl; lia.
  - destruct (drop n (wr_contents w)) as [|b rest] eqn:Hd; simpl; [lia|].
    apply (f_equal length) in Hd. rewrite length_drop in Hd. simpl in Hd.
    destruct n'; simpl; [lia|]. rewrite length_take. lia.
  - destruct (wr_mode w); simpl; lia.
  - destruct (_ ≫= _); simpl; lia.
  - destruct (d_names d !! wr_swap w); simpl; lia.
  - destruct (d_names d !! wr_swap w); simpl; lia.
Qed.

(** The call is on its way to [Ok], and its swap name is taken by it alone. *)
Definition going (w : Writer) (d : directory) : Prop :=
  match wr_phase w with
  | AtDirs | AtCreate => d_names d !! wr_swap w = None
  | AtCleanup _ | Finished (inl _) => False
  | _ => True
  end.

Definition goes (k : kernel) : Prop := match k with Goes n => 0 < n | Refuses _ => False end.

Lemma going_step umask k w d :
  goes k -> writer_ok d w -> going w d -> let '(w', d') := writer_step umask k w d in going w' d'.
Proof.
  destruct k as [n'|]; [|done]. simpl. intros Hn Hok Hg. pose proof (wo_swap _ _ Hok) as Hs.
  unfold writer_step, create_swap, write_some, going in *. unfold swap_held, has_file, published in Hs.
  destruct (wr_phase w) as [| |n| | |mode| | |e|[]] eqn:Hph; simpl; rewrite ?Hph; try done.
  - by rewrite Hg.
  - destruct (drop n (wr_contents w)); [done|]. by destruct n'; [lia|].
  - by destruct (wr_mode w).
  - by destruct (_ ≫= _).
  - by rewrite Hs.
  - by rewrite Hs.
Qed.

(** Once renamed, the file is under its target's name and no longer under its swap name. *)
Definition landed (w : Writer) (d : directory) : Prop :=
  published w = true -> d_names d !! wr_swap w = None /\ d_names d !! wr_target w = Some (wr_file w).

Lemma landed_step umask k w d :
  wr_swap w <> wr_target w -> writer_ok d w -> landed w d ->
  let '(w', d') := writer_step umask k w d in landed w' d'.
Proof.
  intros Hne Hok Hg. pose proof (wo_swap _ _ Hok) as Hs. unfold swap_held, has_file in Hs.
  unfold landed, writer_step, create_swap, write_some, published in *.
  destruct (wr_phase w) as [| |n| | |mode| | |e|[]] eqn:Hph, k as [n'|e']; simpl; rewrite ?Hph; try done.
  - by destruct (d_names d !! wr_swap w).
  - destruct (drop n (wr_contents w)); [done|]. by destruct n'.
  - by destruct (wr_mode w).
  - by destruct (_ ≫= _).
  - by destruct (d_names d !! wr_swap w).
  - rewrite Hs by done. intros _. simpl. by rewrite lookup_insert_eq, lookup_insert_ne, lookup_delete_eq.
Qed.

Lemma swap_name_longer base n uuid : swap_name base n uuid <> base.
Proof.
  intros Heq. apply (f_equal (fun s => length (String.list_ascii_of_string s))) in Heq. unfold swap_name in Heq.
  rewrite !list_ascii_app, !length_app in Heq. simpl in Heq. lia.
Qed.

Lemma one_apart c : names_apart [start c].
Proof.
  split; intros i j wi wj [-> <-]%list_lookup_singleton_Some [-> <-]%list_lookup_singleton_Some; [done|].
  apply swap_name_longer.
Qed.

Definition alone (umask : N) (ks : list kernel) (s : fs_state) : fs_state := fs_run umask (pair 0 <$> ks) s.

Lemma fs_step_one umask d w k :
  fs_step umask (d, [w]) (0, k) = ((writer_step umask k w d).2, [(writer_step umask k w d).1]).
Proof. unfold fs_step. simpl. by destruct (writer_step umask k w d). Qed.

(** A call that runs alone: it ends, and stays on its way while nothing is refused. *)
Lemma alone_run umask d0 ks d w :
  fs_inv d0 (d, [w]) -> landed w d ->
  exists w' d', alone umask ks (d, [w]) = (d', [w']) /\ landed w' d' /\ statics w' = statics w /\
    rank w' <= rank w - length ks /\ (Forall goes ks -> going w d -> going w' d').
Proof.
  revert d w. induction ks as [|k ks IH]; intros d w Hinv Hg.
  { exists w, d. split_and!; try done. simpl. lia. }
  unfold alone, fs_run. rewrite fmap_cons. simpl. rewrite fs_step_one.
  pose proof (proj2 (fi_apart _ _ Hinv) 0 0 w w eq_refl eq_refl) as Hne.
  pose proof (fs_step_inv umask d0 (d, [w]) (0, k) Hinv) as Hinv'. rewrite fs_step_one in Hinv'.
  pose proof (landed_step umask k w d Hne (fi_ok _ _ Hinv 0 w eq_refl) Hg) as Hg'.
  pose proof (writer_step_statics umask k w d) as Hst. pose proof (rank_step umask k w d) as Hr.
  pose proof (fun Hk => going_step umask k w d Hk (fi_ok _ _ Hinv 0 w eq_refl)) as Hgo.
  destruct (writer_step umask k w d) as [w1 d1]. simpl in *.
  destruct (IH d1 w1 Hinv' Hg') as (w' & d' & Hrun & Hg2 & Hst2 & Hr2 & Hgo2). exists w', d'.
  split_and!; [done|done|congruence|lia|]. intros [Hk Hks]%Forall_cons Hw. auto.
Qed.

(** C33. A call of [write_atomic] or [write_atomic_with_mode] that no other call
    disturbs ends within the length of its contents plus eight system calls, whatever
    the kernel answers. If it answers [Ok], its target holds exactly the contents, the
    swap file is gone and no other entry changed; if it answers an error, the target
    and every other entry but the swap file's are as they were. It answers [Ok] when
    nothing is refused. *)
Theorem write_atomic_correct umask d c ks :
  settled d -> length (c_contents c) + 8 <= length ks ->
  exists d' w r, alone umask ks (d, [start c]) = (d', [w]) /\ wr_phase w = Finished r /\
  match r with
  | inr _ => reads d' (c_target c) = Some (c_contents c) /\ d_names d' !! wr_swap w = None /\
             forall n, n <> c_target c -> n <> wr_swap w -> d_names d' !! n = d_names d !! n
  | inl e => forall n, n <> wr_swap w -> d_names d' !! n = d_names d !! n /\ reads d' n = reads d n
  end /\
  (Forall goes ks -> d_names d !! wr_swap w = None -> r = inr ()).
Proof.
  intros Hset Hlen.
  assert (fs_inv d (d, [start c])) as Hinv by (apply fs_start_inv; [done|apply one_apart|by repeat constructor]).
  destruct (alone_run umask d ks d (start c) Hinv) as (w & d' & Hrun & Hgone & Hst & Hrank & Hgo); [done|].
  unfold statics in Hst. simpl in Hst. injection Hst as Ht Hs Hc Hm.
  assert (fs_inv d (d', [w])) as Hinv' by (rewrite <- Hrun; by apply fs_run_inv).
  assert (exists r, wr_phase w = Finished r) as [r Hr].
  { unfold rank in Hrank. simpl in Hrank. destruct (wr_phase w); eauto; lia. }
  assert (forall n, n <> wr_swap w -> entry_ok d [w] n (d_names d' !! n)) as Hnames.
  { intros n Hn. apply (fi_names _ _ Hinv' n); [|by left]. by intros v ->%list_elem_of_singleton. }
  exists d', w, r. split_and!; [done|done| |].
  - destruct r as [e|[]].
    + intros n Hn. assert (d_names d' !! n = d_names d !! n) as Heq.
      { destruct (Hnames n Hn) as [?|(v & ->%list_elem_of_singleton & _ & Hp & _)]; [done|].
        unfold published in Hp. by rewrite Hr in Hp. }
      split; [done|]. unfold reads. rewrite Heq. destruct (d_names d !! n) as [ino|] eqn:Hd; [|done].
      destruct (proj2 Hset _ _ Hd) as (node & _ & _ & Hlt). simpl. by rewrite (fi_old _ _ Hinv').
    + assert (published w = true) as Hp by (unfold published; by rewrite Hr).
      destruct (Hgone Hp) as [Hno Hyes]. split_and!; [|done|].
      * rewrite <- Ht, <- Hc. unfold reads. rewrite Hyes. simpl.
        destruct (inv_published _ _ w Hinv') as (node & Hn & <- & _); [by left|done|]. simpl in Hn. by rewrite Hn.
      * intros n Hn Hsw. destruct (Hnames n Hsw) as [?|(v & ->%list_elem_of_singleton & Hv & _)]; [done|].
        congruence.
  - intros Hall Hnone. specialize (Hgo Hall). unfold going in Hgo. simpl in Hgo. rewrite Hr, <- Hs in Hgo.
    destruct r as [e|[]]; [|done]. by destruct (Hgo Hnone).
Qed.

Lemma write_atomic_correct_witness :
  exists d' w r, alone 18 (replicate 10 (Goes 1)) (demo_directory, [start (mkCall ".session.yaml" 7 "u" [x62; x63] None)]) =
    (d', [w]) /\ wr_phase w = Finished r /\ r = inr () /\ reads d' ".session.yaml" = Some [x62; x63].
Proof.
  destruct (write_atomic_correct 18 demo_directory (mkCall ".session.yaml" 7 "u" [x62; x63] None) (replicate 10 (Goes 1)))
    as (d' & w & r & Hrun & Hph & Hr & Hok).
  - split; [done|]. intros name ino Hn. unfold demo_directory in *. simpl in *.
    apply lookup_singleton_Some in Hn as [<- <-]. eexists. split; [reflexivity|]. simpl. split; [done|lia].
  - simpl. lia.
  - exists d', w, r. assert (r = inr ()) as ->.
    { revert Hrun Hph. vm_compute. by intros [= <- <-] [= <-]. }
    split_and!; try done. apply Hr.
Defined.
