(* ===== verification/Tools.v ===== *)
(** * The tool registry

    [src/packages/tddy-actions/src/tool/]: [def.rs], [registry.rs], [resolve.rs],
    [home.rs] and [error.rs]. Tool files are parsed, merged and validated into a
    registry; asking for tools resolves them and everything they depend on against a
    host, dependencies first.

    [serde_yaml] is the class [ToolYaml], the host the class [ToolHost] (the source's
    trait), the owners of extension sections are records of the trait's two methods. A
    definition's sections that the registry only carries are a type parameter. The two
    recursive searches take fuel; [cycle_fuel] and [visit_tool_fuel] show that one unit per
    tool and one or two more are enough. *)

From stdpp Require Import pretty.
From S2P Require Import Prelude Text HostPattern.
Local Open Scope io_scope.

(** ** Definitions *)

Definition TOOL_SCHEMA_VERSION : N := 1.

Inductive HomeSection := HPersistent (key : string) | HPath (path : string) | HSession.

Record TargetBinary := mkTargetBinary { tb_target : string; tb_path : string }.

Record ToolBinary := mkToolBinary {
  bin_command : string; bin_env : option string; bin_target : option TargetBinary; bin_sibling_of : option string
}.

Inductive ToolError :=
| TParse (file message : string)
| TDuplicateId (id first second : string)
| TUnknownDep (tool dep : string)
| TSiblingNotDep (tool dep : string)
| TDepCycle (cycle : list string)
| TUnknownTool (id : string)
| TUnresolvable (tool searched : string)
| TDuplicateCommand (command first second : string)
| TUnknownExtension (file owner : string)
| TExtensionRejected (file owner message : string)
| TUnboundPlaceholder (tool name : string)
| TIo (dir message : string).

Section tools.
(** The sections the registry only carries, and an extension section's value. *)
Context {Sections Value : Type}.

Record ToolDef := mkToolDef {
  td_schema_version : N; td_id : string; td_summary : string; td_binary : ToolBinary; td_deps : list string;
  td_reads : list string; td_extensions : gmap string Value; td_network : NetworkSection; td_home : HomeSection;
  td_sections : Sections
}.

(** [serde_yaml::from_str] at [SchemaProbe] and at [ToolDef]. *)
Class ToolYaml := {
  yaml_schema_version : string -> string + N;
  yaml_tool_def : string -> string + ToolDef
}.

Definition parse_tool `{!ToolYaml} (file yaml : string) : res ToolError ToolDef :=
  match yaml_schema_version yaml with
  | inl e => Err (TParse file e)
  | inr version =>
      if decide (version <> TOOL_SCHEMA_VERSION) then
        Err (TParse file ("schema_version " +:+ pretty version +:+ " is not supported (this build reads "
                            +:+ pretty TOOL_SCHEMA_VERSION +:+ ")"))
      else
        match yaml_tool_def yaml with
        | inl e => Err (TParse file e)
        | inr def =>
            match td_home def with
            | HPath path =>
                if is_absolute path then Ok def
                else Err (TParse file ("home.path " +:+ path +:+ " is not an absolute directory"))
            | _ => Ok def
            end
        end
  end.

(** ** The registry *)

(** A registry: each definition and the file it came from, by id. *)
Notation ToolRegistry := (gmap string (ToolDef * string)).

Definition insert_unique (tools : ToolRegistry) (def : ToolDef) (file : string) : res ToolError ToolRegistry :=
  match tools !! td_id def with
  | Some (_, first) => Err (TDuplicateId (td_id def) first file)
  | None => Ok (<[td_id def := (def, file)]> tools)
  end.

(** The loop of [builtin], [from_embedded] and [read_overrides]: [(file, yaml)] pairs, a file
    that cannot be read as its error. *)
Fixpoint insert_files `{!ToolYaml} (files : list (string * (string + string))) (tools : ToolRegistry)
    : res ToolError ToolRegistry :=
  match files with
  | [] => Ok tools
  | (file, inl e) :: _ => Err (TParse file ("cannot be read: " +:+ e))
  | (file, inr yaml) :: rest =>
      let? def := parse_tool file yaml in
      let? tools' := insert_unique tools def file in
      insert_files rest tools'
  end.

(** The first [dep] of the first tool, in id order, that fails a test. *)
Fixpoint refuse_unknown_deps (tools : ToolRegistry) (entries : list (string * (ToolDef * string)))
    : res ToolError () :=
  match entries with
  | [] => Ok ()
  | (id, (def, _)) :: rest =>
      match list_find (fun dep => tools !! dep = None) (td_deps def) with
      | Some (_, dep) => Err (TUnknownDep id dep)
      | None => refuse_unknown_deps tools rest
      end
  end.

Fixpoint refuse_siblings_that_are_not_deps (entries : list (string * (ToolDef * string))) : res ToolError () :=
  match entries with
  | [] => Ok ()
  | (id, (def, _)) :: rest =>
      match bin_sibling_of (td_binary def) with
      | Some sibling =>
          if decide (sibling ∈ td_deps def) then refuse_siblings_that_are_not_deps rest
          else Err (TSiblingNotDep id sibling)
      | None => refuse_siblings_that_are_not_deps rest
      end
  end.

(** [min_by]: the index of the first smallest element. *)
Fixpoint min_index_from (best : nat * string) (i : nat) (l : list string) : nat :=
  match l with
  | [] => best.1
  | x :: rest => min_index_from (if String.ltb x best.2 then (i, x) else best) (S i) rest
  end.

Definition min_index (l : list string) : nat :=
  match l with [] => 0 | x :: rest => min_index_from (0, x) 1 rest end.

(** A cycle closed on its smallest id. The members are never empty. *)
Definition closed_cycle (members : list string) : list string :=
  let start := min_index members in
  let cycle := drop start members ++ take start members in
  cycle ++ take 1 cycle.

(** [cycle_from]: a cycle, or what is [finished] now; [None] only without fuel. *)
Fixpoint cycle_from (tools : ToolRegistry) (fuel : nat) (id : string) (path finished : list string)
    : option (list string + list string) :=
  match fuel with
  | O => None
  | S fuel' =>
      match stack_from id path with
      | Some members => Some (inl (closed_cycle members))
      | None =>
          if decide (id ∈ finished) then Some (inr finished) else
          match tools !! id with
          | None => Some (inr finished)
          | Some (def, _) =>
              match (fix go deps finished :=
                match deps with
                | [] => Some (inr finished)
                | dep :: deps' =>
                    match cycle_from tools fuel' dep (path ++ [id]) finished with
                    | Some (inr finished') => go deps' finished'
                    | other => other
                    end
                end) (td_deps def) finished with
              | Some (inr finished') => Some (inr (finished' ++ [id]))
              | other => other
              end
          end
      end
  end.

(** The loop over a tool's deps. *)
Fixpoint cycle_from_all (tools : ToolRegistry) (fuel : nat) (deps path finished : list string)
    : option (list string + list string) :=
  match deps with
  | [] => Some (inr finished)
  | dep :: deps' =>
      match cycle_from tools fuel dep path finished with
      | Some (inr finished') => cycle_from_all tools fuel deps' path finished'
      | other => other
      end
  end.

Definition refuse_dep_cycles (tools : ToolRegistry) : res ToolError () :=
  match cycle_from_all tools (S (size tools)) (fst <$> btree_iter tools) [] [] with
  | Some (inl cycle) => Err (TDepCycle cycle)
  | Some (inr _) => Ok ()
  | None => Panic
  end.

Definition validated (tools : ToolRegistry) : res ToolError ToolRegistry :=
  let? _ := refuse_unknown_deps tools (btree_iter tools) in
  let? _ := refuse_siblings_that_are_not_deps (btree_iter tools) in
  let? _ := refuse_dep_cycles tools in
  Ok tools.

Definition from_embedded `{!ToolYaml} (sources : list (string * string)) : res ToolError ToolRegistry :=
  let? tools := insert_files (prod_map id inr <$> sources) ∅ in validated tools.

(** [load], of the override files found: [extend] lets an override win. *)
Definition load `{!ToolYaml} (builtin : ToolRegistry) (overrides : res ToolError (list (string * (string + string))))
    : res ToolError ToolRegistry :=
  let? files := overrides in
  let? found := insert_files files ∅ in
  validated (found ∪ builtin).

Definition with_tool (tools : ToolRegistry) (def : ToolDef) (origin : string) : res ToolError ToolRegistry :=
  let? tools' := insert_unique tools def origin in validated tools'.

(** ** Extension owners *)

Record ExtensionOwner := mkOwner { owner_name : string; owner_validate : string -> Value -> string + () }.

Fixpoint validate_sections (owners : list ExtensionOwner) (id file : string) (sections : list (string * Value))
    : res ToolError () :=
  match sections with
  | [] => Ok ()
  | (key, section) :: rest =>
      match list_find (fun owner => owner_name owner = key) owners with
      | None => Err (TUnknownExtension file key)
      | Some (_, owner) =>
          match owner_validate owner id section with
          | inl message => Err (TExtensionRejected file key message)
          | inr _ => validate_sections owners id file rest
          end
      end
  end.

Fixpoint validate_extensions (owners : list ExtensionOwner) (entries : list (string * (ToolDef * string)))
    : res ToolError () :=
  match entries with
  | [] => Ok ()
  | (id, (def, file)) :: rest =>
      let? _ := validate_sections owners id file (btree_iter (td_extensions def)) in
      validate_extensions owners rest
  end.

Definition load_with_owners `{!ToolYaml} (builtin : ToolRegistry)
    (overrides : res ToolError (list (string * (string + string)))) (owners : list ExtensionOwner)
    : res ToolError ToolRegistry :=
  let? registry := load builtin overrides in
  let? _ := validate_extensions owners (btree_iter registry) in
  Ok registry.
End tools.
Arguments ToolDef : clear implicits.
Arguments ToolYaml : clear implicits.
Notation ToolRegistry Sections Value := (gmap string (ToolDef Sections Value * string)).

(** ** Resolution *)

Class ToolHost := {
  env_var : string -> option string;
  path_dirs : list string;
  is_executable_file : string -> bool;
  canonicalize : string -> string + string;
  target_output : TargetBinary -> option string
}.

Record ResolvedTool := mkResolved {
  rt_id : string; rt_command : string; rt_binary : string; rt_reads : list string; rt_network : NetworkSection
}.

(** [Path::with_file_name] of a path with a final component. *)
Definition with_file_name (p name : string) : string := path_join (path_parent p) name.

Section resolve.
Context {Sections Value : Type} `{!ToolHost}.
Notation ToolDef := (ToolDef Sections Value).
Notation ToolRegistry := (gmap string (ToolDef * string)).

Definition unresolvable (def : ToolDef) (searched : string) : ToolError := TUnresolvable (td_id def) searched.

Definition canonical (def : ToolDef) (path : string) : res ToolError string :=
  match canonicalize path with
  | inr p => Ok p
  | inl e => Err (unresolvable def (path +:+ " (cannot be resolved: " +:+ e +:+ ")"))
  end.

Definition target_output_binary (def : ToolDef) (target : TargetBinary) (output : string) : res ToolError string :=
  if is_executable_file output then canonical def output
  else Err (unresolvable def (tb_target target +:+ " output " +:+ output +:+ " (not an executable file)")).

Definition override_binary (def : ToolDef) (var value : string) : res ToolError string :=
  if is_executable_file value then canonical def value
  else Err (unresolvable def (var +:+ " (" +:+ value +:+ ": not an executable file)")).

Definition resolve_sibling (tool : string) (binary : ToolBinary) (dep : ResolvedTool) : res ToolError string :=
  let candidate := with_file_name (rt_binary dep) (bin_command binary) in
  if is_executable_file candidate then
    match canonicalize candidate with
    | inr p => Ok p
    | inl e => Err (TUnresolvable tool (candidate +:+ " (cannot be resolved: " +:+ e +:+ ")"))
    end
  else Err (TUnresolvable tool (candidate +:+ " (beside " +:+ rt_id dep +:+ " at " +:+ rt_binary dep +:+ ")")).

(** The first [PATH] directory that holds the command. *)
Definition search_path (command : string) : option string :=
  found ← list_find (fun candidate => is_executable_file candidate = true)
            ((fun dir => path_join dir command) <$> path_dirs);
  Some found.2.

(** Beside the dep, or on the [PATH]; [searched] is what was tried before. *)
Definition beside_or_search (def : ToolDef) (resolved : list ResolvedTool) (searched : list string)
    : res ToolError string :=
  let binary := td_binary def in
  match bin_sibling_of binary with
  | Some dep_id =>
      match list_find (fun tool => rt_id tool = dep_id) resolved with
      | Some (_, dep) => resolve_sibling (td_id def) binary dep
      | None => Err (unresolvable def (dep_id +:+ " (not resolved before " +:+ td_id def +:+ ")"))
      end
  | None =>
      match search_path (bin_command binary) with
      | Some candidate => canonical def candidate
      | None =>
          let where_ := match path_dirs with
                        | [] => "PATH (empty)"
                        | dirs => "PATH (" +:+ join ":" dirs +:+ ")"
                        end in
          Err (unresolvable def (join ", " (searched ++ [where_])))
      end
  end.

Definition locate_binary (def : ToolDef) (resolved : list ResolvedTool) : res ToolError string :=
  let binary := td_binary def in
  match bin_target binary with
  | Some target =>
      match target_output target with
      | Some output => target_output_binary def target output
      | None => Err (unresolvable def (tb_target target +:+ " output " +:+ tb_path target))
      end
  | None =>
      match bin_env binary with
      | Some var =>
          match env_var var with
          | Some value => override_binary def var value
          | None => beside_or_search def resolved [var +:+ " (unset)"]
          end
      | None => beside_or_search def resolved []
      end
  end.

Definition resolve_tool (def : ToolDef) (resolved : list ResolvedTool) : res ToolError ResolvedTool :=
  let? binary := locate_binary def resolved in
  Ok (mkResolved (td_id def) (bin_command (td_binary def)) binary (td_reads def) (td_network def)).

(** [visited] and [closure]. *)
Definition visit_state : Type := list string * list ResolvedTool.

(** After its deps: resolve the tool, refuse a command already provided, push it. *)
Definition push_tool (def : ToolDef) (s : visit_state) : res ToolError visit_state :=
  let '(visited, closure) := s in
  let? resolved := resolve_tool def closure in
  match list_find (fun t => rt_command t = rt_command resolved) closure with
  | Some (_, first) => Err (TDuplicateCommand (rt_command resolved) (rt_id first) (rt_id resolved))
  | None => Ok (visited, closure ++ [resolved])
  end.

(** [visit]; [None] only without fuel. *)
Fixpoint visit_tool (tools : ToolRegistry) (fuel : nat) (id : string) (s : visit_state)
    : option (res ToolError visit_state) :=
  match fuel with
  | O => None
  | S fuel' =>
      let '(visited, closure) := s in
      if decide (id ∈ visited) then Some (Ok s) else
      match tools !! id with
      | None => Some (Err (TUnknownTool id))
      | Some (def, _) =>
          match (fix go deps s :=
            match deps with
            | [] => Some (Ok s)
            | dep :: deps' =>
                match visit_tool tools fuel' dep s with
                | Some (Ok s') => go deps' s'
                | other => other
                end
            end) (td_deps def) (id :: visited, closure) with
          | Some (Ok s') => Some (push_tool def s')
          | other => other
          end
      end
  end.

(** The loop over a tool's deps, and over the ids asked for. *)
Fixpoint visit_tools (tools : ToolRegistry) (fuel : nat) (ids : list string) (s : visit_state)
    : option (res ToolError visit_state) :=
  match ids with
  | [] => Some (Ok s)
  | id :: ids' =>
      match visit_tool tools fuel id s with
      | Some (Ok s') => visit_tools tools fuel ids' s'
      | other => other
      end
  end.

Definition resolve_closure (tools : ToolRegistry) (ids : list string) : res ToolError (list ResolvedTool) :=
  let? s := default Panic (visit_tools tools (S (S (size tools))) ids ([], [])) in Ok s.2.
End resolve.
