(* ===== verification/ToolsSpec.v ===== *)
(** * Correctness of the tool registry

    What validation guarantees about a registry, and what a resolved closure is. *)

From S2P Require Import Prelude Text HostPattern Tools.
Local Open Scope io_scope.

(** ** Closed walks *)

Section walk.
Context {A : Type} (R : relation A).

Fixpoint walk (l : list A) : Prop :=
  match l with
  | x :: ((y :: _) as l') => R x y /\ walk l'
  | _ => True
  end.

(** A walk that ends where it starts and goes somewhere in between. *)
Definition closed_walk (l : list A) : Prop := exists x m, l = x :: m ++ [x] /\ walk l.

Lemma walk_app l x l' : walk (l ++ x :: l') <-> walk (l ++ [x]) /\ walk (x :: l').
Proof.
  induction l as [|a l IH]; [simpl; tauto|].
  destruct l as [|b l]; simpl in *; [tauto|]. rewrite IH. tauto.
Qed.

(** Walking a circle from another of its members. *)
Lemma walk_rotate a b x y l :
  a ++ b = x :: l -> head b = Some y -> walk (x :: l ++ [x]) -> closed_walk (b ++ a ++ [y]).
Proof.
  intros Hab Hb Hw. destruct b as [|z b]; [done|]. injection Hb as ->.
  exists y, (b ++ a). split; [by rewrite <- app_assoc|].
  destruct a as [|x' a]; simpl in Hab.
  { injection Hab as -> ->. done. }
  injection Hab as -> Hl. assert (x :: l ++ [x] = (x :: a) ++ y :: (b ++ [x])) as Heq.
  { rewrite <- Hl. simpl. by rewrite <- app_assoc. }
  rewrite Heq in Hw. apply walk_app in Hw as [Hw1 Hw2].
  change (walk ((y :: b) ++ x :: (a ++ [y]))). rewrite walk_app. split; [done|]. done.
Qed.

Lemma closed_walk_cycle l : closed_walk l -> exists x, x ∈ l /\ tc R x x.
Proof.
  intros (x & m & -> & Hw). exists x. split; [by left|].
  assert (forall m z, walk (z :: m ++ [x]) -> tc R z x) as Hgen; [|by apply (Hgen m)].
  clear. intros m. induction m as [|y m IH]; intros z; simpl.
  - intros [Hz _]. by apply tc_once.
  - intros [Hz Hw]. eapply tc_l; [exact Hz|]. by apply IH.
Qed.
End walk.

Lemma min_index_from_lt best i l : best.1 < i -> min_index_from best i l < i + length l.
Proof.
  revert best i. induction l as [|x l IH]; intros best i Hi; simpl; [lia|].
  pose proof (IH (if String.ltb x best.2 then (i, x) else best) (S i)). destruct (String.ltb x best.2); simpl in *; lia.
Qed.

Lemma min_index_lt l : l <> [] -> min_index l < length l.
Proof. destruct l as [|x l]; [done|]. intros _. simpl. apply (min_index_from_lt (0, x) 1 l). simpl. lia. Qed.

Lemma closed_cycle_walk R x l :
  walk R (x :: l ++ [x]) -> closed_walk R (closed_cycle (x :: l)).
Proof.
  intros Hw. unfold closed_cycle. set (k := min_index (x :: l)).
  assert (k < length (x :: l)) as Hk by by apply min_index_lt.
  destruct (drop k (x :: l)) as [|y b] eqn:Hd.
  { apply (f_equal length) in Hd. rewrite length_drop in Hd. simpl in *. lia. }
  replace (take 1 ((y :: b) ++ take k (x :: l))) with [y] by done. rewrite <- app_assoc.
  eapply walk_rotate; [|done|exact Hw]. rewrite <- Hd. apply take_drop.
Qed.

Lemma stack_from_suffix id s m : stack_from id s = Some m -> exists pre l, s = pre ++ m /\ m = id :: l.
Proof.
  induction s as [|x s IH]; simpl; [done|]. case_decide as Hx.
  - intros [= <-]. subst. by exists [], s.
  - intros (pre & l & -> & ->)%IH. by exists (x :: pre), l.
Qed.

(** ** The search for a cycle *)

Section spec.
Context {Sections Value : Type}.
Notation ToolDef := (ToolDef Sections Value).
Notation ToolRegistry := (gmap string (ToolDef * string)).

(** [x] lists [y] in its [deps]. *)
Definition needs (tools : ToolRegistry) (x y : string) : Prop :=
  exists def file, tools !! x = Some (def, file) /\ y ∈ td_deps def.

Definition deps_known (tools : ToolRegistry) : Prop :=
  forall x y, needs tools x y -> is_Some (tools !! y).

Lemma cycle_from_unfold (tools : ToolRegistry) fuel id path finished :
  cycle_from tools (S fuel) id path finished =
    match stack_from id path with
    | Some members => Some (inl (closed_cycle members))
    | None =>
        if decide (id ∈ finished) then Some (inr finished) else
        match tools !! id with
        | None => Some (inr finished)
        | Some (def, _) =>
            match cycle_from_all tools fuel (td_deps def) (path ++ [id]) finished with
            | Some (inr finished') => Some (inr (finished' ++ [id]))
            | other => other
            end
        end
    end.
Proof.
  cbn [cycle_from]. destruct (stack_from id path); [done|]. case_decide; [done|].
  destruct (tools !! id) as [[def file]|]; [|done].
  enough (forall f, (fix go deps finished :=
    match deps with
    | [] => Some (inr finished)
    | dep :: deps' =>
        match cycle_from tools fuel dep (path ++ [id]) finished with
        | Some (inr finished') => go deps' finished'
        | other => other
        end
    end) (td_deps def) f = cycle_from_all tools fuel (td_deps def) (path ++ [id]) f) as -> by done.
  induction (td_deps def) as [|dep deps IH]; intros f; simpl; [done|].
  destruct (cycle_from tools fuel dep (path ++ [id]) f) as [[|]|]; [done|apply IH|done].
Qed.

(** What a search from the ids [ids] answers. *)
Definition cycle_post (tools : ToolRegistry) (ids path finished : list string) (r : list string + list string) : Prop :=
  match r with
  | inl cycle => closed_walk (needs tools) cycle
  | inr finished' => exists added, finished' = finished ++ added /\ NoDup finished' /\
      deps_first (needs tools) finished' /\ (forall id, id ∈ ids -> id ∈ finished') /\
      (forall x, x ∈ added -> x ∉ path)
  end.

Lemma cycle_from_all_post (tools : ToolRegistry) fuel deps path finished r :
  (forall id f r, id ∈ deps -> NoDup f -> deps_first (needs tools) f ->
    cycle_from tools fuel id path f = Some r -> cycle_post tools [id] path f r) ->
  NoDup finished -> deps_first (needs tools) finished ->
  cycle_from_all tools fuel deps path finished = Some r -> cycle_post tools deps path finished r.
Proof.
  intros Hone. revert finished. induction deps as [|dep deps IH]; intros finished Hnd Hdf; simpl.
  { intros [= <-]. exists []. rewrite app_nil_r. split_and!; [done..|set_solver|set_solver]. }
  destruct (cycle_from tools fuel dep path finished) as [r1|] eqn:Hc; [|done].
  pose proof (Hone dep finished r1 ltac:(left) Hnd Hdf Hc) as Hp. destruct r1 as [cycle|f1]; [by intros [= <-]|].
  destruct Hp as (a1 & -> & Hnd1 & Hdf1 & Hin1 & Ha1). intros Hall.
  specialize (IH ltac:(intros; eapply Hone; [by right|done..]) _ Hnd1 Hdf1 Hall). destruct r as [|f2]; [done|].
  destruct IH as (a2 & -> & Hnd2 & Hdf2 & Hin2 & Ha2). exists (a1 ++ a2). rewrite app_assoc.
  split_and!; [done..| |set_solver]. intros id [->|Hid]%elem_of_cons; [|by apply Hin2].
  apply elem_of_app. left. apply Hin1. by left.
Qed.

Lemma cycle_from_post (tools : ToolRegistry) fuel id path finished r :
  deps_known tools -> is_Some (tools !! id) -> walk (needs tools) (path ++ [id]) ->
  NoDup finished -> deps_first (needs tools) finished ->
  cycle_from tools fuel id path finished = Some r -> cycle_post tools [id] path finished r.
Proof.
  intros Hknown. revert id path finished r. induction fuel as [|fuel IH]; intros id path finished r Hid Hw Hnd Hdf; [done|].
  rewrite cycle_from_unfold. destruct (stack_from id path) as [members|] eqn:Hst.
  { intros [= <-]. apply stack_from_suffix in Hst as (pre & l & -> & ->). apply closed_cycle_walk.
    rewrite <- app_assoc in Hw. simpl in Hw. by apply walk_app in Hw as [_ Hw]. }
  assert (id ∉ path) as Hnp by (rewrite <- stack_from_elem, Hst; by intros []).
  case_decide as Hfin.
  { intros [= <-]. exists []. rewrite app_nil_r. split_and!; [done..|set_solver|set_solver]. }
  destruct Hid as [[def file] Hdef]. rewrite Hdef.
  destruct (cycle_from_all tools fuel (td_deps def) (path ++ [id]) finished) as [r1|] eqn:Hall; [|done].
  apply cycle_from_all_post in Hall; [|clear Hall|done..].
  2: { intros dep f r' Hd Hnd' Hdf' Hc. assert (needs tools id dep) as Hn by by exists def, file.
       eapply IH; [by eapply Hknown| |done|done|exact Hc]. rewrite <- app_assoc. simpl. apply walk_app. by split. }
  destruct r1 as [cycle|f1]; [by intros [= <-]|]. destruct Hall as (a & -> & Hnd1 & Hdf1 & Hin1 & Ha).
  intros [= <-]. exists (a ++ [id]). rewrite app_assoc. split_and!; [done| | |set_solver|set_solver].
  - apply NoDup_app. split_and!; [done| |apply NoDup_singleton]. intros x Hx ->%list_elem_of_singleton.
    apply elem_of_app in Hx as [?|Hx]; [done|]. apply (Ha _ Hx). set_solver.
  - apply deps_first_snoc; [done|]. intros y (def' & file' & Hdef' & Hy). simplify_eq. by apply Hin1.
Qed.

Lemma cycle_from_all_fuel (tools : ToolRegistry) fuel deps path finished :
  (forall dep f, cycle_from tools fuel dep path f <> None) -> cycle_from_all tools fuel deps path finished <> None.
Proof.
  intros Hc. revert finished. induction deps as [|dep deps IH]; intros finished; simpl; [done|].
  specialize (Hc dep finished). destruct (cycle_from tools fuel dep path finished) as [[]|]; [done|apply IH|done].
Qed.

(** A path of distinct known tools is no longer than the registry. *)
Lemma path_short {V} (tools : gmap string V) path :
  NoDup path -> (forall x, x ∈ path -> is_Some (tools !! x)) -> length path <= size tools.
Proof.
  intros Hnd Hin. assert (size (list_to_set path : gset string) <= size (dom tools)) as Hle.
  { apply subseteq_size. intros x. rewrite elem_of_list_to_set. intros ?%Hin. by apply elem_of_dom. }
  by rewrite size_list_to_set, size_dom in Hle.
Qed.

Lemma cycle_fuel (tools : ToolRegistry) fuel id path finished :
  NoDup path -> (forall x, x ∈ path -> is_Some (tools !! x)) -> size tools < fuel + length path ->
  cycle_from tools fuel id path finished <> None.
Proof.
  revert id path finished. induction fuel as [|fuel IH]; intros id path finished Hnd Hin Hlt.
  - exfalso. apply (Nat.lt_irrefl (size tools)). eapply Nat.lt_le_trans; [exact Hlt|]. by apply path_short.
  - rewrite cycle_from_unfold. destruct (stack_from id path) eqn:Hst; [done|]. case_decide; [done|].
    destruct (tools !! id) as [[def file]|] eqn:Hid; [|done].
    assert (cycle_from_all tools fuel (td_deps def) (path ++ [id]) finished <> None) as Hall.
    { apply cycle_from_all_fuel. intros dep f. apply IH.
      - apply NoDup_app. split_and!; [done| |apply NoDup_singleton]. intros x Hx ->%list_elem_of_singleton.
        apply stack_from_elem in Hx as [? ?]. congruence.
      - intros x [Hx|Hx%list_elem_of_singleton]%elem_of_app; [by apply Hin|subst; by eexists].
      - rewrite length_app. simpl. lia. }
    by destruct (cycle_from_all tools fuel (td_deps def) (path ++ [id]) finished) as [[]|].
Qed.

Lemma elem_btree_iter {V} (m : gmap string V) k v : (k, v) ∈ btree_iter m <-> m !! k = Some v.
Proof. unfold btree_iter. by rewrite sort_by_Permutation, elem_of_map_to_list. Qed.

Lemma elem_btree_keys {V} (m : gmap string V) k : k ∈ fst <$> btree_iter m <-> is_Some (m !! k).
Proof.
  rewrite list_elem_of_fmap. split.
  - intros ([k' v] & -> & Hv%elem_btree_iter). by exists v.
  - intros [v Hv]. exists (k, v). by rewrite elem_btree_iter.
Qed.

Lemma refuse_dep_cycles_correct (tools : ToolRegistry) :
  deps_known tools ->
  match refuse_dep_cycles tools with
  | Ok _ => forall x, ~ tc (needs tools) x x
  | Err e => exists cycle, e = TDepCycle cycle /\ closed_walk (needs tools) cycle
  | Panic => False
  end.
Proof.
  intros Hknown. unfold refuse_dep_cycles.
  destruct (cycle_from_all tools (S (size tools)) (fst <$> btree_iter tools) [] []) as [r|] eqn:Hall.
  2: { exfalso. revert Hall. apply cycle_from_all_fuel. intros dep f. apply cycle_fuel; [constructor|set_solver|simpl; lia]. }
  apply cycle_from_all_post in Hall; [|clear Hall|constructor|apply deps_first_nil].
  2: { intros id f r' Hid%elem_btree_keys Hnd Hdf. by apply cycle_from_post. }
  destruct r as [cycle|f]; [by eexists|]. destruct Hall as (a & -> & Hnd & Hdf & Hin & _). intros x Hx.
  assert (exists y, needs tools x y) as (y & def & file & Hdef & _) by (inversion Hx; eauto).
  revert Hx. apply (deps_first_acyclic (needs tools) a); [done..|]. apply Hin, elem_btree_keys. by eexists.
Qed.

(** ** Validation *)

Lemma refuse_unknown_deps_correct (tools : ToolRegistry) entries :
  match refuse_unknown_deps tools entries with
  | Ok _ => forall id def file dep, (id, (def, file)) ∈ entries -> dep ∈ td_deps def -> is_Some (tools !! dep)
  | Err e => exists id def file dep, (id, (def, file)) ∈ entries /\ dep ∈ td_deps def /\ tools !! dep = None /\
      e = TUnknownDep id dep
  | Panic => False
  end.
Proof.
  induction entries as [|[id [def file]] entries IH]; simpl; [set_solver|].
  destruct (list_find _ (td_deps def)) as [[i dep]|] eqn:Hf.
  - apply list_find_Some in Hf as (Hi & Hno & _). exists id, def, file, dep.
    split_and!; [by left|by eapply list_elem_of_lookup_2|done|done].
  - rewrite list_find_None, Forall_forall in Hf. destruct (refuse_unknown_deps tools entries); [|set_solver|done].
    intros id' def' file' dep [Heq|Hin]%elem_of_cons Hdep; [|by eapply IH]. simplify_eq.
    apply Hf in Hdep. destruct (tools !! dep); [by eexists|done].
Qed.

(** A sibling is one of the tool's deps. *)
Definition sibling_is_dep (def : ToolDef) : Prop :=
  forall dep, bin_sibling_of (td_binary def) = Some dep -> dep ∈ td_deps def.

Lemma refuse_siblings_correct entries :
  match refuse_siblings_that_are_not_deps entries with
  | Ok _ => forall id (def : ToolDef) file, (id, (def, file)) ∈ entries -> sibling_is_dep def
  | Err e => exists id (def : ToolDef) file dep, (id, (def, file)) ∈ entries /\
      bin_sibling_of (td_binary def) = Some dep /\ dep ∉ td_deps def /\ e = TSiblingNotDep id dep
  | Panic => False
  end.
Proof.
  induction entries as [|[id [def file]] entries IH]; simpl; [set_solver|].
  assert (sibling_is_dep def -> match refuse_siblings_that_are_not_deps entries with
    | Ok _ => forall id' (def' : ToolDef) file', (id', (def', file')) ∈ (id, (def, file)) :: entries -> sibling_is_dep def'
    | Err e => exists id' (def' : ToolDef) file' dep, (id', (def', file')) ∈ (id, (def, file)) :: entries /\
        bin_sibling_of (td_binary def') = Some dep /\ dep ∉ td_deps def' /\ e = TSiblingNotDep id' dep
    | Panic => False
    end) as Hrest.
  { intros Hok. destruct (refuse_siblings_that_are_not_deps entries); [|set_solver|done].
    intros id' def' file' [Heq|Hin]%elem_of_cons; [by simplify_eq|by eapply IH]. }
  destruct (bin_sibling_of (td_binary def)) as [dep|] eqn:Hs; [case_decide as Hd|].
  - apply Hrest. intros dep' Hd'. by simplify_eq.
  - exists id, def, file, dep. by split_and!; [left|..].
  - apply Hrest. intros dep' Hd'. by simplify_eq.
Qed.

(** What resolution relies on. *)
Record registry_ok (tools : ToolRegistry) : Prop := {
  ro_known : deps_known tools;
  ro_siblings : forall id def file, tools !! id = Some (def, file) -> sibling_is_dep def;
  ro_acyclic : forall x, ~ tc (needs tools) x x
}.

Lemma validated_spec (tools : ToolRegistry) :
  match validated tools with
  | Ok tools' => tools' = tools /\ registry_ok tools
  | Err e =>
      (exists tool dep, e = TUnknownDep tool dep /\ needs tools tool dep /\ tools !! dep = None) \/
      (exists tool dep def file, e = TSiblingNotDep tool dep /\ tools !! tool = Some (def, file) /\
         bin_sibling_of (td_binary def) = Some dep /\ dep ∉ td_deps def) \/
      (exists cycle, e = TDepCycle cycle /\ closed_walk (needs tools) cycle)
  | Panic => False
  end.
Proof.
  unfold validated. pose proof (refuse_unknown_deps_correct tools (btree_iter tools)) as Hu.
  destruct (refuse_unknown_deps tools (btree_iter tools)) as [[]|e|]; simpl; [| |done].
  2: { left. destruct Hu as (id & def & file & dep & Hin%elem_btree_iter & Hdep & Hno & ->). exists id, dep.
       split_and!; [done| |done]. by exists def, file. }
  pose proof (refuse_siblings_correct (btree_iter tools)) as Hs.
  destruct (refuse_siblings_that_are_not_deps (btree_iter tools)) as [[]|e|]; simpl; [| |done].
  2: { right; left. destruct Hs as (id & def & file & dep & Hin%elem_btree_iter & Hdep & Hno & ->).
       by exists id, dep, def, file. }
  assert (deps_known tools) as Hknown.
  { intros x y (def & file & Hdef%elem_btree_iter & Hy). by eapply Hu. }
  pose proof (refuse_dep_cycles_correct tools Hknown) as Hc.
  destruct (refuse_dep_cycles tools) as [[]|e|]; simpl; [|by right; right|done].
  split; [done|]. split; [done| |done]. intros id def file Hdef%elem_btree_iter. by eapply Hs.
Qed.
End spec.

(** ** Resolution *)

Section resolution.
Context {Sections Value : Type} `{!ToolHost}.
Notation ToolDef := (ToolDef Sections Value).
Notation ToolRegistry := (gmap string (ToolDef * string)).

(** The one file a definition can resolve to: the target's output, else the variable's
    value, else the file beside the dep, else the first on the [PATH]. *)
Definition candidate_binary (def : ToolDef) (resolved : list ResolvedTool) : option string :=
  let binary := td_binary def in
  match bin_target binary, bin_env binary ≫= env_var, bin_sibling_of binary with
  | Some target, _, _ => target_output target
  | None, Some value, _ => Some value
  | None, None, Some dep =>
      (fun found => with_file_name (rt_binary found.2) (bin_command binary)) <$>
        list_find (fun tool => rt_id tool = dep) resolved
  | None, None, None => search_path (bin_command binary)
  end.

Definition located (candidate : option string) (binary : string) : Prop :=
  exists c, candidate = Some c /\ is_executable_file c = true /\ canonicalize c = inr binary.

(** What an attempt at one candidate answers. *)
Definition attempt (id : string) (candidate : option string) (r : res ToolError string) : Prop :=
  match r with
  | Ok binary => located candidate binary
  | Err e => (exists searched, e = TUnresolvable id searched) /\ forall binary, ~ located candidate binary
  | Panic => False
  end.

Lemma attempt_none id e : (exists searched, e = TUnresolvable id searched) -> attempt id None (Err e).
Proof. intros He. split; [done|]. by intros b (c & ? & _). Qed.

Lemma attempt_file id c s1 s2 :
  attempt id (Some c)
    (if is_executable_file c then
       match canonicalize c with inr p => Ok p | inl e => Err (TUnresolvable id (s1 e)) end
     else Err (TUnresolvable id s2)).
Proof.
  destruct (is_executable_file c) eqn:He.
  - destruct (canonicalize c) as [e|p] eqn:Hc; simpl; [|by exists c].
    split; [by eexists|]. intros b (c' & [= <-] & _ & Hb). congruence.
  - split; [by eexists|]. intros b (c' & [= <-] & Hx & _). congruence.
Qed.

Lemma search_path_executable command c : search_path command = Some c -> is_executable_file c = true.
Proof.
  unfold search_path. destruct (list_find _ _) as [[i d]|] eqn:Hf; [|done]. intros [= <-].
  by apply list_find_Some in Hf as (_ & ? & _).
Qed.

Lemma locate_binary_spec (def : ToolDef) resolved :
  attempt (td_id def) (candidate_binary def resolved) (locate_binary def resolved).
Proof.
  assert (forall searched, bin_target (td_binary def) = None -> bin_env (td_binary def) ≫= env_var = None ->
    attempt (td_id def) (candidate_binary def resolved) (beside_or_search def resolved searched)) as Hrest.
  { intros searched Ht He. unfold candidate_binary, beside_or_search. rewrite Ht, He.
    destruct (bin_sibling_of (td_binary def)) as [dep|].
    - destruct (list_find _ resolved) as [[i t]|]; [|apply attempt_none; by eexists].
      unfold resolve_sibling. simpl. apply attempt_file.
    - destruct (search_path _) as [c|] eqn:Hs; [|apply attempt_none; by eexists].
      pose proof (attempt_file (td_id def) c (fun e => c +:+ " (cannot be resolved: " +:+ e +:+ ")") "") as Ha.
      by rewrite (search_path_executable _ _ Hs) in Ha. }
  unfold locate_binary. destruct (bin_target (td_binary def)) as [target|] eqn:Ht.
  { unfold candidate_binary. rewrite Ht. destruct (target_output target) as [output|];
      [apply attempt_file|apply attempt_none; by eexists]. }
  destruct (bin_env (td_binary def)) as [var|] eqn:He; [|by apply Hrest].
  destruct (env_var var) as [value|] eqn:Hv; [|by apply Hrest].
  unfold candidate_binary. rewrite Ht, He. simpl. rewrite Hv. apply attempt_file.
Qed.

Lemma resolve_tool_spec (def : ToolDef) resolved :
  match resolve_tool def resolved with
  | Ok t => t = mkResolved (td_id def) (bin_command (td_binary def)) (rt_binary t) (td_reads def) (td_network def) /\
      located (candidate_binary def resolved) (rt_binary t)
  | Err e => exists searched, e = TUnresolvable (td_id def) searched
  | Panic => False
  end.
Proof.
  unfold resolve_tool. pose proof (locate_binary_spec def resolved) as Hl.
  destruct (locate_binary def resolved); [done|apply Hl|done].
Qed.

(** A registry files every definition under its id. *)
Definition keyed (tools : ToolRegistry) : Prop :=
  forall id def file, tools !! id = Some (def, file) -> td_id def = id.

Record closure_ok (tools : ToolRegistry) (closure : list ResolvedTool) : Prop := {
  co_once : NoDup (rt_id <$> closure);
  co_deps_first : deps_first (needs tools) (rt_id <$> closure);
  co_commands : NoDup (rt_command <$> closure);
  co_resolved : forall before t after, closure = before ++ t :: after ->
    exists def file, tools !! rt_id t = Some (def, file) /\
      t = mkResolved (td_id def) (bin_command (td_binary def)) (rt_binary t) (td_reads def) (td_network def) /\
      located (candidate_binary def before) (rt_binary t)
}.

(** [stack]: the tools whose deps are being visited. *)
Definition visit_inv (tools : ToolRegistry) (stack : list string) (s : visit_state) : Prop :=
  closure_ok tools s.2 /\ forall x, x ∈ s.1 <-> x ∈ rt_id <$> s.2 \/ x ∈ stack.

Definition reached (tools : ToolRegistry) (ids : list string) (x : string) : Prop :=
  exists id, id ∈ ids /\ rtc (needs tools) id x.

Definition command_of (tools : ToolRegistry) (x command : string) : Prop :=
  exists def file, tools !! x = Some (def, file) /\ bin_command (td_binary def) = command.

(** Why a resolution is refused. *)
Definition refused (tools : ToolRegistry) (ids : list string) (e : ToolError) : Prop :=
  (exists id, id ∈ ids /\ tools !! id = None /\ e = TUnknownTool id) \/
  (exists x searched, reached tools ids x /\ e = TUnresolvable x searched) \/
  (exists x y c, reached tools ids y /\ x <> y /\ command_of tools x c /\ command_of tools y c /\
     e = TDuplicateCommand c x y).

Definition visit_post (tools : ToolRegistry) (ids stack : list string) (s : visit_state)
    (r : res ToolError visit_state) : Prop :=
  match r with
  | Ok s' => exists added, s'.2 = s.2 ++ added /\ visit_inv tools stack s' /\
      (forall id, id ∈ ids -> id ∈ rt_id <$> s'.2) /\ (forall t, t ∈ added -> reached tools ids (rt_id t))
  | Err e => refused tools ids e
  | Panic => False
  end.

Lemma reached_mono tools ids ids' x : (forall id, id ∈ ids -> id ∈ ids') -> reached tools ids x -> reached tools ids' x.
Proof. intros Hsub (id & Hid & Hr). exists id. auto. Qed.

Lemma refused_mono tools ids ids' e : (forall id, id ∈ ids -> id ∈ ids') -> refused tools ids e -> refused tools ids' e.
Proof.
  intros Hsub [(id & Hid & He)|[(x & sr & Hx & He)|(x & y & c & Hy & He)]].
  - left. exists id. auto.
  - right; left. exists x, sr. eauto using reached_mono.
  - right; right. exists x, y, c. split; [eauto using reached_mono|done].
Qed.

(** Below a tool, through its deps. *)
Lemma refused_below (tools : ToolRegistry) id def file e :
  deps_known tools -> tools !! id = Some (def, file) -> refused tools (td_deps def) e -> refused tools [id] e.
Proof.
  intros Hknown Hdef.
  assert (forall x, reached tools (td_deps def) x -> reached tools [id] x) as Hr.
  { intros x (dep & Hd & Hr). exists id. split; [by left|]. eapply rtc_l; [|exact Hr]. by exists def, file. }
  intros [(dep & Hd & Hno & _)|[(x & sr & Hx & He)|(x & y & c & Hy & He)]].
  - destruct (Hknown id dep) as [? Hs]; [by exists def, file|]. congruence.
  - right; left. exists x, sr. auto.
  - right; right. exists x, y, c. auto.
Qed.

Lemma visit_tools_post (tools : ToolRegistry) fuel ids stack s r :
  (forall id s r, id ∈ ids -> visit_inv tools stack s -> visit_tool tools fuel id s = Some r ->
    visit_post tools [id] stack s r) ->
  visit_inv tools stack s -> visit_tools tools fuel ids s = Some r -> visit_post tools ids stack s r.
Proof.
  intros Hone. revert s. induction ids as [|id ids IH]; intros s Hs; simpl.
  { intros [= <-]. exists []. rewrite app_nil_r. split_and!; [done..|set_solver|set_solver]. }
  destruct (visit_tool tools fuel id s) as [r1|] eqn:Hv; [|done].
  pose proof (Hone id s r1 ltac:(left) Hs Hv) as Hp. destruct r1 as [s1|e|]; simpl in Hp; [| |done].
  2: { intros [= <-]. eapply refused_mono; [|exact Hp]. set_solver. }
  destruct Hp as (a1 & Heq & Hs1 & Hin & Ha1). intros Hall.
  specialize (IH ltac:(intros; eapply Hone; [by right|done..]) _ Hs1 Hall).
  destruct r as [s2|e|]; simpl in *; [|eapply refused_mono; [|exact IH]; set_solver|done].
  destruct IH as (a2 & Heq2 & Hs2 & Hin2 & Ha2). exists (a1 ++ a2). rewrite app_assoc, <- Heq.
  split_and!; [done..| |].
  - intros x [->|Hx]%elem_of_cons; [|by apply Hin2]. rewrite Heq2, fmap_app. apply elem_of_app. left.
    apply Hin. by left.
  - intros t [Ht|Ht]%elem_of_app; [apply Ha1 in Ht|apply Ha2 in Ht]; (eapply reached_mono; [|exact Ht]; set_solver).
Qed.

(** Pushing a tool whose deps are all in the closure. *)
Lemma push_closure_ok (tools : ToolRegistry) closure t def file :
  closure_ok tools closure -> tools !! rt_id t = Some (def, file) ->
  (forall dep, dep ∈ td_deps def -> dep ∈ rt_id <$> closure) ->
  rt_id t ∉ rt_id <$> closure -> rt_command t ∉ rt_command <$> closure ->
  t = mkResolved (td_id def) (bin_command (td_binary def)) (rt_binary t) (td_reads def) (td_network def) ->
  located (candidate_binary def closure) (rt_binary t) ->
  closure_ok tools (closure ++ [t]).
Proof.
  intros [Hnd Hdf Hcm Hrs] Hdef Hdeps Hnew Hcmd Ht Hloc. split; rewrite ?fmap_app; simpl.
  - apply NoDup_app. split_and!; [done|set_solver|apply NoDup_singleton].
  - apply deps_first_snoc; [done|]. intros y (def' & file' & Hdef' & Hy). simplify_eq. by apply Hdeps.
  - apply NoDup_app. split_and!; [done|set_solver|apply NoDup_singleton].
  - intros before u after Heq. destruct after as [|v after _] using rev_ind.
    + apply app_inj_tail in Heq as [<- <-]. by exists def, file.
    + rewrite app_comm_cons, app_assoc in Heq. apply app_inj_tail in Heq as [-> _]. by eapply Hrs.
Qed.

Lemma push_tool_post (tools : ToolRegistry) id def file stack s :
  keyed tools -> tools !! id = Some (def, file) ->
  visit_inv tools (stack ++ [id]) s -> (forall dep, dep ∈ td_deps def -> dep ∈ rt_id <$> s.2) ->
  id ∉ rt_id <$> s.2 ->
  match push_tool def s with
  | Ok s' => exists t, s'.2 = s.2 ++ [t] /\ rt_id t = id /\ visit_inv tools stack s'
  | Err e => refused tools [id] e
  | Panic => False
  end.
Proof.
  intros Hkey Hdef [Hcl Hvis] Hdeps Hnew. destruct s as [visited closure]. unfold push_tool. simpl in *.
  pose proof (resolve_tool_spec def closure) as Hr. pose proof (Hkey _ _ _ Hdef) as Hid.
  assert (reached tools [id] id) as Hself by (exists id; split; [by left|done]).
  destruct (resolve_tool def closure) as [t|e|]; simpl; [| |done].
  2: { destruct Hr as [sr ->]. right; left. exists id, sr. by rewrite Hid. }
  destruct Hr as [Ht Hloc]. assert (rt_id t = id) as Htid by (rewrite Ht; exact Hid).
  destruct (list_find _ closure) as [[i first]|] eqn:Hf.
  - apply list_find_Some in Hf as (Hi & Hcmd & _). right; right. exists (rt_id first), (rt_id t), (rt_command t).
    apply list_elem_of_lookup_2 in Hi as Hin. apply list_elem_of_split in Hin as (l1 & l2 & Hsp).
    destruct (co_resolved _ _ Hcl _ _ _ Hsp) as (def1 & file1 & Hd1 & Hf1 & _).
    split_and!; [by rewrite Htid| | | |done].
    + intros Heq. apply Hnew. rewrite <- Htid, <- Heq. apply list_elem_of_fmap_2. by eapply list_elem_of_lookup_2.
    + exists def1, file1. split; [done|]. rewrite <- Hcmd, Hf1. done.
    + exists def, file. split; [by rewrite Htid|]. by rewrite Ht.
  - rewrite list_find_None, Forall_forall in Hf. exists t. split_and!; [done..|]. split; simpl.
    + eapply push_closure_ok; try done; [by rewrite Htid|by rewrite Htid|].
      intros (u & Hu & Hin)%list_elem_of_fmap. by apply (Hf u Hin).
    + intros x. rewrite Hvis, fmap_app. simpl. rewrite Htid. set_solver.
Qed.

Lemma visit_tool_unfold (tools : ToolRegistry) fuel id visited closure :
  visit_tool tools (S fuel) id (visited, closure) =
    if decide (id ∈ visited) then Some (Ok (visited, closure)) else
    match tools !! id with
    | None => Some (Err (TUnknownTool id))
    | Some (def, _) =>
        match visit_tools tools fuel (td_deps def) (id :: visited, closure) with
        | Some (Ok s') => Some (push_tool def s')
        | other => other
        end
    end.
Proof.
  cbn [visit_tool]. case_decide; [done|]. destruct (tools !! id) as [[def file]|]; [|done].
  enough (forall s, (fix go deps s :=
    match deps with
    | [] => Some (Ok s)
    | dep :: deps' =>
        match visit_tool tools fuel dep s with
        | Some (Ok s') => go deps' s'
        | other => other
        end
    end) (td_deps def) s = visit_tools tools fuel (td_deps def) s) as -> by done.
  induction (td_deps def) as [|dep deps IH]; intros s; simpl; [done|].
  destruct (visit_tool tools fuel dep s) as [[]|]; [apply IH|done..].
Qed.

Lemma visit_tool_post (tools : ToolRegistry) fuel id stack s r :
  keyed tools -> registry_ok tools -> (forall x, x ∈ stack -> tc (needs tools) x id) ->
  visit_inv tools stack s -> visit_tool tools fuel id s = Some r -> visit_post tools [id] stack s r.
Proof.
  intros Hkey [Hknown _ Hacyc]. revert id stack s r. induction fuel as [|fuel IH]; intros id stack [visited closure] r Hpath Hinv; [done|].
  rewrite visit_tool_unfold. destruct Hinv as [Hcl Hvis]. simpl in *. case_decide as Hin.
  { intros [= <-]. exists []. rewrite app_nil_r. split_and!; [done|done| |set_solver].
    intros x ->%list_elem_of_singleton. simpl. apply Hvis in Hin as [?|Hst]; [done|]. by destruct (Hacyc id (Hpath _ Hst)). }
  assert (id ∉ rt_id <$> closure /\ id ∉ stack) as [Hnc Hns] by (rewrite Hvis in Hin; tauto).
  destruct (tools !! id) as [[def file]|] eqn:Hdef.
  2: { intros [= <-]. left. exists id. split_and!; [by left|done..]. }
  destruct (visit_tools tools fuel (td_deps def) (id :: visited, closure)) as [r1|] eqn:Hall; [|done].
  assert (forall dep, dep ∈ td_deps def -> needs tools id dep) as Hdep by (intros; by exists def, file).
  apply (visit_tools_post _ _ _ (stack ++ [id])) in Hall; [|clear Hall|].
  2: { intros dep s1 r' Hd Hs1 Hv. eapply IH; [|done|exact Hv].
       intros x [Hx|Hx%list_elem_of_singleton]%elem_of_app; [|subst; by apply tc_once, Hdep].
       eapply tc_r; [by apply Hpath|by apply Hdep]. }
  2: { split; [done|]. intros x. simpl. rewrite elem_of_cons, Hvis, elem_of_app, list_elem_of_singleton. tauto. }
  destruct r1 as [s1|e|]; simpl in Hall; [|intros [= <-]; by eapply refused_below|done].
  destruct Hall as (added & Heq & Hinv1 & Hin1 & Ha1). intros [= <-].
  assert (id ∉ rt_id <$> s1.2) as Hnew.
  { rewrite Heq, fmap_app, elem_of_app. intros [?|(t & Ht & Hta)%list_elem_of_fmap]; [done|].
    destruct (Ha1 t Hta) as (dep & Hd & Hr). rewrite <- Ht in Hr. apply (Hacyc id).
    eapply tc_rtc_r; [apply tc_once, (Hdep _ Hd)|done]. }
  pose proof (push_tool_post tools id def file stack s1 Hkey Hdef Hinv1 Hin1 Hnew) as Hp.
  destruct (push_tool def s1) as [s2|e|]; [|done..]. destruct Hp as (t & Heq2 & Htid & Hinv2).
  exists (added ++ [t]). cbn [snd]. rewrite app_assoc, <- Heq. split_and!; [done..| |].
  - intros x ->%list_elem_of_singleton. rewrite Heq2, fmap_app. simpl. set_solver.
  - intros u [Hu|Hu%list_elem_of_singleton]%elem_of_app.
    + destruct (Ha1 u Hu) as (dep & Hd & Hr). exists id. split; [by left|]. eapply rtc_l; [exact (Hdep _ Hd)|done].
    + subst. exists (rt_id t). split; [by left|done].
Qed.

Lemma visit_tools_grows (tools : ToolRegistry) fuel ids s s' :
  (forall id s s', visit_tool tools fuel id s = Some (Ok s') -> s.1 ⊆ s'.1) ->
  visit_tools tools fuel ids s = Some (Ok s') -> s.1 ⊆ s'.1.
Proof.
  intros Hone. revert s. induction ids as [|id ids IH]; intros s; simpl; [by intros [= <-]|].
  destruct (visit_tool tools fuel id s) as [[s1| |]|] eqn:Hv; [|done..].
  intros Hs. etrans; [by eapply Hone|by apply IH].
Qed.

Lemma visit_tool_grows (tools : ToolRegistry) fuel id s s' :
  visit_tool tools fuel id s = Some (Ok s') -> s.1 ⊆ s'.1.
Proof.
  revert id s s'. induction fuel as [|fuel IH]; intros id [visited closure] s'; [done|].
  rewrite visit_tool_unfold. case_decide; [by intros [= <-]|]. destruct (tools !! id) as [[def file]|]; [|done].
  destruct (visit_tools tools fuel (td_deps def) (id :: visited, closure)) as [[s1| |]|] eqn:Hall; [|done..].
  apply visit_tools_grows in Hall; [|exact IH]. intros [= Hp]. destruct s1 as [v1 c1]. simpl in *.
  destruct (resolve_tool def c1); simpl in Hp; [|done..]. destruct (list_find _ c1) as [[]|]; simplify_eq.
  simpl. set_solver.
Qed.

(** [path]: the tools whose deps are being visited. *)
Lemma visit_tools_fuel (tools : ToolRegistry) fuel ids path s :
  (forall id s, path ⊆ s.1 -> visit_tool tools fuel id s <> None) -> path ⊆ s.1 ->
  visit_tools tools fuel ids s <> None.
Proof.
  intros Hone. revert s. induction ids as [|id ids IH]; intros s Hs; simpl; [done|].
  specialize (Hone id s Hs). destruct (visit_tool tools fuel id s) as [[s1| |]|] eqn:Hv; [|done..].
  apply IH. etrans; [exact Hs|]. by eapply visit_tool_grows.
Qed.

Lemma visit_tool_fuel (tools : ToolRegistry) fuel id path s :
  NoDup path -> (forall x, x ∈ path -> is_Some (tools !! x)) -> path ⊆ s.1 -> size tools < fuel + length path ->
  visit_tool tools fuel id s <> None.
Proof.
  revert id path s. induction fuel as [|fuel IH]; intros id path [visited closure] Hnd Hin Hsub Hlt.
  - exfalso. apply (Nat.lt_irrefl (size tools)). eapply Nat.lt_le_trans; [exact Hlt|]. by apply path_short.
  - rewrite visit_tool_unfold. case_decide as Hv; [done|]. destruct (tools !! id) as [[def file]|] eqn:Hid; [|done].
    assert (visit_tools tools fuel (td_deps def) (id :: visited, closure) <> None) as Hall.
    { apply (visit_tools_fuel _ _ _ (path ++ [id])); [|set_solver]. intros dep s' Hs'.
      apply (IH dep (path ++ [id])); [| |done|rewrite length_app; simpl; lia].
      - apply NoDup_app. split_and!; [done|set_solver|apply NoDup_singleton].
      - intros x [Hx|Hx%list_elem_of_singleton]%elem_of_app; [by apply Hin|subst; by eexists]. }
    by destruct (visit_tools tools fuel (td_deps def) (id :: visited, closure)) as [[]|].
Qed.

Lemma resolve_closure_post (tools : ToolRegistry) ids :
  keyed tools -> registry_ok tools ->
  match resolve_closure tools ids with
  | Ok closure => closure_ok tools closure /\ forall x, x ∈ rt_id <$> closure <-> reached tools ids x
  | Err e => refused tools ids e
  | Panic => False
  end.
Proof.
  intros Hkey Hok. unfold resolve_closure.
  destruct (visit_tools tools (S (S (size tools))) ids ([], [])) as [r|] eqn:Hall; simpl.
  2: { exfalso. revert Hall. apply (visit_tools_fuel _ _ _ []); [|done]. intros id s _.
       apply (visit_tool_fuel _ _ _ []); [constructor|set_solver|set_solver|simpl; lia]. }
  assert (closure_ok tools []) as Hnil.
  { split; simpl; [constructor|apply deps_first_nil|constructor|]. intros before t after Heq. by destruct before. }
  apply (visit_tools_post _ _ _ []) in Hall; [|clear Hall|split; [done|set_solver]].
  2: { intros id s r' _ Hs Hv. eapply visit_tool_post; [done..| |done|exact Hv]. set_solver. }
  destruct r as [s|e|]; simpl in *; [|done..]. destruct Hall as (added & Heq & [Hcl _] & Hin & Ha).
  split; [done|]. intros x. split.
  - rewrite Heq. intros (t & -> & Ht)%list_elem_of_fmap. by apply Ha.
  - intros (id & Hid & Hr). eapply deps_first_reach; [apply Hcl|by apply Hin|exact Hr].
Qed.
End resolution.

(** ** Loading *)

Section loading.
Context {Sections Value : Type} {yaml : ToolYaml Sections Value} `{!ToolHost}.
Notation ToolDef := (ToolDef Sections Value).
Notation ToolRegistry := (gmap string (ToolDef * string)).

(** The registries a program can hold. *)
Inductive loaded : ToolRegistry -> Prop :=
| loaded_embedded sources tools : from_embedded sources = Ok tools -> loaded tools
| loaded_overrides builtin overrides tools : loaded builtin -> load builtin overrides = Ok tools -> loaded tools
| loaded_owned builtin overrides owners tools :
    loaded builtin -> load_with_owners builtin overrides owners = Ok tools -> loaded tools
| loaded_with_tool builtin def origin tools : loaded builtin -> with_tool builtin def origin = Ok tools -> loaded tools.

Lemma insert_unique_keyed (tools : ToolRegistry) def file tools' :
  keyed tools -> insert_unique tools def file = Ok tools' -> keyed tools'.
Proof.
  unfold insert_unique. intros Hk. destruct (tools !! td_id def) as [[]|]; [done|]. intros [= <-].
  intros id def' file' [[<- [= <- <-]]|[_ Hl]]%lookup_insert_Some; [done|by eapply Hk].
Qed.

Lemma insert_files_keyed files (tools tools' : ToolRegistry) :
  keyed tools -> insert_files files tools = Ok tools' -> keyed tools'.
Proof.
  revert tools. induction files as [|[file [e|text]] files IH]; intros tools Hk; simpl; [by intros [= <-]|done|].
  destruct (parse_tool file text) as [def| |]; simpl; [|done..].
  destruct (insert_unique tools def file) as [tools1| |] eqn:Hi; simpl; [|done..].
  apply IH. by eapply insert_unique_keyed.
Qed.

Lemma validated_Ok (tools tools' : ToolRegistry) : validated tools = Ok tools' -> tools' = tools /\ registry_ok tools'.
Proof.
  intros Hv. pose proof (validated_spec tools) as Hs. rewrite Hv in Hs. destruct Hs as [-> Hok]. by split.
Qed.

Lemma load_ok builtin overrides (tools : ToolRegistry) :
  keyed builtin -> load builtin overrides = Ok tools -> keyed tools /\ registry_ok tools.
Proof.
  intros Hk. unfold load. destruct overrides as [files| |]; simpl; [|done..].
  destruct (insert_files files ∅) as [found| |] eqn:Hf; simpl; [|done..].
  intros [-> Hok]%validated_Ok. split; [|done]. apply insert_files_keyed in Hf; [|by intros ? ? ? ?%lookup_empty_Some].
  intros id def file [Hl|[_ Hl]]%lookup_union_Some_raw; [by eapply Hf|by eapply Hk].
Qed.

Lemma loaded_ok tools : loaded tools -> keyed tools /\ registry_ok tools.
Proof.
  induction 1 as [sources tools Hl|builtin overrides tools _ [Hk _] Hl|builtin overrides owners tools _ [Hk _] Hl
                 |builtin def origin tools _ [Hk _] Hl].
  - unfold from_embedded in Hl. destruct (insert_files _ ∅) as [found| |] eqn:Hf; simpl in Hl; [|done..].
    apply validated_Ok in Hl as [-> Hok]. split; [|done]. eapply insert_files_keyed; [|exact Hf].
    by intros ? ? ? ?%lookup_empty_Some.
  - by eapply load_ok.
  - unfold load_with_owners in Hl. destruct (load builtin overrides) as [registry| |] eqn:Hr; simpl in Hl; [|done..].
    destruct (validate_extensions owners (btree_iter registry)); simpl in Hl; simplify_eq. by eapply load_ok.
  - unfold with_tool in Hl. destruct (insert_unique builtin def origin) as [tools1| |] eqn:Hi; simpl in Hl; [|done..].
    apply validated_Ok in Hl as [-> Hok]. split; [|done]. by eapply insert_unique_keyed.
Qed.

(** C38. Validation of a tool registry accepts it, unchanged, exactly when every dep is
    known, every sibling is a dep and the deps have no cycle; a refusal names a tool
    and the dep it does not find, a tool and the sibling that is not its dep, or
    walks a cycle of the registry. It always ends. *)
Theorem registry_validation_correct (tools : ToolRegistry) :
  match validated tools with
  | Ok tools' => tools' = tools /\ registry_ok tools
  | Err e => ~ registry_ok tools /\
      ((exists tool dep, e = TUnknownDep tool dep /\ needs tools tool dep /\ tools !! dep = None) \/
       (exists tool dep def file, e = TSiblingNotDep tool dep /\ tools !! tool = Some (def, file) /\
          bin_sibling_of (td_binary def) = Some dep /\ dep ∉ td_deps def) \/
       (exists cycle, e = TDepCycle cycle /\ closed_walk (needs tools) cycle))
  | Panic => False
  end.
Proof.
  pose proof (validated_spec tools) as Hs. destruct (validated tools) as [|e|]; [done| |done]. split; [|done].
  intros [Hknown Hsib Hacyc].
  destruct Hs as [(t & d & _ & Hn & Hno)|[(t & d & def & file & _ & Hdef & Hsb & Hnd)|(c & _ & Hc)]].
  - apply Hknown in Hn as [? Hn]. congruence.
  - apply Hnd. by eapply Hsib.
  - apply closed_walk_cycle in Hc as (x & _ & Hx). by apply (Hacyc x).
Qed.

(** C30. Asking a loaded registry for tools, in any registry the program can hold: the
    closure lists exactly the tools asked for and everything they need, each once,
    after its own deps, with distinct commands; each is resolved to the canonical
    path of the one executable its definition points at (its target's output, else its
    variable, else beside its dep, else the first on the PATH). A refusal is an unknown
    id that was asked for, a tool among those needed whose binary cannot be had, or two
    tools with one command. The resolution always ends. *)
Theorem resolve_closure_correct tools ids :
  loaded tools ->
  match resolve_closure tools ids with
  | Ok closure => closure_ok tools closure /\ forall x, x ∈ rt_id <$> closure <-> reached tools ids x
  | Err e => refused tools ids e
  | Panic => False
  end.
Proof. intros [Hk Hok]%loaded_ok. by apply resolve_closure_post. Qed.
End loading.

Definition demo_tool (id command : string) (deps : list string) (sibling : option string) : ToolDef () () :=
  mkToolDef 1 id "" (mkToolBinary command None None sibling) deps [] ∅ (mkNetwork EgressNone false) HSession ().

#[local] Instance demo_yaml : ToolYaml () () := {|
  yaml_schema_version := fun _ => inr 1%N;
  yaml_tool_def := fun text =>
    if decide (text = "codex") then inr (demo_tool "codex" "codex" ["tddy-tools"] None)
    else if decide (text = "acp") then inr (demo_tool "codex-acp" "codex-acp" ["codex"; "tddy-tools"] (Some "codex"))
    else inr (demo_tool "tddy-tools" "tddy-tools" [] None)
|}.

#[local] Instance demo_tool_host : ToolHost := {|
  env_var := fun _ => None;
  path_dirs := ["/bin"; "/opt/bin"];
  is_executable_file := fun p => bool_decide (p ∈ ["/opt/bin/codex"; "/opt/bin/codex-acp"; "/bin/tddy-tools"]);
  canonicalize := inr;
  target_output := fun _ => None
|}.

Lemma resolve_closure_correct_witness :
  exists tools closure, from_embedded [("a", "acp"); ("b", "codex"); ("c", "rest")] = Ok tools /\
  resolve_closure tools ["codex-acp"] = Ok closure /\ rt_binary <$> closure = ["/bin/tddy-tools"; "/opt/bin/codex"; "/opt/bin/codex-acp"] /\
  closure_ok tools closure.
Proof.
  assert (match from_embedded [("a", "acp"); ("b", "codex"); ("c", "rest")] with
          | Ok tools => match resolve_closure tools ["codex-acp"] with Ok c => rt_binary <$> c | _ => [] end
          | _ => []
          end = ["/bin/tddy-tools"; "/opt/bin/codex"; "/opt/bin/codex-acp"]) as Hrun by (vm_compute; reflexivity).
  destruct (from_embedded [("a", "acp"); ("b", "codex"); ("c", "rest")]) as [tools| |] eqn:Hf; [|done..].
  pose proof (resolve_closure_correct tools ["codex-acp"] (loaded_embedded _ _ Hf)) as Hr.
  destruct (resolve_closure tools ["codex-acp"]) as [closure| |] eqn:Hc; [|done..].
  exists tools, closure. split_and!; [done..|apply Hr].
Defined.
