(* ===== verification/Template.v ===== *)
(** * Argv templates

    [src/packages/tddy-actions/src/tool/template.rs] and [run.rs]: how a tool's
    [run:] section becomes the argv of the process that is spawned. *)

From Stdlib Require Import Ascii.
From S2P Require Import Prelude Text HostPattern Tools.
Local Open Scope io_scope.

(** ** Data *)

Inductive Transport := Pty | Stdio | Acp.

Inductive ArgvItem :=
| Lit (literal : string)
| When (if_ : string) (then_ else_ : list ArgvItem)
| Splice (splice : string).

Record RunSection := mkRun { run_transport : Transport; run_argv : list ArgvItem; run_env : gmap string string }.

Record TemplateParams := mkParams { tp_values : gmap string string; tp_lists : gmap string (list string) }.

Definition params_with (p : TemplateParams) (name value : string) : TemplateParams :=
  mkParams (<[name := value]> (tp_values p)) (tp_lists p).

Definition params_with_opt (p : TemplateParams) (name : string) (value : option string) : TemplateParams :=
  match value with Some v => params_with p name v | None => p end.

Definition params_with_flag (p : TemplateParams) (name : string) (on : bool) : TemplateParams :=
  params_with_opt p name (if on then Some "1" else None).

Definition params_with_list (p : TemplateParams) (name : string) (items : list string) : TemplateParams :=
  mkParams (tp_values p) (<[name := items]> (tp_lists p)).

(** ** Placeholders *)

(** [str::find] of a character, as what is before and after it. *)
Fixpoint split_once (c : ascii) (s : string) : option (string * string) :=
  match s with
  | "" => None
  | String a s' =>
      if decide (a = c) then Some ("", s')
      else match split_once c s' with Some (x, y) => Some (String a x, y) | None => None end
  end.

Definition identifier_char (a : ascii) : bool := is_alphanumeric a || bool_decide (a = "_"%char).

Definition is_identifier (name : string) : bool := negb (bool_decide (name = "")) && all_chars identifier_char name.

Definition unbound (tool : ResolvedTool) (name : string) : ToolError := TUnboundPlaceholder (rt_id tool) name.

(** What [{name}] stands for. *)
Definition value_of (tool : ResolvedTool) (params : TemplateParams) (name : string) : res ToolError string :=
  if decide (name = "binary") then Ok (rt_binary tool)
  else ok_or (tp_values params !! name) (unbound tool name).

(** The placeholder right after an opening brace, and what follows its closing one. *)
Definition placeholder (after : string) : option (string * string) :=
  match split_once "}" after with
  | Some (name, rest) => if is_identifier name then Some (name, rest) else None
  | None => None
  end.

(** The loop of [substitute], on [out] and [rest]; it goes around at most once per opening
    brace, so the length of the text is fuel enough ([substitute_fuel]). *)
Fixpoint substitute_loop (tool : ResolvedTool) (params : TemplateParams) (fuel : nat) (out rest : string)
    : res ToolError string :=
  match fuel with
  | O => Panic
  | S fuel' =>
      match split_once "{" rest with
      | None => Ok (out +:+ rest)
      | Some (before, after) =>
          match placeholder after with
          | Some (name, rest') =>
              let? value := value_of tool params name in
              substitute_loop tool params fuel' (out +:+ before +:+ value) rest'
          | None => substitute_loop tool params fuel' (out +:+ before +:+ "{") after
          end
      end
  end.

Definition substitute (literal : string) (tool : ResolvedTool) (params : TemplateParams) : res ToolError string :=
  substitute_loop tool params (S (String.length literal)) "" literal.

(** ** Items *)

Definition is_set (params : TemplateParams) (name : string) : bool :=
  match tp_values params !! name with Some v => negb (bool_decide (v = "")) | None => false end.

Fixpoint render_item (tool : ResolvedTool) (params : TemplateParams) (item : ArgvItem) (argv : list string)
    : res ToolError (list string) :=
  match item with
  | Lit literal => let? entry := substitute literal tool params in Ok (argv ++ [entry])
  | When if_ then_ else_ =>
      (fix go items argv :=
        match items with
        | [] => Ok argv
        | item :: items' => let? argv' := render_item tool params item argv in go items' argv'
        end) (if is_set params if_ then then_ else else_) argv
  | Splice splice => let? items := ok_or (tp_lists params !! splice) (unbound tool splice) in Ok (argv ++ items)
  end.

Fixpoint render_items (items : list ArgvItem) (tool : ResolvedTool) (params : TemplateParams) (argv : list string)
    : res ToolError (list string) :=
  match items with
  | [] => Ok argv
  | item :: items' => let? argv' := render_item tool params item argv in render_items items' tool params argv'
  end.

Definition render_argv (run : RunSection) (tool : ResolvedTool) (params : TemplateParams) : res ToolError (list string) :=
  render_items (run_argv run) tool params [].

Example render_argv_example :
  render_argv
    (mkRun Pty [Lit "{binary}"; Lit "--model={model}"; Lit "{{x}"; When "resume" [Lit "--resume"; Lit "{session_id}"] [];
                Splice "slots"] ∅)
    (mkResolved "claude" "claude" "/bin/claude" [] (mkNetwork EgressNone false))
    (params_with_list (params_with (params_with (params_with (mkParams ∅ ∅) "model" "o {x}") "x" "}") "resume" "") "slots" ["a"; "b"]) =
  Ok ["/bin/claude"; "--model=o {x}"; "{}"; "a"; "b"].
Proof. vm_compute. reflexivity. Qed.

(** ** How a text is read *)

Lemma str_length_app s t : String.length (s +:+ t) = String.length s + String.length t.
Proof. induction s as [|a s IH]; [done|]. change (String a s +:+ t) with (String a (s +:+ t)). simpl. by rewrite IH. Qed.

Lemma str_app_nil_r s : s +:+ "" = s.
Proof. induction s as [|a s IH]; [done|]. change (String a s +:+ "") with (String a (s +:+ "")). by rewrite IH. Qed.

Lemma split_once_app c x y : has_char c x = false -> split_once c (x +:+ String c y) = Some (x, y).
Proof.
  induction x as [|a x IH]; simpl.
  - intros _. change ("" +:+ String c y) with (String c y). simpl. by rewrite decide_True.
  - intros [Ha Hx]%orb_false_elim. apply bool_decide_eq_false in Ha.
    change (String a x +:+ String c y) with (String a (x +:+ String c y)). simpl. by rewrite decide_False, IH.
Qed.

Lemma split_once_None c s : split_once c s = None <-> has_char c s = false.
Proof.
  induction s as [|a s IH]; simpl; [done|]. case_decide as Ha; [subst; by rewrite bool_decide_eq_true_2|].
  rewrite bool_decide_eq_false_2 by done. simpl. rewrite <- IH. by destruct (split_once c s) as [[]|].
Qed.

Lemma split_once_Some c s x y : split_once c s = Some (x, y) -> s = x +:+ String c y /\ has_char c x = false.
Proof.
  revert x y. induction s as [|a s IH]; intros x y; simpl; [done|]. case_decide as Ha; [by intros [= <- <-]; subst|].
  destruct (split_once c s) as [[x' y']|]; [|done]. intros [= <- <-]. destruct (IH _ _ eq_refl) as [-> Hx].
  split; [done|]. simpl. by rewrite bool_decide_eq_false_2.
Qed.

Lemma placeholder_shorter after name rest :
  placeholder after = Some (name, rest) -> after = name +:+ String "}" rest /\ is_identifier name = true.
Proof.
  unfold placeholder. destruct (split_once "}" after) as [[n r]|] eqn:Hs; [|done].
  destruct (is_identifier n) eqn:Hi; [|done]. intros [= <- <-]. by apply split_once_Some in Hs as [-> _].
Qed.

Section substitute.
Context (tool : ResolvedTool) (params : TemplateParams).
Notation loop := (substitute_loop tool params).
Notation sub s := (substitute s tool params).

Definition prepend (a : string) (r : res ToolError string) : res ToolError string :=
  let? b := r in Ok (a +:+ b).

Lemma prepend_app a b r : prepend a (prepend b r) = prepend (a +:+ b) r.
Proof. destruct r; simpl; [by rewrite str_app_assoc|done..]. Qed.

Lemma loop_prepend fuel a out rest : loop fuel (a +:+ out) rest = prepend a (loop fuel out rest).
Proof.
  revert out rest. induction fuel as [|fuel IH]; intros out rest; [done|]. cbn [substitute_loop].
  destruct (split_once "{" rest) as [[before after]|]; [|simpl; by rewrite str_app_assoc].
  destruct (placeholder after) as [[name r]|].
  - destruct (value_of tool params name) as [v| |]; simpl; [|done..]. by rewrite str_app_assoc, IH.
  - by rewrite str_app_assoc, IH.
Qed.

Lemma substitute_fuel f1 f2 out rest :
  String.length rest < f1 -> String.length rest < f2 -> loop f1 out rest = loop f2 out rest.
Proof.
  revert f2 out rest. induction f1 as [|f1 IH]; intros [|f2] out rest H1 H2; [lia..|]. cbn [substitute_loop].
  destruct (split_once "{" rest) as [[before after]|] eqn:Hs; [|done].
  apply split_once_Some in Hs as [-> _]. rewrite str_length_app in H1, H2. simpl in H1, H2.
  destruct (placeholder after) as [[name r]|] eqn:Hp; [|apply IH; lia].
  apply placeholder_shorter in Hp as [-> _]. rewrite str_length_app in H1, H2. simpl in H1, H2.
  destruct (value_of tool params name); simpl; [apply IH; lia|done..].
Qed.

Lemma loop_sub fuel out rest : String.length rest < fuel -> loop fuel out rest = prepend out (sub rest).
Proof.
  intros Hf. rewrite (substitute_fuel fuel (S (String.length rest))) by lia. unfold substitute.
  rewrite <- loop_prepend. by rewrite str_app_nil_r.
Qed.

(** *** The text, one character at a time *)

Lemma sub_unfold s :
  sub s = match split_once "{" s with
          | None => Ok s
          | Some (before, after) =>
              match placeholder after with
              | Some (name, rest) => let? value := value_of tool params name in prepend (before +:+ value) (sub rest)
              | None => prepend (before +:+ "{") (sub after)
              end
          end.
Proof.
  unfold substitute at 1. cbn [substitute_loop]. destruct (split_once "{" s) as [[before after]|] eqn:Hs; [|done].
  apply split_once_Some in Hs as [-> _]. rewrite str_length_app. cbn [String.length].
  destruct (placeholder after) as [[name rest]|] eqn:Hp; [|rewrite loop_sub by lia; done].
  apply placeholder_shorter in Hp as [-> _]. destruct (value_of tool params name); simpl; [|done..].
  rewrite loop_sub; [done|]. rewrite str_length_app. simpl. lia.
Qed.

Lemma sub_char c s : c <> "{"%char -> sub (String c s) = prepend (String c "") (sub s).
Proof.
  intros Hc. rewrite !sub_unfold. cbn [split_once]. rewrite decide_False by done.
  destruct (split_once "{" s) as [[before after]|]; [|done].
  destruct (placeholder after) as [[name rest]|]; [|by rewrite prepend_app].
  destruct (value_of tool params name); simpl; [|done..].
  change (let? b := ?r in Ok (?a +:+ b)) with (prepend a r). by destruct (sub rest).
Qed.

Lemma sub_brace s :
  sub (String "{" s) = match placeholder s with
                       | Some (name, rest) => let? value := value_of tool params name in prepend value (sub rest)
                       | None => prepend "{" (sub s)
                       end.
Proof. by rewrite sub_unfold. Qed.

(** *** Placeholders *)

Lemma all_chars_app p s t : all_chars p (s +:+ t) = all_chars p s && all_chars p t.
Proof.
  induction s as [|a s IH]; [done|]. change (String a s +:+ t) with (String a (s +:+ t)). simpl.
  by rewrite IH, andb_assoc.
Qed.

Lemma identifier_no_brace name :
  is_identifier name = true -> has_char "}" name = false /\ has_char "{" name = false.
Proof.
  unfold is_identifier. intros [_ Hall]%andb_prop. induction name as [|a name IH]; [done|].
  simpl in *. apply andb_prop in Hall as [Ha Hall]. destruct (IH Hall) as [-> ->].
  assert (a <> "}"%char /\ a <> "{"%char) as [H1 H2] by (split; intros ->; done).
  by rewrite !bool_decide_eq_false_2.
Qed.

(** An opening brace before a placeholder never swallows it. *)
Lemma placeholder_before s name post :
  is_identifier name = true ->
  placeholder (s +:+ String "{" (name +:+ String "}" post)) =
    (fun found => (found.1, found.2 +:+ String "{" (name +:+ String "}" post))) <$> placeholder s.
Proof.
  intros Hname. unfold placeholder. destruct (split_once "}" s) as [[n r]|] eqn:Hs.
  - apply split_once_Some in Hs as [-> Hn]. rewrite str_app_assoc.
    change (String "}" r +:+ String "{" (name +:+ String "}" post))
      with (String "}" (r +:+ String "{" (name +:+ String "}" post))).
    rewrite split_once_app by done. by destruct (is_identifier n).
  - rewrite split_once_None in Hs. destruct (identifier_no_brace _ Hname) as [Hc _].
    assert (s +:+ String "{" (name +:+ String "}" post) = (s +:+ String "{" name) +:+ String "}" post) as ->
      by (by rewrite str_app_assoc).
    rewrite split_once_app.
    + assert (is_identifier (s +:+ String "{" name) = false) as ->; [|done].
      unfold is_identifier. rewrite all_chars_app. simpl. by rewrite andb_false_r, andb_false_r.
    + rewrite has_char_app, Hs. simpl. by rewrite Hc.
Qed.

Lemma sub_placeholder pre name post :
  is_identifier name = true ->
  sub (pre +:+ String "{" (name +:+ String "}" post)) =
    let? a := sub pre in let? v := value_of tool params name in let? b := sub post in Ok (a +:+ v +:+ b).
Proof.
  intros Hname. remember (String.length pre) as n eqn:Hn. revert pre Hn.
  induction (lt_wf n) as [n _ IH]. intros pre ->. destruct pre as [|c pre].
  - change ("" +:+ ?x) with x. rewrite sub_brace. unfold placeholder.
    rewrite split_once_app by (by apply identifier_no_brace). by rewrite Hname.
  - change (String c pre +:+ ?x) with (String c (pre +:+ x)).
    destruct (decide (c = "{"%char)) as [->|Hc].
    + rewrite !sub_brace, placeholder_before by done. destruct (placeholder pre) as [[nm r]|] eqn:Hp; simpl.
      * apply placeholder_shorter in Hp as [-> _].
        destruct (value_of tool params nm) as [v| |]; simpl; [|done..].
        rewrite (IH (String.length r)); [|simpl; rewrite str_length_app; simpl; lia|done].
        destruct (sub r); simpl; [|done..]. destruct (value_of tool params name); simpl; [|done..].
        destruct (sub post); simpl; [|done..]. by rewrite !str_app_assoc.
      * rewrite (IH (String.length pre)); [|simpl; lia|done]. unfold prepend.
        destruct (sub pre); simpl; [|done..]. destruct (value_of tool params name); simpl; [|done..].
        by destruct (sub post).
    + rewrite !sub_char by done. rewrite (IH (String.length pre)); [|simpl; lia|done]. unfold prepend.
      destruct (sub pre); simpl; [|done..]. destruct (value_of tool params name); simpl; [|done..].
      by destruct (sub post).
Qed.

Lemma sub_plain s :
  (forall pre name post, s = pre +:+ String "{" (name +:+ String "}" post) -> is_identifier name = false) ->
  sub s = Ok s.
Proof.
  induction s as [|c s IH]; intros Hs; [done|].
  assert (sub s = Ok s) as Hsub.
  { apply IH. intros pre name post ->. by apply (Hs (String c pre) name post). }
  destruct (decide (c = "{"%char)) as [->|Hc]; [|by rewrite sub_char, Hsub].
  rewrite sub_brace, Hsub. destruct (placeholder s) as [[name rest]|] eqn:Hp; [|done].
  apply placeholder_shorter in Hp as [-> Hi]. by rewrite (Hs "" name rest) in Hi.
Qed.
End substitute.

(** ** The argv *)

(** The literals ([inl]) and lists ([inr]) a template comes down to. *)
Fixpoint leaves (params : TemplateParams) (item : ArgvItem) : list (string + string) :=
  match item with
  | Lit literal => [inl literal]
  | When if_ then_ else_ =>
      (fix go items := match items with [] => [] | i :: items' => leaves params i ++ go items' end)
        (if is_set params if_ then then_ else else_)
  | Splice splice => [inr splice]
  end.

(** A literal is one entry, a list its elements. *)
Definition leaf_entries (tool : ResolvedTool) (params : TemplateParams) (leaf : string + string)
    : res ToolError (list string) :=
  match leaf with
  | inl literal => let? entry := substitute literal tool params in Ok [entry]
  | inr splice => ok_or (tp_lists params !! splice) (unbound tool splice)
  end.

Fixpoint all_entries (tool : ResolvedTool) (params : TemplateParams) (l : list (string + string))
    : res ToolError (list string) :=
  match l with
  | [] => Ok []
  | leaf :: l' =>
      let? entries := leaf_entries tool params leaf in
      let? rest := all_entries tool params l' in
      Ok (entries ++ rest)
  end.

Section argv.
Context (tool : ResolvedTool) (params : TemplateParams).

Definition appended (argv : list string) (r : res ToolError (list string)) : res ToolError (list string) :=
  let? entries := r in Ok (argv ++ entries).

Lemma all_entries_app l1 l2 :
  all_entries tool params (l1 ++ l2) =
    let? a := all_entries tool params l1 in let? b := all_entries tool params l2 in Ok (a ++ b).
Proof.
  induction l1 as [|leaf l1 IH]; simpl; [by destruct (all_entries tool params l2)|]. rewrite IH.
  destruct (leaf_entries tool params leaf); simpl; [|done..]. destruct (all_entries tool params l1); simpl; [|done..].
  destruct (all_entries tool params l2); simpl; [by rewrite app_assoc|done..].
Qed.

(** Induction on items, through the lists a [When] holds. *)
Fixpoint item_ind (P : ArgvItem -> Prop) (Hlit : forall s, P (Lit s)) (Hsplice : forall s, P (Splice s))
    (Hwhen : forall i t e, Forall P t -> Forall P e -> P (When i t e)) (item : ArgvItem) : P item :=
  let all := fix all l : Forall P l :=
    match l with
    | [] => Forall_nil_2 P
    | x :: l' => Forall_cons_2 P x l' (item_ind P Hlit Hsplice Hwhen x) (all l')
    end in
  match item with
  | Lit s => Hlit s
  | Splice s => Hsplice s
  | When i t e => Hwhen i t e (all t) (all e)
  end.

Lemma render_items_when if_ then_ else_ argv :
  render_item tool params (When if_ then_ else_) argv =
    render_items (if is_set params if_ then then_ else else_) tool params argv.
Proof.
  cbn [render_item]. generalize (if is_set params if_ then then_ else else_). intros items. revert argv.
  induction items as [|item items IH]; intros argv; [done|]. cbn [render_items].
  destruct (render_item tool params item argv); simpl; [apply IH|done..].
Qed.

Lemma leaves_when if_ then_ else_ :
  leaves params (When if_ then_ else_) = (if is_set params if_ then then_ else else_) ≫= leaves params.
Proof.
  cbn [leaves]. generalize (if is_set params if_ then then_ else else_). intros items.
  induction items as [|item items IH]; [done|]. simpl. by rewrite IH.
Qed.

Lemma render_items_leaves items argv :
  Forall (fun item => forall argv, render_item tool params item argv = appended argv (all_entries tool params (leaves params item))) items ->
  render_items items tool params argv = appended argv (all_entries tool params (items ≫= leaves params)).
Proof.
  intros Hall. revert argv. induction Hall as [|item items Hi _ IH]; intros argv; [by simpl; rewrite app_nil_r|].
  cbn [render_items]. rewrite Hi. cbn [mbind list_bind]. rewrite all_entries_app.
  destruct (all_entries tool params (leaves params item)) as [a| |]; simpl; [|done..]. rewrite IH.
  change (mbind (leaves params) items) with (items ≫= leaves params).
  destruct (all_entries tool params (items ≫= leaves params)); simpl; [by rewrite app_assoc|done..].
Qed.

Lemma render_item_leaves item argv :
  render_item tool params item argv = appended argv (all_entries tool params (leaves params item)).
Proof.
  revert argv. induction item as [s|s|i t e Ht He] using item_ind; intros argv.
  - simpl. by destruct (substitute s tool params).
  - simpl. destruct (ok_or (tp_lists params !! s) (unbound tool s)); simpl; [by rewrite app_nil_r|done..].
  - rewrite render_items_when, leaves_when. apply render_items_leaves. by destruct (is_set params i).
Qed.

(** A run section is rendered to exactly the entries its template comes down to,
    in order: each literal is one entry and each list its elements, whatever the values
    hold; in a literal every placeholder [{identifier}] stands for its parameter's value,
    which is not read again, every other brace stands for itself, and the first unbound
    name is the error. *)
Theorem render_argv_correct run :
  render_argv run tool params = all_entries tool params (run_argv run ≫= leaves params) /\
  (forall pre name post, is_identifier name = true ->
    substitute (pre +:+ String "{" (name +:+ String "}" post)) tool params =
      let? a := substitute pre tool params in
      let? v := value_of tool params name in
      let? b := substitute post tool params in Ok (a +:+ v +:+ b)) /\
  (forall s, (forall pre name post, s = pre +:+ String "{" (name +:+ String "}" post) -> is_identifier name = false) ->
    substitute s tool params = Ok s).
Proof.
  split_and!.
  - unfold render_argv. rewrite render_items_leaves; [|apply Forall_true, render_item_leaves].
    unfold appended. by destruct (all_entries tool params _).
  - apply sub_placeholder.
  - apply sub_plain.
Qed.
End argv.
