(* ===== verification/Tasks.v ===== *)
(** * Background tasks

    [src/packages/tddy-task/src/task.rs] and [registry.rs]: a task's status, its entry in
    the registry, the monitor that retires it, the escalation after a cancel, and the
    offset of the input applied to a channel.

    Handles are shared: they live in a heap by id, and the registry is a set of ids. A
    spawned future takes one step between two of its awaits, so that bodies, monitors
    and escalations interleave freely. The order a [HashMap] is iterated in is the class
    [HashOrder]; clocks and timers are the schedule: a step that waits for a timer may
    be taken at any time. Channels' byte streams are not modelled here. *)

From S2P Require Import Prelude.

(** ** Status *)

Inductive TaskStatus := Pending | Running | Completed (exit_code : option Z) | Failed (message : string) | Cancelled.

#[global] Instance TaskStatus_eq_dec : EqDecision TaskStatus.
Proof. solve_decision. Defined.

Definition is_terminal (s : TaskStatus) : bool :=
  match s with Completed _ | Failed _ | Cancelled => true | Pending | Running => false end.

(** [th_watch] is the value in the status watch channel. *)
Record TaskHandle := mkTask {
  th_session_id : string; th_kind : string; th_created_unix_ms : N; th_status : TaskStatus; th_watch : TaskStatus;
  th_cancel : bool; th_pid_slot : list N; th_result_json : option string
}.

Definition new_handle (session_id kind : string) (created : N) : TaskHandle :=
  mkTask session_id kind created Pending Pending false [] None.

Definition with_status (s : TaskStatus) (h : TaskHandle) : TaskHandle :=
  mkTask (th_session_id h) (th_kind h) (th_created_unix_ms h) s s (th_cancel h) (th_pid_slot h) (th_result_json h).

Definition set_running (h : TaskHandle) : TaskHandle :=
  if decide (th_status h = Pending) then with_status Running h else h.

Definition set_terminal (s : TaskStatus) (h : TaskHandle) : TaskHandle :=
  if is_terminal (th_status h) then h else with_status s h.

Definition cancel_token (h : TaskHandle) : TaskHandle :=
  mkTask (th_session_id h) (th_kind h) (th_created_unix_ms h) (th_status h) (th_watch h) true (th_pid_slot h) (th_result_json h).

Definition with_pids (pids : list N) (h : TaskHandle) : TaskHandle :=
  mkTask (th_session_id h) (th_kind h) (th_created_unix_ms h) (th_status h) (th_watch h) (th_cancel h) pids (th_result_json h).

Definition register_child_pid (pid : N) (h : TaskHandle) : TaskHandle := with_pids (th_pid_slot h ++ [pid]) h.

Definition deregister_child_pid (pid : N) (h : TaskHandle) : TaskHandle :=
  with_pids (filter (fun p => p <> pid) (th_pid_slot h)) h.

Definition set_result (json : string) (h : TaskHandle) : TaskHandle :=
  mkTask (th_session_id h) (th_kind h) (th_created_unix_ms h) (th_status h) (th_watch h) (th_cancel h) (th_pid_slot h) (Some json).

(** ** The registry *)

Definition TERMINAL_TASK_CAP : nat := 200.

Inductive TaskRegistryEvent := Added (id : string) | Updated (id : string) | Removed (id : string).

(** Where the future of a task's body is: before [set_running], in [run], done. *)
Inductive body_phase := BodyStarting | BodyRunning | BodyDone.

(** Where a task's [exit_monitor] is: at the top of its loop or awaiting a change from the
    status it saw last, about to evict, asleep for the TTL, done. *)
Inductive monitor_phase :=
| Watching (seen : TaskStatus) | Awaiting (seen : TaskStatus) | Evicting | Sleeping | Retired.

#[global] Instance monitor_phase_eq_dec : EqDecision monitor_phase.
Proof. solve_decision. Defined.

Inductive Signal := SIGTERM | SIGKILL.

#[global] Instance Signal_eq_dec : EqDecision Signal.
Proof. solve_decision. Defined.

(** Where an [escalation_safety_net] is: in the grace period, after the SIGTERMs, done. *)
Inductive escalation := Grace (id : string) | Termed (id : string) (pids : list N) | Over.

Record world := mkWorld {
  handles : gmap string TaskHandle; tasks : gset string; bodies : gmap string body_phase;
  monitors : gmap string monitor_phase; escalations : list escalation; task_events : list TaskRegistryEvent;
  signals : list (N * Signal)
}.

Definition empty_world : world := mkWorld ∅ ∅ ∅ ∅ [] [] [].

Definition on_handle (id : string) (f : TaskHandle -> TaskHandle) (w : world) : world :=
  mkWorld (alter f id (handles w)) (tasks w) (bodies w) (monitors w) (escalations w) (task_events w) (signals w).

Definition set_body (id : string) (p : body_phase) (w : world) : world :=
  mkWorld (handles w) (tasks w) (<[id := p]> (bodies w)) (monitors w) (escalations w) (task_events w) (signals w).

Definition set_monitor (id : string) (p : monitor_phase) (w : world) : world :=
  mkWorld (handles w) (tasks w) (bodies w) (<[id := p]> (monitors w)) (escalations w) (task_events w) (signals w).

Definition send_event (e : TaskRegistryEvent) (w : world) : world :=
  mkWorld (handles w) (tasks w) (bodies w) (monitors w) (escalations w) (task_events w ++ [e]) (signals w).

Definition set_tasks (ids : gset string) (w : world) : world :=
  mkWorld (handles w) ids (bodies w) (monitors w) (escalations w) (task_events w) (signals w).

(** [spawn]: the handle is registered before its body and its monitor exist. *)
Definition spawn (id kind session_id : string) (created : N) (w : world) : world :=
  let h := new_handle session_id kind created in
  send_event (Added id)
    (mkWorld (<[id := h]> (handles w)) ({[id]} ∪ tasks w) (<[id := BodyStarting]> (bodies w))
       (<[id := Watching Pending]> (monitors w)) (escalations w) (task_events w) (signals w)).

(** [create_terminal_task] and [register_terminal]. *)
Definition create_terminal_task (id kind session_id : string) (created : N) (result_json : option string)
    (terminal : TaskStatus) (w : world) : world :=
  let h := set_running (new_handle session_id kind created) in
  let h := match result_json with Some json => set_result json h | None => h end in
  let h := set_terminal terminal h in
  send_event (Added id)
    (mkWorld (<[id := h]> (handles w)) ({[id]} ∪ tasks w) (bodies w) (<[id := Watching Pending]> (monitors w))
       (escalations w) (task_events w) (signals w)).

Definition remove_task (id : string) (w : world) : world := send_event (Removed id) (set_tasks (tasks w ∖ {[id]}) w).

Definition cancel_task (id : string) (w : world) : bool * world :=
  if decide (id ∈ tasks w) then
    let w' := on_handle id cancel_token w in
    (true, mkWorld (handles w') (tasks w') (bodies w') (monitors w') (escalations w' ++ [Grace id]) (task_events w') (signals w'))
  else (false, w).

(** The order a [HashMap]'s keys are iterated in. *)
Class HashOrder := {
  iterate : gset string -> list string;
  iterate_all : forall s, iterate s ≡ₚ elements s
}.

Section registry.
Context `{!HashOrder}.

(** [(created_unix_ms, id)] of the terminal tasks. *)
Definition terminal_tasks (w : world) : list (N * string) :=
  omap (fun id => h ← handles w !! id; if is_terminal (th_status h) then Some (th_created_unix_ms h, id) else None)
    (iterate (tasks w)).

Definition to_evict (w : world) : list string :=
  snd <$> take (length (terminal_tasks w) - TERMINAL_TASK_CAP)
            (sort_by (fun a b => bool_decide (a.1 <= b.1)%N) (terminal_tasks w)).

Definition evict_over_cap (w : world) : world :=
  if decide (length (terminal_tasks w) <= TERMINAL_TASK_CAP) then w
  else foldl (fun w id => send_event (Removed id) w) (set_tasks (tasks w ∖ list_to_set (to_evict w)) w) (to_evict w).

(** *** Futures *)

(** A step of a body: it starts, uses its context, or returns. *)
Inductive body_step := BStart | BPid (pid : N) | BPidDone (pid : N) | BResult (json : string) | BReturn (s : TaskStatus).

Definition run_body (id : string) (s : body_step) (w : world) : world :=
  match bodies w !! id, s with
  | Some BodyStarting, BStart => set_body id BodyRunning (on_handle id set_running w)
  | Some BodyRunning, BPid pid => on_handle id (register_child_pid pid) w
  | Some BodyRunning, BPidDone pid => on_handle id (deregister_child_pid pid) w
  | Some BodyRunning, BResult json => on_handle id (set_result json) w
  | Some BodyRunning, BReturn status => set_body id BodyDone (on_handle id (set_terminal status) w)
  | _, _ => w
  end.

(** A step of a monitor: it sees the status it waits for, evicts, or its sleep ends. *)
Definition run_monitor (id : string) (w : world) : world :=
  match monitors w !! id, handles w !! id with
  | Some (Watching seen), Some h =>
      if is_terminal (th_watch h) then set_monitor id Evicting (send_event (Updated id) w)
      else if decide (th_watch h = seen) then set_monitor id (Awaiting seen) w
      else set_monitor id (Watching (th_watch h)) (send_event (Updated id) w)
  | Some (Awaiting seen), Some h =>
      if decide (th_watch h = seen) then w
      else set_monitor id (Watching (th_watch h)) (send_event (Updated id) w)
  | Some Evicting, _ => set_monitor id Sleeping (evict_over_cap w)
  | Some Sleeping, _ => set_monitor id Retired (remove_task id w)
  | _, _ => w
  end.

Definition set_escalation (i : nat) (e : escalation) (sent : list (N * Signal)) (w : world) : world :=
  mkWorld (handles w) (tasks w) (bodies w) (monitors w) (<[i := e]> (escalations w)) (task_events w) (signals w ++ sent).

(** A step of an escalation: the grace period is over, or the two seconds after it. *)
Definition run_escalation (i : nat) (w : world) : world :=
  match escalations w !! i with
  | Some (Grace id) =>
      match handles w !! id with
      | None => w
      | Some h =>
          if is_terminal (th_status h) then set_escalation i Over [] w
          else match th_pid_slot h with
               | [] => set_escalation i Over [] w
               | pids => set_escalation i (Termed id pids) ((fun p => (p, SIGTERM)) <$> pids) w
               end
      end
  | Some (Termed id pids) =>
      match handles w !! id with
      | None => w
      | Some h =>
          set_escalation i Over (if is_terminal (th_status h) then [] else (fun p => (p, SIGKILL)) <$> pids) w
      end
  | _ => w
  end.

Inductive event :=
| ESpawn (id kind session_id : string) (created : N)
| ETerminal (id kind session_id : string) (created : N) (result_json : option string) (terminal : TaskStatus)
| EBody (id : string) (s : body_step)
| EMonitor (id : string)
| ECancel (id : string)
| EEscalation (i : nat).

Definition step (e : event) (w : world) : world :=
  match e with
  | ESpawn id kind session_id created => spawn id kind session_id created w
  | ETerminal id kind session_id created result_json terminal =>
      create_terminal_task id kind session_id created result_json terminal w
  | EBody id s => run_body id s w
  | EMonitor id => run_monitor id w
  | ECancel id => (cancel_task id w).2
  | EEscalation i => run_escalation i w
  end.

Definition run (es : list event) (w : world) : world := foldl (fun w e => step e w) w es.
End registry.

(** ** What holds in every state *)

(** Ids are new, as version-7 uuids are, and bodies return a terminal status, as
    [TaskBody::run] must. *)
Definition event_ok (w : world) (e : event) : Prop :=
  match e with
  | ESpawn id _ _ _ => handles w !! id = None
  | ETerminal id _ _ _ _ terminal => handles w !! id = None /\ is_terminal terminal = true
  | EBody _ (BReturn s) => is_terminal s = true
  | _ => True
  end.

(** [past id]: the monitor of [id] has run its eviction. *)
Definition past (p : monitor_phase) : bool := match p with Sleeping | Retired => true | _ => false end.

Definition seen_terminal (p : monitor_phase) : bool := match p with Watching _ | Awaiting _ => false | _ => true end.

(** A monitor awaits a change only from a status that is not terminal. *)
Definition awaits_more (p : monitor_phase) : Prop :=
  match p with Awaiting seen => is_terminal seen = false | _ => True end.

Definition body_fits (p : body_phase) (s : TaskStatus) : Prop :=
  match p with BodyStarting => s = Pending | BodyRunning => s = Running | BodyDone => is_terminal s = true end.

Record task_ok (w : world) (id : string) (h : TaskHandle) : Prop := {
  to_watch : th_watch h = th_status h;
  to_body : match bodies w !! id with Some p => body_fits p (th_status h) | None => is_terminal (th_status h) = true end;
  to_listed : is_terminal (th_status h) = false -> id ∈ tasks w;
  to_monitor : exists p, monitors w !! id = Some p /\ (seen_terminal p = true -> is_terminal (th_status h) = true) /\
    awaits_more p /\ (p = Retired -> id ∉ tasks w)
}.

(** The listed tasks whose monitor sleeps: the ones kept for observers. *)
Definition sleepers (w : world) : gset string := filter (fun id => monitors w !! id = Some Sleeping) (tasks w).

Record world_ok (w : world) : Prop := {
  wk_tasks : forall id h, handles w !! id = Some h -> task_ok w id h;
  wk_known : forall id, id ∈ tasks w -> is_Some (handles w !! id);
  wk_fresh : forall id, handles w !! id = None -> bodies w !! id = None /\ monitors w !! id = None;
  wk_sleepers : size (sleepers w) <= TERMINAL_TASK_CAP
}.

(** *** Eviction *)

Section eviction.
Context `{!HashOrder}.

Lemma elem_terminal_tasks w c id :
  (c, id) ∈ terminal_tasks w <->
  id ∈ tasks w /\ exists h, handles w !! id = Some h /\ is_terminal (th_status h) = true /\ c = th_created_unix_ms h.
Proof.
  unfold terminal_tasks. rewrite list_elem_of_omap. setoid_rewrite iterate_all. setoid_rewrite elem_of_elements. split.
  - intros (x & Hx & Hc). destruct (handles w !! x) as [h|] eqn:Hh; simpl in Hc; [|done].
    destruct (is_terminal (th_status h)) eqn:Ht; simplify_eq. eauto.
  - intros (Hin & h & Hh & Ht & ->). exists id. rewrite Hh. simpl. by rewrite Ht.
Qed.

Lemma NoDup_terminal_tasks w : NoDup (snd <$> terminal_tasks w).
Proof.
  unfold terminal_tasks. assert (NoDup (iterate (tasks w))) as Hnd by (rewrite iterate_all; apply NoDup_elements).
  induction (iterate (tasks w)) as [|x l IH]; simpl; [constructor|]. apply NoDup_cons in Hnd as [Hx Hnd].
  specialize (IH Hnd). destruct (handles w !! x) as [h|]; simpl; [|done].
  destruct (is_terminal (th_status h)); [|done]. rewrite fmap_cons. constructor; [|done]. simpl.
  intros ([c y] & Hy & Hin)%list_elem_of_fmap. simpl in Hy. subst y.
  apply list_elem_of_omap in Hin as (y & Hyl & Hy). destruct (handles w !! y) as [hy|]; simpl in Hy; [|done].
  destruct (is_terminal (th_status hy)); by simplify_eq.
Qed.

Notation by_age := (fun a b : N * string => bool_decide (a.1 <= b.1)%N).

Lemma sorted_split w :
  exists kept, (sort_by by_age (terminal_tasks w)) =
    take (length (terminal_tasks w) - TERMINAL_TASK_CAP) (sort_by by_age (terminal_tasks w)) ++ kept /\
    length kept <= TERMINAL_TASK_CAP.
Proof.
  exists (drop (length (terminal_tasks w) - TERMINAL_TASK_CAP) (sort_by by_age (terminal_tasks w))).
  split; [by rewrite take_drop|]. rewrite length_drop. rewrite (Permutation_length (sort_by_Permutation _ _)). lia.
Qed.

Lemma evict_fields w :
  handles (evict_over_cap w) = handles w /\ bodies (evict_over_cap w) = bodies w /\
  monitors (evict_over_cap w) = monitors w /\ tasks (evict_over_cap w) = tasks w ∖ list_to_set (to_evict w).
Proof.
  assert (forall l w0, let w1 := foldl (fun w id => send_event (Removed id) w) w0 l in
    handles w1 = handles w0 /\ bodies w1 = bodies w0 /\ monitors w1 = monitors w0 /\ tasks w1 = tasks w0) as Hev.
  { induction l as [|id l IH]; intros w0; [done|]. simpl. apply (IH (send_event (Removed id) w0)). }
  unfold evict_over_cap. case_decide as Hc.
  - split_and!; [done..|]. unfold to_evict. replace (length (terminal_tasks w) - TERMINAL_TASK_CAP) with 0 by lia.
    simpl. set_solver.
  - destruct (Hev (to_evict w) (set_tasks (tasks w ∖ list_to_set (to_evict w)) w)) as (-> & -> & -> & ->). done.
Qed.

(** Only terminal tasks go, none younger than one that stays, and at most 200 stay. *)
Lemma evict_correct w :
  (forall id, id ∈ to_evict w -> exists c, (c, id) ∈ terminal_tasks w) /\
  (forall old young co cy, old ∈ to_evict w -> (co, old) ∈ terminal_tasks w -> (cy, young) ∈ terminal_tasks w ->
    young ∉ to_evict w -> (co <= cy)%N) /\
  forall s : gset string, (forall id, id ∈ s -> id ∉ to_evict w /\ exists c, (c, id) ∈ terminal_tasks w) ->
    size s <= TERMINAL_TASK_CAP.
Proof.
  destruct (sorted_split w) as (kept & Hsp & Hlen). pose proof (sort_by_Permutation by_age (terminal_tasks w)) as Hperm.
  pose proof (NoDup_terminal_tasks w) as Hnd. rewrite <- Hperm, Hsp, fmap_app in Hnd.
  unfold to_evict. set (gone := take _ _) in *. apply NoDup_app in Hnd as (Hnd1 & Hdisj & Hnd2). split_and!.
  - intros id ([c x] & -> & Hx)%list_elem_of_fmap. exists c. simpl. rewrite <- Hperm, Hsp. apply elem_of_app. by left.
  - intros old young co cy Hold Hco Hcy Hyoung. rewrite <- Hperm, Hsp in Hco, Hcy.
    assert ((cy, young) ∈ kept) as Hk.
    { apply elem_of_app in Hcy as [Hcy|]; [|done]. exfalso. apply Hyoung, list_elem_of_fmap. by exists (cy, young). }
    assert ((co, old) ∈ gone) as Hg.
    { apply elem_of_app in Hco as [|Hco]; [done|]. exfalso. apply (Hdisj old Hold). apply list_elem_of_fmap. by exists (co, old). }
    assert (StronglySorted (fun x y => by_age x y = true) (gone ++ kept)) as Hs.
    { rewrite <- Hsp. apply sort_by_sorted; intros; rewrite ?bool_decide_eq_true in *; lia. }
    apply StronglySorted_app in Hs as (Hs & _ & _). specialize (Hs _ _ Hg Hk).
    by apply bool_decide_eq_true in Hs.
  - intros s Hs. assert (s ⊆ list_to_set (snd <$> kept)) as Hsub.
    { intros id Hid. destruct (Hs id Hid) as (Hno & c & Hc). rewrite <- Hperm, Hsp in Hc.
      apply elem_of_list_to_set, list_elem_of_fmap. exists (c, id). split; [done|].
      apply elem_of_app in Hc as [Hc|]; [|done]. exfalso. apply Hno, list_elem_of_fmap. by exists (c, id). }
    apply subseteq_size in Hsub. rewrite size_list_to_set, length_fmap in Hsub by done. lia.
Qed.
End eviction.

(** *** Steps keep the invariant *)

(** A task in another world where its body, its listing and its monitor are the same. *)
Lemma task_ok_frame w w' id h :
  bodies w' !! id = bodies w !! id -> monitors w' !! id = monitors w !! id ->
  (id ∈ tasks w' <-> id ∈ tasks w) -> task_ok w id h -> task_ok w' id h.
Proof.
  intros Hb Hm Ht [? ? ? (p & Hp & ? & ? & ?)]. split; [done|by rewrite Hb|by rewrite Ht|].
  exists p. rewrite Hm. by rewrite Ht.
Qed.

(** A handle whose status moves on, with its body. *)
Lemma task_ok_move w w' id h h' :
  task_ok w id h -> th_watch h' = th_status h' ->
  match bodies w' !! id with Some p => body_fits p (th_status h') | None => is_terminal (th_status h') = true end ->
  (is_terminal (th_status h) = true -> is_terminal (th_status h') = true) ->
  monitors w' !! id = monitors w !! id -> tasks w' = tasks w -> task_ok w' id h'.
Proof.
  intros [Hw Hb Hl (p & Hp & Hs & Ha & Hr)] Hw' Hb' Ht Hm Htk. split; [done|done| |].
  - rewrite Htk. intros Hn. apply Hl. destruct (is_terminal (th_status h)); [|done]. by rewrite Ht in Hn.
  - exists p. rewrite Hm, Htk. auto.
Qed.

(** An update of one handle and, maybe, its body's place. *)
Lemma handle_step_ok w w' id f :
  world_ok w -> handles w' = alter f id (handles w) -> tasks w' = tasks w -> monitors w' = monitors w ->
  (forall x, x <> id -> bodies w' !! x = bodies w !! x) -> (bodies w !! id = None -> bodies w' !! id = None) ->
  (forall h, handles w !! id = Some h -> task_ok w id h -> task_ok w' id (f h)) -> world_ok w'.
Proof.
  intros [Ht Hk Hf Hs] Hh Htk Hm Hb Hb0 Hid. split.
  - intros x h. rewrite Hh. destruct (decide (x = id)) as [->|Hne].
    + rewrite lookup_alter_eq. intros (h0 & Hh0 & ->)%fmap_Some. auto.
    + rewrite lookup_alter_ne by done. intros Hx. apply (task_ok_frame w); rewrite ?Hm, ?Htk; auto.
  - intros x. rewrite Htk, Hh, lookup_alter_is_Some. apply Hk.
  - intros x Hx. rewrite Hh in Hx. assert (handles w !! x = None) as Hx0.
    { apply eq_None_not_Some. rewrite <- (lookup_alter_is_Some f _ id). by apply eq_None_not_Some. }
    destruct (Hf x Hx0) as [H1 H2]. rewrite Hm. split; [|done].
    destruct (decide (x = id)) as [->|Hne]; [by apply Hb0|by rewrite Hb].
  - unfold sleepers. by rewrite Htk, Hm.
Qed.

Lemma run_body_ok id s w : world_ok w -> event_ok w (EBody id s) -> world_ok (run_body id s w).
Proof.
  intros Hw He. unfold run_body. destruct (bodies w !! id) as [p|] eqn:Hp; [|done].
  assert (forall f, (forall h, th_status (f h) = th_status h /\ th_watch (f h) = th_watch h) ->
    world_ok (on_handle id f w)) as Hsame.
  { intros f Hf. eapply handle_step_ok; [exact Hw|done..|]. intros h Hh Hok. destruct (Hf h) as [Hst Hwt].
    apply (task_ok_move w _ _ h); [done|by rewrite Hst, Hwt, (to_watch _ _ _ Hok)| |by rewrite Hst|done..].
    rewrite Hst. apply (to_body _ _ _ Hok). }
  destruct p, s as [|pid|pid|json|st]; try done; try (by apply Hsame).
  - eapply handle_step_ok; [exact Hw|done|done|done| |simpl; by rewrite Hp|].
    + intros x Hx. simpl. by rewrite lookup_insert_ne.
    + intros h Hh Hok. pose proof (to_body _ _ _ Hok) as Hb. rewrite Hp in Hb. simpl in Hb.
      apply (task_ok_move w _ _ h); try done; unfold set_running; rewrite Hb; simpl;
        rewrite ?lookup_insert_eq; done.
  - eapply handle_step_ok; [exact Hw|done|done|done| |simpl; by rewrite Hp|].
    + intros x Hx. simpl. by rewrite lookup_insert_ne.
    + intros h Hh Hok. pose proof (to_body _ _ _ Hok) as Hb. rewrite Hp in Hb. simpl in Hb, He.
      apply (task_ok_move w _ _ h); try done; unfold set_terminal; rewrite Hb; simpl;
        rewrite ?lookup_insert_eq; done.
Qed.

Lemma add_task_ok w w' id h :
  world_ok w -> handles w !! id = None -> handles w' = <[id := h]> (handles w) -> tasks w' = {[id]} ∪ tasks w ->
  monitors w' = <[id := Watching Pending]> (monitors w) -> (forall x, x <> id -> bodies w' !! x = bodies w !! x) ->
  th_watch h = th_status h ->
  match bodies w' !! id with Some p => body_fits p (th_status h) | None => is_terminal (th_status h) = true end ->
  world_ok w'.
Proof.
  intros [Ht Hk Hf Hs] Hid Hh Htk Hm Hb Hwatch Hbody. split.
  - intros x hx. rewrite Hh. intros [[<- <-]|[Hne Hx]]%lookup_insert_Some.
    + split; [done|done|rewrite Htk; set_solver|]. exists (Watching Pending). rewrite Hm, lookup_insert_eq. done.
    + apply (task_ok_frame w); [by apply Hb|by rewrite Hm, lookup_insert_ne|rewrite Htk; set_solver|by apply Ht].
  - intros x. rewrite Htk, Hh, lookup_insert_is_Some, elem_of_union, elem_of_singleton.
    destruct (decide (id = x)); [by left|]. intros [?|?]; [congruence|]. right. auto.
  - intros x. rewrite Hh, Hm. intros [Hx Hne]%lookup_insert_None. rewrite Hb by done.
    rewrite lookup_insert_ne by done. by apply Hf.
  - etrans; [|exact Hs]. apply subseteq_size. intros x. unfold sleepers. rewrite !elem_of_filter, Hm, Htk.
    intros [Hx Hin]. destruct (decide (x = id)) as [->|Hne]; [by rewrite lookup_insert_eq in Hx|].
    rewrite lookup_insert_ne in Hx by done. set_solver.
Qed.

(** A world that differs in its events, signals, escalations and cancel tokens only. *)
Lemma world_ok_same w w' :
  handles w' = handles w -> tasks w' = tasks w -> bodies w' = bodies w -> monitors w' = monitors w ->
  world_ok w -> world_ok w'.
Proof.
  intros Hh Ht Hb Hm [H1 H2 H3 H4]. split; rewrite ?Hh, ?Ht.
  - intros id h Hid. apply (task_ok_frame w); rewrite ?Hb, ?Hm, ?Ht; auto.
  - done.
  - rewrite Hb, Hm. done.
  - unfold sleepers. by rewrite Ht, Hm.
Qed.

(** A step of a monitor that has not evicted yet. *)
Lemma set_monitor_ok w id h p :
  world_ok w -> handles w !! id = Some h -> p <> Sleeping -> p <> Retired ->
  (seen_terminal p = true -> is_terminal (th_status h) = true) -> awaits_more p -> world_ok (set_monitor id p w).
Proof.
  intros [H1 H2 H3 H4] Hid Hns Hnr Hp Hmore. split; simpl.
  - intros x hx Hx. destruct (decide (x = id)) as [->|Hne].
    + assert (hx = h) as -> by congruence. destruct (H1 _ _ Hid) as [? ? ? _]. split; [done..|]. exists p. simpl. by rewrite lookup_insert_eq.
    + apply (task_ok_frame w); auto. simpl. by rewrite lookup_insert_ne.
  - done.
  - intros x Hx. destruct (decide (x = id)) as [->|Hne]; [congruence|]. rewrite lookup_insert_ne by done. auto.
  - etrans; [|exact H4]. apply subseteq_size. intros x. unfold sleepers. rewrite !elem_of_filter. simpl.
    destruct (decide (x = id)) as [->|Hne]; [rewrite lookup_insert_eq; naive_solver|by rewrite lookup_insert_ne].
Qed.

Section steps.
Context `{!HashOrder}.

Lemma evict_step_ok w id h :
  world_ok w -> handles w !! id = Some h -> is_terminal (th_status h) = true ->
  world_ok (set_monitor id Sleeping (evict_over_cap w)).
Proof.
  intros [H1 H2 H3 H4] Hid Hterm. destruct (evict_fields w) as (Eh & Eb & Em & Et).
  destruct (evict_correct w) as (Hgone & _ & Hbound). split; simpl; rewrite ?Eh, ?Et.
  - intros x hx Hx. destruct (H1 _ _ Hx) as [Ow Ob Ol (p & Op & Os & Oa & Or)]. split; simpl; rewrite ?Eb, ?Et; [done..| |].
    + intros Hn. apply elem_of_difference. split; [by apply Ol|]. rewrite elem_of_list_to_set. intros Hev.
      apply Hgone in Hev as [c Hc]. apply elem_terminal_tasks in Hc as (_ & h' & Hh' & Ht' & _). congruence.
    + destruct (decide (x = id)) as [->|Hne].
      * exists Sleeping. rewrite lookup_insert_eq. simplify_eq. done.
      * exists p. rewrite lookup_insert_ne by done. rewrite Em. split_and!; [done..|]. intros ->. set_solver.
  - intros x. rewrite elem_of_difference. intros [Hx _]. auto.
  - intros x Hx. rewrite Eb, Em. destruct (decide (x = id)) as [->|Hne]; [congruence|].
    rewrite lookup_insert_ne by done. auto.
  - apply Hbound. intros x. unfold sleepers. rewrite elem_of_filter. simpl. rewrite Et, Em. intros [Hx Hin].
    apply elem_of_difference in Hin as [Hin Hno]. rewrite elem_of_list_to_set in Hno. split; [done|].
    destruct (H2 _ Hin) as [hx Hhx]. exists (th_created_unix_ms hx). apply elem_terminal_tasks.
    split; [done|]. exists hx. split_and!; [done| |done]. destruct (decide (x = id)) as [->|Hne]; [congruence|].
    rewrite lookup_insert_ne in Hx by done. destruct (H1 _ _ Hhx) as [_ _ _ (p & Op & Os & _)]. simplify_eq. by apply Os.
Qed.

Lemma retire_ok w id h :
  world_ok w -> handles w !! id = Some h -> is_terminal (th_status h) = true ->
  world_ok (set_monitor id Retired (remove_task id w)).
Proof.
  intros [H1 H2 H3 H4] Hid Hterm. split; simpl.
  - intros x hx Hx. destruct (decide (x = id)) as [->|Hne].
    + assert (hx = h) as -> by congruence. destruct (H1 _ _ Hid) as [Ow Ob _ _]. split; [done|done|congruence|].
      exists Retired. simpl. rewrite lookup_insert_eq. split_and!; [done..|set_solver].
    + apply (task_ok_frame w); auto; simpl; [by rewrite lookup_insert_ne|set_solver].
  - set_solver.
  - intros x Hx. destruct (decide (x = id)) as [->|Hne]; [congruence|]. rewrite lookup_insert_ne by done. auto.
  - etrans; [|exact H4]. apply subseteq_size. intros x. unfold sleepers. rewrite !elem_of_filter. simpl.
    destruct (decide (x = id)) as [->|Hne]; [rewrite lookup_insert_eq; naive_solver|]. rewrite lookup_insert_ne by done.
    set_solver.
Qed.

Lemma run_monitor_ok id w : world_ok w -> world_ok (run_monitor id w).
Proof.
  intros Hw. unfold run_monitor. destruct (monitors w !! id) as [p|] eqn:Hp; [|done].
  destruct (handles w !! id) as [h|] eqn:Hh.
  2: { destruct (wk_fresh _ Hw id Hh) as [_ ?]. congruence. }
  destruct (wk_tasks _ Hw _ _ Hh) as [Ow _ _ (p' & Op & Os & _)]. rewrite Hp in Op. injection Op as <-.
  assert (world_ok (send_event (Updated id) w)) as Hw' by (by apply (world_ok_same w)).
  destruct p as [seen|seen| | |]; [| | | |done].
  - destruct (is_terminal (th_watch h)) eqn:Ht; [apply (set_monitor_ok _ _ h); rewrite <- ?Ow; done|].
    case_decide; apply (set_monitor_ok _ _ h); try done. simpl. congruence.
  - case_decide; [done|]. by apply (set_monitor_ok _ _ h).
  - by apply (evict_step_ok _ _ h), Os.
  - by apply (retire_ok _ _ h), Os.
Qed.
End steps.

Lemma step_ok `{!HashOrder} e w : world_ok w -> event_ok w e -> world_ok (step e w).
Proof.
  intros Hw He. destruct e as [id kind session created|id kind session created result terminal|id s|id|id|i]; simpl.
  - eapply (add_task_ok w); [done|exact He|done|done|done| |done|]; simpl.
    + intros x Hx. by rewrite lookup_insert_ne.
    + by rewrite lookup_insert_eq.
  - destruct He as [He Ht]. destruct (wk_fresh _ Hw id He) as [Hb _].
    assert (forall h0, th_status h0 = Running ->
      th_watch (set_terminal terminal h0) = th_status (set_terminal terminal h0) /\
      th_status (set_terminal terminal h0) = terminal) as Hset.
    { intros h0 Hr. unfold set_terminal. by rewrite Hr. }
    unfold create_terminal_task, set_running. rewrite decide_True by done.
    eapply (add_task_ok w); [done|exact He|done|done|done|done| |]; simpl; rewrite ?Hb.
    + by destruct result; apply Hset.
    + destruct result; (edestruct Hset as [_ Hst]; [|rewrite Hst; done]); done.
  - by apply run_body_ok.
  - by apply run_monitor_ok.
  - unfold cancel_task. case_decide; [|done]. simpl.
    apply (world_ok_same (on_handle id cancel_token w)); [done..|]. eapply handle_step_ok; [exact Hw|done..|].
    intros h Hh Hok. apply (task_ok_move w _ _ h); [done|apply Hok|apply (to_body _ _ _ Hok)|done..].
  - unfold run_escalation. destruct (escalations w !! i) as [[id|id pids|]|]; [| |done..];
      (destruct (handles w !! id) as [h|]; [|done]).
    + destruct (is_terminal (th_status h)); [by apply (world_ok_same w)|].
      destruct (th_pid_slot h); by apply (world_ok_same w).
    + by apply (world_ok_same w).
Qed.

(** ** Claims *)

(** A status moves on: from pending to running, and from there once, to a terminal one. *)
Definition moves_on (s s' : TaskStatus) : Prop :=
  s' = s \/ (s = Pending /\ s' = Running) \/ (s = Running /\ is_terminal s' = true).

(** A run in which every event is possible where it happens. *)
Fixpoint events_ok `{!HashOrder} (w : world) (es : list event) : Prop :=
  match es with
  | [] => True
  | e :: es' => event_ok w e /\ events_ok (step e w) es'
  end.

Lemma run_ok `{!HashOrder} es w : world_ok w -> events_ok w es -> world_ok (run es w).
Proof.
  revert w. induction es as [|e es IH]; intros w Hw; simpl; [done|]. intros [He Hes]. apply IH; [|done]. by apply step_ok.
Qed.

Lemma empty_world_ok : world_ok empty_world.
Proof. split; simpl; [by intros id h ?%lookup_empty_Some|set_solver|done|]. vm_compute. lia. Qed.

Lemma evict_same_handles `{!HashOrder} w : handles (evict_over_cap w) = handles w.
Proof. apply evict_fields. Qed.

Lemma step_status `{!HashOrder} e w id h :
  world_ok w -> event_ok w e -> handles w !! id = Some h ->
  exists h', handles (step e w) !! id = Some h' /\ moves_on (th_status h) (th_status h').
Proof.
  intros Hw He Hid.
  assert (forall f j, (j = id -> moves_on (th_status h) (th_status (f h))) ->
    exists h', alter f j (handles w) !! id = Some h' /\ moves_on (th_status h) (th_status h')) as Halter.
  { intros f j Hm. destruct (decide (j = id)) as [->|Hne].
    - exists (f h). rewrite lookup_alter_eq, Hid. auto.
    - exists h. rewrite lookup_alter_ne by done. split; [done|by left]. }
  assert (exists h', handles w !! id = Some h' /\ moves_on (th_status h) (th_status h')) as Hstay
    by (exists h; split; [done|by left]).
  destruct e as [j kind session created|j kind session created result terminal|j s|j|j|i]; simpl in *.
  - exists h. rewrite lookup_insert_ne by congruence. split; [done|by left].
  - exists h. rewrite lookup_insert_ne by (destruct He; congruence). split; [done|by left].
  - unfold run_body. destruct (bodies w !! j) as [p|] eqn:Hp; [|done].
    assert (j = id -> body_fits p (th_status h)) as Hfit.
    { intros ->. pose proof (to_body _ _ _ (wk_tasks _ Hw _ _ Hid)) as Hb. by rewrite Hp in Hb. }
    destruct p, s as [|pid|pid|json|st]; try done; simpl; apply Halter; intros Hj; specialize (Hfit Hj); simpl in Hfit;
      try (by left).
    + unfold set_running. rewrite Hfit. right; left. done.
    + unfold set_terminal. rewrite Hfit. right; right. done.
  - unfold run_monitor. destruct (monitors w !! j) as [[seen|seen| | |]|]; try done.
    + destruct (handles w !! j) as [hj|]; [|done]. destruct (is_terminal (th_watch hj)); [done|]. by case_decide.
    + destruct (handles w !! j) as [hj|]; [|done]. by case_decide.
    + simpl. by rewrite evict_same_handles.
  - unfold cancel_task. case_decide; [|done]. simpl. apply Halter. by left.
  - unfold run_escalation. destruct (escalations w !! i) as [[x|x pids|]|]; try done; (destruct (handles w !! x) as [hx|]; [|done]).
    + destruct (is_terminal (th_status hx)); [done|]. by destruct (th_pid_slot hx).
    + done.
Qed.

Section claims.
Context `{!HashOrder}.

(** C31. Whatever bodies, monitors, cancellations and escalations do, in any order: a
    task's status goes from pending to running and once to a terminal one, and its watch
    channel agrees with it; an unfinished task is always listed; at most 200 finished tasks
    are kept once their monitors have evicted; and a task whose time is up is not listed. *)
Theorem task_registry_sound es :
  events_ok empty_world es ->
  let w := run es empty_world in
  (forall id h, handles w !! id = Some h ->
    th_watch h = th_status h /\ (is_terminal (th_status h) = false -> id ∈ tasks w) /\
    (monitors w !! id = Some Retired -> id ∉ tasks w) /\
    forall e, event_ok w e -> exists h', handles (step e w) !! id = Some h' /\ moves_on (th_status h) (th_status h')) /\
  size (sleepers w) <= TERMINAL_TASK_CAP.
Proof.
  intros Hes w. assert (world_ok w) as Hw by (apply run_ok; [apply empty_world_ok|done]).
  split; [|apply Hw]. intros id h Hh. destruct (wk_tasks _ Hw _ _ Hh) as [Ow _ Ol (p & Op & _ & _ & Or)].
  split_and!; [done|done| |].
  - intros Hp. apply Or. congruence.
  - intros e He. by apply step_status.
Qed.

Lemma run_monitor_status w id h :
  handles w !! id = Some h -> exists h', handles (run_monitor id w) !! id = Some h' /\ h' = h.
Proof.
  intros Hh. unfold run_monitor. destruct (monitors w !! id) as [[seen|seen| | |]|]; rewrite ?Hh; eauto.
  - destruct (is_terminal (th_watch h)); [eauto|]. case_decide; eauto.
  - case_decide; eauto.
  - simpl. rewrite evict_same_handles. eauto.
Qed.

(** How many steps a monitor of a finished task has left. *)
Definition steps_left (p : monitor_phase) : nat :=
  match p with Awaiting _ => 4 | Watching _ => 3 | Evicting => 2 | Sleeping => 1 | Retired => 0 end.

Lemma monitor_progress w id h p :
  world_ok w -> handles w !! id = Some h -> is_terminal (th_status h) = true -> monitors w !! id = Some p ->
  exists p', monitors (run_monitor id w) !! id = Some p' /\ steps_left p' <= steps_left p - 1.
Proof.
  intros Hw Hh Ht Hp. destruct (wk_tasks _ Hw _ _ Hh) as [Ow _ _ (p' & Op & _ & Oa & _)].
  rewrite Hp in Op. injection Op as <-. unfold run_monitor. rewrite Hp, Hh, Ow.
  destruct p as [seen|seen| | |]; simpl in *.
  - rewrite Ht. simpl. rewrite lookup_insert_eq. eexists; split; [done|simpl; lia].
  - rewrite decide_False by congruence. simpl. rewrite lookup_insert_eq. eexists; split; [done|simpl; lia].
  - rewrite lookup_insert_eq. eexists; split; [done|simpl; lia].
  - rewrite lookup_insert_eq. eexists; split; [done|simpl; lia].
  - rewrite Hp. eexists; split; [done|simpl; lia].
Qed.

Lemma monitor_finishes n w id h p :
  world_ok w -> handles w !! id = Some h -> is_terminal (th_status h) = true -> monitors w !! id = Some p ->
  steps_left p <= n -> monitors (run (replicate n (EMonitor id)) w) !! id = Some Retired.
Proof.
  revert w h p. induction n as [|n IH]; intros w h p Hw Hh Ht Hp Hn.
  - destruct p; simpl in *; [lia..|done].
  - destruct (monitor_progress w id h p Hw Hh Ht Hp) as (p' & Hp' & Hlt).
    destruct (run_monitor_status w id h Hh) as (h' & Hh' & ->). cbn [replicate].
    apply (IH (run_monitor id w) h p'); [by apply run_monitor_ok|done..|lia].
Qed.

(** A finished task is retired: in any reachable state, four steps of its own
    monitor take it off the list. *)
Theorem finished_task_retired es id h :
  events_ok empty_world es -> handles (run es empty_world) !! id = Some h -> is_terminal (th_status h) = true ->
  id ∉ tasks (run (replicate 4 (EMonitor id)) (run es empty_world)).
Proof.
  intros Hes Hh Ht. set (w := run es empty_world) in *.
  assert (world_ok w) as Hw by (apply run_ok; [apply empty_world_ok|done]).
  destruct (wk_tasks _ Hw _ _ Hh) as [_ _ _ (p & Op & _ & _ & _)].
  assert (monitors (run (replicate 4 (EMonitor id)) w) !! id = Some Retired) as Hr.
  { eapply monitor_finishes; [done..|]. destruct p; simpl; lia. }
  assert (world_ok (run (replicate 4 (EMonitor id)) w)) as Hw' by (apply run_ok; [done|by repeat split]).
  assert (exists h', handles (run (replicate 4 (EMonitor id)) w) !! id = Some h') as [h' Hh'].
  { apply not_eq_None_Some. intros Hn. destruct (wk_fresh _ Hw' _ Hn) as [_ ?]. congruence. }
  destruct (wk_tasks _ Hw' _ _ Hh') as [_ _ _ (p' & Op' & _ & _ & Or)]. apply Or. congruence.
Qed.
End claims.

#[local] Instance demo_order : HashOrder := {| iterate := elements; iterate_all := fun _ => reflexivity _ |}.

Definition demo_events : list event :=
  [ESpawn "t" "shell" "s" 1; EMonitor "t"; EBody "t" BStart; ETerminal "u" "execute_tool:Read" "s" 2 None Cancelled;
   EMonitor "t"; EBody "t" (BReturn (Completed (Some 0%Z)))].

Lemma demo_events_ok : events_ok empty_world demo_events.
Proof. vm_compute. repeat split. Qed.

Lemma task_registry_sound_witness :
  events_ok empty_world demo_events /\ size (sleepers (run demo_events empty_world)) <= TERMINAL_TASK_CAP.
Proof. split; [exact demo_events_ok|]. exact (proj2 (task_registry_sound demo_events demo_events_ok)). Defined.

Lemma finished_task_retired_witness :
  "t" ∈ tasks (run demo_events empty_world) /\
  "t" ∉ tasks (run (replicate 4 (EMonitor "t")) (run demo_events empty_world)).
Proof.
  split; [by_decide|]. eapply (finished_task_retired demo_events "t"); [exact demo_events_ok|vm_compute; reflexivity|done].
Defined.

(** The escalation after a cancel sends SIGKILL to the pids it sent SIGTERM to two
    seconds before, although the task has reported one of them gone since and the number
    may be another process's by then. *)
Theorem escalation_kills_departed_pid :
  exists es, events_ok empty_world es /\
  let w := run es empty_world in
  (th_pid_slot <$> handles w !! "t") = Some [42%N] /\
  let w' := run_escalation 0 w in
  (41%N, SIGKILL) ∈ signals w' /\ (42%N, SIGKILL) ∉ signals w'.
Proof.
  exists [ESpawn "t" "shell" "s" 1; EBody "t" BStart; EBody "t" (BPid 41); ECancel "t"; EEscalation 0;
          EBody "t" (BPidDone 41); EBody "t" (BPid 42)].
  split; [vm_compute; repeat split|]. split; [vm_compute; reflexivity|].
  split; [by_decide|]. vm_compute. intros H. repeat (apply elem_of_cons in H as [H|H]; [discriminate H|]). by apply not_elem_of_nil in H.
Qed.
