(* ===== verification/TaskOffsets.v ===== *)
(** * The offset of applied input

    [AppliedOffset] and [TaskChannel::acknowledge_input] of
    [src/packages/tddy-task/src/task.rs]: writers of a terminal's input record how far
    they got, keeping the maximum, and publish it to the readers of its output. Each
    atomic access is one step, so that any number of writers interleave; a weak
    exchange may fail for no reason. *)

From S2P Require Import Prelude.

(** Where a call is: before its load, before an exchange from [cur], between the record
    that advanced and the read that is published, before the publication, returned. *)
Inductive call_phase := Load | Exchange (cur : N) | Read | Publish (v : N) | Returned (advanced : bool).

(** A call of [acknowledge_input], with the value its exchange replaced. *)
Record ack_call := mkAck { ak_offset : N; ak_phase : call_phase; ak_replaced : option N }.

Record channel := mkChannel { applied : N; acked : N; calls : list ack_call }.

Definition start_channel (offsets : list N) : channel := mkChannel 0 0 ((fun o => mkAck o Load None) <$> offsets).

(** One access of a call; [spurious] is whether a weak exchange fails although it need not. *)
Definition ack_step (spurious : bool) (c : ack_call) (applied acked : N) : ack_call * N * N :=
  let o := ak_offset c in
  let retry cur := if decide (o <= cur)%N then Returned false else Exchange cur in
  match ak_phase c with
  | Load => (mkAck o (retry applied) (ak_replaced c), applied, acked)
  | Exchange cur =>
      if decide (applied = cur /\ spurious = false) then (mkAck o Read (Some cur), o, acked)
      else (mkAck o (retry applied) (ak_replaced c), applied, acked)
  | Read => (mkAck o (Publish applied) (ak_replaced c), applied, acked)
  | Publish v => (mkAck o (Returned true) (ak_replaced c), applied, v)
  | Returned _ => (c, applied, acked)
  end.

Definition channel_step (ch : channel) (turn : nat * bool) : channel :=
  match calls ch !! turn.1 with
  | None => ch
  | Some c =>
      let '(c', applied', acked') := ack_step turn.2 c (applied ch) (acked ch) in
      mkChannel applied' acked' (<[turn.1 := c']> (calls ch))
  end.

Definition channel_run (turns : list (nat * bool)) (ch : channel) : channel := foldl channel_step ch turns.

(** ** What holds in every state *)

(** What a call knows, by where it is. *)
Definition call_ok (applied : N) (c : ack_call) : Prop :=
  match ak_phase c with
  | Load => ak_replaced c = None
  | Exchange cur => ak_replaced c = None /\ (cur < ak_offset c)%N
  | Read => (exists old, ak_replaced c = Some old /\ (old < ak_offset c)%N) /\ (ak_offset c <= applied)%N
  | Publish v => (exists old, ak_replaced c = Some old /\ (old < ak_offset c)%N) /\ (ak_offset c <= v <= applied)%N
  | Returned true => (exists old, ak_replaced c = Some old /\ (old < ak_offset c)%N) /\ (ak_offset c <= applied)%N
  | Returned false => ak_replaced c = None /\ (ak_offset c <= applied)%N
  end.

Record channel_ok (offsets : list N) (ch : channel) : Prop := {
  ch_calls : Forall (call_ok (applied ch)) (calls ch);
  ch_offsets : ak_offset <$> calls ch = offsets;
  ch_applied : applied ch = 0%N \/ applied ch ∈ offsets;
  ch_acked : (acked ch <= applied ch)%N
}.

Lemma call_ok_mono a a' c : (a <= a')%N -> call_ok a c -> call_ok a' c.
Proof.
  intros Ha. unfold call_ok. destruct (ak_phase c) as [|cur| |v|[]]; [done|done|..].
  - intros [? ?]. split; [done|lia].
  - intros [? ?]. split; [done|lia].
  - intros [? ?]. split; [done|lia].
  - intros [? ?]. split; [done|lia].
Qed.

(** One access: the value never goes down, and is the call's offset if it goes up. *)
Lemma ack_step_ok spurious c a k :
  call_ok a c -> (k <= a)%N ->
  let '(c', a', k') := ack_step spurious c a k in
  ak_offset c' = ak_offset c /\ call_ok a' c' /\ (a <= a')%N /\ (a' = a \/ a' = ak_offset c) /\ (k' <= a')%N.
Proof.
  intros Hc Hk. unfold ack_step. destruct (ak_phase c) as [|cur| |v|b] eqn:Hp; unfold call_ok in Hc; rewrite Hp in Hc.
  - split_and!; [done| |lia|by left|done]. unfold call_ok. simpl. case_decide; (split; [done|lia]).
  - destruct Hc as [Hr Hlt]. case_decide as Hx.
    + destruct Hx as [-> _]. split_and!; [done| |lia|by right|lia]. unfold call_ok. simpl. split; [by eexists|lia].
    + split_and!; [done| |lia|by left|done]. unfold call_ok. simpl. case_decide; (split; [done|lia]).
  - split_and!; [done| |lia|by left|done]. unfold call_ok. simpl. destruct Hc as [? ?]. split; [done|lia].
  - destruct Hc as [? ?]. split_and!; [done| |lia|by left|lia]. unfold call_ok. simpl. split; [done|lia].
  - split_and!; [done| |lia|by left|done]. unfold call_ok. rewrite Hp. done.
Qed.

Lemma channel_step_ok offsets ch turn :
  channel_ok offsets ch -> channel_ok offsets (channel_step ch turn) /\ (applied ch <= applied (channel_step ch turn))%N.
Proof.
  intros [Hc Ho Ha Hk]. unfold channel_step. destruct (calls ch !! turn.1) as [c|] eqn:Hi; [|split; [done|lia]].
  pose proof (Forall_lookup_1 _ _ _ _ Hc Hi) as Hci.
  pose proof (ack_step_ok turn.2 c _ _ Hci Hk) as Hs. destruct (ack_step turn.2 c (applied ch) (acked ch)) as [[c' a'] k'].
  destruct Hs as (Hoff & Hc' & Hle & Hval & Hk'). split; [|done]. split; simpl.
  - apply Forall_insert; [|done]. eapply Forall_impl; [exact Hc|]. intros x. by apply call_ok_mono.
  - rewrite list_fmap_insert, Hoff, Ho. apply list_insert_id. by rewrite <- Ho, list_lookup_fmap, Hi.
  - destruct Hval as [->| ->]; [done|]. right. rewrite <- Ho. apply list_elem_of_fmap. exists c.
    split; [done|by eapply list_elem_of_lookup_2].
  - done.
Qed.

Lemma channel_run_ok offsets turns ch : channel_ok offsets ch -> channel_ok offsets (channel_run turns ch).
Proof. revert ch. induction turns as [|t turns IH]; intros ch Hch; [done|]. apply IH. by apply channel_step_ok. Qed.

Lemma start_channel_ok offsets : channel_ok offsets (start_channel offsets).
Proof.
  split; simpl; [|by rewrite <- list_fmap_compose, list_fmap_id|by left|lia].
  rewrite Forall_fmap. by apply Forall_true.
Qed.

(** However calls of [acknowledge_input] interleave: the offset applied never goes
    down, is the offset of one of the calls, and is at least that of every call that has
    returned, so the largest of all once they all have; a call answers true exactly when it
    raised it; and what is published never exceeds it. *)
Theorem applied_offset_is_maximum offsets turns :
  let ch := channel_run turns (start_channel offsets) in
  (applied ch = 0%N \/ applied ch ∈ offsets) /\ (acked ch <= applied ch)%N /\
  (forall turn, (applied ch <= applied (channel_step ch turn))%N) /\
  Forall (fun c => forall b, ak_phase c = Returned b ->
    (ak_offset c <= applied ch)%N /\
    (b = true <-> exists old, ak_replaced c = Some old /\ (old < ak_offset c)%N)) (calls ch) /\
  (Forall (fun c => exists b, ak_phase c = Returned b) (calls ch) -> applied ch = foldr N.max 0%N offsets).
Proof.
  intros ch. assert (channel_ok offsets ch) as Hch by apply channel_run_ok, start_channel_ok.
  pose proof Hch as [Hc Ho Ha Hk].
  assert (Forall (fun c => forall b, ak_phase c = Returned b ->
    (ak_offset c <= applied ch)%N /\
    (b = true <-> exists old, ak_replaced c = Some old /\ (old < ak_offset c)%N)) (calls ch)) as Hret.
  { eapply Forall_impl; [exact Hc|]. intros c Hok b Hb. unfold call_ok in Hok. rewrite Hb in Hok.
    destruct b, Hok as [H1 H2]; [done|]. split; [done|]. split; [done|]. intros (old & Hold & _). congruence. }
  split_and!; [done|done|by intros; eapply channel_step_ok|done|].
  intros Hall. assert (Forall (fun o => (o <= applied ch)%N) offsets) as Hle.
  { rewrite <- Ho, Forall_fmap, Forall_forall. intros c Hin. rewrite Forall_forall in Hret, Hall.
    destruct (Hall _ Hin) as [b Hb]. by apply (Hret _ Hin b). }
  revert Ha Hle. generalize (applied ch). clear. intros a Ha Hle. apply N.le_antisymm.
  - destruct Ha as [->|Ha]; [lia|]. clear Hle. induction Ha as [a l|a x l Hy IH]; simpl; lia.
  - clear Ha. induction Hle; simpl; lia.
Qed.

(** What is published may go back and stay behind: a call that was overtaken between
    its read and its publication puts the smaller offset back, and the readers of the
    channel are left with less than was applied. *)
Theorem published_offset_regresses :
  exists turns, let ch := channel_run turns (start_channel [5%N; 9%N]) in
  Forall (fun c => ak_phase c = Returned true) (calls ch) /\ applied ch = 9%N /\ acked ch = 5%N.
Proof.
  exists [(0, false); (0, false); (0, false); (1, false); (1, false); (1, false); (1, false); (0, false)].
  vm_compute. repeat split; repeat constructor.
Qed.
