(* ===== verification/Credentials.v ===== *)
(** * Credential records and what seals them

    The data of [src/packages/tddy-credentials/src/record.rs], the hex form and the
    key expansion of [kdf.rs], and, as classes, the primitives both credential crates
    take from elsewhere: an AEAD and a keyed hash. [SealPrims] states what decryption
    documents; [IdealSeals] adds what only holds up to breaking them, and is asked for
    by the theorems about keys that must not open something. *)

From Stdlib Require Import Ascii Strings.Byte.
From stdpp Require Import countable.
From S2P Require Import Prelude Text Framing.

(** ** Records *)

Record CredentialRecord := mkCredential {
  cr_provider : string;
  cr_account : string;
  cr_label : string;
  cr_secret : string;
  cr_metadata : gmap string string;
  cr_updated_at : N;
  cr_version : N;
}.

Record Tombstone := mkTombstone {
  tb_provider : string;
  tb_account : string;
  tb_version : N;
  tb_deleted_at : N;
}.

Inductive VaultEntry := EntryRecord (r : CredentialRecord) | EntryTombstone (t : Tombstone).

#[global] Instance CredentialRecord_eq_dec : EqDecision CredentialRecord.
Proof. solve_decision. Defined.
#[global] Instance Tombstone_eq_dec : EqDecision Tombstone.
Proof. solve_decision. Defined.
#[global] Instance VaultEntry_eq_dec : EqDecision VaultEntry.
Proof. solve_decision. Defined.

Definition entry_provider (e : VaultEntry) : string :=
  match e with EntryRecord r => cr_provider r | EntryTombstone t => tb_provider t end.
Definition entry_account (e : VaultEntry) : string :=
  match e with EntryRecord r => cr_account r | EntryTombstone t => tb_account t end.
Definition entry_version (e : VaultEntry) : N :=
  match e with EntryRecord r => cr_version r | EntryTombstone t => tb_version t end.
Definition written_at (e : VaultEntry) : N :=
  match e with EntryRecord r => cr_updated_at r | EntryTombstone t => tb_deleted_at t end.
Definition entry_record (e : VaultEntry) : option CredentialRecord :=
  match e with EntryRecord r => Some r | EntryTombstone _ => None end.

#[global] Instance CredentialRecord_countable : Countable CredentialRecord.
Proof.
  apply (inj_countable'
    (fun r => (cr_provider r, cr_account r, cr_label r, cr_secret r, cr_metadata r, cr_updated_at r, cr_version r))
    (fun '(p, a, l, s, m, u, v) => mkCredential p a l s m u v)).
  by intros [].
Defined.

#[global] Instance Tombstone_countable : Countable Tombstone.
Proof.
  apply (inj_countable' (fun t => (tb_provider t, tb_account t, tb_version t, tb_deleted_at t))
    (fun '(p, a, v, d) => mkTombstone p a v d)).
  by intros [].
Defined.

#[global] Instance VaultEntry_countable : Countable VaultEntry.
Proof.
  apply (inj_countable' (fun e => match e with EntryRecord r => inl r | EntryTombstone t => inr t end)
    (fun s => match s with inl r => EntryRecord r | inr t => EntryTombstone t end)).
  by intros [].
Defined.

(** The slot of a record or of its deletion. *)
Record RecordKey := mkRecordKey { rk_provider : string; rk_account : string }.

#[global] Instance RecordKey_eq_dec : EqDecision RecordKey.
Proof. solve_decision. Defined.
#[global] Instance RecordKey_countable : Countable RecordKey.
Proof.
  apply (inj_countable' (fun k => (rk_provider k, rk_account k)) (fun p => mkRecordKey p.1 p.2)).
  by intros [].
Defined.

Definition record_key_of (e : VaultEntry) : RecordKey := mkRecordKey (entry_provider e) (entry_account e).

(** ** Vault contents *)

(** What a vault says of each slot. *)
Notation slots := (gmap RecordKey VaultEntry).

(** The entries of a vault, as it lists them. *)
Definition lists (l : list VaultEntry) (v : slots) : Prop :=
  NoDup (record_key_of <$> l) /\ v = list_to_map ((fun e => (record_key_of e, e)) <$> l).

Definition keyed (v : slots) : Prop := forall k e, v !! k = Some e -> record_key_of e = k.

Lemma lists_lookup l v e : lists l v -> v !! record_key_of e =
  snd <$> list_find (fun x => entry_provider x = entry_provider e /\ entry_account x = entry_account e) l.
Proof.
  intros [Hnd ->]. induction l as [|x l IH]; [done|].
  apply NoDup_cons in Hnd as [_ Hnd]. change (list_to_map ((fun e => (record_key_of e, e)) <$> x :: l) : slots)
    with (<[record_key_of x := x]> (list_to_map ((fun e => (record_key_of e, e)) <$> l)) : slots). simpl list_find.
  case_decide as E.
  - replace (record_key_of e) with (record_key_of x) by (unfold record_key_of; by destruct E as [-> ->]).
    by rewrite lookup_insert_eq.
  - rewrite lookup_insert_ne by (intros [= ? ?]; by apply E).
    rewrite (IH Hnd). by destruct (list_find _ l) as [[]|].
Qed.

Lemma lists_pairs_fst (l : list VaultEntry) : ((fun e => (record_key_of e, e)) <$> l).*1 = record_key_of <$> l.
Proof. rewrite <- list_fmap_compose. done. Qed.

Lemma lists_spec l v :
  lists l v <-> NoDup (record_key_of <$> l) /\ forall k e, v !! k = Some e <-> e ∈ l /\ record_key_of e = k.
Proof.
  assert (forall k e, NoDup (record_key_of <$> l) ->
    (list_to_map ((fun e => (record_key_of e, e)) <$> l) : slots) !! k = Some e <-> e ∈ l /\ record_key_of e = k) as Hl.
  { intros k e Hnd. rewrite <- elem_of_list_to_map by (by rewrite lists_pairs_fst).
    rewrite list_elem_of_fmap. split; [intros (x & E & Hx); by injection E as -> ->|].
    intros [Hx <-]. by exists e. }
  split.
  - intros [Hnd ->]. split; [done|]. intros k e. by apply Hl.
  - intros [Hnd Hv]. split; [done|]. apply map_eq. intros k. apply option_eq. intros e. rewrite Hv. symmetry. by apply Hl.
Qed.

Lemma lists_elem l v e : lists l v -> e ∈ l <-> v !! record_key_of e = Some e.
Proof. intros [_ Hv]%lists_spec. rewrite Hv. tauto. Qed.

Lemma lists_keyed l v : lists l v -> keyed v.
Proof. intros [_ Hv]%lists_spec k e. rewrite Hv. tauto. Qed.

Lemma lists_perm l l' v : l ≡ₚ l' -> lists l v -> lists l' v.
Proof.
  intros Hp [Hnd Hv]%lists_spec. apply lists_spec. split; [by rewrite <- Hp|]. intros k e. by rewrite Hv, Hp.
Qed.

(** An entry in place of the one its slot held. *)
Lemma lists_replace l v e :
  lists l v -> lists (filter (fun x => record_key_of x <> record_key_of e) l ++ [e]) (<[record_key_of e := e]> v).
Proof.
  intros [Hnd Hv]%lists_spec. apply lists_spec. split.
  - rewrite fmap_app. apply NoDup_app. split_and!; [| |apply NoDup_singleton].
    + eapply sublist_NoDup; [exact Hnd|]. apply fmap_sublist, sublist_filter.
    + intros k (x & -> & [Hx _]%list_elem_of_filter)%list_elem_of_fmap ?%list_elem_of_singleton. done.
  - intros k x. rewrite elem_of_app, list_elem_of_filter, list_elem_of_singleton, lookup_insert_Some, Hv. split.
    + intros [[<- <-]|[Hk [Hx <-]]]; [by split; [right|]|]. split; [left|done]. by split.
    + intros [[[Hk Hx]| ->] <-]; [right|by left]. split; [by intros ?|done].
Qed.

(** ** Hex *)

Definition hex_digit (n : N) : ascii := ascii_of_N (if (n <? 10)%N then 48 + n else 87 + n).

(** [char::to_digit(16)]. *)
Definition to_digit16 (c : ascii) : option N :=
  let n := N_of_ascii c in
  if ((48 <=? n) && (n <=? 57))%N then Some (n - 48)%N
  else if ((97 <=? n) && (n <=? 102))%N then Some (n - 87)%N
  else if ((65 <=? n) && (n <=? 70))%N then Some (n - 55)%N
  else None.

Fixpoint to_hex (b : bytes) : string :=
  match b with
  | [] => ""
  | x :: b => String (hex_digit (Byte.to_N x / 16)) (String (hex_digit (Byte.to_N x mod 16)) (to_hex b))
  end.

Fixpoint from_hex (s : string) : option bytes :=
  match s with
  | "" => Some []
  | String h (String l s) =>
      high ← to_digit16 h;
      low ← to_digit16 l;
      byte ← Byte.of_N (high * 16 + low);
      rest ← from_hex s;
      Some (byte :: rest)
  | String _ "" => None
  end.

Lemma to_digit16_hex n : (n < 16)%N -> to_digit16 (hex_digit n) = Some n.
Proof.
  intros H. unfold hex_digit. destruct (N.ltb_spec n 10); unfold to_digit16;
    rewrite N_ascii_embedding by lia.
  - replace ((48 <=? 48 + n) && (48 + n <=? 57))%N with true
      by (symmetry; apply andb_true_intro; split; apply N.leb_le; lia). f_equal. lia.
  - replace ((48 <=? 87 + n) && (87 + n <=? 57))%N with false
      by (symmetry; apply andb_false_intro2, N.leb_gt; lia).
    replace ((97 <=? 87 + n) && (87 + n <=? 102))%N with true
      by (symmetry; apply andb_true_intro; split; apply N.leb_le; lia). f_equal. lia.
Qed.

Lemma from_to_hex b : from_hex (to_hex b) = Some b.
Proof.
  induction b as [|x b IH]; simpl; [done|].
  pose proof (Byte.to_N_bounded x).
  rewrite !to_digit16_hex by (try apply N.mod_lt; try apply N.Div0.div_lt_upper_bound; lia). simpl.
  replace (Byte.to_N x / 16 * 16 + Byte.to_N x mod 16)%N with (Byte.to_N x)
    by (pose proof (N.div_mod' (Byte.to_N x) 16); lia).
  rewrite Byte.of_to_N. simpl. by rewrite IH.
Qed.

#[global] Instance to_hex_inj : Inj (=) (=) to_hex.
Proof. intros a b H. apply (f_equal from_hex) in H. rewrite !from_to_hex in H. by injection H. Qed.

Lemma to_hex_no_dot b : has_char "." (to_hex b) = false.
Proof.
  induction b as [|x b IH]; simpl; [done|].
  assert (forall n, (n < 16)%N -> bool_decide (hex_digit n = "."%char) = false) as Hd.
  { intros n Hn. apply bool_decide_eq_false. intros E.
    pose proof (to_digit16_hex n Hn) as H. by rewrite E in H. }
  pose proof (Byte.to_N_bounded x).
  rewrite !Hd, IH by (try apply N.mod_lt; try apply N.Div0.div_lt_upper_bound; lia). done.
Qed.

(** ** Primitives *)

(** ChaCha20-Poly1305 by key, nonce, message and associated data, and HMAC-SHA256. *)
Class SealPrims := {
  aead_encrypt : bytes -> bytes -> bytes -> bytes -> option bytes;
  aead_decrypt : bytes -> bytes -> bytes -> bytes -> option bytes;
  hmac_sha256 : bytes -> bytes -> bytes;
  aead_open : forall k n m a c, aead_encrypt k n m a = Some c -> aead_decrypt k n c a = Some m;
  aead_fits : forall k n m a, (N.of_nat (length m) < 4294967296)%N -> is_Some (aead_encrypt k n m a);
}.

(** What holds unless a primitive is broken: a ciphertext opens under the key and the
    associated data it was made with and no other; a keyed hash names its message and,
    among keys as long as a digest, its key. *)
Class IdealSeals `{SealPrims} := {
  digest : bytes -> Prop;
  hmac_digest : forall k m, digest (hmac_sha256 k m);
  hmac_message : forall k m m', hmac_sha256 k m = hmac_sha256 k m' -> m = m';
  hmac_key : forall k k' m m',
    digest k -> digest k' -> hmac_sha256 k m = hmac_sha256 k' m' -> k = k' /\ m = m';
  aead_bound : forall k n m a c k' n' a' m',
    aead_encrypt k n m a = Some c -> aead_decrypt k' n' c a' = Some m' -> k' = k /\ a' = a;
}.

Section derivation.
Context `{SealPrims}.

Definition hkdf_expand (prk info : bytes) : bytes := hmac_sha256 prk (info ++ [x01]).

Definition hkdf_sha256 (salt ikm info : bytes) : bytes := hkdf_expand (hmac_sha256 salt ikm) info.

Definition keyed_name (key : bytes) (parts : list bytes) : string := to_hex (hmac_sha256 key (concat parts)).

Context `{!IdealSeals}.

Lemma hkdf_expand_inj prk prk' info info' :
  digest prk -> digest prk' -> hkdf_expand prk info = hkdf_expand prk' info' -> prk = prk' /\ info = info'.
Proof. intros H1 H2 [-> E]%hmac_key; [|done..]. by apply app_inj_tail in E as [-> _]. Qed.

Lemma hkdf_sha256_inj salt ikm ikm' info info' :
  hkdf_sha256 salt ikm info = hkdf_sha256 salt ikm' info' -> ikm = ikm' /\ info = info'.
Proof. intros [->%hmac_message ->]%hkdf_expand_inj; [done| |]; apply hmac_digest. Qed.

Lemma keyed_name_inj key parts parts' : keyed_name key parts = keyed_name key parts' -> concat parts = concat parts'.
Proof. intros ?%to_hex_inj. by eapply hmac_message. Qed.
End derivation.

(** ** An instance *)

#[global] Instance byte_countable : Countable byte.
Proof. apply (inj_countable Byte.to_N Byte.of_N). apply Byte.of_to_N. Defined.

Fixpoint pos_to_bytes (p : positive) : bytes :=
  match p with
  | xH => []
  | xO p => x00 :: pos_to_bytes p
  | xI p => x01 :: pos_to_bytes p
  end.

Fixpoint pos_of_bytes (b : bytes) : positive :=
  match b with
  | [] => xH
  | x00 :: b => xO (pos_of_bytes b)
  | _ :: b => xI (pos_of_bytes b)
  end.

Lemma pos_of_to_bytes p : pos_of_bytes (pos_to_bytes p) = p.
Proof. induction p as [p IH|p IH|]; simpl; by rewrite ?IH. Qed.

(** Any countable value as bytes, and back. *)
Definition pack {A} `{Countable A} (a : A) : bytes := pos_to_bytes (encode a).
Definition unpack {A} `{Countable A} (b : bytes) : option A := decode (pos_of_bytes b).

Lemma unpack_pack {A} `{Countable A} (a : A) : unpack (pack a) = Some a.
Proof. unfold unpack, pack. by rewrite pos_of_to_bytes, decode_encode. Qed.

#[global] Instance pack_inj {A} `{Countable A} : Inj (=) (=) (pack (A := A)).
Proof. intros a b E. apply (f_equal (unpack (A := A))) in E. rewrite !unpack_pack in E. by injection E. Qed.

(** A ciphertext that spells out what it was made from. *)
Definition open_pack (k n c a : bytes) : option bytes :=
  '(k', n', m, a') ← unpack (A := bytes * bytes * bytes * bytes) c;
  if decide (k' = k /\ n' = n /\ a' = a) then Some m else None.

Definition packed_prims : SealPrims.
Proof.
  refine {|
    aead_encrypt k n m a := Some (pack (k, n, m, a));
    aead_decrypt := open_pack;
    hmac_sha256 k m := pack (k, m);
  |}.
  - abstract (intros k n m a c [= <-]; unfold open_pack; rewrite unpack_pack; cbn; by rewrite decide_True).
  - abstract (intros; by eexists).
Defined.

Definition packed_ideal : @IdealSeals packed_prims.
Proof.
  refine {| digest _ := True |}.
  - abstract done.
  - abstract (intros k m m' E; cbn in E; apply (inj pack) in E; by injection E).
  - abstract (intros k k' m m' _ _ E; cbn in E; apply (inj pack) in E; by injection E).
  - abstract (intros k n m a c k' n' a' m' E D; cbn in E, D; injection E as <-; unfold open_pack in D;
      rewrite unpack_pack in D; cbn in D; case_decide as Hd; [by destruct Hd as (-> & _ & ->)|done]).
Defined.
