(* ===== verification/CredSync.v ===== *)
(** * Credential sync between daemons

    [src/packages/tddy-credential-sync/src]: the journal ([journal.rs]), the group
    proof ([transport.rs]), the transport key's agreement ([transport_key.rs]) and the
    engine ([engine.rs]) that admits a peer, wraps what it lacks, and reconciles what
    comes back. The peer's answers, the identity verifier, the curve and [serde_json]
    are parameters; every payload handed to the transport is kept in a log. *)

From Stdlib Require Import Ascii Strings.Byte.
From stdpp Require Import countable.
From S2P Require Import Prelude Text Framing Utf8 Credentials.

Local Open Scope io_scope.

(** ** The journal *)

Inductive RefusalReason := GroupSecretMismatch | SignatureInvalid | UnknownIdentity.

Inductive SyncStatus :=
| SyncPending | SyncSent | SyncAcknowledged | SyncRefused (r : RefusalReason) | SyncConflict | SyncUndeliverable.

#[global] Instance RefusalReason_eq_dec : EqDecision RefusalReason.
Proof. solve_decision. Defined.
#[global] Instance SyncStatus_eq_dec : EqDecision SyncStatus.
Proof. solve_decision. Defined.

Record JournalEntry := mkJournalEntry {
  je_peer : string;
  je_record : RecordKey;
  je_status : SyncStatus;
  je_at : N;
}.

Notation SyncJournal := (gmap (string * RecordKey) JournalEntry).

Definition note (peer : string) (record : RecordKey) (status : SyncStatus) (at_ : N) (j : SyncJournal) : SyncJournal :=
  <[(peer, record) := mkJournalEntry peer record status at_]> j.

Definition journal_status (peer : string) (record : RecordKey) (j : SyncJournal) : option SyncStatus :=
  je_status <$> j !! (peer, record).

(** The order of the map's keys. *)
Definition line_le (x y : (string * RecordKey) * JournalEntry) : bool :=
  let key k := [k.1; rk_provider k.2; rk_account k.2] in
  let fix le a b :=
    match a, b with
    | s :: a, t :: b => if decide (s = t) then le a b else bool_decide (String.le s t)
    | _, _ => true
    end in
  le (key x.1) (key y.1).

Definition journal_lines (j : SyncJournal) : list ((string * RecordKey) * JournalEntry) := sort_by line_le (map_to_list j).

Definition journal_entries (j : SyncJournal) : list JournalEntry := snd <$> journal_lines j.

Definition for_record (record : RecordKey) (j : SyncJournal) : list JournalEntry :=
  snd <$> filter (fun line => line.1.2 = record) (journal_lines j).

Inductive AccountSyncSummary := Synced | SumPending | SumUndeliverable | SumConflict | SumRefused.

#[global] Instance AccountSyncSummary_eq_dec : EqDecision AccountSyncSummary.
Proof. solve_decision. Defined.

Definition summary_of (status : SyncStatus) : AccountSyncSummary :=
  match status with
  | SyncRefused _ => SumRefused
  | SyncConflict => SumConflict
  | SyncUndeliverable => SumUndeliverable
  | SyncPending | SyncSent => SumPending
  | SyncAcknowledged => Synced
  end.

(** The derived [Ord]: the order of the constructors. *)
Definition severity (s : AccountSyncSummary) : nat :=
  match s with Synced => 0 | SumPending => 1 | SumUndeliverable => 2 | SumConflict => 3 | SumRefused => 4 end.

(** [Iterator::max]: the last of the greatest. *)
Fixpoint max_summary (l : list AccountSyncSummary) : option AccountSyncSummary :=
  match l with
  | [] => None
  | s :: l =>
      match max_summary l with
      | Some t => Some (if decide (severity t < severity s) then s else t)
      | None => Some s
      end
  end.

Definition account_summary (record : RecordKey) (j : SyncJournal) : option AccountSyncSummary :=
  max_summary ((fun line => summary_of (je_status line)) <$> for_record record j).

(** ** What crosses the transport *)

Record PeerAdvertisement := mkAd {
  ad_peer : string;
  ad_signing_key_id : string;
  ad_transport_public_key : bytes;
  ad_challenge : bytes;
  ad_group_proof : bytes;
}.

Record SignedAdvertisement := mkSignedAd { sa_advertisement : PeerAdvertisement; sa_signature : bytes }.

Record WrappedRecords := mkWrapped {
  wr_recipient : string;
  wr_sender_key : bytes;
  wr_nonce : bytes;
  wr_ciphertext : bytes;
}.

Record Ack := mkAckOf { ack_from : string; ack_accepted : list RecordKey; ack_superseded : list RecordKey }.

Inductive TransportError := NotConnected | PeerUnreachable (peer : string) | TransportIo (message : string).

Inductive SyncError :=
| NotConfigured
| SyncTransport (e : TransportError)
| Undecryptable
| Malformed (message : string).

(** ** Reconciliation *)

Inductive Reconciliation := TakeIncoming (conflicted : bool) | KeepLocal (conflicted : bool) | AlreadyConverged.

#[global] Instance Reconciliation_eq_dec : EqDecision Reconciliation.
Proof. solve_decision. Defined.

Definition reconcile (local : option VaultEntry) (incoming : VaultEntry) : Reconciliation :=
  match local with
  | None => TakeIncoming false
  | Some local =>
      if decide (local = incoming) then AlreadyConverged
      else
        let conflicted :=
          match local, incoming with EntryRecord _, EntryRecord _ => true | _, _ => false end &&
          (entry_version local =? entry_version incoming)%N in
        match (written_at local ?= written_at incoming)%N with
        | Lt => TakeIncoming conflicted
        | Gt => KeepLocal conflicted
        | Eq =>
            match (entry_version local ?= entry_version incoming)%N with
            | Lt => TakeIncoming true
            | Gt => KeepLocal true
            | Eq => TakeIncoming true
            end
        end
  end.

Record ReceiveOutcome := mkOutcome { ro_retain : list VaultEntry; ro_ack : Ack }.

(** The loop of [receive] over the opened entries. *)
Fixpoint reconcile_all (local incoming : list VaultEntry) : list VaultEntry * list RecordKey * list RecordKey :=
  match incoming with
  | [] => ([], [], [])
  | e :: rest =>
      let here := snd <$> list_find (fun l => entry_provider l = entry_provider e /\ entry_account l = entry_account e) local in
      let '(retain, accepted, superseded) := reconcile_all local rest in
      match reconcile here e with
      | TakeIncoming _ => (e :: retain, record_key_of e :: accepted, superseded)
      | AlreadyConverged => (retain, record_key_of e :: accepted, superseded)
      | KeepLocal _ => (retain, accepted, record_key_of e :: superseded)
      end
  end.

(** ** The engine *)

(** The curve, the encodings and the identities. *)
Class SyncPorts := {
  x25519_public : bytes -> bytes;
  x25519_agree : bytes -> bytes -> bytes;
  ad_to_vec : PeerAdvertisement -> bytes;
  wire_to_vec : list VaultEntry -> bytes;
  wire_from_slice : bytes -> string + list VaultEntry;
  verify : string -> bytes -> bytes -> res RefusalReason bool;
  public_key_length : forall s, length (x25519_public s) = 32;
  agreement : forall a b, x25519_agree a (x25519_public b) = x25519_agree b (x25519_public a);
  wire_roundtrip : forall es, wire_from_slice (wire_to_vec es) = inr es;
}.

Section engine.
Context `{SealPrims, SyncPorts}.

Definition proof_for (secret : string) (challenge : bytes) : bytes := hmac_sha256 (text_bytes secret) challenge.

Definition verifies (secret : string) (challenge proof : bytes) : bool :=
  bool_decide (hmac_sha256 (text_bytes secret) challenge = proof).

Definition SHARED_SECRET_INFO : bytes := text_bytes "tddy-credential-sync/v1/transport-shared-secret".

Definition shared_secret (secret peer : bytes) : bytes := hkdf_expand (x25519_agree secret peer) SHARED_SECRET_INFO.

Record SyncEngine := mkSyncEngine {
  eng_group_secret : option string;
  eng_transport_key : bytes;
  eng_journal : SyncJournal;
  eng_acknowledged : gmap (string * RecordKey) N;
}.

Definition SyncEngine_new (group_secret : option string) (transport_key : bytes) : SyncEngine :=
  mkSyncEngine group_secret transport_key ∅ ∅.

Definition on_journal (f : SyncJournal -> SyncJournal) (e : SyncEngine) : SyncEngine :=
  mkSyncEngine (eng_group_secret e) (eng_transport_key e) (f (eng_journal e)) (eng_acknowledged e).

Definition admit_peer (e : SyncEngine) (ad : SignedAdvertisement) : res RefusalReason string :=
  let a := sa_advertisement ad in
  let? signed_in := verify (ad_signing_key_id a) (ad_to_vec a) (sa_signature ad) in
  if negb signed_in then Err SignatureInvalid
  else
    let? group_secret := ok_or (eng_group_secret e) GroupSecretMismatch in
    if negb (verifies group_secret (ad_challenge a) (ad_group_proof a)) then Err GroupSecretMismatch
    else Ok (ad_peer a).

Definition wrap_aad (recipient : string) (sender_key : bytes) : bytes := text_bytes recipient ++ sender_key.

Definition transport_public_key_of (a : PeerAdvertisement) : res SyncError bytes :=
  if decide (length (ad_transport_public_key a) = 32) then Ok (ad_transport_public_key a)
  else Err (Malformed (ad_peer a +:+ "'s advertised transport key is " +:+
                       pretty (N.of_nat (length (ad_transport_public_key a))) +:+ " bytes, not 32")).

(** Seal [entries] under a nonce the generator drew. *)
Definition wrap_for (e : SyncEngine) (nonce : bytes) (peer : string) (peer_public : bytes) (entries : list VaultEntry)
    : res SyncError WrappedRecords :=
  let key := shared_secret (eng_transport_key e) peer_public in
  let sender_public := x25519_public (eng_transport_key e) in
  match aead_encrypt key nonce (wire_to_vec entries) (wrap_aad peer sender_public) with
  | None => Panic
  | Some ciphertext => Ok (mkWrapped peer sender_public nonce ciphertext)
  end.

Definition open_sealed (key nonce ciphertext aad : bytes) : option bytes :=
  if decide (length nonce = 12) then aead_decrypt key nonce ciphertext aad else None.

Definition receive (e : SyncEngine) (payload : WrappedRecords) (local : list VaultEntry) : res SyncError ReceiveOutcome :=
  if decide (length (wr_sender_key payload) = 32) then
    let key := shared_secret (eng_transport_key e) (wr_sender_key payload) in
    let aad := wrap_aad (wr_recipient payload) (wr_sender_key payload) in
    match open_sealed key (wr_nonce payload) (wr_ciphertext payload) aad with
    | None => Err Undecryptable
    | Some plaintext =>
        match wire_from_slice plaintext with
        | inl message => Err (Malformed message)
        | inr wire =>
            let '(retain, accepted, superseded) := reconcile_all local wire in
            Ok (mkOutcome retain (mkAckOf "" accepted superseded))
        end
    end
  else Err Undecryptable.

Definition self_advertisement (e : SyncEngine) (group_secret : string) (challenge : bytes) : SignedAdvertisement :=
  mkSignedAd (mkAd "" "" (x25519_public (eng_transport_key e)) challenge (proof_for group_secret challenge)) [].

(** ** Publishing *)

(** The transport, with what it was handed; [net_advertise], [net_peers] and [net_answer] are
    what it says, the last by everything sent before, and [net_nonce] what the generator draws. *)
Record Net := mkNet {
  net_advertise : SignedAdvertisement -> res TransportError ();
  net_peers : list SignedAdvertisement;
  net_answer : list (string * WrappedRecords) -> string -> WrappedRecords -> res TransportError Ack;
  net_nonce : nat -> bytes;
}.

Definition note_all (peer : string) (entries : list VaultEntry) (status : SyncStatus) (now : N) (j : SyncJournal)
    : SyncJournal :=
  foldl (fun j entry => note peer (record_key_of entry) status now j) j entries.

(** The changed slots of a peer. *)
Definition unsent (e : SyncEngine) (peer : string) (entries : list VaultEntry) : list VaultEntry :=
  filter (fun entry => eng_acknowledged e !! (peer, record_key_of entry) <> Some (written_at entry)) entries.

(** One key of an answer: its line, and the write it settles. *)
Definition settle (peer : string) (to_send : list VaultEntry) (status : SyncStatus) (now : N)
    (e : SyncEngine) (key : RecordKey) : SyncEngine :=
  let e := on_journal (note peer key status now) e in
  match list_find (fun entry => record_key_of entry = key) to_send with
  | Some (_, entry) =>
      mkSyncEngine (eng_group_secret e) (eng_transport_key e) (eng_journal e)
        (<[(peer, key) := written_at entry]> (eng_acknowledged e))
  | None => e
  end.

Definition settle_ack (peer : string) (to_send : list VaultEntry) (now : N) (ack : Ack) (e : SyncEngine) : SyncEngine :=
  foldl (settle peer to_send SyncConflict now)
    (foldl (settle peer to_send SyncAcknowledged now) e (ack_accepted ack)) (ack_superseded ack).

(** The body of the loop for one advertisement. *)
Definition publish_to (net : Net) (entries : list VaultEntry) (now : N) (peer_ad : SignedAdvertisement)
    (e : SyncEngine) (sent : list (string * WrappedRecords))
    : res SyncError () * SyncEngine * list (string * WrappedRecords) :=
  match admit_peer e peer_ad with
  | Panic => (Panic, e, sent)
  | Err reason =>
      (Ok (), on_journal (note_all (ad_peer (sa_advertisement peer_ad)) entries (SyncRefused reason) now) e, sent)
  | Ok peer =>
      let to_send := unsent e peer entries in
      if decide (to_send = []) then (Ok (), e, sent)
      else
        match transport_public_key_of (sa_advertisement peer_ad) with
        | Panic => (Panic, e, sent)
        | Err err => (Err err, e, sent)
        | Ok peer_public =>
            match wrap_for e (net_nonce net (length sent)) peer peer_public to_send with
            | Panic => (Panic, e, sent)
            | Err err => (Err err, e, sent)
            | Ok payload =>
                let e := on_journal (note_all peer to_send SyncSent now) e in
                let sent' := sent ++ [(peer, payload)] in
                match net_answer net sent peer payload with
                | Panic => (Panic, e, sent')
                | Ok ack => (Ok (), settle_ack peer to_send now ack e, sent')
                | Err _ => (Ok (), on_journal (note_all peer to_send SyncUndeliverable now) e, sent')
                end
            end
        end
  end.

Fixpoint publish_loop (net : Net) (entries : list VaultEntry) (now : N) (ads : list SignedAdvertisement)
    (e : SyncEngine) (sent : list (string * WrappedRecords))
    : res SyncError () * SyncEngine * list (string * WrappedRecords) :=
  match ads with
  | [] => (Ok (), e, sent)
  | ad :: ads =>
      match publish_to net entries now ad e sent with
      | (Ok _, e, sent) => publish_loop net entries now ads e sent
      | failed => failed
      end
  end.

(** [challenge] is the 32 bytes drawn for the daemon's own advertisement. *)
Definition publish (net : Net) (entries : list VaultEntry) (now : N) (challenge : bytes) (e : SyncEngine)
    : res SyncError () * SyncEngine * list (string * WrappedRecords) :=
  match eng_group_secret e with
  | None => (Err NotConfigured, e, [])
  | Some group_secret =>
      match net_advertise net (self_advertisement e group_secret challenge) with
      | Panic => (Panic, e, [])
      | Err err => (Err (SyncTransport err), e, [])
      | Ok _ => publish_loop net entries now (net_peers net) e []
      end
  end.

(** A payload opens, as what was sealed, for the owner of the key it was sealed for. *)
Lemma receive_wrapped sender reader peer nonce es payload local :
  length nonce = 12 ->
  wrap_for sender nonce peer (x25519_public (eng_transport_key reader)) es = Ok payload ->
  receive reader payload local =
    Ok (let '(retain, accepted, superseded) := reconcile_all local es in mkOutcome retain (mkAckOf "" accepted superseded)).
Proof.
  intros Hn. unfold wrap_for. destruct (aead_encrypt _ _ _ _) as [c|] eqn:E; [|done]. intros [= <-].
  unfold receive, open_sealed, shared_secret; simpl. rewrite decide_True by apply public_key_length.
  rewrite decide_True by done. rewrite agreement. erewrite aead_open by exact E. rewrite wire_roundtrip.
  by destruct (reconcile_all local es) as [[]].
Qed.

End engine.

(** ** Instances *)

Definition byte_xor (a b : byte) : byte := byte_of (N.lxor (Byte.to_N a) (Byte.to_N b)).

Lemma xor_comm a b : zip_with byte_xor a b = zip_with byte_xor b a.
Proof.
  revert b. induction a as [|x a IH]; intros [|y b]; simpl; [done..|]. rewrite IH. unfold byte_xor. by rewrite N.lxor_comm.
Qed.

Definition toy_public (s : bytes) : bytes := take 32 (s ++ replicate 32 x00).

(** Public keys that show the secret, and identities that sign with their own name. *)
Definition toy_ports : SyncPorts.
Proof.
  refine {|
    x25519_public := toy_public;
    x25519_agree a p := zip_with byte_xor (toy_public a) p;
    ad_to_vec ad := pack (ad_peer ad, ad_signing_key_id ad, ad_transport_public_key ad, ad_challenge ad, ad_group_proof ad);
    wire_to_vec es := pack es;
    wire_from_slice b := match unpack b with Some es => inr es | None => inl "not entries" end;
    verify id message signature :=
      if decide (id = "") then Err UnknownIdentity else Ok (bool_decide (signature = text_bytes id ++ message));
  |}.
  - abstract (intros s; unfold toy_public; rewrite length_take, length_app, length_replicate; lia).
  - abstract (intros a b; cbn; apply xor_comm).
  - abstract (intros es; cbn; by rewrite unpack_pack).
Defined.

(** ** A small deployment, for the witnesses *)

Definition demo_record : VaultEntry := EntryRecord (mkCredential "github" "ada" "Ada" "token" ∅ 7 1).
Definition demo_deletion : VaultEntry := EntryTombstone (mkTombstone "github" "ada" 1 9).

Definition demo_engine (i : nat) : SyncEngine := SyncEngine_new (Some "group") [byte_of (N.of_nat i)].
Definition demo_nonce : bytes := replicate 12 x2a.
