(* ===== verification/CredFleet.v ===== *)
(** * Last writer wins across a fleet

    Daemons that write, send what they hold and receive what was sent, in any
    interleaving, with messages delayed, lost or repeated ([fleet_step]): once every
    pair has exchanged, all vaults hold the latest write of every slot, if no clock went
    back behind what it replaced. The caller of [receive] is the class
    [RetainingCaller]. *)

From Stdlib Require Import Ascii Strings.Byte.
From stdpp Require Import countable.
From S2P Require Import Prelude Text Framing Utf8 Credentials CredSync.

Local Open Scope io_scope.

(** ** The clock entries compete on *)

Definition clock_lt (e e' : VaultEntry) : Prop :=
  (written_at e < written_at e')%N \/ (written_at e = written_at e' /\ (entry_version e < entry_version e')%N).

Definition clock_le (e e' : VaultEntry) : Prop :=
  (written_at e < written_at e')%N \/ (written_at e = written_at e' /\ (entry_version e <= entry_version e')%N).

#[global] Instance clock_le_preorder : PreOrder clock_le.
Proof. split; [intros e; right; lia|]. intros a b c [H|H] [H'|H']; unfold clock_le; lia. Qed.

Definition same_clock (e e' : VaultEntry) : Prop :=
  written_at e = written_at e' /\ entry_version e = entry_version e'.

(** No two different writes of a slot carry one clock. *)
Definition distinct_clocks (written : list VaultEntry) : Prop :=
  forall e e', e ∈ written -> e' ∈ written ->
    record_key_of e = record_key_of e' -> same_clock e e' -> e = e'.

Lemma clock_le_antisym e e' : clock_le e e' -> clock_le e' e -> same_clock e e'.
Proof. unfold clock_le, same_clock. lia. Qed.

(** What a slot holds once an incoming entry was reconciled. *)
Definition survivor (local : option VaultEntry) (e : VaultEntry) : VaultEntry :=
  match reconcile local e with TakeIncoming _ => e | _ => default e local end.

Lemma survivor_cases local e :
  (survivor local e = e /\ from_option (fun l => clock_le l e) True local) \/
  (local = Some (survivor local e) /\ clock_le e (survivor local e)).
Proof.
  unfold survivor, reconcile. destruct local as [l|]; simpl; [|by left].
  case_decide as E; [subst; by left|].
  destruct (N.compare_spec (written_at l) (written_at e)); simpl;
    [destruct (N.compare_spec (entry_version l) (entry_version e)); simpl| |];
    unfold clock_le; (left; split; [done|lia]) || (right; split; [done|lia]).
Qed.

Lemma survivor_ge local e :
  clock_le e (survivor local e) /\ (forall l, local = Some l -> clock_le l (survivor local e)).
Proof.
  destruct (survivor_cases local e) as [[-> H]|[E H]].
  - split; [reflexivity|]. intros l ->. exact H.
  - split; [done|]. intros l E'. rewrite E in E'. injection E' as <-. reflexivity.
Qed.

(** ** Receiving, slot by slot *)

(** A vault once every entry of a list has taken its slot. *)
Definition retain_all (retain : list VaultEntry) (v : slots) : slots :=
  foldl (fun v e => <[record_key_of e := e]> v) v retain.

(** Whoever calls [receive], which no code of the repository does yet: it retains what it is
    answered, as [ReceiveOutcome.retain] says it must. *)
Class RetainingCaller := {
  store_retained : list VaultEntry -> slots -> slots;
  stores_retained : forall retain v, store_retained retain v = retain_all retain v;
}.

Lemma retain_all_app a b v : retain_all (a ++ b) v = retain_all b (retain_all a v).
Proof. apply foldl_app. Qed.

Lemma retain_all_miss k l v : k ∉ record_key_of <$> l -> retain_all l v !! k = v !! k.
Proof.
  revert v. induction l as [|x l IH]; intros v Hk; [done|]. rewrite fmap_cons in Hk.
  apply not_elem_of_cons in Hk as [Hx Hk]. simpl. change (retain_all l (<[record_key_of x := x]> v) !! k = v !! k).
  rewrite IH by done. by rewrite lookup_insert_ne.
Qed.

Lemma retain_all_hit e l v :
  e ∈ l -> (forall x, x ∈ l -> record_key_of x = record_key_of e -> x = e) ->
  retain_all l v !! record_key_of e = Some e.
Proof.
  intros He Huniq. induction l as [|x l IH] using rev_ind; [by apply elem_of_nil in He|].
  rewrite retain_all_app. simpl. destruct (decide (record_key_of x = record_key_of e)) as [E|E].
  - rewrite (Huniq x); [by rewrite lookup_insert_eq|set_solver|done].
  - rewrite lookup_insert_ne by done. apply IH; [set_solver|]. intros y Hy. apply Huniq. set_solver.
Qed.

Lemma reconcile_all_retain local l e :
  e ∈ (reconcile_all local l).1.1 <-> e ∈ l /\ exists c,
    reconcile (snd <$> list_find (fun x => entry_provider x = entry_provider e /\ entry_account x = entry_account e) local) e
      = TakeIncoming c.
Proof.
  induction l as [|x l IH]; simpl; [split; [intros ?%elem_of_nil|intros [?%elem_of_nil _]]; done|].
  destruct (reconcile_all local l) as [[retain accepted] superseded]. cbn in IH.
  destruct (reconcile _ x) as [c| |] eqn:E; simpl; rewrite ?elem_of_cons, IH; split;
    intuition (subst; eauto); destruct H1; congruence.
Qed.

(** A payload of what some vault holds lands slot by slot. *)
Lemma retain_reconciled local l v (sender : slots) k :
  lists local v -> keyed v -> (forall e, e ∈ l -> sender !! record_key_of e = Some e) ->
  retain_all (reconcile_all local l).1.1 v !! k =
    match list_find (fun e => record_key_of e = k) l with
    | Some (_, e) => Some (survivor (v !! k) e)
    | None => v !! k
    end.
Proof.
  intros Hl Hkeyed Hs. set (R := (reconcile_all local l).1.1).
  assert (forall e, e ∈ R <-> e ∈ l /\ exists c, reconcile (v !! record_key_of e) e = TakeIncoming c) as HR.
  { intros e. unfold R. rewrite reconcile_all_retain, (lists_lookup local v e Hl). done. }
  destruct (list_find _ l) as [[i e]|] eqn:E.
  - apply list_find_Some in E as (Hi & <- & _). apply list_elem_of_lookup_2 in Hi.
    unfold survivor. destruct (decide (e ∈ R)) as [He|He].
    + rewrite retain_all_hit; [|done|].
      * apply HR in He as (_ & c & ->). done.
      * intros x Hx E. apply HR in Hx as [Hx _]. apply Hs in Hx, Hi. congruence.
    + rewrite retain_all_miss.
      * destruct (reconcile (v !! record_key_of e) e) eqn:Er; [destruct He; apply HR; eauto| |];
          destruct (v !! record_key_of e); try done; simpl in Er; discriminate.
      * intros (x & Ek & Hx)%list_elem_of_fmap. destruct He.
        apply HR in Hx as Hx'. destruct Hx' as [Hx' _]. apply Hs in Hx', Hi. congruence.
  - apply retain_all_miss. intros (x & -> & Hx)%list_elem_of_fmap. apply HR in Hx as [Hx _].
    apply list_find_None in E. by eapply (proj1 (Forall_forall _ _) E).
Qed.

(** ** A fleet of daemons *)

Section fleet.
Context `{SealPrims, SyncPorts, !RetainingCaller}.
Context (engine : nat -> SyncEngine) (name : nat -> string).

(** A payload sent; [m_full] when it carries all its sender held, [m_received] once it was. *)
Record message := mkMessage {
  m_from : nat; m_to : nat; m_entries : list VaultEntry; m_payload : WrappedRecords;
  m_full : bool; m_received : bool }.

Definition delivered (m : message) : message :=
  mkMessage (m_from m) (m_to m) (m_entries m) (m_payload m) (m_full m) true.

(** The vaults; the payloads sent; all that was ever written; and what each write replaced
    with what. *)
Record fleet := mkFleet {
  fl_vaults : list slots; fl_messages : list message; fl_written : list VaultEntry;
  fl_replaced : list (VaultEntry * VaultEntry) }.

Definition idle_fleet (n : nat) : fleet := mkFleet (replicate n ∅) [] [] [].

Definition replaced (v : slots) (e : VaultEntry) : list (VaultEntry * VaultEntry) :=
  match v !! record_key_of e with Some old => [(old, e)] | None => [] end.

(** No daemon's clock went back behind what it held when it wrote. *)
Definition clocks_advance (s : fleet) : Prop := Forall (fun on => clock_lt on.1 on.2) (fl_replaced s).

Inductive fleet_step : fleet -> fleet -> Prop :=
(** A daemon puts an answer in one of its slots, at whatever its clock says. *)
| fleet_write vs ms w o i v e :
    vs !! i = Some v ->
    fleet_step (mkFleet vs ms w o) (mkFleet (<[i := <[record_key_of e := e]> v]> vs) ms (w ++ [e]) (o ++ replaced v e))
| fleet_exchange s s' : fleet_exchange_step s s' -> fleet_step s s'
with fleet_exchange_step : fleet -> fleet -> Prop :=
(** Some of what a daemon holds is sealed for another. *)
| fleet_send vs ms w o i j v es nonce payload (full : bool) :
    vs !! i = Some v -> j < length vs -> i <> j ->
    (forall e, e ∈ es -> v !! record_key_of e = Some e) ->
    (full = true -> forall k e, v !! k = Some e -> e ∈ es) ->
    length nonce = 12 ->
    wrap_for (engine i) nonce (name j) (x25519_public (eng_transport_key (engine j))) es = Ok payload ->
    fleet_exchange_step (mkFleet vs ms w o) (mkFleet vs (ms ++ [mkMessage i j es payload full false]) w o)
(** A payload arrives, for the first time or again. *)
| fleet_receive vs ms w o n m v local outcome :
    ms !! n = Some m -> vs !! m_to m = Some v -> lists local v ->
    receive (engine (m_to m)) (m_payload m) local = Ok outcome ->
    fleet_exchange_step (mkFleet vs ms w o)
      (mkFleet (<[m_to m := store_retained (ro_retain outcome) v]> vs) (<[n := delivered m]> ms) w o).

(** What [v] says of a slot is at least as late as [e]. *)
Definition covers (v : slots) (e : VaultEntry) : Prop :=
  exists e', v !! record_key_of e = Some e' /\ clock_le e e'.

Definition vault_le (v v' : slots) : Prop := forall k e, v !! k = Some e -> exists e', v' !! k = Some e' /\ clock_le e e'.

#[local] Instance vault_le_preorder : PreOrder vault_le.
Proof.
  split; [intros v k e ?; by exists e|]. intros a b c Hab Hbc k e (e' & Hb & ?)%Hab.
  apply Hbc in Hb as (e'' & ? & ?). exists e''. split; [done|by transitivity e'].
Qed.

(** What a message knows of its making: its payload, and whose entries it carries. *)
Definition message_ok (s : fleet) (m : message) : Prop :=
  (exists nonce, length nonce = 12 /\
     wrap_for (engine (m_from m)) nonce (name (m_to m))
       (x25519_public (eng_transport_key (engine (m_to m)))) (m_entries m) = Ok (m_payload m)) /\
  (exists v : slots, forall e, e ∈ m_entries m -> v !! record_key_of e = Some e) /\
  (forall e, e ∈ m_entries m -> e ∈ fl_written s) /\
  m_to m < length (fl_vaults s) /\ m_from m <> m_to m /\
  (m_received m = true -> forall v, fl_vaults s !! m_to m = Some v -> forall e, e ∈ m_entries m -> covers v e).

Record fleet_ok (s : fleet) : Prop := {
  fo_keyed : forall i v, fl_vaults s !! i = Some v -> keyed v;
  fo_written : forall i v k e, fl_vaults s !! i = Some v -> v !! k = Some e -> e ∈ fl_written s;
  fo_held : forall e, e ∈ fl_written s -> exists i v, fl_vaults s !! i = Some v /\ covers v e;
  fo_messages : Forall (message_ok s) (fl_messages s);
}.

Lemma covers_mono v v' e : vault_le v v' -> covers v e -> covers v' e.
Proof. intros Hle (e' & Hv & ?). apply Hle in Hv as (e'' & ? & ?). exists e''. split; [done|by transitivity e']. Qed.

(** Receiving only moves slots forward, and then covers what was received. *)
Lemma received_vault v local m :
  lists local v -> keyed v -> (exists w : slots, forall e, e ∈ m_entries m -> w !! record_key_of e = Some e) ->
  let v' := retain_all (reconcile_all local (m_entries m)).1.1 v in
  vault_le v v' /\ keyed v' /\ (forall e, e ∈ m_entries m -> covers v' e) /\
  (forall k e, v' !! k = Some e -> v !! k = Some e \/ e ∈ m_entries m).
Proof.
  intros Hl Hk [w Hw] v'.
  assert (forall k, v' !! k = match list_find (fun e => record_key_of e = k) (m_entries m) with
                              | Some (_, e) => Some (survivor (v !! k) e) | None => v !! k end) as Hv'.
  { intros k. by apply (retain_reconciled _ _ _ w). }
  assert (forall k e, v' !! k = Some e -> v !! k = Some e \/ e ∈ m_entries m /\ record_key_of e = k) as Hfrom.
  { intros k e. rewrite Hv'. destruct (list_find _ _) as [[i x]|] eqn:E; [|by left].
    apply list_find_Some in E as (Hi%list_elem_of_lookup_2 & <- & _). intros [= <-].
    destruct (survivor_cases (v !! record_key_of x) x) as [[-> _]|[Hx _]]; [by right|by left]. }
  split_and!.
  - intros k e He. rewrite Hv'. destruct (list_find _ _) as [[i x]|]; [|by exists e].
    eexists; split; [done|]. by apply survivor_ge.
  - intros k e [He|[_ He]]%Hfrom; [by apply Hk|done].
  - intros e He. unfold covers. rewrite Hv'. destruct (list_find _ _) as [[i x]|] eqn:E.
    + apply list_find_Some in E as (Hi%list_elem_of_lookup_2 & Ex & _).
      assert (x = e) as -> by (apply Hw in He, Hi; congruence). eexists; split; [done|]. apply (proj1 (survivor_ge _ _)).
    + apply list_find_None in E. exfalso. by eapply (proj1 (Forall_forall _ _) E).
  - intros k e [?|[? _]]%Hfrom; auto.
Qed.

Lemma lookup_insert_vault (vs : list slots) i j v v' :
  vs !! i = Some v -> <[i := v']> vs !! j = (if decide (j = i) then Some v' else vs !! j).
Proof.
  intros Hi. case_decide; subst; [by apply list_lookup_insert_eq, (lookup_lt_Some _ _ _ Hi)|].
  by apply list_lookup_insert_ne.
Qed.

(** Along exchanges vaults only move forward, what is written stays, and messages are kept. *)
Record forward (s s' : fleet) : Prop := {
  fw_length : length (fl_vaults s') = length (fl_vaults s);
  fw_vaults : forall i v v', fl_vaults s !! i = Some v -> fl_vaults s' !! i = Some v' -> vault_le v v';
  fw_written : forall e, e ∈ fl_written s -> e ∈ fl_written s';
  fw_messages : length (fl_messages s) <= length (fl_messages s');
}.

Lemma vault_after s s' i v :
  forward s s' -> fl_vaults s !! i = Some v -> exists v', fl_vaults s' !! i = Some v' /\ vault_le v v'.
Proof.
  intros F Hv. destruct (lookup_lt_is_Some_2 (fl_vaults s') i) as [v' Hv'].
  { rewrite (fw_length _ _ F). by eapply lookup_lt_Some. }
  exists v'. split; [done|]. by eapply (fw_vaults _ _ F).
Qed.

#[local] Instance forward_preorder : PreOrder forward.
Proof.
  split.
  - intros s. split; [done| |done|done]. intros i v v' ? ?. simplify_eq. reflexivity.
  - intros a b c Hab Hbc. split.
    + by rewrite (fw_length _ _ Hbc), (fw_length _ _ Hab).
    + intros i v v'' Ha Hc. destruct (vault_after a b i v Hab Ha) as (v' & Hb & Hle).
      transitivity v'; [done|]. by eapply (fw_vaults _ _ Hbc).
    + intros e ?. by apply (fw_written _ _ Hbc), (fw_written _ _ Hab).
    + etransitivity; [apply (fw_messages _ _ Hab)|apply (fw_messages _ _ Hbc)].
Qed.

Lemma write_vault_le (v : slots) e :
  from_option (fun old => clock_lt old e) True (v !! record_key_of e) -> vault_le v (<[record_key_of e := e]> v).
Proof.
  intros Hnew k x Hx. destruct (decide (k = record_key_of e)) as [->|Hk].
  - exists e. rewrite lookup_insert_eq. split; [done|]. rewrite Hx in Hnew. simpl in Hnew.
    unfold clock_lt, clock_le in *. lia.
  - exists x. by rewrite lookup_insert_ne.
Qed.

(** A message stays in order while vaults move forward and writes are kept. *)
Lemma message_ok_mono s s' m : forward s s' -> message_ok s m -> message_ok s' m.
Proof.
  intros F (Hp & Hs & Hw & Ht & Hne & Hr). split_and!; [done|done| | |done|].
  - intros e ?. by apply (fw_written _ _ F), Hw.
  - by rewrite (fw_length _ _ F).
  - intros Hrec v' Hv' e He. destruct (lookup_lt_is_Some_2 (fl_vaults s) (m_to m)) as [v Hv]; [done|].
    eapply covers_mono; [by eapply (fw_vaults _ _ F)|]. by eapply Hr.
Qed.

Lemma held_mono s s' e :
  forward s s' -> (exists i v, fl_vaults s !! i = Some v /\ covers v e) ->
  exists i v, fl_vaults s' !! i = Some v /\ covers v e.
Proof.
  intros F (i & v & Hv & Hc). destruct (vault_after s s' i v F Hv) as (v' & Hv' & Hle).
  exists i, v'. split; [done|]. by eapply covers_mono.
Qed.

Lemma vaults_forward s ms w o i v v' :
  fl_vaults s !! i = Some v -> vault_le v v' -> (forall e, e ∈ fl_written s -> e ∈ w) ->
  length (fl_messages s) <= length ms -> forward s (mkFleet (<[i := v']> (fl_vaults s)) ms w o).
Proof.
  intros Hv Hle Hw Hm. split; simpl; [apply length_insert| |done|done].
  intros j x x' Hx. rewrite (lookup_insert_vault _ _ _ v) by done. case_decide; [|congruence || (intros; simplify_eq; reflexivity)].
  subst. intros. by simplify_eq.
Qed.

Lemma fleet_write_ok vs ms w o o' i v e :
  vs !! i = Some v -> from_option (fun old => clock_lt old e) True (v !! record_key_of e) ->
  let s := mkFleet vs ms w o in
  let s' := mkFleet (<[i := <[record_key_of e := e]> v]> vs) ms (w ++ [e]) o' in
  fleet_ok s -> fleet_ok s' /\ forward s s'.
Proof.
  intros Hv Hnew s s' [Hk Hw Hh Hm].
  assert (forward s s') as F.
  { apply (vaults_forward s _ _ _ _ v); simpl; [done|by apply write_vault_le|set_solver|done]. }
  split; [|done]. split; simpl.
  - intros j x. rewrite (lookup_insert_vault _ _ _ v) by done. case_decide; [|by apply Hk]. intros [= <-] k y.
    rewrite lookup_insert_Some. intros [[<- <-]|[_ Hy]]; [done|]. by eapply Hk.
  - intros j x k y. rewrite (lookup_insert_vault _ _ _ v) by done. case_decide; [|intros; apply elem_of_app; left; by eapply Hw].
    intros [= <-]. rewrite lookup_insert_Some. intros [[<- <-]|[_ Hy]]; [set_solver|].
    apply elem_of_app. left. by eapply Hw.
  - intros x [Hx| ->%list_elem_of_singleton]%elem_of_app; [by apply (held_mono s s'), Hh|].
    exists i. eexists. split; [by rewrite (lookup_insert_vault _ _ _ v), decide_True by done|].
    exists e. rewrite lookup_insert_eq. split; [done|reflexivity].
  - eapply Forall_impl; [exact Hm|]. intros m. by apply message_ok_mono.
Qed.

Lemma fleet_exchange_ok s s' : fleet_exchange_step s s' -> fleet_ok s -> fleet_ok s' /\ forward s s'.
Proof.
  intros Hstep Hok. destruct Hstep as [vs ms w o i j v es nonce payload full Hv Hj Hij Hes Hfull Hn Hp
                                      |vs ms w o n m v local outcome Hm Hv Hl Hr].
  - assert (forward (mkFleet vs ms w o) (mkFleet vs (ms ++ [mkMessage i j es payload full false]) w o)) as F.
    { split; simpl; [done| |done|rewrite length_app; lia]. intros x a b Ha Hb. simplify_eq. reflexivity. }
    destruct Hok as [Hk Hw Hh Hms]. split; [|done]. split; simpl; [done..|]. apply Forall_app. split.
    + eapply Forall_impl; [exact Hms|]. intros m. by apply message_ok_mono.
    + apply Forall_singleton. split_and!; simpl; [by exists nonce|by exists v| |done|done|done].
      intros e He. by eapply Hw, Hes.
  - pose proof (proj1 (Forall_lookup _ _) (fo_messages _ Hok) n m Hm) as (Hp & Hs & Hin & Ht & Hne & Hrec).
    destruct Hp as (nonce & Hn & Hp). erewrite receive_wrapped in Hr by done.
    destruct (received_vault v local m Hl (fo_keyed _ Hok _ _ Hv) Hs) as (Hle & Hk' & Hcov & Hfrom).
    rewrite stores_retained.
    replace (retain_all (ro_retain outcome) v) with (retain_all (reconcile_all local (m_entries m)).1.1 v)
      by (destruct (reconcile_all local (m_entries m)) as [[]]; by injection Hr as <-).
    set (v' := retain_all _ v) in *.
    assert (forward (mkFleet vs ms w o) (mkFleet (<[m_to m := v']> vs) (<[n := delivered m]> ms) w o)) as F.
    { apply (vaults_forward (mkFleet vs ms w o) _ _ _ _ v); simpl; [done|done|done|by rewrite length_insert]. }
    split; [|done]. destruct Hok as [Hk Hw Hh Hms]. split; simpl.
    + intros j x. rewrite (lookup_insert_vault _ _ _ v) by done. case_decide; [by intros [= <-]|by apply Hk].
    + intros j x k y. rewrite (lookup_insert_vault _ _ _ v) by done. case_decide; [|by apply Hw].
      intros [= <-] [?|?]%Hfrom; [by eapply Hw|by apply Hin].
    + intros e He. by apply (held_mono _ _ e F), Hh.
    + apply Forall_lookup. intros n' m'. destruct (decide (n' = n)) as [->|Hn'].
      * rewrite list_lookup_insert_eq by (by eapply lookup_lt_Some). intros [= <-].
        split_and!; simpl; [by exists nonce|done|done|by rewrite length_insert|done|].
        intros _ x. rewrite (lookup_insert_vault _ _ _ v), decide_True by done. intros [= <-]. done.
      * rewrite list_lookup_insert_ne by done. intros Hm'.
        eapply message_ok_mono; [exact F|]. by eapply (proj1 (Forall_lookup _ _) Hms).
Qed.

Lemma fleet_reachable_ok n s : rtc fleet_step (idle_fleet n) s -> clocks_advance s -> fleet_ok s.
Proof.
  intros Hr. apply (rtc_ind_r (R := fleet_step) (fun s => clocks_advance s -> fleet_ok s) (idle_fleet n)); [| |exact Hr].
  - split; simpl; [| | |done].
    + by intros i v [-> _]%lookup_replicate.
    + by intros i v k e [-> _]%lookup_replicate.
    + intros e He. by apply elem_of_nil in He.
  - intros a b _ Hstep IH Hc. destruct Hstep as [vs ms w o i v e Hv|a b Hx].
    + unfold clocks_advance in Hc. simpl in Hc. apply Forall_app in Hc as [Ho Hnew].
      eapply fleet_write_ok; [done| |by apply IH]. unfold replaced in Hnew.
      destruct (v !! record_key_of e); [|done]. exact (proj1 (Forall_singleton _ _) Hnew).
    + apply (fleet_exchange_ok a b); [done|]. apply IH. unfold clocks_advance in *. by destruct Hx.
Qed.

(** What the messages sent since [s] carry: a full one, all its sender held at [s]. *)
Definition sent_since (s s' : fleet) : Prop :=
  forall n m, length (fl_messages s) <= n -> fl_messages s' !! n = Some m -> m_full m = true ->
    forall v k e, fl_vaults s !! m_from m = Some v -> v !! k = Some e ->
      exists e', e' ∈ m_entries m /\ record_key_of e' = k /\ clock_le e e'.

Lemma exchanges_forward s s' :
  fleet_ok s -> rtc fleet_exchange_step s s' ->
  fleet_ok s' /\ forward s s' /\ fl_written s' = fl_written s /\ sent_since s s'.
Proof.
  intros Hok Hr.
  apply (rtc_ind_r (R := fleet_exchange_step) (fun s' => fleet_ok s' /\ forward s s' /\ fl_written s' = fl_written s /\ sent_since s s') s); [| |exact Hr].
  - split_and!; [done|reflexivity|done|]. intros n m Hn Hm%lookup_lt_Some. lia.
  - intros a b _ Hstep (Hoka & Fa & Wa & Sa). destruct (fleet_exchange_ok a b Hstep Hoka) as [Hokb Fb].
    split_and!; [done|by transitivity a|by destruct Hstep|].
    intros n m Hn Hm Hfull v k e Hv He.
    destruct Hstep as [vs ms w o i j va es nonce payload full Hva Hj Hij Hes Hall Hnl Hp
                      |vs ms w o n' m' v' local outcome Hm' Hv' Hl Hrc]; simpl in *.
    + apply lookup_app_Some in Hm as [Hm|[_ Hm]]; [by eapply (Sa n m)|].
      destruct (n - length ms); [|done]. injection Hm as <-. simpl in *.
      destruct (fw_vaults _ _ Fa i v va Hv Hva k e He) as (e' & He' & Hle).
      exists e'. split_and!; [by eapply Hall|by eapply (fo_keyed _ Hoka)|done].
    + destruct (decide (n = n')) as [->|Hne].
      * rewrite list_lookup_insert_eq in Hm by (by eapply lookup_lt_Some). injection Hm as <-.
        by eapply (Sa n' m').
      * rewrite list_lookup_insert_ne in Hm by done. by eapply (Sa n m).
Qed.

(** The latest write of a slot. *)
Definition latest (w : list VaultEntry) (k : RecordKey) (e : option VaultEntry) : Prop :=
  match e with
  | None => forall x, x ∈ w -> record_key_of x <> k
  | Some e => e ∈ w /\ record_key_of e = k /\ forall x, x ∈ w -> record_key_of x = k -> clock_le x e
  end.

(** Once every pair has exchanged, every vault holds the latest write of every slot. *)
Lemma exchanged_latest n s s' j v k :
  rtc fleet_step (idle_fleet n) s -> clocks_advance s -> rtc fleet_exchange_step s s' ->
  (forall i j, i < n -> j < n -> i <> j -> exists p m, length (fl_messages s) <= p /\
     fl_messages s' !! p = Some m /\ m_from m = i /\ m_to m = j /\ m_full m = true /\ m_received m = true) ->
  length (fl_vaults s) = n -> fl_vaults s' !! j = Some v -> latest (fl_written s') k (v !! k).
Proof.
  intros Hr Hc0 Hx Hall Hlen Hv. pose proof (fleet_reachable_ok _ _ Hr Hc0) as Hok.
  destruct (exchanges_forward s s' Hok Hx) as (Hok' & F & W & Hsent).
  assert (forall e, e ∈ fl_written s' -> covers v e) as Hcov.
  { intros e He. rewrite W in He. destruct (fo_held _ Hok e He) as (i & vi & Hvi & (x & Hx' & Hle)).
    destruct (decide (i = j)) as [->|Hij].
    - destruct (fw_vaults _ _ F j vi v Hvi Hv _ _ Hx') as (y & ? & ?). exists y. split; [done|by transitivity x].
    - apply lookup_lt_Some in Hvi as Hi. apply lookup_lt_Some in Hv as Hj. rewrite (fw_length _ _ F) in Hj.
      destruct (Hall i j) as (p & m & Hp & Hm & <- & <- & Hf & Hrec); [lia|lia|done|].
      destruct (Hsent p m Hp Hm Hf vi _ x Hvi Hx') as (y & Hy & Hky & Hxy).
      pose proof (proj1 (Forall_lookup _ _) (fo_messages _ Hok') p m Hm) as (_ & _ & _ & _ & _ & Hc).
      destruct (Hc Hrec v Hv y Hy) as (z & Hz & Hyz). rewrite Hky in Hz.
      exists z. split; [done|]. transitivity x; [done|]. by transitivity y. }
  destruct (v !! k) as [e|] eqn:E; simpl.
  - split_and!; [by eapply (fo_written _ Hok')|by eapply (fo_keyed _ Hok')|].
    intros x Hx' <-. destruct (Hcov x Hx') as (y & Hy & ?). by simplify_eq.
  - intros x Hx' <-. destruct (Hcov x Hx') as (y & Hy & ?). congruence.
Qed.

Lemma fleet_length n s : rtc fleet_step (idle_fleet n) s -> length (fl_vaults s) = n.
Proof.
  intros Hr. apply (rtc_ind_r (R := fleet_step) (fun s => length (fl_vaults s) = n) (idle_fleet n)); [| |exact Hr].
  - apply length_replicate.
  - intros a b _ Hstep <-. destruct Hstep as [|a b Hx]; [apply length_insert|].
    destruct Hx; [done|]. apply length_insert.
Qed.

Lemma latest_unique w k a b : distinct_clocks w -> latest w k a -> latest w k b -> a = b.
Proof.
  intros Hd Ha Hb. destruct a as [a|], b as [b|]; simpl in *; [|firstorder congruence|firstorder congruence|done].
  destruct Ha as (Ha & Hka & Hamax), Hb as (Hb & Hkb & Hbmax). f_equal.
  apply Hd; [done|done|congruence|]. apply clock_le_antisym; [by apply Hbmax|by apply Hamax].
Qed.

(** Every ordered pair of daemons has a payload of everything its sender held, sent
    since [s] and received by [s']. *)
Definition all_exchanged (n : nat) (s s' : fleet) : Prop :=
  forall i j, i < n -> j < n -> i <> j -> exists p m, length (fl_messages s) <= p /\
    fl_messages s' !! p = Some m /\ m_from m = i /\ m_to m = j /\ m_full m = true /\ m_received m = true.

(** C7. Last writer wins. Daemons write, send and receive in any interleaving, with payloads
    delayed, lost or repeated, and whoever calls [receive] retains what it is answered.
    Provided that no write had a clock at or before the one it replaced on its own daemon and
    that no two different writes of a slot share a clock: once every pair has exchanged what
    it held while nobody writes, all vaults are equal and every slot holds its latest write,
    a deletion being one. *)
Theorem fleet_converges n s s' :
  rtc fleet_step (idle_fleet n) s -> clocks_advance s -> rtc fleet_exchange_step s s' ->
  all_exchanged n s s' -> distinct_clocks (fl_written s') ->
  forall j v, fl_vaults s' !! j = Some v ->
    (forall k, latest (fl_written s') k (v !! k)) /\
    (forall j' v', fl_vaults s' !! j' = Some v' -> v' = v).
Proof.
  intros Hr Hc Hx Hall Hd j v Hv. pose proof (fleet_length n s Hr) as Hlen.
  assert (forall j v, fl_vaults s' !! j = Some v -> forall k, latest (fl_written s') k (v !! k)) as Hlat.
  { intros ? ? ? ?. by eapply exchanged_latest. }
  split; [by eapply Hlat|]. intros j' v' Hv'. apply map_eq. intros k.
  eapply latest_unique; [done|by eapply Hlat|by eapply Hlat].
Qed.
End fleet.

(** ** Witnesses *)

Section witnesses.
#[local] Existing Instance packed_prims.
#[local] Existing Instance toy_ports.

#[local] Instance retaining : RetainingCaller := {| store_retained := retain_all; stores_retained _ _ := eq_refl |}.

(** The payload of everything a daemon of the pair holds. *)
Definition demo_payload (i : nat) (es : list VaultEntry) : WrappedRecords :=
  mkWrapped "peer" (toy_public [byte_of (N.of_nat i)]) demo_nonce
    (pack (shared_secret [byte_of (N.of_nat i)] (toy_public [byte_of (N.of_nat (1 - i))]), demo_nonce,
           pack es, wrap_aad "peer" (toy_public [byte_of (N.of_nat i)]))).

Definition demo_message (i : nat) (es : list VaultEntry) (received : bool) : message :=
  mkMessage i (1 - i) es (demo_payload i es) true received.

Definition demo_slots (e : VaultEntry) : slots := {[record_key_of e := e]}.

Lemma demo_slots_lists e : lists [e] (demo_slots e).
Proof. split; [apply NoDup_singleton|done]. Qed.

(** A daemon of the pair hands the other all it holds, and it arrives. *)
Lemma demo_exchange i a b vs ms w o :
  i < 2 -> vs !! i = Some (demo_slots a) -> vs !! (1 - i) = Some b ->
  (exists local, lists local b /\
     retain_all (reconcile_all local [a]).1.1 b = demo_slots a) ->
  rtc (fleet_exchange_step demo_engine (fun _ => "peer")) (mkFleet vs ms w o)
    (mkFleet (<[1 - i := demo_slots a]> vs) (ms ++ [demo_message i [a] true]) w o).
Proof.
  intros Hi Ha Hb (local & Hl & Hres).
  eapply rtc_l.
  { apply (fleet_send _ _ vs ms w o i (1 - i) (demo_slots a) [a] demo_nonce (demo_payload i [a]) true); try done.
    - by eapply lookup_lt_Some.
    - lia.
    - intros e ->%list_elem_of_singleton. apply lookup_singleton_eq.
    - unfold demo_slots. intros _ k e [_ <-]%lookup_singleton_Some. by apply list_elem_of_singleton. }
  eapply rtc_l; [|apply rtc_refl].
  replace (mkFleet (<[1 - i := demo_slots a]> vs) (ms ++ [demo_message i [a] true]) w o) with
    (mkFleet (<[1 - i := retain_all (reconcile_all local [a]).1.1 b]> vs)
       (<[length ms := delivered (demo_message i [a] false)]> (ms ++ [demo_message i [a] false])) w o).
  2: { rewrite Hres. f_equal. by rewrite insert_app_r_alt, Nat.sub_diag by done. }
  pose proof (receive_wrapped (demo_engine i) (demo_engine (1 - i)) "peer" demo_nonce [a] (demo_payload i [a]) local
                eq_refl eq_refl) as Hr.
  destruct (reconcile_all local [a]) as [[retain accepted] superseded] eqn:E.
  cbn [fst]. rewrite <- stores_retained.
  apply (fleet_receive demo_engine (fun _ => "peer") vs _ w o (length ms) (demo_message i [a] false) b local
    (mkOutcome retain (mkAckOf "" accepted superseded))); [|done|done|exact Hr].
  by rewrite lookup_app_r, Nat.sub_diag by done.
Qed.

(** A record reaches both daemons and one of them deletes it. *)
Definition demo_before : fleet :=
  mkFleet [demo_slots demo_record; demo_slots demo_deletion] [demo_message 0 [demo_record] true]
    [demo_record; demo_deletion] [(demo_record, demo_deletion)].

Definition demo_after : fleet :=
  mkFleet [demo_slots demo_deletion; demo_slots demo_deletion]
    [demo_message 0 [demo_record] true; demo_message 1 [demo_deletion] true; demo_message 0 [demo_deletion] true]
    [demo_record; demo_deletion] [(demo_record, demo_deletion)].

Lemma demo_before_reachable : rtc (fleet_step demo_engine (fun _ => "peer")) (idle_fleet 2) demo_before.
Proof.
  eapply rtc_l; [by apply (fleet_write _ _ _ _ _ _ 0 ∅ demo_record)|].
  etransitivity.
  { eapply (rtc_subrel _ _ _ _ (fleet_exchange demo_engine (fun _ => "peer"))).
    apply (demo_exchange 0 demo_record ∅ [demo_slots demo_record; ∅] []); [lia|done|done|].
    exists []. split; [split; [apply NoDup_nil_2|done]|reflexivity]. }
  eapply rtc_l; [|apply rtc_refl].
  by apply (fleet_write _ _ [demo_slots demo_record; demo_slots demo_record] _ [demo_record] [] 1 (demo_slots demo_record) demo_deletion).
Qed.

Lemma demo_after_exchanged : rtc (fleet_exchange_step demo_engine (fun _ => "peer")) demo_before demo_after.
Proof.
  etransitivity.
  { apply (demo_exchange 1 demo_deletion (demo_slots demo_record)); [lia|done|done|].
    exists [demo_record]. split; [apply demo_slots_lists|]. apply insert_singleton_eq. }
  apply (demo_exchange 0 demo_deletion (demo_slots demo_deletion)
    [demo_slots demo_deletion; demo_slots demo_deletion]); [lia|done|done|].
  exists [demo_deletion]. split; [apply demo_slots_lists|reflexivity].
Qed.

Lemma demo_advances : clocks_advance demo_before.
Proof. apply Forall_singleton. by left. Qed.

Lemma fleet_converges_witness :
  latest (fl_written demo_after) (record_key_of demo_record) (demo_slots demo_deletion !! record_key_of demo_record).
Proof.
  refine (proj1 (fleet_converges demo_engine (fun _ => "peer") 2 demo_before demo_after
    demo_before_reachable demo_advances demo_after_exchanged _ _ 0 _ eq_refl) (record_key_of demo_record)).
  - intros i j Hi Hj Hij. destruct i as [|[|]], j as [|[|]]; try lia.
    + exists 2. eexists. split; [simpl; lia|]. by split_and!.
    + exists 1. eexists. split; [simpl; lia|]. by split_and!.
  - intros e e' He He' _ [Hc _]. apply elem_of_cons in He, He'. rewrite list_elem_of_singleton in He, He'.
    destruct He as [->| ->], He' as [->| ->]; done.
Defined.
End witnesses.
