(* ===== verification/CredPublish.v ===== *)
(** * What publishing credentials guarantees

    Payloads go to admitted peers only and open for the owner of the advertised key,
    the journal says what happened to every slot with every peer, and an account's
    summary is the worst of its lines. Two behaviours the documents rule out are shown
    to occur: a deletion within the second of the write is lost, and the proof of an
    advertisement can be shown again. *)

From Stdlib Require Import Ascii Strings.Byte.
From stdpp Require Import countable.
From S2P Require Import Prelude Text Framing Utf8 Credentials CredSync CredFleet.

Local Open Scope io_scope.

(** ** Publishing *)

Section publishing.
Context `{SealPrims, SyncPorts}.

Lemma settle_frame peer to_send status now e key :
  eng_group_secret (settle peer to_send status now e key) = eng_group_secret e /\
  eng_transport_key (settle peer to_send status now e key) = eng_transport_key e /\
  eng_journal (settle peer to_send status now e key) = note peer key status now (eng_journal e) /\
  eng_acknowledged (settle peer to_send status now e key) =
    match list_find (fun entry => record_key_of entry = key) to_send with
    | Some (_, entry) => <[(peer, key) := written_at entry]> (eng_acknowledged e)
    | None => eng_acknowledged e
    end.
Proof. unfold settle. by destruct (list_find _ to_send) as [[]|]. Qed.

(** The part of an engine about one peer. *)
Definition same_keys (e e' : SyncEngine) : Prop :=
  eng_group_secret e' = eng_group_secret e /\ eng_transport_key e' = eng_transport_key e.

Definition same_peer (peer : string) (e e' : SyncEngine) : Prop :=
  forall key, eng_journal e' !! (peer, key) = eng_journal e !! (peer, key) /\
              eng_acknowledged e' !! (peer, key) = eng_acknowledged e !! (peer, key).

Lemma note_all_lookup peer es status now j p key :
  note_all peer es status now j !! (p, key) =
    if decide (p = peer /\ key ∈ record_key_of <$> es) then Some (mkJournalEntry peer key status now)
    else j !! (p, key).
Proof.
  unfold note_all. induction es as [|x es IH] using rev_ind; [simpl; case_decide as E; [|done]; by destruct E as [_ ?%elem_of_nil]|].
  rewrite foldl_app, fmap_app. simpl. unfold note at 1. destruct (decide ((peer, record_key_of x) = (p, key))) as [[= <- <-]|Hne].
  - rewrite lookup_insert_eq, decide_True; [done|]. set_solver.
  - rewrite lookup_insert_ne by done. rewrite IH. apply decide_ext.
    split; intros [-> Hk]; (split; [done|]); set_solver.
Qed.

Lemma settle_all_lookup peer to_send status now keys e p key :
  let e' := foldl (settle peer to_send status now) e keys in
  same_keys e e' /\
  eng_journal e' !! (p, key) =
    (if decide (p = peer /\ key ∈ keys) then Some (mkJournalEntry peer key status now) else eng_journal e !! (p, key)) /\
  eng_acknowledged e' !! (p, key) =
    (if decide (p = peer /\ key ∈ keys) then
       match list_find (fun entry => record_key_of entry = key) to_send with
       | Some (_, entry) => Some (written_at entry)
       | None => eng_acknowledged e !! (p, key)
       end
     else eng_acknowledged e !! (p, key)).
Proof.
  induction keys as [|x keys IH] using rev_ind; cbn zeta in *.
  { simpl. split; [done|]. split; (rewrite decide_False; [done|]); by intros [_ ?%elem_of_nil]. }
  rewrite foldl_app. simpl. destruct IH as ([Hg Ht] & Hj & Ha).
  destruct (settle_frame peer to_send status now (foldl (settle peer to_send status now) e keys) x) as (G & T & J & A).
  rewrite J, A. split_and!; [split; congruence| |].
  - unfold note. destruct (decide ((peer, x) = (p, key))) as [[= <- <-]|Hne].
    + rewrite lookup_insert_eq, decide_True; [done|set_solver].
    + rewrite lookup_insert_ne, Hj by done. apply decide_ext. set_solver.
  - destruct (decide ((peer, x) = (p, key))) as [[= <- <-]|Hne].
    + rewrite (decide_True (P := peer = peer /\ x ∈ keys ++ [x])) by (split; set_solver).
      destruct (list_find _ to_send) as [[i y]|] eqn:E; [by rewrite lookup_insert_eq|].
      rewrite Ha. by destruct (decide _).
    + transitivity (eng_acknowledged (foldl (settle peer to_send status now) e keys) !! (p, key)).
      { destruct (list_find (fun entry => record_key_of entry = x) to_send) as [[i y]|]; [by rewrite lookup_insert_ne|done]. }
      rewrite Ha. apply decide_ext. set_solver.
Qed.

(** What one call of [publish] leaves of a slot and a peer, [sent] being all it sent. *)
Definition published (net : Net) (sent : list (string * WrappedRecords)) (e e' : SyncEngine)
    (ad : SignedAdvertisement) (entry : VaultEntry) : Prop :=
  let peer := ad_peer (sa_advertisement ad) in
  let key := record_key_of entry in
  let status := journal_status peer key (eng_journal e') in
  let unsettled := eng_acknowledged e' !! (peer, key) = eng_acknowledged e !! (peer, key) in
  let settled := eng_acknowledged e' !! (peer, key) = Some (written_at entry) in
  match admit_peer e ad with
  | Panic => False
  | Err reason => status = Some (SyncRefused reason) /\ unsettled
  | Ok _ =>
      if decide (eng_acknowledged e !! (peer, key) = Some (written_at entry)) then
        settled /\ (status = journal_status peer key (eng_journal e) \/
                    status = Some SyncAcknowledged \/ status = Some SyncConflict)
      else
        exists before payload, before ++ [(peer, payload)] `prefix_of` sent /\
          match net_answer net before peer payload with
          | Panic => False
          | Err _ => status = Some SyncUndeliverable /\ unsettled
          | Ok ack =>
              if decide (key ∈ ack_superseded ack) then status = Some SyncConflict /\ settled
              else if decide (key ∈ ack_accepted ack) then status = Some SyncAcknowledged /\ settled
              else status = Some SyncSent /\ unsettled
          end
  end.

Lemma admit_peer_name e ad peer : admit_peer e ad = Ok peer -> peer = ad_peer (sa_advertisement ad).
Proof.
  unfold admit_peer. destruct (verify _ _ _) as [[]| |]; simpl; try done.
  destruct (eng_group_secret e); simpl; [|done]. by destruct (verifies _ _ _); intros [= <-].
Qed.

Lemma admit_peer_keys e e' ad : same_keys e e' -> admit_peer e' ad = admit_peer e ad.
Proof. intros [Hg _]. unfold admit_peer. by rewrite Hg. Qed.

Lemma find_entry (es : list VaultEntry) entry :
  NoDup (record_key_of <$> es) -> entry ∈ es ->
  snd <$> list_find (fun x => record_key_of x = record_key_of entry) es = Some entry.
Proof.
  induction es as [|x es IH]; intros Hnd He; [by apply elem_of_nil in He|].
  apply NoDup_cons in Hnd as [Hx Hnd]. simpl. case_decide as E.
  - apply elem_of_cons in He as [->|He]; [done|]. destruct Hx. rewrite E. by apply list_elem_of_fmap_2.
  - apply elem_of_cons in He as [->|He]; [done|]. rewrite <- (IH Hnd He). by destruct (list_find _ es) as [[]|].
Qed.

Lemma unsent_elem e peer entries entry :
  entry ∈ unsent e peer entries <->
  entry ∈ entries /\ eng_acknowledged e !! (peer, record_key_of entry) <> Some (written_at entry).
Proof. unfold unsent. rewrite list_elem_of_filter. tauto. Qed.

Lemma unsent_NoDup e peer entries :
  NoDup (record_key_of <$> entries) -> NoDup (record_key_of <$> unsent e peer entries).
Proof.
  unfold unsent. induction entries as [|x l IH]; intros Hnd; [done|].
  apply NoDup_cons in Hnd as [Hx Hnd]. rewrite filter_cons. case_decide; [|by apply IH].
  rewrite fmap_cons. apply NoDup_cons. split; [|by apply IH].
  intros (y & Ey & [_ Hy]%list_elem_of_filter)%list_elem_of_fmap. apply Hx. rewrite Ey. by apply list_elem_of_fmap_2.
Qed.

Lemma settled_not_unsent e peer entries entry :
  NoDup (record_key_of <$> entries) -> entry ∈ entries ->
  eng_acknowledged e !! (peer, record_key_of entry) = Some (written_at entry) ->
  record_key_of entry ∉ record_key_of <$> unsent e peer entries.
Proof.
  intros Hnd He Hack (x & Ek & [Hx Hn]%unsent_elem)%list_elem_of_fmap.
  pose proof (find_entry entries x Hnd Hx) as H1. pose proof (find_entry entries entry Hnd He) as H2.
  rewrite <- Ek in H1. assert (x = entry) as -> by congruence. done.
Qed.

(** The answer to a payload, key by key. *)
Lemma settle_ack_lookup peer to_send now ack e p key :
  let e' := settle_ack peer to_send now ack e in
  let found := snd <$> list_find (fun entry => record_key_of entry = key) to_send in
  same_keys e e' /\
  (p <> peer -> eng_journal e' !! (p, key) = eng_journal e !! (p, key) /\
                eng_acknowledged e' !! (p, key) = eng_acknowledged e !! (p, key)) /\
  eng_journal e' !! (peer, key) =
    (if decide (key ∈ ack_superseded ack) then Some (mkJournalEntry peer key SyncConflict now)
     else if decide (key ∈ ack_accepted ack) then Some (mkJournalEntry peer key SyncAcknowledged now)
     else eng_journal e !! (peer, key)) /\
  eng_acknowledged e' !! (peer, key) =
    (if decide (key ∈ ack_superseded ack \/ key ∈ ack_accepted ack) then
       match found with Some entry => Some (written_at entry) | None => eng_acknowledged e !! (peer, key) end
     else eng_acknowledged e !! (peer, key)).
Proof.
  cbn zeta. unfold settle_ack.
  set (mid := foldl (settle peer to_send SyncAcknowledged now) e (ack_accepted ack)).
  pose proof (settle_all_lookup peer to_send SyncAcknowledged now (ack_accepted ack) e) as Hmid.
  pose proof (settle_all_lookup peer to_send SyncConflict now (ack_superseded ack) mid) as Hfin. cbn zeta in *.
  fold mid in Hmid.
  split_and!.
  - destruct (Hmid p key) as ([Hg Ht] & _). destruct (Hfin p key) as ([Hg' Ht'] & _). split; congruence.
  - intros Hp. destruct (Hmid p key) as (_ & Hj & Ha), (Hfin p key) as (_ & Hj' & Ha').
    repeat case_decide; try tauto. split; congruence.
  - destruct (Hmid peer key) as (_ & Hj & _), (Hfin peer key) as (_ & Hj' & _). rewrite Hj', Hj.
    repeat (case_decide; try tauto).
  - destruct (Hmid peer key) as (_ & _ & Ha), (Hfin peer key) as (_ & _ & Ha'). rewrite Ha', Ha.
    destruct (list_find _ to_send) as [[]|]; repeat (case_decide; try tauto).
Qed.

(** A payload for an admitted peer. *)
Definition rightly_sent (net : Net) (entries : list VaultEntry) (e : SyncEngine) (x : string * WrappedRecords) : Prop :=
  exists ad es n, ad ∈ net_peers net /\ admit_peer e ad = Ok x.1 /\
    (forall entry, entry ∈ es -> entry ∈ entries) /\ length (ad_transport_public_key (sa_advertisement ad)) = 32 /\
    wrap_for e (net_nonce net n) x.1 (ad_transport_public_key (sa_advertisement ad)) es = Ok x.2.

Record publish_step (net : Net) (entries : list VaultEntry) (peer : string)
    (e e' : SyncEngine) (sent sent' : list (string * WrappedRecords)) : Prop := {
  ps_keys : same_keys e e';
  ps_others : forall p, p <> peer -> same_peer p e e';
  ps_sent : sent `prefix_of` sent';
}.

Lemma publish_to_frame net entries now ad e sent r e' sent' :
  publish_to net entries now ad e sent = (r, e', sent') ->
  publish_step net entries (ad_peer (sa_advertisement ad)) e e' sent sent'.
Proof.
  assert (forall peer es st e0 e1 p, (forall key, eng_journal e1 !! (p, key) = eng_journal e0 !! (p, key)) ->
    p <> peer -> same_keys e0 e1 -> eng_acknowledged e1 = eng_acknowledged e0 ->
    same_peer p e0 (on_journal (note_all peer es st now) e1)) as Hnote.
  { intros peer es st e0 e1 p Hj Hp _ Ha key. simpl. rewrite Ha, note_all_lookup, decide_False by tauto. by rewrite Hj. }
  unfold publish_to. destruct (admit_peer e ad) as [peer|reason|] eqn:Ea.
  2,3: intros [= <- <- <-]; split; [done| |done]; intros p Hp; first [by apply Hnote|done].
  rewrite <- (admit_peer_name _ _ _ Ea). case_decide; [by intros [= <- <- <-]; split|].
  destruct (transport_public_key_of _) as [pk|err|]; [|by intros [= <- <- <-]; split..].
  destruct (wrap_for _ _ _ _ _) as [payload|err|]; [|by intros [= <- <- <-]; split..].
  destruct (net_answer _ _ _ _) as [ack|err|]; intros [= <- <- <-]; (split; [| |by apply prefix_app_r]).
  - by destruct (settle_ack_lookup peer (unsent e peer entries) now ack
      (on_journal (note_all peer (unsent e peer entries) SyncSent now) e) peer (mkRecordKey "" "")) as [[] _].
  - intros p Hp key. destruct (settle_ack_lookup peer (unsent e peer entries) now ack
      (on_journal (note_all peer (unsent e peer entries) SyncSent now) e) p key) as (_ & Hother & _).
    destruct (Hother Hp) as [-> ->]. by apply Hnote.
  - done.
  - intros p Hp. apply (Hnote peer _ _ e (on_journal (note_all peer (unsent e peer entries) SyncSent now) e)); try done.
    intros key. by apply Hnote.
  - done.
  - intros p Hp. by apply Hnote.
Qed.

Lemma publish_to_sent net entries now ad e sent r e' sent' :
  ad ∈ net_peers net -> publish_to net entries now ad e sent = (r, e', sent') ->
  forall x, x ∈ sent' -> x ∈ sent \/ rightly_sent net entries e x.
Proof.
  intros Had. unfold publish_to. destruct (admit_peer e ad) as [peer|reason|] eqn:Ea; [|intros [= _ _ <-]; by left..].
  case_decide; [intros [= _ _ <-]; by left|].
  unfold transport_public_key_of. case_decide as Hlen; [|intros [= _ _ <-]; by left].
  destruct (wrap_for _ _ _ _ _) as [payload|err|] eqn:Ew; [|intros [= _ _ <-]; by left..].
  assert (forall x, x ∈ sent ++ [(peer, payload)] -> x ∈ sent \/ rightly_sent net entries e x) as Hx.
  { intros x [?| ->%list_elem_of_singleton]%elem_of_app; [by left|right].
    exists ad, (unsent e peer entries), (length sent). split_and!; [done|done| |done|done].
    by intros entry [? _]%unsent_elem. }
  by destruct (net_answer _ _ _ _); intros [= _ _ <-].
Qed.

Lemma publish_to_published net entries now ad e sent e' sent' entry :
  NoDup (record_key_of <$> entries) -> entry ∈ entries ->
  publish_to net entries now ad e sent = (Ok (), e', sent') -> published net sent' e e' ad entry.
Proof.
  intros Hnd He. unfold publish_to, published. destruct (admit_peer e ad) as [peer|reason|] eqn:Ea; [| |done].
  2: { intros [= <- <-]. unfold journal_status. simpl. split; [|done].
       rewrite note_all_lookup, decide_True; [done|]. split; [done|]. by apply list_elem_of_fmap_2. }
  rewrite <- (admit_peer_name _ _ _ Ea). set (key := record_key_of entry).
  set (to_send := unsent e peer entries). case_decide as Hempty.
  { intros [= <- <-]. case_decide as Hack; [auto|]. exfalso.
    assert (entry ∈ to_send) as Hin by (by apply unsent_elem). rewrite Hempty in Hin. by apply elem_of_nil in Hin. }
  destruct (transport_public_key_of _) as [pk|err|]; [|done..].
  destruct (wrap_for _ _ _ _ _) as [payload|err|]; [|done..].
  assert (eng_acknowledged e !! (peer, key) <> Some (written_at entry) ->
    note_all peer to_send SyncSent now (eng_journal e) !! (peer, key) = Some (mkJournalEntry peer key SyncSent now)) as Hsent.
  { intros Hn. rewrite note_all_lookup, decide_True; [done|]. split; [done|]. by apply list_elem_of_fmap_2, unsent_elem. }
  destruct (net_answer net sent peer payload) as [ack|err|] eqn:Eans; [| |done]; intros [= <- <-].
  - destruct (settle_ack_lookup peer to_send now ack (on_journal (note_all peer to_send SyncSent now) e) peer key)
      as (_ & _ & Hj & Ha). simpl in Hj, Ha. unfold journal_status. rewrite Hj, Ha. clear Hj Ha.
    destruct (decide (eng_acknowledged e !! (peer, key) = Some (written_at entry))) as [Hack|Hack].
    + pose proof (settled_not_unsent e peer entries entry Hnd He Hack) as Hno. fold key to_send in Hno.
      assert (list_find (fun x => record_key_of x = key) to_send = None) as ->.
      { apply list_find_None, Forall_forall. intros x Hx Ek. apply Hno. rewrite <- Ek. by apply list_elem_of_fmap_2. }
      simpl. split; [by case_decide|]. case_decide; [simpl; auto|]. case_decide; [simpl; auto|].
      rewrite note_all_lookup, decide_False by (intros [_ ?]; done). by left.
    + exists sent, payload. split; [done|]. rewrite Eans.
      assert (snd <$> list_find (fun x => record_key_of x = key) to_send = Some entry) as Hf.
      { apply find_entry; [by apply unsent_NoDup|by apply unsent_elem]. }
      rewrite Hf, (Hsent Hack). repeat (case_decide; simpl; try tauto).
  - unfold journal_status. simpl. case_decide as Hack.
    + pose proof (settled_not_unsent e peer entries entry Hnd He Hack) as Hno. fold key to_send in Hno.
      split; [done|]. left. by rewrite !note_all_lookup, !decide_False by (intros [_ ?]; done).
    + exists sent, payload. split; [done|]. rewrite Eans. split; [|done].
      rewrite note_all_lookup, decide_True; [done|]. split; [done|]. by apply list_elem_of_fmap_2, unsent_elem.
Qed.

Lemma published_frame net sent sent' e0 e e1 e' ad entry :
  same_keys e0 e -> same_peer (ad_peer (sa_advertisement ad)) e0 e ->
  same_peer (ad_peer (sa_advertisement ad)) e1 e' -> sent `prefix_of` sent' ->
  published net sent e e1 ad entry -> published net sent' e0 e' ad entry.
Proof.
  intros Hk Hs0 Hs1 Hpre. destruct (Hs0 (record_key_of entry)) as [J0 A0], (Hs1 (record_key_of entry)) as [J1 A1].
  unfold published, journal_status. rewrite (admit_peer_keys _ _ _ Hk), J0, A0, J1, A1.
  destruct (admit_peer e0 ad); [|done..]. case_decide; [done|].
  intros (before & payload & Hb & Hans). exists before, payload. split; [by transitivity sent|done].
Qed.

Lemma publish_loop_frame net entries now ads e sent r e' sent' :
  publish_loop net entries now ads e sent = (r, e', sent') ->
  same_keys e e' /\ sent `prefix_of` sent' /\
  (forall p, p ∉ (fun ad => ad_peer (sa_advertisement ad)) <$> ads -> same_peer p e e').
Proof.
  revert e sent. induction ads as [|ad ads IH]; intros e sent; simpl.
  { intros [= <- <- <-]. by split_and!. }
  destruct (publish_to net entries now ad e sent) as [[r1 e1] sent1] eqn:E.
  destruct (publish_to_frame _ _ _ _ _ _ _ _ _ E) as [Hk Ho Hs].
  assert (forall p, p ∉ (fun ad => ad_peer (sa_advertisement ad)) <$> ad :: ads -> same_peer p e e1) as H1.
  { intros p Hp. apply Ho. intros ->. apply Hp. rewrite fmap_cons. set_solver. }
  destruct r1; [|by intros [= <- <- <-]..]. intros Hl. destruct (IH _ _ Hl) as (Hk' & Hs' & Ho').
  split_and!; [destruct Hk, Hk'; split; congruence|by transitivity sent1|].
  intros p Hp key. destruct (H1 p Hp key) as [<- <-]. apply not_elem_of_cons in Hp as [_ Hp]. by apply Ho'.
Qed.

Lemma publish_loop_sent net entries now ads e sent r e' sent' :
  (forall ad, ad ∈ ads -> ad ∈ net_peers net) -> publish_loop net entries now ads e sent = (r, e', sent') ->
  forall x, x ∈ sent' -> x ∈ sent \/ rightly_sent net entries e x.
Proof.
  revert e sent. induction ads as [|ad ads IH]; intros e sent Hin; simpl; [intros [= _ _ <-]; by left|].
  destruct (publish_to net entries now ad e sent) as [[r1 e1] sent1] eqn:E. intros Hl x Hx.
  assert (forall x, x ∈ sent1 -> x ∈ sent \/ rightly_sent net entries e x) as H1.
  { eapply publish_to_sent; [|exact E]. apply Hin. by left. }
  destruct r1; [|injection Hl as _ _ <-; by apply H1..].
  destruct (publish_to_frame _ _ _ _ _ _ _ _ _ E) as [[Hg Ht] _ _].
  destruct (IH e1 sent1 (fun a Ha => Hin a (list_elem_of_further _ _ _ Ha)) Hl x Hx)
    as [?|(ad' & es & n & Ha & Hadm & Hes & Hlen & Hw)]; [by apply H1|].
  right. exists ad', es, n. split_and!; [done| |done|done|].
  - by rewrite <- (admit_peer_keys e e1).
  - unfold wrap_for in *. by rewrite Ht in Hw.
Qed.

Lemma publish_loop_published net entries now ads e sent e' sent' ad entry :
  NoDup (record_key_of <$> entries) -> entry ∈ entries ->
  NoDup ((fun ad => ad_peer (sa_advertisement ad)) <$> ads) -> ad ∈ ads ->
  publish_loop net entries now ads e sent = (Ok (), e', sent') -> published net sent' e e' ad entry.
Proof.
  intros Hnd He. revert e sent. induction ads as [|a ads IH]; intros e sent Hads Hin; [by apply elem_of_nil in Hin|].
  rewrite fmap_cons in Hads. apply NoDup_cons in Hads as [Ha Hads]. simpl.
  destruct (publish_to net entries now a e sent) as [[r1 e1] sent1] eqn:E. destruct r1 as [[]| |]; [|done..].
  destruct (publish_to_frame _ _ _ _ _ _ _ _ _ E) as [Hk Ho Hs]. intros Hl.
  destruct (publish_loop_frame _ _ _ _ _ _ _ _ _ Hl) as (Hk' & Hs' & Ho').
  apply elem_of_cons in Hin as [->|Hin].
  - eapply (published_frame net sent1 sent' e e e1 e'); [done|by intros key|by apply Ho'|done|].
    by eapply publish_to_published.
  - eapply (published_frame net sent' sent' e e1 e' e'); [done| |by intros key|done|by eapply IH].
    apply Ho. intros E'. apply Ha. rewrite <- E'. by apply (list_elem_of_fmap_2 (fun ad => ad_peer (sa_advertisement ad))).
Qed.

(** A completed publication leaves the journal true for every peer and slot: a
    refused peer with its reason, a slot already settled as it was, a sent slot with
    what the peer answered, and exactly the answered slots are settled. *)
Theorem publish_journal_correct net entries now challenge e e' sent :
  publish net entries now challenge e = (Ok (), e', sent) ->
  NoDup (record_key_of <$> entries) ->
  NoDup ((fun ad => ad_peer (sa_advertisement ad)) <$> net_peers net) ->
  forall ad entry, ad ∈ net_peers net -> entry ∈ entries -> published net sent e e' ad entry.
Proof.
  unfold publish. destruct (eng_group_secret e); [|done]. destruct (net_advertise _ _); [|done..].
  intros Hl Hnd Hads ad entry Had He. by eapply publish_loop_published.
Qed.

(** C17. Whatever the transport answers, a payload is only handed over for a peer whose
    advertisement passed both checks, sealed for the key that advertisement names and
    holding only vault entries; it opens, as those entries, for the owner of that key,
    and under ideal seals for nobody who agrees on another secret. *)
Theorem publish_sends_to_admitted `{!IdealSeals} net entries now challenge e r e' sent peer payload :
  publish net entries now challenge e = (r, e', sent) -> (forall n, length (net_nonce net n) = 12) ->
  (peer, payload) ∈ sent ->
  exists ad es group_secret, ad ∈ net_peers net /\ peer = ad_peer (sa_advertisement ad) /\
    verify (ad_signing_key_id (sa_advertisement ad)) (ad_to_vec (sa_advertisement ad)) (sa_signature ad) = Ok true /\
    eng_group_secret e = Some group_secret /\
    ad_group_proof (sa_advertisement ad) = proof_for group_secret (ad_challenge (sa_advertisement ad)) /\
    (forall entry, entry ∈ es -> entry ∈ entries) /\
    forall reader local,
      (x25519_public (eng_transport_key reader) = ad_transport_public_key (sa_advertisement ad) ->
       receive reader payload local =
         Ok (let '(retain, accepted, superseded) := reconcile_all local es in
             mkOutcome retain (mkAckOf "" accepted superseded))) /\
      (shared_secret (eng_transport_key reader) (x25519_public (eng_transport_key e)) <>
         shared_secret (eng_transport_key e) (ad_transport_public_key (sa_advertisement ad)) ->
       receive reader payload local = Err Undecryptable).
Proof.
  intros Hp Hnonce Hx.
  assert (rightly_sent net entries e (peer, payload)) as (ad & es & n & Had & Hadm & Hes & Hlen & Hw).
  { revert Hp. unfold publish. destruct (eng_group_secret e); [|intros [= _ _ <-]; by apply elem_of_nil in Hx].
    destruct (net_advertise _ _); [|intros [= _ _ <-]; by apply elem_of_nil in Hx..]. intros Hl.
    destruct (publish_loop_sent _ _ _ _ _ _ _ _ _ (fun _ H => H) Hl _ Hx) as [?%elem_of_nil|?]; done. }
  simpl in *. exists ad, es. pose proof (admit_peer_name _ _ _ Hadm) as Hpeer. unfold admit_peer in Hadm.
  destruct (verify _ _ _) as [[]| |] eqn:Ev; simpl in Hadm; try done.
  destruct (eng_group_secret e) as [gs|] eqn:Eg; simpl in Hadm; [|done]. exists gs.
  unfold verifies in Hadm. case_bool_decide as Hproof; [|done].
  split_and!; [done|done|done|done|done|done|]. intros reader local. split.
  - intros Hkey. rewrite <- Hkey in Hw.
    eapply receive_wrapped; [apply Hnonce|exact Hw].
  - intros Hne. revert Hw. unfold wrap_for. destruct (aead_encrypt _ _ _ _) as [c|] eqn:E; [|done]. intros [= <-].
    unfold receive, open_sealed; simpl. rewrite decide_True by apply public_key_length. rewrite decide_True by done.
    destruct (aead_decrypt _ _ _ _) as [m|] eqn:D; [|done]. destruct (aead_bound _ _ _ _ _ _ _ _ _ E D) as [? _]. done.
Qed.
End publishing.

(** ** The summary an account shows *)

Lemma max_summary_worst l s :
  max_summary l = Some s <-> s ∈ l /\ forall t, t ∈ l -> severity t <= severity s.
Proof.
  assert (forall s t, severity s = severity t -> s = t) as Hinj by (by intros [] []).
  revert s. induction l as [|x l IH]; intros s; simpl.
  { split; [done|]. by intros [?%elem_of_nil _]. }
  setoid_rewrite elem_of_cons. destruct (max_summary l) as [m|] eqn:E.
  - destruct (proj1 (IH m) eq_refl) as [Hm Hmax]. case_decide; split.
    + intros [= <-]. split; [by left|]. intros t [->|Ht]; [done|]. apply Hmax in Ht. lia.
    + intros [[->|Hs] Hall]; [done|]. f_equal. apply Hinj. apply Hmax in Hs. specialize (Hall x). naive_solver lia.
    + intros [= <-]. split; [by right|]. intros t [->|Ht]; [lia|]. by apply Hmax.
    + intros [Hs Hall]. f_equal. apply Hinj. pose proof (Hall m (or_intror Hm)). destruct Hs as [->|Hs]; [lia|].
      apply Hmax in Hs. lia.
  - assert (l = []) as -> by (destruct l; [done|]; simpl in E; by destruct (max_summary l)).
    split; [intros [= <-]; split; [by left|]; by intros t [->|?%elem_of_nil]|].
    by intros [[->|?%elem_of_nil] _].
Qed.

Lemma for_record_elem r j line :
  line ∈ for_record r j <-> exists peer, j !! (peer, r) = Some line.
Proof.
  unfold for_record. rewrite list_elem_of_fmap. split.
  - intros ([[peer k] l] & -> & [Hk Hl]%list_elem_of_filter). simpl in Hk. subst k.
    unfold journal_lines in Hl. rewrite sort_by_Permutation in Hl. apply elem_of_map_to_list in Hl. by exists peer.
  - intros [peer Hl]. exists ((peer, r), line). split; [done|]. apply list_elem_of_filter. split; [done|].
    unfold journal_lines. rewrite sort_by_Permutation. by apply elem_of_map_to_list.
Qed.

(** The summary is the worst any peer's line says; an account is synced exactly when
    some peer was offered it and all of them acknowledged. *)
Theorem account_summary_correct r j :
  (forall s, account_summary r j = Some s <->
     (exists peer st, journal_status peer r j = Some st /\ summary_of st = s) /\
     forall peer st, journal_status peer r j = Some st -> severity (summary_of st) <= severity s) /\
  (account_summary r j = Some Synced <->
     (exists peer st, journal_status peer r j = Some st) /\
     forall peer st, journal_status peer r j = Some st -> st = SyncAcknowledged).
Proof.
  assert (forall st, (exists peer, journal_status peer r j = Some st) <->
            exists line, line ∈ for_record r j /\ je_status line = st) as Hlines.
  { intros st. setoid_rewrite for_record_elem. unfold journal_status. setoid_rewrite fmap_Some. naive_solver. }
  assert (forall s, account_summary r j = Some s <->
     (exists peer st, journal_status peer r j = Some st /\ summary_of st = s) /\
     forall peer st, journal_status peer r j = Some st -> severity (summary_of st) <= severity s) as Hall.
  { intros s. unfold account_summary. rewrite max_summary_worst. setoid_rewrite list_elem_of_fmap. split.
    - intros [(line & -> & Hl) Hmax]. split.
      + destruct (proj2 (Hlines (je_status line)) (ex_intro _ line (conj Hl eq_refl))) as [peer Hp]. by exists peer, (je_status line).
      + intros peer st Hp. destruct (proj1 (Hlines st) (ex_intro _ peer Hp)) as (l & Hl' & <-). apply Hmax. by exists l.
    - intros [(peer & st & Hp & <-) Hmax]. destruct (proj1 (Hlines st) (ex_intro _ peer Hp)) as (line & Hl & <-). split; [by exists line|].
      intros t (l & -> & Hl'). destruct (proj2 (Hlines (je_status l)) (ex_intro _ l (conj Hl' eq_refl))) as [p Hp']. by eapply Hmax. }
  split; [done|]. rewrite Hall. split.
  - intros [(peer & st & Hp & _) Hmax]. split; [by exists peer, st|]. intros p st' Hp'%Hmax. destruct st'; simpl in Hp'; (done || lia).
  - intros [(peer & st & Hp) Hack]. pose proof (Hack _ _ Hp) as ->. split; [by exists peer, SyncAcknowledged|].
    intros p st' ->%Hack. done.
Qed.

(** ** What the documents rule out *)

Section divergence.
Context `{SealPrims, SyncPorts}.

(** The deletion of a record in the second the record was written. *)
Definition deletion_of (r : CredentialRecord) : VaultEntry :=
  EntryTombstone (mkTombstone (cr_provider r) (cr_account r) (cr_version r) (cr_updated_at r)).

Lemma deletion_ties r :
  record_key_of (deletion_of r) = record_key_of (EntryRecord r) /\ written_at (deletion_of r) = written_at (EntryRecord r) /\
  survivor (Some (EntryRecord r)) (deletion_of r) = deletion_of r /\ survivor (Some (deletion_of r)) (EntryRecord r) = EntryRecord r.
Proof. split_and!; [done|done|..]; unfold survivor; simpl; by rewrite !N.compare_refl. Qed.

(** A payload that has an entry for the slot lands as the survivor of the two. *)
Lemma crossing_lands local l v (sender : slots) e :
  lists local v -> keyed v -> (forall x, x ∈ l -> sender !! record_key_of x = Some x) -> e ∈ l ->
  retain_all (reconcile_all local l).1.1 v !! record_key_of e = Some (survivor (v !! record_key_of e) e).
Proof.
  intros Hl Hk Hs He. rewrite (retain_reconciled local l v sender) by done.
  destruct (list_find _ l) as [[i x]|] eqn:E.
  - apply list_find_Some in E as (Hi%list_elem_of_lookup_2 & Ex & _).
    assert (x = e) as -> by (apply Hs in Hi, He; congruence). done.
  - apply list_find_None in E. exfalso. by eapply (proj1 (Forall_forall _ _) E).
Qed.

(** Calls of [publish], one after another, whatever they answer, while the vault has [kept]. *)
Inductive publishes (kept : VaultEntry) : SyncEngine -> list (string * WrappedRecords) -> SyncEngine -> Prop :=
| publishes_nil e : publishes kept e [] e
| publishes_cons net entries now challenge e r e1 sent1 sent2 e2 :
    NoDup (record_key_of <$> entries) -> kept ∈ entries ->
    publish net entries now challenge e = (r, e1, sent1) -> publishes kept e1 sent2 e2 ->
    publishes kept e (sent1 ++ sent2) e2.

(** A payload in which there is nothing of a slot. *)
Definition silent_about (key : RecordKey) (e : SyncEngine) (x : string * WrappedRecords) : Prop :=
  exists nonce peer_public es, wrap_for e nonce x.1 peer_public es = Ok x.2 /\ key ∉ record_key_of <$> es.

Lemma silent_about_keys key e e' x : same_keys e e' -> silent_about key e' x -> silent_about key e x.
Proof.
  intros [_ Ht] (nonce & pk & es & Hw & Hk). exists nonce, pk, es. split; [|done]. unfold wrap_for in *. by rewrite Ht in Hw.
Qed.

Section settled.
Context (kept : VaultEntry) (peer : string).
#[local] Notation key := (record_key_of kept).

(** The slot stays settled with the peer, and what the peer is sent is silent about it. *)
Definition settled_with (e e' : SyncEngine) (sent : list (string * WrappedRecords)) : Prop :=
  same_keys e e' /\ eng_acknowledged e' !! (peer, key) = Some (written_at kept) /\
  forall x, x ∈ sent -> x.1 = peer -> silent_about key e x.

Lemma publish_to_settled net entries now ad e sent r e' sent' :
  NoDup (record_key_of <$> entries) -> kept ∈ entries -> settled_with e e sent ->
  publish_to net entries now ad e sent = (r, e', sent') -> settled_with e e' sent'.
Proof.
  intros Hnd Hin (_ & Hack & Hsent) E. pose proof (publish_to_frame _ _ _ _ _ _ _ _ _ E) as [Hk Ho _]. revert E.
  unfold publish_to. destruct (admit_peer e ad) as [p|reason|] eqn:Ea; [|by intros [= _ <- <-]..].
  rewrite <- (admit_peer_name _ _ _ Ea) in Ho. set (to_send := unsent e p entries).
  assert (p = peer -> key ∉ record_key_of <$> to_send) as Hno by (intros ->; by apply settled_not_unsent).
  case_decide; [by intros [= _ <- <-]|]. destruct (transport_public_key_of _) as [pk| |]; [|by intros [= _ <- <-]..].
  destruct (wrap_for _ _ _ _ _) as [payload| |] eqn:Ew; [|by intros [= _ <- <-]..].
  assert (forall x, x ∈ sent ++ [(p, payload)] -> x.1 = peer -> silent_about key e x) as Hsent'.
  { intros x [?| ->%list_elem_of_singleton]%elem_of_app Hx; [by apply Hsent|]. simpl in Hx.
    exists (net_nonce net (length sent)), pk, to_send. split; [done|by apply Hno]. }
  intros E. assert (sent' = sent ++ [(p, payload)]) as -> by (by destruct (net_answer _ _ _ _); injection E as _ _ <-).
  split_and!; [done| |done]. destruct (decide (peer = p)) as [->|Hp].
  - destruct (net_answer _ _ _ _) as [ack|err|]; injection E as _ <-; [|done..].
    destruct (settle_ack_lookup p to_send now ack (on_journal (note_all p to_send SyncSent now) e) p key) as (_ & _ & _ & ->).
    replace (list_find (fun entry => record_key_of entry = key) to_send) with (@None (nat * VaultEntry)); [by case_decide|].
    symmetry. apply list_find_None, Forall_forall. intros x Hx Ex. apply Hno; [done|]. rewrite <- Ex. by apply list_elem_of_fmap_2.
  - destruct (Ho peer Hp key) as [_ ->]. done.
Qed.

Lemma publish_loop_settled net entries now ads e sent r e' sent' :
  NoDup (record_key_of <$> entries) -> kept ∈ entries -> settled_with e e sent ->
  publish_loop net entries now ads e sent = (r, e', sent') -> settled_with e e' sent'.
Proof.
  intros Hnd Hin. revert e sent. induction ads as [|ad ads IH]; intros e sent Hs; simpl; [by intros [= _ <- <-]|].
  destruct (publish_to net entries now ad e sent) as [[r1 e1] sent1] eqn:E.
  destruct (publish_to_settled _ _ _ _ _ _ _ _ _ Hnd Hin Hs E) as (Hk & Ha & Hx).
  destruct r1; [|by intros [= _ <- <-]..]. intros Hl.
  assert (settled_with e1 e1 sent1) as H1.
  { split_and!; [done|done|]. intros x Hxin Hp. eapply silent_about_keys; [|by apply Hx]. by destruct Hk. }
  destruct (IH _ _ H1 Hl) as (Hk' & Ha' & Hx'). split_and!; [destruct Hk, Hk'; split; congruence|done|].
  intros x Hxin Hp. eapply silent_about_keys; [exact Hk|by apply Hx'].
Qed.

Lemma publishes_settled e sent e' :
  publishes kept e sent e' -> eng_acknowledged e !! (peer, key) = Some (written_at kept) ->
  forall x, x ∈ sent -> x.1 = peer -> silent_about key e x.
Proof.
  induction 1 as [e|net entries now challenge e r e1 sent1 sent2 e2 Hnd Hin E _ IH]; intros Hack x Hx Hp; [by apply elem_of_nil in Hx|].
  assert (settled_with e e1 sent1) as (Hk & Ha & Hs).
  { assert (settled_with e e []) as Hnone by (split_and!; [done|done|]; intros y Hy; by apply elem_of_nil in Hy).
    revert E. unfold publish. destruct (eng_group_secret e); [|by intros [= _ <- <-]].
    destruct (net_advertise _ _); [|by intros [= _ <- <-]..]. by apply publish_loop_settled. }
  apply elem_of_app in Hx as [Hx|Hx]; [by apply Hs|]. eapply silent_about_keys; [exact Hk|by apply IH].
Qed.
End settled.

(** C39. A record deleted within the second it was written carries the deletion's clock.
    When a daemon that has the record and one that has the deletion exchange payloads that
    cross, whatever else their vaults and payloads hold, each ends with the other's answer.
    And once a peer has acknowledged the record, it is never sent the deletion: whatever
    publications follow while the vault has it, with whichever peers, entries and failures,
    every payload for that peer is a sealing of entries none of which is of that slot. *)
Theorem same_second_deletion_lost r :
  let record := EntryRecord r in
  let deletion := deletion_of r in
  let key := record_key_of record in
  (forall va vb local_a local_b to_a to_b,
     lists local_a va -> lists local_b vb -> keyed va -> keyed vb -> va !! key = Some record -> vb !! key = Some deletion ->
     (forall x, x ∈ to_b -> va !! record_key_of x = Some x) -> (forall x, x ∈ to_a -> vb !! record_key_of x = Some x) ->
     record ∈ to_b -> deletion ∈ to_a ->
     retain_all (reconcile_all local_a to_a).1.1 va !! key = Some deletion /\
     retain_all (reconcile_all local_b to_b).1.1 vb !! key = Some record) /\
  (forall e peer sent e', eng_acknowledged e !! (peer, key) = Some (written_at record) -> publishes deletion e sent e' ->
     forall payload, (peer, payload) ∈ sent -> silent_about key e (peer, payload)).
Proof.
  destruct (deletion_ties r) as (Ek & Ew & S1 & S2). intros record deletion key. split.
  - intros va vb local_a local_b to_a to_b Hla Hlb Hka Hkb Ha Hb Hta Htb Hr Hd. split.
    + pose proof (crossing_lands local_a to_a va vb deletion Hla Hka Htb Hd) as E.
      change (record_key_of deletion) with key in E. rewrite Ha in E. rewrite E. f_equal. exact S1.
    + pose proof (crossing_lands local_b to_b vb va record Hlb Hkb Hta Hr) as E. fold key in E. rewrite Hb in E. rewrite E. f_equal. exact S2.
  - intros e peer sent e' Hack Hp payload Hin.
    eapply (publishes_settled deletion peer e sent e'); [done|exact Hack|done|done].
Qed.

(** The challenge of an advertisement is chosen by its sender and remembered by
    nobody: once one advertisement has been admitted, any daemon with a published
    identity is admitted by copying that challenge and its proof. *)
Theorem captured_proof_admits e ad ad' peer :
  admit_peer e ad = Ok peer ->
  verify (ad_signing_key_id (sa_advertisement ad')) (ad_to_vec (sa_advertisement ad')) (sa_signature ad') = Ok true ->
  ad_challenge (sa_advertisement ad') = ad_challenge (sa_advertisement ad) ->
  ad_group_proof (sa_advertisement ad') = ad_group_proof (sa_advertisement ad) ->
  admit_peer e ad' = Ok (ad_peer (sa_advertisement ad')).
Proof.
  unfold admit_peer. intros Hadm -> -> ->. destruct (verify _ _ (sa_signature ad)) as [[]| |]; simpl in *; try done.
  destruct (eng_group_secret e); simpl in *; [|done]. by destruct (verifies _ _ _).
Qed.
End divergence.

(** ** Witnesses *)

Section witnesses.
#[local] Existing Instance packed_prims.
#[local] Existing Instance packed_ideal.
#[local] Existing Instance toy_ports.

(** A daemon with a published identity and the group's secret. *)
Definition demo_ad (peer proof_of : string) (i : nat) : SignedAdvertisement :=
  let a := mkAd peer "key-1" (toy_public [byte_of (N.of_nat i)]) demo_nonce (proof_for proof_of demo_nonce) in
  mkSignedAd a (text_bytes "key-1" ++ ad_to_vec a).

(** One peer of the group that takes what it is sent, and a stranger. *)
Definition demo_net : Net :=
  mkNet (fun _ => Ok ()) [demo_ad "beta" "group" 1; demo_ad "mallory" "guess" 2]
    (fun _ _ _ => Ok (mkAckOf "" [record_key_of demo_record] [])) (fun _ => demo_nonce).

Definition demo_settled : SyncEngine :=
  mkSyncEngine (Some "group") [byte_of 0]
    (note "beta" (record_key_of demo_record) SyncAcknowledged 8
      (note "beta" (record_key_of demo_record) SyncSent 8 ∅))
    {[("beta", record_key_of demo_record) := 7%N]}.

Definition demo_published : SyncEngine :=
  on_journal (note "mallory" (record_key_of demo_record) (SyncRefused GroupSecretMismatch) 8) demo_settled.

Definition demo_sent : list (string * WrappedRecords) :=
  [("beta", mkWrapped "beta" (toy_public [byte_of 0]) demo_nonce
     (pack (shared_secret [byte_of 0] (toy_public [byte_of 1]), demo_nonce, pack [demo_record],
            wrap_aad "beta" (toy_public [byte_of 0]))))].

Lemma demo_verified peer proof_of i :
  let ad := demo_ad peer proof_of i in
  verify (ad_signing_key_id (sa_advertisement ad)) (ad_to_vec (sa_advertisement ad)) (sa_signature ad) = Ok true.
Proof.
  cbn [demo_ad sa_advertisement sa_signature ad_signing_key_id verify toy_ports].
  by rewrite decide_False, bool_decide_true by done.
Qed.

(** An advertisement with a good signature stands or falls with its proof. *)
Lemma demo_admit peer proof_of i :
  admit_peer (demo_engine 0) (demo_ad peer proof_of i) =
    if verifies "group" demo_nonce (proof_for proof_of demo_nonce) then Ok peer else Err GroupSecretMismatch.
Proof.
  unfold admit_peer. rewrite demo_verified. cbn [res_bind negb ok_or eng_group_secret demo_engine SyncEngine_new].
  change (ad_challenge (sa_advertisement (demo_ad peer proof_of i))) with demo_nonce.
  change (ad_group_proof (sa_advertisement (demo_ad peer proof_of i))) with (proof_for proof_of demo_nonce).
  by destruct (verifies _ _ _).
Qed.

Lemma demo_admits : admit_peer (demo_engine 0) (demo_ad "beta" "group" 1) = Ok "beta".
Proof. rewrite demo_admit. unfold verifies. by rewrite bool_decide_true. Qed.

Lemma demo_refuses : admit_peer (demo_engine 0) (demo_ad "mallory" "guess" 2) = Err GroupSecretMismatch.
Proof.
  rewrite demo_admit. unfold verifies. rewrite bool_decide_false; [done|].
  unfold proof_for. cbn [hmac_sha256 packed_prims]. intros E%(inj pack). discriminate.
Qed.

Lemma demo_beta :
  publish_to demo_net [demo_record] 8 (demo_ad "beta" "group" 1) (demo_engine 0) [] = (Ok (), demo_settled, demo_sent).
Proof.
  unfold publish_to. rewrite demo_admits.
  replace (unsent (demo_engine 0) "beta" [demo_record]) with [demo_record] by reflexivity.
  rewrite decide_False by done. unfold transport_public_key_of. rewrite decide_True by reflexivity. reflexivity.
Qed.

Lemma demo_publishes : publish demo_net [demo_record] 8 [] (demo_engine 0) = (Ok (), demo_published, demo_sent).
Proof.
  change (publish_loop demo_net [demo_record] 8 (net_peers demo_net) (demo_engine 0) [] = (Ok (), demo_published, demo_sent)).
  cbn [net_peers demo_net publish_loop]. rewrite demo_beta. unfold publish_to.
  rewrite (admit_peer_keys (demo_engine 0)) by done. rewrite demo_refuses. reflexivity.
Qed.

Lemma publish_journal_correct_witness :
  published demo_net demo_sent (demo_engine 0) demo_published (demo_ad "beta" "group" 1) demo_record.
Proof.
  refine (publish_journal_correct demo_net [demo_record] 8 [] (demo_engine 0) demo_published demo_sent
    demo_publishes _ _ _ _ _ _).
  - apply NoDup_singleton.
  - apply NoDup_cons. split; [|apply NoDup_singleton]. by intros ?%list_elem_of_singleton.
  - by left.
  - by left.
Defined.

Lemma publish_sends_to_admitted_witness :
  exists ad, ad ∈ net_peers demo_net /\ "beta" = ad_peer (sa_advertisement ad).
Proof.
  destruct (publish_sends_to_admitted demo_net [demo_record] 8 [] (demo_engine 0) (Ok ()) demo_published demo_sent
    "beta" _ demo_publishes (fun _ => eq_refl) (list_elem_of_here _ _)) as (ad & _ & _ & Had & Hp & _).
  by exists ad.
Defined.

(** A record at one daemon, its deletion at the other, and nothing else. *)
Lemma same_second_deletion_lost_witness :
  let r := mkCredential "github" "ada" "Ada" "token" ∅ 7 1 in
  retain_all (reconcile_all [demo_record] [deletion_of r]).1.1 (demo_slots demo_record) !! record_key_of demo_record = Some (deletion_of r).
Proof.
  intros r. refine (proj1 (proj1 (same_second_deletion_lost r) (demo_slots demo_record) (demo_slots (deletion_of r))
    [demo_record] [deletion_of r] [deletion_of r] [demo_record] (demo_slots_lists _) (demo_slots_lists _) _ _ eq_refl eq_refl _ _ _ _)).
  - unfold demo_slots. by intros k x [<- <-]%lookup_singleton_Some.
  - unfold demo_slots. by intros k x [<- <-]%lookup_singleton_Some.
  - intros x ->%list_elem_of_singleton. reflexivity.
  - intros x ->%list_elem_of_singleton. reflexivity.
  - by left.
  - by left.
Defined.

(** The stranger shows the proof it saw in another advertisement. *)
Lemma captured_proof_admits_witness :
  admit_peer (demo_engine 0) (demo_ad "mallory" "group" 2) = Ok "mallory".
Proof.
  exact (captured_proof_admits (demo_engine 0) (demo_ad "beta" "group" 1) (demo_ad "mallory" "group" 2) "beta"
    demo_admits (demo_verified _ _ _) eq_refl eq_refl).
Defined.
End witnesses.
