(* ===== verification/Vault.v ===== *)
(** * The credential vault

    The sealed file of [src/packages/tddy-credentials/src/vault.rs] and [vault/]: its
    shape and format check ([format.rs]), the seals and the keys that wrap its data key
    ([crypto.rs]), its unlock slots ([unlock.rs]), and the operations of
    [CredentialStore] and [SessionVault]. A world holds the files of the one directory
    vaults live in; the answers of its file system, and every byte drawn from the
    generator, are arguments. Argon2id and [serde_json] are parameters; the AEAD and
    HMAC are those of [SealPrims]. *)

From Stdlib Require Import Ascii Strings.Byte.
From stdpp Require Import countable.
From S2P Require Import Prelude Text Graph Framing Utf8 Json Credentials.

Local Open Scope io_scope.

(** ** The file *)

Definition FORMAT_VERSION : N := 2.
Definition KDF : string := "argon2id".
Definition KDF_VERSION : N := 19.
Definition M_COST_KIB : N := 19456.
Definition T_COST : N := 2.
Definition P_COST : N := 1.
Definition NONCE_BYTES : nat := 12.
Definition MAX_UNLOCK_SLOTS : nat := 16.
Definition MAX_SET_ASIDE_VAULTS : nat := 5.

Record Header := mkHeader {
  hd_format_version : N;
  hd_kdf : string;
  hd_kdf_version : N;
  hd_m_cost_kib : N;
  hd_t_cost : N;
  hd_p_cost : N;
  hd_salt : string;
}.

Definition Header_fresh (salt : bytes) : Header :=
  mkHeader FORMAT_VERSION KDF KDF_VERSION M_COST_KIB T_COST P_COST (to_hex salt).

Record Sealed := mkSealed { sl_nonce : string; sl_ciphertext : string }.
Record UnlockSlot := mkSlot { us_id : string; us_nonce : string; us_ciphertext : string }.
Record SealedRecord := mkSealedRecord { sr_id : string; sr_nonce : string; sr_ciphertext : string }.

Record VaultFile := mkVaultFile {
  vf_header : Header;
  vf_wrapped_data_key : Sealed;
  vf_unlock_slots : list UnlockSlot;
  vf_verifier : Sealed;
  vf_records : list SealedRecord;
}.

Inductive VaultError :=
| VLocked
| VFormatMismatch (expected found : string)
| VUninitialized
| VAlreadyInitialized
| VNoFreshLogin
| VAlreadyOpen
| VTooManySetAside (kept : nat)
| VIo (message : string)
| VCrypto.

#[global] Instance VaultError_eq_dec : EqDecision VaultError.
Proof. solve_decision. Defined.

(** ** The file as JSON *)

Definition json_text (v : json) : option string := match v with JString s => Some s | _ => None end.

Definition json_u32 (v : json) : option N :=
  match v with
  | JInt z => if decide (0 <= z <= Z.of_N u32_max)%Z then Some (Z.to_N z) else None
  | _ => None
  end.

(** What the derived [Serialize] makes of a vault, by [serde_json]'s map. *)
Definition sealed_value (s : Sealed) : json :=
  JObject [("ciphertext", JString (sl_ciphertext s)); ("nonce", JString (sl_nonce s))].

Definition named_value (id nonce ciphertext : string) : json :=
  JObject [("ciphertext", JString ciphertext); ("id", JString id); ("nonce", JString nonce)].

Definition header_value (h : Header) : json :=
  JObject [("format_version", JInt (Z.of_N (hd_format_version h)));
           ("kdf", JString (hd_kdf h));
           ("kdf_version", JInt (Z.of_N (hd_kdf_version h)));
           ("m_cost_kib", JInt (Z.of_N (hd_m_cost_kib h)));
           ("p_cost", JInt (Z.of_N (hd_p_cost h)));
           ("salt", JString (hd_salt h));
           ("t_cost", JInt (Z.of_N (hd_t_cost h)))].

Definition vault_value (f : VaultFile) : json :=
  JObject [("header", header_value (vf_header f));
           ("records", JArray ((fun r => named_value (sr_id r) (sr_nonce r) (sr_ciphertext r)) <$> vf_records f));
           ("unlock_slots", JArray ((fun s => named_value (us_id s) (us_nonce s) (us_ciphertext s)) <$> vf_unlock_slots f));
           ("verifier", sealed_value (vf_verifier f));
           ("wrapped_data_key", sealed_value (vf_wrapped_data_key f))].

(** What the derived [Deserialize] makes of a document. *)
Definition sealed_of_value (v : json) : option Sealed :=
  nonce ← json_get v "nonce" ≫= json_text;
  ciphertext ← json_get v "ciphertext" ≫= json_text;
  Some (mkSealed nonce ciphertext).

Definition named_of_value (v : json) : option (string * string * string) :=
  id ← json_get v "id" ≫= json_text;
  nonce ← json_get v "nonce" ≫= json_text;
  ciphertext ← json_get v "ciphertext" ≫= json_text;
  Some (id, nonce, ciphertext).

Definition header_of_value (v : json) : option Header :=
  format_version ← json_get v "format_version" ≫= json_u32;
  kdf ← json_get v "kdf" ≫= json_text;
  kdf_version ← json_get v "kdf_version" ≫= json_u32;
  m_cost ← json_get v "m_cost_kib" ≫= json_u32;
  t_cost ← json_get v "t_cost" ≫= json_u32;
  p_cost ← json_get v "p_cost" ≫= json_u32;
  salt ← json_get v "salt" ≫= json_text;
  Some (mkHeader format_version kdf kdf_version m_cost t_cost p_cost salt).

Definition list_of_value {A} (f : string * string * string -> A) (v : json) : option (list A) :=
  match v with JArray l => mapM (fun v => f <$> named_of_value v) l | _ => None end.

Definition vault_of_value (v : json) : option VaultFile :=
  header ← json_get v "header" ≫= header_of_value;
  wrapped ← json_get v "wrapped_data_key" ≫= sealed_of_value;
  slots ← json_get v "unlock_slots" ≫= list_of_value (fun '(i, n, c) => mkSlot i n c);
  verifier ← json_get v "verifier" ≫= sealed_of_value;
  records ← json_get v "records" ≫= list_of_value (fun '(i, n, c) => mkSealedRecord i n c);
  Some (mkVaultFile header wrapped slots verifier records).

Definition describe (show : json -> string) (v : option json) : string :=
  match v with
  | Some (JString text) => text
  | Some other => show other
  | None => "an unversioned"
  end.

Definition check_format (show : json -> string) (document : json) : res VaultError () :=
  let field name := json_get document "header" ≫= fun header => json_get header name in
  let is_number v n := match v with Some (JInt z) => (z =? Z.of_N n)%Z | _ => false end in
  let format_version := field "format_version" in
  if negb (is_number format_version FORMAT_VERSION) then
    Err (VFormatMismatch (pretty FORMAT_VERSION) (describe show format_version))
  else
    let kdf := field "kdf" in
    if negb (bool_decide (kdf ≫= json_text = Some KDF)) then Err (VFormatMismatch KDF (describe show kdf))
    else
      let kdf_version := field "kdf_version" in
      if negb (is_number kdf_version KDF_VERSION) then
        Err (VFormatMismatch (KDF +:+ " v" +:+ pretty KDF_VERSION) (KDF +:+ " v" +:+ describe show kdf_version))
      else
        let m := field "m_cost_kib" in
        let t := field "t_cost" in
        let p := field "p_cost" in
        if negb (is_number m M_COST_KIB && is_number t T_COST && is_number p P_COST) then
          Err (VFormatMismatch
                 (KDF +:+ " m=" +:+ pretty M_COST_KIB +:+ ",t=" +:+ pretty T_COST +:+ ",p=" +:+ pretty P_COST)
                 (KDF +:+ " m=" +:+ describe show m +:+ ",t=" +:+ describe show t +:+ ",p=" +:+ describe show p))
        else Ok ().

(** ** The directory vaults live in *)

(** Where an atomic write fails, if it does: before its rename, or syncing the directory after it. *)
Inductive write_answer := Written | FailedBefore (message : string) | FailedAfter (message : string).

Record VaultWorld := mkVaultWorld {
  vw_files : gmap string bytes;
  (** Files that exist and cannot be read. *)
  vw_unreadable : gset string;
  (** What the writes to come meet; past the list they succeed. *)
  vw_writes : list write_answer;
  (** Why the directory cannot be listed, or a file renamed. *)
  vw_listing : option string;
  vw_rename : option string;
}.

Definition set_files (files : gmap string bytes) (w : VaultWorld) : VaultWorld :=
  mkVaultWorld files (vw_unreadable w) (vw_writes w) (vw_listing w) (vw_rename w).

(** [serde_json] and Argon2id. *)
Class VaultPorts := {
  vault_to_vec : VaultFile -> bytes;
  value_from_slice : bytes -> option json;
  value_show : json -> string;
  header_to_vec : Header -> bytes;
  entry_to_vec : VaultEntry -> bytes;
  entry_from_slice : bytes -> option VaultEntry;
  argon2id : N -> N -> N -> bytes -> bytes -> option bytes;
  vault_text_roundtrip : forall f, value_from_slice (vault_to_vec f) = Some (vault_value f);
  entry_text_roundtrip : forall e, entry_from_slice (entry_to_vec e) = Some e;
}.

Section vault.
Context `{SealPrims, VaultPorts}.

Definition exists_file (path : string) (w : VaultWorld) : bool := bool_decide (is_Some (vw_files w !! path)).

Definition read_vault_file (path : string) : io VaultWorld VaultError (option VaultFile) := fun w =>
  (match vw_files w !! path with
   | None => Ok None
   | Some raw =>
       if decide (path ∈ vw_unreadable w) then Err (VIo ("reading " +:+ path))
       else
         let? document := ok_or (value_from_slice raw) VCrypto in
         let? _ := check_format value_show document in
         let? file := ok_or (vault_of_value document) VCrypto in
         Ok (Some file)
   end, w).

Definition write_vault_file (path : string) (file : VaultFile) : io VaultWorld VaultError () := fun w =>
  let answer := default Written (head (vw_writes w)) in
  let w := mkVaultWorld (vw_files w) (vw_unreadable w) (tail (vw_writes w)) (vw_listing w) (vw_rename w) in
  let replaced := set_files (<[path := vault_to_vec file]> (vw_files w)) w in
  match answer with
  | Written => (Ok (), replaced)
  | FailedBefore message => (Err (VIo ("writing " +:+ path +:+ ": " +:+ message)), w)
  | FailedAfter message => (Err (VIo ("writing " +:+ path +:+ ": " +:+ message)), replaced)
  end.

Definition path_in (subject : string) : string := "credentials-" +:+ to_hex (text_bytes subject) +:+ ".vault".

(** [Path::file_stem] of a name. *)
Definition file_stem (name : string) : string :=
  match rsplit_once "." name with
  | Some (stem, _) => if decide (stem = "") then name else stem
  | None => name
  end.

Fixpoint ends_with (suffix s : string) : bool :=
  bool_decide (s = suffix) || match s with "" => false | String _ s' => ends_with suffix s' end.

Definition count_set_aside (stem : string) (w : VaultWorld) : res VaultError nat :=
  match vw_listing w with
  | Some e => Err (VIo ("listing: " +:+ e))
  | None =>
      Ok (length (filter (fun name => starts_with (stem +:+ ".locked-") name && ends_with ".vault" name = true)
                    (fst <$> map_to_list (vw_files w))))
  end.

(** The [n]-th name a vault may be set aside under. *)
Definition aside_name (stem : string) (now : N) (n : nat) : string :=
  let suffix := if decide (n = 1) then "" else "-" +:+ pretty (N.of_nat n) in
  stem +:+ ".locked-" +:+ pretty now +:+ suffix +:+ ".vault".

(** The first free one; [fuel] names are enough when there are fewer files. *)
Fixpoint free_aside (fuel : nat) (n : nat) (stem : string) (now : N) (w : VaultWorld) : option string :=
  match fuel with
  | O => None
  | S fuel =>
      if exists_file (aside_name stem now n) w then free_aside fuel (S n) stem now w
      else Some (aside_name stem now n)
  end.

(** [now] is [None] when the clock reads before the epoch. *)
Definition set_aside (path : string) (now : option N) : io VaultWorld VaultError string := fun w =>
  let stem := file_stem path in
  match count_set_aside stem w with
  | Err e => (Err e, w)
  | Panic => (Panic, w)
  | Ok kept =>
      if decide (MAX_SET_ASIDE_VAULTS <= kept) then (Err (VTooManySetAside kept), w)
      else
        match now with
        | None => (Err (VIo "the clock reads before the Unix epoch"), w)
        | Some now =>
            match free_aside (S (size (vw_files w))) 1 stem now w with
            | None => (Panic, w)
            | Some aside =>
                match vw_rename w, vw_files w !! path with
                | Some e, _ => (Err (VIo ("setting " +:+ path +:+ " aside as " +:+ aside +:+ ": " +:+ e)), w)
                | None, None => (Err (VIo ("setting " +:+ path +:+ " aside as " +:+ aside +:+ ": not found")), w)
                | None, Some raw => (Ok aside, set_files (<[aside := raw]> (delete path (vw_files w))) w)
                end
            end
        end
  end.

(** ** Seals and keys *)

Definition VERIFIER : bytes := text_bytes "tddy-credentials/v2/verifier".

Definition record_aad (id : string) : bytes := text_bytes "tddy-credentials/v2/record/" ++ text_bytes id.

Definition unlock_info (slot_id subject : string) : string :=
  "tddy-credentials/v2/unlock/" +:+ slot_id +:+ "/" +:+ subject.

Definition unlock_kek (key : bytes) (slot_id subject : string) : bytes :=
  hkdf_sha256 [] key (text_bytes (unlock_info slot_id subject)).

Definition unlock_aad (slot_id subject : string) : bytes :=
  text_bytes (pretty FORMAT_VERSION +:+ "/hkdf-sha256/" +:+ unlock_info slot_id subject).

Definition seal (nonce key plaintext aad : bytes) : res VaultError Sealed :=
  let? ciphertext := ok_or (aead_encrypt key nonce plaintext aad) VCrypto in
  Ok (mkSealed (to_hex nonce) (to_hex ciphertext)).

Definition open_unit (key : bytes) (nonce ciphertext : string) (aad : bytes) : res VaultError bytes :=
  let? nonce := ok_or (from_hex nonce) VCrypto in
  let? ciphertext := ok_or (from_hex ciphertext) VCrypto in
  if decide (length nonce = NONCE_BYTES) then ok_or (aead_decrypt key nonce ciphertext aad) VCrypto
  else Err VCrypto.

Definition unwrap_data_key (kek : bytes) (nonce ciphertext : string) (aad : bytes) : res VaultError bytes :=
  let? unwrapped := map_err (fun _ => VLocked) (open_unit kek nonce ciphertext aad) in
  if decide (length unwrapped = 32) then Ok unwrapped else Err VCrypto.

Definition passphrase_kek (header : Header) (passphrase subject : string) : res VaultError bytes :=
  let? salt := ok_or (from_hex (hd_salt header)) VCrypto in
  let? prk := ok_or (argon2id (hd_m_cost_kib header) (hd_t_cost header) (hd_p_cost header) (text_bytes passphrase) salt)
                VCrypto in
  Ok (hkdf_expand prk (text_bytes ("tddy-credentials/v2/passphrase/" +:+ subject))).

Definition wrap_under_passphrase (nonce : bytes) (header : Header) (passphrase subject : string) (data_key : bytes)
    : res VaultError Sealed :=
  let? kek := passphrase_kek header passphrase subject in
  seal nonce kek data_key (header_to_vec header).

Definition check_verifier (verifier : Sealed) (data_key : bytes) : res VaultError () :=
  let? plaintext := open_unit data_key (sl_nonce verifier) (sl_ciphertext verifier) VERIFIER in
  if decide (plaintext = VERIFIER) then Ok () else Err VCrypto.

(** ** Unlock keys *)

Record UnlockKey := mkUnlockKey { uk_subject : string; uk_slot_id : string; uk_key : bytes }.

#[global] Instance UnlockKey_eq_dec : EqDecision UnlockKey.
Proof. solve_decision. Defined.

Definition to_wire (u : UnlockKey) : string :=
  to_hex (text_bytes (uk_subject u)) +:+ "." +:+ uk_slot_id u +:+ "." +:+ to_hex (uk_key u).

Definition from_wire (wire : string) : option UnlockKey :=
  match split_on "." wire with
  | [subject; slot_id; key] =>
      if decide (slot_id = "" \/ from_hex slot_id = None) then None
      else
        subject ← from_hex subject ≫= from_utf8;
        key ← from_hex key;
        if decide (length key = 32) then Some (mkUnlockKey subject slot_id key) else None
  | _ => None
  end.

Definition open_slot_in (u : UnlockKey) (slots : list UnlockSlot) : res VaultError bytes :=
  let? slot := ok_or (snd <$> list_find (fun slot => us_id slot = uk_slot_id u) slots) VLocked in
  unwrap_data_key (unlock_kek (uk_key u) (us_id slot) (uk_subject u)) (us_nonce slot) (us_ciphertext slot)
    (unlock_aad (us_id slot) (uk_subject u)).

(** ** Opening a vault *)

Record SessionVault := mkSessionVault {
  sv_path : string;
  sv_subject : string;
  sv_data_key : bytes;
  sv_record_id_key : bytes;
}.

Definition session_of (path subject : string) (data_key : bytes) : SessionVault :=
  mkSessionVault path subject data_key (hkdf_expand data_key (text_bytes "tddy-credentials/v2/record-id")).

(** What the generator draws for a new vault. *)
Record CreateDraws := mkCreateDraws { cd_data_key : bytes; cd_salt : bytes; cd_wrap_nonce : bytes; cd_verifier_nonce : bytes }.

Definition create_file (path passphrase subject : string) (d : CreateDraws) : io VaultWorld VaultError SessionVault :=
  let header := Header_fresh (cd_salt d) in
  let! wrapped := io_lift (wrap_under_passphrase (cd_wrap_nonce d) header passphrase subject (cd_data_key d)) in
  let! verifier := io_lift (seal (cd_verifier_nonce d) (cd_data_key d) VERIFIER VERIFIER) in
  write_vault_file path (mkVaultFile header wrapped [] verifier []);;
  io_ret (session_of path subject (cd_data_key d)).

Definition store_create (path passphrase subject : string) (d : CreateDraws) : io VaultWorld VaultError SessionVault :=
  let! file := read_vault_file path in
  match file with
  | Some _ => io_lift (Err VAlreadyInitialized)
  | None => create_file path passphrase subject d
  end.

Definition open_with_passphrase (path passphrase subject : string) : io VaultWorld VaultError SessionVault :=
  let! found := read_vault_file path in
  io_lift (
    let? file := ok_or found VUninitialized in
    let? kek := passphrase_kek (vf_header file) passphrase subject in
    let? data_key := unwrap_data_key kek (sl_nonce (vf_wrapped_data_key file)) (sl_ciphertext (vf_wrapped_data_key file))
                       (header_to_vec (vf_header file)) in
    let? _ := check_verifier (vf_verifier file) data_key in
    Ok (session_of path subject data_key)).

Definition open_with_unlock_key (path : string) (u : UnlockKey) : io VaultWorld VaultError SessionVault :=
  let! found := read_vault_file path in
  io_lift (
    let? file := ok_or found VLocked in
    let? data_key := open_slot_in u (vf_unlock_slots file) in
    let? _ := check_verifier (vf_verifier file) data_key in
    Ok (session_of path (uk_subject u) data_key)).

Definition store_reset (path passphrase subject : string) (now : option N) (d : CreateDraws)
    : io VaultWorld VaultError (SessionVault * option string) := fun w =>
  (let! aside := if exists_file path w then let! a := set_aside path now in io_ret (Some a) else io_ret None in
   let! fresh := create_file path passphrase subject d in
   io_ret (fresh, aside)) w.

(** ** An open vault *)

Definition load_vault (sv : SessionVault) : io VaultWorld VaultError VaultFile :=
  let! found := read_vault_file (sv_path sv) in
  io_lift (
    let? file := ok_or found (VIo ("the credential store at " +:+ sv_path sv +:+ " is gone")) in
    let? _ := map_err (fun _ => VLocked) (check_verifier (vf_verifier file) (sv_data_key sv)) in
    Ok file).

Definition is_stale (sv : SessionVault) (w : VaultWorld) : bool :=
  negb (exists_file (sv_path sv) w) || match (load_vault sv w).1 with Err VLocked => true | _ => false end.

(** [(n as u64).to_be_bytes()]. *)
Definition u64_be_bytes (n : N) : bytes := (fun i => byte_of (n / 256 ^ i)) <$> [7; 6; 5; 4; 3; 2; 1; 0]%N.

Definition record_id (sv : SessionVault) (provider account : string) : string :=
  let p := text_bytes provider in
  let a := text_bytes account in
  keyed_name (sv_record_id_key sv) [u64_be_bytes (N.of_nat (length p)); p; u64_be_bytes (N.of_nat (length a)); a].

Definition seal_entry (sv : SessionVault) (nonce : bytes) (e : VaultEntry) : res VaultError SealedRecord :=
  let id := record_id sv (entry_provider e) (entry_account e) in
  let? sealed := seal nonce (sv_data_key sv) (entry_to_vec e) (record_aad id) in
  Ok (mkSealedRecord id (sl_nonce sealed) (sl_ciphertext sealed)).

Definition open_entry (sv : SessionVault) (r : SealedRecord) : res VaultError VaultEntry :=
  let? plaintext := open_unit (sv_data_key sv) (sr_nonce r) (sr_ciphertext r) (record_aad (sr_id r)) in
  let? e := ok_or (entry_from_slice plaintext) VCrypto in
  if decide (record_id sv (entry_provider e) (entry_account e) = sr_id r) then Ok e else Err VCrypto.

(** [collect] of results. *)
Fixpoint open_entries (sv : SessionVault) (records : list SealedRecord) : res VaultError (list VaultEntry) :=
  match records with
  | [] => Ok []
  | r :: records =>
      let? e := open_entry sv r in
      let? rest := open_entries sv records in
      Ok (e :: rest)
  end.

Definition with_records (f : list SealedRecord -> list SealedRecord) (file : VaultFile) : VaultFile :=
  mkVaultFile (vf_header file) (vf_wrapped_data_key file) (vf_unlock_slots file) (vf_verifier file) (f (vf_records file)).

Definition with_slots (f : list UnlockSlot -> list UnlockSlot) (file : VaultFile) : VaultFile :=
  mkVaultFile (vf_header file) (vf_wrapped_data_key file) (f (vf_unlock_slots file)) (vf_verifier file) (vf_records file).

(** A sealed entry in place of whatever its slot held. *)
Definition replace_record (sealed : SealedRecord) (records : list SealedRecord) : list SealedRecord :=
  filter (fun r => sr_id r <> sr_id sealed) records ++ [sealed].

Definition put (sv : SessionVault) (nonce : bytes) (record : CredentialRecord) : io VaultWorld VaultError () :=
  let! file := load_vault sv in
  let! sealed := io_lift (seal_entry sv nonce (EntryRecord record)) in
  write_vault_file (sv_path sv) (with_records (replace_record sealed) file).

Definition find_record (id : string) (file : VaultFile) : option SealedRecord :=
  snd <$> list_find (fun r => sr_id r = id) (vf_records file).

Definition get (sv : SessionVault) (provider account : string) : io VaultWorld VaultError (option CredentialRecord) :=
  let! file := load_vault sv in
  match find_record (record_id sv provider account) file with
  | None => io_ret None
  | Some sealed => let! e := io_lift (open_entry sv sealed) in io_ret (entry_record e)
  end.

Definition slot_le (p a q b : string) : bool :=
  if decide (p = q) then bool_decide (String.le a b) else bool_decide (String.le p q).

Definition is_wanted (provider : option string) (r : CredentialRecord) : bool :=
  match provider with None => true | Some wanted => bool_decide (cr_provider r = wanted) end.

Definition list_records (sv : SessionVault) (provider : option string) : io VaultWorld VaultError (list CredentialRecord) :=
  let! file := load_vault sv in
  let! entries := io_lift (open_entries sv (vf_records file)) in
  io_ret (sort_by (fun r s => slot_le (cr_provider r) (cr_account r) (cr_provider s) (cr_account s))
    (filter (fun r => is_wanted provider r = true) (omap entry_record entries))).

Definition entries (sv : SessionVault) : io VaultWorld VaultError (list VaultEntry) :=
  let! file := load_vault sv in
  let! opened := io_lift (open_entries sv (vf_records file)) in
  io_ret (sort_by (fun d e => slot_le (entry_provider d) (entry_account d) (entry_provider e) (entry_account e)) opened).

Definition remove (sv : SessionVault) (nonce : bytes) (now : option N) (provider account : string)
    : io VaultWorld VaultError () :=
  let! file := load_vault sv in
  match find_record (record_id sv provider account) file with
  | None => io_ret ()
  | Some sealed =>
      let! e := io_lift (open_entry sv sealed) in
      match e with
      | EntryTombstone _ => io_ret ()
      | EntryRecord record =>
          let! deleted_at := io_lift (ok_or now (VIo "the clock reads before the Unix epoch")) in
          let! tombstone := io_lift (seal_entry sv nonce
            (EntryTombstone (mkTombstone provider account (cr_version record) deleted_at))) in
          write_vault_file (sv_path sv) (with_records (replace_record tombstone) file)
      end
  end.

(** ** Its unlock slots *)

Definition new_unlock_slot (sv : SessionVault) (key nonce : bytes) (id : string) : res VaultError (UnlockSlot * UnlockKey) :=
  let? sealed := seal nonce (unlock_kek key id (sv_subject sv)) (sv_data_key sv) (unlock_aad id (sv_subject sv)) in
  Ok (mkSlot id (sl_nonce sealed) (sl_ciphertext sealed), mkUnlockKey (sv_subject sv) id key).

(** The most recently used slots, as many as are kept. *)
Definition drain_excess (slots : list UnlockSlot) : list UnlockSlot := drop (length slots - MAX_UNLOCK_SLOTS) slots.

Definition add_unlock_slot (sv : SessionVault) (id key nonce : bytes) : io VaultWorld VaultError UnlockKey :=
  let! file := load_vault sv in
  let! fresh := io_lift (new_unlock_slot sv key nonce (to_hex id)) in
  write_vault_file (sv_path sv) (with_slots (fun slots => drain_excess (slots ++ [fresh.1])) file);;
  io_ret fresh.2.

Definition rotate_unlock_slot (sv : SessionVault) (presented : UnlockKey) (key nonce : bytes)
    : io VaultWorld VaultError UnlockKey :=
  let! file := load_vault sv in
  let! _ := io_lift (open_slot_in presented (vf_unlock_slots file)) in
  let! fresh := io_lift (new_unlock_slot sv key nonce (uk_slot_id presented)) in
  write_vault_file (sv_path sv)
    (with_slots (fun slots => filter (fun s => us_id s <> uk_slot_id presented) slots ++ [fresh.1]) file);;
  io_ret fresh.2.

Definition remove_unlock_slot (sv : SessionVault) (slot_id : string) : io VaultWorld VaultError () :=
  let! file := load_vault sv in
  let slots := filter (fun s => us_id s <> slot_id) (vf_unlock_slots file) in
  if decide (length slots = length (vf_unlock_slots file)) then io_ret ()
  else write_vault_file (sv_path sv) (with_slots (fun _ => slots) file).

Definition unlock_slot_ids (sv : SessionVault) : io VaultWorld VaultError (list string) :=
  let! file := load_vault sv in
  io_ret (us_id <$> vf_unlock_slots file).
End vault.

(** ** An instance *)

#[global] Instance Header_eq_dec : EqDecision Header.
Proof. solve_decision. Defined.

#[global] Instance Header_countable : Countable Header.
Proof.
  apply (inj_countable'
    (fun h => (hd_format_version h, hd_kdf h, hd_kdf_version h, hd_m_cost_kib h, hd_t_cost h, hd_p_cost h, hd_salt h))
    (fun '(f, k, v, m, t, p, s) => mkHeader f k v m t p s)).
  by intros [].
Defined.

Definition vault_tuple (f : VaultFile) :=
  (vf_header f, (sl_nonce (vf_wrapped_data_key f), sl_ciphertext (vf_wrapped_data_key f)),
   (fun s => (us_id s, us_nonce s, us_ciphertext s)) <$> vf_unlock_slots f,
   (sl_nonce (vf_verifier f), sl_ciphertext (vf_verifier f)),
   (fun r => (sr_id r, sr_nonce r, sr_ciphertext r)) <$> vf_records f).

Definition tuple_vault '(h, (wn, wc), us, (vn, vc), rs) : VaultFile :=
  mkVaultFile h (mkSealed wn wc) ((fun '(i, n, c) => mkSlot i n c) <$> us) (mkSealed vn vc)
    ((fun '(i, n, c) => mkSealedRecord i n c) <$> rs).

Lemma tuple_vault_tuple f : tuple_vault (vault_tuple f) = f.
Proof.
  destruct f as [h [] us [] rs]. unfold tuple_vault, vault_tuple. simpl. rewrite <- !list_fmap_compose.
  rewrite !fmap_id_in; [done|by intros []..].
Qed.

(** Texts that spell out the value, and a derivation that shows its inputs. *)
Definition packed_ports : VaultPorts.
Proof.
  refine {|
    vault_to_vec f := pack (vault_tuple f);
    value_from_slice b := (fun t => vault_value (tuple_vault t)) <$> unpack b;
    value_show _ := "a value";
    header_to_vec h := pack h;
    entry_to_vec e := pack e;
    entry_from_slice b := unpack b;
    argon2id m t p pass salt := Some (pack (m, t, p, pass, salt));
  |}.
  - abstract (intros f; cbv beta; rewrite unpack_pack; exact (f_equal (fun f => Some (vault_value f)) (tuple_vault_tuple f))).
  - abstract (intros e; apply unpack_pack).
Defined.
