(* ===== verification/VaultSpec.v ===== *)
(** * What the vault guarantees

    The sealed file implements a map from slots to entries and a bounded list of
    unlock keys, whichever writes fail: every call that returns [Ok] is one step of
    that abstract vault and every other one is no step, or the step of a write whose
    directory could not be synced. Under ideal seals exactly the passphrase and the
    unlock keys of the list open it. *)

From Stdlib Require Import Ascii Strings.Byte.
From stdpp Require Import countable.
From S2P Require Import Prelude Text Graph Framing Utf8 Json Credentials Vault.

Local Open Scope io_scope.

(** ** The file reads back *)

Lemma list_of_values {A} (f : string * string * string -> A) (v : A -> json) (l : list A) :
  (forall a, f <$> named_of_value (v a) = Some a) -> list_of_value f (JArray (v <$> l)) = Some l.
Proof. intros Hf. by apply mapM_fmap_Some. Qed.

(** The header of every vault this build writes. *)
Definition current (f : VaultFile) : Prop := exists salt, vf_header f = Header_fresh salt.

Lemma vault_value_format show f : current f -> check_format show (vault_value f) = Ok ().
Proof. intros [salt Hs]. destruct f. simpl in Hs. subst. reflexivity. Qed.

Lemma vault_value_roundtrip f : current f -> vault_of_value (vault_value f) = Some f.
Proof.
  intros [salt Hs]. destruct f as [h [wn wc] us [vn vc] rs]. simpl in Hs. subst h.
  set (slot := fun '(i, n, c) => mkSlot i n c). set (rec := fun '(i, n, c) => mkSealedRecord i n c).
  transitivity (
    us' ← list_of_value slot (JArray ((fun s => named_value (us_id s) (us_nonce s) (us_ciphertext s)) <$> us));
    rs' ← list_of_value rec (JArray ((fun r => named_value (sr_id r) (sr_nonce r) (sr_ciphertext r)) <$> rs));
    Some (mkVaultFile (Header_fresh salt) (mkSealed wn wc) us' (mkSealed vn vc) rs')); [reflexivity|].
  rewrite !list_of_values by (by intros []). reflexivity.
Qed.

Section spec.
Context `{SealPrims, VaultPorts}.

(** ** A vault on disk *)

(** The file at [path] is [f]. *)
Record on_disk (w : VaultWorld) (path : string) (f : VaultFile) : Prop := {
  od_file : vw_files w !! path = Some (vault_to_vec f);
  od_readable : path ∉ vw_unreadable w;
  od_current : current f;
}.

Lemma read_on_disk w path f : on_disk w path f -> read_vault_file path w = (Ok (Some f), w).
Proof.
  intros [Hf Hr Hc]. unfold read_vault_file. rewrite Hf, decide_False by done.
  rewrite vault_text_roundtrip. simpl. rewrite vault_value_format by done. simpl.
  by rewrite vault_value_roundtrip.
Qed.

Lemma on_disk_inj w path f f' : on_disk w path f -> on_disk w path f' -> f = f'.
Proof. intros H1%read_on_disk H2%read_on_disk. rewrite H1 in H2. by injection H2. Qed.

(** What a write leaves: the new file, or with an error either file. *)
Lemma write_on_disk w path f f' r w' :
  on_disk w path f -> current f' -> write_vault_file path f' w = (r, w') ->
  vw_unreadable w' = vw_unreadable w /\ vw_writes w' = tail (vw_writes w) /\
  (forall p, p <> path -> vw_files w' !! p = vw_files w !! p) /\
  match r with
  | Ok _ => on_disk w' path f'
  | Err e => (exists m, e = VIo m) /\ (on_disk w' path f \/ on_disk w' path f')
  | Panic => False
  end.
Proof.
  intros [Hf Hr Hc] Hc'. unfold write_vault_file.
  destruct (default Written (head (vw_writes w))) as [|m|m]; intros [= <- <-]; simpl.
  - split_and!; [done|done| |]; [intros; by apply lookup_insert_ne|].
    split; simpl; [by rewrite lookup_insert_eq|done|done].
  - split_and!; [done|done|done|by eexists|left]. by split.
  - split_and!; [done|done| |by eexists|right]; [intros; by apply lookup_insert_ne|].
    split; simpl; [by rewrite lookup_insert_eq|done|done].
Qed.

(** ** Seals open *)

Lemma open_sealed_unit nonce key m aad s :
  length nonce = NONCE_BYTES -> seal nonce key m aad = Ok s ->
  open_unit key (sl_nonce s) (sl_ciphertext s) aad = Ok m.
Proof.
  intros Hn. unfold seal. destruct (aead_encrypt key nonce m aad) as [c|] eqn:E; simpl; [|done]. intros [= <-].
  unfold open_unit. simpl. rewrite !from_to_hex. simpl. rewrite decide_True by done.
  by rewrite (aead_open _ _ _ _ _ E).
Qed.

Lemma seal_fits nonce key m aad :
  (N.of_nat (length m) < 4294967296)%N -> exists s, seal nonce key m aad = Ok s.
Proof. intros Hm. unfold seal. destruct (aead_fits key nonce m aad Hm) as [c ->]. simpl. eauto. Qed.

Lemma seal_cases nonce key m aad : (exists s, seal nonce key m aad = Ok s) \/ seal nonce key m aad = Err VCrypto.
Proof. unfold seal. destruct (aead_encrypt _ _ _ _); simpl; eauto. Qed.

Lemma seal_entry_error sv nonce e err : seal_entry sv nonce e = Err err -> err = VCrypto.
Proof.
  unfold seal_entry. destruct (seal_cases nonce (sv_data_key sv) (entry_to_vec e)
    (record_aad (record_id sv (entry_provider e) (entry_account e)))) as [[s ->]| ->]; simpl; congruence.
Qed.

Lemma seal_entry_no_panic sv nonce e : seal_entry sv nonce e <> Panic.
Proof.
  unfold seal_entry. by destruct (seal_cases nonce (sv_data_key sv) (entry_to_vec e)
    (record_aad (record_id sv (entry_provider e) (entry_account e)))) as [[s ->]| ->].
Qed.

Lemma open_sealed_entry sv nonce e r :
  length nonce = NONCE_BYTES -> seal_entry sv nonce e = Ok r ->
  open_entry sv r = Ok e /\ sr_id r = record_id sv (entry_provider e) (entry_account e).
Proof.
  intros Hn. unfold seal_entry. destruct (seal _ _ _ _) as [s| |] eqn:E; simpl; [|done..]. intros [= <-].
  split; [|done]. unfold open_entry. simpl. rewrite (open_sealed_unit _ _ _ _ _ Hn E). simpl.
  rewrite entry_text_roundtrip. simpl. by rewrite decide_True.
Qed.

(** ** Record names *)

Lemma digits_inj (k : nat) (n m : N) :
  (n < 256 ^ N.of_nat k)%N -> (m < 256 ^ N.of_nat k)%N ->
  (forall i, i < k -> ((n / 256 ^ N.of_nat i) mod 256 = (m / 256 ^ N.of_nat i) mod 256)%N) -> n = m.
Proof.
  revert n m. induction k as [|k IH]; intros n m Hn Hm Hd; [simpl in *; lia|].
  rewrite Nat2N.inj_succ, N.pow_succ_r' in Hn, Hm.
  pose proof (Hd 0 ltac:(lia)) as H0'. simpl in H0'. rewrite !N.div_1_r in H0'.
  assert (n / 256 = m / 256)%N as E.
  { apply IH; [apply N.Div0.div_lt_upper_bound; lia..|]. intros i Hi. specialize (Hd (S i) ltac:(lia)).
    rewrite Nat2N.inj_succ, N.pow_succ_r', <- !N.Div0.div_div in Hd. exact Hd. }
  rewrite (N.div_mod' n 256), (N.div_mod' m 256), E, H0'. done.
Qed.

Lemma u64_be_bytes_inj n m : (n <= u64_max)%N -> (m <= u64_max)%N -> u64_be_bytes n = u64_be_bytes m -> n = m.
Proof.
  unfold u64_max. intros Hn Hm E.
  apply (digits_inj 8); [change (256 ^ N.of_nat 8)%N with 18446744073709551616%N; lia..|].
  unfold u64_be_bytes in E. cbn [fmap list_fmap] in E. injection E as E7 E6 E5 E4 E3 E2 E1 E0.
  intros i Hi. rewrite <- !to_N_byte_of.
  destruct i as [|[|[|[|[|[|[|[|]]]]]]]]; [f_equal; assumption..|lia].
Qed.

(** No string of the program is longer than a [u64] counts. *)
Definition text_fits (s : string) : Prop := (N.of_nat (length (text_bytes s)) <= u64_max)%N.
Definition key_fits (k : RecordKey) : Prop := text_fits (rk_provider k) /\ text_fits (rk_account k).

Lemma text_bytes_inj s t : text_bytes s = text_bytes t -> s = t.
Proof. intros E. rewrite <- (bytes_text_bytes s), <- (bytes_text_bytes t). by rewrite E. Qed.

Lemma record_id_inj `{!IdealSeals} sv k k' :
  key_fits k -> key_fits k' ->
  record_id sv (rk_provider k) (rk_account k) = record_id sv (rk_provider k') (rk_account k') -> k = k'.
Proof.
  destruct k as [p a], k' as [p' a']. intros [Hp Ha] [Hp' Ha'] E%keyed_name_inj. cbn [rk_provider rk_account concat] in *.
  rewrite !app_nil_r in E. apply app_inj_1 in E as [E1%u64_be_bytes_inj E]; [|done..].
  apply app_inj_1 in E as [->%text_bytes_inj E]; [|by apply Nat2N.inj].
  apply app_inj_1 in E as [_ ->%text_bytes_inj]; done.
Qed.

(** ** The abstract vault *)

(** What each slot says, and the keys that open the vault, least recently used first. *)
Record AbstractVault := mkAbstract { av_slots : slots; av_keys : list UnlockKey }.

Definition records_hold (sv : SessionVault) (rs : list SealedRecord) (v : slots) : Prop :=
  exists es, Forall2 (fun r e => open_entry sv r = Ok e) rs es /\ lists es v /\
             Forall (fun e => key_fits (record_key_of e)) es.

(** [s] wraps the data key under [k]. *)
Definition slot_for (sv : SessionVault) (s : UnlockSlot) (k : UnlockKey) : Prop :=
  us_id s = uk_slot_id k /\ uk_subject k = sv_subject sv /\ length (uk_key k) = 32 /\
  exists nonce, length nonce = NONCE_BYTES /\
    seal nonce (unlock_kek (uk_key k) (uk_slot_id k) (sv_subject sv)) (sv_data_key sv)
      (unlock_aad (uk_slot_id k) (sv_subject sv)) = Ok (mkSealed (us_nonce s) (us_ciphertext s)).

Definition keys_hold (sv : SessionVault) (ss : list UnlockSlot) (ks : list UnlockKey) : Prop :=
  Forall2 (slot_for sv) ss ks /\ NoDup (uk_slot_id <$> ks).

Record opens (sv : SessionVault) (f : VaultFile) (av : AbstractVault) : Prop := {
  op_verified : check_verifier (vf_verifier f) (sv_data_key sv) = Ok ();
  op_key : length (sv_data_key sv) = 32;
  op_records : records_hold sv (vf_records f) (av_slots av);
  op_keys : keys_hold sv (vf_unlock_slots f) (av_keys av);
}.

Definition holds (sv : SessionVault) (w : VaultWorld) (av : AbstractVault) : Prop :=
  exists f, on_disk w (sv_path sv) f /\ opens sv f av.

Lemma load_holds sv w f av : on_disk w (sv_path sv) f -> opens sv f av -> load_vault sv w = (Ok f, w).
Proof.
  intros Hd Ho. unfold load_vault, io_bind. rewrite (read_on_disk _ _ _ Hd). unfold io_lift. simpl.
  by rewrite (op_verified _ _ _ Ho).
Qed.

Lemma open_entry_id sv r e :
  open_entry sv r = Ok e -> sr_id r = record_id sv (rk_provider (record_key_of e)) (rk_account (record_key_of e)).
Proof.
  unfold open_entry. destruct (open_unit _ _ _ _); simpl; [|done..]. destruct (entry_from_slice _) as [x|]; simpl; [|done].
  case_decide; [|done]. by intros [= <-].
Qed.

Lemma open_entries_Forall2 sv rs es :
  Forall2 (fun r e => open_entry sv r = Ok e) rs es -> open_entries sv rs = Ok es.
Proof. induction 1 as [|r e rs es E _ IH]; simpl; [done|]. rewrite E. simpl. by rewrite IH. Qed.

Lemma Forall2_filter {A B} (R : A -> B -> Prop) (P : A -> Prop) (Q : B -> Prop)
    `{forall x, Decision (P x), forall x, Decision (Q x)} l k :
  Forall2 R l k -> (forall x y, R x y -> y ∈ k -> (P x <-> Q y)) -> Forall2 R (filter P l) (filter Q k).
Proof.
  induction 1 as [|x y l k Hxy Hlk IH]; intros HPQ; [done|]. rewrite !filter_cons.
  assert (P x <-> Q y) as E by (apply HPQ; [done|by left]).
  assert (Forall2 R (filter P l) (filter Q k)) as Hrest by (apply IH; intros ? ? ? ?; apply HPQ; [done|by right]).
  repeat case_decide; [by constructor|tauto|tauto|done].
Qed.

Context `{!IdealSeals}.

Lemma records_replace sv rs v r e :
  records_hold sv rs v -> open_entry sv r = Ok e -> key_fits (record_key_of e) ->
  records_hold sv (replace_record r rs) (<[record_key_of e := e]> v).
Proof.
  intros (es & Hopen & Hl & Hfit) Hr Hk.
  exists (filter (fun x => record_key_of x <> record_key_of e) es ++ [e]). split_and!.
  - apply Forall2_app; [|by constructor]. apply Forall2_filter; [done|].
    intros x y Hxy Hy. apply open_entry_id in Hxy as Ex. apply open_entry_id in Hr as Er. rewrite Ex, Er.
    split; intros Hn E; apply Hn; [by rewrite E|]. apply (record_id_inj sv); [|done|done].
    by apply (proj1 (Forall_forall _ _) Hfit).
  - by apply lists_replace.
  - apply Forall_app. split; [|by apply Forall_singleton].
    apply Forall_forall. intros x [_ Hx]%list_elem_of_filter. by apply (proj1 (Forall_forall _ _) Hfit).
Qed.

Lemma find_record_spec sv f v k :
  records_hold sv (vf_records f) v -> key_fits k ->
  match find_record (record_id sv (rk_provider k) (rk_account k)) f with
  | Some r => exists e, open_entry sv r = Ok e /\ v !! k = Some e
  | None => v !! k = None
  end.
Proof.
  intros (es & Hopen & Hl & Hfit) Hk. unfold find_record.
  destruct (list_find _ (vf_records f)) as [[i r]|] eqn:E; simpl.
  - apply list_find_Some in E as (Hi & Hid & _). destruct (Forall2_lookup_l _ _ _ _ _ Hopen Hi) as (e & He & Hr).
    apply list_elem_of_lookup_2 in He. exists e. split; [done|]. apply open_entry_id in Hr. rewrite Hr in Hid.
    apply record_id_inj in Hid as <-; [by eapply lists_elem|by apply (proj1 (Forall_forall _ _) Hfit)|done].
  - destruct (v !! k) as [e|] eqn:Ev; [|done]. exfalso.
    apply lists_spec in Hl as [_ Hv]. apply Hv in Ev as [He <-].
    apply list_elem_of_lookup in He as [i He]. destruct (Forall2_lookup_r _ _ _ _ _ Hopen He) as (r & Hr & Ho).
    apply list_find_None in E. apply (proj1 (Forall_forall _ _) E r); [by eapply list_elem_of_lookup_2|by apply open_entry_id].
Qed.

(** ** Unlock keys *)

Lemma unlock_kek_inj key key' id subject subject' :
  unlock_kek key id subject = unlock_kek key' id subject' -> key = key' /\ subject = subject'.
Proof.
  intros [-> E%text_bytes_inj]%hkdf_sha256_inj. split; [done|]. unfold unlock_info in E.
  by repeat apply (inj (String.append _)) in E.
Qed.

Lemma open_unit_cases key nonce c aad : (exists m, open_unit key nonce c aad = Ok m) \/ open_unit key nonce c aad = Err VCrypto.
Proof.
  unfold open_unit. destruct (from_hex nonce) as [n|]; simpl; [|by right]. destruct (from_hex c) as [x|]; simpl; [|by right].
  case_decide; [|by right]. destruct (aead_decrypt _ _ _ _); simpl; eauto.
Qed.

(** A unit sealed under one key does not open under another. *)
Lemma open_unit_bound nonce key key' m m' aad aad' s :
  seal nonce key m aad = Ok s -> open_unit key' (sl_nonce s) (sl_ciphertext s) aad' = Ok m' -> key' = key /\ aad' = aad.
Proof.
  unfold seal. destruct (aead_encrypt key nonce m aad) as [c|] eqn:E; simpl; [|done]. intros [= <-].
  unfold open_unit. simpl. rewrite !from_to_hex. simpl. case_decide; [|done].
  destruct (aead_decrypt key' nonce c aad') as [x|] eqn:D; simpl; [|done]. intros _. by eapply aead_bound.
Qed.

(** The keys of the list open the data key, and no other. *)
Lemma open_slot_in_spec sv ss ks u :
  length (sv_data_key sv) = 32 -> keys_hold sv ss ks ->
  open_slot_in u ss = if decide (u ∈ ks) then Ok (sv_data_key sv) else Err VLocked.
Proof.
  intros Hlen [Hall Hnd]. unfold open_slot_in. destruct (list_find _ ss) as [[i s]|] eqn:E; simpl.
  - apply list_find_Some in E as (Hi & Hid & _). destruct (Forall2_lookup_l _ _ _ _ _ Hall Hi) as (k & Hk & Hs).
    destruct Hs as (Hsid & Hsub & _ & nonce & Hn & Hseal). rewrite Hid in Hsid. rewrite Hid.
    unfold unwrap_data_key. case_decide as Hu.
    + assert (k = u) as ->.
      { apply list_elem_of_lookup in Hu as [j Hu]. assert (i = j) as ->; [|congruence].
        apply (NoDup_lookup (uk_slot_id <$> ks) _ _ (uk_slot_id u) Hnd); rewrite list_lookup_fmap.
        - by rewrite Hk, Hsid.
        - by rewrite Hu. }
      rewrite Hsub. pose proof (open_sealed_unit _ _ _ _ _ Hn Hseal) as Ho. simpl in Ho. rewrite Ho. simpl.
      by rewrite decide_True.
    + destruct (open_unit_cases (unlock_kek (uk_key u) (uk_slot_id u) (uk_subject u)) (us_nonce s) (us_ciphertext s)
                  (unlock_aad (uk_slot_id u) (uk_subject u))) as [[m Ho]| ->]; [|done].
      destruct (open_unit_bound _ _ _ _ _ _ _ _ Hseal Ho) as [Hkek _]. rewrite <- Hsid in Hkek.
      apply unlock_kek_inj in Hkek as [Hkey Hsubj]. destruct Hu. apply list_elem_of_lookup. exists i. rewrite Hk.
      destruct u, k; simpl in *. by subst.
  - case_decide as Hu; [|done]. exfalso. apply list_elem_of_lookup in Hu as [j Hu].
    destruct (Forall2_lookup_r _ _ _ _ _ Hall Hu) as (s & Hs & Hid & _).
    apply list_find_None in E. apply (proj1 (Forall_forall _ _) E s); [by eapply list_elem_of_lookup_2|done].
Qed.

Lemma new_slot_for sv key nonce id fresh :
  length key = 32 -> length nonce = NONCE_BYTES -> new_unlock_slot sv key nonce id = Ok fresh ->
  slot_for sv fresh.1 fresh.2 /\ fresh.2 = mkUnlockKey (sv_subject sv) id key.
Proof.
  intros Hk Hn. unfold new_unlock_slot. destruct (seal _ _ _ _) as [x| |] eqn:E; simpl; [|done..]. intros [= <-]. simpl.
  split; [|done]. split_and!; [done|done|done|]. exists nonce. simpl. split; [done|]. rewrite E. by destruct x.
Qed.

Lemma keys_filter sv ss ks id :
  keys_hold sv ss ks -> keys_hold sv (filter (fun s => us_id s <> id) ss) (filter (fun k => uk_slot_id k <> id) ks).
Proof.
  intros [Hall Hnd]. split.
  - apply Forall2_filter; [done|]. by intros s k (-> & _) _.
  - eapply sublist_NoDup; [exact Hnd|]. apply fmap_sublist, sublist_filter.
Qed.

Lemma keys_snoc sv ss ks s k :
  keys_hold sv ss ks -> slot_for sv s k -> uk_slot_id k ∉ uk_slot_id <$> ks -> keys_hold sv (ss ++ [s]) (ks ++ [k]).
Proof.
  intros [Hall Hnd] Hs Hk. split; [apply Forall2_app; [done|by constructor]|].
  rewrite fmap_app. apply NoDup_app. split_and!; [done| |apply NoDup_singleton].
  intros x Hx ->%list_elem_of_singleton. done.
Qed.

Lemma keys_drop sv ss ks n : keys_hold sv ss ks -> keys_hold sv (drop n ss) (drop n ks).
Proof.
  intros [Hall Hnd]. split; [by apply Forall2_drop|]. eapply sublist_NoDup; [exact Hnd|]. apply fmap_sublist, sublist_drop.
Qed.

(** ** Calls *)

(** A call that changes the vault, with what the generator and the clock say. *)
Inductive vault_call :=
| CallPut (nonce : bytes) (r : CredentialRecord)
| CallRemove (nonce : bytes) (now : option N) (provider account : string)
| CallAddSlot (id key nonce : bytes)
| CallRotate (presented : UnlockKey) (key nonce : bytes)
| CallDropSlot (slot_id : string).

Definition discard {W E A} (m : io W E A) : io W E () := let! _ := m in io_ret ().

Definition run_call (sv : SessionVault) (c : vault_call) : io VaultWorld VaultError () :=
  match c with
  | CallPut nonce r => put sv nonce r
  | CallRemove nonce now provider account => remove sv nonce now provider account
  | CallAddSlot id key nonce => discard (add_unlock_slot sv id key nonce)
  | CallRotate presented key nonce => discard (rotate_unlock_slot sv presented key nonce)
  | CallDropSlot slot_id => remove_unlock_slot sv slot_id
  end.

(** The most recently used keys, as many as are kept. *)
Definition keep_keys (ks : list UnlockKey) : list UnlockKey := drop (length ks - MAX_UNLOCK_SLOTS) ks.

(** The step of the abstract vault; [None] when the call is refused. *)
Definition effect (subject : string) (c : vault_call) (av : AbstractVault) : option AbstractVault :=
  match c with
  | CallPut _ r => Some (mkAbstract (<[record_key_of (EntryRecord r) := EntryRecord r]> (av_slots av)) (av_keys av))
  | CallRemove _ now provider account =>
      match av_slots av !! mkRecordKey provider account with
      | Some (EntryRecord r) =>
          deleted_at ← now;
          Some (mkAbstract (<[mkRecordKey provider account :=
            EntryTombstone (mkTombstone provider account (cr_version r) deleted_at)]> (av_slots av)) (av_keys av))
      | _ => Some av
      end
  | CallAddSlot id key _ =>
      Some (mkAbstract (av_slots av) (keep_keys (av_keys av ++ [mkUnlockKey subject (to_hex id) key])))
  | CallRotate presented key _ =>
      if decide (presented ∈ av_keys av) then
        Some (mkAbstract (av_slots av)
          (filter (fun k => uk_slot_id k <> uk_slot_id presented) (av_keys av) ++
           [mkUnlockKey subject (uk_slot_id presented) key]))
      else None
  | CallDropSlot slot_id => Some (mkAbstract (av_slots av) (filter (fun k => uk_slot_id k <> slot_id) (av_keys av)))
  end.

(** What a call may assume of the generator and of the sizes of texts. *)
Definition call_ok (av : AbstractVault) (c : vault_call) : Prop :=
  match c with
  | CallPut nonce r => length nonce = NONCE_BYTES /\ key_fits (record_key_of (EntryRecord r))
  | CallRemove nonce _ provider account => length nonce = NONCE_BYTES /\ key_fits (mkRecordKey provider account)
  | CallAddSlot id key nonce =>
      length key = 32 /\ length nonce = NONCE_BYTES /\ to_hex id ∉ uk_slot_id <$> av_keys av
  | CallRotate _ key nonce => length key = 32 /\ length nonce = NONCE_BYTES
  | CallDropSlot _ => True
  end.

(** How a call's answer and the abstract vault go together. *)
Definition answers (subject : string) (c : vault_call) (r : res VaultError ()) (av av' : AbstractVault) : Prop :=
  match r with
  | Ok _ => effect subject c av = Some av'
  | Err (VIo _) => av' = av \/ effect subject c av = Some av'
  | Err _ => av' = av
  | Panic => False
  end.

Lemma write_answers sv w f f' av av' c r w' :
  on_disk w (sv_path sv) f -> opens sv f av -> current f' -> opens sv f' av' ->
  effect (sv_subject sv) c av = Some av' -> write_vault_file (sv_path sv) f' w = (r, w') ->
  exists av'', holds sv w' av'' /\ answers (sv_subject sv) c r av av''.
Proof.
  intros Hd Ho Hc Ho' He Hw. destruct (write_on_disk _ _ _ _ _ _ Hd Hc Hw) as (_ & _ & _ & Hr).
  destruct r as [[]|e|]; [|destruct Hr as [[m ->] [Hr|Hr]]|done].
  - exists av'. split; [by exists f'|done].
  - exists av. split; [by exists f|by left].
  - exists av'. split; [by exists f'|by right].
Qed.

Lemma opens_records sv f av g v :
  opens sv f av -> records_hold sv (g (vf_records f)) v ->
  opens sv (with_records g f) (mkAbstract v (av_keys av)).
Proof. intros [Hv Hl Hr Hk] Hg. by split. Qed.

Lemma opens_slots sv f av g ks :
  opens sv f av -> keys_hold sv (g (vf_unlock_slots f)) ks ->
  opens sv (with_slots g f) (mkAbstract (av_slots av) ks).
Proof. intros [Hv Hl Hr Hk] Hg. by split. Qed.

Lemma put_refines sv w av nonce r res w' :
  holds sv w av -> call_ok av (CallPut nonce r) -> put sv nonce r w = (res, w') ->
  exists av', holds sv w' av' /\ answers (sv_subject sv) (CallPut nonce r) res av av'.
Proof.
  intros (f & Hd & Ho) [Hn Hk]. unfold put, io_bind, io_lift. rewrite (load_holds _ _ _ _ Hd Ho).
  destruct (seal_entry sv nonce (EntryRecord r)) as [sealed|e|] eqn:E.
  - intros Hw. refine (write_answers sv w f _ av _ (CallPut nonce r) _ _ Hd Ho _ _ eq_refl Hw); [apply Hd|].
    apply opens_records; [done|]. destruct (open_sealed_entry _ _ _ _ Hn E) as [Hopen _].
    apply (records_replace sv _ _ _ (EntryRecord r)); [apply Ho|done|done].
  - rewrite (seal_entry_error _ _ _ _ E). intros [= <- <-]. exists av. split; [by exists f|done].
  - by apply seal_entry_no_panic in E.
Qed.

Lemma remove_refines sv w av nonce now p a res w' :
  holds sv w av -> call_ok av (CallRemove nonce now p a) -> remove sv nonce now p a w = (res, w') ->
  exists av', holds sv w' av' /\ answers (sv_subject sv) (CallRemove nonce now p a) res av av'.
Proof.
  intros (f & Hd & Ho) [Hn Hk]. unfold remove, io_bind, io_lift, io_ret. rewrite (load_holds _ _ _ _ Hd Ho).
  assert (holds sv w av) as Hholds by (by exists f).
  pose proof (find_record_spec sv f (av_slots av) (mkRecordKey p a) (op_records _ _ _ Ho) Hk) as Hfind.
  cbn [rk_provider rk_account] in Hfind. unfold answers, effect.
  destruct (find_record _ f) as [sealed|]; [|intros [= <- <-]; exists av; by rewrite Hfind].
  destruct Hfind as (e & Hopen & Hv). rewrite Hopen. destruct e as [r|t]; [|intros [= <- <-]; exists av; by rewrite Hv].
  destruct now as [now|]; simpl ok_or; [|intros [= <- <-]; exists av; auto].
  intros Hw. destruct (seal_entry sv nonce (EntryTombstone (mkTombstone p a (cr_version r) now))) as [tomb|e|] eqn:E; cbn [ok_or] in Hw; try rewrite E in Hw.
  - refine (write_answers sv w f _ av _ (CallRemove nonce (Some now) p a) _ _ Hd Ho _ _ _ Hw); [apply Hd| |].
    + apply opens_records; [done|]. destruct (open_sealed_entry _ _ _ _ Hn E) as [Hopen' _].
      apply (records_replace sv _ _ _ _ (op_records _ _ _ Ho) Hopen' Hk).
    + simpl. rewrite Hv. done.
  - rewrite (seal_entry_error _ _ _ _ E) in Hw. injection Hw as <- <-. by exists av.
  - by apply seal_entry_no_panic in E.
Qed.

Lemma new_slot_error sv key nonce id e : new_unlock_slot sv key nonce id = Err e -> e = VCrypto.
Proof.
  unfold new_unlock_slot. destruct (seal_cases nonce (unlock_kek key id (sv_subject sv)) (sv_data_key sv)
    (unlock_aad id (sv_subject sv))) as [[s ->]| ->]; simpl; congruence.
Qed.

Lemma new_slot_no_panic sv key nonce id : new_unlock_slot sv key nonce id <> Panic.
Proof.
  unfold new_unlock_slot. by destruct (seal_cases nonce (unlock_kek key id (sv_subject sv)) (sv_data_key sv)
    (unlock_aad id (sv_subject sv))) as [[s ->]| ->].
Qed.

Lemma discard_result {W E A} (m : io W E ()) (a : A) w r w' :
  discard (let! _ := m in io_ret a) w = (r, w') -> m w = (r, w').
Proof. unfold discard, io_bind, io_ret. destruct (m w) as [[[]| |] w1]; congruence. Qed.

Lemma add_slot_refines sv w av id key nonce res w' :
  holds sv w av -> call_ok av (CallAddSlot id key nonce) -> run_call sv (CallAddSlot id key nonce) w = (res, w') ->
  exists av', holds sv w' av' /\ answers (sv_subject sv) (CallAddSlot id key nonce) res av av'.
Proof.
  intros (f & Hd & Ho) (Hkey & Hn & Hid). assert (holds sv w av) as Hholds by (by exists f).
  unfold run_call, add_unlock_slot, discard, io_bind, io_lift, io_ret. rewrite (load_holds _ _ _ _ Hd Ho).
  destruct (new_unlock_slot sv key nonce (to_hex id)) as [fresh|e|] eqn:E.
  - destruct (write_vault_file _ _ w) as [r1 w1] eqn:Hw. intros Hres.
    assert (r1 = res /\ w1 = w') as [-> ->] by (destruct r1 as [[]| |]; split; congruence). clear Hres.
    destruct (new_slot_for _ _ _ _ _ Hkey Hn E) as [Hs Hfresh].
    refine (write_answers sv w f _ av _ (CallAddSlot id key nonce) _ _ Hd Ho _ _ eq_refl Hw); [apply Hd|].
    apply opens_slots; [done|]. rewrite <- Hfresh. unfold drain_excess, keep_keys.
    assert (keys_hold sv (vf_unlock_slots f ++ [fresh.1]) (av_keys av ++ [fresh.2])) as Hks.
    { apply keys_snoc; [apply Ho|done|]. by rewrite Hfresh. }
    rewrite (Forall2_length _ _ _ (proj1 Hks)). by apply keys_drop.
  - rewrite (new_slot_error _ _ _ _ _ E). intros [= <- <-]. by exists av.
  - by apply new_slot_no_panic in E.
Qed.

Lemma rotate_refines sv w av u key nonce res w' :
  holds sv w av -> call_ok av (CallRotate u key nonce) -> run_call sv (CallRotate u key nonce) w = (res, w') ->
  exists av', holds sv w' av' /\ answers (sv_subject sv) (CallRotate u key nonce) res av av'.
Proof.
  intros (f & Hd & Ho) (Hkey & Hn). assert (holds sv w av) as Hholds by (by exists f).
  unfold run_call, rotate_unlock_slot, discard, io_bind, io_lift, io_ret. rewrite (load_holds _ _ _ _ Hd Ho).
  rewrite (open_slot_in_spec sv _ _ u (op_key _ _ _ Ho) (op_keys _ _ _ Ho)).
  destruct (decide (u ∈ av_keys av)) as [Hu|Hu]; [|intros [= <- <-]; by exists av].
  destruct (new_unlock_slot sv key nonce (uk_slot_id u)) as [fresh|e|] eqn:E.
  - destruct (write_vault_file _ _ w) as [r1 w1] eqn:Hw. intros Hres.
    assert (r1 = res /\ w1 = w') as [-> ->] by (destruct r1 as [[]| |]; split; congruence). clear Hres.
    destruct (new_slot_for _ _ _ _ _ Hkey Hn E) as [Hs Hfresh].
    refine (write_answers sv w f _ av _ (CallRotate u key nonce) _ _ Hd Ho _ _ _ Hw);
      [apply Hd| |simpl; by rewrite decide_True].
    apply opens_slots; [done|]. rewrite <- Hfresh. apply keys_snoc; [apply keys_filter, Ho|done|].
    rewrite Hfresh. intros (k & Hk & [Hne _]%list_elem_of_filter)%list_elem_of_fmap. simpl in Hk. done.
  - rewrite (new_slot_error _ _ _ _ _ E). intros [= <- <-]. by exists av.
  - by apply new_slot_no_panic in E.
Qed.

Lemma filter_same_length {A} (P : A -> Prop) `{forall x, Decision (P x)} l : length (filter P l) = length l -> filter P l = l.
Proof.
  induction l as [|x l IH]; [done|]. rewrite filter_cons. case_decide; simpl; [intros [= E]; f_equal; by apply IH|].
  pose proof (length_filter P l). lia.
Qed.

Lemma drop_slot_refines sv w av id res w' :
  holds sv w av -> remove_unlock_slot sv id w = (res, w') ->
  exists av', holds sv w' av' /\ answers (sv_subject sv) (CallDropSlot id) res av av'.
Proof.
  intros (f & Hd & Ho). unfold remove_unlock_slot, io_bind. rewrite (load_holds _ _ _ _ Hd Ho).
  pose proof (keys_filter _ _ _ id (op_keys _ _ _ Ho)) as Hf.
  case_decide as Hlen.
  - intros [= <- <-]. exists av. split; [by exists f|]. unfold answers, effect.
    assert (filter (fun k => uk_slot_id k <> id) (av_keys av) = av_keys av) as ->; [|by destruct av].
    apply filter_same_length. rewrite <- (Forall2_length _ _ _ (proj1 Hf)), Hlen.
    by rewrite (Forall2_length _ _ _ (proj1 (op_keys _ _ _ Ho))).
  - intros Hw. refine (write_answers sv w f _ av _ (CallDropSlot id) _ _ Hd Ho _ _ eq_refl Hw); [apply Hd|].
    by apply opens_slots.
Qed.

Lemma call_refines sv w av c res w' :
  holds sv w av -> call_ok av c -> run_call sv c w = (res, w') ->
  exists av', holds sv w' av' /\ answers (sv_subject sv) c res av av'.
Proof.
  intros Hh Hc. destruct c; intros Hr.
  - by eapply put_refines.
  - by eapply remove_refines.
  - by eapply add_slot_refines.
  - by eapply rotate_refines.
  - by eapply drop_slot_refines.
Qed.

(** ** Reads *)

Lemma slot_le_total p a q b : slot_le p a q b = true \/ slot_le q b p a = true.
Proof.
  unfold slot_le. repeat case_decide; subst; rewrite !bool_decide_eq_true; try congruence; apply (base.total String.le).
Qed.

Lemma slot_le_trans p a q b r c : slot_le p a q b = true -> slot_le q b r c = true -> slot_le p a r c = true.
Proof.
  unfold slot_le. repeat case_decide; subst; rewrite !bool_decide_eq_true; try congruence; intros Hab Hbc;
    try (by transitivity b); try (by transitivity q); try done.
  exfalso. by eapply (anti_symm String.le) in Hab; [|exact Hbc].
Qed.

Definition entry_le (d e : VaultEntry) : bool :=
  slot_le (entry_provider d) (entry_account d) (entry_provider e) (entry_account e).

(** What the operations that read return, of a vault that says [v]. *)
Record reads_as (sv : SessionVault) (w : VaultWorld) (v : slots) : Prop := {
  ra_get : forall p a, key_fits (mkRecordKey p a) -> get sv p a w = (Ok (v !! mkRecordKey p a ≫= entry_record), w);
  ra_entries : exists l, entries sv w = (Ok l, w) /\ lists l v /\ StronglySorted (fun d e => entry_le d e = true) l;
  ra_list : forall provider, exists l, list_records sv provider w = (Ok l, w) /\
    NoDup l /\ StronglySorted (fun r s => entry_le (EntryRecord r) (EntryRecord s) = true) l /\
    forall r, r ∈ l <-> v !! record_key_of (EntryRecord r) = Some (EntryRecord r) /\ is_wanted provider r = true;
}.

Lemma elem_of_records r (es : list VaultEntry) : r ∈ omap entry_record es <-> EntryRecord r ∈ es.
Proof.
  rewrite list_elem_of_omap. split; [intros (e & He & E); destruct e; by simplify_eq/=|]. intros He. by exists (EntryRecord r).
Qed.

Lemma NoDup_records (es : list VaultEntry) : NoDup es -> NoDup (omap entry_record es).
Proof.
  induction 1 as [|e es He Hes IH]; simpl; [constructor|]. destruct e as [r|t]; simpl; [|done].
  constructor; [|done]. by rewrite elem_of_records.
Qed.

Lemma holds_reads sv w av : holds sv w av -> reads_as sv w (av_slots av).
Proof.
  intros (f & Hd & Ho). destruct (op_records _ _ _ Ho) as (es & Hopen & Hl & Hfit).
  apply open_entries_Forall2 in Hopen as Hes. split.
  - intros p a Hk. unfold get, io_bind, io_lift, io_ret. rewrite (load_holds _ _ _ _ Hd Ho).
    pose proof (find_record_spec sv f (av_slots av) (mkRecordKey p a) (op_records _ _ _ Ho) Hk) as Hfind.
    cbn [rk_provider rk_account] in Hfind.
    destruct (find_record _ f) as [r|]; [|by rewrite Hfind]. destruct Hfind as (e & -> & ->). done.
  - unfold entries, io_bind, io_lift, io_ret. rewrite (load_holds _ _ _ _ Hd Ho), Hes. eexists. split_and!; [done| |].
    + eapply lists_perm; [|exact Hl]. by rewrite sort_by_Permutation.
    + apply sort_by_sorted; [intros; apply slot_le_total|intros ? ? ?; apply slot_le_trans].
  - intros provider. unfold list_records, io_bind, io_lift, io_ret. rewrite (load_holds _ _ _ _ Hd Ho), Hes.
    eexists. split_and!; [done| | |].
    + rewrite sort_by_Permutation. apply NoDup_filter, NoDup_records. apply (NoDup_fmap_1 record_key_of), Hl.
    + apply sort_by_sorted; [intros; apply slot_le_total|intros ? ? ?; apply slot_le_trans].
    + intros r. rewrite sort_by_Permutation, list_elem_of_filter, elem_of_records, (lists_elem _ _ _ Hl). tauto.
Qed.

(** ** A new vault *)

Definition draws_ok (d : CreateDraws) : Prop :=
  length (cd_data_key d) = 32 /\ length (cd_wrap_nonce d) = NONCE_BYTES /\ length (cd_verifier_nonce d) = NONCE_BYTES.

(** The file [create_file] writes, when its seals can be made. *)
Lemma create_file_holds path passphrase subject d w sv w' :
  draws_ok d -> path ∉ vw_unreadable w -> create_file path passphrase subject d w = (Ok sv, w') ->
  sv = session_of path subject (cd_data_key d) /\ holds sv w' (mkAbstract ∅ []) /\
  (forall p, p <> path -> vw_files w' !! p = vw_files w !! p) /\ vw_unreadable w' = vw_unreadable w /\
  exists f kek, on_disk w' path f /\ passphrase_kek (vf_header f) passphrase subject = Ok kek /\
    seal (cd_wrap_nonce d) kek (cd_data_key d) (header_to_vec (vf_header f)) = Ok (vf_wrapped_data_key f) /\
    seal (cd_verifier_nonce d) (cd_data_key d) VERIFIER VERIFIER = Ok (vf_verifier f) /\
    check_verifier (vf_verifier f) (cd_data_key d) = Ok () /\ vf_header f = Header_fresh (cd_salt d).
Proof.
  intros (Hk & Hn & Hv) Hr. unfold create_file, io_bind, io_lift, io_ret.
  destruct (wrap_under_passphrase _ _ _ _ _) as [wrapped| |] eqn:Ew; [|done..].
  destruct (seal (cd_verifier_nonce d) _ _ _) as [verifier| |] eqn:Ev; [|done..].
  set (f := mkVaultFile _ _ _ _ _). unfold write_vault_file.
  destruct (default Written (head (vw_writes w))); [|done..]. intros [= <- <-].
  assert (check_verifier verifier (cd_data_key d) = Ok ()) as Hver.
  { unfold check_verifier. rewrite (open_sealed_unit _ _ _ _ _ Hv Ev). cbn [res_bind]. by rewrite decide_True. }
  assert (forall ws, on_disk (set_files (<[path := vault_to_vec f]> (vw_files w))
            (mkVaultWorld (vw_files w) (vw_unreadable w) ws (vw_listing w) (vw_rename w))) path f) as Hd.
  { intros ws. split; simpl; [by rewrite lookup_insert_eq|done|by eexists]. }
  split_and!; [done| |intros; by apply lookup_insert_ne|done|].
  - exists f. split; [apply Hd|]. split; simpl; [done|done| |].
    + exists []. split_and!; [constructor|by split; [constructor|]|constructor].
    + split; constructor.
  - unfold wrap_under_passphrase in Ew. destruct (passphrase_kek _ _ _) as [kek| |] eqn:Ek; simpl in Ew; [|done..].
    exists f, kek. by split_and!.
Qed.

(** ** Runs of calls *)

Fixpoint run_calls (sv : SessionVault) (cs : list vault_call) (w : VaultWorld) : list (res VaultError ()) * VaultWorld :=
  match cs with
  | [] => ([], w)
  | c :: cs =>
      let '(r, w) := run_call sv c w in
      let '(rs, w) := run_calls sv cs w in
      (r :: rs, w)
  end.

Inductive spec_run (subject : string) : list vault_call -> list (res VaultError ()) -> AbstractVault -> AbstractVault -> Prop :=
| spec_run_nil av : spec_run subject [] [] av av
| spec_run_cons c cs r rs av av' av'' :
    answers subject c r av av' -> spec_run subject cs rs av' av'' -> spec_run subject (c :: cs) (r :: rs) av av''.

(** The slot ids a call draws. *)
Definition drawn (c : vault_call) : list bytes := match c with CallAddSlot id _ _ => [id] | _ => [] end.

(** Draws have the lengths they are drawn with, and texts fit in memory. *)
Definition call_draws_ok (c : vault_call) : Prop :=
  match c with
  | CallPut nonce r => length nonce = NONCE_BYTES /\ key_fits (record_key_of (EntryRecord r))
  | CallRemove nonce _ provider account => length nonce = NONCE_BYTES /\ key_fits (mkRecordKey provider account)
  | CallAddSlot _ key nonce | CallRotate _ key nonce => length key = 32 /\ length nonce = NONCE_BYTES
  | CallDropSlot _ => True
  end.

(** The keys of a run: ids from those drawn, and at most as many as are kept. *)
Definition keys_ok (seen : list bytes) (av : AbstractVault) : Prop :=
  (forall k, k ∈ av_keys av -> uk_slot_id k ∈ to_hex <$> seen) /\ length (av_keys av) <= MAX_UNLOCK_SLOTS.

Lemma rotated_length u (ks : list UnlockKey) :
  u ∈ ks -> length (filter (fun k => uk_slot_id k <> uk_slot_id u) ks) < length ks.
Proof.
  induction ks as [|k ks IH]; intros Hu; [by apply elem_of_nil in Hu|]. rewrite filter_cons.
  pose proof (length_filter (fun k => uk_slot_id k <> uk_slot_id u) ks).
  case_decide; simpl; [|lia]. apply elem_of_cons in Hu as [->|Hu]; [done|]. apply IH in Hu. lia.
Qed.

Lemma effect_keys subject c seen av av' :
  keys_ok seen av -> effect subject c av = Some av' -> keys_ok (seen ++ drawn c) av'.
Proof.
  intros [Hids Hlen] He.
  assert (forall k, k ∈ av_keys av -> uk_slot_id k ∈ to_hex <$> seen ++ drawn c) as Hids'.
  { intros k Hk. rewrite fmap_app. apply elem_of_app. left. by apply Hids. }
  destruct c as [nonce r|nonce now p a|id key nonce|u key nonce|id]; simpl in He.
  - by injection He as <-.
  - destruct (av_slots av !! _) as [[r|]|]; [|by injection He as <-..]. destruct now; [|done]. by injection He as <-.
  - injection He as <-. split; simpl.
    + intros k Hk. unfold keep_keys in Hk. apply (sublist_subseteq _ _ (sublist_drop _ _)) in Hk.
      apply elem_of_app in Hk as [Hk| ->%list_elem_of_singleton]; [by apply Hids'|].
      rewrite fmap_app. set_solver.
    + unfold keep_keys. rewrite length_drop. lia.
  - case_decide as Hu; [|done]. injection He as <-. split; simpl.
    + intros k [[_ Hk]%list_elem_of_filter| ->%list_elem_of_singleton]%elem_of_app; [by apply Hids'|]. by apply (Hids' u).
    + rewrite length_app. simpl. pose proof (rotated_length u _ Hu). lia.
  - injection He as <-. split; simpl; [intros k [_ Hk]%list_elem_of_filter; by apply Hids'|].
    pose proof (length_filter (fun k => uk_slot_id k <> id) (av_keys av)). lia.
Qed.

Lemma answers_keys subject c r seen av av' :
  keys_ok seen av -> answers subject c r av av' -> keys_ok (seen ++ drawn c) av'.
Proof.
  intros Hok. assert (keys_ok (seen ++ drawn c) av) as Hsame.
  { destruct Hok as [Hids Hlen]. split; [|done]. intros k Hk. rewrite fmap_app. apply elem_of_app. left. by apply Hids. }
  destruct r as [|e|]; simpl; [by apply effect_keys| |done].
  destruct e; try (intros ->; done). intros [->|He]; [done|]. by eapply effect_keys.
Qed.

Lemma draws_call_ok seen av c :
  keys_ok seen av -> call_draws_ok c -> NoDup (seen ++ drawn c) -> call_ok av c.
Proof.
  intros [Hids _] Hc Hnd. destruct c as [| |id key nonce| |]; simpl in *; try done.
  destruct Hc as [Hk Hn]. split_and!; [done|done|].
  intros (k & Ek & Hk')%list_elem_of_fmap. apply Hids in Hk' as (id' & E & Hid')%list_elem_of_fmap.
  rewrite <- Ek in E. apply (inj to_hex) in E as <-.
  apply NoDup_app in Hnd as (_ & Hnd & _). by apply (Hnd id); [|left].
Qed.

Lemma run_refines sv cs seen w av rs w' :
  holds sv w av -> keys_ok seen av -> Forall call_draws_ok cs -> NoDup (seen ++ concat (drawn <$> cs)) ->
  run_calls sv cs w = (rs, w') ->
  exists av' seen', holds sv w' av' /\ spec_run (sv_subject sv) cs rs av av' /\ keys_ok seen' av'.
Proof.
  revert seen w av rs. induction cs as [|c cs IH]; intros seen w av rs Hh Hk Hd Hnd; simpl.
  { intros [= <- <-]. exists av, seen. split_and!; [done|constructor|done]. }
  apply Forall_cons in Hd as [Hc Hd]. rewrite fmap_cons in Hnd. simpl in Hnd. rewrite (assoc_L (++)) in Hnd.
  destruct (run_call sv c w) as [r w1] eqn:Er. destruct (run_calls sv cs w1) as [rs1 w2] eqn:Es. intros [= <- <-].
  destruct (call_refines sv w av c r w1) as (av1 & Hh1 & Ha); [done| |done|].
  { apply (draws_call_ok seen); [done|done|]. by apply NoDup_app in Hnd as [? _]. }
  destruct (IH (seen ++ drawn c) w1 av1 rs1 Hh1 (answers_keys _ _ _ _ _ _ Hk Ha) Hd Hnd Es) as (av2 & seen2 & Hh2 & Hs & Hk2).
  exists av2, seen2. split_and!; [done|by econstructor|done].
Qed.

Lemma holds_unlock sv w av u :
  holds sv w av ->
  open_with_unlock_key (sv_path sv) u w =
    ((if decide (u ∈ av_keys av) then Ok (session_of (sv_path sv) (sv_subject sv) (sv_data_key sv)) else Err VLocked), w).
Proof.
  intros (f & Hd & Ho). unfold open_with_unlock_key, io_bind, io_lift. rewrite (read_on_disk _ _ _ Hd). simpl.
  rewrite (open_slot_in_spec sv _ _ u (op_key _ _ _ Ho) (op_keys _ _ _ Ho)). case_decide as Hu; simpl; [|done].
  rewrite (op_verified _ _ _ Ho). simpl. destruct (op_keys _ _ _ Ho) as [Hall _].
  apply list_elem_of_lookup in Hu as [i Hi]. destruct (Forall2_lookup_r _ _ _ _ _ Hall Hi) as (s & _ & _ & -> & _). done.
Qed.

(** C8. A new vault and any sequence of stores, removals, slot additions, rotations and
    removals on it, whichever writes fail, refine an abstract vault: a map from slots
    to entries and a list of at most sixteen unlock keys, least recently used first. A
    call that returns Ok is exactly its abstract step; the reads return what the map
    says, and a key opens the vault exactly when it is on the list. *)
Theorem vault_refines path passphrase subject d w0 sv w1 cs rs w2 :
  draws_ok d -> path ∉ vw_unreadable w0 -> create_file path passphrase subject d w0 = (Ok sv, w1) ->
  Forall call_draws_ok cs -> NoDup (concat (drawn <$> cs)) -> run_calls sv cs w1 = (rs, w2) ->
  exists av, spec_run subject cs rs (mkAbstract ∅ []) av /\ reads_as sv w2 (av_slots av) /\
    length (av_keys av) <= MAX_UNLOCK_SLOTS /\
    forall u, open_with_unlock_key path u w2 = ((if decide (u ∈ av_keys av) then Ok sv else Err VLocked), w2).
Proof.
  intros Hd Hr Hc Hcs Hnd Hrun. destruct (create_file_holds _ _ _ _ _ _ _ Hd Hr Hc) as (-> & Hh & _).
  destruct (run_refines _ cs [] _ _ _ _ Hh ltac:(split; simpl; [intros k Hk; by apply elem_of_nil in Hk|lia]) Hcs Hnd Hrun)
    as (av & seen & Hh' & Hs & [_ Hlen]).
  exists av. split_and!; [done|by apply holds_reads|done|]. intros u. exact (holds_unlock _ _ _ u Hh').
Qed.

(** ** Calls that succeed *)

(** The entry a call seals, if any. *)
Definition sealed_by (c : vault_call) (av : AbstractVault) : option VaultEntry :=
  match c with
  | CallPut _ r => Some (EntryRecord r)
  | CallRemove _ (Some now) provider account =>
      match av_slots av !! mkRecordKey provider account with
      | Some (EntryRecord r) => Some (EntryTombstone (mkTombstone provider account (cr_version r) now))
      | _ => None
      end
  | _ => None
  end.

Lemma write_succeeds w path f :
  default Written (head (vw_writes w)) = Written -> exists w', write_vault_file path f w = (Ok (), w').
Proof. unfold write_vault_file. intros ->. by eexists. Qed.

Lemma seal_entry_fits sv nonce e :
  (N.of_nat (length (entry_to_vec e)) < 4294967296)%N -> exists r, seal_entry sv nonce e = Ok r.
Proof.
  intros Hf. unfold seal_entry. destruct (seal_fits nonce (sv_data_key sv) (entry_to_vec e)
    (record_aad (record_id sv (entry_provider e) (entry_account e))) Hf) as [s ->]. by eexists.
Qed.

Lemma new_slot_fits sv key nonce id :
  length (sv_data_key sv) = 32 -> exists s, new_unlock_slot sv key nonce id = Ok s.
Proof.
  intros Hl. unfold new_unlock_slot. destruct (seal_fits nonce (unlock_kek key id (sv_subject sv)) (sv_data_key sv)
    (unlock_aad id (sv_subject sv))) as [s ->]; [rewrite Hl; lia|]. by eexists.
Qed.

(** A call that has an abstract step returns Ok when its write succeeds. *)
Theorem call_succeeds sv w av c av' :
  holds sv w av -> call_ok av c -> effect (sv_subject sv) c av = Some av' ->
  default Written (head (vw_writes w)) = Written ->
  (forall e, sealed_by c av = Some e -> (N.of_nat (length (entry_to_vec e)) < 4294967296)%N) ->
  exists w', run_call sv c w = (Ok (), w').
Proof.
  intros (f & Hd & Ho) Hc He Hw Hfit. pose proof (load_holds _ _ _ _ Hd Ho) as Hload.
  destruct c as [nonce r|nonce now p a|id key nonce|u key nonce|id]; simpl in *.
  - unfold put, io_bind, io_lift. rewrite Hload.
    destruct (seal_entry_fits sv nonce (EntryRecord r)) as [s ->]; [by apply Hfit|]. by apply write_succeeds.
  - unfold remove, io_bind, io_lift, io_ret. rewrite Hload.
    pose proof (find_record_spec sv f (av_slots av) (mkRecordKey p a) (op_records _ _ _ Ho) (proj2 Hc)) as Hfind.
    cbn [rk_provider rk_account] in Hfind. destruct (find_record _ f) as [sealed|]; [|by eexists].
    destruct Hfind as (e & -> & Hv). rewrite Hv in He, Hfit. destruct e as [r|t]; [|by eexists].
    destruct now as [now|]; [|done]. cbn [ok_or].
    destruct (seal_entry_fits sv nonce (EntryTombstone (mkTombstone p a (cr_version r) now))) as [s ->]; [by apply Hfit|].
    by apply write_succeeds.
  - unfold discard, add_unlock_slot, io_bind, io_lift, io_ret. rewrite Hload.
    destruct (new_slot_fits sv key nonce (to_hex id) (op_key _ _ _ Ho)) as [s ->].
    edestruct write_succeeds as [w' ->]; [done|]. by eexists.
  - unfold discard, rotate_unlock_slot, io_bind, io_lift, io_ret. rewrite Hload.
    rewrite (open_slot_in_spec sv _ _ u (op_key _ _ _ Ho) (op_keys _ _ _ Ho)).
    destruct (decide (u ∈ av_keys av)); [|done]. destruct (new_slot_fits sv key nonce (uk_slot_id u) (op_key _ _ _ Ho)) as [s ->].
    edestruct write_succeeds as [w' ->]; [done|]. by eexists.
  - unfold remove_unlock_slot, io_bind. rewrite Hload. case_decide; [by eexists|]. by apply write_succeeds.
Qed.

(** ** Tampering *)

(** A sealed record moved to another slot, or opened under another data key, is not read. *)
Theorem moved_record_refused sv nonce e r id :
  length nonce = NONCE_BYTES -> seal_entry sv nonce e = Ok r -> id <> sr_id r ->
  open_entry sv (mkSealedRecord id (sr_nonce r) (sr_ciphertext r)) = Err VCrypto /\
  forall other, sv_data_key other <> sv_data_key sv -> open_entry other r = Err VCrypto.
Proof.
  intros Hn Hs Hid. unfold seal_entry in Hs. destruct (seal _ _ _ _) as [s| |] eqn:E; simpl in Hs; [|done..].
  injection Hs as <-. simpl in *. unfold open_entry. simpl. split.
  - destruct (open_unit_cases (sv_data_key sv) (sl_nonce s) (sl_ciphertext s) (record_aad id)) as [[m Ho]| ->]; [|done].
    destruct (open_unit_bound _ _ _ _ _ _ _ _ E Ho) as [_ Ha]. destruct Hid.
    unfold record_aad in Ha. apply app_inv_head in Ha. by apply text_bytes_inj.
  - intros other Hk. destruct (open_unit_cases (sv_data_key other) (sl_nonce s) (sl_ciphertext s)
      (record_aad (record_id sv (entry_provider e) (entry_account e)))) as [[m Ho]| ->]; [|done].
    by destruct (open_unit_bound _ _ _ _ _ _ _ _ E Ho).
Qed.
End spec.

(** ** Witnesses *)

Section witnesses.
#[local] Existing Instance packed_prims.
#[local] Existing Instance packed_ideal.
#[local] Existing Instance packed_ports.

Definition demo_draws : CreateDraws :=
  mkCreateDraws (replicate 32 x07) (replicate 16 x01) (replicate 12 x02) (replicate 12 x03).

Definition demo_world : VaultWorld := mkVaultWorld ∅ ∅ [] None None.

Definition demo_vault : SessionVault * VaultWorld :=
  match create_file "a.vault" "correct horse" "ada" demo_draws demo_world with
  | (Ok sv, w) => (sv, w)
  | (_, w) => (session_of "" "" [], w)
  end.

Lemma demo_created : create_file "a.vault" "correct horse" "ada" demo_draws demo_world = (Ok demo_vault.1, demo_vault.2).
Proof. reflexivity. Qed.

Definition demo_credential : CredentialRecord := mkCredential "github" "ada" "Ada" "token" ∅ 7 1.

(** A credential is stored and removed, a browser is given a key and it is rotated. *)
Definition demo_calls : list vault_call :=
  [CallPut (replicate 12 x04) demo_credential;
   CallAddSlot (replicate 16 x05) (replicate 32 x06) (replicate 12 x07);
   CallRotate (mkUnlockKey "ada" (to_hex (replicate 16 x05)) (replicate 32 x06)) (replicate 32 x08) (replicate 12 x09);
   CallRemove (replicate 12 x0a) (Some 9%N) "github" "ada"].

Lemma demo_draws_ok : draws_ok demo_draws.
Proof. done. Qed.

Lemma demo_calls_ok : Forall call_draws_ok demo_calls.
Proof. repeat constructor; vm_compute; congruence. Qed.

Lemma vault_refines_witness :
  exists av, spec_run "ada" demo_calls (run_calls demo_vault.1 demo_calls demo_vault.2).1 (mkAbstract ∅ []) av /\
    length (av_keys av) <= MAX_UNLOCK_SLOTS.
Proof.
  destruct (vault_refines "a.vault" "correct horse" "ada" demo_draws demo_world demo_vault.1 demo_vault.2 demo_calls
    _ _ demo_draws_ok (not_elem_of_empty _) demo_created demo_calls_ok (NoDup_singleton _) (surjective_pairing _))
    as (av & Hs & _ & Hl & _).
  by exists av.
Defined.
End witnesses.
