(* ===== verification/VaultLocks.v ===== *)
(** * What opens a vault

    The passphrase, the unlock keys and the reset of [VaultSpec]'s vault: which secrets
    open it after any calls, what a reset keeps and retires, and the wire form of an
    unlock key. *)

From Stdlib Require Import Ascii Strings.Byte.
From stdpp Require Import countable.
From S2P Require Import Prelude Text Graph Framing Utf8 Json Credentials Vault VaultSpec.

Local Open Scope io_scope.

Section locks.
Context `{SealPrims, VaultPorts, !IdealSeals}.

(** ** The passphrase *)

(** Argon2id, as ideal as the seals: its outputs are as long as a digest and name the passphrase. *)
Class IdealArgon := {
  argon_digest : forall m t p pass salt d, argon2id m t p pass salt = Some d -> digest d;
  argon_inj : forall m t p pass pass' salt d,
    argon2id m t p pass salt = Some d -> argon2id m t p pass' salt = Some d -> pass = pass';
}.

(** The calls leave the header, the passphrase's wrap and the verifier alone. *)
Definition same_lock (f f' : VaultFile) : Prop :=
  vf_header f' = vf_header f /\ vf_wrapped_data_key f' = vf_wrapped_data_key f /\ vf_verifier f' = vf_verifier f.

Lemma write_lock w path f f' r w' :
  on_disk w path f -> current f' -> same_lock f f' -> write_vault_file path f' w = (r, w') ->
  exists f'', on_disk w' path f'' /\ same_lock f f''.
Proof.
  intros Hd Hc Hs Hw. destruct (write_on_disk _ _ _ _ _ _ Hd Hc Hw) as (_ & _ & _ & Hr).
  destruct r as [|e|]; [by exists f'| |done]. destruct Hr as [_ [?|?]]; [by exists f|by exists f'].
Qed.

Lemma call_lock sv c w f av r w' :
  on_disk w (sv_path sv) f -> opens sv f av -> run_call sv c w = (r, w') ->
  exists f', on_disk w' (sv_path sv) f' /\ same_lock f f'.
Proof.
  intros Hd Ho. pose proof (load_holds _ _ _ _ Hd Ho) as Hload.
  assert (exists f', on_disk w (sv_path sv) f' /\ same_lock f f') as Hsame by (by exists f).
  destruct c; unfold run_call, put, remove, discard, add_unlock_slot, rotate_unlock_slot, remove_unlock_slot,
    io_bind, io_lift, io_ret; rewrite Hload.
  - destruct (seal_entry _ _ _); [|by intros [= _ <-]..]. intros Hw. refine (write_lock w _ f _ _ _ Hd _ _ Hw); [apply Hd|by split_and!].
  - destruct (find_record _ _); [|by intros [= _ <-]]. destruct (open_entry _ _) as [[]| |]; [|by intros [= _ <-]..].
    destruct (ok_or _ _); [|by intros [= _ <-]..]. destruct (seal_entry _ _ _); [|by intros [= _ <-]..].
    intros Hw. refine (write_lock w _ f _ _ _ Hd _ _ Hw); [apply Hd|by split_and!].
  - destruct (new_unlock_slot _ _ _ _); [|by intros [= _ <-]..]. destruct (write_vault_file _ _ w) as [r1 w1] eqn:Hw.
    intros E. assert (w1 = w') as -> by (by destruct r1; injection E). refine (write_lock w _ f _ _ _ Hd _ _ Hw); [apply Hd|by split_and!].
  - destruct (open_slot_in _ _); [|by intros [= _ <-]..]. destruct (new_unlock_slot _ _ _ _); [|by intros [= _ <-]..].
    destruct (write_vault_file _ _ w) as [r1 w1] eqn:Hw.
    intros E. assert (w1 = w') as -> by (by destruct r1; injection E). refine (write_lock w _ f _ _ _ Hd _ _ Hw); [apply Hd|by split_and!].
  - case_decide; [by intros [= _ <-]|]. intros Hw. refine (write_lock w _ f _ _ _ Hd _ _ Hw); [apply Hd|by split_and!].
Qed.

Lemma run_lock sv cs seen w f av rs w' :
  on_disk w (sv_path sv) f -> opens sv f av -> keys_ok seen av -> Forall call_draws_ok cs ->
  NoDup (seen ++ concat (drawn <$> cs)) -> run_calls sv cs w = (rs, w') ->
  exists f', on_disk w' (sv_path sv) f' /\ same_lock f f'.
Proof.
  revert seen w f av rs. induction cs as [|c cs IH]; intros seen w f av rs Hd Ho Hk Hc Hnd; simpl.
  { intros [= _ <-]. by exists f. }
  apply Forall_cons in Hc as [Hc Hcs]. rewrite fmap_cons in Hnd. simpl in Hnd. rewrite (assoc_L (++)) in Hnd.
  destruct (run_call sv c w) as [r w1] eqn:Er. destruct (run_calls sv cs w1) as [rs1 w2] eqn:Es. intros [= _ <-].
  destruct (call_refines sv w av c r w1) as (av1 & (f1 & Hd1 & Ho1) & Ha); [by exists f| |done|].
  { apply (draws_call_ok seen); [done|done|]. by apply NoDup_app in Hnd as [? _]. }
  destruct (call_lock sv c w f av r w1 Hd Ho Er) as (f1' & Hd1' & Hs1).
  assert (f1' = f1) as -> by (exact (on_disk_inj _ _ _ _ Hd1' Hd1)).
  destruct (IH _ w1 f1 av1 rs1 Hd1 Ho1 (answers_keys _ _ _ _ _ _ Hk Ha) Hcs Hnd Es) as (f2 & Hd2 & Hs2).
  exists f2. split; [done|]. destruct Hs1 as (A & B & C), Hs2 as (A' & B' & C'). split_and!; congruence.
Qed.

(** Which passphrase opens a vault. *)
Lemma passphrase_opens `{!IdealArgon} path p subject d w f kek p' subject' prk' :
  on_disk w path f -> passphrase_kek (vf_header f) p subject = Ok kek ->
  seal (cd_wrap_nonce d) kek (cd_data_key d) (header_to_vec (vf_header f)) = Ok (vf_wrapped_data_key f) ->
  check_verifier (vf_verifier f) (cd_data_key d) = Ok () -> draws_ok d ->
  argon2id (hd_m_cost_kib (vf_header f)) (hd_t_cost (vf_header f)) (hd_p_cost (vf_header f)) (text_bytes p')
    (default [] (from_hex (hd_salt (vf_header f)))) = Some prk' ->
  open_with_passphrase path p' subject' w =
    ((if decide (p' = p /\ subject' = subject) then Ok (session_of path subject (cd_data_key d)) else Err VLocked), w).
Proof.
  intros Hd Hk Hs Hv (Hl & Hn & _) Ha. unfold open_with_passphrase, io_bind, io_lift. rewrite (read_on_disk _ _ _ Hd). simpl.
  unfold passphrase_kek in *. destruct (from_hex (hd_salt (vf_header f))) as [salt|]; simpl in Hk, Ha |- *; [|done].
  rewrite Ha. simpl. destruct (argon2id _ _ _ (text_bytes p) salt) as [prk|] eqn:Ea; simpl in Hk; [|done]. injection Hk as <-.
  unfold unwrap_data_key. case_decide as E.
  - destruct E as [-> ->]. assert (prk' = prk) as -> by congruence.
    rewrite (open_sealed_unit _ _ _ _ _ Hn Hs). simpl. rewrite decide_True by done. simpl. by rewrite Hv.
  - destruct (open_unit_cases (hkdf_expand prk' (text_bytes ("tddy-credentials/v2/passphrase/" +:+ subject')))
      (sl_nonce (vf_wrapped_data_key f)) (sl_ciphertext (vf_wrapped_data_key f)) (header_to_vec (vf_header f)))
      as [[m Ho]| ->]; [|done]. exfalso. apply E.
    destruct (open_unit_bound _ _ _ _ _ _ _ _ Hs Ho) as [Hkek _].
    apply hkdf_expand_inj in Hkek as [-> Hi]; [|by eapply argon_digest..].
    split; [apply text_bytes_inj; by eapply argon_inj|].
    apply text_bytes_inj in Hi. by apply (inj (String.append _)) in Hi.
Qed.

(** ** Setting aside *)

Lemma aside_name_inj stem now n m : 1 <= n -> 1 <= m -> aside_name stem now n = aside_name stem now m -> n = m.
Proof.
  unfold aside_name. intros Hn Hm E. repeat apply (inj (String.append _)) in E. apply string_app_inj_r in E.
  repeat case_decide; subst; [done|done|done|]. injection E as E. apply (pretty_N_inj (N.of_nat n) (N.of_nat m)) in E. lia.
Qed.

Lemma free_aside_taken fuel n stem now w :
  free_aside fuel n stem now w = None -> forall i, i < fuel -> exists_file (aside_name stem now (n + i)) w = true.
Proof.
  revert n. induction fuel as [|fuel IH]; intros n; simpl; [lia|].
  destruct (exists_file _ w) eqn:E; [|done]. intros Hf i Hi. destruct i as [|i]; [by rewrite Nat.add_0_r|].
  rewrite Nat.add_succ_r. apply (IH (S n)); [done|lia].
Qed.

(** One more name than there are files: one of them is free. *)
Lemma free_aside_total stem now w : is_Some (free_aside (S (size (vw_files w))) 1 stem now w).
Proof.
  destruct (free_aside _ 1 stem now w) as [a|] eqn:E; [by eexists|]. exfalso.
  pose proof (free_aside_taken _ _ _ _ _ E) as Htaken.
  assert (list_to_set (C := gset string) (aside_name stem now <$> seq 1 (S (size (vw_files w)))) ⊆ dom (vw_files w)) as Hsub.
  { intros x. rewrite elem_of_list_to_set, list_elem_of_fmap. intros (n & -> & Hn%elem_of_seq).
    specialize (Htaken (n - 1) ltac:(lia)). replace (1 + (n - 1)) with n in Htaken by lia.
    unfold exists_file in Htaken. apply bool_decide_eq_true in Htaken. by apply elem_of_dom. }
  apply subseteq_size in Hsub. rewrite size_list_to_set, size_dom, length_fmap, length_seq in Hsub; [lia|].
  apply NoDup_fmap_2_strong; [|apply NoDup_seq].
  intros a b Ha%elem_of_seq Hb%elem_of_seq. apply aside_name_inj; lia.
Qed.

Lemma free_aside_free fuel n stem now w a : free_aside fuel n stem now w = Some a -> vw_files w !! a = None.
Proof.
  revert n. induction fuel as [|fuel IH]; intros n; simpl; [done|]. destruct (exists_file _ w) eqn:E; [by apply IH|].
  intros [= <-]. unfold exists_file in E. apply bool_decide_eq_false in E. by apply eq_None_not_Some.
Qed.

(** Setting aside never panics and never deletes: on Ok one file moved to a free name,
    otherwise nothing changed. *)
Lemma set_aside_spec path now w r w' :
  set_aside path now w = (r, w') ->
  match r with
  | Ok aside => exists raw, vw_files w !! path = Some raw /\ vw_files w !! aside = None /\
      w' = set_files (<[aside := raw]> (delete path (vw_files w))) w
  | Err _ => w' = w
  | Panic => False
  end.
Proof.
  unfold set_aside. assert (count_set_aside (file_stem path) w <> Panic) as Hnp
    by (unfold count_set_aside; by destruct (vw_listing w)).
  destruct (count_set_aside _ w) as [kept|e|]; [|by intros [= <- <-]|done].
  case_decide; [by intros [= <- <-]|]. destruct now as [now|]; [|by intros [= <- <-]].
  destruct (free_aside_total (file_stem path) now w) as [a Ha]. rewrite Ha.
  destruct (vw_rename w); [by intros [= <- <-]|]. destruct (vw_files w !! path) as [raw|] eqn:E; intros [= <- <-]; [|done].
  exists raw. split_and!; [done|by eapply free_aside_free|done].
Qed.

(** ** A reset *)

Lemma stale_after w sv f : on_disk w (sv_path sv) f -> (forall x, check_verifier (vf_verifier f) (sv_data_key sv) <> Ok x) ->
  is_stale sv w = true.
Proof.
  intros Hd Hv. unfold is_stale. apply orb_true_iff. right. unfold load_vault, io_bind, io_lift.
  rewrite (read_on_disk _ _ _ Hd). simpl.
  destruct (check_verifier _ _) as [[]| |] eqn:E; [by destruct (Hv ())|done|].
  unfold check_verifier in E. destruct (open_unit_cases (sv_data_key sv) (sl_nonce (vf_verifier f))
    (sl_ciphertext (vf_verifier f)) VERIFIER) as [[m Hm]|Hm]; rewrite Hm in E; simpl in E; [by case_decide|done].
Qed.

Lemma reset_spec path p subject now d w sv aside w' raw :
  draws_ok d -> path ∉ vw_unreadable w -> vw_files w !! path = Some raw ->
  store_reset path p subject now d w = (Ok (sv, aside), w') ->
  sv = session_of path subject (cd_data_key d) /\ holds sv w' (mkAbstract ∅ []) /\
  (exists f, on_disk w' path f /\ seal (cd_verifier_nonce d) (cd_data_key d) VERIFIER VERIFIER = Ok (vf_verifier f)) /\
  exists name, aside = Some name /\ vw_files w' !! name = Some raw /\ vw_files w !! name = None /\
    forall q, q <> path -> q <> name -> vw_files w' !! q = vw_files w !! q.
Proof.
  intros Hd Hr Hf. unfold store_reset, io_bind, io_ret.
  replace (exists_file path w) with true by (symmetry; apply bool_decide_eq_true; by rewrite Hf).
  destruct (set_aside path now w) as [ra wa] eqn:Ea. apply set_aside_spec in Ea. destruct ra as [name| |]; [|done..].
  destruct Ea as (raw' & Hf' & Hnone & ->). simplify_eq.
  assert (name <> path) as Hne by congruence.
  destruct (create_file path p subject d _) as [rc wc] eqn:Ec. destruct rc as [fresh| |]; [|done..]. intros [= -> <- <-].
  destruct (create_file_holds path p subject d (set_files (<[name := raw]> (delete path (vw_files w))) w) _ _ Hd Hr Ec)
    as (Hsv & Hh & Hframe & _ & f & kek & Hdisk & _ & _ & Hver & _).
  split_and!; [done|done|by exists f|]. exists name. split_and!; [done| |done|].
  - rewrite Hframe by done. simpl. by rewrite lookup_insert_eq.
  - intros q Hq Hq'. rewrite Hframe by done. simpl. by rewrite lookup_insert_ne, lookup_delete_ne.
Qed.

Lemma verifier_exact f d nonce k x :
  seal nonce (cd_data_key d) VERIFIER VERIFIER = Ok (vf_verifier f) -> check_verifier (vf_verifier f) k = Ok x ->
  k = cd_data_key d.
Proof.
  intros Hs. unfold check_verifier. destruct (open_unit k _ _ VERIFIER) as [m| |] eqn:Ho; simpl; [|done..].
  intros _. by destruct (open_unit_bound _ _ _ _ _ _ _ _ Hs Ho).
Qed.

(** C9. After any sequence of calls on a new vault, whichever writes fail, it opens
    with the passphrase and the subject it was created with and with no others. A reset
    keeps the old file, byte for byte under a name no file had, leaves every other file
    alone, and starts an empty vault that
    no earlier unlock key opens and on which every earlier handle is stale. *)
Theorem vault_locks_exact `{!IdealArgon} path p subject d w0 sv w1 cs rs w2 :
  draws_ok d -> path ∉ vw_unreadable w0 -> create_file path p subject d w0 = (Ok sv, w1) ->
  Forall call_draws_ok cs -> NoDup (concat (drawn <$> cs)) -> run_calls sv cs w1 = (rs, w2) ->
  (forall p' subject', is_Some (argon2id M_COST_KIB T_COST P_COST (text_bytes p') (cd_salt d)) ->
     open_with_passphrase path p' subject' w2 =
       ((if decide (p' = p /\ subject' = subject) then Ok sv else Err VLocked), w2)) /\
  (forall p' now d' sv' aside w3,
     draws_ok d' -> cd_data_key d' <> cd_data_key d -> store_reset path p' subject now d' w2 = (Ok (sv', aside), w3) ->
     reads_as sv' w3 ∅ /\ is_stale sv w3 = true /\ (forall u, open_with_unlock_key path u w3 = (Err VLocked, w3)) /\
     exists name, aside = Some name /\ vw_files w2 !! name = None /\ vw_files w3 !! name = vw_files w2 !! path /\
       forall q, q <> path -> q <> name -> vw_files w3 !! q = vw_files w2 !! q).
Proof.
  intros Hd Hr Hc Hcs Hnd Hrun.
  destruct (create_file_holds _ _ _ _ _ _ _ Hd Hr Hc) as (-> & (f0 & Hd0 & Ho0) & _ & Hunr & f & kek & Hdisk & Hkek & Hwrap & _ & Hver & Hhd).
  assert (f0 = f) as -> by (exact (on_disk_inj _ _ _ _ Hd0 Hdisk)).
  destruct (run_lock _ cs [] _ _ _ _ _ Hd0 Ho0 ltac:(split; simpl; [intros k Hk; by apply elem_of_nil in Hk|lia]) Hcs Hnd Hrun)
    as (f2 & Hd2 & Hh2 & Hw2 & Hv2). split.
  - intros p' subject' [prk' Hprk]. eapply (passphrase_opens path p subject d w2 f2 kek); [done| | | |done|].
    + by rewrite Hh2.
    + by rewrite Hh2, Hw2.
    + by rewrite Hv2.
    + rewrite Hh2, Hhd. simpl. rewrite from_to_hex. exact Hprk.
  - intros p' now d' sv' aside w3 Hd' Hne Hreset.
    destruct (reset_spec path p' subject now d' w2 sv' aside w3 _ Hd' (od_readable _ _ _ Hd2) (od_file _ _ _ Hd2) Hreset)
      as (-> & Hh3 & (f3 & Hd3 & Hs3) & name & -> & Hn1 & Hfree & Hn2).
    split_and!.
    + apply (holds_reads _ _ _ Hh3).
    + apply (stale_after _ _ f3); [done|]. intros x Hx. apply Hne. symmetry. exact (verifier_exact _ _ _ _ _ Hs3 Hx).
    + intros u. pose proof (holds_unlock _ _ _ u Hh3) as Hu. rewrite decide_False in Hu by (intros ?%elem_of_nil; done). exact Hu.
    + exists name. split_and!; [done|done| |done]. rewrite Hn1. symmetry. exact (od_file _ _ _ Hd2).
Qed.

(** ** Unlock keys on the wire *)

Lemma split_on_first c s t : has_char c s = false -> split_on c (s +:+ String c t) = s :: split_on c t.
Proof.
  induction s as [|a s IH]; cbn [has_char].
  - intros _. change ("" +:+ String c t) with (String c t). cbn [split_on]. by rewrite decide_True.
  - intros [Ha Hs]%orb_false_iff. change (String a s +:+ String c t) with (String a (s +:+ String c t)). cbn [split_on].
    rewrite IH by done. apply bool_decide_eq_false in Ha. by rewrite decide_False.
Qed.

(** An unlock key a vault hands out reads back from its wire form, and what reads
    back has the shape of one: whole hex, a slot and a key of 32 bytes. *)
Theorem unlock_key_wire_roundtrip :
  (forall u, utf8_valid (text_bytes (uk_subject u)) = true -> length (uk_key u) = 32 ->
     (exists id, uk_slot_id u = to_hex id /\ id <> []) -> from_wire (to_wire u) = Some u) /\
  (forall wire u, from_wire wire = Some u ->
     length (uk_key u) = 32 /\ uk_slot_id u <> "" /\ is_Some (from_hex (uk_slot_id u)) /\
     utf8_valid (text_bytes (uk_subject u)) = true).
Proof.
  split.
  - intros [subject slot key] Hutf Hlen (id & E & Hid). simpl in *. subst slot. unfold from_wire, to_wire. simpl.
    change ("." +:+ to_hex id +:+ "." +:+ to_hex key) with (String "." (to_hex id +:+ String "." (to_hex key))).
    rewrite !split_on_first by apply to_hex_no_dot.
    rewrite split_on_free by apply to_hex_no_dot. rewrite !from_to_hex. rewrite decide_False.
    2: { intros [E|E]; [|done]. destruct id; [done|]. done. }
    simpl. unfold from_utf8. rewrite Hutf. simpl. rewrite decide_True by done. by rewrite bytes_text_bytes.
  - intros wire u. unfold from_wire. destruct (split_on "." wire) as [|a [|b [|c [|]]]]; try done.
    case_decide as Hb; [done|]. destruct (from_hex a) as [sa|]; simpl; [|done].
    unfold from_utf8. destruct (utf8_valid sa) eqn:Hu; simpl; [|done].
    destruct (from_hex c) as [key|]; simpl; [|done]. case_decide as Hl; [|done]. intros [= <-]. simpl.
    apply Decidable.not_or in Hb as [Hb1 Hb2]. split_and!; [done|done|by apply not_eq_None_Some|].
    unfold text_bytes, bytes_text. by rewrite String.list_byte_of_string_of_list_byte.
Qed.
End locks.

(** ** Witnesses *)

Section witnesses.
#[local] Existing Instance packed_prims.
#[local] Existing Instance packed_ideal.
#[local] Existing Instance packed_ports.

#[local] Instance packed_argon : IdealArgon.
Proof.
  split; [done|]. intros m t p pass pass' salt d E E'. cbn in E, E'. rewrite <- E' in E.
  injection E as E. apply (inj pack) in E. by injection E.
Qed.

Lemma vault_locks_exact_witness :
  open_with_passphrase "a.vault" "wrong horse" "ada" (run_calls demo_vault.1 demo_calls demo_vault.2).2 =
    (Err VLocked, (run_calls demo_vault.1 demo_calls demo_vault.2).2).
Proof.
  exact (proj1 (vault_locks_exact "a.vault" "correct horse" "ada" demo_draws demo_world demo_vault.1 demo_vault.2 demo_calls
    _ _ demo_draws_ok (not_elem_of_empty _) demo_created demo_calls_ok (NoDup_singleton _) (surjective_pairing _))
    "wrong horse" "ada" ltac:(by eexists)).
Defined.
End witnesses.
