(* ===== verification/VaultSessions.v ===== *)
(** * Open vaults and waiting sign-ins

    [SessionVaults] of [src/packages/tddy-credentials/src/sessions.rs] with its two
    parts: the open handles ([sessions/open.rs]) and the credentials of sign-ins that
    wait for a vault to open ([sessions/pending.rs]). Each operation runs under the
    locks the source takes; the one that derives a key before it takes them
    ([unlock]) is the composition of its two parts. A call reads the clock once, and
    what the generator draws for it is an argument. A handle carries a number in place
    of the address [Arc::ptr_eq] compares. *)

From Stdlib Require Import Ascii Strings.Byte.
From S2P Require Import Prelude Text Graph Framing Utf8 Json Credentials Vault.

Local Open Scope io_scope.

(** ** Waiting sign-ins *)

(** [pd_record] is [None] for a sign-in that carries no credential. *)
Record Pending := mkPending { pd_record : option CredentialRecord; pd_since : N }.

Record PendingSignIns := mkPendingSignIns {
  ps_waiting : gmap string (list Pending);
  ps_expired : gset string;
  ps_lifetime : option N;
}.

Definition still_waits (lifetime now : N) (p : Pending) : bool := (now - pd_since p <? lifetime)%N.

(** What [retain] keeps of a subject's list: nothing when none of it still waits. *)
Definition unexpired (lifetime now : N) (ps : list Pending) : option (list Pending) :=
  let kept := filter (fun p => still_waits lifetime now p = true) ps in
  if decide (kept = []) then None else Some kept.

Definition drop_expired (now : N) (s : PendingSignIns) : nat * PendingSignIns :=
  match ps_lifetime s with
  | None => (0, s)
  | Some lifetime =>
      let gone ps := filter (fun p => still_waits lifetime now p = false) ps in
      let late := filter (fun kv => gone kv.2 <> []) (map_to_list (ps_waiting s)) in
      (sum_list ((fun kv => length (gone kv.2)) <$> late),
       mkPendingSignIns (omap (unexpired lifetime now) (ps_waiting s))
         (list_to_set (fst <$> late) ∪ ps_expired s) (Some lifetime))
  end.

Definition waiting_for (subject : string) (s : PendingSignIns) : list Pending := default [] (ps_waiting s !! subject).

Definition pending_holds (subject : string) (now : N) (s : PendingSignIns) : bool * PendingSignIns :=
  let s := (drop_expired now s).2 in
  (bool_decide (waiting_for subject s <> []), s).

Definition expired_unused (subject : string) (s : PendingSignIns) : bool := bool_decide (subject ∈ ps_expired s).

Definition pending_discard (subject : string) (s : PendingSignIns) : PendingSignIns :=
  mkPendingSignIns (delete subject (ps_waiting s)) (ps_expired s ∖ {[subject]}) (ps_lifetime s).

Definition pending_key (record : option CredentialRecord) : option RecordKey :=
  (fun r => record_key_of (EntryRecord r)) <$> record.

Definition pending_hold (subject : string) (record : option CredentialRecord) (now : N) (s : PendingSignIns)
    : PendingSignIns :=
  let s := (drop_expired now s).2 in
  let records := filter (fun held => pending_key (pd_record held) <> pending_key record) (waiting_for subject s) in
  mkPendingSignIns (<[subject := records ++ [mkPending record now]]> (ps_waiting s)) (ps_expired s ∖ {[subject]})
    (ps_lifetime s).

Definition pending_take (subject : string) (now : N) (s : PendingSignIns) : list Pending * PendingSignIns :=
  let s := (drop_expired now s).2 in
  (waiting_for subject s, mkPendingSignIns (delete subject (ps_waiting s)) (ps_expired s) (ps_lifetime s)).

Definition pending_restore (subject : string) (unsealed : list Pending) (s : PendingSignIns) : PendingSignIns :=
  mkPendingSignIns (<[subject := waiting_for subject s ++ unsealed]> (ps_waiting s)) (ps_expired s) (ps_lifetime s).

(** ** Open handles *)

Record OpenVault := mkOpenVault { ov_vault : SessionVault; ov_arc : nat; ov_used : N }.

Record OpenVaults := mkOpenVaults {
  os_handles : gmap string OpenVault;
  os_idle_lifetime : option N;
  os_next : nat;
}.

Definition still_in_use (idle_lifetime : option N) (now : N) (o : OpenVault) : bool :=
  match idle_lifetime with
  | None => true
  | Some lifetime => (now - ov_used o <? lifetime)%N
  end.

Definition with_handles (h : gmap string OpenVault) (s : OpenVaults) : OpenVaults :=
  mkOpenVaults h (os_idle_lifetime s) (os_next s).

Definition lookup_open (subject : string) (is_a_use : bool) (now : N) (s : OpenVaults)
    : option (SessionVault * nat) * OpenVaults :=
  match os_handles s !! subject with
  | None => (None, s)
  | Some o =>
      if negb (still_in_use (os_idle_lifetime s) now o) then (None, with_handles (delete subject (os_handles s)) s)
      else
        (Some (ov_vault o, ov_arc o),
         if is_a_use then with_handles (<[subject := mkOpenVault (ov_vault o) (ov_arc o) now]> (os_handles s)) s else s)
  end.

Definition open_insert (subject : string) (vault : SessionVault) (now : N) (s : OpenVaults) : OpenVaults :=
  mkOpenVaults (<[subject := mkOpenVault vault (os_next s) now]> (os_handles s)) (os_idle_lifetime s) (S (os_next s)).

Definition open_remove (subject : string) (s : OpenVaults) : OpenVaults := with_handles (delete subject (os_handles s)) s.

(** Drop the handle if it is still the one numbered [arc]. *)
Definition open_close (subject : string) (arc : nat) (s : OpenVaults) : OpenVaults :=
  match os_handles s !! subject with
  | Some o => if decide (ov_arc o = arc) then open_remove subject s else s
  | None => s
  end.

Definition open_evict_idle (now : N) (s : OpenVaults) : nat * OpenVaults :=
  let kept := filter (fun kv => still_in_use (os_idle_lifetime s) now kv.2 = true) (os_handles s) in
  (size (os_handles s) - size kept, with_handles kept s).

(** ** The registry *)

Inductive VaultState := StateOpen | StateLocked | StateUninitialized.

Record Retained := mkRetained { rt_state : VaultState; rt_unlock_key : option UnlockKey }.

Record ResetDone := mkReset { rd_set_aside : option string; rd_unlock_key : UnlockKey }.

Record Rotation := mkRotation { ro_retired : UnlockKey; ro_successor : UnlockKey; ro_at : N }.

Record SessionVaults := mkSessionVaults {
  ss_open : OpenVaults;
  ss_pending : PendingSignIns;
  ss_rotations : gmap (string * string) Rotation;
  ss_rotation_grace : N;
  ss_disk : VaultWorld;
}.

Definition on_open (f : OpenVaults -> OpenVaults) (s : SessionVaults) : SessionVaults :=
  mkSessionVaults (f (ss_open s)) (ss_pending s) (ss_rotations s) (ss_rotation_grace s) (ss_disk s).
Definition on_pending (f : PendingSignIns -> PendingSignIns) (s : SessionVaults) : SessionVaults :=
  mkSessionVaults (ss_open s) (f (ss_pending s)) (ss_rotations s) (ss_rotation_grace s) (ss_disk s).
Definition on_rotations (f : gmap (string * string) Rotation -> gmap (string * string) Rotation) (s : SessionVaults)
    : SessionVaults :=
  mkSessionVaults (ss_open s) (ss_pending s) (f (ss_rotations s)) (ss_rotation_grace s) (ss_disk s).
Definition set_disk (w : VaultWorld) (s : SessionVaults) : SessionVaults :=
  mkSessionVaults (ss_open s) (ss_pending s) (ss_rotations s) (ss_rotation_grace s) w.

Definition update (f : SessionVaults -> SessionVaults) : io SessionVaults VaultError () := fun s => (Ok (), f s).

(** A call into the vault's file. *)
Definition disk {A} (m : io VaultWorld VaultError A) : io SessionVaults VaultError A := fun s =>
  let '(r, w) := m (ss_disk s) in (r, set_disk w s).

Definition SessionVaults_new (disk : VaultWorld) (idle_lifetime pending_lifetime : option N) (grace : N) : SessionVaults :=
  mkSessionVaults (mkOpenVaults ∅ idle_lifetime 0) (mkPendingSignIns ∅ ∅ pending_lifetime) ∅ grace disk.

(** What the generator draws for a call: the nonce of the [n]-th credential it seals, an
    unlock slot, and a new vault. *)
Record SessionDraws := mkSessionDraws {
  dr_nonce : nat -> bytes;
  dr_slot_id : bytes;
  dr_slot_key : bytes;
  dr_slot_nonce : bytes;
  dr_create : CreateDraws;
}.

Section sessions.
Context `{SealPrims, VaultPorts}.

(** The handle unless its file was replaced underneath it, in which case it is closed. *)
Definition fresh_handle (subject : string) (found : option (SessionVault * nat)) (s : SessionVaults)
    : option (SessionVault * nat) * SessionVaults :=
  match found with
  | None => (None, s)
  | Some (vault, arc) =>
      if is_stale vault (ss_disk s) then (None, on_open (open_close subject arc) s) else (Some (vault, arc), s)
  end.

Definition find_open (is_a_use : bool) (subject : string) (now : N) (s : SessionVaults)
    : option (SessionVault * nat) * SessionVaults :=
  let '(found, o) := lookup_open subject is_a_use now (ss_open s) in
  fresh_handle subject found (on_open (fun _ => o) s).

Definition get_open : string -> N -> SessionVaults -> option (SessionVault * nat) * SessionVaults := find_open false.
Definition use_open : string -> N -> SessionVaults -> option (SessionVault * nat) * SessionVaults := find_open true.

Definition vault_state (subject : string) (now : N) (s : SessionVaults) : VaultState * SessionVaults :=
  let '(found, s) := get_open subject now s in
  (if decide (is_Some found) then StateOpen
   else if exists_file (path_in subject) (ss_disk s) then StateLocked else StateUninitialized, s).

Definition register (subject : string) (vault : SessionVault) (now : N) : SessionVaults -> SessionVaults :=
  on_open (open_insert subject vault now).

(** The loop of [seal_pending] over what was taken; [n] credentials are sealed already. *)
Fixpoint seal_waiting (subject : string) (vault : SessionVault) (nonce : nat -> bytes) (n : nat) (waiting : list Pending)
    : io SessionVaults VaultError () := fun s =>
  match waiting with
  | [] => (Ok (), s)
  | p :: rest =>
      match pd_record p with
      | None => seal_waiting subject vault nonce n rest s
      | Some record =>
          match disk (put vault (nonce n) record) s with
          | (Ok _, s) => seal_waiting subject vault nonce (S n) rest s
          | (Err failed, s) => (Err failed, on_pending (pending_restore subject (p :: rest)) s)
          | (Panic, s) => (Panic, s)
          end
      end
  end.

Definition seal_pending (subject : string) (vault : SessionVault) (d : SessionDraws) (now : N)
    : io SessionVaults VaultError () := fun s =>
  let '(waiting, p) := pending_take subject now (ss_pending s) in
  seal_waiting subject vault (dr_nonce d) 0 waiting (on_pending (fun _ => p) s).

Definition add_slot (vault : SessionVault) (d : SessionDraws) : io SessionVaults VaultError UnlockKey :=
  disk (add_unlock_slot vault (dr_slot_id d) (dr_slot_key d) (dr_slot_nonce d)).

Definition admit_vault (subject : string) (vault : SessionVault) (d : SessionDraws) (now : N)
    : io SessionVaults VaultError UnlockKey :=
  seal_pending subject vault d now;;
  let! unlock_key := add_slot vault d in
  update (register subject vault now);;
  io_ret unlock_key.

(** What a sign-in does once the vault is found closed. *)
Definition hold_sign_in (subject : string) (record : option CredentialRecord) (now : N) (s : SessionVaults)
    : res VaultError Retained * SessionVaults :=
  let s := on_pending (pending_hold subject record now) s in
  let '(state, s) := vault_state subject now s in
  (Ok (mkRetained state None), s).

(** The two sign-ins differ in what they seal in an open vault. *)
Definition sign_in (subject : string) (record : option CredentialRecord) (now : N)
    (in_open : SessionVault -> io SessionVaults VaultError UnlockKey) : io SessionVaults VaultError Retained := fun s =>
  let '(found, s) := use_open subject now s in
  match found with
  | None => hold_sign_in subject record now s
  | Some (vault, arc) =>
      match in_open vault s with
      | (Ok unlock_key, s) => (Ok (mkRetained StateOpen (Some unlock_key)), s)
      | (Err VLocked, s) => hold_sign_in subject record now (on_open (open_close subject arc) s)
      | (Err failed, s) => (Err failed, s)
      | (Panic, s) => (Panic, s)
      end
  end.

Definition retain (subject : string) (record : CredentialRecord) (d : SessionDraws) (now : N)
    : io SessionVaults VaultError Retained :=
  sign_in subject (Some record) now (fun vault => disk (put vault (dr_nonce d 0) record);; add_slot vault d).

Definition sign_in_without_credential (subject : string) (d : SessionDraws) (now : N) : io SessionVaults VaultError Retained :=
  sign_in subject None now (fun vault => add_slot vault d).

Definition discard_pending (subject : string) : SessionVaults -> SessionVaults := on_pending (pending_discard subject).

Definition expire_pending (now : N) (s : SessionVaults) : nat * SessionVaults :=
  let '(dropped, p) := drop_expired now (ss_pending s) in (dropped, on_pending (fun _ => p) s).

Definition evict_idle (now : N) (s : SessionVaults) : nat * SessionVaults :=
  let '(dropped, o) := open_evict_idle now (ss_open s) in (dropped, on_open (fun _ => o) s).

Definition unlock (subject passphrase : string) (d : SessionDraws) (now : N) : io SessionVaults VaultError UnlockKey :=
  let! vault := disk (open_with_passphrase (path_in subject) passphrase subject) in
  admit_vault subject vault d now.

Definition require_a_fresh_login (subject : string) (now : N) : io SessionVaults VaultError () := fun s =>
  let '(waits, p) := pending_holds subject now (ss_pending s) in
  (if waits then Ok () else Err VNoFreshLogin, on_pending (fun _ => p) s).

Definition create (subject passphrase : string) (d : SessionDraws) (now : N) : io SessionVaults VaultError UnlockKey :=
  require_a_fresh_login subject now;;
  let! vault := disk (store_create (path_in subject) passphrase subject (dr_create d)) in
  admit_vault subject vault d now.

(** [wall] is the time of day the old vault is set aside under. *)
Definition reset (subject passphrase : string) (wall : option N) (d : SessionDraws) (now : N)
    : io SessionVaults VaultError ResetDone := fun s =>
  let '(found, s) := get_open subject now s in
  match found with
  | Some _ => (Err VAlreadyOpen, s)
  | None =>
      (require_a_fresh_login subject now;;
       let! fresh := disk (store_reset (path_in subject) passphrase subject wall (dr_create d)) in
       let! unlock_key := admit_vault subject fresh.1 d now in
       update (on_rotations (filter (fun kv => kv.1.1 <> subject)));;
       io_ret (mkReset fresh.2 unlock_key)) s
  end.

Definition in_grace (s : SessionVaults) (now : N) (r : Rotation) : bool := (now - ro_at r <? ss_rotation_grace s)%N.

Definition reopen (u : UnlockKey) (d : SessionDraws) (now : N) : io SessionVaults VaultError UnlockKey := fun s =>
  let subject := uk_subject u in
  let slot := (subject, uk_slot_id u) in
  match disk (open_with_unlock_key (path_in subject) u) s with
  | (Ok proven, s) =>
      (let! successor := disk (rotate_unlock_slot proven u (dr_slot_key d) (dr_slot_nonce d)) in
       update (fun s => on_rotations (fun rotations =>
         <[slot := mkRotation u successor now]> (filter (fun kv => in_grace s now kv.2 = true) rotations)) s);;
       update (register subject proven now);;
       io_ret successor) s
  | (Err VLocked, s) =>
      match ss_rotations s !! slot with
      | Some r =>
          if in_grace s now r && bool_decide (ro_retired r = u) then
            let '(found, s) := use_open subject now s in
            match found with
            | Some _ => (Ok (ro_successor r), s)
            | None =>
                (let! vault := disk (open_with_unlock_key (path_in subject) (ro_successor r)) in
                 update (register subject vault now);;
                 io_ret (ro_successor r)) s
            end
          else (Err VLocked, s)
      | None => (Err VLocked, s)
      end
  | (Err failed, s) => (Err failed, s)
  | (Panic, s) => (Panic, s)
  end.

Definition forget (u : UnlockKey) : io SessionVaults VaultError () :=
  let subject := uk_subject u in
  let! vault := disk (open_with_unlock_key (path_in subject) u) in
  disk (remove_unlock_slot vault (uk_slot_id u));;
  update (on_rotations (delete (subject, uk_slot_id u)));;
  let! ids := disk (unlock_slot_ids vault) in
  if decide (ids = []) then update (on_open (open_remove subject)) else io_ret ().
End sessions.
