(* ===== verification/VaultSessionsSpec.v ===== *)
(** * What the registry of open vaults guarantees

    Over any sequence of calls on [VaultSessions.SessionVaults], with the files changing
    in between as they like: what waits in memory comes from a sign-in that nothing has
    used or discarded since, so choosing a passphrase takes such a sign-in; opening a
    vault loses none of what waits; and two refreshes presenting one key end with one
    key. *)

From Stdlib Require Import Ascii Strings.Byte.
From S2P Require Import Prelude Text Graph Framing Utf8 Json Credentials Vault VaultSpec VaultSessions.

Local Open Scope io_scope.

(** ** Waiting sign-ins *)

Definition waits (s : SessionVaults) (subject : string) : list Pending := waiting_for subject (ss_pending s).

(** Whether a sign-in of [since] is still within the lifetime. *)
Definition within (lifetime : option N) (since now : N) : Prop :=
  match lifetime with Some l => (now - since < l)%N | None => True end.

#[global] Instance within_dec l since now : Decision (within l since now).
Proof. destruct l; simpl; apply _. Defined.

Lemma drop_expired_lifetime now p : ps_lifetime (drop_expired now p).2 = ps_lifetime p.
Proof. unfold drop_expired. by destruct (ps_lifetime p) eqn:E. Qed.

Lemma drop_expired_waiting now p subject :
  waiting_for subject (drop_expired now p).2 =
    filter (fun x => within (ps_lifetime p) (pd_since x) now) (waiting_for subject p).
Proof.
  unfold drop_expired, waiting_for. destruct (ps_lifetime p) as [l|] eqn:E; simpl.
  - rewrite lookup_omap. destruct (ps_waiting p !! subject) as [ps|]; simpl; [|done]. unfold unexpired.
    assert (filter (fun x => still_waits l now x = true) ps = filter (fun x => (now - pd_since x < l)%N) ps) as <-.
    { apply list_filter_iff. intros x. unfold still_waits. by rewrite N.ltb_lt. }
    by case_decide as Hn; simpl; rewrite ?Hn.
  - induction (default [] (ps_waiting p !! subject)) as [|x l IH]; [done|]. rewrite filter_cons, decide_True by done. by f_equal.
Qed.

Lemma hold_waiting subject record now p other :
  waiting_for other (pending_hold subject record now p) =
    (if decide (other = subject) then
       filter (fun h => pending_key (pd_record h) <> pending_key record) (waiting_for other (drop_expired now p).2) ++ [mkPending record now]
     else waiting_for other (drop_expired now p).2).
Proof.
  unfold pending_hold, waiting_for at 1. simpl. case_decide as E; [subst; by rewrite lookup_insert_eq|].
  by rewrite lookup_insert_ne.
Qed.

Lemma discard_waiting subject p other :
  waiting_for other (pending_discard subject p) = if decide (other = subject) then [] else waiting_for other p.
Proof.
  unfold pending_discard, waiting_for. simpl. case_decide as E; [subst; by rewrite lookup_delete_eq|].
  by rewrite lookup_delete_ne.
Qed.

Lemma take_spec subject now p :
  (pending_take subject now p).1 = waiting_for subject (drop_expired now p).2 /\
  ps_lifetime (pending_take subject now p).2 = ps_lifetime p /\
  forall other, waiting_for other (pending_take subject now p).2 =
    if decide (other = subject) then [] else waiting_for other (drop_expired now p).2.
Proof.
  split_and!; [done|apply drop_expired_lifetime|]. intros other. unfold pending_take, waiting_for. simpl.
  case_decide as E; [subst; by rewrite lookup_delete_eq|]. by rewrite lookup_delete_ne.
Qed.

Lemma restore_waiting subject l p other :
  waiting_for other (pending_restore subject l p) =
    if decide (other = subject) then waiting_for other p ++ l else waiting_for other p.
Proof.
  unfold pending_restore, waiting_for at 1. simpl. case_decide as E; [subst; by rewrite lookup_insert_eq|].
  by rewrite lookup_insert_ne.
Qed.

Section spec.
Context `{SealPrims, VaultPorts}.

(** ** What a call leaves waiting *)

(** [s'] differs from [s] in nothing that waits. *)
Definition same_pending (s s' : SessionVaults) : Prop := ss_pending s' = ss_pending s.

(** [s'] has dropped some of what waited in [s]. *)
Record shrunk (s s' : SessionVaults) : Prop := {
  sh_lifetime : ps_lifetime (ss_pending s') = ps_lifetime (ss_pending s);
  sh_waits : forall subject, waits s' subject `sublist_of` waits s subject;
}.

#[export] Instance shrunk_preorder : PreOrder shrunk.
Proof.
  split; [by split|]. intros a b c [L1 W1] [L2 W2]. split; [congruence|]. intros subject. by transitivity (waits b subject).
Qed.

Lemma same_shrunk s s' : same_pending s s' -> shrunk s s'.
Proof. intros E. unfold same_pending in E. split; unfold waits; by rewrite E. Qed.

Lemma disk_frame {A} (m : io VaultWorld VaultError A) s r s' :
  disk m s = (r, s') -> s' = set_disk (m (ss_disk s)).2 s /\ r = (m (ss_disk s)).1.
Proof. unfold disk. destruct (m (ss_disk s)) as [r1 w]. by intros [= <- <-]. Qed.

Lemma find_open_frame b subject now s :
  ss_pending (find_open b subject now s).2 = ss_pending s /\ ss_disk (find_open b subject now s).2 = ss_disk s /\
  ss_rotations (find_open b subject now s).2 = ss_rotations s /\
  ss_rotation_grace (find_open b subject now s).2 = ss_rotation_grace s.
Proof.
  unfold find_open. destruct (lookup_open _ _ _ _) as [[[v arc]|] o]; simpl; [|done]. by destruct (is_stale _ _).
Qed.

Lemma vault_state_pending subject now s : same_pending s (vault_state subject now s).2.
Proof.
  unfold same_pending, vault_state. pose proof (find_open_frame false subject now s) as (E & _).
  unfold get_open. by destruct (find_open false subject now s).
Qed.

Lemma expired_shrunk now s p :
  ps_lifetime p = ps_lifetime (ss_pending s) ->
  (forall o, waiting_for o p `sublist_of` waiting_for o (drop_expired now (ss_pending s)).2) -> shrunk s (on_pending (fun _ => p) s).
Proof.
  intros El Hp. split; [done|]. intros o. unfold waits. simpl. etransitivity; [apply Hp|].
  rewrite drop_expired_waiting. apply sublist_filter.
Qed.

(** Sealing keeps, of what was taken, what it did not seal. *)
Lemma seal_waiting_spec subject vault nonce n l s r s' :
  seal_waiting subject vault nonce n l s = (r, s') ->
  ss_open s' = ss_open s /\ ss_rotations s' = ss_rotations s /\
  ps_lifetime (ss_pending s') = ps_lifetime (ss_pending s) /\
  exists kept, kept `suffix_of` l /\ (forall o, waits s' o = if decide (o = subject) then waits s o ++ kept else waits s o) /\
    (r = Ok () -> kept = []).
Proof.
  revert n s. induction l as [|p l IH]; intros n s; simpl.
  { intros [= <- <-]. split_and!; [done..|]. exists []. split_and!; [done| |done]. intros o. case_decide; [by rewrite app_nil_r|done]. }
  destruct (pd_record p) as [record|].
  2: { intros Hs. destruct (IH _ _ Hs) as (? & ? & ? & kept & Hk & ? & ?). split_and!; [done..|].
       exists kept. split_and!; [by apply suffix_cons_r|done|done]. }
  destruct (disk (put vault (nonce n) record) s) as [r1 s1] eqn:Ed. apply disk_frame in Ed as [-> _].
  destruct r1 as [[]|e|].
  - intros Hs. destruct (IH _ _ Hs) as (? & ? & ? & kept & Hk & ? & ?). split_and!; [done..|].
    exists kept. split_and!; [by apply suffix_cons_r|done|done].
  - intros [= <- <-]. split_and!; [done..|]. exists (p :: l). split_and!; [done| |done].
    intros o. unfold waits. simpl. apply restore_waiting.
  - intros [= <- <-]. split_and!; [done..|]. exists []. split_and!; [apply suffix_nil| |done].
    intros o. unfold waits. simpl. case_decide; [by rewrite app_nil_r|done].
Qed.

Lemma seal_pending_shrunk subject vault d now s r s' :
  seal_pending subject vault d now s = (r, s') -> shrunk s s' /\ (r = Ok () -> waits s' subject = []).
Proof.
  unfold seal_pending. pose proof (take_spec subject now (ss_pending s)) as (Et & Hl & Hw).
  destruct (pending_take subject now (ss_pending s)) as [l p]. simpl in *. intros Hs.
  apply seal_waiting_spec in Hs as (_ & _ & Hl' & kept & Hk & Hw' & Hok). split.
  - split; [by rewrite Hl'|]. intros o. rewrite Hw'. unfold waits. simpl. rewrite !Hw.
    assert (forall o, waiting_for o (drop_expired now (ss_pending s)).2 `sublist_of` waiting_for o (ss_pending s)) as Hsub.
    { intros o'. rewrite drop_expired_waiting. apply sublist_filter. }
    case_decide; [|apply Hsub]. subst o. rewrite app_nil_l. etransitivity; [|apply Hsub]. rewrite <- Et.
    destruct Hk as [k ->]. by apply sublist_inserts_l.
  - intros ->. rewrite Hw', decide_True, Hok by done. unfold waits. simpl. rewrite Hw, decide_True by done. done.
Qed.

Lemma admit_shrunk subject vault d now s r s' :
  admit_vault subject vault d now s = (r, s') -> shrunk s s' /\ forall k, r = Ok k -> waits s' subject = [].
Proof.
  unfold admit_vault, io_bind, add_slot, update, io_ret. destruct (seal_pending subject vault d now s) as [r1 s1] eqn:Es.
  apply seal_pending_shrunk in Es as [Hsh Hnil]. destruct r1 as [[]|e|]; [|by intros [= <- <-]..].
  destruct (disk _ s1) as [r2 s2] eqn:Ed. apply disk_frame in Ed as [-> _].
  specialize (Hnil eq_refl).
  destruct r2; intros [= <- <-]; (split; [etransitivity; [exact Hsh|by apply same_shrunk]|intros k _; exact Hnil]).
Qed.

(** ** Calls *)

Inductive sessions_call :=
| CallRetain (subject : string) (record : CredentialRecord) (d : SessionDraws)
| CallSignIn (subject : string) (d : SessionDraws)
| CallDiscard (subject : string)
| CallExpire
| CallEvict
| CallState (subject : string)
| CallUse (subject : string)
| CallUnlock (subject passphrase : string) (d : SessionDraws)
| CallCreate (subject passphrase : string) (d : SessionDraws)
| CallReset (subject passphrase : string) (wall : option N) (d : SessionDraws)
| CallReopen (u : UnlockKey) (d : SessionDraws)
| CallForget (u : UnlockKey)
| Elsewhere (files : VaultWorld).

(** [Elsewhere] is whatever else changes the files. *)
Definition run_session (c : sessions_call) (now : N) : io SessionVaults VaultError () :=
  match c with
  | CallRetain subject record d => discard (retain subject record d now)
  | CallSignIn subject d => discard (sign_in_without_credential subject d now)
  | CallDiscard subject => update (discard_pending subject)
  | CallExpire => update (fun s => (expire_pending now s).2)
  | CallEvict => update (fun s => (evict_idle now s).2)
  | CallState subject => update (fun s => (vault_state subject now s).2)
  | CallUse subject => update (fun s => (use_open subject now s).2)
  | CallUnlock subject passphrase d => discard (unlock subject passphrase d now)
  | CallCreate subject passphrase d => discard (create subject passphrase d now)
  | CallReset subject passphrase wall d => discard (reset subject passphrase wall d now)
  | CallReopen u d => discard (reopen u d now)
  | CallForget u => forget u
  | Elsewhere files => update (set_disk files)
  end.

Definition signs_in (c : sessions_call) : option (string * option CredentialRecord) :=
  match c with
  | CallRetain subject record _ => Some (subject, Some record)
  | CallSignIn subject _ => Some (subject, None)
  | _ => None
  end.

(** The subject whose sign-ins a call that succeeds uses up or discards. *)
Definition uses_up (c : sessions_call) : option string :=
  match c with
  | CallDiscard subject | CallUnlock subject _ _ | CallCreate subject _ _ | CallReset subject _ _ _ => Some subject
  | _ => None
  end.

Lemma discard_frame {A} (m : io SessionVaults VaultError A) s r s' :
  discard m s = (r, s') -> exists r', m s = (r', s') /\ (r = Ok () -> exists a, r' = Ok a).
Proof.
  unfold discard, io_bind, io_ret. destruct (m s) as [[a|e|] s1]; intros [= <- <-]; eexists; split; try done. eauto.
Qed.

(** A sign-in drops what expired, and holds itself when it finds the vault closed. *)
Definition held_by (subject : string) (record : option CredentialRecord) (now : N) (s s' : SessionVaults) : Prop :=
  same_pending s s' \/ ss_pending s' = pending_hold subject record now (ss_pending s).

Lemma sign_in_held subject record now f s r s' :
  (forall v s r s', f v s = (r, s') -> same_pending s s') ->
  sign_in subject record now f s = (r, s') -> held_by subject record now s s'.
Proof.
  intros Hf. unfold sign_in, hold_sign_in, use_open. pose proof (find_open_frame true subject now s) as (Ep & _).
  destruct (find_open true subject now s) as [found s1]. simpl in Ep.
  assert (forall s2 r s', same_pending s s2 ->
    (let '(state, s3) := vault_state subject now (on_pending (pending_hold subject record now) s2) in
      (@Ok VaultError _ (mkRetained state None), s3)) = (r, s') -> held_by subject record now s s') as Hhold.
  { intros s2 r2 s2' E. pose proof (vault_state_pending subject now (on_pending (pending_hold subject record now) s2)) as Hv.
    unfold same_pending in Hv, E. destruct (vault_state _ _ _) as [state s3]. simpl in Hv. intros [= _ <-]. right. by rewrite Hv, E. }
  destruct found as [[v arc]|]; [|by apply Hhold].
  destruct (f v s1) as [r2 s2] eqn:Ef. apply Hf in Ef. assert (same_pending s s2) as E2 by (unfold same_pending in *; congruence).
  destruct r2 as [k|e|]; [intros [= _ <-]; by left| |intros [= _ <-]; by left].
  destruct e; try (intros [= _ <-]; by left). by apply Hhold.
Qed.

Lemma add_slot_pending vault d s r s' : add_slot vault d s = (r, s') -> same_pending s s'.
Proof. intros E. by apply disk_frame in E as [-> _]. Qed.

Lemma retain_pending vault nonce record d s r s' :
  (disk (put vault nonce record);; add_slot vault d) s = (r, s') -> same_pending s s'.
Proof.
  unfold io_bind. destruct (disk _ s) as [r1 s1] eqn:E. apply disk_frame in E as [-> _].
  destruct r1; [|by intros [= _ <-]..]. intros E%add_slot_pending. exact E.
Qed.

Lemma require_spec subject now s :
  require_a_fresh_login subject now s =
    ((if decide (waiting_for subject (drop_expired now (ss_pending s)).2 = []) then Err VNoFreshLogin else Ok ()),
     on_pending (fun p => (drop_expired now p).2) s).
Proof.
  unfold require_a_fresh_login, pending_holds. simpl. case_decide as E; [by rewrite bool_decide_eq_false_2 by tauto|].
  by rewrite bool_decide_eq_true_2.
Qed.

Lemma require_shrunk subject now s r s' : require_a_fresh_login subject now s = (r, s') -> shrunk s s'.
Proof.
  rewrite require_spec. intros [= _ <-]. apply (expired_shrunk now s); [apply drop_expired_lifetime|]. done.
Qed.

Lemma create_shrunk subject passphrase d now s r s' :
  create subject passphrase d now s = (r, s') -> shrunk s s' /\ forall k, r = Ok k -> waits s' subject = [].
Proof.
  unfold create, io_bind. destruct (require_a_fresh_login subject now s) as [r1 s1] eqn:Er. apply require_shrunk in Er.
  destruct r1 as [[]|e|]; [|by intros [= <- <-]..]. destruct (disk _ s1) as [r2 s2] eqn:Ed. apply disk_frame in Ed as [-> _].
  assert (shrunk s (set_disk (store_create (path_in subject) passphrase subject (dr_create d) (ss_disk s1)).2 s1)) as Hs
    by (etransitivity; [exact Er|by apply same_shrunk]).
  destruct r2 as [v|e|]; [|by intros [= <- <-]..]. intros [Ha Hn]%admit_shrunk. split; [|done]. by etransitivity.
Qed.

Lemma unlock_shrunk subject passphrase d now s r s' :
  unlock subject passphrase d now s = (r, s') -> shrunk s s' /\ forall k, r = Ok k -> waits s' subject = [].
Proof.
  unfold unlock, io_bind. destruct (disk _ s) as [r2 s2] eqn:Ed. apply disk_frame in Ed as [-> _].
  destruct r2 as [v|e|]; [|by intros [= <- <-]..]. intros [Ha Hn]%admit_shrunk. split; [|done].
  etransitivity; [|exact Ha]. by apply same_shrunk.
Qed.

Lemma reset_shrunk subject passphrase wall d now s r s' :
  reset subject passphrase wall d now s = (r, s') -> shrunk s s' /\ forall k, r = Ok k -> waits s' subject = [].
Proof.
  unfold reset, io_bind, update, io_ret, get_open. pose proof (find_open_frame false subject now s) as (Ep & _).
  destruct (find_open false subject now s) as [found s1]. simpl in Ep. assert (shrunk s s1) as H1 by (by apply same_shrunk).
  destruct found; [by intros [= <- <-]|].
  destruct (require_a_fresh_login subject now s1) as [r1 s2] eqn:Er. apply require_shrunk in Er.
  assert (shrunk s s2) as H2 by (by etransitivity).
  destruct r1 as [[]|e|]; [|by intros [= <- <-]..]. destruct (disk _ s2) as [r3 s3] eqn:Ed. apply disk_frame in Ed as [-> _].
  match goal with |- context [set_disk ?w s2] => set (s3 := set_disk w s2); assert (shrunk s s3) as H3
    by (etransitivity; [exact H2|by apply same_shrunk]) end.
  destruct r3 as [v|e|]; [|by intros [= <- <-]..].
  destruct (admit_vault subject v.1 d now s3) as [r4 s4] eqn:Ea. apply admit_shrunk in Ea as [Ha Hn].
  assert (shrunk s s4) as H4 by (by etransitivity). destruct r4 as [k|e|]; [|by intros [= <- <-]..].
  intros [= <- <-]. split; [etransitivity; [exact H4|by apply same_shrunk]|]. intros _ _. exact (Hn k eq_refl).
Qed.

Lemma reopen_pending u d now s r s' : reopen u d now s = (r, s') -> same_pending s s'.
Proof.
  unfold reopen, io_bind, update, io_ret. destruct (disk _ s) as [r1 s1] eqn:Ed. apply disk_frame in Ed as [-> _].
  destruct r1 as [v|e|]; [| |by intros [= _ <-]].
  - destruct (disk _ _) as [r2 s2] eqn:Ed. apply disk_frame in Ed as [-> _]. by destruct r2; intros [= _ <-].
  - destruct e; try by intros [= _ <-]. destruct (ss_rotations _ !! _) as [ro|]; [|by intros [= _ <-]].
    destruct (_ && _); [|by intros [= _ <-]]. unfold use_open.
    match goal with |- context [find_open true ?x now ?y] => pose proof (find_open_frame true x now y) as (Ep & _);
      destruct (find_open true x now y) as [found s2] end. simpl in Ep.
    destruct found; [by intros [= _ <-]|]. destruct (disk _ s2) as [r3 s3] eqn:Ed. apply disk_frame in Ed as [-> _].
    by destruct r3; intros [= _ <-].
Qed.

Lemma forget_pending u s r s' : forget u s = (r, s') -> same_pending s s'.
Proof.
  unfold forget, io_bind, update, io_ret. destruct (disk _ s) as [r1 s1] eqn:Ed. apply disk_frame in Ed as [-> _].
  destruct r1 as [v|e|]; [|by intros [= _ <-]..].
  destruct (disk _ _) as [r2 s2] eqn:Ed. apply disk_frame in Ed as [-> _]. destruct r2 as [[]|e|]; [|by intros [= _ <-]..].
  destruct (disk _ _) as [r3 s3] eqn:Ed. apply disk_frame in Ed as [-> _]. destruct r3 as [ids|e|]; [|by intros [= _ <-]..].
  case_decide; by intros [= _ <-].
Qed.

(** What a call leaves waiting. *)
Lemma run_session_pending c now s r s' :
  run_session c now s = (r, s') ->
  (shrunk s s' \/ exists subject record, signs_in c = Some (subject, record) /\ held_by subject record now s s') /\
  forall subject, uses_up c = Some subject -> r = Ok () -> waits s' subject = [].
Proof.
  assert (forall (m : SessionVaults -> SessionVaults), (forall s, shrunk s (m s)) -> update m s = (r, s') -> shrunk s s') as Hup
    by (intros m Hm [= _ <-]; apply Hm).
  destruct c as [subject record d|subject d|subject| | |subject|subject|subject p d|subject p d|subject p wall d|u d|u|files];
    simpl; intros Hr.
  1-2: apply discard_frame in Hr as (r' & Hr & _); apply sign_in_held in Hr;
    [split; [right; by eauto|done]|intros; first [eapply retain_pending; eassumption|eapply add_slot_pending; eassumption]].
  - injection Hr as <- <-. split; [left; split; [done|]|].
    + intros o. unfold waits. simpl. rewrite discard_waiting. case_decide; [apply sublist_nil_l|done].
    + intros ? [= <-] _. unfold waits. simpl. by rewrite discard_waiting, decide_True.
  - split; [left|done]. revert Hr. apply Hup. intros s0. cbv beta. unfold expire_pending.
    assert (shrunk s0 (on_pending (fun _ => (drop_expired now (ss_pending s0)).2) s0)) as Hs
      by (apply (expired_shrunk now); [apply drop_expired_lifetime|done]).
    by destruct (drop_expired now (ss_pending s0)).
  - split; [left|done]. revert Hr. apply Hup. intros s0. by apply same_shrunk.
  - split; [left|done]. revert Hr. apply Hup. intros s0. apply same_shrunk, vault_state_pending.
  - split; [left|done]. revert Hr. apply Hup. intros s0. apply same_shrunk. apply find_open_frame.
  - apply discard_frame in Hr as (r' & [Hr Hn]%unlock_shrunk & Ha). split; [by left|].
    intros ? [= <-] [k Hk]%Ha. by eapply Hn.
  - apply discard_frame in Hr as (r' & [Hr Hn]%create_shrunk & Ha). split; [by left|].
    intros ? [= <-] [k Hk]%Ha. by eapply Hn.
  - apply discard_frame in Hr as (r' & [Hr Hn]%reset_shrunk & Ha). split; [by left|].
    intros ? [= <-] [k Hk]%Ha. by eapply Hn.
  - apply discard_frame in Hr as (r' & Hr & _). split; [left|done]. by apply same_shrunk, (reopen_pending u d now s r').
  - split; [left|done]. by apply same_shrunk, (forget_pending u s r).
  - split; [left|done]. revert Hr. apply Hup. intros s0. by apply same_shrunk.
Qed.

(** ** Histories *)

Record session_event := mkEvent { ev_call : sessions_call; ev_at : N; ev_result : res VaultError () }.

Fixpoint run_sessions (cs : list (sessions_call * N)) (s : SessionVaults) : list session_event * SessionVaults :=
  match cs with
  | [] => ([], s)
  | (c, now) :: cs =>
      let '(r, s) := run_session c now s in
      let '(h, s) := run_sessions cs s in
      (mkEvent c now r :: h, s)
  end.

Definition leaves_waiting (subject : string) (e : session_event) : Prop :=
  uses_up (ev_call e) = Some subject -> ev_result e <> Ok ().

(** [subject] signed in at [t] with [record], and nothing has used that up or discarded it since. *)
Definition signed_in (h : list session_event) (subject : string) (t : N) (record : option CredentialRecord) : Prop :=
  exists before e after, h = before ++ e :: after /\ signs_in (ev_call e) = Some (subject, record) /\ ev_at e = t /\
    Forall (leaves_waiting subject) after.

(** What waits is one credential per account, each of a sign-in that still counts. *)
Record waiting_ok (lifetime : option N) (h : list session_event) (s : SessionVaults) : Prop := {
  wo_lifetime : ps_lifetime (ss_pending s) = lifetime;
  wo_distinct : forall subject, NoDup ((fun p => pending_key (pd_record p)) <$> waits s subject);
  wo_signed : forall subject p, p ∈ waits s subject -> signed_in h subject (pd_since p) (pd_record p);
}.

Lemma signed_in_snoc h subject t record e :
  signed_in h subject t record -> leaves_waiting subject e -> signed_in (h ++ [e]) subject t record.
Proof.
  intros (b & e' & a & -> & Hs & Ht & Hf) He. exists b, e', (a ++ [e]). split_and!; [by rewrite <- (assoc_L (++))|done|done|].
  apply Forall_app. split; [done|by apply Forall_singleton].
Qed.

Lemma shrunk_ok lifetime h s s' e :
  waiting_ok lifetime h s -> shrunk s s' ->
  (forall subject, uses_up (ev_call e) = Some subject -> ev_result e = Ok () -> waits s' subject = []) ->
  waiting_ok lifetime (h ++ [e]) s'.
Proof.
  intros [Hl Hd Hs] [Hl' Hw] Hu. split; [by rewrite Hl'| |].
  - intros subject. eapply sublist_NoDup; [apply Hd|]. by apply fmap_sublist.
  - intros subject p Hp. apply signed_in_snoc; [apply Hs; exact (sublist_subseteq _ _ (Hw subject) _ Hp)|].
    intros Hc Hr. rewrite (Hu _ Hc Hr) in Hp. by apply elem_of_nil in Hp.
Qed.

Lemma hold_ok lifetime h s s' c now r subject record :
  waiting_ok lifetime h s -> signs_in c = Some (subject, record) ->
  ss_pending s' = pending_hold subject record now (ss_pending s) -> waiting_ok lifetime (h ++ [mkEvent c now r]) s'.
Proof.
  intros [Hl Hd Hs] Hc Ep. assert (forall o, leaves_waiting o (mkEvent c now r)) as Hlw by (intros o; by destruct c).
  assert (forall o, waiting_for o (drop_expired now (ss_pending s)).2 `sublist_of` waits s o) as Hsub
    by (intros o; rewrite drop_expired_waiting; apply sublist_filter).
  split; [rewrite Ep, <- Hl; apply drop_expired_lifetime| |].
  - intros o. unfold waits. rewrite Ep, hold_waiting. case_decide as E.
    + rewrite fmap_app. apply NoDup_app. split_and!; [|by intros k (p & -> & [Hp _]%list_elem_of_filter)%list_elem_of_fmap ?%list_elem_of_singleton|apply NoDup_singleton].
      eapply sublist_NoDup; [apply (Hd o)|]. apply fmap_sublist. etransitivity; [apply sublist_filter|apply Hsub].
    + eapply sublist_NoDup; [apply (Hd o)|]. by apply fmap_sublist.
  - intros o p. unfold waits. rewrite Ep, hold_waiting.
    assert (p ∈ waits s o -> signed_in (h ++ [mkEvent c now r]) o (pd_since p) (pd_record p)) as Hold
      by (intros Hp; by apply signed_in_snoc; [apply Hs|]).
    case_decide as E; [|intros Hp; apply Hold; exact (sublist_subseteq _ _ (Hsub o) _ Hp)].
    intros [[_ Hp]%list_elem_of_filter| ->%list_elem_of_singleton]%elem_of_app; [apply Hold; exact (sublist_subseteq _ _ (Hsub o) _ Hp)|].
    subst o. exists h, (mkEvent c now r), []. by split_and!.
Qed.

Lemma run_sessions_ok lifetime h cs s h' s' :
  waiting_ok lifetime h s -> run_sessions cs s = (h', s') -> waiting_ok lifetime (h ++ h') s'.
Proof.
  revert h s h'. induction cs as [|[c now] cs IH]; intros h s h' Hok; simpl; [intros [= <- <-]; by rewrite app_nil_r|].
  destruct (run_session c now s) as [r s1] eqn:Er. destruct (run_sessions cs s1) as [h2 s2] eqn:Es. intros [= <- <-].
  apply run_session_pending in Er as [Hp Hu]. change (mkEvent c now r :: h2) with ([mkEvent c now r] ++ h2).
  rewrite (assoc_L (++)). apply (IH _ s1); [|done].
  destruct Hp as [Hsh|(subject & record & Hc & [Hsame|Ep])]; [by eapply shrunk_ok| |by eapply hold_ok].
  eapply shrunk_ok; [done|by apply same_shrunk|done].
Qed.

Lemma new_ok files idle lifetime grace : waiting_ok lifetime [] (SessionVaults_new files idle lifetime grace).
Proof. split; [done|intros; constructor|]. intros ? ? []%elem_of_nil. Qed.

(** What the gate of [create] and [reset] lets through. *)
Lemma gate_signed_in lifetime h s subject now :
  waiting_ok lifetime h s -> waiting_for subject (drop_expired now (ss_pending s)).2 <> [] ->
  exists t record, signed_in h subject t record /\ within lifetime t now.
Proof.
  intros [Hl _ Hs]. rewrite drop_expired_waiting, Hl.
  destruct (filter _ (waiting_for subject (ss_pending s))) as [|p l] eqn:E; [done|]. intros _.
  assert (p ∈ p :: l) as Hp by left. rewrite <- E in Hp. apply list_elem_of_filter in Hp as [Hw Hp].
  exists (pd_since p), (pd_record p). split; [by apply Hs|done].
Qed.

(** C10. After any calls, whatever happens to the files in between, choosing the passphrase of
    a vault, by creating or by resetting it, takes a sign-in of its user within the
    pending lifetime that no unlock, create or reset has used and no sign-out has
    discarded. Without one the call is refused, and no file changes. *)
Theorem passphrase_needs_sign_in files idle lifetime grace cs h s subject passphrase wall d now :
  run_sessions cs (SessionVaults_new files idle lifetime grace) = (h, s) ->
  (exists t record, signed_in h subject t record /\ within lifetime t now) \/
  (forall r s', create subject passphrase d now s = (r, s') -> r = Err VNoFreshLogin /\ ss_disk s' = ss_disk s) /\
  (forall r s', reset subject passphrase wall d now s = (r, s') ->
     (r = Err VNoFreshLogin \/ r = Err VAlreadyOpen) /\ ss_disk s' = ss_disk s).
Proof.
  intros Hrun. apply (run_sessions_ok lifetime []) in Hrun as Hok; [|apply new_ok].
  destruct (decide (waiting_for subject (drop_expired now (ss_pending s)).2 = [])) as [E|E]; [right|left; by eapply gate_signed_in].
  split; intros r s'.
  - unfold create, io_bind. rewrite require_spec, decide_True by done. by intros [= <- <-].
  - unfold reset, io_bind, get_open. pose proof (find_open_frame false subject now s) as (Ep & Ed & _).
    destruct (find_open false subject now s) as [[v|] s1]; simpl in Ep, Ed; [intros [= <- <-]; auto|].
    rewrite require_spec, Ep, decide_True by done. intros [= <- <-]. auto.
Qed.

(** ** Opening a vault *)

Context `{!IdealSeals}.

Lemma add_slot_value sv id key nonce w u w' :
  length key = 32 -> length nonce = NONCE_BYTES -> add_unlock_slot sv id key nonce w = (Ok u, w') ->
  u = mkUnlockKey (sv_subject sv) (to_hex id) key.
Proof.
  intros Hk Hn. unfold add_unlock_slot, io_bind, io_lift, io_ret. destruct (load_vault sv w) as [[f|e|] w1]; [|done..].
  destruct (new_unlock_slot sv key nonce (to_hex id)) as [fresh|e|] eqn:E; [|done..].
  destruct (write_vault_file _ _ w1) as [[|e|] w2]; [|done..]. intros [= <- _]. by apply (new_slot_for _ _ _ _ _ Hk Hn E).
Qed.

Lemma rotate_slot_value sv u key nonce w k w' :
  length key = 32 -> length nonce = NONCE_BYTES -> rotate_unlock_slot sv u key nonce w = (Ok k, w') ->
  k = mkUnlockKey (sv_subject sv) (uk_slot_id u) key.
Proof.
  intros Hk Hn. unfold rotate_unlock_slot, io_bind, io_lift, io_ret. destruct (load_vault sv w) as [[f|e|] w1]; [|done..].
  destruct (open_slot_in _ _) as [x|e|]; [|done..].
  destruct (new_unlock_slot sv key nonce (uk_slot_id u)) as [fresh|e|] eqn:E; [|done..].
  destruct (write_vault_file _ _ w1) as [[|e|] w2]; [|done..]. intros [= <- _]. by apply (new_slot_for _ _ _ _ _ Hk Hn E).
Qed.

Definition record_fits (p : Pending) : Prop :=
  forall r, pd_record p = Some r -> key_fits (record_key_of (EntryRecord r)).

(** A credential is kept: it is in the vault, or it still waits. *)
Definition kept (av : AbstractVault) (l : list Pending) (p : Pending) : Prop :=
  forall r, pd_record p = Some r -> av_slots av !! record_key_of (EntryRecord r) = Some (EntryRecord r) \/ p ∈ l.

(** The slots of the vault that no credential of the list names. *)
Definition untouched (l : list Pending) (av av' : AbstractVault) : Prop :=
  forall k, Some k ∉ (fun p => pending_key (pd_record p)) <$> l -> av_slots av' !! k = av_slots av !! k.

Lemma seal_waiting_keeps subject sv nonce n l s av r s' :
  holds sv (ss_disk s) av -> (forall i, length (nonce i) = NONCE_BYTES) -> Forall record_fits l ->
  NoDup (omap (fun p => pending_key (pd_record p)) l) ->
  seal_waiting subject sv nonce n l s = (r, s') ->
  exists av', holds sv (ss_disk s') av' /\ av_keys av' = av_keys av /\ r <> Panic /\ untouched l av av' /\
    Forall (kept av' (waits s' subject)) l.
Proof.
  intros Hh Hnonce. revert n s av Hh. induction l as [|p l IH]; intros n s av Hh Hfit Hnd; simpl.
  { intros [= <- <-]. exists av. split_and!; [done|done|done| |constructor]. by intros k. }
  apply Forall_cons in Hfit as [Hp Hfit]. destruct (pd_record p) as [record|] eqn:Er.
  2: { simpl in Hnd. rewrite Er in Hnd. simpl in Hnd.
       intros Hs. destruct (IH _ _ _ Hh Hfit Hnd Hs) as (av' & ? & ? & ? & Hu & Hk). exists av'. split_and!; try done.
       - intros k Hk'. apply Hu. contradict Hk'. rewrite fmap_cons. by right.
       - constructor; [|done]. intros r0. by rewrite Er. }
  simpl in Hnd. rewrite Er in Hnd. simpl in Hnd. apply NoDup_cons in Hnd as [Hnew Hnd].
  destruct (disk (put sv (nonce n) record) s) as [r1 s1] eqn:Ed. apply disk_frame in Ed as [-> ->].
  destruct (put sv (nonce n) record (ss_disk s)) as [r1 w1] eqn:Eput. simpl.
  destruct (put_refines sv _ _ _ _ _ _ Hh ltac:(by split; [|apply Hp]) Eput) as (av1 & Hh1 & Ha).
  set (key := record_key_of (EntryRecord record)) in *.
  assert (forall k, k <> key -> av1 = mkAbstract (<[key := EntryRecord record]> (av_slots av)) (av_keys av) \/ av1 = av ->
    av_slots av1 !! k = av_slots av !! k) as Hframe.
  { intros k Hne [-> | ->]; [|done]. simpl. by rewrite lookup_insert_ne. }
  assert (forall k, Some k ∉ (fun p => pending_key (pd_record p)) <$> p :: l -> k <> key /\
    Some k ∉ (fun p => pending_key (pd_record p)) <$> l) as Hsplit.
  { intros k Hk. rewrite fmap_cons, Er in Hk. apply not_elem_of_cons in Hk as [Hk Hk']. split; [|done].
    intros ->. by apply Hk. }
  destruct r1 as [[]|e|]; [| |done].
  - injection Ha as <-. intros Hs.
    destruct (IH (S n) (set_disk w1 s) (mkAbstract (<[key := EntryRecord record]> (av_slots av)) (av_keys av)) Hh1 Hfit Hnd Hs)
      as (av' & ? & ? & ? & Hu & Hk).
    exists av'. split_and!; try done.
    + intros k [Hne Hk']%Hsplit. rewrite Hu by done. apply Hframe; auto.
    + constructor; [|done]. intros r0. rewrite Er. intros [= <-]. left. fold key. rewrite Hu.
      * simpl. by rewrite lookup_insert_eq.
      * intros (q & Eq & Hq)%list_elem_of_fmap. apply Hnew. apply list_elem_of_omap. exists q. split; [done|]. by rewrite <- Eq.
  - intros [= <- <-]. exists av1.
    assert (av1 = mkAbstract (<[key := EntryRecord record]> (av_slots av)) (av_keys av) \/ av1 = av) as Hav
      by (simpl in Ha; destruct e; try (by right); destruct Ha as [->|[= <-]]; auto).
    split_and!; [done|by destruct Hav as [-> | ->]|done| |].
    + intros k [Hne _]%Hsplit. by apply Hframe.
    + apply Forall_forall. intros q Hq r0 _. right. unfold waits. simpl. rewrite restore_waiting, decide_True by done.
      apply elem_of_app. by right.
Qed.

Lemma NoDup_omap_fmap {A B} (f : A -> option B) l : NoDup (f <$> l) -> NoDup (omap f l).
Proof.
  induction l as [|x l IH]; intros Hnd; [constructor|]. apply NoDup_cons in Hnd as [Hx Hnd]. csimpl.
  destruct (f x) as [y|] eqn:E; [|by apply IH]. constructor; [|by apply IH].
  intros (z & Hz & Ez)%list_elem_of_omap. apply Hx, list_elem_of_fmap. exists z. by rewrite Ez.
Qed.

Record session_draws_ok (d : SessionDraws) : Prop := {
  do_nonces : forall i, length (dr_nonce d i) = NONCE_BYTES;
  do_key : length (dr_slot_key d) = 32;
  do_slot_nonce : length (dr_slot_nonce d) = NONCE_BYTES;
}.

Lemma add_slot_refines_value sv d s av r s' :
  holds sv (ss_disk s) av -> session_draws_ok d -> to_hex (dr_slot_id d) ∉ uk_slot_id <$> av_keys av ->
  add_slot sv d s = (r, s') ->
  exists av', holds sv (ss_disk s') av' /\ av_slots av' = av_slots av /\ r <> Panic /\
    forall k, r = Ok k -> k = mkUnlockKey (sv_subject sv) (to_hex (dr_slot_id d)) (dr_slot_key d) /\ k ∈ av_keys av'.
Proof.
  intros Hh [_ Hk Hn] Hid E. apply disk_frame in E as [-> ->].
  destruct (add_unlock_slot _ _ _ _ (ss_disk s)) as [r w] eqn:Ea. simpl.
  assert (run_call sv (CallAddSlot (dr_slot_id d) (dr_slot_key d) (dr_slot_nonce d)) (ss_disk s) =
    (match r with Ok _ => Ok () | Err e => Err e | Panic => Panic end, w)) as Er.
  { simpl. unfold discard, io_bind, io_ret. rewrite Ea. by destruct r. }
  destruct (add_slot_refines sv _ av _ _ _ _ _ Hh ltac:(by split_and!) Er) as (av' & Hh' & Ha). exists av'.
  split_and!; [done| |by destruct r|].
  - destruct r as [k|e|]; simpl in Ha; [by injection Ha as <-| |done]. destruct e; try by subst. by destruct Ha as [->|[= <-]].
  - intros k ->. apply add_slot_value in Ea; [|done..]. split; [done|]. injection Ha as <-. simpl. subst k.
    unfold keep_keys. rewrite drop_app_le; [apply elem_of_app; right; by left|]. rewrite length_app. unfold MAX_UNLOCK_SLOTS. simpl. lia.
Qed.

(** C11. Opening a vault after any calls, by unlocking, creating or resetting it, keeps every
    credential that waits for it: whatever the writes answer, each one that is still
    within its lifetime is in the vault afterwards or still waits, and no slot of another account
    changes. When it succeeds nothing waits any more, the vault is open, and the
    key it returned opens it. *)
Theorem opening_keeps_sign_ins files idle lifetime grace cs h s subject sv av d now r s' :
  run_sessions cs (SessionVaults_new files idle lifetime grace) = (h, s) ->
  holds sv (ss_disk s) av -> session_draws_ok d -> Forall record_fits (waits s subject) ->
  to_hex (dr_slot_id d) ∉ uk_slot_id <$> av_keys av ->
  admit_vault subject sv d now s = (r, s') ->
  exists av', holds sv (ss_disk s') av' /\ r <> Panic /\ untouched (waits s subject) av av' /\
    (forall p, p ∈ waits s subject -> within lifetime (pd_since p) now -> kept av' (waits s' subject) p) /\
    forall k, r = Ok k -> waits s' subject = [] /\ k ∈ av_keys av' /\
      exists arc, os_handles (ss_open s') !! subject = Some (mkOpenVault sv arc now).
Proof.
  intros Hrun Hh Hd Hfit Hid Ha. apply (run_sessions_ok lifetime []) in Hrun as [Hl Hnd _]; [|apply new_ok].
  pose proof Ha as Hnil. apply admit_shrunk in Hnil as [_ Hnil].
  unfold admit_vault, seal_pending, io_bind, update, io_ret in Ha.
  destruct (take_spec subject now (ss_pending s)) as (Et & _ & _).
  destruct (pending_take subject now (ss_pending s)) as [l p0] eqn:Ep. simpl in Et.
  rewrite drop_expired_waiting, Hl in Et. fold (waits s subject) in Et.
  assert (l `sublist_of` waits s subject) as Hsub by (rewrite Et; apply sublist_filter).
  assert (Forall record_fits l) as Hfitl 
    by (apply Forall_forall; intros x Hx; apply (proj1 (Forall_forall _ _) Hfit), (sublist_subseteq _ _ Hsub), Hx).
  destruct (seal_waiting _ _ _ _ _ _) as [r1 s1] eqn:Es.
  destruct (seal_waiting_keeps subject sv _ _ l (on_pending (fun _ => p0) s) av _ _ Hh (do_nonces _ Hd)
    Hfitl ltac:(apply NoDup_omap_fmap; eapply sublist_NoDup; [apply Hnd|by apply fmap_sublist]) Es)
    as (av1 & Hh1 & Hk1 & Hp1 & Hu1 & Hkept).
  assert (untouched (waits s subject) av av1) as Hu.
  { intros k Hk. apply Hu1. contradict Hk. revert Hk. by apply sublist_subseteq, fmap_sublist. }
  assert (forall p, p ∈ waits s subject -> within lifetime (pd_since p) now -> kept av1 (waits s1 subject) p) as Hkept1.
  { intros p Hp Hw. apply (proj1 (Forall_forall _ _) Hkept). rewrite Et. by apply list_elem_of_filter. }
  destruct r1 as [[]|e|]; [|injection Ha as <- <-; by exists av1|done].
  destruct (add_slot sv d s1) as [r2 s2] eqn:Ead. pose proof (add_slot_pending _ _ _ _ _ Ead) as Hpend.
  destruct (add_slot_refines_value sv d s1 av1 _ _ Hh1 Hd ltac:(by rewrite Hk1) Ead) as (av2 & Hh2 & Hs2 & Hp2 & Hkey).
  assert (forall p, p ∈ waits s subject -> within lifetime (pd_since p) now -> kept av2 (waits s2 subject) p) as Hkept2.
  { unfold kept, waits. rewrite Hs2, Hpend. exact Hkept1. }
  assert (untouched (waits s subject) av av2) as Hu2 by (unfold untouched; by rewrite Hs2).
  exists av2. destruct r2 as [k|e|]; injection Ha as <- <-; [|by split_and!|done].
  split_and!; [done|done|done|done|]. intros k' [= <-]. split_and!; [by eapply Hnil|by apply Hkey|].
  eexists. simpl. by rewrite lookup_insert_eq.
Qed.

(** ** Refreshes *)

(** A refresh that presents a key of the vault: the slot is rotated, the rotation noted
    and the vault open. *)
Lemma reopen_rotates sv av u d now s k s' :
  sv = session_of (path_in (uk_subject u)) (uk_subject u) (sv_data_key sv) -> holds sv (ss_disk s) av -> u ∈ av_keys av ->
  session_draws_ok d -> reopen u d now s = (Ok k, s') ->
  k = mkUnlockKey (uk_subject u) (uk_slot_id u) (dr_slot_key d) /\
  holds sv (ss_disk s') (mkAbstract (av_slots av) (filter (fun x => uk_slot_id x <> uk_slot_id u) (av_keys av) ++ [k])) /\
  ss_rotations s' !! (uk_subject u, uk_slot_id u) = Some (mkRotation u k now) /\
  ss_rotation_grace s' = ss_rotation_grace s.
Proof.
  intros Esv Hh Hu [_ Hk Hn]. pose proof (holds_unlock _ _ _ u Hh) as Hopen. rewrite decide_True in Hopen by done.
  rewrite Esv in Hopen at 1. cbn [session_of sv_path] in Hopen.
  unfold reopen, io_bind, update, io_ret, disk at 1. rewrite Hopen.
  replace (session_of (sv_path sv) (sv_subject sv) (sv_data_key sv)) with sv by (rewrite Esv; done).
  destruct (disk _ _) as [r1 s1] eqn:Ed. apply disk_frame in Ed as [-> ->]. cbn [set_disk ss_disk].
  destruct (rotate_unlock_slot sv u _ _ (ss_disk s)) as [[k'|e|] w1] eqn:Er; simpl; [|done..]. intros [= -> <-].
  pose proof (rotate_slot_value _ _ _ _ _ _ _ Hk Hn Er) as Ek. replace (sv_subject sv) with (uk_subject u) in Ek by (by rewrite Esv).
  split_and!; [done| |cbn; by rewrite lookup_insert_eq|done].
  destruct (rotate_refines sv (ss_disk s) av u (dr_slot_key d) (dr_slot_nonce d) (Ok ()) w1 Hh) as (av' & Hh' & Ha);
    [done|simpl; unfold discard, io_bind, io_ret; by rewrite Er|].
  simpl in Ha. rewrite decide_True in Ha by done. injection Ha as <-. rewrite Ek.
  replace (sv_subject sv) with (uk_subject u) in Hh' by (by rewrite Esv). exact Hh'.
Qed.

(** It returns when its write succeeds. *)
Lemma reopen_succeeds sv av u d now s :
  sv = session_of (path_in (uk_subject u)) (uk_subject u) (sv_data_key sv) -> holds sv (ss_disk s) av -> u ∈ av_keys av ->
  session_draws_ok d -> default Written (head (vw_writes (ss_disk s))) = Written ->
  exists k s', reopen u d now s = (Ok k, s').
Proof.
  intros Esv Hh Hu [_ Hk Hn] Hw. pose proof (holds_unlock _ _ _ u Hh) as Hopen. rewrite decide_True in Hopen by done.
  rewrite Esv in Hopen at 1. cbn [session_of sv_path] in Hopen.
  unfold reopen, io_bind, update, io_ret, disk at 1. rewrite Hopen.
  replace (session_of (sv_path sv) (sv_subject sv) (sv_data_key sv)) with sv by (rewrite Esv; done).
  destruct (call_succeeds sv (ss_disk s) av (CallRotate u (dr_slot_key d) (dr_slot_nonce d)) _ Hh ltac:(done)
    ltac:(simpl; by rewrite decide_True) Hw ltac:(done)) as [w' Hrot].
  simpl in Hrot. unfold discard, io_bind, io_ret in Hrot. unfold disk. cbn [set_disk ss_disk].
  destruct (rotate_unlock_slot sv u _ _ (ss_disk s)) as [[k|e|] w1]; [|done..]. eauto.
Qed.

(** A slot is added where no write fails. *)
Lemma slot_added sv w av id key nonce :
  holds sv w av -> call_ok av (CallAddSlot id key nonce) -> vw_writes w = [] ->
  exists w', holds sv w' (mkAbstract (av_slots av) (keep_keys (av_keys av ++ [mkUnlockKey (sv_subject sv) (to_hex id) key]))) /\
    vw_writes w' = [].
Proof.
  intros Hh Hok Hw.
  destruct (call_succeeds sv w av (CallAddSlot id key nonce) _ Hh Hok eq_refl ltac:(by rewrite Hw) ltac:(done)) as [w' Hr].
  destruct (call_refines sv w av _ (Ok ()) w' Hh Hok Hr) as (av' & Hh' & [= <-]).
  exists w'. split; [exact Hh'|]. destruct Hh as (f & Hd & Ho). simpl in Hr.
  unfold discard, add_unlock_slot, io_bind, io_lift, io_ret in Hr. rewrite (load_holds _ _ _ _ Hd Ho) in Hr.
  destruct (new_unlock_slot _ _ _ _) as [fresh| |]; [|done..]. unfold write_vault_file in Hr. rewrite Hw in Hr. simpl in Hr.
  by injection Hr as <-.
Qed.

(** What [reopen] does with a key that opens nothing. *)
Lemma reopen_locked u d now s :
  open_with_unlock_key (path_in (uk_subject u)) u (ss_disk s) = (Err VLocked, ss_disk s) ->
  reopen u d now s =
    match ss_rotations s !! (uk_subject u, uk_slot_id u) with
    | Some r =>
        if in_grace s now r && bool_decide (ro_retired r = u) then
          let '(found, s) := use_open (uk_subject u) now s in
          match found with
          | Some _ => (Ok (ro_successor r), s)
          | None =>
              (let! vault := disk (open_with_unlock_key (path_in (uk_subject u)) (ro_successor r)) in
               update (register (uk_subject u) vault now);;
               io_ret (ro_successor r)) s
          end
        else (Err VLocked, s)
    | None => (Err VLocked, s)
    end.
Proof. intros E. unfold reopen, disk at 1. rewrite E. by destruct s. Qed.

(** The handle [find_open] returns is the one it leaves. *)
Lemma find_open_handle b subject now s v s' :
  find_open b subject now s = (Some v, s') -> is_Some (os_handles (ss_open s') !! subject).
Proof.
  unfold find_open, lookup_open. destruct (os_handles (ss_open s) !! subject) as [o|] eqn:E; simpl; [|done].
  destruct (still_in_use _ _ _); simpl; [|done]. destruct (is_stale _ _); [done|]. intros [= _ <-]. destruct b; simpl.
  - rewrite lookup_insert_eq. eauto.
  - rewrite E. eauto.
Qed.

(** The same files, rotations and grace window; which vaults are open and which sign-ins wait
    may differ. *)
Definition same_locks (s s' : SessionVaults) : Prop :=
  ss_disk s' = ss_disk s /\ ss_rotations s' = ss_rotations s /\ ss_rotation_grace s' = ss_rotation_grace s.

(** The key [u] was rotated to [k] at [now]: [k] opens the vault, no other key of the slot does. *)
Definition rotated_to (sv : SessionVault) (u k : UnlockKey) (now : N) (s : SessionVaults) : Prop :=
  ss_rotations s !! (uk_subject u, uk_slot_id u) = Some (mkRotation u k now) /\
  open_with_unlock_key (path_in (uk_subject u)) k (ss_disk s) = (Ok sv, ss_disk s) /\
  forall u', uk_subject u' = uk_subject u -> uk_slot_id u' = uk_slot_id u -> u' <> k ->
    open_with_unlock_key (path_in (uk_subject u)) u' (ss_disk s) = (Err VLocked, ss_disk s).

Lemma rotated_same sv u k now s s' : same_locks s s' -> rotated_to sv u k now s -> rotated_to sv u k now s'.
Proof. intros (Ed & Er & _). unfold rotated_to. by rewrite Ed, Er. Qed.

Lemma reopen_rotated_to sv av u d now s k s1 :
  sv = session_of (path_in (uk_subject u)) (uk_subject u) (sv_data_key sv) -> holds sv (ss_disk s) av -> u ∈ av_keys av ->
  session_draws_ok d -> reopen u d now s = (Ok k, s1) ->
  rotated_to sv u k now s1 /\ ss_rotation_grace s1 = ss_rotation_grace s /\ uk_key k = dr_slot_key d.
Proof.
  intros Esv Hh Hu Hd Hr. destruct (reopen_rotates sv av u d now s k s1 Esv Hh Hu Hd Hr) as (Ek & Hh1 & Hro & Hg).
  split_and!; [|done|by rewrite Ek]. split; [done|].
  set (ks := filter (fun x => uk_slot_id x <> uk_slot_id u) (av_keys av) ++ [k]) in Hh1.
  assert (forall u', open_with_unlock_key (path_in (uk_subject u)) u' (ss_disk s1) =
    ((if decide (u' ∈ ks) then Ok sv else Err VLocked), ss_disk s1)) as Hopen.
  { intros u'. pose proof (holds_unlock _ _ _ u' Hh1) as Ho. rewrite Esv in Ho at 1. cbn [session_of sv_path av_keys] in Ho.
    replace (session_of (sv_path sv) (sv_subject sv) (sv_data_key sv)) with sv in Ho by (rewrite Esv; done). exact Ho. }
  split.
  - rewrite Hopen, decide_True; [done|]. apply elem_of_app. right. by left.
  - intros u' _ Es Hk. rewrite Hopen, decide_False; [done|].
    intros [[Hc _]%list_elem_of_filter|Hc%list_elem_of_singleton]%elem_of_app; done.
Qed.

(** One more refresh of the slot. *)
Lemma reopen_retired sv u k now s u' d now' r s' :
  rotated_to sv u k now s -> u <> k -> uk_subject u' = uk_subject u -> uk_slot_id u' = uk_slot_id u -> u' <> k ->
  reopen u' d now' s = (r, s') ->
  same_locks s s' /\
  (if decide (u' = u /\ (now' - now < ss_rotation_grace s)%N)
   then r = Ok k /\ is_Some (os_handles (ss_open s') !! uk_subject u) else r = Err VLocked /\ s' = s).
Proof.
  intros (Hro & Hk & Hlocked) Huk Hsub Hslot Hne. rewrite reopen_locked by (rewrite Hsub; by apply Hlocked).
  rewrite Hsub, Hslot, Hro. unfold in_grace. cbn [ro_at ro_retired ro_successor].
  case_decide as Hd.
  2: { replace (_ && _) with false; [by intros [= <- <-]|]. symmetry. apply andb_false_iff.
       destruct (decide (u' = u)) as [->|Hu]; [left; apply N.ltb_ge; by apply N.nlt_ge; naive_solver|right; by apply bool_decide_eq_false]. }
  destruct Hd as [-> Hgr]. rewrite (proj2 (N.ltb_lt _ _) Hgr), bool_decide_eq_true_2 by done. cbn [andb].
  destruct (find_open_frame true (uk_subject u) now' s) as (_ & Ed & Er & Eg). unfold use_open.
  destruct (find_open true (uk_subject u) now' s) as [[v|] s3] eqn:Ef; simpl in Ed, Er, Eg.
  - intros [= <- <-]. split_and!; [done..|]. by eapply find_open_handle.
  - unfold io_bind, update, io_ret, disk. rewrite Ed, Hk. intros [= <- <-]. split_and!; [done..|].
    cbn. rewrite lookup_insert_eq. eauto.
Qed.

(** A race: refreshes of one slot, none of them with the new key [k], between which vaults are
    opened and closed and sign-ins come and go. Each is listed with its key, its time, its
    answer and what it left. *)
Inductive race (u k : UnlockKey) : SessionVaults -> list (UnlockKey * N * res VaultError UnlockKey * SessionVaults) -> Prop :=
| race_over s : race u k s []
| race_other s s' l : same_locks s s' -> race u k s' l -> race u k s l
| race_refresh s u' d now' r s' l :
    uk_subject u' = uk_subject u -> uk_slot_id u' = uk_slot_id u -> u' <> k ->
    reopen u' d now' s = (r, s') -> race u k s' l -> race u k s ((u', now', r, s') :: l).

(** C18. When a refresh has rotated its key, the new key opens the vault. Then, as long as the
    new key is not itself presented and nothing else writes the vault (no sign-out, no reset,
    no other slot): whatever refreshes of that slot follow, each that presents the retired key
    within the grace window gets the same new key and leaves the vault open; after the window,
    or with any other key, it is refused; and none changes a file. So no third key to the
    slot is answered in the race. *)
Theorem refresh_race_one_key sv av u d now s k s1 l :
  sv = session_of (path_in (uk_subject u)) (uk_subject u) (sv_data_key sv) -> holds sv (ss_disk s) av -> u ∈ av_keys av ->
  session_draws_ok d -> dr_slot_key d <> uk_key u -> reopen u d now s = (Ok k, s1) -> race u k s1 l ->
  open_with_unlock_key (path_in (uk_subject u)) k (ss_disk s1) = (Ok sv, ss_disk s1) /\
  Forall (fun '(u', now', r, s') =>
    ss_disk s' = ss_disk s1 /\
    if decide (u' = u /\ (now' - now < ss_rotation_grace s)%N)
    then r = Ok k /\ is_Some (os_handles (ss_open s') !! uk_subject u) else r = Err VLocked) l.
Proof.
  intros Esv Hh Hu Hd Hne Hr Hrace. destruct (reopen_rotated_to _ _ _ _ _ _ _ _ Esv Hh Hu Hd Hr) as (Hro & Eg & Ekey).
  assert (u <> k) as Huk by congruence. split; [apply Hro|]. rewrite <- Eg. clear Eg Hr.
  induction Hrace as [s2|s2 s3 l Hs Hl IH|s2 u' d' now' r s3 l Hsub Hslot Hk Hre Hl IH]; [done| |].
  - destruct Hs as (Ed & Er & Eg). rewrite Ed, Eg in IH. apply IH. by eapply rotated_same.
  - destruct (reopen_retired _ _ _ _ _ _ _ _ _ _ Hro Huk Hsub Hslot Hk Hre) as [(Ed & Er & Eg) Hans]. constructor.
    + split; [done|]. case_decide; [done|]. by destruct Hans.
    + rewrite Ed, Eg in IH. apply IH. by eapply rotated_same.
Qed.
End spec.

(** ** Witnesses *)

Section witnesses.
#[local] Existing Instance packed_prims.
#[local] Existing Instance packed_ideal.
#[local] Existing Instance packed_ports.

Definition demo_session_draws : SessionDraws :=
  mkSessionDraws (fun _ => replicate 12 x04) (replicate 16 x05) (replicate 32 x06) (replicate 12 x07) demo_draws.

Lemma demo_session_draws_ok : session_draws_ok demo_session_draws.
Proof. by split. Qed.

Definition demo_registry : SessionVaults := SessionVaults_new demo_world None (Some 600%N) 30.

(** A user signs in, and signs out before choosing a passphrase. *)
Definition demo_signed_out : list (sessions_call * N) :=
  [(CallSignIn "ada" demo_session_draws, 0%N); (CallDiscard "ada", 1%N)].

Lemma passphrase_needs_sign_in_witness :
  (create "ada" "correct horse" demo_session_draws 2 (run_sessions demo_signed_out demo_registry).2).1 = Err VNoFreshLogin.
Proof.
  destruct (passphrase_needs_sign_in demo_world None (Some 600%N) 30 demo_signed_out
    (run_sessions demo_signed_out demo_registry).1 (run_sessions demo_signed_out demo_registry).2 "ada" "correct horse" None
    demo_session_draws 2 (surjective_pairing _)) as [(t & record & (before & e & after & E & Hs & _ & Hf) & _)|[Hc _]].
  - exfalso. change (run_sessions demo_signed_out demo_registry).1 with
      [mkEvent (CallSignIn "ada" demo_session_draws) 0 (Ok ()); mkEvent (CallDiscard "ada") 1 (Ok ())] in E.
    destruct before as [|e1 [|e2 before]]; simplify_eq/=.
    + apply Forall_cons in Hf as [Hx _]. by apply (Hx eq_refl).
    + by destruct before.
  - exact (proj1 (Hc _ _ (surjective_pairing _))).
Defined.

(** The user signs in while the vault is closed; it is then opened. *)
Definition demo_waiting : list (sessions_call * N) :=
  [(CallRetain "ada" demo_credential demo_session_draws, 0%N); (Elsewhere demo_vault.2, 1%N)].

Definition demo_waiting_state : SessionVaults := (run_sessions demo_waiting demo_registry).2.

Lemma demo_vault_holds : holds demo_vault.1 demo_vault.2 (mkAbstract ∅ []).
Proof. by eapply (create_file_holds "a.vault" "correct horse" "ada" demo_draws demo_world), demo_created. Qed.

Lemma demo_waits : waits demo_waiting_state "ada" = [mkPending (Some demo_credential) 0].
Proof. reflexivity. Qed.

Lemma demo_credential_fits : record_fits (mkPending (Some demo_credential) 0).
Proof. intros r [= <-]. split; vm_compute; congruence. Qed.

Lemma opening_keeps_sign_ins_witness :
  exists av', kept av' (waits (admit_vault "ada" demo_vault.1 demo_session_draws 5 demo_waiting_state).2 "ada")
                (mkPending (Some demo_credential) 0) /\
    holds demo_vault.1 (ss_disk (admit_vault "ada" demo_vault.1 demo_session_draws 5 demo_waiting_state).2) av'.
Proof.
  destruct (opening_keeps_sign_ins demo_world None (Some 600%N) 30 demo_waiting (run_sessions demo_waiting demo_registry).1 demo_waiting_state "ada" demo_vault.1
    (mkAbstract ∅ []) demo_session_draws 5 (admit_vault "ada" demo_vault.1 demo_session_draws 5 demo_waiting_state).1
    (admit_vault "ada" demo_vault.1 demo_session_draws 5 demo_waiting_state).2 (surjective_pairing _) demo_vault_holds demo_session_draws_ok) as (av' & Hh & _ & _ & Hk & _).
  - rewrite demo_waits. apply Forall_singleton, demo_credential_fits.
  - apply not_elem_of_nil.
  - apply surjective_pairing.
  - exists av'. split; [|exact Hh]. apply Hk; [rewrite demo_waits; by left|done].
Defined.

(** A vault with one unlock key, refreshed twice with it. *)
Definition demo_key : UnlockKey := mkUnlockKey "ada" (to_hex (replicate 16 x05)) (replicate 32 x06).

Definition demo_refresh_draws : SessionDraws :=
  mkSessionDraws (fun _ => replicate 12 x04) [] (replicate 32 x08) (replicate 12 x09) demo_draws.

Definition demo_opened : SessionVault := session_of (path_in "ada") "ada" (replicate 32 x07).

Definition demo_first_files : VaultWorld :=
  (create_file (path_in "ada") "correct horse" "ada" demo_draws demo_world).2.

Lemma demo_opened_created :
  create_file (path_in "ada") "correct horse" "ada" demo_draws demo_world = (Ok demo_opened, demo_first_files).
Proof. reflexivity. Qed.

Lemma demo_opened_holds : exists w, holds demo_opened w (mkAbstract ∅ [demo_key]) /\ vw_writes w = [].
Proof.
  destruct (create_file_holds (path_in "ada") "correct horse" "ada" demo_draws demo_world demo_opened demo_first_files
    demo_draws_ok (not_elem_of_empty _) demo_opened_created) as (_ & Hh & _).
  apply (slot_added demo_opened demo_first_files (mkAbstract ∅ []) (replicate 16 x05) (replicate 32 x06) (replicate 12 x07) Hh);
    [split_and!; [done|done|apply not_elem_of_nil]|reflexivity].
Qed.

Definition demo_rotated : UnlockKey := mkUnlockKey "ada" (to_hex (replicate 16 x05)) (replicate 32 x08).

Lemma refresh_race_one_key_witness :
  exists w s1 s2, reopen demo_key demo_refresh_draws 3 (SessionVaults_new w None None 30) = (Ok demo_rotated, s1) /\
    reopen demo_key demo_session_draws 8 s1 = (Ok demo_rotated, s2).
Proof.
  destruct demo_opened_holds as (w & Hh & Hw). exists w.
  assert (demo_key ∈ av_keys (mkAbstract ∅ [demo_key])) as Hu by (by left).
  assert (session_draws_ok demo_refresh_draws) as Hd by (by split).
  destruct (reopen_succeeds demo_opened _ demo_key demo_refresh_draws 3 (SessionVaults_new w None None 30) eq_refl Hh Hu Hd
    ltac:(simpl; by rewrite Hw))
    as (k & s1 & Hr).
  destruct (reopen_rotates demo_opened _ demo_key demo_refresh_draws 3 (SessionVaults_new w None None 30) k s1 eq_refl Hh Hu Hd Hr)
    as (-> & _).
  destruct (reopen demo_key demo_session_draws 8 s1) as [r2 s2] eqn:Hr2.
  destruct (refresh_race_one_key demo_opened _ demo_key demo_refresh_draws 3 (SessionVaults_new w None None 30) _ s1
    [(demo_key, 8%N, r2, s2)] eq_refl Hh Hu Hd ltac:(done) Hr) as [_ Hrace].
  { eapply race_refresh; [reflexivity|reflexivity|discriminate|exact Hr2|constructor]. }
  apply Forall_singleton in Hrace as (_ & Hrace). rewrite decide_True in Hrace by done. destruct Hrace as [-> _].
  exists s1, s2. by split.
Defined.
End witnesses.
