(* ===== verification/NotifyLog.v ===== *)
(** * The project notification log

    [src/packages/tddy-session-activity/src/project_notification_log.rs] and its
    [storage.rs]: the durable log of a project's attention notifications and its reads by
    cursor, with the paging of [tddy-tool-engine/src/session_follow.rs] and the session-id
    check of [tddy-changeset/src/session_lifecycle.rs]. The disk maps a project's directory
    to the bytes of its [notifications.jsonl]; what the file system answers to a write is an
    argument of the call, the bytes a failed write left included. [serde_json]'s text and
    the sessions' metadata are parameters. *)

From Stdlib Require Import Ascii Strings.Byte.
From stdpp Require Import pretty.
From S2P Require Import Prelude Text NodeIds Graph Framing Utf8 Json Changeset.

Local Open Scope io_scope.

(** ** Notifications *)

Inductive SessionNotificationKind := KActivity | KAttentionRequired.
Inductive SessionNotificationSource := SActivityStatus | SAgentToolCall | SPresenter | SAgent | SPendingQuestion.
Inductive NotificationLevel := LInfo | LSuccess | LWarning | LError.

#[global] Instance SessionNotificationKind_eq_dec : EqDecision SessionNotificationKind.
Proof. solve_decision. Defined.

Record AgentNotification := mkAgentNotification {
  an_title : string;
  an_body_markdown : string;
  an_level : NotificationLevel;
  an_sound : bool;
  an_link : string;
}.

Record QuestionNoticeOption := mkOption { qo_label : string; qo_description : string }.

Record QuestionNoticeItem := mkItem {
  qi_header : string;
  qi_question : string;
  qi_options : list QuestionNoticeOption;
  qi_multi_select : bool;
}.

Record QuestionNotice := mkQuestion {
  qn_request_id : string;
  qn_kind : string;
  qn_tool_name : string;
  qn_summary : string;
  qn_questions : list QuestionNoticeItem;
}.

Record SessionNotification := mkNotification {
  sn_session_id : string;
  sn_os_user : string;
  sn_label : string;
  sn_kind : SessionNotificationKind;
  sn_source : SessionNotificationSource;
  sn_text : string;
  sn_agent : option AgentNotification;
  sn_question : option QuestionNotice;
  sn_at_unix_ms : N;
}.

Record ProjectNotificationRecord := mkNotificationRecord {
  nr_seq : N;
  nr_session_id : string;
  nr_label : string;
  nr_kind : SessionNotificationKind;
  nr_source : SessionNotificationSource;
  nr_text : string;
  nr_agent : option AgentNotification;
  nr_question : option QuestionNotice;
  nr_at_unix_ms : N;
}.

Record Held := mkHeld { he_os_user : string; he_record : ProjectNotificationRecord }.

Definition he_seq (h : Held) : N := nr_seq (he_record h).

Record ProjectNotificationScope := mkScope {
  sc_project_id : string;
  sc_os_user : string;
  sc_exclude_session_id : string;
}.

Definition visible_to (scope : ProjectNotificationScope) (h : Held) : bool :=
  bool_decide (he_os_user h = sc_os_user scope) &&
  negb (bool_decide (nr_session_id (he_record h) = sc_exclude_session_id scope)).

(** ** The JSON form *)

Definition kind_value (k : SessionNotificationKind) : json :=
  JString match k with KActivity => "activity" | KAttentionRequired => "attention_required" end.

Definition source_value (s : SessionNotificationSource) : json :=
  JString match s with
          | SActivityStatus => "activity_status"
          | SAgentToolCall => "agent_tool_call"
          | SPresenter => "presenter"
          | SAgent => "agent"
          | SPendingQuestion => "pending_question"
          end.

Definition level_value (l : NotificationLevel) : json :=
  JString match l with LInfo => "info" | LSuccess => "success" | LWarning => "warning" | LError => "error" end.

Definition option_value {A} (f : A -> json) (o : option A) : json :=
  match o with Some a => f a | None => JNull end.

Definition agent_value (a : AgentNotification) : json :=
  JObject [("title", JString (an_title a)); ("body_markdown", JString (an_body_markdown a));
           ("level", level_value (an_level a)); ("sound", JBool (an_sound a)); ("link", JString (an_link a))].

Definition choice_value (o : QuestionNoticeOption) : json :=
  JObject [("label", JString (qo_label o)); ("description", JString (qo_description o))].

Definition item_value (i : QuestionNoticeItem) : json :=
  JObject [("header", JString (qi_header i)); ("question", JString (qi_question i));
           ("options", JArray (choice_value <$> qi_options i)); ("multi_select", JBool (qi_multi_select i))].

Definition question_value (q : QuestionNotice) : json :=
  JObject [("request_id", JString (qn_request_id q)); ("kind", JString (qn_kind q));
           ("tool_name", JString (qn_tool_name q)); ("summary", JString (qn_summary q));
           ("questions", JArray (item_value <$> qn_questions q))].

Definition record_fields (r : ProjectNotificationRecord) : list (string * json) :=
  [("seq", JInt (Z.of_N (nr_seq r))); ("session_id", JString (nr_session_id r)); ("label", JString (nr_label r));
   ("kind", kind_value (nr_kind r)); ("source", source_value (nr_source r)); ("text", JString (nr_text r));
   ("agent", option_value agent_value (nr_agent r)); ("question", option_value question_value (nr_question r));
   ("at_unix_ms", JInt (Z.of_N (nr_at_unix_ms r)))].

Definition record_json (r : ProjectNotificationRecord) : json := JObject (record_fields r).

(** One line of the file; the record's fields are flattened into it. *)
Definition line_value (h : Held) : json := JObject (("os_user", JString (he_os_user h)) :: record_fields (he_record h)).

Definition json_flag (v : json) : option bool := match v with JBool b => Some b | _ => None end.
Definition json_u64 (v : json) : option N :=
  match v with
  | JInt z => if decide (0 <= z <= Z.of_N u64_max)%Z then Some (Z.to_N z) else None
  | _ => None
  end.
Definition json_list {A} (f : json -> option A) (v : json) : option (list A) :=
  match v with JArray l => mapM f l | _ => None end.

(** An [Option] field: absent and null both read as [None]. *)
Definition option_field {A} (f : json -> option A) (v : json) (key : string) : option (option A) :=
  match json_get v key with
  | None | Some JNull => Some None
  | Some x => Some <$> f x
  end.

Definition kind_of_value (v : json) : option SessionNotificationKind :=
  s ← as_string v;
  if decide (s = "activity") then Some KActivity
  else if decide (s = "attention_required") then Some KAttentionRequired else None.

Definition source_of_value (v : json) : option SessionNotificationSource :=
  s ← as_string v;
  if decide (s = "activity_status") then Some SActivityStatus
  else if decide (s = "agent_tool_call") then Some SAgentToolCall
  else if decide (s = "presenter") then Some SPresenter
  else if decide (s = "agent") then Some SAgent
  else if decide (s = "pending_question") then Some SPendingQuestion else None.

Definition level_of_value (v : json) : option NotificationLevel :=
  s ← as_string v;
  if decide (s = "info") then Some LInfo
  else if decide (s = "success") then Some LSuccess
  else if decide (s = "warning") then Some LWarning
  else if decide (s = "error") then Some LError else None.

Definition agent_of_value (v : json) : option AgentNotification :=
  title ← json_get v "title" ≫= as_string;
  body ← json_get v "body_markdown" ≫= as_string;
  level ← json_get v "level" ≫= level_of_value;
  sound ← json_get v "sound" ≫= json_flag;
  link ← json_get v "link" ≫= as_string;
  Some (mkAgentNotification title body level sound link).

Definition choice_of_value (v : json) : option QuestionNoticeOption :=
  label ← json_get v "label" ≫= as_string;
  description ← json_get v "description" ≫= as_string;
  Some (mkOption label description).

Definition item_of_value (v : json) : option QuestionNoticeItem :=
  header ← json_get v "header" ≫= as_string;
  question ← json_get v "question" ≫= as_string;
  options ← json_get v "options" ≫= json_list choice_of_value;
  multi_select ← json_get v "multi_select" ≫= json_flag;
  Some (mkItem header question options multi_select).

Definition question_of_value (v : json) : option QuestionNotice :=
  request_id ← json_get v "request_id" ≫= as_string;
  kind ← json_get v "kind" ≫= as_string;
  tool_name ← json_get v "tool_name" ≫= as_string;
  summary ← json_get v "summary" ≫= as_string;
  questions ← json_get v "questions" ≫= json_list item_of_value;
  Some (mkQuestion request_id kind tool_name summary questions).

Definition record_of_value (v : json) : option ProjectNotificationRecord :=
  seq ← json_get v "seq" ≫= json_u64;
  session_id ← json_get v "session_id" ≫= as_string;
  label ← json_get v "label" ≫= as_string;
  kind ← json_get v "kind" ≫= kind_of_value;
  source ← json_get v "source" ≫= source_of_value;
  text ← json_get v "text" ≫= as_string;
  agent ← option_field agent_of_value v "agent";
  question ← option_field question_of_value v "question";
  at_unix_ms ← json_get v "at_unix_ms" ≫= json_u64;
  Some (mkNotificationRecord seq session_id label kind source text agent question at_unix_ms).

Definition held_of_value (v : json) : option Held :=
  os_user ← json_get v "os_user" ≫= as_string;
  record ← record_of_value v;
  Some (mkHeld os_user record).

(** ** Paging *)

Definition FOLLOW_PAGE_DEFAULT : nat := 50.
Definition FOLLOW_PAGE_MAX : nat := 200.

Record FollowPage (A : Type) := mkPage {
  pg_items : list A;
  pg_next_cursor : string;
  pg_has_more : bool;
  pg_clamped_to : option nat;
}.
Arguments mkPage {_} _ _ _ _.
Arguments pg_items {_} _.
Arguments pg_next_cursor {_} _.
Arguments pg_has_more {_} _.
Arguments pg_clamped_to {_} _.

Definition page_size (limit : option nat) : nat * option nat :=
  match limit with
  | None | Some 0 => (FOLLOW_PAGE_DEFAULT, None)
  | Some n => if decide (FOLLOW_PAGE_MAX < n) then (FOLLOW_PAGE_MAX, Some FOLLOW_PAGE_MAX) else (n, None)
  end.

(** What a call is refused with. *)
Inductive LogError :=
| InvalidCursor (cursor : string)
| InvalidSessionId (reason : string)
| NoSessionsDirectory (os_user : string)
| UnreadableSession (session_id : string)
| BadProjectId (project_id : string)
| UnreadableLog (project_id : string)
| FailedWrite (message : string).

Definition parse_cursor (cursor : string) : res LogError (option N) :=
  let cursor := trim cursor in
  if decide (cursor = "") then Ok None
  else match parse_u64 cursor with Some n => Ok (Some n) | None => Err (InvalidCursor cursor) end.

(** ** A project's records *)

Definition PROJECT_NOTIFICATION_CAPACITY : nat := 1000.

Record ProjectState := mkProjectState {
  pj_window : list Held;
  pj_newest_seq : N;
  pj_lines_on_disk : nat;
}.

Definition empty_project : ProjectState := mkProjectState [] 0 0.

Definition restored (records : list Held) (lines_on_disk : nat) : ProjectState :=
  mkProjectState (drop (length records - PROJECT_NOTIFICATION_CAPACITY) records)
    (foldr (fun h m => N.max (he_seq h) m) 0%N records) lines_on_disk.

(** [deliver] keeps the newest record and drops the oldest past the capacity. *)
Definition push_window (h : Held) (window : list Held) : list Held :=
  let window := window ++ [h] in
  if decide (PROJECT_NOTIFICATION_CAPACITY < length window) then tail window else window.

Inductive Start := Newest | After (seq : N).

Definition lost_after (s : ProjectState) (seq : N) : N :=
  match pj_window s with
  | [] => 0
  | oldest :: _ => (he_seq oldest - 1) - seq
  end.

Definition page_of (s : ProjectState) (scope : ProjectNotificationScope) (start : Start) (size : nat * option nat)
    : FollowPage ProjectNotificationRecord * N :=
  let visible := filter (fun h => visible_to scope h = true) (pj_window s) in
  let '(held, has_more, lost) :=
    match start with
    | Newest => (drop (length visible - size.1) visible, false, 0%N)
    | After seq =>
        let after := filter (fun h => (seq < he_seq h)%N) visible in
        (take size.1 after, bool_decide (size.1 < length after), lost_after s seq)
    end in
  let next_cursor := pretty (default (pj_newest_seq s) (he_seq <$> last held)) in
  (mkPage (he_record <$> held) next_cursor has_more size.2, lost).

(** ** The file *)

(** [BufRead::lines]: the bytes between line breaks, a carriage return before one
    dropped; nothing follows the last one. *)
Definition strip_cr (l : bytes) : bytes :=
  match last l with Some x0d => take (length l - 1) l | _ => l end.

Fixpoint split_lines (b : bytes) : list bytes :=
  match b with
  | [] => []
  | x :: rest =>
      if decide (x = x0a) then [] :: split_lines rest
      else match split_lines rest with
           | [] => [[x]]
           | l :: ls => (x :: l) :: ls
           end
  end.

Definition file_lines (b : bytes) : list bytes := strip_cr <$> split_lines b.

(** [serde_json]'s text of a line, and the metadata of a session's directory: its project
    id, empty for none. *)
Class LogPorts := {
  line_to_string : json -> string;
  line_from_str : string -> option json;
  session_project : string -> option string;
  sessions_base_for : string -> option string;
}.

Section log.
Context `{LogPorts}.

(** The records of a file and its lines, blank ones left out; [None] when a line is
    not text. *)
Fixpoint replay_lines (ls : list bytes) : option (list Held * nat) :=
  match ls with
  | [] => Some ([], 0)
  | l :: ls =>
      line ← from_utf8 l;
      '(records, n) ← replay_lines ls;
      if decide (trim line = "") then Some (records, n)
      else Some ((match line_from_str line ≫= held_of_value with Some h => [h] | None => [] end) ++ records, S n)
  end.

Definition end_on_a_line_break (b : bytes) : bytes :=
  match last b with
  | Some x => if decide (x = x0a) then b else b ++ [x0a]
  | None => b
  end.

Record LogWorld := mkLogWorld { lw_files : gmap string bytes; lw_unreadable : gset string }.

Definition replay_file (project_id : string) (b : bytes) : io LogWorld LogError (list Held * nat) := fun w =>
  if decide (project_id ∈ lw_unreadable w) then (Err (UnreadableLog project_id), w)
  else
    let b := end_on_a_line_break b in
    let w := mkLogWorld (<[project_id := b]> (lw_files w)) (lw_unreadable w) in
    match replay_lines (file_lines b) with
    | Some replayed => (Ok replayed, w)
    | None => (Err (UnreadableLog project_id), w)
    end.

Fixpoint replay_all (entries : list (string * bytes)) : io LogWorld LogError (list (string * ProjectState)) :=
  match entries with
  | [] => io_ret []
  | (project_id, b) :: rest =>
      let! replayed := replay_file project_id b in
      let! others := replay_all rest in
      io_ret ((project_id, restored replayed.1 replayed.2) :: others)
  end.

Definition line_text (h : Held) : bytes := text_bytes (line_to_string (line_value h)).
Definition full_line (h : Held) : bytes := line_text h ++ [x0a].

(** ** The log *)

Record NotificationLog := mkLog { nl_disk : LogWorld; nl_projects : gmap string ProjectState }.

(** [entries] is the order the directory lists its projects in. *)
Definition open_log (entries : list string) (w : LogWorld) : res LogError NotificationLog * LogWorld :=
  match replay_all ((fun id => (id, default [] (lw_files w !! id))) <$> entries) w with
  | (Ok projects, w) => (Ok (mkLog w (list_to_map projects)), w)
  | (Err e, w) => (Err e, w)
  | (Panic, w) => (Panic, w)
  end.

(** [ProjectNotificationLog::project]; a project named for the first time is empty. *)
Definition project (project_id : string) (s : NotificationLog) : ProjectState :=
  default empty_project (nl_projects s !! project_id).

Definition read (scope : ProjectNotificationScope) (cursor : string) (limit : option nat) (s : NotificationLog)
    : res LogError (FollowPage ProjectNotificationRecord * N) :=
  let? start := parse_cursor cursor in
  Ok (page_of (project (sc_project_id scope) s) scope (match start with Some seq => After seq | None => Newest end)
        (page_size limit)).

(** *** Waiting *)

Definition MAX_WAIT_MS : N := 20000.
Definition clamp_wait (requested : N) : N := N.min requested MAX_WAIT_MS.

Record NotificationWait := mkWait {
  nw_page : FollowPage ProjectNotificationRecord;
  nw_lost : N;
  nw_timed_out : bool;
}.

(** One turn of [wait]'s loop: its answer, or [None] to sleep. *)
Definition wait_turn (p : ProjectState) (scope : ProjectNotificationScope) (after now deadline : N) : option NotificationWait :=
  let '(page, lost) := page_of p scope (After after) (page_size None) in
  if negb (bool_decide (pg_items page = [])) || (deadline <=? now)%N
  then Some (mkWait page lost (bool_decide (pg_items page = []))) else None.

(** Where a wait starts: after its cursor, or after what is there when it is called. *)
Definition wait_from (scope : ProjectNotificationScope) (cursor : string) (s : NotificationLog) : res LogError N :=
  let? cursor := parse_cursor cursor in
  Ok (default (pj_newest_seq (project (sc_project_id scope) s)) cursor).

(** *** Recording *)

Definition session_id_char (c : ascii) : bool :=
  let n := N_of_ascii c in
  (48 <=? n)%N && (n <=? 57)%N || (65 <=? n)%N && (n <=? 90)%N || (97 <=? n)%N && (n <=? 122)%N ||
  bool_decide (c = "-"%char) || bool_decide (c = "_"%char).

Definition validate_session_id_segment (session_id : string) : res LogError () :=
  let s := trim session_id in
  if decide (s = "") then Err (InvalidSessionId "Empty")
  else if decide (512 < String.length s) then Err (InvalidSessionId "TooLong")
  else if has_char "/" s || has_char "\" s || has_char "000" s then Err (InvalidSessionId "NotSingleSegment")
  else if decide (s = "." \/ s = "..") then Err (InvalidSessionId "InvalidDot")
  else if forallb session_id_char (String.list_ascii_of_string s) then Ok ()
  else Err (InvalidSessionId "InvalidCharacter").

Definition project_of (n : SessionNotification) : res LogError (option string) :=
  let? _ := validate_session_id_segment (sn_session_id n) in
  let? base := match sessions_base_for (sn_os_user n) with
               | Some base => Ok base
               | None => Err (NoSessionsDirectory (sn_os_user n))
               end in
  let? project_id := match session_project (unified_session_dir_path base (sn_session_id n)) with
                     | Some project_id => Ok project_id
                     | None => Err (UnreadableSession (sn_session_id n))
                     end in
  Ok (if decide (project_id = "") then None else Some project_id).

Definition names_a_directory (project_id : string) : bool :=
  negb (bool_decide (project_id = "")) && negb (bool_decide (project_id = ".")) && negb (bool_decide (project_id = "..")) &&
  negb (has_char "/" project_id || has_char "\" project_id || has_char "000" project_id).

Definition project_file (project_id : string) : res LogError string :=
  if names_a_directory project_id then Ok project_id else Err (BadProjectId project_id).

(** What the system answers to an append: done, or failed with so many bytes written. *)
Inductive append_answer := Appended | AppendFailed (written : nat) (message : string).

(** To a rewrite: done, or failed before or after the new file took the old one's place. *)
Inductive rewrite_answer := Rewritten | RewriteFailed (replaced : bool).

Definition write_file (project_id : string) (b : bytes) (w : LogWorld) : LogWorld :=
  mkLogWorld (<[project_id := b]> (lw_files w)) (lw_unreadable w).

Definition file_of (project_id : string) (w : LogWorld) : bytes := default [] (lw_files w !! project_id).

Definition append (project_id : string) (h : Held) (a : append_answer) : io LogWorld LogError () := fun w =>
  match a with
  | Appended => (Ok (), write_file project_id (file_of project_id w ++ full_line h) w)
  | AppendFailed n message => (Err (FailedWrite message), write_file project_id (file_of project_id w ++ take n (full_line h)) w)
  end.

Definition rewrite (project_id : string) (window : list Held) (a : rewrite_answer) (w : LogWorld) : bool * LogWorld :=
  let w' := write_file project_id (concat (full_line <$> window)) w in
  match a with
  | Rewritten => (true, w')
  | RewriteFailed replaced => (false, if replaced then w' else w)
  end.

(** [a + b] on [u64], as [u32_add] is on [u32]. *)
Definition u64_add {E} (overflow_checks : bool) (a b : N) : res E N :=
  if decide (a + b <= u64_max)%N then Ok (a + b)%N
  else if overflow_checks then Panic else Ok ((a + b) mod (u64_max + 1))%N.

Definition held_of (n : SessionNotification) (seq : N) : Held :=
  mkHeld (sn_os_user n)
    (mkNotificationRecord seq (sn_session_id n) (sn_label n) (sn_kind n) (sn_source n) (sn_text n) (sn_agent n)
       (sn_question n) (sn_at_unix_ms n)).

(** The state of the log once a record is appended. *)
Definition record_held (project_id : string) (h : Held) (rw : rewrite_answer) (s : NotificationLog) : NotificationLog :=
  let p := project project_id s in
  let window := push_window h (pj_window p) in
  let lines := S (pj_lines_on_disk p) in
  let '(lines, disk) :=
    if decide (2 * PROJECT_NOTIFICATION_CAPACITY < lines) then
      let '(done, disk) := rewrite project_id window rw (nl_disk s) in
      (if done then length window else lines, disk)
    else (lines, nl_disk s) in
  mkLog disk (<[project_id := mkProjectState window (he_seq h) lines]> (nl_projects s)).

Definition wants (n : SessionNotification) : bool := bool_decide (sn_kind n = KAttentionRequired).

Definition deliver (oc : bool) (n : SessionNotification) (a : append_answer) (rw : rewrite_answer)
    : io NotificationLog LogError () := fun s =>
  match project_of n with
  | Err e => (Err e, s)
  | Panic => (Panic, s)
  | Ok None => (Ok (), s)
  | Ok (Some project_id) =>
      match project_file project_id with
      | Err e => (Err e, s)
      | Panic => (Panic, s)
      | Ok path =>
          let s := mkLog (nl_disk s) (<[project_id := project project_id s]> (nl_projects s)) in
          match u64_add oc (pj_newest_seq (project project_id s)) 1 with
          | Err e => (Err e, s)
          | Panic => (Panic, s)
          | Ok seq =>
              let h := held_of n seq in
              match append path h a (nl_disk s) with
              | (Ok _, disk) => (Ok (), record_held project_id h rw (mkLog disk (nl_projects s)))
              | (Err e, disk) => (Err e, mkLog disk (nl_projects s))
              | (Panic, disk) => (Panic, mkLog disk (nl_projects s))
              end
          end
      end
  end.
End log.
