(* ===== verification/NotifySpec.v ===== *)
(** * What readers of the notification log see

    The file's lines read back, a line that was cut short does not; over any
    interleaving of deliveries, restarts and reads, a reader that follows the log by its
    cursors gets every notification it may see once and in order, apart from those it is
    told were evicted. *)

From Stdlib Require Import Ascii Strings.Byte.
From stdpp Require Import pretty.
From S2P Require Import Prelude Text NodeIds Graph Framing Utf8 Json Changeset NotifyLog.

Local Open Scope io_scope.

(** ** The JSON form reads back *)

Definition fits (h : Held) : Prop := (he_seq h <= u64_max /\ nr_at_unix_ms (he_record h) <= u64_max)%N.

Lemma json_u64_of n : (n <= u64_max)%N -> json_u64 (JInt (Z.of_N n)) = Some n.
Proof. intros Hn. unfold json_u64. rewrite decide_True by lia. by rewrite N2Z.id. Qed.

Lemma kind_roundtrip k : kind_of_value (kind_value k) = Some k.
Proof. by destruct k. Qed.
Lemma source_roundtrip k : source_of_value (source_value k) = Some k.
Proof. by destruct k. Qed.

Lemma agent_roundtrip a : agent_of_value (agent_value a) = Some a.
Proof. by destruct a as [t b [] s l]. Qed.

Lemma json_list_roundtrip {A} (f : json -> option A) (g : A -> json) l :
  (forall a, f (g a) = Some a) -> json_list f (JArray (g <$> l)) = Some l.
Proof. intros Hf. by apply mapM_fmap_Some. Qed.

Lemma item_roundtrip i : item_of_value (item_value i) = Some i.
Proof.
  destruct i as [h q o m]. transitivity (o' ← json_list choice_of_value (JArray (choice_value <$> o)); Some (mkItem h q o' m)); [done|].
  rewrite json_list_roundtrip; [done|]. by intros [].
Qed.

Lemma question_roundtrip q : question_of_value (question_value q) = Some q.
Proof.
  destruct q as [r k t s q].
  transitivity (q' ← json_list item_of_value (JArray (item_value <$> q)); Some (mkQuestion r k t s q')); [done|].
  rewrite json_list_roundtrip; [done|]. apply item_roundtrip.
Qed.

Lemma option_roundtrip {A} (f : json -> option A) (g : A -> json) (o : option A) v key :
  (forall a, f (g a) = Some a) -> (forall a, g a <> JNull) -> json_get v key = Some (option_value g o) ->
  option_field f v key = Some o.
Proof.
  intros Hf Hn Hg. unfold option_field. rewrite Hg. destruct o as [a|]; simpl; [|done]. specialize (Hn a). specialize (Hf a).
  destruct (g a); try done; by rewrite Hf.
Qed.

Lemma held_roundtrip h : fits h -> held_of_value (line_value h) = Some h.
Proof.
  destruct h as [u [seq sid lab k src t ag q at_ms]]. intros [Hs Ha]. unfold he_seq in Hs. simpl in Hs, Ha.
  set (v := line_value _). unfold held_of_value, record_of_value.
  change (json_get v "os_user" ≫= as_string) with (Some u).
  change (json_get v "seq" ≫= json_u64) with (json_u64 (JInt (Z.of_N seq))). rewrite json_u64_of by done.
  change (json_get v "session_id" ≫= as_string) with (Some sid). change (json_get v "label" ≫= as_string) with (Some lab).
  change (json_get v "kind" ≫= kind_of_value) with (kind_of_value (kind_value k)). rewrite kind_roundtrip.
  change (json_get v "source" ≫= source_of_value) with (source_of_value (source_value src)). rewrite source_roundtrip.
  change (json_get v "text" ≫= as_string) with (Some t).
  rewrite (option_roundtrip agent_of_value agent_value ag v "agent"), (option_roundtrip question_of_value question_value q v "question");
    [|apply question_roundtrip|done|done|apply agent_roundtrip|done|done].
  change (json_get v "at_unix_ms" ≫= json_u64) with (json_u64 (JInt (Z.of_N at_ms))). rewrite json_u64_of by done. done.
Qed.

(** ** Lines *)

Lemma split_lines_line l rest : x0a ∉ l -> split_lines (l ++ x0a :: rest) = l :: split_lines rest.
Proof.
  induction l as [|x l IH]; intros Hx; simpl; [done|].
  apply not_elem_of_cons in Hx as [Hx Hl]. rewrite decide_False by done. by rewrite (IH Hl).
Qed.

Lemma strip_cr_id l : x0d ∉ l -> strip_cr l = l.
Proof.
  intros Hx. unfold strip_cr. destruct (last l) as [x|] eqn:E; [|done].
  apply last_Some_elem_of in E. destruct x; try done.
Qed.

Section spec.
Context `{LogPorts}.

(** What the log relies on of [serde_json]: a line's text reads back, has no control
    character, is UTF-8 and not blank, and no proper beginning of it is a JSON object. *)
Class LogText := {
  lt_roundtrip : forall h, line_from_str (line_to_string (line_value h)) = Some (line_value h);
  lt_one_line : forall h, x0a ∉ line_text h;
  lt_no_return : forall h, x0d ∉ line_text h;
  lt_utf8 : forall h, utf8_valid (line_text h) = true;
  lt_not_blank : forall h, trim (line_to_string (line_value h)) <> "";
  lt_whole : forall h p, p `prefix_of` line_text h -> p <> line_text h -> line_from_str (bytes_text p) = None;
}.

(** A line of the file: a record, or what a stop left of one. *)
Inductive chunk := Good (h : Held) | Junk (p : bytes).

Definition chunk_bytes (c : chunk) : bytes := match c with Good h => full_line h | Junk p => p ++ [x0a] end.

Definition chunk_ok (c : chunk) : Prop :=
  match c with
  | Good h => fits h
  | Junk p => x0a ∉ p /\ x0d ∉ p /\ utf8_valid p = true /\ line_from_str (bytes_text p) = None
  end.

Definition chunk_record (c : chunk) : option Held := match c with Good h => Some h | Junk _ => None end.

Definition file_bytes (cs : list chunk) : bytes := concat (chunk_bytes <$> cs).

Lemma file_bytes_app cs cs' : file_bytes (cs ++ cs') = file_bytes cs ++ file_bytes cs'.
Proof. unfold file_bytes. by rewrite fmap_app, concat_app. Qed.

Lemma replay_chunks `{!LogText} cs :
  Forall chunk_ok cs -> exists n, replay_lines (file_lines (file_bytes cs)) = Some (omap chunk_record cs, n) /\ n <= length cs.
Proof.
  induction 1 as [|c cs Hc _ (n & IH & Hn)]; [by exists 0|]. unfold file_lines in *.
  assert (exists l, chunk_bytes c = l ++ [x0a] /\ x0a ∉ l /\ x0d ∉ l /\ utf8_valid l = true) as (l & El & Hx & Hd & Hu).
  { destruct c as [h|p]; simpl in *; [|destruct Hc as (? & ? & ? & _); by exists p]. exists (line_text h). split_and!; [done|apply lt_one_line|apply lt_no_return|apply lt_utf8]. }
  unfold file_bytes. rewrite fmap_cons. simpl. rewrite El, <- (assoc_L (++)). simpl. rewrite split_lines_line by done.
  rewrite fmap_cons. cbn [replay_lines]. rewrite strip_cr_id by done. unfold from_utf8. rewrite Hu. simpl.
  unfold file_bytes in IH. rewrite IH. simpl. destruct c as [h|p]; simpl in *.
  - apply app_inv_tail in El as <-. unfold line_text. rewrite bytes_text_bytes.
    rewrite decide_False by apply lt_not_blank. rewrite lt_roundtrip. simpl. rewrite (held_roundtrip h Hc). exists (S n). split; [done|lia].
  - apply app_inv_tail in El as <-. destruct Hc as (_ & _ & _ & ->). case_decide; simpl; eexists; (split; [done|lia]).
Qed.

Lemma file_bytes_ended cs : end_on_a_line_break (file_bytes cs) = file_bytes cs.
Proof.
  unfold end_on_a_line_break. destruct cs as [|c cs _] using rev_ind; [done|].
  rewrite file_bytes_app. unfold file_bytes at 2. simpl. rewrite app_nil_r.
  assert (exists l, chunk_bytes c = l ++ [x0a]) as [l ->] by (destruct c; simpl; by eexists).
  by rewrite (assoc_L (++)), last_snoc, decide_True.
Qed.

(** ** The window *)

(** The last [n] elements. *)
Definition newest {A} (n : nat) (l : list A) : list A := drop (length l - n) l.

Lemma newest_suffix {A} n (old l : list A) : n `min` length (old ++ l) <= length l -> newest n (old ++ l) = newest n l.
Proof.
  unfold newest. rewrite length_app. intros Hn. destruct (decide (n <= length l)).
  - rewrite drop_app_ge by lia. f_equal. lia.
  - assert (length old = 0) as ->%nil_length_inv by lia. done.
Qed.

Lemma tail_drop1 {A} (l : list A) : tail l = drop 1 l.
Proof. by destruct l. Qed.

Lemma newest_snoc {A} n (l : list A) x :
  newest n (l ++ [x]) = if decide (n < length (newest n l ++ [x])) then tail (newest n l ++ [x]) else newest n l ++ [x].
Proof.
  unfold newest. rewrite !length_app, length_drop. simpl. case_decide as E.
  - destruct n as [|n].
    + rewrite !drop_ge by (rewrite ?length_app; simpl; lia). done.
    + replace (length l + 1 - S n) with (S (length l - S n)) by lia.
      rewrite <- drop_app_le by lia. rewrite (tail_drop1 (drop _ _)), drop_drop. f_equal. lia.
  - replace (length l + 1 - n) with 0 by lia. replace (length l - n) with 0 by lia. done.
Qed.

(** ** A project *)

Lemma cap_pos : 0 < PROJECT_NOTIFICATION_CAPACITY.
Proof. unfold PROJECT_NOTIFICATION_CAPACITY. lia. Qed.

#[local] Opaque PROJECT_NOTIFICATION_CAPACITY.

(** The records of a project: numbered from one, without gaps. *)
Record history_ok (h : list Held) : Prop := {
  ho_seqs : forall i r, h !! i = Some r -> he_seq r = N.of_nat (S i);
  ho_fits : Forall fits h;
}.

(** The file holds a suffix of them that reaches over the window. *)
Definition file_ok (h : list Held) (file : bytes) : Prop :=
  exists cs, file = file_bytes cs /\ Forall chunk_ok cs /\ (exists old, h = old ++ omap chunk_record cs) /\
    PROJECT_NOTIFICATION_CAPACITY `min` length h <= length (omap chunk_record cs).

Record state_ok (h : list Held) (p : ProjectState) : Prop := {
  so_window : pj_window p = newest PROJECT_NOTIFICATION_CAPACITY h;
  so_newest : pj_newest_seq p = N.of_nat (length h);
}.

Lemma max_seq_bound h m : (forall r, r ∈ h -> he_seq r <= m)%N -> (foldr (fun r m => N.max (he_seq r) m) 0 h <= m)%N.
Proof.
  induction h as [|r h IH]; simpl; intros Hb; [lia|]. apply N.max_lub; [apply Hb; left|]. apply IH. intros; apply Hb; by right.
Qed.

Lemma max_seq_reached h r : r ∈ h -> (he_seq r <= foldr (fun r m => N.max (he_seq r) m) 0 h)%N.
Proof. induction 1; simpl; lia. Qed.

Lemma seq_bound h r : history_ok h -> r ∈ h -> (he_seq r <= N.of_nat (length h))%N.
Proof. intros [Hs _] (i & Hi)%list_elem_of_lookup. rewrite (Hs _ _ Hi). apply lookup_lt_Some in Hi. lia. Qed.

Lemma restored_ok h old l n :
  history_ok h -> h = old ++ l -> PROJECT_NOTIFICATION_CAPACITY `min` length h <= length l -> state_ok h (restored l n).
Proof.
  intros Hh El Hn. split; simpl.
  - subst h. by rewrite newest_suffix.
  - destruct (decide (l = [])) as [->|Hne].
    + assert (h = []) as -> by (apply nil_length_inv; pose proof cap_pos; cbn [length] in Hn; lia). done.
    + destruct (last l) as [r|] eqn:Er; [|by apply last_None in Er].
      assert (r ∈ l) as Hr by (by apply last_Some_elem_of).
      assert (h !! (length h - 1) = Some r) as Hlast.
      { rewrite last_lookup in Er. subst h. destruct l; [done|]. rewrite lookup_app_r by (rewrite length_app; simpl; lia).
        rewrite <- Er. f_equal. rewrite length_app. simpl. lia. }
      pose proof (ho_seqs _ Hh _ _ Hlast) as Hseq. apply lookup_lt_Some in Hlast.
      apply N.le_antisymm.
      * apply max_seq_bound. intros x Hx. apply seq_bound; [done|]. subst h. apply elem_of_app. by right.
      * etransitivity; [|by apply max_seq_reached]. lia.
Qed.

Lemma push_ok h r p lines :
  state_ok h p -> he_seq r = N.of_nat (S (length h)) ->
  state_ok (h ++ [r]) (mkProjectState (push_window r (pj_window p)) (he_seq r) lines).
Proof.
  intros [Hw _] Hr. split; simpl; [|rewrite Hr, length_app; simpl; lia].
  unfold push_window. rewrite Hw, newest_snoc. done.
Qed.

Lemma history_snoc h r : history_ok h -> fits r -> he_seq r = N.of_nat (S (length h)) -> history_ok (h ++ [r]).
Proof.
  intros [Hs Hf] Hr Hseq. split; [|apply Forall_app; split; [done|by apply Forall_singleton]].
  intros i x [Hx|[Hi Hx]]%lookup_app_Some; [by apply Hs|]. apply list_lookup_singleton_Some in Hx as [Hz <-]. rewrite Hseq. f_equal. lia.
Qed.

Lemma file_snoc h file r : file_ok h file -> fits r -> file_ok (h ++ [r]) (file ++ full_line r).
Proof.
  intros (cs & -> & Hcs & (old & Eh) & Hn) Hr. exists (cs ++ [Good r]). split_and!.
  - rewrite file_bytes_app. unfold file_bytes at 3. simpl. by rewrite app_nil_r.
  - apply Forall_app. split; [done|by apply Forall_singleton].
  - exists old. rewrite omap_app, (assoc_L (++)), <- Eh. done.
  - rewrite omap_app, !length_app. simpl. lia.
Qed.

Lemma omap_good (l : list Held) : omap chunk_record (Good <$> l) = l.
Proof. induction l as [|x l IH]; simpl; [done|]. f_equal. exact IH. Qed.

Lemma file_rewritten h : history_ok h -> file_ok h (concat (full_line <$> newest PROJECT_NOTIFICATION_CAPACITY h)).
Proof.
  intros [_ Hf]. exists (Good <$> newest PROJECT_NOTIFICATION_CAPACITY h). unfold file_bytes. rewrite omap_good. split_and!.
  - by rewrite <- list_fmap_compose.
  - apply Forall_fmap. unfold newest. by apply Forall_drop.
  - exists (take (length h - PROJECT_NOTIFICATION_CAPACITY) h). unfold newest. by rewrite take_drop.
  - unfold newest. rewrite length_drop. lia.
Qed.

Lemma line_nonempty `{!LogText} r : line_text r <> [].
Proof.
  intros E. apply (lt_not_blank r). unfold line_text in E.
  assert (line_to_string (line_value r) = "") as -> by (rewrite <- (bytes_text_bytes (line_to_string (line_value r))), E; done). done.
Qed.

(** What a stop within an append leaves, once the file is ended on a line break. *)
Lemma file_cut `{!LogText} h file r n :
  file_ok h file -> fits r -> utf8_valid (take n (line_text r)) = true ->
  file_ok (if decide (length (line_text r) <= n) then h ++ [r] else h) (end_on_a_line_break (file ++ take n (full_line r))).
Proof.
  intros Hfile Hr Hu. case_decide as Hn.
  - assert (end_on_a_line_break (file ++ take n (full_line r)) = file ++ full_line r) as ->; [|by apply file_snoc].
    unfold full_line. destruct (decide (n = length (line_text r))) as [->|Hne].
    + rewrite take_app_length. unfold end_on_a_line_break.
      destruct (last (file ++ line_text r)) as [x|] eqn:E.
      * rewrite decide_False; [by rewrite (assoc_L (++))|]. intros ->.
        pose proof (line_nonempty r) as Hne.
        rewrite last_app in E. destruct (last (line_text r)) as [y|] eqn:Ey; [|by apply last_None in Ey].
        injection E as ->. apply (lt_one_line r). by apply last_Some_elem_of.
      * apply last_None in E. apply app_eq_nil in E as [_ E]. by apply line_nonempty in E.
    + rewrite take_ge by (rewrite length_app; simpl; lia).
      unfold end_on_a_line_break. by rewrite (assoc_L (++)), last_snoc, decide_True.
  - unfold full_line. rewrite take_app_le by lia. destruct Hfile as (cs & -> & Hcs & Hold & Hlen).
    destruct (decide (take n (line_text r) = [])) as [->|Hne].
    { exists cs. rewrite app_nil_r, file_bytes_ended. done. }
    exists (cs ++ [Junk (take n (line_text r))]).
    assert (take n (line_text r) `prefix_of` line_text r) as Hpre by (exists (drop n (line_text r)); by rewrite take_drop).
    assert (forall x, x ∈ take n (line_text r) -> x ∈ line_text r) as Hin 
      by (intros x; apply (sublist_subseteq _ _ (sublist_take _ _))).
    split_and!.
    + unfold end_on_a_line_break. rewrite last_app. destruct (last (take n (line_text r))) as [x|] eqn:E; [|by apply last_None in E].
      rewrite decide_False; [rewrite file_bytes_app; unfold file_bytes at 3; simpl; by rewrite app_nil_r, (assoc_L (++))|].
      intros ->. apply (lt_one_line r), Hin. by apply last_Some_elem_of.
    + apply Forall_app. split; [done|]. apply Forall_singleton. split_and!; [intros ?%Hin; by eapply lt_one_line|intros ?%Hin; by eapply lt_no_return|done|].
      apply (lt_whole r); [done|]. intros E. apply (f_equal length) in E. rewrite length_take in E. lia.
    + rewrite omap_app. simpl. by rewrite app_nil_r.
    + rewrite omap_app. simpl. by rewrite app_nil_r.
Qed.

(** ** The log *)

Notation histories := (gmap string (list Held)) (only parsing).

Definition history_of (id : string) (hs : histories) : list Held := default [] (hs !! id).

Definition files_ok (hs : histories) (w : LogWorld) : Prop :=
  lw_unreadable w = ∅ /\ forall id, history_ok (history_of id hs) /\ file_ok (history_of id hs) (end_on_a_line_break (file_of id w)).

Record log_ok (hs : histories) (s : NotificationLog) : Prop := {
  lo_readable : lw_unreadable (nl_disk s) = ∅;
  lo_history : forall id, history_ok (history_of id hs);
  lo_file : forall id, file_ok (history_of id hs) (file_of id (nl_disk s));
  lo_state : forall id, state_ok (history_of id hs) (project id s);
}.

Lemma file_ok_ended h file : file_ok h file -> end_on_a_line_break file = file.
Proof. intros (cs & -> & _). apply file_bytes_ended. Qed.

Lemma log_files hs s : log_ok hs s -> files_ok hs (nl_disk s).
Proof.
  intros [Hr Hh Hf _]. split; [done|]. intros id. split; [apply Hh|]. by rewrite (file_ok_ended _ _ (Hf id)).
Qed.

Lemma replay_all_ok (rep : string -> list Held * nat) (files : string -> bytes) ids w :
  lw_unreadable w = ∅ ->
  (forall id, id ∈ ids -> replay_lines (file_lines (end_on_a_line_break (files id))) = Some (rep id)) ->
  exists w', replay_all ((fun id => (id, files id)) <$> ids) w =
      (Ok ((fun id => (id, restored (rep id).1 (rep id).2)) <$> ids), w') /\
    lw_unreadable w' = ∅ /\
    forall id, lw_files w' !! id = if decide (id ∈ ids) then Some (end_on_a_line_break (files id)) else lw_files w !! id.
Proof.
  intros Hu. revert w Hu. induction ids as [|a ids IH]; intros w Hu Hrep.
  { exists w. by split_and!. }
  rewrite fmap_cons. cbn [replay_all]. unfold io_bind, replay_file. rewrite decide_False by (rewrite Hu; set_solver).
  rewrite (Hrep a) by left.
  destruct (IH (mkLogWorld (<[a := end_on_a_line_break (files a)]> (lw_files w)) (lw_unreadable w)) Hu) as (w' & Hr & Hu' & Hf).
  { intros id Hid. apply Hrep. by right. }
  rewrite Hr. exists w'. split_and!; [done|done|]. intros id. rewrite Hf. simpl.
  destruct (decide (id ∈ ids)); [rewrite decide_True by (by right); done|].
  destruct (decide (id = a)) as [->|Hne]; [rewrite decide_True by left; by rewrite lookup_insert_eq|].
  rewrite decide_False; [by rewrite lookup_insert_ne|]. intros [?|?]%elem_of_cons; done.
Qed.

(** A log opens over such files, and shows what they hold. *)
Lemma open_ok `{!LogText} hs w entries :
  files_ok hs w -> entries ≡ₚ elements (dom (lw_files w)) ->
  exists s w', open_log entries w = (Ok s, w') /\ log_ok hs s.
Proof.
  intros [Hu Hf] Hperm. unfold open_log.
  set (rep := fun id => default ([], 0) (replay_lines (file_lines (end_on_a_line_break (file_of id w))))).
  assert (forall id, replay_lines (file_lines (end_on_a_line_break (file_of id w))) = Some (rep id) /\
    state_ok (history_of id hs) (restored (rep id).1 (rep id).2)) as Hrep.
  { intros id. destruct (Hf id) as [Hh (cs & Ecs & Hcs & (old & Eold) & Hn)]. unfold rep. rewrite Ecs.
    destruct (replay_chunks cs Hcs) as (n & -> & _). split; [done|]. by eapply restored_ok. }
  destruct (replay_all_ok rep (fun id => file_of id w) entries w Hu) as (w' & Hr & Hu' & Hfiles); [intros id _; apply Hrep|].
  unfold file_of in Hr at 1. rewrite Hr. eexists _, w'. split; [done|].
  assert (forall id, id ∈ entries <-> is_Some (lw_files w !! id)) as Hin.
  { intros id. by rewrite Hperm, elem_of_elements, elem_of_dom. }
  split; simpl; [done|intros; apply Hf| |].
  - intros id. destruct (Hf id) as [_ Hok]. unfold file_of in *. simpl. rewrite Hfiles. case_decide as E; [done|].
    rewrite Hin in E. apply eq_None_not_Some in E. rewrite E in *. done.
  - intros id. destruct (Hrep id) as [_ Hst]. unfold project. simpl.
    destruct (decide (id ∈ entries)) as [E|E].
    + rewrite (elem_of_list_to_map_1 _ id (restored (rep id).1 (rep id).2)); [done| |].
      * rewrite <- list_fmap_compose. simpl. rewrite list_fmap_id. rewrite Hperm. apply NoDup_elements.
      * apply list_elem_of_fmap. by exists id.
    + rewrite not_elem_of_list_to_map_1; [|rewrite <- list_fmap_compose; simpl; by rewrite list_fmap_id].
      simpl. destruct (Hf id) as [Hh Hok]. rewrite Hin in E. apply eq_None_not_Some in E.
      unfold file_of in Hok. rewrite E in Hok. simpl in Hok.
      destruct Hok as (cs & Ecs & Hcs & _ & Hn). destruct cs as [|c cs].
      * assert (history_of id hs = []) as -> by (apply nil_length_inv; pose proof cap_pos; cbn [omap list_omap length] in Hn; lia). done.
      * exfalso. unfold end_on_a_line_break in Ecs. simpl in Ecs. unfold file_bytes in Ecs. simpl in Ecs. symmetry in Ecs.
        apply app_eq_nil in Ecs as [Ecs _]. destruct c; simpl in Ecs; by apply app_eq_nil in Ecs as [_ ?].
Qed.

(** ** Deliveries *)

(** The project whose file a notification is recorded in, if it is. *)
Definition target (n : SessionNotification) : option string :=
  match project_of n with
  | Ok (Some id) => if names_a_directory id then Some id else None
  | _ => None
  end.

Definition notification_fits (n : SessionNotification) : Prop := (sn_at_unix_ms n <= u64_max)%N.

(** The record a delivery makes. *)
Definition next_held (n : SessionNotification) (h : list Held) : Held := held_of n (N.of_nat (S (length h))).

Definition recorded (n : SessionNotification) (id : string) (hs : histories) : histories :=
  <[id := history_of id hs ++ [next_held n (history_of id hs)]]> hs.

Lemma history_recorded n id hs o :
  history_of o (recorded n id hs) = if decide (o = id) then history_of id hs ++ [next_held n (history_of id hs)] else history_of o hs.
Proof.
  unfold recorded, history_of. case_decide as E; [subst; by rewrite lookup_insert_eq|]. by rewrite lookup_insert_ne.
Qed.

Lemma next_held_fits n h : notification_fits n -> (N.of_nat (S (length h)) <= u64_max)%N -> fits (next_held n h).
Proof. intros Hn Hl. by split. Qed.

Lemma file_of_write id b w o : file_of o (write_file id b w) = if decide (o = id) then b else file_of o w.
Proof. unfold file_of, write_file. simpl. case_decide as E; [subst; by rewrite lookup_insert_eq|]. by rewrite lookup_insert_ne. Qed.

Lemma project_insert id p s o d :
  project o (mkLog d (<[id := p]> (nl_projects s))) = if decide (o = id) then p else project o s.
Proof. unfold project. simpl. case_decide as E; [subst; by rewrite lookup_insert_eq|]. by rewrite lookup_insert_ne. Qed.

(** Recording a record once it is appended. *)
Lemma record_held_ok hs n id rw s d :
  log_ok hs s -> notification_fits n -> (N.of_nat (S (length (history_of id hs))) <= u64_max)%N ->
  let r := next_held n (history_of id hs) in
  let s1 := mkLog (write_file id (file_of id (nl_disk s) ++ full_line r) (nl_disk s)) (<[id := d]> (nl_projects s)) in
  d = project id s -> log_ok (recorded n id hs) (record_held id r rw s1).
Proof.
  intros [Hr Hh Hf Hs] Hn Hl r s1 ->. pose proof (next_held_fits n _ Hn Hl) as Hfit. fold r in Hfit.
  assert (history_ok (history_of id hs ++ [r])) as Hh' by (by apply history_snoc).
  assert (forall o, history_ok (history_of o (recorded n id hs))) as Hhist by (intros o; rewrite history_recorded; by case_decide).
  assert (project id s1 = project id s) as Ep by (unfold s1; by rewrite project_insert, decide_True).
  pose proof (push_ok _ r _ 0 (Hs id) eq_refl) as Hwin. pose proof (so_window _ _ Hwin) as Ew. simpl in Ew.
  unfold record_held. rewrite Ep.
  set (win := push_window r (pj_window (project id s))) in *.
  assert (forall b lines, file_ok (history_of id hs ++ [r]) b ->
    log_ok (recorded n id hs) (mkLog (write_file id b (nl_disk s)) (<[id := mkProjectState win (he_seq r) lines]> (nl_projects s1)))) as Hgo.
  { intros b lines Hb. split; [done|done| |].
    - intros o. cbn [nl_disk]. rewrite file_of_write, history_recorded. by case_decide.
    - intros o. rewrite project_insert, history_recorded. case_decide as E; [by apply push_ok|].
      unfold s1. rewrite project_insert, decide_False by done. apply Hs. }
  assert (forall b b', write_file id b (write_file id b' (nl_disk s)) = write_file id b (nl_disk s)) as Hww.
  { intros b b'. unfold write_file. simpl. by rewrite insert_insert_eq. }
  pose proof (file_snoc _ _ r (Hf id) Hfit) as Hsnoc.
  case_decide; [|by apply Hgo]. unfold rewrite. cbn [nl_disk s1]. rewrite Hww.
  assert (file_ok (history_of id hs ++ [r]) (concat (full_line <$> win))) as Hrw by (rewrite Ew; by apply file_rewritten).
  destruct rw as [|[]]; by apply Hgo.
Qed.

(** A failed append leaves nothing behind. *)
Definition clean_append (a : append_answer) : Prop := match a with Appended => True | AppendFailed n _ => n = 0 end.

Lemma log_ok_same hs s id :
  log_ok hs s -> log_ok hs (mkLog (write_file id (file_of id (nl_disk s)) (nl_disk s)) (<[id := project id s]> (nl_projects s))).
Proof.
  intros [Hr Hh Hf Hs]. split; [done|done| |].
  - intros o. cbn [nl_disk]. rewrite file_of_write. case_decide; [by subst|apply Hf].
  - intros o. rewrite project_insert. case_decide; [by subst|apply Hs].
Qed.

Lemma deliver_ok oc n a rw hs s r s' :
  log_ok hs s -> notification_fits n -> clean_append a -> (forall id, (N.of_nat (S (length (history_of id hs))) <= u64_max)%N) ->
  deliver oc n a rw s = (r, s') ->
  match r, target n with
  | Ok _, Some id => log_ok (recorded n id hs) s'
  | Panic, _ => False
  | _, _ => log_ok hs s'
  end.
Proof.
  intros Hok Hn Ha Hl. unfold deliver, target.
  assert (project_of n <> Panic) as Hnp.
  { unfold project_of, validate_session_id_segment. repeat case_match; simpl; try done; repeat case_match; done. }
  destruct (project_of n) as [[id|]|e|]; [|by intros [= <- <-]..|done].
  unfold project_file. destruct (names_a_directory id); [|by intros [= <- <-]].
  rewrite project_insert, decide_True by done. cbn [nl_disk nl_projects].
  rewrite (so_newest _ _ (lo_state _ _ Hok id)). unfold u64_add. rewrite decide_True by (specialize (Hl id); lia).
  replace (held_of n (N.of_nat (length (history_of id hs)) + 1)) with (next_held n (history_of id hs)) by (unfold next_held; f_equal; lia).
  destruct a as [|k m]; cbn [append].
  - intros [= <- <-]. by apply record_held_ok.
  - simpl in Ha. subst k. rewrite take_0, app_nil_r. intros [= <- <-]. by apply log_ok_same.
Qed.

(** ** Reads *)

Lemma filter_numbered c b l :
  (forall i x, l !! i = Some x -> he_seq x = N.of_nat (S (b + i))) ->
  filter (fun x => (N.of_nat c < he_seq x)%N) l = drop (c - b) l.
Proof.
  revert b. induction l as [|x l IH]; intros b Hl; [by rewrite drop_nil|]. rewrite filter_cons.
  pose proof (Hl 0 x eq_refl) as Hx. rewrite Nat.add_0_r in Hx.
  rewrite (IH (S b)). 2: { intros i y Hy. rewrite (Hl (S i) y Hy). f_equal. lia. }
  case_decide as E.
  - replace (c - b) with 0 by lia. by replace (c - S b) with 0 by lia.
  - replace (c - b) with (S (c - S b)) by lia. done.
Qed.

Notation vis scope := (fun x => visible_to scope x = true).

Lemma visible_after scope h c :
  history_ok h ->
  filter (fun x => (N.of_nat c < he_seq x)%N) (filter (vis scope) (newest PROJECT_NOTIFICATION_CAPACITY h)) =
    filter (vis scope) (drop (c `max` (length h - PROJECT_NOTIFICATION_CAPACITY)) h).
Proof.
  intros Hh. unfold newest. set (k := length h - PROJECT_NOTIFICATION_CAPACITY).
  transitivity (filter (vis scope) (filter (fun x => (N.of_nat c < he_seq x)%N) (drop k h))).
  { rewrite !list_filter_filter. apply list_filter_iff. tauto. }
  f_equal. rewrite (filter_numbered c k).
  - rewrite drop_drop. f_equal. lia.
  - intros i x Hx. rewrite lookup_drop in Hx. by apply (ho_seqs _ Hh).
Qed.

(** A page ends at its last record. *)
Lemma take_filter_last {A} (P : A -> Prop) `{forall x, Decision (P x)} n (l : list A) x :
  last (take n (filter P l)) = Some x ->
  exists m, take n (filter P l) = filter P (take (S m) l) /\ l !! m = Some x.
Proof.
  revert n. induction l as [|y l IH]; intros n; [by rewrite filter_nil, take_nil|].
  rewrite filter_cons. case_decide as Hy.
  - destruct n as [|n]; [done|]. rewrite firstn_cons. destruct (take n (filter P l)) as [|z zs] eqn:E.
    + intros [= ->]. exists 0. rewrite firstn_cons, filter_cons_True by done. by rewrite take_0.
    + rewrite last_cons_cons, <- E. intros (m & Em & Hm)%IH. exists (S m). rewrite firstn_cons, filter_cons_True by done.
      by rewrite <- Em.
  - intros (m & Em & Hm)%IH. exists (S m). rewrite firstn_cons, filter_cons_False by done. done.
Qed.

Lemma page_size_pos limit : 0 < (page_size limit).1.
Proof.
  unfold page_size, FOLLOW_PAGE_DEFAULT, FOLLOW_PAGE_MAX. destruct limit as [[|n]|]; simpl; [lia| |lia]. case_decide; simpl; lia.
Qed.

Lemma parse_cursor_of n : (n <= u64_max)%N -> parse_cursor (pretty n) = Ok (Some n).
Proof.
  intros Hn. unfold parse_cursor. destruct (pretty_plain n) as [Hp Hne]. rewrite trim_plain by done.
  rewrite decide_False by done. unfold parse_u64. by rewrite parse_unsigned_pretty.
Qed.

(** What a page after [c] holds: the visible records from [c] on, those evicted apart, up
    to the new cursor. *)
Lemma page_of_spec h p scope c size :
  history_ok h -> state_ok h p -> c <= length h -> 0 < size.1 ->
  let k := length h - PROJECT_NOTIFICATION_CAPACITY in
  let '(page, lost) := page_of p scope (After (N.of_nat c)) size in
  lost = N.of_nat (k - c) /\
  exists c', pg_next_cursor page = pretty (N.of_nat c') /\ c `max` k <= c' <= length h /\
    pg_items page = he_record <$> filter (vis scope) (drop (c `max` k) (take c' h)) /\
    (pg_has_more page = false -> filter (vis scope) (drop c' h) = []).
Proof.
  intros Hh Hp Hc Hsize k. unfold page_of. rewrite (so_window _ _ Hp), visible_after by done. fold k.
  set (rest := filter (vis scope) (drop (c `max` k) h)). split.
  { unfold lost_after. rewrite (so_window _ _ Hp). destruct (newest PROJECT_NOTIFICATION_CAPACITY h) as [|x l] eqn:E.
    - assert (length h - k = 0) as Hz by (unfold k; rewrite <- length_drop; unfold newest in E; by rewrite E).
      pose proof cap_pos. assert (length h = 0) by (unfold k in *; lia). unfold k. lia.
    - assert (h !! k = Some x) as Hx by (unfold newest in E; fold k in E; rewrite <- (Nat.add_0_r k), <- lookup_drop, E; done).
      rewrite (ho_seqs _ Hh _ _ Hx). lia. }
  destruct (last (take size.1 rest)) as [x|] eqn:El.
  - destruct (take_filter_last _ _ _ _ El) as (m & Em & Hm). rewrite lookup_drop in Hm. fold rest in Em.
    exists (S (c `max` k + m)). simpl. rewrite (ho_seqs _ Hh _ _ Hm). pose proof (lookup_lt_Some _ _ _ Hm).
    split_and!; [done|lia|lia| |].
    + f_equal. rewrite Em. f_equal. rewrite skipn_firstn_comm || rewrite <- take_drop_commute. f_equal. lia.
    + intros Hmore%bool_decide_eq_false. rewrite take_ge in Em by lia.
      assert (rest = filter (vis scope) (take (S m) (drop (c `max` k) h)) ++ filter (vis scope) (drop (S m) (drop (c `max` k) h))) as Er.
      { rewrite <- filter_app, take_drop. done. }
      rewrite Em in Er at 1. rewrite <- (app_nil_r (filter _ (take (S m) _))) in Er at 1. apply app_inv_head in Er.
      rewrite drop_drop in Er. rewrite Er. f_equal. f_equal. lia.
  - apply last_None in El. assert (rest = []) as Hrest by (destruct rest; [done|]; destruct (size.1); [lia|done]).
    exists (length h). rewrite Hrest, take_nil. simpl. rewrite (so_newest _ _ Hp). split_and!; [done|lia|lia| |].
    + rewrite take_ge by lia. fold rest. by rewrite Hrest.
    + intros _. by rewrite drop_ge.
Qed.

(** ** A reader among deliveries and restarts *)

Record follower := mkFollower { fo_cursor : string; fo_items : list ProjectNotificationRecord; fo_lost : N }.

(** [sy_history] is what was recorded; the log does not have it. *)
Record log_system := mkSystem { sy_log : NotificationLog; sy_history : histories; sy_follower : follower }.

(** The record an append makes. *)
Definition appended (n : SessionNotification) (id : string) (log : NotificationLog) : Held :=
  held_of n (pj_newest_seq (project id log) + 1).

Definition noted (r : Held) (id : string) (hs : histories) : histories := <[id := history_of id hs ++ [r]]> hs.

(** The disk after a stop within an append. *)
Definition cut_disk (n : SessionNotification) (id : string) (written : nat) (log : NotificationLog) : LogWorld :=
  write_file id (file_of id (nl_disk log) ++ take written (full_line (appended n id log))) (nl_disk log).

(** A delivery; a restart between calls; a stop within an append, between two characters,
    and the restart after it; and a read from the reader's cursor. *)
Inductive log_step (oc : bool) (scope : ProjectNotificationScope) : log_system -> log_system -> Prop :=
| step_deliver n a rw r log log' hs f :
    notification_fits n -> clean_append a -> deliver oc n a rw log = (r, log') ->
    log_step oc scope (mkSystem log hs f)
      (mkSystem log' (match r, target n with Ok _, Some id => noted (appended n id log) id hs | _, _ => hs end) f)
| step_restart entries log log' w hs f :
    entries ≡ₚ elements (dom (lw_files (nl_disk log))) -> open_log entries (nl_disk log) = (Ok log', w) ->
    log_step oc scope (mkSystem log hs f) (mkSystem log' hs f)
| step_cut n id written entries log log' w hs f :
    notification_fits n -> target n = Some id -> utf8_valid (take written (line_text (appended n id log))) = true ->
    entries ≡ₚ elements (dom (lw_files (cut_disk n id written log))) -> open_log entries (cut_disk n id written log) = (Ok log', w) ->
    log_step oc scope (mkSystem log hs f)
      (mkSystem log' (if decide (length (line_text (appended n id log)) <= written) then noted (appended n id log) id hs else hs) f)
| step_read limit page lost log hs f :
    read scope (fo_cursor f) limit log = Ok (page, lost) ->
    log_step oc scope (mkSystem log hs f)
      (mkSystem log hs (mkFollower (pg_next_cursor page) (fo_items f ++ pg_items page) (fo_lost f + lost))).

(** An empty data directory, and a reader that has read nothing. *)
Definition log_start : log_system := mkSystem (mkLog (mkLogWorld ∅ ∅) ∅) ∅ (mkFollower "0" [] 0).

Lemma sublist_whole {A} (l l' : list A) : l `sublist_of` l' -> length l' <= length l -> l = l'.
Proof.
  induction 1 as [|x l l' Hs IH|x l l' Hs IH]; simpl; intros Hn; [done| |].
  - f_equal. apply IH. lia.
  - apply sublist_length in Hs. lia.
Qed.

(** The reader has got everything it may see of the first [c] records but what it was told is lost. *)
Definition follower_ok (scope : ProjectNotificationScope) (h : list Held) (f : follower) : Prop :=
  exists c, fo_cursor f = pretty (N.of_nat c) /\ c <= length h /\
    fo_items f `sublist_of` (he_record <$> filter (vis scope) (take c h)) /\
    length (filter (vis scope) (take c h)) <= length (fo_items f) + N.to_nat (fo_lost f).

Lemma follower_snoc scope h r f : follower_ok scope h f -> follower_ok scope (h ++ [r]) f.
Proof.
  intros (c & Hc & Hl & Hi & Hn). exists c. rewrite length_app, take_app_le by done. split_and!; [done|lia|done|done].
Qed.

Lemma follower_note scope r id hs f :
  follower_ok scope (history_of (sc_project_id scope) hs) f -> follower_ok scope (history_of (sc_project_id scope) (noted r id hs)) f.
Proof.
  intros Hf. unfold noted, history_of. destruct (decide (sc_project_id scope = id)) as [<-|Hne].
  - rewrite lookup_insert_eq. by apply follower_snoc.
  - by rewrite lookup_insert_ne.
Qed.

Lemma read_ok scope h f limit log page lost :
  history_ok h -> state_ok h (project (sc_project_id scope) log) -> (N.of_nat (length h) <= u64_max)%N ->
  follower_ok scope h f -> read scope (fo_cursor f) limit log = Ok (page, lost) ->
  follower_ok scope h (mkFollower (pg_next_cursor page) (fo_items f ++ pg_items page) (fo_lost f + lost)).
Proof.
  intros Hh Hs Hm (c & Hc & Hl & Hi & Hn). unfold read. rewrite Hc, parse_cursor_of by lia. cbn [res_bind].
  pose proof (page_of_spec h _ scope c (page_size limit) Hh Hs Hl (page_size_pos limit)) as Hp.
  destruct (page_of _ _ _ _) as [page' lost']. intros [= -> ->].
  destruct Hp as (-> & c' & Hnext & [Hlo Hhi] & Hitems & _). set (k := length h - PROJECT_NOTIFICATION_CAPACITY) in *.
  exists c'. cbn [fo_cursor fo_items fo_lost]. split_and!; [done|done| |].
  - rewrite Hitems. assert (take c' h = take (c `max` k) h ++ drop (c `max` k) (take c' h)) as E.
    { rewrite <- (take_drop (c `max` k) (take c' h)) at 1. f_equal. rewrite take_take. f_equal. lia. }
    set (page_part := drop (c `max` k) (take c' h)) in *. rewrite E, filter_app, fmap_app. apply sublist_app; [|done].
    etransitivity; [exact Hi|]. apply fmap_sublist. rewrite <- (take_drop c (take (c `max` k) h)), filter_app, take_take.
    replace (c `min` (c `max` k)) with c by lia. apply sublist_inserts_r. done.
  - rewrite Hitems. assert (take c' h = take c h ++ take (k - c) (drop c h) ++ drop (c `max` k) (take c' h)) as E.
    { rewrite <- (take_drop c (take c' h)) at 1. rewrite take_take. replace (c `min` c') with c by lia. f_equal.
      rewrite <- (take_drop (k - c) (drop c (take c' h))) at 1. f_equal.
      - rewrite skipn_firstn_comm, take_take. f_equal. lia.
      - rewrite drop_drop. f_equal. lia. }
    set (page_part := drop (c `max` k) (take c' h)) in *. rewrite E, !filter_app, !length_app, length_fmap.
    pose proof (length_filter (vis scope) (take (k - c) (drop c h))) as Hf. rewrite length_take in Hf. lia.
Qed.

Record system_ok (scope : ProjectNotificationScope) (j : nat) (s : log_system) : Prop := {
  sk_log : log_ok (sy_history s) (sy_log s);
  sk_length : forall id, length (history_of id (sy_history s)) <= j;
  sk_follower : follower_ok scope (history_of (sc_project_id scope) (sy_history s)) (sy_follower s);
}.

Lemma appended_next hs n id log : log_ok hs log -> appended n id log = next_held n (history_of id hs).
Proof. intros Hok. unfold appended, next_held. rewrite (so_newest _ _ (lo_state _ _ Hok id)). f_equal. lia. Qed.

Lemma note_length r id hs j o :
  (forall o, length (history_of o hs) <= j) -> length (history_of o (noted r id hs)) <= S j.
Proof.
  intros Hj. unfold noted, history_of. destruct (decide (o = id)) as [->|Hne].
  - rewrite lookup_insert_eq. simpl. rewrite length_app. simpl. specialize (Hj id). unfold history_of in Hj. lia.
  - rewrite lookup_insert_ne by done. specialize (Hj o). unfold history_of in Hj. lia.
Qed.

Lemma cut_files `{!LogText} hs n id written log :
  log_ok hs log -> notification_fits n -> (N.of_nat (S (length (history_of id hs))) <= u64_max)%N ->
  utf8_valid (take written (line_text (appended n id log))) = true ->
  files_ok (if decide (length (line_text (appended n id log)) <= written) then noted (appended n id log) id hs else hs)
    (cut_disk n id written log).
Proof.
  intros Hok Hn Hl Hu. rewrite (appended_next hs) in * by done. unfold cut_disk. rewrite (appended_next hs) by done.
  set (r := next_held n (history_of id hs)) in *. pose proof (next_held_fits n _ Hn Hl) as Hfit. fold r in Hfit.
  pose proof (file_cut _ _ r written (lo_file _ _ Hok id) Hfit Hu) as Hcut.
  split; [apply Hok|]. intros o. rewrite file_of_write. destruct (log_files _ _ Hok) as [_ Hf].
  destruct (decide (o = id)) as [->|Hne].
  - case_decide; [|by split; [apply Hok|]]. unfold noted, history_of. rewrite lookup_insert_eq. simpl.
    split; [by apply history_snoc; [apply Hok| |]|done].
  - case_decide; [|apply Hf]. unfold noted, history_of. rewrite lookup_insert_ne by done. apply Hf.
Qed.

Lemma log_step_ok `{!LogText} oc scope j s s' :
  system_ok scope j s -> (N.of_nat (S j) <= u64_max)%N -> log_step oc scope s s' -> system_ok scope (S j) s'.
Proof.
  intros [Hlog Hlen Hfol] Hj Hstep. simpl in *.
  assert (forall id, (N.of_nat (S (length (history_of id (sy_history s)))) <= u64_max)%N) as Hmax by (intros id; specialize (Hlen id); lia).
  assert (forall id, length (history_of id (sy_history s)) <= S j) as Hlen' by (intros id; specialize (Hlen id); lia).
  destruct Hstep as [n a rw r log log' hs f Hn Ha Hd|entries log log' w hs f Hp Ho|n id written entries log log' w hs f Hn Ht Hu Hp Ho|
    limit page lost log hs f Hr]; simpl in *.
  - pose proof (deliver_ok oc n a rw hs log r log' Hlog Hn Ha Hmax Hd) as Hok.
    destruct r as [[]|e|]; [|by split|done]. destruct (target n) as [id|]; [|by split].
    unfold recorded in Hok. rewrite <- (appended_next hs n id log Hlog) in Hok.
    split; simpl; [exact Hok|intros o; by apply note_length|by apply follower_note].
  - destruct (open_ok hs (nl_disk log) entries (log_files _ _ Hlog) Hp) as (s1 & w1 & Ho1 & Hs1).
    rewrite Ho in Ho1. injection Ho1 as <- <-. by split.
  - pose proof (cut_files hs n id written log Hlog Hn (Hmax id) Hu) as Hf.
    destruct (open_ok _ _ entries Hf Hp) as (s1 & w1 & Ho1 & Hs1). rewrite Ho in Ho1. injection Ho1 as <- <-.
    split; simpl; [done| |].
    + intros o. case_decide; [by apply note_length|apply Hlen'].
    + case_decide; [by apply follower_note|done].
  - split; simpl; [done|done|]. apply (read_ok scope _ f limit log); [apply Hlog|apply Hlog|specialize (Hlen (sc_project_id scope)); lia|done|done].
Qed.

Lemma log_steps_ok `{!LogText} oc scope k j s s' :
  system_ok scope j s -> nsteps (log_step oc scope) k s s' -> (N.of_nat (j + k) <= u64_max)%N -> system_ok scope (j + k) s'.
Proof.
  intros Hs Hk. revert j Hs. induction Hk as [s|k s1 s2 s3 H12 H23 IH]; intros j Hs Hj; [by rewrite Nat.add_0_r|].
  rewrite Nat.add_succ_r. apply (IH (S j)); [|lia]. eapply log_step_ok; [done| |done]. lia.
Qed.

Lemma start_ok scope : system_ok scope 0 log_start.
Proof.
  assert (forall id, history_of id ∅ = []) as Hnil by (intros id; unfold history_of; by rewrite lookup_empty).
  split; simpl.
  - split; simpl; [done|intros; rewrite Hnil; split; [by intros|constructor]| |]; intros id; rewrite Hnil.
    + exists []. unfold file_of. simpl. rewrite lookup_empty. split_and!; [done|constructor|by exists []|simpl; lia].
    + unfold project. simpl. rewrite lookup_empty. by split.
  - intros id. by rewrite Hnil.
  - rewrite Hnil. exists 0. by split_and!.
Qed.

(** C19. Whatever sessions notify and whichever restarts, failed compactions and stops
    within an append happen in between, as long as a failed append leaves nothing behind
    and a stop does not cut a character in two: records are numbered from one without
    gaps or reuse, the log opens again over its file, and a reader that passes each
    page's cursor back has got, in order and once, every record it may see up to its
    cursor but the ones it was told were lost; a page without more leaves nothing behind. *)
Theorem reader_misses_nothing `{!LogText} oc scope k s :
  nsteps (log_step oc scope) k log_start s -> (N.of_nat k <= u64_max)%N ->
  let h := history_of (sc_project_id scope) (sy_history s) in
  (forall i r, h !! i = Some r -> he_seq r = N.of_nat (S i)) /\
  (forall entries, entries ≡ₚ elements (dom (lw_files (nl_disk (sy_log s)))) ->
     exists log w, open_log entries (nl_disk (sy_log s)) = (Ok log, w)) /\
  exists c, fo_cursor (sy_follower s) = pretty (N.of_nat c) /\ c <= length h /\
    (let seen := he_record <$> filter (vis scope) (take c h) in
     fo_items (sy_follower s) `sublist_of` seen /\
     length seen <= length (fo_items (sy_follower s)) + N.to_nat (fo_lost (sy_follower s)) /\
     (fo_lost (sy_follower s) = 0%N -> fo_items (sy_follower s) = seen)) /\
    forall limit, exists page lost, read scope (fo_cursor (sy_follower s)) limit (sy_log s) = Ok (page, lost) /\
      exists c', pg_next_cursor page = pretty (N.of_nat c') /\
        (pg_has_more page = false -> filter (vis scope) (drop c' h) = []).
Proof.
  intros Hk Hmax h. destruct (log_steps_ok oc scope k 0 _ _ (start_ok scope) Hk Hmax) as [Hlog Hlen (c & Hc & Hle & Hsub & Hn)].
  split_and!; [apply Hlog| |].
  - intros entries Hp. destruct (open_ok _ _ entries (log_files _ _ Hlog) Hp) as (log & w & Ho & _). by exists log, w.
  - exists c. split_and!; [done|done| |].
    + split_and!; [done|by rewrite length_fmap|]. intros Hz. apply sublist_whole; [done|].
      rewrite length_fmap. unfold h. rewrite Hz in Hn. etransitivity; [exact Hn|]. simpl. lia.
    + intros limit. unfold read. specialize (Hlen (sc_project_id scope)). fold h in Hlen, Hle.
      rewrite Hc, parse_cursor_of by lia. cbn [res_bind].
      pose proof (page_of_spec h _ scope c (page_size limit) (lo_history _ _ Hlog _) (lo_state _ _ Hlog _) Hle (page_size_pos limit)) as Hp.
      destruct (page_of _ _ _ _) as [page lost]. destruct Hp as (_ & c' & Hnext & _ & _ & Hmore). exists page, lost. split; [done|].
      by exists c'.
Qed.
End spec.
