(* ===== verification/NotifyCases.v ===== *)
(** * The notification log where writes go wrong, and waits

    Two ways the log's file hurts it - an append that fails part-way while the daemon
    goes on, and a stop that cuts a character in two - the wake-up of a wait, and an
    instance of the log's parameters with the witnesses. *)

From Stdlib Require Import Ascii Strings.Byte.
From stdpp Require Import pretty countable.
From S2P Require Import Prelude Text NodeIds Graph Framing Utf8 Json Changeset NotifyLog NotifySpec.

Local Open Scope io_scope.

Section cases.
Context `{LogPorts}.

(** ** A wait *)

(** Between its turns a wait registers for the next wake-up, looks, and sleeps; the flag
    says whether it was woken since it registered. *)
Inductive waiter := Looping | Ready (woken : bool) | Asleep (woken : bool) | Answered (a : NotificationWait).

(** [wt_unnotified] counts the deliveries that have appended and not yet notified. *)
Record wait_system := mkWaitSystem { wt_project : ProjectState; wt_unnotified : nat; wt_waiter : waiter }.

Definition wake (w : waiter) : waiter :=
  match w with Ready _ => Ready true | Asleep _ => Asleep true | w => w end.

Inductive wait_step (scope : ProjectNotificationScope) (after deadline : N) : wait_system -> wait_system -> Prop :=
| wait_register p u : wait_step scope after deadline (mkWaitSystem p u Looping) (mkWaitSystem p u (Ready false))
| wait_look p u woken now :
    wait_step scope after deadline (mkWaitSystem p u (Ready woken))
      (mkWaitSystem p u (match wait_turn p scope after now deadline with Some a => Answered a | None => Asleep woken end))
| wait_woken p u : wait_step scope after deadline (mkWaitSystem p u (Asleep true)) (mkWaitSystem p u Looping)
| wait_late p u woken : wait_step scope after deadline (mkWaitSystem p u (Asleep woken)) (mkWaitSystem p u Looping)
| wait_append p p' u w : wait_step scope after deadline (mkWaitSystem p u w) (mkWaitSystem p' (S u) w)
| wait_notify p u w : wait_step scope after deadline (mkWaitSystem p (S u) w) (mkWaitSystem p u (wake w)).

Definition nothing_new (scope : ProjectNotificationScope) (after : N) (p : ProjectState) : Prop :=
  pg_items (page_of p scope (After after) (page_size None)).1 = [].

Lemma wait_turn_spec p scope after now deadline :
  match wait_turn p scope after now deadline with
  | Some a => (nw_page a, nw_lost a) = page_of p scope (After after) (page_size None) /\
      (nw_timed_out a = true <-> nothing_new scope after p) /\ (nw_timed_out a = true -> (deadline <= now)%N)
  | None => nothing_new scope after p /\ (now < deadline)%N
  end.
Proof.
  unfold wait_turn, nothing_new. destruct (page_of p scope _ _) as [page lost]. simpl.
  destruct (decide (pg_items page = [])) as [E|E].
  - rewrite bool_decide_eq_true_2 by done. simpl. destruct (deadline <=? now)%N eqn:Hd; simpl.
    + apply N.leb_le in Hd. by split_and!.
    + apply N.leb_gt in Hd. done.
  - rewrite bool_decide_eq_false_2 by done. simpl. by split_and!.
Qed.

(** No wake-up is lost: a wait that sleeps unwoken while every delivery has notified has
    nothing to answer, and an answer without a record comes only from a look. *)
Theorem no_lost_wakeup scope after deadline p0 s :
  rtc (wait_step scope after deadline) (mkWaitSystem p0 0 Looping) s ->
  wt_waiter s = Asleep false -> wt_unnotified s = 0 -> nothing_new scope after (wt_project s).
Proof.
  intros Hrun. refine (rtc_ind_r (R := wait_step scope after deadline)
    (fun s => wt_waiter s = Asleep false -> wt_unnotified s = 0 -> nothing_new scope after (wt_project s))
    (mkWaitSystem p0 0 Looping) _ _ s Hrun); [done|].
  intros s1 s2 _ Hstep IH. destruct Hstep as [p u|p u woken now|p u|p u woken|p p' u w|p u w]; simpl in *; try done.
  - pose proof (wait_turn_spec p scope after now deadline) as Hs. destruct (wait_turn _ _ _ _ _); [done|]. intros _ _. apply Hs.
  - intros Hw. by destruct w.
Qed.

(** ** An append that fails part-way *)

Definition empty_log : NotificationLog := mkLog (mkLogWorld ∅ ∅) ∅.

Lemma deliver_appended oc n rw s id :
  target n = Some id -> (pj_newest_seq (project id s) + 1 <= u64_max)%N ->
  deliver oc n Appended rw s =
    (Ok (), record_held id (appended n id s) rw
       (mkLog (write_file id (file_of id (nl_disk s) ++ full_line (appended n id s)) (nl_disk s)) (<[id := project id s]> (nl_projects s)))).
Proof.
  unfold target, deliver. destruct (project_of n) as [[i|]|e|]; [|done..]. unfold project_file.
  destruct (names_a_directory i); [|done]. intros [= ->] Hn. rewrite project_insert, decide_True by done.
  unfold u64_add. rewrite decide_True by done. done.
Qed.

Lemma deliver_failed oc n k m rw s id :
  target n = Some id -> (pj_newest_seq (project id s) + 1 <= u64_max)%N ->
  deliver oc n (AppendFailed k m) rw s =
    (Err (FailedWrite m), mkLog (write_file id (file_of id (nl_disk s) ++ take k (full_line (appended n id s))) (nl_disk s))
       (<[id := project id s]> (nl_projects s))).
Proof.
  unfold target, deliver. destruct (project_of n) as [[i|]|e|]; [|done..]. unfold project_file.
  destruct (names_a_directory i); [|done]. intros [= ->] Hn. rewrite project_insert, decide_True by done.
  unfold u64_add. rewrite decide_True by done. done.
Qed.

(** A log of one project opens over what its file replays as. *)
Lemma open_one w id records lines :
  lw_unreadable w = ∅ -> replay_lines (file_lines (end_on_a_line_break (file_of id w))) = Some (records, lines) ->
  exists w', open_log [id] w = (Ok (mkLog w' {[id := restored records lines]}), w').
Proof.
  intros Hu Hr. destruct (replay_all_ok (fun _ => (records, lines)) (fun id => file_of id w) [id] w Hu) as (w' & E & _).
  { by intros i ->%list_elem_of_singleton. }
  exists w'. unfold open_log. unfold file_of in E at 1. rewrite E. done.
Qed.

Lemma project_inserted id p d ps : project id (mkLog d (<[id := p]> ps)) = p.
Proof. unfold project. simpl. by rewrite lookup_insert_eq. Qed.

Lemma record_first id r rw d ps p :
  pj_window p = [] -> pj_lines_on_disk p <= 1 ->
  exists p', record_held id r rw (mkLog d (<[id := p]> ps)) = mkLog d (<[id := p']> ps) /\ pj_window p' = [r] /\ pj_newest_seq p' = he_seq r.
Proof.
  intros Hw Hl. unfold record_held. rewrite project_inserted, Hw. unfold push_window. rewrite !decide_False by (unfold PROJECT_NOTIFICATION_CAPACITY; simpl; lia).
  cbn [nl_disk nl_projects]. rewrite insert_insert_eq. eexists. split; [reflexivity|]. by split.
Qed.

(** An append that fails after writing part of its line leaves that part in the file,
    and the next record is appended to it: its delivery succeeds and readers are given it,
    but the line reads as neither record, so the next start has lost it and gives its number
    out again, where a reader that has already seen the number never finds the new record. *)
Theorem failed_append_loses_next `{!LogText} oc n1 n2 n3 id k m rw :
  target n1 = Some id -> target n2 = Some id -> target n3 = Some id ->
  k <= length (line_text (held_of n1 1)) ->
  let run_on := take k (line_text (held_of n1 1)) ++ line_text (held_of n2 1) in
  utf8_valid run_on = true -> line_from_str (bytes_text run_on) = None ->
  exists s1 s2 s3 w s4,
    deliver oc n1 (AppendFailed k m) rw empty_log = (Err (FailedWrite m), s1) /\
    deliver oc n2 Appended rw s1 = (Ok (), s2) /\ pj_window (project id s2) = [held_of n2 1] /\
    open_log [id] (nl_disk s2) = (Ok s3, w) /\ pj_window (project id s3) = [] /\
    deliver oc n3 Appended rw s3 = (Ok (), s4) /\ pj_window (project id s4) = [held_of n3 1] /\
    forall scope limit, sc_project_id scope = id ->
      exists page lost, read scope "1" limit s4 = Ok (page, lost) /\ pg_items page = [].
Proof.
  intros H1 H2 H3 Hk run_on Hu Hp. set (r1 := held_of n1 1) in *. set (r2 := held_of n2 1) in *.
  assert (take k (full_line r1) = take k (line_text r1)) as Et by (unfold full_line; by rewrite take_app_le).
  rewrite (deliver_failed oc n1 k m rw empty_log id H1) by done.
  change (appended n1 id empty_log) with r1. rewrite Et. change (file_of id (nl_disk empty_log)) with (@nil Byte.byte). rewrite app_nil_l.
  set (s1 := mkLog _ _). assert (project id s1 = empty_project) as E1 by apply project_inserted.
  pose proof (deliver_appended oc n2 rw s1 id H2 ltac:(by rewrite E1)) as D2. unfold appended in D2. rewrite E1 in D2.
  change (pj_newest_seq empty_project + 1)%N with 1%N in D2. fold r2 in D2.
  replace (file_of id (nl_disk s1)) with (take k (line_text r1)) in D2 by (unfold s1; simpl; by rewrite file_of_write, decide_True).
  destruct (record_first id r2 rw (write_file id (take k (line_text r1) ++ full_line r2) (nl_disk s1)) (nl_projects s1) empty_project)
    as (p2 & E2 & W2 & _); [done|simpl; lia|]. rewrite E2 in D2.
  set (s2 := mkLog _ (<[id := p2]> _)) in D2.
  destruct (replay_chunks [Junk run_on]) as (lines & Hr & Hl).
  { apply Forall_singleton. split_and!; [| |done|done]; intros [Hx|Hx]%elem_of_app; try (by eapply lt_one_line); try (by eapply lt_no_return);
      apply (sublist_subseteq _ _ (sublist_take _ _)) in Hx; [by eapply lt_one_line|by eapply lt_no_return]. }
  assert (file_of id (nl_disk s2) = file_bytes [Junk run_on]) as Ef.
  { unfold s2. simpl. rewrite file_of_write, decide_True by done. unfold file_bytes, run_on, full_line. simpl.
    by rewrite app_nil_r, (assoc_L (++)). }
  destruct (open_one (nl_disk s2) id [] lines) as (w & Hopen); [done|by rewrite Ef, file_bytes_ended|].
  set (s3 := mkLog w _) in Hopen. assert (project id s3 = restored [] lines) as E3
    by (unfold project, s3; simpl; by rewrite lookup_singleton_eq).
  pose proof (deliver_appended oc n3 rw s3 id H3 ltac:(by rewrite E3)) as D3. unfold appended in D3. rewrite E3 in D3.
  edestruct (record_first id (held_of n3 1) rw (write_file id (file_of id (nl_disk s3) ++ full_line (held_of n3 1)) (nl_disk s3)) (nl_projects s3) (restored [] lines))
    as (p4 & E4 & W4 & N4); [done|exact Hl|].
  change (pj_newest_seq (restored [] lines) + 1)%N with 1%N in D3. rewrite E4 in D3.
  eexists s1, s2, s3, w, _. split_and!; [done|exact D2| |exact Hopen|by rewrite E3|exact D3| |].
  - unfold s2. by rewrite project_inserted.
  - by rewrite project_inserted.
  - intros scope limit Hid. unfold read. change (parse_cursor "1") with (@Ok LogError _ (Some 1%N)). cbn [res_bind].
    rewrite Hid, project_inserted. unfold page_of. rewrite W4. destruct (page_size limit) as [size cl].
    assert (filter (fun h => (1 < he_seq h)%N) (filter (fun h => visible_to scope h = true) [held_of n3 1]) = []) as ->.
    { rewrite filter_cons. case_decide; [|done]. rewrite filter_nil, filter_cons, decide_False by (unfold he_seq; simpl; lia). done. }
    eexists _, _. split; [done|]. by rewrite take_nil.
Qed.

(** ** A character cut in two *)

Lemma split_lines_last l : x0a ∉ l -> l <> [] -> split_lines (l ++ [x0a]) = [l].
Proof. intros Hl _. by rewrite split_lines_line. Qed.

Lemma replay_lines_bad ls l : utf8_valid l = false -> l ∈ ls -> replay_lines ls = None.
Proof.
  intros Hl. induction ls as [|l' ls IH]; intros Hin; [by apply elem_of_nil in Hin|]. simpl. unfold from_utf8.
  apply elem_of_cons in Hin as [<-|Hin]; [by rewrite Hl|]. destruct (utf8_valid l'); simpl; [|done]. by rewrite IH.
Qed.

Lemma split_lines_app b p : (b = [] \/ last b = Some x0a) -> split_lines (b ++ p) = split_lines b ++ split_lines p.
Proof.
  induction b as [|x b IH]; intros Hb; simpl; [done|]. destruct Hb as [?|Hb]; [done|].
  destruct b as [|y b].
  - simpl in Hb. injection Hb as ->. by rewrite decide_True.
  - rewrite last_cons_cons in Hb. rewrite IH by (by right). case_decide; [done|].
    destruct (split_lines (y :: b)) as [|l ls] eqn:E; [|done]. exfalso. simpl in E. case_decide; [done|]. by destruct (split_lines b).
Qed.

(** A stop within an append that cuts a character in two leaves bytes that are not
    text at the end of the file; the next start ends the line and then refuses the whole
    file, the records before it included, and so does every start after it. *)
Theorem torn_character_blocks_start `{!LogText} hs s id p :
  log_ok hs s -> p <> [] -> x0a ∉ p -> x0d ∉ p -> utf8_valid p = false ->
  let w := write_file id (file_of id (nl_disk s) ++ p) (nl_disk s) in
  exists w', open_log [id] w = (Err (UnreadableLog id), w') /\ open_log [id] w' = (Err (UnreadableLog id), w').
Proof.
  intros Hok Hp Ha Hd Hu w. destruct (lo_file _ _ Hok id) as (cs & Ef & _).
  set (b := file_of id (nl_disk s) ++ p ++ [x0a]).
  assert (end_on_a_line_break (file_of id w) = b) as Eb.
  { unfold w. rewrite file_of_write, decide_True by done. unfold end_on_a_line_break. rewrite last_app.
    destruct (last p) as [x|] eqn:Ex; [|by apply last_None in Ex].
    rewrite decide_False; [by unfold b; rewrite (assoc_L (++))|]. intros ->. apply Ha. by apply last_Some_elem_of. }
  assert (end_on_a_line_break b = b) as Ebb
    by (unfold end_on_a_line_break, b; by rewrite (assoc_L (++)), last_snoc, decide_True).
  assert (replay_lines (file_lines b) = None) as Hbad.
  { apply (replay_lines_bad _ p Hu). unfold file_lines, b. rewrite split_lines_app.
    - rewrite split_lines_last, fmap_app by done. simpl. rewrite strip_cr_id by done. apply elem_of_app. right. by left.
    - rewrite Ef. destruct cs as [|c cs _] using rev_ind; [by left|right]. rewrite file_bytes_app. unfold file_bytes at 2. simpl.
      rewrite app_nil_r. destruct c; simpl; unfold full_line; by rewrite !(assoc_L (++)), last_snoc. }
  assert (forall w1, lw_unreadable w1 = ∅ -> end_on_a_line_break (file_of id w1) = b ->
    open_log [id] w1 = (Err (UnreadableLog id), write_file id b w1)) as Hopen.
  { intros w1 Hr Hb. unfold open_log. simpl. unfold io_bind, replay_file. rewrite decide_False by (rewrite Hr; set_solver).
    unfold file_of in Hb. rewrite Hb, Hbad. done. }
  exists (write_file id b w). split; [apply Hopen; [apply Hok|done]|].
  rewrite Hopen; [|apply Hok|by rewrite file_of_write, decide_True].
  unfold write_file. simpl. by rewrite insert_insert_eq.
Qed.
End cases.

(** ** An instance *)

Notation json_leaf := (string + (Z + N))%type (only parsing).

Fixpoint value_tree (v : json) : gen_tree json_leaf :=
  match v with
  | JNull => GenNode 0 []
  | JBool b => GenNode (if b then 1 else 2) []
  | JInt z => GenLeaf (inr (inl z))
  | JFloat n => GenLeaf (inr (inr n))
  | JString s => GenLeaf (inl s)
  | JArray l => GenNode 3 (value_tree <$> l)
  | JObject l => GenNode 4 ((fix go l := match l with [] => [] | (k, v) :: l => GenLeaf (inl k) :: value_tree v :: go l end) l)
  end.

Fixpoint tree_value (t : gen_tree json_leaf) : json :=
  match t with
  | GenLeaf (inl s) => JString s
  | GenLeaf (inr (inl z)) => JInt z
  | GenLeaf (inr (inr n)) => JFloat n
  | GenNode 0 _ => JNull
  | GenNode 1 _ => JBool true
  | GenNode 2 _ => JBool false
  | GenNode 3 ts => JArray (tree_value <$> ts)
  | GenNode _ ts =>
      JObject ((fix go ts := match ts with GenLeaf (inl k) :: v :: ts => (k, tree_value v) :: go ts | _ => [] end) ts)
  end.

Fixpoint tree_value_tree (v : json) : tree_value (value_tree v) = v.
Proof.
  destruct v as [|[]|z|n|s|l|l]; try reflexivity; cbn.
  - f_equal. induction l as [|v l IH]; [done|]. cbn. rewrite (tree_value_tree v). f_equal. exact IH.
  - f_equal. induction l as [|[k v] l IH]; [done|]. cbn. rewrite (tree_value_tree v), IH. done.
Qed.

(** A brace, the digits of a tree, and a character of two bytes. *)
Definition digits_text (v : json) : string := pos_to_text (encode (value_tree v)).

Definition packed_line (v : json) : string := String "{" (digits_text v +:+ bytes_text [xc3; xa9]).

Definition binary (x : Byte.byte) : bool := bool_decide (x = x30) || bool_decide (x = x31).

Definition unpacked_line (s : string) : option json :=
  match reverse (text_bytes s) with
  | xa9 :: xc3 :: rest =>
      match reverse rest with
      | x7b :: digits =>
          if forallb binary digits then tree_value <$> decode (pos_of_text (bytes_text digits)) else None
      | _ => None
      end
  | _ => None
  end.

Lemma digits_binary p : forallb binary (text_bytes (pos_to_text p)) = true.
Proof. by induction p. Qed.

Lemma binary_elem l x : forallb binary l = true -> x ∈ l -> x = x30 \/ x = x31.
Proof.
  rewrite forallb_forall. intros Hl Hx%list_elem_of_In%Hl. unfold binary in Hx.
  apply orb_true_iff in Hx as [Hx|Hx]; apply bool_decide_eq_true in Hx; auto.
Qed.

Lemma text_bytes_app s t : text_bytes (s +:+ t) = text_bytes s ++ text_bytes t.
Proof. unfold text_bytes, String.list_byte_of_string. by rewrite list_ascii_app, map_app. Qed.

Lemma packed_line_bytes v : text_bytes (packed_line v) = x7b :: text_bytes (digits_text v) ++ [xc3; xa9].
Proof.
  change (text_bytes (packed_line v)) with (x7b :: text_bytes (digits_text v +:+ bytes_text [xc3; xa9])).
  by rewrite text_bytes_app.
Qed.

Lemma unpacked_packed v : unpacked_line (packed_line v) = Some v.
Proof.
  unfold unpacked_line. rewrite packed_line_bytes, app_comm_cons, reverse_app.
  change (reverse [xc3; xa9]) with [xa9; xc3]. cbn [app]. rewrite reverse_involutive. unfold digits_text.
  rewrite digits_binary, bytes_text_bytes.
  rewrite pos_of_to_text, decode_encode. simpl. by rewrite tree_value_tree.
Qed.

Lemma unpacked_cut v p : p `prefix_of` text_bytes (packed_line v) -> p <> text_bytes (packed_line v) -> unpacked_line (bytes_text p) = None.
Proof.
  rewrite packed_line_bytes. intros [q E] Hne. unfold unpacked_line, text_bytes, bytes_text. rewrite String.list_byte_of_string_of_list_byte.
  destruct (reverse p) as [|x [|y rest]] eqn:Er; [done|by destruct x|].
  destruct (decide (x = xa9)) as [->|]; [|by destruct x]. destruct (decide (y = xc3)) as [->|]; [|by destruct y]. exfalso.
  assert (p = reverse rest ++ [xc3; xa9]) as -> by (rewrite <- (reverse_involutive p), Er, !reverse_cons, <- (assoc_L (++)); done).
  destruct q as [|z q] using rev_ind; [by rewrite app_nil_r in E|]. clear IHq.
  rewrite !(assoc_L (++)), app_comm_cons in E.
  pose proof (digits_binary (encode (value_tree v))) as Hb. fold (digits_text v) in Hb.
  change [xc3; xa9] with ([xc3] ++ [xa9]) in E. rewrite !(assoc_L (++)) in E. apply app_inj_2 in E as [E _]; [|done].
  assert (xa9 ∈ (x7b :: text_bytes (digits_text v)) ++ [xc3]) as Hin.
  { rewrite E. apply elem_of_app. left. apply elem_of_app. right. by left. }
  apply elem_of_app in Hin as [[?|Hin]%elem_of_cons|Hin%list_elem_of_singleton]; [done| |done].
  by apply (binary_elem _ _ Hb) in Hin as [|].
Qed.

Lemma utf8_binary l t : forallb binary l = true -> utf8_valid (l ++ t) = utf8_valid t.
Proof.
  induction l as [|x l IH]; intros Hl; [done|]. apply (binary_elem _ x) in Hl as Hx; [|left].
  simpl in Hl. apply andb_true_iff in Hl as [_ Hl]. destruct Hx as [-> | ->]; exact (IH Hl).
Qed.

Definition packed_log : LogPorts := {|
  line_to_string := packed_line;
  line_from_str := unpacked_line;
  session_project _ := Some "p";
  sessions_base_for _ := Some "/s";
|}.

#[local] Existing Instance packed_log.

Lemma packed_line_elem v x : x ∈ text_bytes (packed_line v) -> x ∈ [x7b; x30; x31; xc3; xa9].
Proof.
  rewrite packed_line_bytes. intros [->|[Hx|Hx]%elem_of_app]%elem_of_cons; [by left| |set_solver].
  apply (binary_elem _ _ (digits_binary _)) in Hx as [-> | ->]; set_solver.
Qed.

Lemma packed_not_blank v : trim (packed_line v) <> "".
Proof.
  unfold trim, trim_start, packed_line. cbn [String.list_ascii_of_string].
  rewrite trim_bytes_plain by done. rewrite list_ascii_app. unfold trim_end.
  rewrite reverse_cons, reverse_app. change (reverse (String.list_ascii_of_string (bytes_text [xc3; xa9]))) with
    [ascii_of_byte xa9; ascii_of_byte xc3]. cbn [app].
  assert (forall l, l <> [] -> trim_bytes (fun b a => ws2 a b) (fun c b a => ws3 a b c) (ascii_of_byte xa9 :: ascii_of_byte xc3 :: l) =
    ascii_of_byte xa9 :: ascii_of_byte xc3 :: l) as Ht.
  { intros [|a l] _; [done|]. cbn [trim_bytes]. change (ws1 (ascii_of_byte xa9)) with false.
    change (ws2 (ascii_of_byte xc3) (ascii_of_byte xa9)) with false. cbv iota.
    replace (ws3 a (ascii_of_byte xc3) (ascii_of_byte xa9)) with false; [done|]. symmetry. apply bool_decide_eq_false.
    change (N_of_ascii (ascii_of_byte xc3)) with 195%N. change (N_of_ascii (ascii_of_byte xa9)) with 169%N. lia. }
  rewrite Ht by (by destruct (reverse _)). rewrite !reverse_cons. intros E.
  apply (f_equal String.list_ascii_of_string) in E. rewrite String.list_ascii_of_string_of_list_ascii in E. by apply app_eq_nil in E as [_ ?].
Qed.

#[local] Instance packed_text : LogText.
Proof.
  split.
  - intros h. apply unpacked_packed.
  - intros h Hx%packed_line_elem. set_solver.
  - intros h Hx%packed_line_elem. set_solver.
  - intros h. unfold line_text. rewrite packed_line_bytes. change (utf8_valid (text_bytes (digits_text (line_value h)) ++ [xc3; xa9]) = true).
    by rewrite utf8_binary by apply digits_binary.
  - intros h. apply packed_not_blank.
  - intros h p. apply unpacked_cut.
Qed.

Definition demo_notice : SessionNotification :=
  mkNotification "s1" "ada" "S" KAttentionRequired SAgent "done" None None 7.
Definition demo_scope : ProjectNotificationScope := mkScope "p" "ada" "home".

Lemma demo_target : target demo_notice = Some "p".
Proof. reflexivity. Qed.

(** One notification is recorded and read. *)
Definition demo_log : NotificationLog := (deliver false demo_notice Appended Rewritten empty_log).2.

Definition demo_system : log_system :=
  mkSystem demo_log (noted (held_of demo_notice 1) "p" ∅) (mkFollower "1" [he_record (held_of demo_notice 1)] 0).

Lemma demo_steps : nsteps (log_step false demo_scope) 2 log_start demo_system.
Proof.
  eapply nsteps_l.
  { eapply (step_deliver _ _ demo_notice Appended Rewritten (Ok ()) _ demo_log); [unfold notification_fits, u64_max; simpl; lia|exact I|].
    unfold demo_log. rewrite (deliver_appended false demo_notice Rewritten empty_log "p" demo_target) by done. reflexivity. }
  eapply nsteps_l; [|apply nsteps_O]. exact (step_read false demo_scope None _ 0 demo_log _ (mkFollower "0" [] 0) eq_refl).
Qed.

Lemma reader_misses_nothing_witness :
  (exists log w, open_log ["p"] (nl_disk demo_log) = (Ok log, w)) /\
  exists page lost, read demo_scope "1" None demo_log = Ok (page, lost).
Proof.
  destruct (reader_misses_nothing false demo_scope 2 demo_system demo_steps ltac:(unfold u64_max; lia))
    as (_ & Hopen & c & Hc & _ & _ & Hread). split.
  - apply Hopen. change (lw_files (nl_disk (sy_log demo_system))) with (lw_files (nl_disk demo_log)).
    unfold demo_log. rewrite (deliver_appended false demo_notice Rewritten empty_log "p" demo_target) by done.
    change (lw_files _) with (<["p" := full_line (held_of demo_notice 1)]> (∅ : gmap string bytes)).
    by rewrite insert_empty, dom_singleton_L, elements_singleton.
  - destruct (Hread None) as (page & lost & Hr & _). by exists page, lost.
Defined.

Lemma failed_append_loses_next_witness :
  exists s1 s2, deliver false demo_notice (AppendFailed 5 "no space") Rewritten empty_log = (Err (FailedWrite "no space"), s1) /\
    deliver false demo_notice Appended Rewritten s1 = (Ok (), s2) /\ pj_window (project "p" s2) = [held_of demo_notice 1] /\
    exists s3 w, open_log ["p"] (nl_disk s2) = (Ok s3, w) /\ pj_window (project "p" s3) = [].
Proof.
  destruct (failed_append_loses_next false demo_notice demo_notice demo_notice "p" 5 "no space" Rewritten demo_target demo_target
    demo_target) as (s1 & s2 & s3 & w & _ & H1 & H2 & H3 & H4 & H5 & _).
  - by_decide.
  - vm_compute. reflexivity.
  - vm_compute. reflexivity.
  - exists s1, s2. split_and!; [done|done|done|by exists s3, w].
Defined.

Lemma demo_torn_elem x : x ∈ take 1674 (line_text (held_of demo_notice 1)) -> x ∈ [x7b; x30; x31; xc3; xa9].
Proof. intros Hx%(sublist_subseteq _ _ (sublist_take _ _)). exact (packed_line_elem (line_value (held_of demo_notice 1)) x Hx). Qed.

Lemma demo_cut :
  cut_disk demo_notice "p" 1674 empty_log =
    write_file "p" (file_of "p" (nl_disk empty_log) ++ take 1674 (line_text (held_of demo_notice 1))) (nl_disk empty_log).
Proof.
  unfold cut_disk. change (appended demo_notice "p" empty_log) with (held_of demo_notice 1). unfold full_line.
  rewrite take_app_le by by_decide. done.
Qed.

Lemma torn_character_blocks_start_witness :
  exists w', open_log ["p"] (cut_disk demo_notice "p" 1674 empty_log) = (Err (UnreadableLog "p"), w') /\
    open_log ["p"] w' = (Err (UnreadableLog "p"), w').
Proof.
  rewrite demo_cut.
  apply (torn_character_blocks_start ∅ empty_log "p" (take 1674 (line_text (held_of demo_notice 1))) (sk_log _ _ _ (start_ok demo_scope))).
  - intros E%(f_equal length). rewrite length_take in E. vm_compute in E. done.
  - intros Hx%demo_torn_elem. set_solver.
  - intros Hx%demo_torn_elem. set_solver.
  - vm_compute. reflexivity.
Defined.
