(* ===== verification/Capture.v ===== *)
(** * Terminal captures

    [src/packages/tddy-task/src/terminal_capture.rs] with [paging.rs], and
    [capture_recording.rs]: the bounded ring of a terminal's output, the parser that
    watches it for mode changes, the text fed to the screen model, and the recording of a
    ring on disk. The screen model ([avt]) is a parameter; the repaint of a snapshot and
    the grid read from it are not modelled. *)

From Stdlib Require Import Ascii Strings.Byte.
From stdpp Require Import pretty sorting.
From S2P Require Import Prelude Text Framing Utf8.

Local Open Scope io_scope.

(** ** Escape sequences *)

Definition ESC : byte := x1b.
Definition BEL : byte := x07.
Definition MAX_CSI_PARAMS : nat := 16.

Inductive ParserState := Ground | Escape | EscapeIntermediate | Csi | StringPayload | StringPayloadEscape.

#[global] Instance ParserState_eq_dec : EqDecision ParserState.
Proof. solve_decision. Defined.

Record EscapeParser := mkParser {
  ep_state : ParserState;
  ep_params : list N;
  ep_current_param : N;
  ep_reading_param : bool;
  ep_private : bool;
  ep_space_intermediate : bool;
}.

Definition new_parser : EscapeParser := mkParser Ground [] 0 false false false.

Inductive StreamEvent :=
| PrivateMode (modes : list N) (enabled : bool)
| FullReset
| Keypad (application : bool)
| CursorStyle (style : N).

Definition at_sequence_boundary (p : EscapeParser) : bool := bool_decide (ep_state p = Ground).

Definition in_state (s : ParserState) (p : EscapeParser) : EscapeParser :=
  mkParser s (ep_params p) (ep_current_param p) (ep_reading_param p) (ep_private p) (ep_space_intermediate p).

Definition between (lo hi : N) (b : byte) : bool := bool_decide (lo <= Byte.to_N b <= hi)%N.

Definition escape_event (b : byte) : option StreamEvent :=
  match b with
  | x63 => Some FullReset
  | x3d => Some (Keypad true)
  | x3e => Some (Keypad false)
  | _ => None
  end.

Definition begin_csi : EscapeParser := mkParser Csi [] 0 false false false.

Definition u32_saturate (n : N) : N := N.min n u32_max.

Definition finish_param (p : EscapeParser) : EscapeParser :=
  if ep_reading_param p then
    mkParser (ep_state p)
      (if decide (length (ep_params p) < MAX_CSI_PARAMS) then ep_params p ++ [N.min (ep_current_param p) 65535] else ep_params p)
      0 false (ep_private p) (ep_space_intermediate p)
  else p.

Definition finish_csi (final_byte : byte) (p : EscapeParser) : EscapeParser * option StreamEvent :=
  let p := finish_param p in
  (p,
   if decide ((final_byte = x68 \/ final_byte = x6c) /\ ep_private p = true)
   then Some (PrivateMode (ep_params p) (bool_decide (final_byte = x68)))
   else if decide (final_byte = x71 /\ ep_space_intermediate p = true /\ ep_private p = false)
   then Some (CursorStyle (default 0%N (head (ep_params p))))
   else None).

Definition feed_csi (b : byte) (p : EscapeParser) : EscapeParser * option StreamEvent :=
  if between 48 57 b then
    (mkParser (ep_state p) (ep_params p) (u32_saturate (u32_saturate (ep_current_param p * 10) + (Byte.to_N b - 48))) true
       (ep_private p) (ep_space_intermediate p), None)
  else if between 58 59 b then (finish_param p, None)
  else if decide (b = x3f) then
    (mkParser (ep_state p) (ep_params p) (ep_current_param p) (ep_reading_param p) true (ep_space_intermediate p), None)
  else if decide (b = x20) then
    (mkParser (ep_state p) (ep_params p) (ep_current_param p) (ep_reading_param p) (ep_private p) true, None)
  else if decide (b = ESC) then (in_state Escape p, None)
  else if between 64 126 b then finish_csi b (in_state Ground p)
  else (p, None).

Definition feed (b : byte) (p : EscapeParser) : EscapeParser * option StreamEvent :=
  match ep_state p with
  | Ground => (if decide (b = ESC) then in_state Escape p else p, None)
  | Escape =>
      match escape_event b with
      | Some event => (in_state Ground p, Some event)
      | None =>
          (if decide (b = x5b) then begin_csi
           else if decide (b ∈ [x5d; x50; x58; x5e; x5f]) then in_state StringPayload p
           else if decide (b = ESC) then in_state Escape p
           else if between 32 47 b then in_state EscapeIntermediate p
           else in_state Ground p, None)
      end
  | EscapeIntermediate =>
      (if decide (b = ESC) then in_state Escape p
       else if between 32 47 b then in_state EscapeIntermediate p
       else in_state Ground p, None)
  | Csi => feed_csi b p
  | StringPayload =>
      (if decide (b = BEL) then in_state Ground p
       else if decide (b = ESC) then in_state StringPayloadEscape p
       else in_state StringPayload p, None)
  | StringPayloadEscape =>
      (if decide (b = x5c) then in_state Ground p
       else if decide (b = ESC) then in_state StringPayloadEscape p
       else in_state StringPayload p, None)
  end.

(** ** Input modes *)

Definition MOUSE_TRACKING_MODES : list N := [1000; 1002; 1003; 1005; 1006; 1015; 1016]%N.
Definition OTHER_INPUT_MODES : list N := [1004; 2004]%N.
Definition ALTERNATE_SCREEN_MODES : list N := [47; 1047; 1049]%N.

Definition is_input_mode (mode : N) : bool :=
  bool_decide (mode ∈ MOUSE_TRACKING_MODES) || bool_decide (mode ∈ OTHER_INPUT_MODES).

Record InputModes := mkModes {
  im_enabled : gset N;
  im_alternate_screen : bool;
  im_application_keypad : bool;
  im_cursor_style : option N;
}.

Definition default_modes : InputModes := mkModes ∅ false false None.

Definition apply_private_mode (enabled : bool) (m : InputModes) (mode : N) : InputModes :=
  if decide (mode ∈ ALTERNATE_SCREEN_MODES) then
    mkModes (im_enabled m) enabled (im_application_keypad m) (im_cursor_style m)
  else if negb (is_input_mode mode) then m
  else mkModes (if enabled then {[mode]} ∪ im_enabled m else im_enabled m ∖ {[mode]}) (im_alternate_screen m)
         (im_application_keypad m) (im_cursor_style m).

Definition apply (e : StreamEvent) (m : InputModes) : InputModes :=
  match e with
  | PrivateMode modes enabled => foldl (apply_private_mode enabled) m modes
  | Keypad application => mkModes (im_enabled m) (im_alternate_screen m) application (im_cursor_style m)
  | CursorStyle style =>
      mkModes (im_enabled m) (im_alternate_screen m) (im_application_keypad m) (if decide (style = 0%N) then None else Some style)
  | FullReset => default_modes
  end.

(** A [BTreeSet] is walked in ascending order. *)
Definition ascending (s : gset N) : list N := merge_sort N.le (elements s).

Definition set_mode (mode : N) : bytes := [x1b; x5b; x3f] ++ text_bytes (pretty mode) ++ [x68].

Definition prologue (m : InputModes) : bytes :=
  concat (set_mode <$> filter (fun mode => mode ∈ MOUSE_TRACKING_MODES) (ascending (im_enabled m))).

Definition restore_sequences (m : InputModes) : bytes :=
  (if im_application_keypad m then [x1b; x3d] else []) ++
  match im_cursor_style m with Some style => [x1b; x5b] ++ text_bytes (pretty style) ++ [x20; x71] | None => [] end ++
  concat (set_mode <$> ascending (im_enabled m)).

(** ** Text for the screen *)

(** [str::from_utf8]'s error: how much is valid, and how long what is not is, or [None]
    when the bytes end within a character. *)
Fixpoint utf8_error (valid seen need : nat) (range : N * N) (b : bytes) : option (nat * option nat) :=
  match b with
  | [] => if decide (need = 0) then None else Some (valid, None)
  | x :: rest =>
      match need with
      | O =>
          match utf8_lead (Byte.to_N x) with
          | Some (O, r) => utf8_error (S valid) 0 0 r rest
          | Some (n, r) => utf8_error valid 1 n r rest
          | None => Some (valid, Some 1)
          end
      | S need' =>
          if decide (range.1 <= Byte.to_N x <= range.2)%N then
            match need' with
            | O => utf8_error (valid + S seen) 0 0 (128, 191)%N rest
            | _ => utf8_error valid (S seen) need' (128, 191)%N rest
            end
          else Some (valid, Some seen)
      end
  end.

(** The loop of [feed_screen]: what is fed, and what is held back. *)
Fixpoint screen_text (fuel : nat) (rest : bytes) : list bytes * bytes :=
  match fuel, rest with
  | _, [] | O, _ => ([], [])
  | S fuel, _ =>
      match utf8_error 0 0 0 (128, 191)%N rest with
      | None => ([rest], [])
      | Some (valid, None) => ([take valid rest], drop valid rest)
      | Some (valid, Some bad) =>
          let '(fed, pending) := screen_text fuel (drop (valid + bad) rest) in
          (take valid rest :: REPLACEMENT :: fed, pending)
      end
  end.

(** The screen model ([avt::Vt]): its size is columns and rows, its dump a text of characters,
    and the first cell of its first row is the default blank or not, and some columns wide. *)
Class Screen := {
  scr : Type;
  scr_new : N -> N -> scr;
  scr_feed : bytes -> scr -> scr;
  scr_resize : N -> N -> scr -> scr;
  scr_size : scr -> N * N;
  scr_dump : scr -> list N;
  scr_first_cell : scr -> option (bool * N);
}.

Section capture.
Context `{Screen}.

Definition CAPTURE_LIMIT_BYTES : nat := 65536.
Definition MAX_SEQUENCE_CHASE_BYTES : nat := 1024.

Record TerminalCapture := mkCapture {
  tc_buffer : bytes;
  tc_start_offset : N;
  tc_end_offset : N;
  tc_modes : InputModes;
  tc_screen : scr;
  tc_sized : bool;
  tc_pending_utf8 : bytes;
  tc_sniffer : EscapeParser;
  tc_evicted : EscapeParser;
}.

Definition new_capture : TerminalCapture :=
  mkCapture [] 0 0 default_modes (scr_new 80 24) false [] new_parser new_parser.

Definition resize (rows cols : N) (c : TerminalCapture) : TerminalCapture :=
  mkCapture (tc_buffer c) (tc_start_offset c) (tc_end_offset c) (tc_modes c)
    (scr_resize (N.max cols 1) (N.max rows 1) (tc_screen c)) true (tc_pending_utf8 c) (tc_sniffer c) (tc_evicted c).

Definition feed_screen (data : bytes) (c : TerminalCapture) : TerminalCapture :=
  let b := tc_pending_utf8 c ++ data in
  let '(fed, pending) := screen_text (length b) b in
  mkCapture (tc_buffer c) (tc_start_offset c) (tc_end_offset c) (tc_modes c) (foldl (fun s t => scr_feed t s) (tc_screen c) fed)
    (tc_sized c) pending (tc_sniffer c) (tc_evicted c).

Definition sniff (st : EscapeParser * InputModes) (b : byte) : EscapeParser * InputModes :=
  let '(p, event) := feed b st.1 in
  (p, match event with Some e => apply e st.2 | None => st.2 end).

Definition sniff_modes (data : bytes) (c : TerminalCapture) : TerminalCapture :=
  let '(sniffer, modes) := foldl sniff (tc_sniffer c, tc_modes c) data in
  mkCapture (tc_buffer c) (tc_start_offset c) (tc_end_offset c) modes (tc_screen c) (tc_sized c) (tc_pending_utf8 c) sniffer (tc_evicted c).

(** Chase the end of a sequence: at most [limit] more bytes. *)
Fixpoint chase (limit : nat) (b : bytes) (p : EscapeParser) : nat * EscapeParser :=
  match limit, b with
  | S limit, x :: b =>
      if at_sequence_boundary p then (0, p) else let '(n, p) := chase limit b (feed x p).1 in (S n, p)
  | _, _ => (0, p)
  end.

Definition u64_saturating_add (a b : N) : N := N.min (a + b) u64_max.

Definition evict_to_limit (c : TerminalCapture) : TerminalCapture :=
  let overflow := length (tc_buffer c) - CAPTURE_LIMIT_BYTES in
  if decide (overflow = 0) then c
  else
    let evicted := foldl (fun p b => (feed b p).1) (tc_evicted c) (take overflow (tc_buffer c)) in
    let '(chased, evicted) := chase MAX_SEQUENCE_CHASE_BYTES (drop overflow (tc_buffer c)) evicted in
    let evict := overflow + chased in
    mkCapture (drop evict (tc_buffer c)) (u64_saturating_add (tc_start_offset c) (N.of_nat evict)) (tc_end_offset c) (tc_modes c)
      (tc_screen c) (tc_sized c) (tc_pending_utf8 c) (tc_sniffer c) evicted.

Definition append_output (data : bytes) (c : TerminalCapture) : TerminalCapture :=
  let c := sniff_modes data (feed_screen data c) in
  evict_to_limit
    (mkCapture (tc_buffer c ++ data) (tc_start_offset c) (u64_saturating_add (tc_end_offset c) (N.of_nat (length data)))
       (tc_modes c) (tc_screen c) (tc_sized c) (tc_pending_utf8 c) (tc_sniffer c) (tc_evicted c)).

Definition replay (c : TerminalCapture) : bytes := prologue (tc_modes c) ++ tc_buffer c.

(** ** Paging *)

Record CaptureChunk := mkChunk {
  ch_data : bytes;
  ch_start_offset : N;
  ch_end_offset : N;
  ch_at_oldest : bool;
  ch_at_end : bool;
}.

(** [data[from..to]]: a panic when it is out of range. *)
Definition slice (data : bytes) (from to : N) : res string bytes :=
  if decide (from <= to /\ to <= N.of_nat (length data))%N
  then Ok (take (N.to_nat to - N.to_nat from) (drop (N.to_nat from) data)) else Panic.

Definition replay_last (max_bytes : nat) (c : TerminalCapture) : CaptureChunk :=
  let start := length (tc_buffer c) - max_bytes `min` length (tc_buffer c) in
  mkChunk (drop start (tc_buffer c)) (tc_start_offset c + N.of_nat start) (tc_end_offset c) (bool_decide (start = 0)) true.

Definition chunk_start_clamped (start_offset chunk_end : N) (max_bytes : nat) : N :=
  N.max (chunk_end - N.of_nat max_bytes) start_offset.

Definition replay_before (before_offset : N) (max_bytes : nat) (c : TerminalCapture) : res string CaptureChunk :=
  let upper := N.min before_offset (tc_end_offset c) in
  if decide (upper <= tc_start_offset c)%N then Ok (mkChunk [] (tc_start_offset c) (tc_start_offset c) true false)
  else
    let chunk_start := chunk_start_clamped (tc_start_offset c) upper max_bytes in
    let? data := slice (tc_buffer c) (chunk_start - tc_start_offset c) (upper - tc_start_offset c) in
    Ok (mkChunk data chunk_start upper (bool_decide (chunk_start = tc_start_offset c)) false).

Definition forward_chunk (window : bytes) (window_start window_end from_offset until_offset : N) (max_bytes : nat)
    : res string CaptureChunk :=
  let chunk_start := N.max from_offset window_start in
  let cap := if decide (until_offset = 0)%N then window_end else N.min until_offset window_end in
  if decide (cap <= chunk_start)%N then
    Ok (mkChunk [] chunk_start chunk_start (bool_decide (chunk_start = window_start)) true)
  else
    let chunk_end := N.min (u64_saturating_add chunk_start (N.of_nat max_bytes)) cap in
    let? data := slice window (chunk_start - window_start) (chunk_end - window_start) in
    Ok (mkChunk data chunk_start chunk_end (bool_decide (chunk_start = window_start)) (bool_decide (cap <= chunk_end)%N)).

Definition replay_from (from_offset until_offset : N) (max_bytes : nat) (c : TerminalCapture) : res string CaptureChunk :=
  forward_chunk (tc_buffer c) (tc_start_offset c) (tc_end_offset c) from_offset until_offset max_bytes.

(** ** Recordings *)

Record CaptureRecording := mkRecording { rc_start_offset : N; rc_end_offset : N; rc_data : bytes }.

Definition recording_of (c : TerminalCapture) : CaptureRecording :=
  mkRecording (tc_start_offset c) (tc_end_offset c) (tc_buffer c).

Definition recording_replay_from (from_offset until_offset : N) (max_bytes : nat) (r : CaptureRecording) : res string CaptureChunk :=
  forward_chunk (rc_data r) (rc_start_offset r) (rc_end_offset r) from_offset until_offset max_bytes.

Definition MAGIC : bytes := [x54; x44; x44; x59; x43; x41; x50; x00].
Definition VERSION : N := 1.

(** [to_le_bytes] and [from_le_bytes] at a width of [k] bytes. *)
Fixpoint le_bytes (k : nat) (n : N) : bytes :=
  match k with O => [] | S k => byte_of n :: le_bytes k (n / 256) end.

Fixpoint of_le_bytes (b : bytes) : N := match b with [] => 0 | x :: b => Byte.to_N x + 256 * of_le_bytes b end.

Definition encode_recording (r : CaptureRecording) : bytes :=
  MAGIC ++ le_bytes 4 VERSION ++ le_bytes 8 (rc_start_offset r) ++ le_bytes 8 (rc_end_offset r) ++ rc_data r.

Inductive recording_error := EndsInHeader | NotARecording | OtherVersion (version : N) | OffsetsMismatch.

Definition take_bytes (n : nat) (b : bytes) : res recording_error (bytes * bytes) :=
  if decide (n <= length b) then Ok (take n b, drop n b) else Err EndsInHeader.

Definition decode_recording (b : bytes) : res recording_error CaptureRecording :=
  let? magic := take_bytes 8 b in
  if decide (magic.1 <> MAGIC) then Err NotARecording
  else
    let? version := take_bytes 4 magic.2 in
    if decide (of_le_bytes version.1 <> VERSION) then Err (OtherVersion (of_le_bytes version.1))
    else
      let? start := take_bytes 8 version.2 in
      let? finish := take_bytes 8 start.2 in
      let start_offset := of_le_bytes start.1 in
      let end_offset := of_le_bytes finish.1 in
      if decide (end_offset < start_offset \/ end_offset - start_offset <> N.of_nat (length finish.2))%N
      then Err OffsetsMismatch
      else Ok (mkRecording start_offset end_offset finish.2).
End capture.
