(* ===== verification/CaptureSpec.v ===== *)
(** * What a terminal capture guarantees

    Whatever chunks the output arrives in: the ring is a bounded suffix of it at its true
    offsets, cut between escape sequences; a client that attaches late and replays the ring
    ends with the application's mouse modes; the screen model is fed the text of the whole
    output; paging covers the ring; and a recording reads back. *)

From Stdlib Require Import Ascii Strings.Byte.
From stdpp Require Import pretty sorting.
From S2P Require Import Prelude Text NodeIds Framing Utf8 Capture.

Local Open Scope io_scope.

(** ** The parser over a stream *)

Fixpoint run_parser (p : EscapeParser) (bs : bytes) : EscapeParser * list StreamEvent :=
  match bs with
  | [] => (p, [])
  | b :: bs =>
      let '(p, e) := feed b p in
      let '(p, es) := run_parser p bs in
      (p, option_list e ++ es)
  end.

Definition apply_all (es : list StreamEvent) (m : InputModes) : InputModes := foldl (fun m e => apply e m) m es.

Lemma run_parser_app p bs bs' :
  run_parser p (bs ++ bs') =
    ((run_parser (run_parser p bs).1 bs').1, (run_parser p bs).2 ++ (run_parser (run_parser p bs).1 bs').2).
Proof.
  revert p. induction bs as [|b bs IH]; intros p; simpl; [by destruct (run_parser p bs')|].
  destruct (feed b p) as [p1 e]. rewrite IH. destruct (run_parser p1 bs) as [p2 es]. simpl.
  destruct (run_parser p2 bs') as [p3 es']. simpl. by rewrite (assoc_L (++)).
Qed.

Lemma apply_all_app es es' m : apply_all (es ++ es') m = apply_all es' (apply_all es m).
Proof. apply foldl_app. Qed.

Lemma sniff_run bs p m :
  foldl sniff (p, m) bs = ((run_parser p bs).1, apply_all (run_parser p bs).2 m).
Proof.
  revert p m. induction bs as [|b bs IH]; intros p m; [done|]. simpl. unfold sniff at 2. simpl.
  destruct (feed b p) as [p1 e]. rewrite IH. destruct (run_parser p1 bs) as [p2 es]. simpl. by destruct e.
Qed.

Lemma evicted_run bs p : foldl (fun p b => (feed b p).1) p bs = (run_parser p bs).1.
Proof.
  revert p. induction bs as [|b bs IH]; intros p; [done|]. simpl. rewrite IH.
  destruct (feed b p) as [p1 e]. simpl. by destruct (run_parser p1 bs).
Qed.

(** Two parsers that answer alike: outside a control sequence its parameters do not count. *)
Definition same_parser (p q : EscapeParser) : Prop := ep_state p = ep_state q /\ (ep_state p = Csi -> p = q).

#[export] Instance same_parser_equivalence : Equivalence same_parser.
Proof.
  split.
  - by intros p.
  - intros p q [E Hc]. split; [done|]. intros Hq. symmetry. apply Hc. congruence.
  - intros p q r [E1 H1] [E2 H2]. split; [congruence|]. intros Hp. rewrite (H1 Hp). apply H2. congruence.
Qed.

Lemma feed_same b p q : same_parser p q -> same_parser (feed b p).1 (feed b q).1 /\ (feed b p).2 = (feed b q).2.
Proof.
  intros [E Hc]. unfold feed. rewrite <- E. destruct (ep_state p) eqn:Ep.
  - split; [|done]. simpl. case_decide; [by split|]. split; [congruence|]. rewrite Ep. done.
  - destruct (escape_event b); [split; [by split|done]|]. split; [|done]. simpl.
    repeat (case_decide || case_match); solve [reflexivity | by split].
  - split; [|done]. simpl. repeat (case_decide || case_match); by split.
  - rewrite (Hc eq_refl). by split.
  - split; [|done]. simpl. repeat case_decide; by split.
  - split; [|done]. simpl. repeat case_decide; by split.
Qed.

Lemma run_same bs p q :
  same_parser p q -> same_parser (run_parser p bs).1 (run_parser q bs).1 /\ (run_parser p bs).2 = (run_parser q bs).2.
Proof.
  revert p q. induction bs as [|b bs IH]; intros p q Hpq; [done|]. simpl. destruct (feed_same b p q Hpq) as [H1 H2].
  destruct (feed b p) as [p1 e1], (feed b q) as [q1 e2]. simpl in H1, H2. subst e2. destruct (IH _ _ H1) as [H3 H4].
  destruct (run_parser p1 bs), (run_parser q1 bs). simpl in *. by subst.
Qed.

Lemma ground_same p q : at_sequence_boundary p = true -> at_sequence_boundary q = true -> same_parser p q.
Proof.
  intros Hp%bool_decide_eq_true Hq%bool_decide_eq_true. split; [congruence|]. by rewrite Hp.
Qed.

(** ** Modes *)

(** What an event says about a tracked mode. *)
Definition touch (mode : N) (e : StreamEvent) : option bool :=
  match e with
  | PrivateMode modes enabled => if decide (mode ∈ modes) then Some enabled else None
  | FullReset => Some false
  | _ => None
  end.

Definition last_touch (mode : N) (es : list StreamEvent) : option bool := last (omap (touch mode) es).

Lemma input_not_alternate mode : is_input_mode mode = true -> mode ∉ ALTERNATE_SCREEN_MODES.
Proof.
  unfold is_input_mode. rewrite orb_true_iff, !bool_decide_eq_true. intros Hm Ha.
  assert (forallb (fun m => bool_decide (m ∉ MOUSE_TRACKING_MODES) && bool_decide (m ∉ OTHER_INPUT_MODES)) ALTERNATE_SCREEN_MODES = true) as Hf by reflexivity.
  rewrite forallb_forall in Hf. apply list_elem_of_In, Hf in Ha. rewrite andb_true_iff, !bool_decide_eq_true in Ha. tauto.
Qed.

Lemma private_modes_touch enabled modes m mode :
  is_input_mode mode = true ->
  mode ∈ im_enabled (foldl (apply_private_mode enabled) m modes) <->
    (if decide (mode ∈ modes) then enabled = true else mode ∈ im_enabled m).
Proof.
  intros Hi. pose proof (input_not_alternate _ Hi) as Ha. revert m. induction modes as [|x modes IH]; intros m; simpl; [done|].
  rewrite IH. clear IH. unfold apply_private_mode. destruct (decide (mode ∈ modes)) as [Hin|Hin].
  - rewrite decide_True by (by right). done.
  - destruct (decide (mode = x)) as [<-|Hne].
    + rewrite (decide_True _ _ (list_elem_of_here mode modes)), decide_False by done. rewrite Hi. simpl. destruct enabled; set_solver.
    + rewrite (decide_False (P := mode ∈ x :: modes)) by (rewrite elem_of_cons; tauto). case_decide; [done|].
      destruct (is_input_mode x); simpl; [|done]. destruct enabled; set_solver.
Qed.

Lemma apply_touch mode e m :
  is_input_mode mode = true ->
  mode ∈ im_enabled (apply e m) <-> (match touch mode e with Some b => b = true | None => mode ∈ im_enabled m end).
Proof.
  intros Hi. destruct e as [modes enabled| |a|style]; simpl; [|set_solver|done|done].
  rewrite private_modes_touch by done. by case_decide.
Qed.

(** A mode is on after some events exactly when the last one that names it says so. *)
Lemma apply_all_touch mode es m :
  is_input_mode mode = true ->
  mode ∈ im_enabled (apply_all es m) <-> (match last_touch mode es with Some b => b = true | None => mode ∈ im_enabled m end).
Proof.
  intros Hi. unfold last_touch. induction es as [|e es IH] using rev_ind; [done|].
  rewrite apply_all_app. simpl. rewrite apply_touch by done. rewrite omap_app. simpl.
  destruct (touch mode e) as [b|]; [by rewrite last_snoc|]. by rewrite app_nil_r.
Qed.

(** ** The ring *)

Lemma chase_within_limit : MAX_SEQUENCE_CHASE_BYTES <= CAPTURE_LIMIT_BYTES.
Proof. apply Nat.leb_le. reflexivity. Qed.

#[local] Opaque CAPTURE_LIMIT_BYTES MAX_SEQUENCE_CHASE_BYTES.

(** What happens to a capture: output arrives, or the terminal is resized. *)
Inductive capture_op := Output (data : bytes) | Resized (rows cols : N).

Definition output_of (op : capture_op) : bytes := match op with Output data => data | Resized _ _ => [] end.

Definition written (ops : list capture_op) : bytes := concat (output_of <$> ops).

Lemma written_snoc ops op : written (ops ++ [op]) = written ops ++ output_of op.
Proof. unfold written. rewrite fmap_app, concat_app. simpl. by rewrite app_nil_r. Qed.

(** The parser after the first bytes of a stream. *)
Definition parser_at (stream : bytes) (n : nat) : EscapeParser := (run_parser new_parser (take n stream)).1.

Definition stream_modes (stream : bytes) : InputModes := apply_all (run_parser new_parser stream).2 default_modes.

Lemma take_add {A} (l : list A) n b : take (n + b) l = take n l ++ take b (drop n l).
Proof. revert l. induction n as [|n IH]; intros [|x l]; simpl; [done..| |by rewrite IH]. by rewrite take_nil. Qed.

Lemma parser_at_add stream n b : parser_at stream (n + b) = (run_parser (parser_at stream n) (take b (drop n stream))).1.
Proof. unfold parser_at. by rewrite take_add, run_parser_app. Qed.

(** The chase takes some bytes, at most its limit, and stops early only between sequences. *)
Lemma chase_run limit bs p :
  let '(n, q) := chase limit bs p in
  n <= limit /\ n <= length bs /\ q = (run_parser p (take n bs)).1 /\
  (n < limit -> n < length bs -> at_sequence_boundary q = true) /\
  (forall k, k < n -> at_sequence_boundary (run_parser p (take k bs)).1 = false).
Proof.
  revert bs p. induction limit as [|limit IH]; intros bs p; simpl.
  { repeat split; simpl; lia. }
  destruct bs as [|b bs]; [repeat split; simpl; lia || done|].
  destruct (at_sequence_boundary p) eqn:Hb; [repeat split; simpl; lia || done|].
  specialize (IH bs (feed b p).1). destruct (chase limit bs (feed b p).1) as [n q].
  destruct IH as (Hn & Hl & Hq & Hg & Hk). simpl.
  assert (forall k, (run_parser p (take (S k) (b :: bs))).1 = (run_parser (feed b p).1 (take k bs)).1) as Hstep.
  { intros k. simpl. destruct (feed b p) as [p1 e]. simpl. by destruct (run_parser p1 (take k bs)). }
  split_and!; [lia|lia| | |].
  - by rewrite Hq, <- Hstep.
  - intros. apply Hg; lia.
  - intros [|k] Hlt; [done|]. rewrite Hstep. apply Hk. lia.
Qed.

Section ring.
Context `{Screen}.

Definition capture_step (c : TerminalCapture) (op : capture_op) : TerminalCapture :=
  match op with Output data => append_output data c | Resized rows cols => resize rows cols c end.

Definition captured (ops : list capture_op) : TerminalCapture := foldl capture_step new_capture ops.

(** The ring against the whole stream: it is the stream from its start offset, bounded, and
    never shorter than the limit less one chase; the sniffer has read the stream and the
    eviction parser what was evicted. *)
Record ring_of (stream : bytes) (c : TerminalCapture) : Prop := {
  ring_end : tc_end_offset c = N.of_nat (length stream);
  ring_start : N.to_nat (tc_start_offset c) <= length stream;
  ring_buffer : tc_buffer c = drop (N.to_nat (tc_start_offset c)) stream;
  ring_bounded : length (tc_buffer c) <= CAPTURE_LIMIT_BYTES;
  ring_filled : tc_start_offset c = 0%N \/ CAPTURE_LIMIT_BYTES - MAX_SEQUENCE_CHASE_BYTES <= length (tc_buffer c);
  ring_sniffer : tc_sniffer c = (run_parser new_parser stream).1;
  ring_modes : tc_modes c = stream_modes stream;
  ring_evicted : tc_evicted c = parser_at stream (N.to_nat (tc_start_offset c));
}.

(** The buffer before eviction is the stream from its start offset; eviction keeps that. *)
Lemma evict_ring stream c :
  (N.of_nat (length stream) <= u64_max)%N ->
  tc_end_offset c = N.of_nat (length stream) ->
  N.to_nat (tc_start_offset c) <= length stream ->
  tc_buffer c = drop (N.to_nat (tc_start_offset c)) stream ->
  tc_start_offset c = 0%N \/ CAPTURE_LIMIT_BYTES - MAX_SEQUENCE_CHASE_BYTES <= length (tc_buffer c) ->
  tc_sniffer c = (run_parser new_parser stream).1 ->
  tc_modes c = stream_modes stream ->
  tc_evicted c = parser_at stream (N.to_nat (tc_start_offset c)) ->
  ring_of stream (evict_to_limit c).
Proof.
  intros Hu He Hs Hb Hf Hsn Hm Hev. unfold evict_to_limit. case_decide as Ho; [by constructor; [..|lia| | | |]|].
  rewrite evicted_run. set (overflow := length (tc_buffer c) - CAPTURE_LIMIT_BYTES) in *.
  assert (length (tc_buffer c) = length stream - N.to_nat (tc_start_offset c)) as Hlen by (by rewrite Hb, length_drop).
  pose proof (chase_run MAX_SEQUENCE_CHASE_BYTES (drop overflow (tc_buffer c)) (run_parser (tc_evicted c) (take overflow (tc_buffer c))).1) as Hch.
  destruct (chase _ _ _) as [n q]. destruct Hch as (Hn & Hl & Hq & _). rewrite length_drop in Hl.
  assert (CAPTURE_LIMIT_BYTES <= length (tc_buffer c)) by lia.
  assert (N.to_nat (u64_saturating_add (tc_start_offset c) (N.of_nat (overflow + n))) =
            N.to_nat (tc_start_offset c) + (overflow + n)) as Hstart by (unfold u64_saturating_add; lia).
  constructor; simpl; rewrite ?Hstart, ?length_drop; try done; try lia.
  - by rewrite Hb, drop_drop.
  - rewrite Hq, Hev, Hb, Nat.add_assoc, !parser_at_add, drop_drop. done.
Qed.

Lemma append_ring stream c data :
  (N.of_nat (length (stream ++ data)) <= u64_max)%N -> ring_of stream c -> ring_of (stream ++ data) (append_output data c).
Proof.
  intros Hu [He Hs Hb _ Hf Hsn Hm Hev]. rewrite length_app in Hu. unfold append_output, sniff_modes, feed_screen.
  destruct (screen_text _ _) as [fed pending]. simpl. rewrite sniff_run, Hsn, Hm.
  apply evict_ring; simpl; rewrite ?length_app; try done.
  - rewrite He. unfold u64_saturating_add. lia.
  - lia.
  - rewrite Hb, drop_app_le by lia. done.
  - rewrite Hb, length_drop in Hf. rewrite Hb, length_drop. lia.
  - by rewrite run_parser_app.
  - unfold stream_modes. rewrite run_parser_app. simpl. by rewrite apply_all_app.
  - rewrite Hev. unfold parser_at. by rewrite take_app_le by lia.
Qed.

Lemma ring_new : ring_of [] new_capture.
Proof. constructor; simpl; lia || done || (by left) || reflexivity. Qed.

Lemma resize_ring stream rows cols c : ring_of stream c -> ring_of stream (resize rows cols c).
Proof. by intros []; constructor. Qed.

Lemma captured_snoc ops op : captured (ops ++ [op]) = capture_step (captured ops) op.
Proof. unfold captured. by rewrite foldl_snoc. Qed.

(** However the output arrives, the ring is a bounded suffix of it. *)
Lemma captured_ring ops : (N.of_nat (length (written ops)) <= u64_max)%N -> ring_of (written ops) (captured ops).
Proof.
  induction ops as [|op ops IH] using rev_ind; [intros; apply ring_new|]. rewrite written_snoc, captured_snoc. intros Hu.
  assert (ring_of (written ops) (captured ops)) as Hr by (apply IH; rewrite length_app in Hu; lia).
  destruct op as [data|rows cols]; simpl in *; [by apply append_ring|]. rewrite app_nil_r. by apply resize_ring.
Qed.
End ring.

(** A stream none of whose sequences is longer than the chase: from any byte, a boundary is
    within reach. *)
Definition short_sequences (stream : bytes) : Prop :=
  forall n, n + MAX_SEQUENCE_CHASE_BYTES <= length stream ->
    exists k, k <= MAX_SEQUENCE_CHASE_BYTES /\ at_sequence_boundary (parser_at stream (n + k)) = true.

Section boundary.
Context `{Screen}.

Lemma evict_boundary stream c :
  short_sequences stream ->
  N.to_nat (tc_start_offset c) <= length stream ->
  (N.of_nat (length stream) <= u64_max)%N ->
  tc_buffer c = drop (N.to_nat (tc_start_offset c)) stream ->
  tc_evicted c = parser_at stream (N.to_nat (tc_start_offset c)) ->
  at_sequence_boundary (tc_evicted c) = true ->
  at_sequence_boundary (tc_evicted (evict_to_limit c)) = true.
Proof.
  intros Hshort Hs Hu Hb Hev Hg. unfold evict_to_limit. case_decide as Ho; [done|].
  rewrite evicted_run. set (overflow := length (tc_buffer c) - CAPTURE_LIMIT_BYTES) in *.
  pose proof chase_within_limit as Hlim.
  assert (length (tc_buffer c) = length stream - N.to_nat (tc_start_offset c)) as Hlen by (by rewrite Hb, length_drop).
  destruct (Hshort (N.to_nat (tc_start_offset c) + overflow)) as (k & Hk & Hkg); [lia|].
  pose proof (chase_run MAX_SEQUENCE_CHASE_BYTES (drop overflow (tc_buffer c)) (run_parser (tc_evicted c) (take overflow (tc_buffer c))).1) as Hch.
  assert (forall j, (run_parser (run_parser (tc_evicted c) (take overflow (tc_buffer c))).1 (take j (drop overflow (tc_buffer c)))).1 =
            parser_at stream (N.to_nat (tc_start_offset c) + overflow + j)) as Hrun.
  { intros j. rewrite !parser_at_add, Hev, Hb, drop_drop. done. }
  destruct (chase _ _ _) as [n q]. destruct Hch as (Hn & Hl & Hq & Hstop & Hbusy). rewrite length_drop in Hl, Hstop.
  simpl. destruct (decide (n < MAX_SEQUENCE_CHASE_BYTES)); [apply Hstop; lia|].
  destruct (decide (k < n)) as [Hlt|]; [specialize (Hbusy k Hlt); rewrite Hrun in Hbusy; congruence|].
  replace n with k in Hq by lia. by rewrite Hq, Hrun.
Qed.

Lemma parser_at_prefix stream data n : n <= length stream -> parser_at (stream ++ data) n = parser_at stream n.
Proof. intros Hn. unfold parser_at. by rewrite take_app_le. Qed.

Lemma short_prefix stream data : short_sequences (stream ++ data) -> short_sequences stream.
Proof.
  intros Hs n Hn. destruct (Hs n) as (k & Hk & Hg); [rewrite length_app; lia|].
  exists k. by rewrite parser_at_prefix in Hg by lia.
Qed.

Lemma append_boundary stream c data :
  (N.of_nat (length (stream ++ data)) <= u64_max)%N -> short_sequences (stream ++ data) -> ring_of stream c ->
  at_sequence_boundary (tc_evicted c) = true -> at_sequence_boundary (tc_evicted (append_output data c)) = true.
Proof.
  intros Hu Hshort [He Hs Hb _ Hf Hsn Hm Hev] Hg. unfold append_output, sniff_modes, feed_screen.
  destruct (screen_text _ _) as [fed pending]. simpl. rewrite sniff_run. simpl.
  apply (evict_boundary (stream ++ data)); simpl; rewrite ?length_app in *; try done; [lia| |].
  - rewrite Hb, drop_app_le by lia. done.
  - rewrite Hev. by rewrite parser_at_prefix by lia.
Qed.

(** When no sequence outlives the chase, the ring starts between sequences. *)
Lemma captured_boundary ops :
  (N.of_nat (length (written ops)) <= u64_max)%N -> short_sequences (written ops) ->
  at_sequence_boundary (tc_evicted (captured ops)) = true.
Proof.
  induction ops as [|op ops IH] using rev_ind; [done|]. rewrite written_snoc, captured_snoc. intros Hu Hshort.
  assert (N.of_nat (length (written ops)) <= u64_max)%N as Hu' by (rewrite length_app in Hu; lia).
  specialize (IH Hu' (short_prefix _ _ Hshort)). destruct op as [data|rows cols]; simpl in *; [|done].
  apply (append_boundary (written ops)); [done..|by apply captured_ring|done].
Qed.
End boundary.

(** ** A late subscriber *)

(** The modes a terminal is in after some bytes. *)
Definition terminal_modes (bs : bytes) : InputModes := (foldl sniff (new_parser, default_modes) bs).2.

Lemma terminal_modes_run bs : terminal_modes bs = stream_modes bs.
Proof. unfold terminal_modes. by rewrite sniff_run. Qed.

Lemma set_mode_events p mode :
  mode ∈ MOUSE_TRACKING_MODES -> at_sequence_boundary p = true ->
  (run_parser p (set_mode mode)).2 = [PrivateMode [mode] true] /\ at_sequence_boundary (run_parser p (set_mode mode)).1 = true.
Proof.
  intros Hm Hp. assert (same_parser p new_parser) as Hs by (by apply ground_same).
  destruct (run_same (set_mode mode) _ _ Hs) as [[H1 _] H2]. unfold at_sequence_boundary. rewrite H1, H2.
  clear - Hm. unfold MOUSE_TRACKING_MODES in Hm. rewrite !elem_of_cons in Hm.
  destruct Hm as [->|[->|[->|[->|[->|[->|[->|Hm]]]]]]]; [by split..|by apply elem_of_nil in Hm].
Qed.

Lemma set_modes_events p modes :
  Forall (fun mode => mode ∈ MOUSE_TRACKING_MODES) modes -> at_sequence_boundary p = true ->
  (run_parser p (concat (set_mode <$> modes))).2 = (fun mode => PrivateMode [mode] true) <$> modes /\
  at_sequence_boundary (run_parser p (concat (set_mode <$> modes))).1 = true.
Proof.
  intros Hf. revert p. induction Hf as [|mode modes Hm Hf IH]; intros p Hp; [done|]. rewrite fmap_cons. cbn [concat].
  rewrite run_parser_app. cbn [fst snd]. destruct (set_mode_events p mode Hm Hp) as [E G]. destruct (IH _ G) as [E' G'].
  by rewrite E, E'.
Qed.

Lemma last_touch_sets mode modes :
  last_touch mode ((fun m => PrivateMode [m] true) <$> modes) = if decide (mode ∈ modes) then Some true else None.
Proof.
  unfold last_touch. induction modes as [|m modes IH] using rev_ind; [done|].
  rewrite fmap_app, omap_app. simpl. destruct (decide (mode ∈ [m])) as [E|E].
  - rewrite last_snoc, decide_True; [done|]. apply elem_of_app. by right.
  - rewrite app_nil_r, IH. apply decide_ext. rewrite elem_of_app. tauto.
Qed.

Lemma last_touch_app mode es es' :
  last_touch mode (es ++ es') = match last_touch mode es' with Some b => Some b | None => last_touch mode es end.
Proof. unfold last_touch. rewrite omap_app, last_app. by destruct (last (omap (touch mode) es')). Qed.

Lemma mouse_is_input mode : mode ∈ MOUSE_TRACKING_MODES -> is_input_mode mode = true.
Proof. intros Hm. unfold is_input_mode. by rewrite bool_decide_true. Qed.

Lemma stream_modes_split stream k :
  stream_modes stream = apply_all (run_parser (parser_at stream k) (drop k stream)).2 (stream_modes (take k stream)).
Proof.
  unfold stream_modes, parser_at. rewrite <- apply_all_app.
  replace (run_parser new_parser stream) with (run_parser new_parser (take k stream ++ drop k stream)) by (by rewrite take_drop).
  by rewrite run_parser_app.
Qed.

Section subscriber.
Context `{Screen}.

Lemma replay_modes stream c mode :
  ring_of stream c -> at_sequence_boundary (tc_evicted c) = true -> mode ∈ MOUSE_TRACKING_MODES ->
  mode ∈ im_enabled (terminal_modes (replay c)) <-> mode ∈ im_enabled (stream_modes stream).
Proof.
  intros [_ _ Hb _ _ _ Hmodes Hev] Hg Hm. rewrite terminal_modes_run. pose proof (mouse_is_input _ Hm) as Hi.
  set (on := filter (fun mode => mode ∈ MOUSE_TRACKING_MODES) (ascending (im_enabled (tc_modes c)))).
  destruct (set_modes_events new_parser on) as [Ep Gp]; [|done|].
  { apply Forall_forall. intros m Hin. by apply list_elem_of_filter in Hin as [? _]. }
  assert (mode ∈ on <-> mode ∈ im_enabled (stream_modes stream)) as Hon.
  { unfold on, ascending. rewrite list_elem_of_filter, merge_sort_Permutation, elem_of_elements, Hmodes. tauto. }
  unfold stream_modes at 1. unfold replay, prologue. fold on. rewrite run_parser_app. cbn [snd].
  rewrite Ep, (proj2 (run_same (tc_buffer c) _ _ (ground_same _ _ Gp Hg))).
  rewrite apply_all_touch, last_touch_app, last_touch_sets by done.
  rewrite Hev, Hb. set (k := N.to_nat (tc_start_offset c)).
  destruct (last_touch mode (run_parser (parser_at stream k) (drop k stream)).2) as [b|] eqn:Hlast.
  - by rewrite (stream_modes_split stream k), apply_all_touch, Hlast by done.
  - case_decide as Hin; [by rewrite <- Hon|]. rewrite Hon in Hin. cbn. set_solver.
Qed.

End subscriber.

(** A terminal that is not there. *)
Definition blank_screen : Screen := {|
  scr := N * N;
  scr_new cols rows := (cols, rows);
  scr_feed _ s := s;
  scr_resize cols rows _ := (cols, rows);
  scr_size s := s;
  scr_dump _ := [];
  scr_first_cell _ := None;
|}.

(** Mouse reporting switched on, then more text than the ring holds. *)
Definition mouse_then_text : list capture_op :=
  [Resized 24 80; Output (set_mode 1000); Output (replicate 70000 x61)].

Lemma run_text p n : at_sequence_boundary p = true -> run_parser p (replicate n x61) = (p, []).
Proof.
  intros Hp. assert (feed x61 p = (p, None)) as E.
  { apply bool_decide_eq_true in Hp. unfold feed. by rewrite Hp. }
  induction n as [|n IH]; [done|]. cbn [replicate run_parser]. by rewrite E, IH.
Qed.

Lemma text_short stream n :
  at_sequence_boundary (run_parser new_parser stream).1 = true -> length stream <= MAX_SEQUENCE_CHASE_BYTES ->
  short_sequences (stream ++ replicate n x61).
Proof.
  intros Hg Hl i Hi. exists (length stream - i). split; [lia|]. unfold parser_at.
  rewrite take_app, take_replicate, run_parser_app, take_ge by lia. cbn [fst]. by rewrite run_text.
Qed.

Lemma written_mouse : written mouse_then_text = set_mode 1000 ++ replicate 70000 x61.
Proof. unfold written, mouse_then_text, output_of. cbn [fmap list_fmap concat app]. by rewrite app_nil_r. Qed.

