(* ===== verification/ScreenText.v ===== *)
(** * The text a capture feeds its screen

    Output arrives in chunks that cut characters anywhere; the screen model is fed text.
    [str::from_utf8]'s verdict on some bytes is related to the text they are read as, the
    loop of [feed_screen] to the text of a chunk after what was held back, and the chunks to
    the text of the whole output. *)

From Stdlib Require Import Ascii Strings.Byte.
From stdpp Require Import pretty sorting.
From S2P Require Import Prelude Text NodeIds Framing Utf8 Capture CaptureSpec.
Local Open Scope io_scope.

Notation lossy := (utf8_lossy_go [] 0 (128, 191)%N).

(** [seen] is the head of a character, [need] bytes short of it. *)
Definition partial (seen : bytes) (need : nat) (range : N * N) : Prop :=
  (need = 0 <-> seen = []) /\ length seen + need <= 4 /\
  forall more, lossy (seen ++ more) = utf8_lossy_go seen need range more.

Lemma partial_ground range : partial [] 0 range.
Proof. split_and!; [done|simpl; lia|]. by intros [|x more]. Qed.

Lemma utf8_lead_need x n r : utf8_lead x = Some (n, r) -> n <= 3.
Proof. unfold utf8_lead. intros E. repeat case_decide; simplify_eq; lia. Qed.

Lemma partial_lead x n r : utf8_lead (Byte.to_N x) = Some (S n, r) -> partial [x] (S n) r.
Proof.
  intros E. pose proof (utf8_lead_need _ _ _ E). split_and!; [done|simpl; lia|]. intros more. simpl. by rewrite E.
Qed.

Lemma partial_next seen need range x :
  partial seen (S (S need)) range -> (range.1 <= Byte.to_N x <= range.2)%N -> partial (seen ++ [x]) (S need) (128, 191)%N.
Proof.
  intros (_ & Hl & Hp) Hx. split_and!; [by destruct seen|rewrite length_app; simpl; lia|].
  intros more. rewrite <- (assoc_L (++)), Hp. simpl. by rewrite decide_True.
Qed.

(** What [str::from_utf8]'s verdict on some bytes says about them, read after [seen]. *)
Definition verdict_of (w : bytes) (valid : nat) (verdict : option (nat * option nat)) : Prop :=
  match verdict with
  | None => forall more, lossy (w ++ more) = w ++ lossy more
  | Some (v, None) => exists good rest, w = good ++ rest /\ v = valid + length good /\ 0 < length rest <= 3 /\
      forall more, lossy (w ++ more) = good ++ lossy (rest ++ more)
  | Some (v, Some n) => exists good bad rest, w = good ++ bad ++ rest /\ v = valid + length good /\ n = length bad /\ 0 < n /\
      forall more, lossy (w ++ more) = good ++ REPLACEMENT ++ lossy (rest ++ more)
  end.

(** Characters read before are kept. *)
Lemma verdict_prefix c w valid verdict :
  (forall more, lossy (c ++ more) = c ++ lossy more) ->
  verdict_of w (valid + length c) verdict -> verdict_of (c ++ w) valid verdict.
Proof.
  intros Hc. destruct verdict as [[v [n|]]|]; simpl.
  - intros (good & bad & rest & -> & -> & -> & Hn & Hm). exists (c ++ good), bad, rest.
    rewrite length_app. split_and!; [by rewrite !(assoc_L (++))|lia|done|done|].
    intros more. rewrite <- !(assoc_L (++)), Hc. f_equal. by rewrite !(assoc_L (++)) in *.
  - intros (good & rest & -> & -> & Hn & Hm). exists (c ++ good), rest.
    rewrite length_app. split_and!; [by rewrite !(assoc_L (++))|lia|lia|lia|].
    intros more. rewrite <- !(assoc_L (++)), Hc. f_equal. by rewrite !(assoc_L (++)) in *.
  - intros Hm more. by rewrite <- !(assoc_L (++)), Hc, Hm.
Qed.

Lemma utf8_error_verdict b seen need range valid :
  partial seen need range -> verdict_of (seen ++ b) valid (utf8_error valid (length seen) need range b).
Proof.
  revert seen need range valid. induction b as [|x b IH]; intros seen need range valid Hp.
  - destruct Hp as (Hz & Hl & Hp). simpl. case_decide as Hn.
    + intros more. by rewrite app_nil_r, (proj1 Hz).
    + exists [], seen. rewrite app_nil_r. simpl. split_and!; [done|lia| |lia|done].
      destruct seen as [|y seen]; simpl; [|lia]. by destruct Hn; apply Hz.
  - simpl. destruct need as [|need].
    + destruct Hp as (Hz & _ & _). rewrite (proj1 Hz) by done. simpl. clear Hz.
      destruct (utf8_lead (Byte.to_N x)) as [[[|n] r]|] eqn:E.
      * apply (verdict_prefix [x]); [intros more; simpl; by rewrite E|]. simpl. rewrite Nat.add_1_r. apply (IH [] 0), partial_ground.
      * apply (IH [x] (S n)), partial_lead, E.
      * exists [], [x], b. simpl. split_and!; [done|lia|done|lia|]. intros more. by rewrite E.
    + case_decide as Hx.
      * destruct need as [|need].
        -- replace (seen ++ x :: b) with ((seen ++ [x]) ++ b) by (by rewrite <- (assoc_L (++))).
           apply verdict_prefix; [|rewrite length_app; simpl; rewrite Nat.add_1_r; apply (IH [] 0), partial_ground].
           destruct Hp as (_ & _ & Hp). intros more. rewrite <- !(assoc_L (++)), Hp. simpl. by rewrite decide_True, <- (assoc_L (++)).
        -- replace (seen ++ x :: b) with ((seen ++ [x]) ++ b) by (by rewrite <- (assoc_L (++))).
           replace (S (length seen)) with (length (seen ++ [x])) by (rewrite length_app; simpl; lia).
           eapply IH, partial_next; done.
      * destruct Hp as (Hz & _ & Hp). exists [], seen, (x :: b). simpl. split_and!; [done|lia|done| |].
        -- destruct seen as [|y seen]; simpl; [|lia]. by discriminate (proj2 Hz).
        -- intros more. rewrite <- (assoc_L (++)), Hp. simpl. by rewrite decide_False.
Qed.

(** The loop feeds the text of the bytes, but for the head of a character at their end,
    which it holds back. *)
Lemma screen_text_lossy fuel b fed pending :
  length b <= fuel -> screen_text fuel b = (fed, pending) ->
  length pending <= 3 /\ forall more, lossy (b ++ more) = concat fed ++ lossy (pending ++ more).
Proof.
  revert b fed pending. induction fuel as [|fuel IH]; intros b fed pending Hl.
  { destruct b; simpl in *; [|lia]. intros [= <- <-]. simpl. split; [lia|done]. }
  destruct b as [|x b]; [intros [= <- <-]; simpl; split; [lia|done]|].
  cbn [screen_text]. pose proof (utf8_error_verdict (x :: b) [] 0 (128, 191)%N 0 (partial_ground _)) as Hv.
  cbn [app length] in Hv. destruct (utf8_error 0 0 0 (128, 191)%N (x :: b)) as [[v [n|]]|]; cbn [verdict_of] in Hv.
  - destruct Hv as (good & bad & rest & Hb & -> & -> & Hn & Hm).
    destruct (screen_text fuel _) as [fed' pending'] eqn:E. intros [= <- <-].
    rewrite Hb in E |- *. rewrite (assoc_L (++)), drop_app_length' in E by (rewrite length_app; simpl; lia).
    apply IH in E as [Hp Hmore]; [|apply (f_equal length) in Hb; rewrite !length_app in Hb; simpl in *; lia].
    split; [done|]. intros more. rewrite <- Hb, Hm, Hb, take_app_length' by (simpl; lia).
    cbn [concat]. by rewrite <- !(assoc_L (++)), Hmore.
  - destruct Hv as (good & rest & Hb & -> & Hn & Hm). intros [= <- <-].
    rewrite Hb. cbn [Nat.add]. rewrite take_app_length, drop_app_length. cbn [concat]. rewrite app_nil_r.
    split; [lia|]. intros more. by rewrite <- Hb.
  - intros [= <- <-]. simpl. rewrite app_nil_r. split; [lia|]. intros more. exact (Hv more).
Qed.

(** What the capture relies on of its screen model: text may be fed in parts. *)
Class ScreenLaws (Sc : Screen) : Prop := {
  scr_feed_nil : forall s, scr_feed [] s = s;
  scr_feed_app : forall a b s, scr_feed (a ++ b) s = scr_feed b (scr_feed a s);
}.

Section text.
Context {Sc : Screen} {Laws : ScreenLaws Sc}.

Lemma feed_texts texts s : foldl (fun s t => scr_feed t s) s texts = scr_feed (concat texts) s.
Proof.
  revert s. induction texts as [|t texts IH]; intros s; simpl; [by rewrite scr_feed_nil|]. by rewrite IH, scr_feed_app.
Qed.

Lemma evict_screen c :
  tc_screen (evict_to_limit c) = tc_screen c /\ tc_pending_utf8 (evict_to_limit c) = tc_pending_utf8 c.
Proof. unfold evict_to_limit. case_decide; [done|]. by destruct (chase _ _ _). Qed.

Lemma append_text data c :
  exists text, tc_screen (append_output data c) = scr_feed text (tc_screen c) /\
    length (tc_pending_utf8 (append_output data c)) <= 3 /\
    forall more, lossy (tc_pending_utf8 c ++ data ++ more) = text ++ lossy (tc_pending_utf8 (append_output data c) ++ more).
Proof.
  unfold append_output, sniff_modes, feed_screen.
  destruct (screen_text (length (tc_pending_utf8 c ++ data)) (tc_pending_utf8 c ++ data)) as [fed pending] eqn:E. simpl.
  destruct (foldl sniff _ data) as [p m]. match goal with |- context [evict_to_limit ?c] => destruct (evict_screen c) as [-> ->] end.
  simpl. apply screen_text_lossy in E as [Hp Hm]; [|done]. exists (concat fed). rewrite feed_texts. split_and!; [done..|].
  intros more. by rewrite (assoc_L (++)), Hm.
Qed.

(** C14. However the output is cut into chunks, the screen model has been fed the text of the
    whole of it: what it was fed, followed by what the held back bytes (at most three) would
    read as, is the output read as UTF-8 with every malformed part replaced by one U+FFFD.
    In particular a character cut by a chunk's end reaches the screen whole, and once nothing
    is held back the screen has the whole text. *)
Theorem screen_shows_the_output rows cols chunks :
  let c0 := resize rows cols new_capture in
  let c := foldl (fun c data => append_output data c) c0 chunks in
  exists text, tc_screen c = scr_feed text (tc_screen c0) /\ length (tc_pending_utf8 c) <= 3 /\
    text ++ lossy (tc_pending_utf8 c) = lossy (concat chunks).
Proof.
  intros c0 c.
  assert (exists text, tc_screen c = scr_feed text (tc_screen c0) /\ length (tc_pending_utf8 c) <= 3 /\
    forall more, text ++ lossy (tc_pending_utf8 c ++ more) = lossy (concat chunks ++ more)) as (text & Hs & Hp & Hm).
  { unfold c. clear c. induction chunks as [|data chunks IH] using rev_ind.
    - exists []. rewrite scr_feed_nil. split_and!; [done|simpl; lia|done].
    - destruct IH as (text & Hs & Hp & Hm). rewrite foldl_snoc.
      set (c := foldl _ c0 chunks) in *. destruct (append_text data c) as (text' & Hs' & Hp' & Hm').
      exists (text ++ text'). rewrite scr_feed_app, <- Hs, Hs'. split_and!; [done..|].
      intros more. rewrite <- (assoc_L (++)), <- Hm', Hm, concat_app. simpl. by rewrite app_nil_r, <- (assoc_L (++)). }
  exists text. specialize (Hm []). rewrite !app_nil_r in Hm. done.
Qed.
End text.

(** A screen that keeps what it was fed. *)
Definition paper : Screen := {|
  scr := bytes;
  scr_new _ _ := [];
  scr_feed t s := s ++ t;
  scr_resize _ _ s := s;
  scr_size _ := (80, 24)%N;
  scr_dump s := Byte.to_N <$> s;
  scr_first_cell _ := None;
|}.

#[export] Instance paper_laws : ScreenLaws paper.
Proof. split; [apply app_nil_r|]. intros a b s. simpl. apply (assoc_L (++)). Qed.

(** A euro sign cut in two, then a stray byte. *)
Lemma screen_shows_the_output_witness :
  let c := foldl (fun c data => @append_output paper data c) (resize 24 80 new_capture) [[x61; xe2]; [x82; xac; xff]; [x62; xf0]] in
  tc_pending_utf8 c = [xf0] /\
  exists text, tc_screen c = [] ++ text /\ text ++ REPLACEMENT = [x61; xe2; x82; xac] ++ REPLACEMENT ++ [x62] ++ REPLACEMENT.
Proof.
  intros c. split; [reflexivity|].
  destruct (@screen_shows_the_output paper paper_laws 24 80 [[x61; xe2]; [x82; xac; xff]; [x62; xf0]]) as (text & Hs & _ & Ht).
  exists text. split; [exact Hs|]. exact Ht.
Defined.
