(* ===== verification/CapturePaging.v ===== *)
(** * Paging a capture, and its recording on disk

    A page of the ring is the slice of the output its offsets say, paging never panics, and
    paging forward covers the ring; a recording reads back exactly, answers the pages the
    live ring answered, and nothing else is read as one. *)

From Stdlib Require Import Ascii Strings.Byte.
From stdpp Require Import pretty sorting.
From S2P Require Import Prelude Text NodeIds Framing Utf8 Capture CaptureSpec.

Local Open Scope io_scope.

#[local] Opaque CAPTURE_LIMIT_BYTES MAX_SEQUENCE_CHASE_BYTES.

(** The bytes of a stream between two offsets. *)
Definition between_offsets (stream : bytes) (from to : N) : bytes :=
  take (N.to_nat to - N.to_nat from) (drop (N.to_nat from) stream).

Lemma between_join stream a b c :
  (a <= b)%N -> (b <= c)%N -> between_offsets stream a b ++ between_offsets stream b c = between_offsets stream a c.
Proof.
  intros Hab Hbc. unfold between_offsets.
  replace (N.to_nat c - N.to_nat a) with ((N.to_nat b - N.to_nat a) + (N.to_nat c - N.to_nat b)) by lia.
  rewrite take_add, drop_drop. by replace (N.to_nat a + (N.to_nat b - N.to_nat a)) with (N.to_nat b) by lia.
Qed.

Lemma length_between stream a b :
  (a <= b)%N -> (b <= N.of_nat (length stream))%N -> length (between_offsets stream a b) = N.to_nat b - N.to_nat a.
Proof. intros Hab Hb. unfold between_offsets. rewrite length_take, length_drop. lia. Qed.

Lemma between_prefix stream data a b : (b <= N.of_nat (length stream))%N ->
  between_offsets (stream ++ data) a b = between_offsets stream a b.
Proof.
  intros Hb. unfold between_offsets. destruct (decide (N.to_nat a <= length stream)).
  - rewrite drop_app_le, take_app_le by (rewrite ?length_drop; lia). done.
  - replace (N.to_nat b - N.to_nat a) with 0 by lia. done.
Qed.

Lemma between_all stream n : between_offsets stream (N.of_nat n) (N.of_nat (length stream)) = drop n stream.
Proof. unfold between_offsets. rewrite !Nat2N.id. by rewrite take_ge by (rewrite length_drop; lia). Qed.

Section paging.
Context `{Screen}.

(** A slice of the ring is a slice of the stream. *)
Lemma ring_slice stream c a b :
  ring_of stream c -> (tc_start_offset c <= a)%N -> (a <= b)%N -> (b <= tc_end_offset c)%N ->
  slice (tc_buffer c) (a - tc_start_offset c) (b - tc_start_offset c) = Ok (between_offsets stream a b).
Proof.
  intros [He Hs Hb _ _ _ _ _] Ha Hab Hbe. unfold slice. rewrite Hb, length_drop, decide_True by lia.
  unfold between_offsets. rewrite drop_drop.
  replace (N.to_nat (tc_start_offset c) + N.to_nat (a - tc_start_offset c)) with (N.to_nat a) by lia.
  by replace (N.to_nat (b - tc_start_offset c) - N.to_nat (a - tc_start_offset c)) with (N.to_nat b - N.to_nat a) by lia.
Qed.

(** The upper bound of a forward page. *)
Definition fill_cap (until_offset : N) (c : TerminalCapture) : N :=
  if decide (until_offset = 0)%N then tc_end_offset c else N.min until_offset (tc_end_offset c).

Lemma fill_cap_le until_offset c : (fill_cap until_offset c <= tc_end_offset c)%N.
Proof. unfold fill_cap. case_decide; lia. Qed.

Lemma replay_from_slice stream c from_offset until_offset max_bytes :
  ring_of stream c -> (N.of_nat (length stream) <= u64_max)%N ->
  let start := N.max from_offset (tc_start_offset c) in
  let cap := fill_cap until_offset c in
  exists chunk, replay_from from_offset until_offset max_bytes c = Ok chunk /\
    ch_start_offset chunk = start /\ ch_data chunk = between_offsets stream start (ch_end_offset chunk) /\
    ch_end_offset chunk = (if decide (cap <= start) then start else N.min (start + N.of_nat max_bytes) cap)%N /\
    ch_at_oldest chunk = bool_decide (start = tc_start_offset c) /\
    ch_at_end chunk = bool_decide (cap <= ch_end_offset chunk)%N.
Proof.
  intros Hr Hu start cap. pose proof (fill_cap_le until_offset c) as Hcap. pose proof (ring_end _ _ Hr) as He.
  unfold replay_from, forward_chunk. fold (fill_cap until_offset c). fold cap. fold start. case_decide as Hc.
  - eexists. split; [done|]. simpl. split_and!; try done.
    + unfold between_offsets. by rewrite Nat.sub_diag.
    + by rewrite bool_decide_true.
  - assert (u64_saturating_add start (N.of_nat max_bytes) `min` cap = (start + N.of_nat max_bytes) `min` cap)%N as ->.
    { unfold u64_saturating_add. subst cap. lia. }
    rewrite (ring_slice stream); [|done|subst start; lia|lia|subst cap; lia]. eexists. split; [done|]. simpl. done.
Qed.

Lemma replay_last_slice stream c max_bytes :
  ring_of stream c ->
  let chunk := replay_last max_bytes c in
  ch_end_offset chunk = N.of_nat (length stream) /\
  ch_data chunk = between_offsets stream (ch_start_offset chunk) (ch_end_offset chunk) /\
  length (ch_data chunk) = max_bytes `min` length (tc_buffer c).
Proof.
  intros [He Hs Hb _ _ _ _ _]. simpl. rewrite He, length_drop. split; [done|]. split; [|lia].
  set (k := length (tc_buffer c) - max_bytes `min` length (tc_buffer c)). rewrite Hb, drop_drop.
  rewrite <- (between_all stream). f_equal. lia.
Qed.

Lemma replay_before_slice stream c before_offset max_bytes :
  ring_of stream c ->
  exists chunk, replay_before before_offset max_bytes c = Ok chunk /\
    ch_data chunk = between_offsets stream (ch_start_offset chunk) (ch_end_offset chunk) /\
    (ch_at_oldest chunk = true <-> ch_start_offset chunk = tc_start_offset c) /\
    ch_end_offset chunk = N.max (N.min before_offset (tc_end_offset c)) (tc_start_offset c).
Proof.
  intros Hr. pose proof Hr as [He Hs _ _ _ _ _ _]. unfold replay_before, chunk_start_clamped. case_decide as Hc.
  - eexists. split; [done|]. simpl. split_and!; [|done|lia]. unfold between_offsets. by rewrite Nat.sub_diag.
  - rewrite (ring_slice stream) by (done || lia). eexists. split; [done|]. simpl.
    rewrite bool_decide_eq_true. split_and!; [done..|lia].
Qed.
End paging.

(** ** Recordings *)

Lemma length_le_bytes k n : length (le_bytes k n) = k.
Proof. revert n. induction k as [|k IH]; intros n; simpl; [done|]. by rewrite IH. Qed.

Lemma of_le_bytes_le k n : of_le_bytes (le_bytes k n) = (n mod 256 ^ N.of_nat k)%N.
Proof.
  revert n. induction k as [|k IH]; intros n; [by rewrite N.mod_1_r|]. simpl. rewrite to_N_byte_of, IH.
  rewrite Nat2N.inj_succ, N.pow_succ_r by lia. by rewrite N.Div0.mod_mul_r.
Qed.

Lemma of_le_bytes_fits k n : (n < 256 ^ N.of_nat k)%N -> of_le_bytes (le_bytes k n) = n.
Proof. intros Hn. rewrite of_le_bytes_le. by apply N.mod_small. Qed.

Lemma of_le_bytes_bound b : (of_le_bytes b < 256 ^ N.of_nat (length b))%N.
Proof.
  induction b as [|x b IH]; simpl; [lia|]. rewrite Nat2N.inj_succ, N.pow_succ_r by lia. pose proof (Byte.to_N_bounded x). lia.
Qed.

Lemma le_bytes_of b : le_bytes (length b) (of_le_bytes b) = b.
Proof.
  induction b as [|x b IH]; [done|]. simpl. pose proof (Byte.to_N_bounded x) as Hx.
  assert ((Byte.to_N x + 256 * of_le_bytes b) mod 256 = Byte.to_N x)%N as Hm.
  { rewrite N.mul_comm, N.Div0.mod_add. apply N.mod_small. lia. }
  assert ((Byte.to_N x + 256 * of_le_bytes b) / 256 = of_le_bytes b)%N as Hd.
  { rewrite N.mul_comm, N.div_add by lia. rewrite N.div_small; lia. }
  rewrite Hd, IH. f_equal. unfold byte_of. rewrite Hm, Byte.of_to_N. done.
Qed.

Lemma le_bytes_len k b : length b = k -> le_bytes k (of_le_bytes b) = b.
Proof. intros <-. apply le_bytes_of. Qed.

Lemma take_bytes_app n b rest : length b = n -> take_bytes n (b ++ rest) = Ok (b, rest).
Proof.
  intros <-. unfold take_bytes. rewrite decide_True by (rewrite length_app; lia). by rewrite take_app_length, drop_app_length.
Qed.

Lemma take_bytes_inv n b p : take_bytes n b = Ok p -> b = p.1 ++ p.2 /\ length p.1 = n.
Proof.
  unfold take_bytes. case_decide; [|done]. intros [= <-]. simpl. rewrite take_drop, length_take. split; [done|lia].
Qed.

(** A recording whose offsets fit their words and span its bytes. *)
Definition well_recorded (r : CaptureRecording) : Prop :=
  (rc_end_offset r <= u64_max)%N /\ rc_end_offset r = (rc_start_offset r + N.of_nat (length (rc_data r)))%N.

Lemma decode_encode r : well_recorded r -> decode_recording (encode_recording r) = Ok r.
Proof.
  intros [Hu He]. assert (u64_max < 256 ^ N.of_nat 8)%N as H64 by reflexivity.
  unfold decode_recording, encode_recording.
  rewrite (take_bytes_app 8 MAGIC) by done. cbn [res_bind fst snd]. rewrite decide_False by tauto.
  rewrite (take_bytes_app 4) by apply length_le_bytes. cbn [res_bind fst snd]. rewrite decide_False by (intros E; by apply E).
  do 2 (rewrite (take_bytes_app 8) by apply length_le_bytes; cbn [res_bind fst snd]).
  rewrite !of_le_bytes_fits by lia. rewrite decide_False by lia. by destruct r.
Qed.

Lemma encode_decode b r : decode_recording b = Ok r -> encode_recording r = b /\ well_recorded r.
Proof.
  unfold decode_recording. intros Hd.
  apply res_bind_Ok in Hd as ([magic b1] & H1 & Hd). apply take_bytes_inv in H1 as [-> L1]. simpl in *.
  case_decide as Hm; [done|]. apply res_bind_Ok in Hd as ([version b2] & H2 & Hd). apply take_bytes_inv in H2 as [-> L2]. simpl in *.
  case_decide as Hv; [done|]. apply res_bind_Ok in Hd as ([start b3] & H3 & Hd). apply take_bytes_inv in H3 as [-> L3]. simpl in *.
  apply res_bind_Ok in Hd as ([finish data] & H4 & Hd). apply take_bytes_inv in H4 as [-> L4]. simpl in *.
  case_decide as Ho; [done|]. injection Hd as <-.
  split; [|split; simpl; [|lia]].
  - unfold encode_recording. cbn [rc_start_offset rc_end_offset rc_data].
    by rewrite <- Hv, Hm, (le_bytes_len _ _ L2), (le_bytes_len _ _ L3), (le_bytes_len _ _ L4).
  - pose proof (of_le_bytes_bound finish) as Hf. rewrite L4 in Hf. change (256 ^ N.of_nat 8)%N with (u64_max + 1)%N in Hf. lia.
Qed.

Section recorded.
Context `{Screen}.

Lemma captured_well_recorded stream c :
  ring_of stream c -> (N.of_nat (length stream) <= u64_max)%N -> well_recorded (recording_of c).
Proof.
  intros [He Hs Hb _ _ _ _ _] Hu. split; simpl; rewrite He; [done|]. rewrite Hb, length_drop. lia.
Qed.

(** C36. A stopped terminal's history pages as the live terminal's did: the recording of a
    capture, whatever it captured, reads back from its bytes as itself; every forward page
    of what was read back is the page the capture answers, namely the bytes of the whole
    output at the page's offsets, from the requested offset (or the oldest retained byte)
    up to the page size or the bound, and never a panic; and bytes that are read as a
    recording are the encoding of exactly that recording. *)
Theorem recording_pages_like_live ops from_offset until_offset max_bytes :
  (N.of_nat (length (written ops)) <= u64_max)%N ->
  let c := captured ops in
  let start := N.max from_offset (tc_start_offset c) in
  (exists r chunk, decode_recording (encode_recording (recording_of c)) = Ok r /\
    recording_replay_from from_offset until_offset max_bytes r = Ok chunk /\
    replay_from from_offset until_offset max_bytes c = Ok chunk /\
    ch_start_offset chunk = start /\
    ch_data chunk = between_offsets (written ops) start (ch_end_offset chunk) /\
    ch_end_offset chunk = (if decide (fill_cap until_offset c <= start) then start
                           else N.min (start + N.of_nat max_bytes) (fill_cap until_offset c))%N /\
    (ch_at_end chunk = true <-> (fill_cap until_offset c <= ch_end_offset chunk)%N)) /\
  (forall b r, decode_recording b = Ok r <-> b = encode_recording r /\ well_recorded r).
Proof.
  intros Hu c start. pose proof (captured_ring _ Hu) as Hr. fold c in Hr. split.
  - exists (recording_of c). rewrite (decode_encode _ (captured_well_recorded _ _ Hr Hu)).
    destruct (replay_from_slice _ _ from_offset until_offset max_bytes Hr Hu) as (chunk & E & Hs & Hd & He & _ & Ha).
    exists chunk. rewrite Ha, bool_decide_eq_true. split_and!; try done; apply E.
  - intros b r. split; [by intros [? ?]%encode_decode|]. intros [-> Hw]. by apply decode_encode.
Qed.
End recorded.

Lemma recording_pages_like_live_witness :
  let c := @captured blank_screen [Output [x61; x62; x63; x64]] in
  exists chunk, @replay_from blank_screen 1 0 2 c = Ok chunk /\ ch_data chunk = [x62; x63] /\ ch_at_end chunk = false.
Proof.
  intros c. destruct (@recording_pages_like_live blank_screen [Output [x61; x62; x63; x64]] 1 0 2) as [(r & chunk & _ & _ & E & Hs & Hd & He & Ha) _].
  { vm_compute. discriminate. }
  exists chunk. split; [exact E|]. replace (ch_end_offset chunk) with 3%N in * by (rewrite He; reflexivity).
  split; [rewrite Hd; reflexivity|]. apply not_true_iff_false. rewrite Ha. vm_compute. congruence.
Defined.
