(* ===== verification/ScreenDump.v ===== *)
(** * The repaint of a screen

    [src/packages/tddy-task/src/screen_dump.rs], and [TerminalCapture::snapshot] of
    [terminal_capture.rs]: the dump of the screen model is cut into items, rewritten for a
    client that tells a written blank from an empty cell, and becomes the repaint a snapshot
    carries. A text is the list of its characters' code points. Cells and
    blanks are counted at the width of [usize], sums and products wrapping around as in the
    release profile; in the dev profile a count that does not fit panics instead. *)

From Stdlib Require Import Ascii Strings.Byte.
From stdpp Require Import pretty.
From S2P Require Import Prelude Text NodeIds Framing Utf8 Capture.

Notation text := (list N).

Definition chars (s : string) : text := N_of_ascii <$> String.list_ascii_of_string s.

(** [char::encode_utf8]. *)
Definition encode_utf8 (c : N) : bytes :=
  if decide (c < 128)%N then [byte_of c]
  else if decide (c < 2048)%N then [byte_of (192 + c / 64); byte_of (128 + c mod 64)]
  else if decide (c < 65536)%N then [byte_of (224 + c / 4096); byte_of (128 + c / 64 mod 64); byte_of (128 + c mod 64)]
  else [byte_of (240 + c / 262144); byte_of (128 + c / 4096 mod 64); byte_of (128 + c / 64 mod 64); byte_of (128 + c mod 64)].

Definition utf8_of (t : text) : bytes := concat (encode_utf8 <$> t).

(** Sums and products of [usize]. *)
Definition usize_wrap (n : N) : N := (n mod 18446744073709551616)%N.

(** [str::parse::<usize>]. *)
Definition parse_usize (t : text) : option N :=
  if forallb (fun c => bool_decide (c < 128)%N) t
  then parse_u64 (String.string_of_list_ascii (ascii_of_N <$> t)) else None.

(** [str::replace]. *)
Fixpoint replace_all (fuel : nat) (from to t : text) : text :=
  match fuel, t with
  | S fuel, c :: rest =>
      if decide (take (length from) t = from) then to ++ replace_all fuel from to (drop (length from) t)
      else c :: replace_all fuel from to rest
  | _, _ => t
  end.

Definition replace (from to t : text) : text := replace_all (length t) from to t.

(** ** Items *)

Inductive Item :=
| Text (c : N)
| Repeat (count : N)
| Pen (sequence : text)
| Other (sequence : text)
| RowEnd.

Definition within (lo hi c : N) : bool := bool_decide (lo <= c <= hi)%N.

(** The rest of an escape sequence: [sequence] is what was read of it. *)
Fixpoint lex_escape_loop (csi : bool) (sequence t : text) : text * text :=
  match t with
  | [] => (sequence, [])
  | c :: t =>
      let sequence := sequence ++ [c] in
      if (if csi then bool_decide (2 < length sequence) && within 64 126 c else negb (within 32 47 c))
      then (sequence, t) else lex_escape_loop csi sequence t
  end.

Definition classify_escape (sequence : text) : Item :=
  match sequence with
  | 27%N :: 91%N :: body =>
      if decide (last body = Some 109%N) then Pen sequence
      else if decide (last body = Some 98%N) then
        match parse_usize (take (length body - 1) body) with Some count => Repeat count | None => Other sequence end
      else Other sequence
  | _ => Other sequence
  end.

Definition lex_escape (t : text) : Item * text :=
  let csi := bool_decide (head t = Some 91%N) in
  let '(sequence, t) := lex_escape_loop csi [27%N] t in
  (classify_escape sequence, t).

Fixpoint lex_loop (fuel : nat) (t : text) : list Item :=
  match fuel, t with
  | S fuel, c :: t =>
      if decide (c = 27)%N then let '(item, t) := lex_escape t in item :: lex_loop fuel t
      else if decide (c = 13%N /\ head t = Some 10%N) then RowEnd :: lex_loop fuel (drop 1 t)
      else if decide (32 <= c /\ c <> 127)%N then Text c :: lex_loop fuel t
      else Other [c] :: lex_loop fuel t
  | _, _ => []
  end.

Definition lex (t : text) : list Item := lex_loop (length t) t.

Definition write_item (item : Item) : text :=
  match item with
  | Text c => [c]
  | Repeat count => [27; 91]%N ++ chars (pretty count) ++ [98]%N
  | Pen sequence | Other sequence => sequence
  | RowEnd => [13; 10]%N
  end.

Definition is_barrier (item : Item) : bool := match item with RowEnd | Other _ => true | _ => false end.
Definition is_content (item : Item) : bool := match item with Text _ | Repeat _ => true | _ => false end.
Definition is_pen (item : Item) : bool := match item with Pen _ => true | _ => false end.
Definition is_space (item : Item) : bool := match item with Text c => bool_decide (c = 32)%N | _ => false end.

(** ** The probe: a small terminal asked about pens and widths *)

Section dump.
Context `{Screen}.

Definition new_probe : scr := scr_new 4 1.

Definition observe (item : Item) (probe : scr) : scr :=
  match item with Pen sequence => scr_feed (utf8_of sequence) probe | _ => probe end.

Definition HOME : bytes := [x1b; x5b; x48].

Definition first_cell_after (t : bytes) (probe : scr) : option (bool * N) * scr :=
  let probe := scr_feed HOME (scr_feed t (scr_feed HOME probe)) in
  (scr_first_cell probe, probe).

Definition is_default_pen (probe : scr) : bool * scr :=
  let '(cell, probe) := first_cell_after [x20] probe in
  (match cell with Some (default, _) => default | None => false end, probe).

Definition char_width (c : N) (probe : scr) : N * scr :=
  if decide (c < 128)%N then (1%N, probe)
  else
    let '(cell, probe) := first_cell_after (encode_utf8 c) probe in
    (match cell with Some (_, width) => N.max width 1 | None => 1%N end, probe).

Fixpoint count_cells (segment : list Item) (cells width : N) (probe : scr) : N * scr :=
  match segment with
  | [] => (cells, probe)
  | Text c :: rest => let '(width, probe) := char_width c probe in count_cells rest (usize_wrap (cells + width)) width probe
  | Repeat count :: rest => count_cells rest (usize_wrap (cells + usize_wrap (count * width))) width probe
  | _ :: rest => count_cells rest cells width probe
  end.

Definition spans_rows (segment : list Item) (cols : N) (probe : scr) : bool * scr :=
  let '(cells, probe) := count_cells segment 0 0 probe in (bool_decide (cols < cells)%N, probe).

(** The repeats at the head of a segment, and what follows them. *)
Fixpoint repeats (segment : list Item) : N * list Item :=
  match segment with
  | Repeat count :: rest => let '(n, rest) := repeats rest in (usize_wrap (count + n), rest)
  | _ => (0%N, segment)
  end.

(** Spaces and their repeats. *)
Fixpoint blank_run (fuel : nat) (segment : list Item) : N * list Item :=
  match fuel, segment with
  | S fuel, item :: rest =>
      if is_space item then
        let '(n, rest) := repeats rest in
        let '(m, rest) := blank_run fuel rest in
        (usize_wrap (1 + n + m), rest)
      else (0%N, segment)
  | _, _ => (0%N, segment)
  end.

Definition default_blank_run (segment : list Item) (probe : scr) : N * list Item * scr :=
  if match segment with item :: _ => is_space item | [] => false end then
    let '(default, probe) := is_default_pen probe in
    if default then (blank_run (length segment) segment, probe) else (0%N, segment, probe)
  else (0%N, segment, probe).

Definition only_pen_changes (rest : list Item) : bool := forallb is_pen rest.

Definition write_blank_run (blanks : N) (between_content trailing : bool) : text :=
  if trailing then []
  else if between_content && bool_decide (blanks = 1%N) then [32%N]
  else [27; 91]%N ++ chars (pretty blanks) ++ [67]%N.

Fixpoint write_segment_loop (fuel : nat) (content_before : bool) (segment : list Item) (probe : scr) : text * scr :=
  match fuel, segment with
  | S fuel, item :: rest =>
      let '(blanks, next, probe) := default_blank_run segment probe in
      if decide (0 < blanks)%N then
        let trailing := only_pen_changes next in
        let '(out, probe) := write_segment_loop fuel content_before next probe in
        (write_blank_run blanks (content_before && negb trailing) trailing ++ out, probe)
      else
        let '(out, probe) := write_segment_loop fuel (content_before || is_content item) rest (observe item probe) in
        (write_item item ++ out, probe)
  | _, _ => ([], probe)
  end.

Definition write_segment (segment : list Item) (probe : scr) : text * scr :=
  write_segment_loop (length segment) false segment probe.

(** The runs of a dump: content, and the barrier that ends it, if any. *)
Fixpoint runs (content : list Item) (items : list Item) : list (list Item * option Item) :=
  match items with
  | [] => match content with [] => [] | _ => [(content, None)] end
  | item :: items => if is_barrier item then (content, Some item) :: runs [] items else runs (content ++ [item]) items
  end.

Definition write_run (cols : N) (run : list Item * option Item) (probe : scr) : text * scr :=
  let '(content, barrier) := run in
  let '(spans, probe) := spans_rows content cols probe in
  let '(out, probe) :=
    if spans then (concat (write_item <$> content), foldl (fun p i => observe i p) probe content)
    else write_segment content probe in
  (out ++ match barrier with Some item => write_item item | None => [] end, probe).

Fixpoint write_runs (cols : N) (rs : list (list Item * option Item)) (probe : scr) : text :=
  match rs with
  | [] => []
  | run :: rs => let '(out, probe) := write_run cols run probe in out ++ write_runs cols rs probe
  end.

Definition portable_dump (dump : text) (cols : N) : text :=
  let items := lex (replace [155]%N [27; 91]%N dump) in
  let out := write_runs cols (runs [] items) new_probe in
  replace (27%N :: chars "[?1047l") (27%N :: chars "[?1049l")
    (replace (27%N :: chars "[?1047h") (27%N :: chars "[?1049h") out).

(** ** Snapshots *)

Record ScreenSnapshot := mkSnapshot { ss_data : bytes; ss_offset : N; ss_rows : N; ss_cols : N }.

Definition RIS : bytes := [x1b; x63].

Definition grid (c : TerminalCapture) : option (N * N) :=
  let '(cols, rows) := scr_size (tc_screen c) in
  if tc_sized c then Some (rows mod 65536, cols mod 65536)%N else None.

Definition capture_snapshot (c : TerminalCapture) : option ScreenSnapshot :=
  if tc_sized c then
    let '(cols, rows) := scr_size (tc_screen c) in
    Some (mkSnapshot (RIS ++ utf8_of (portable_dump (scr_dump (tc_screen c)) cols) ++ restore_sequences (tc_modes c))
            (tc_end_offset c) (rows mod 65536) (cols mod 65536))
  else None.
End dump.
