(* ===== verification/ScreenDumpSpec.v ===== *)
(** * The rewritten repaint shows the same screen

    The items of a dump are read back from their text, a run of them is rewritten to a text
    that is read as items which paint the same cells, and only default blanks are skipped. *)

From Stdlib Require Import Ascii Strings.Byte.
From stdpp Require Import pretty.
From S2P Require Import Prelude Text NodeIds Framing Utf8 Capture ScreenDump.

(** ** Reading items back *)

(** An item as the lexer makes it, other than a barrier. *)
Definition csi_body (mid : text) : Prop := Forall (fun c => within 64 126 c = false) mid.

Definition lexed (item : Item) : Prop :=
  match item with
  | Text c => (32 <= c /\ c <> 127)%N
  | Repeat count => (count <= u64_max)%N
  | Pen sequence => exists mid, csi_body mid /\ sequence = [27; 91]%N ++ mid ++ [109]%N
  | _ => False
  end.

Definition cursor_forward (n : N) : text := [27; 91]%N ++ chars (pretty n) ++ [67]%N.

Lemma csi_loop sequence mid final rest :
  1 < length sequence -> csi_body mid -> within 64 126 final = true ->
  lex_escape_loop true sequence (mid ++ final :: rest) = (sequence ++ mid ++ [final], rest).
Proof.
  intros Hl Hm Hf. revert sequence Hl. induction Hm as [|c mid Hc Hm IH]; intros sequence Hl; cbn [app lex_escape_loop].
  - rewrite Hf, bool_decide_true by (rewrite length_app; simpl; lia). done.
  - rewrite Hc, andb_false_r, IH by (rewrite length_app; simpl; lia). by rewrite <- (assoc_L (++)).
Qed.

Lemma lex_escape_csi mid final rest :
  csi_body mid -> within 64 126 final = true ->
  lex_escape (91%N :: mid ++ final :: rest) = (classify_escape ([27; 91]%N ++ mid ++ [final]), rest).
Proof.
  intros Hm Hf. unfold lex_escape. cbn [head]. rewrite bool_decide_true by done. cbn [lex_escape_loop app].
  rewrite bool_decide_false by (simpl; lia). cbn [andb]. rewrite csi_loop by (simpl; lia || done). done.
Qed.

Lemma lex_escape_loop_length csi sequence t : length (lex_escape_loop csi sequence t).2 <= length t.
Proof.
  revert sequence. induction t as [|c t IH]; intros sequence; simpl; [lia|].
  destruct (if csi then _ else _); simpl; [lia|]. etrans; [apply IH|lia].
Qed.

Lemma lex_escape_length t : length (lex_escape t).2 <= length t.
Proof.
  unfold lex_escape. pose proof (lex_escape_loop_length (bool_decide (head t = Some 91%N)) [27%N] t).
  by destruct (lex_escape_loop _ _ _).
Qed.

(** The fuel is the length: any more reads the same. *)
Lemma lex_loop_enough fuel t : length t <= fuel -> lex_loop fuel t = lex t.
Proof.
  unfold lex. intros Hl. remember (length t) as n eqn:Hn. assert (length t <= n) as Hn' by lia. clear Hn.
  revert n t Hl Hn'. induction fuel as [|fuel IH]; intros n t Hl Hn.
  { destruct t; simpl in *; [|lia]. by destruct n. }
  destruct t as [|c t]; [by destruct n|]. destruct n as [|n]; [simpl in Hn; lia|]. cbn [lex_loop]. simpl in Hn.
  assert (forall t', length t' <= n -> lex_loop fuel t' = lex_loop n t') as E by (intros t' Ht'; apply IH; lia).
  repeat case_decide.
  - pose proof (lex_escape_length t). destruct (lex_escape t) as [item t']. simpl in *. f_equal. apply E. lia.
  - f_equal. apply E. rewrite length_drop. lia.
  - f_equal. apply E. lia.
  - f_equal. apply E. lia.
Qed.

Lemma lex_escaped t : lex (27%N :: t) = (lex_escape t).1 :: lex (lex_escape t).2.
Proof.
  unfold lex at 1. cbn [length lex_loop]. rewrite decide_True by done. pose proof (lex_escape_length t) as Hl.
  destruct (lex_escape t) as [item t']. simpl in *. by rewrite lex_loop_enough.
Qed.

Lemma lex_text c t : (32 <= c /\ c <> 127)%N -> lex (c :: t) = Text c :: lex t.
Proof.
  intros Hc. unfold lex. cbn [length lex_loop]. rewrite decide_False, decide_False, decide_True by lia. done.
Qed.

Lemma chars_csi s : Forall (fun a => is_Some (digit a)) (String.list_ascii_of_string s) -> csi_body (chars s).
Proof.
  intros Hf. unfold csi_body, chars. rewrite Forall_fmap. eapply Forall_impl; [exact Hf|].
  intros a Ha. simpl. unfold within. apply bool_decide_false. revert Ha. unfold digit. case_decide; [lia|by intros [? ?]].
Qed.

Lemma parse_usize_chars s : Forall (fun a => is_Some (digit a)) (String.list_ascii_of_string s) -> parse_usize (chars s) = parse_u64 s.
Proof.
  intros Hf. unfold parse_usize, chars. rewrite (proj2 (forallb_forall _ _)).
  - rewrite <- list_fmap_compose. rewrite (list_fmap_ext _ id) by (intros; apply ascii_N_embedding).
    by rewrite list_fmap_id, String.string_of_list_ascii_of_string.
  - intros c Hc. apply list_elem_of_In, list_elem_of_fmap in Hc as (a & -> & Ha). apply bool_decide_eq_true.
    rewrite Forall_forall in Hf. specialize (Hf a Ha). revert Hf. unfold digit. case_decide; [lia|by intros [? ?]].
Qed.

Lemma classify_final mid final :
  classify_escape ([27; 91]%N ++ mid ++ [final]) =
    if decide (final = 109)%N then Pen ([27; 91]%N ++ mid ++ [final])
    else if decide (final = 98)%N then match parse_usize mid with Some count => Repeat count | None => Other ([27; 91]%N ++ mid ++ [final]) end
    else Other ([27; 91]%N ++ mid ++ [final]).
Proof.
  cbn [app classify_escape]. rewrite last_snoc, length_app, Nat.add_sub, take_app_length.
  repeat case_decide; congruence || done.
Qed.

(** What is written for an item is read as that item. *)
Lemma lex_write item rest : lexed item -> lex (write_item item ++ rest) = item :: lex rest.
Proof.
  destruct item as [c|count|sequence|sequence|]; simpl; intros Hi; [by apply lex_text| | |done|done].
  - rewrite lex_escaped, <- (assoc_L (++)). cbn [app].
    rewrite lex_escape_csi by (apply chars_csi, pretty_digits || done). cbn [fst snd]. rewrite classify_final. cbn.
    rewrite parse_usize_chars by apply pretty_digits. unfold parse_u64. by rewrite parse_unsigned_pretty.
  - destruct Hi as (mid & Hm & ->). cbn [app]. rewrite lex_escaped, <- (assoc_L (++)). cbn [app].
    rewrite lex_escape_csi by done. cbn [fst snd]. by rewrite classify_final.
Qed.

Lemma lex_forward n rest : lex (cursor_forward n ++ rest) = Other (cursor_forward n) :: lex rest.
Proof.
  unfold cursor_forward. cbn [app]. rewrite lex_escaped, <- (assoc_L (++)). cbn [app].
  rewrite lex_escape_csi by (apply chars_csi, pretty_digits || done). cbn [fst snd]. by rewrite classify_final.
Qed.

Lemma csi_loop_shape mid t :
  csi_body mid ->
  exists mid', csi_body mid' /\
    ((lex_escape_loop true ([27; 91]%N ++ mid) t).1 = [27; 91]%N ++ mid' \/
     exists final, (lex_escape_loop true ([27; 91]%N ++ mid) t).1 = [27; 91]%N ++ mid' ++ [final]).
Proof.
  revert mid. induction t as [|c t IH]; intros mid Hm; cbn [lex_escape_loop]; [eauto|].
  rewrite bool_decide_true by (rewrite !length_app; simpl; lia). cbn [andb].
  destruct (within 64 126 c) eqn:Hc; [exists mid; rewrite <- (assoc_L (++)); eauto|].
  rewrite <- (assoc_L (++)). apply IH. apply Forall_app. split; [done|]. by constructor.
Qed.

Lemma classify_not_csi c more : c <> 91%N -> classify_escape (27%N :: c :: more) = Other (27%N :: c :: more).
Proof. intros Hc. unfold classify_escape. repeat case_match; done. Qed.

Lemma lex_escape_loop_prefix csi sequence t : exists more, (lex_escape_loop csi sequence t).1 = sequence ++ more.
Proof.
  revert sequence. induction t as [|c t IH]; intros sequence; cbn [lex_escape_loop]; [exists []; by rewrite app_nil_r|].
  destruct (if csi then _ else _); [by exists [c]|]. destruct (IH (sequence ++ [c])) as [more E]. exists (c :: more).
  by rewrite E, <- (assoc_L (++)).
Qed.

Lemma classify_truncated mid : csi_body mid -> classify_escape ([27; 91]%N ++ mid) = Other ([27; 91]%N ++ mid).
Proof.
  intros Hm. cbn [app classify_escape]. assert (forall f, last mid = Some f -> within 64 126 f = false) as Hl.
  { intros f Hf. eapply Forall_forall in Hm; [exact Hm|]. by apply last_Some_elem_of. }
  repeat case_decide; try done; match goal with E : last mid = Some _ |- _ => by specialize (Hl _ E) end.
Qed.

Lemma lex_escape_lexed t : is_barrier (lex_escape t).1 = false -> lexed (lex_escape t).1.
Proof.
  unfold lex_escape. case_bool_decide as Hh.
  - destruct t as [|c t]; [done|]. injection Hh as ->. cbn [lex_escape_loop app]. rewrite bool_decide_false by (simpl; lia). cbn [andb].
    destruct (csi_loop_shape [] t) as (mid & Hm & E); [constructor|]. rewrite app_nil_r in E.
    destruct (lex_escape_loop true [27%N; 91%N] t) as [sequence rest]. cbn [fst] in *.
    destruct E as [->|[final ->]]; [by rewrite (classify_truncated mid)|]. rewrite (classify_final mid). repeat case_decide; subst.
    + intros _. by exists mid.
    + destruct (parse_usize mid) as [count|] eqn:Hp; [|done]. intros _. simpl. revert Hp. unfold parse_usize.
      destruct (forallb _ _); [|done]. apply parse_unsigned_bound.
    + done.
  - destruct t as [|c t]; [done|]. assert (c <> 91%N) as Hc by (by intros ->).
    assert (exists more, (lex_escape_loop false [27%N] (c :: t)).1 = 27%N :: c :: more) as [more E].
    { cbn [lex_escape_loop app]. destruct (negb _); [by exists []|]. apply (lex_escape_loop_prefix false [27%N; c] t). }
    destruct (lex_escape_loop _ _ _). cbn [fst] in *. rewrite E. by rewrite classify_not_csi.
Qed.

Lemma lex_lexed t : Forall (fun item => is_barrier item = false -> lexed item) (lex t).
Proof.
  remember (length t) as n eqn:Hn. assert (length t <= n) as Hl by lia. clear Hn. revert t Hl.
  induction n as [|n IH]; intros t Hl; [destruct t; simpl in *; [constructor|lia]|]. destruct t as [|c t]; [constructor|]. simpl in Hl.
  destruct (decide (c = 27)%N) as [->|Hc].
  - rewrite lex_escaped. pose proof (lex_escape_length t). constructor; [apply lex_escape_lexed|apply IH; lia].
  - destruct (decide (32 <= c /\ c <> 127)%N) as [Ht|Ht].
    + rewrite lex_text by done. constructor; [done|apply IH; lia].
    + unfold lex. cbn [length lex_loop]. rewrite decide_False by done. case_decide.
      * rewrite lex_loop_enough by (rewrite length_drop; lia). constructor; [done|]. apply IH. rewrite length_drop. lia.
      * rewrite decide_False by done. constructor; [done|]. apply IH. lia.
Qed.

(** ** What items paint *)

(** A pen sequence proper: parameters and their separators alone. *)
Definition sgr (sequence : text) : Prop :=
  exists params, Forall (fun c => within 48 59 c = true) params /\ sequence = [27; 91]%N ++ params ++ [109]%N.

(** What the probe is asked about: a space, and the characters outside ASCII that are drawn in
    cells of their own, as control characters and combining marks are not. *)
Definition asked_of (drawn : N -> bool) (c : N) : Prop := c = 32%N \/ (128 <= c)%N /\ drawn c = true.

(** A probe as the rewrite uses it: made, fed pen sequences and asked. *)
Inductive probing `{Screen} (drawn : N -> bool) : scr -> Prop :=
| probing_new : probing drawn new_probe
| probing_pen s p : probing drawn p -> sgr s -> probing drawn (scr_feed (utf8_of s) p)
| probing_asked c p : probing drawn p -> asked_of drawn c -> probing drawn (first_cell_after (encode_utf8 c) p).2.

(** What the rewrite relies on of the terminal it asks: a drawn character does not change the
    pen, a pen sequence changes it whatever else the terminal holds, a space shows whether the
    pen is the default one, and a drawn character has a width of its own. *)
Class ProbeLaws (Sc : Screen) := {
  pen : Type;
  pen_of : scr -> pen;
  pen_default : pen -> bool;
  pen_sgr : text -> pen -> pen;
  cell_width : N -> N;
  drawn : N -> bool;
  pen_asked : forall c p, probing drawn p -> asked_of drawn c -> pen_of (first_cell_after (encode_utf8 c) p).2 = pen_of p;
  pen_set : forall s p, probing drawn p -> sgr s -> pen_of (scr_feed (utf8_of s) p) = pen_sgr s (pen_of p);
  pen_space : forall p, probing drawn p -> (is_default_pen p).1 = pen_default (pen_of p);
  width_of : forall c p, probing drawn p -> (128 <= c)%N -> drawn c = true -> (char_width c p).1 = cell_width c;
  ascii_width : forall c, (32 <= c < 127)%N -> cell_width c = 1%N;
}.

Section ink.
Context {Sc : Screen} {Laws : ProbeLaws Sc}.

(** A cell that does not look like the empty cell of a reset terminal. *)
Definition ink_at (col c : N) (pn : pen) : list (N * N * pen) :=
  if (c =? 32)%N && pen_default pn then [] else [(col, c, pn)].

Fixpoint ink_repeat (count : nat) (col c : N) (pn : pen) : list (N * N * pen) :=
  match count with O => [] | S count => ink_at col c pn ++ ink_repeat count (col + cell_width c) c pn end.

Definition forward_of (sequence : text) : option N :=
  match sequence with
  | 27%N :: 91%N :: body => if decide (last body = Some 67%N) then parse_usize (take (length body - 1) body) else None
  | _ => None
  end.

(** The cells items paint on a row, from a column, with the character a repeat would repeat. *)
Fixpoint ink (items : list Item) (col : N) (prev : option N) (pn : pen) : list (N * N * pen) :=
  match items with
  | [] => []
  | Text c :: items => ink_at col c pn ++ ink items (col + cell_width c) (Some c) pn
  | Repeat count :: items =>
      match prev with
      | Some c => ink_repeat (N.to_nat count) col c pn ++ ink items (col + count * cell_width c) prev pn
      | None => ink items col prev pn
      end
  | Pen sequence :: items => ink items col prev (pen_sgr sequence pn)
  | Other sequence :: items =>
      match forward_of sequence with Some n => ink items (col + n) prev pn | None => ink items col prev pn end
  | RowEnd :: items => ink items 0 prev pn
  end.

(** A repeat comes directly after what it repeats. *)
Fixpoint repeats_follow (after : bool) (items : list Item) : bool :=
  match items with
  | [] => true
  | Repeat _ :: items => after && repeats_follow true items
  | Text _ :: items => repeats_follow true items
  | _ :: items => repeats_follow false items
  end.

Lemma space_width : cell_width 32 = 1%N.
Proof.
  by apply ascii_width.
Qed.

Lemma is_space_text item : is_space item = true -> item = Text 32.
Proof. destruct item; try done. by intros ->%bool_decide_eq_true. Qed.

Lemma ink_blank col pn : pen_default pn = true -> ink_at col 32 pn = [].
Proof. intros Hd. unfold ink_at. by rewrite Hd. Qed.

Lemma ink_blanks count col pn : pen_default pn = true -> ink_repeat count col 32 pn = [].
Proof. intros Hd. revert col. induction count as [|count IH]; intros col; simpl; [done|]. by rewrite ink_blank, IH. Qed.

(** What follows a repeat-free point does not depend on the character before it. *)
Lemma ink_prev items col prev prev' pn : repeats_follow false items = true -> ink items col prev pn = ink items col prev' pn.
Proof.
  revert col prev prev' pn. induction items as [|item items IH]; intros col prev prev' pn; [done|].
  destruct item; simpl; intros Hr; [done..| | |]; try (by apply IH); try done.
  destruct (forward_of sequence); by apply IH.
Qed.

(** The cells a segment takes, [w] the width of the character before it. *)
Fixpoint cells_of (items : list Item) (w : N) : N :=
  match items with
  | [] => 0
  | Text c :: items => cell_width c + cells_of items (cell_width c)
  | Repeat count :: items => count * w + cells_of items w
  | _ :: items => cells_of items w
  end.

Lemma usize_wrap_fits n : (n <= u64_max)%N -> usize_wrap n = n.
Proof. intros Hn. apply N.mod_small. unfold u64_max in Hn. lia. Qed.

Lemma repeats_cells items n rest :
  repeats items = (n, rest) -> (cells_of items 1 <= u64_max)%N ->
  cells_of items 1 = (n + cells_of rest 1)%N /\ length rest <= length items.
Proof.
  revert n rest. induction items as [|item items IH]; intros n rest E Hc; [by injection E as <- <-|].
  destruct item; try (injection E as <- <-; done). simpl in E, Hc. destruct (repeats items) as [m rest'] eqn:E'.
  injection E as <- <-. destruct (IH _ _ eq_refl ltac:(lia)) as [Hm Hl]. rewrite usize_wrap_fits by lia. simpl. split; lia.
Qed.

Lemma blank_run_cells fuel items n rest w :
  blank_run fuel items = (n, rest) -> (cells_of items w <= u64_max)%N ->
  exists w', cells_of items w = (n + cells_of rest w')%N /\ length rest <= length items /\
    (is_space <$> head items = Some true -> fuel <> 0 -> (0 < n)%N /\ length rest < length items).
Proof.
  revert items n rest w. induction fuel as [|fuel IH]; intros items n rest w E Hc.
  { exists w. destruct items; injection E as <- <-; by split_and!. }
  destruct items as [|item items]; [injection E as <- <-; by exists w|]. cbn [blank_run] in E.
  destruct (is_space item) eqn:Hs; [|injection E as <- <-; exists w; split_and!; simpl; [done|lia|congruence]].
  apply is_space_text in Hs as ->. destruct (repeats items) as [k more] eqn:Ek. destruct (blank_run fuel more) as [m rest'] eqn:Em.
  injection E as <- <-. cbn [cells_of length] in *. rewrite space_width in *.
  apply repeats_cells in Ek as [Hk Hl]; [|lia]. destruct (IH _ _ _ 1%N Em ltac:(lia)) as (w' & Hm & Hl' & _).
  exists w'. rewrite usize_wrap_fits by lia. split_and!; [lia|lia|intros; lia].
Qed.

(** Leading repeats of a blank. *)
Lemma ink_repeats items n rest col pn :
  repeats items = (n, rest) -> (cells_of items 1 <= u64_max)%N -> pen_default pn = true -> repeats_follow true items = true ->
  ink items col (Some 32%N) pn = ink rest (col + n) (Some 32%N) pn /\ repeats_follow false rest = true.
Proof.
  intros E Hc Hd. revert n rest col E Hc. induction items as [|item items IH]; intros n rest col E Hc Hr.
  { injection E as <- <-. by rewrite N.add_0_r. }
  destruct item; try (injection E as <- <-; rewrite N.add_0_r; done).
  simpl in E, Hc, Hr. destruct (repeats items) as [m rest'] eqn:E'. injection E as <- <-. cbn [ink].
  destruct (repeats_cells _ _ _ E' ltac:(lia)) as [Hm _]. rewrite usize_wrap_fits by lia.
  rewrite ink_blanks, space_width, N.mul_1_r by done. rewrite N.add_assoc. apply IH; [done|lia|done].
Qed.

(** A run of default blanks moves the cursor over it and paints nothing. *)
Lemma ink_blank_run fuel items n rest col prev pn w :
  blank_run fuel items = (n, rest) -> (cells_of items w <= u64_max)%N -> pen_default pn = true -> repeats_follow false items = true ->
  ink items col prev pn = ink rest (col + n) prev pn /\ repeats_follow false rest = true.
Proof.
  intros E Hc Hd. revert items n rest col prev w E Hc. induction fuel as [|fuel IH]; intros items n rest col prev w E Hc Hr.
  { destruct items; injection E as <- <-; by rewrite N.add_0_r. }
  destruct items as [|item more]; [by injection E as <- <-|]. cbn [blank_run] in E.
  destruct (is_space item) eqn:Hs; [|injection E as <- <-; by rewrite N.add_0_r]. apply is_space_text in Hs as ->.
  destruct (repeats more) as [k more'] eqn:Ek. destruct (blank_run fuel more') as [m rest'] eqn:Em.
  injection E as <- <-. cbn [ink repeats_follow cells_of] in *. rewrite space_width in *. rewrite ink_blank by done.
  destruct (repeats_cells _ _ _ Ek ltac:(lia)) as [Hk _]. destruct (blank_run_cells _ _ _ _ 1%N Em ltac:(lia)) as (? & Hm & _).
  destruct (ink_repeats _ _ _ (col + 1) pn Ek ltac:(lia) Hd Hr) as [-> Hr'].
  destruct (IH _ _ _ (col + 1 + k)%N prev 1%N Em ltac:(lia) Hr') as [E Hr'']. split; [|done].
  rewrite usize_wrap_fits by lia. rewrite !N.add_assoc, <- E. by rewrite (ink_prev _ _ _ prev).
Qed.

Lemma ink_only_pens items col prev pn : only_pen_changes items = true -> ink items col prev pn = [].
Proof.
  revert pn. induction items as [|item items IH]; intros pn; simpl; [done|]. destruct item; simpl; try done. apply IH.
Qed.

(** What the terminal is documented to do with an item. *)
Definition understood (item : Item) : Prop :=
  match item with Text c => (c < 128)%N \/ drawn c = true | Pen sequence => sgr sequence | _ => True end.

Definition probe_ok (p : scr) : Prop := probing drawn p.

Lemma char_width_drawn c p :
  probe_ok p -> lexed (Text c) -> understood (Text c) ->
  (char_width c p).1 = cell_width c /\ pen_of (char_width c p).2 = pen_of p /\ probe_ok (char_width c p).2.
Proof.
  simpl. intros Hp Hc Hd. destruct (decide (c < 128)%N) as [Ha|Ha].
  - unfold char_width. rewrite decide_True by done. simpl. by rewrite ascii_width by lia.
  - destruct Hd as [|Hd]; [done|]. split; [apply width_of; [done|lia|done]|].
    assert (asked_of drawn c) as Hask by (right; split; [lia|done]).
    pose proof (pen_asked c p Hp Hask) as Hpen. pose proof (probing_asked drawn c p Hp Hask) as Hp'.
    unfold char_width. rewrite decide_False by done. by destruct (first_cell_after _ _).
Qed.

Lemma count_cells_of items cells w p :
  probe_ok p -> Forall lexed items -> Forall understood items -> (cells + cells_of items w <= u64_max)%N ->
  (count_cells items cells w p).1 = (cells + cells_of items w)%N /\
  pen_of (count_cells items cells w p).2 = pen_of p /\ probe_ok (count_cells items cells w p).2.
Proof.
  intros Hp Hf. revert cells w p Hp. induction Hf as [|item items Hi Hf IH]; intros cells w p Hp Hu Hc; simpl in *; [by rewrite N.add_0_r|].
  apply Forall_cons in Hu as [Hui Hu]. destruct item; try done.
  - destruct (char_width_drawn c p Hp Hi Hui) as (Hw & Hpen & Hp'). destruct (char_width c p) as [wc p']. simpl in *. subst wc.
    rewrite usize_wrap_fits by lia. destruct (IH (cells + cell_width c)%N (cell_width c) p' Hp' Hu ltac:(lia)) as (-> & -> & ?).
    split_and!; [lia|done|done].
  - rewrite (usize_wrap_fits (count * w)), usize_wrap_fits by lia. destruct (IH (cells + count * w)%N w p Hp Hu ltac:(lia)) as (-> & -> & ?).
    split_and!; [lia|done|done].
  - apply (IH cells w p Hp Hu Hc).
Qed.

Definition pen_after (items : list Item) (pn : pen) : pen :=
  foldl (fun pn item => match item with Pen s => pen_sgr s pn | _ => pn end) pn items.

Lemma observe_pen item p :
  probe_ok p -> understood item ->
  probe_ok (observe item p) /\ pen_of (observe item p) = match item with Pen s => pen_sgr s (pen_of p) | _ => pen_of p end.
Proof. intros Hp Hi. destruct item; try done. split; [by apply probing_pen|by apply pen_set]. Qed.

Lemma observes_pen items p :
  probe_ok p -> Forall understood items ->
  probe_ok (foldl (fun p i => observe i p) p items) /\
  pen_of (foldl (fun p i => observe i p) p items) = pen_after items (pen_of p).
Proof.
  intros Hp Hf. revert p Hp. induction Hf as [|item items Hi Hf IH]; intros p Hp; [done|]. simpl.
  destruct (observe_pen item p Hp Hi) as [Hp' E]. destruct (IH _ Hp') as [? ->]. rewrite E. by destruct item.
Qed.

Lemma default_pen_asked p : probe_ok p -> pen_of (is_default_pen p).2 = pen_of p /\ probe_ok (is_default_pen p).2.
Proof.
  intros Hp. assert (asked_of drawn 32) as Ha by by left.
  pose proof (pen_asked 32 p Hp Ha) as E. pose proof (probing_asked drawn 32 p Hp Ha) as Hp'.
  change (encode_utf8 32) with [x20] in E, Hp'. unfold is_default_pen. by destruct (first_cell_after [x20] p).
Qed.

(** What [default_blank_run] answers: nothing, or a run of default blanks. *)
Lemma default_blank_run_spec items p :
  probe_ok p ->
  let '(blanks, next, p') := default_blank_run items p in
  (pen_of p' = pen_of p /\ probe_ok p') /\
  (blanks = 0%N \/ pen_default (pen_of p) = true /\ is_space <$> head items = Some true /\
    blank_run (length items) items = (blanks, next)).
Proof.
  intros Hok. unfold default_blank_run. destruct items as [|item items]; [by split; [|left]|].
  destruct (is_space item) eqn:Hs; [|by split; [|left]].
  pose proof (default_pen_asked p Hok) as Hp. pose proof (pen_space p Hok) as Hd. destruct (is_default_pen p) as [d p']. simpl in Hp, Hd. subst d.
  destruct (pen_default (pen_of p)) eqn:Hd; [|by split; [|left]].
  destruct (blank_run _ _) as [blanks next] eqn:E. split; [done|]. right. simpl. by rewrite Hs.
Qed.

Lemma repeats_split items n rest : repeats items = (n, rest) -> exists pre, items = pre ++ rest /\ forallb is_content pre = true.
Proof.
  revert n rest. induction items as [|item items IH]; intros n rest E; [injection E as <- <-; by exists []|].
  destruct item; try (injection E as <- <-; by exists []). simpl in E. destruct (repeats items) as [m rest'] eqn:E'.
  injection E as <- <-. destruct (IH _ _ eq_refl) as (pre & -> & Hp). by exists (Repeat count :: pre).
Qed.

Lemma blank_run_split fuel items n rest : blank_run fuel items = (n, rest) -> exists pre, items = pre ++ rest /\ forallb is_content pre = true.
Proof.
  revert items n rest. induction fuel as [|fuel IH]; intros items n rest E; [destruct items; injection E as <- <-; by exists []|].
  destruct items as [|item items]; [injection E as <- <-; by exists []|]. cbn [blank_run] in E.
  destruct (is_space item) eqn:Hs; [|injection E as <- <-; by exists []]. apply is_space_text in Hs as ->.
  destruct (repeats items) as [k more] eqn:Ek. destruct (blank_run fuel more) as [m rest'] eqn:Em. injection E as <- <-.
  apply repeats_split in Ek as (pre & -> & Hp). apply IH in Em as (pre' & -> & Hp').
  exists (Text 32 :: pre ++ pre'). simpl. by rewrite <- (assoc_L (++)), forallb_app, Hp, Hp'.
Qed.

Lemma pen_after_content pre items pn : forallb is_content pre = true -> pen_after (pre ++ items) pn = pen_after items pn.
Proof. induction pre as [|item pre IH]; [done|]. by destruct item; simpl. Qed.

Lemma forward_of_forward n : (n <= u64_max)%N -> forward_of (cursor_forward n) = Some n.
Proof.
  intros Hn. unfold cursor_forward, forward_of. cbn [app]. rewrite last_snoc, decide_True, length_app, Nat.add_sub, take_app_length by done.
  rewrite parse_usize_chars by apply pretty_digits. by apply parse_unsigned_pretty.
Qed.

(** A blank run is rewritten to text that leaves the cursor where the run left it. *)
Lemma ink_write_blank_run blanks between out col prev pn :
  (0 < blanks <= u64_max)%N -> pen_default pn = true -> repeats_follow false (lex out) = true ->
  ink (lex (write_blank_run blanks between false ++ out)) col prev pn = ink (lex out) (col + blanks) prev pn.
Proof.
  intros Hb Hd Hr. unfold write_blank_run. destruct (between && bool_decide (blanks = 1%N)) eqn:E.
  - apply andb_true_iff in E as [_ ->%bool_decide_eq_true]. cbn [app]. rewrite lex_text by lia. cbn [ink].
    rewrite ink_blank, space_width by done. by apply ink_prev.
  - fold (cursor_forward blanks). rewrite lex_forward. cbn [ink]. by rewrite forward_of_forward by lia.
Qed.

Lemma repeats_follow_weaken after items : repeats_follow false items = true -> repeats_follow after items = true.
Proof. destruct items as [|[] ?]; try done. Qed.

Lemma repeats_follow_blank_run blanks between out after :
  repeats_follow false (lex out) = true -> repeats_follow after (lex (write_blank_run blanks between false ++ out)) = true.
Proof.
  intros Hr. unfold write_blank_run. destruct (between && _).
  - cbn [app]. rewrite lex_text by lia. cbn [repeats_follow]. by apply repeats_follow_weaken.
  - fold (cursor_forward blanks). by rewrite lex_forward.
Qed.

Lemma repeats_follow_space after items : is_space <$> head items = Some true -> repeats_follow after items = true -> repeats_follow false items = true.
Proof. destruct items as [|item items]; [done|]. simpl. intros Hs. injection Hs as Hs. by apply is_space_text in Hs as ->. Qed.

(** What is left to read after an item. *)
Lemma repeats_follow_step after item items w :
  lexed item -> repeats_follow after (item :: items) = true -> (cells_of (item :: items) w <= u64_max)%N ->
  exists w' after', (cells_of items w' <= u64_max)%N /\ repeats_follow after' items = true /\
    forall more, repeats_follow after' more = true -> repeats_follow after (item :: more) = true.
Proof.
  intros Hi Hr Hc. destruct item; simpl in Hc, Hr, Hi; try done.
  - exists (cell_width c), true. split_and!; [lia|done|done].
  - exists w, true. apply andb_true_iff in Hr as [-> Hr]. split_and!; [lia|done|done].
  - exists w, false. done.
Qed.

(** The loop, from any column: its text is read as items that paint what the segment paints. *)
Lemma write_segment_loop_ink fuel before items p after w :
  length items <= fuel -> probe_ok p -> Forall lexed items -> Forall understood items -> repeats_follow after items = true ->
  (cells_of items w <= u64_max)%N ->
  let '(out, p') := write_segment_loop fuel before items p in
  (forall col prev, ink (lex out) col prev (pen_of p) = ink items col prev (pen_of p)) /\
  repeats_follow after (lex out) = true /\ pen_of p' = pen_after items (pen_of p) /\ probe_ok p'.
Proof.
  revert before items p after w. induction fuel as [|fuel IH]; intros before items p after w Hl Hok Hf Hu Hr Hc.
  { destruct items; simpl in *; [done|lia]. }
  destruct items as [|item items]; [done|]. cbn [write_segment_loop].
  pose proof (default_blank_run_spec (item :: items) p Hok) as Hb. destruct (default_blank_run _ p) as [[blanks next] p1].
  destruct Hb as [[Hp Hok1] [->|(Hd & Hs & Hrun)]].
  - rewrite decide_False by lia. apply Forall_cons in Hf as [Hi Hf]. apply Forall_cons in Hu as [Hui Hu].
    destruct (repeats_follow_step after item items w Hi Hr Hc) as (w' & after' & Hc' & Hr' & Hback).
    destruct (observe_pen item p1 Hok1 Hui) as [Hok2 Hobs].
    specialize (IH (before || is_content item) items (observe item p1) after' w' ltac:(simpl in Hl; lia) Hok2 Hf Hu Hr' Hc').
    destruct (write_segment_loop fuel _ items _) as [out p']. destruct IH as (Hink & Hrep & Hpen & Hok').
    rewrite Hobs, Hp in Hink, Hpen. rewrite lex_write by done. split_and!; [|by apply Hback|rewrite Hpen; by destruct item|done].
    intros col prev. destruct item; simpl in Hi; try done; cbn [ink]; [| |by rewrite Hink]; [by rewrite Hink|].
    destruct prev; by rewrite Hink.
  - pose proof (repeats_follow_space _ _ Hs Hr) as Hr0.
    destruct (blank_run_cells _ _ _ _ w Hrun Hc) as (w' & Hcells & _ & Hlt). destruct (Hlt Hs ltac:(done)) as [Hpos Hshort].
    destruct (ink_blank_run _ _ _ _ 0%N None _ _ Hrun Hc Hd Hr0) as [_ Hrest].
    pose proof (blank_run_split _ _ _ _ Hrun) as (pre & Hpre & Hcontent).
    rewrite decide_True by done. rewrite Hpre in Hf, Hu. apply Forall_app in Hf as [_ Hf]. apply Forall_app in Hu as [_ Hu]. simpl in Hl, Hshort.
    specialize (IH before next p1 false w' ltac:(lia) Hok1 Hf Hu Hrest ltac:(lia)).
    destruct (write_segment_loop fuel _ next _) as [out p']. rewrite Hp in IH. destruct IH as (Hink & Hrep & Hpen & Hok').
    split_and!; [| |by rewrite Hpen, Hpre, pen_after_content|done].
    + intros col prev. destruct (ink_blank_run _ _ _ _ col prev _ _ Hrun Hc Hd Hr0) as [-> _].
      destruct (only_pen_changes next) eqn:Ht; [cbn [write_blank_run app]; by rewrite Hink, !ink_only_pens|].
      rewrite ink_write_blank_run by (done || lia). apply Hink.
    + destruct (only_pen_changes next); [by apply repeats_follow_weaken|by apply repeats_follow_blank_run].
Qed.

Lemma runs_lexed acc items :
  Forall lexed acc -> Forall (fun item => is_barrier item = false -> lexed item) items ->
  Forall (fun run => Forall lexed run.1) (runs acc items).
Proof.
  intros Ha Hi. revert acc Ha. induction Hi as [|item items Hi Hs IH]; intros acc Ha; simpl; [by destruct acc; [constructor|constructor; [|constructor]]|].
  destruct (is_barrier item); [constructor; [done|by apply IH; constructor]|]. apply IH. apply Forall_app. split; [done|].
  constructor; [by apply Hi|constructor].
Qed.

Lemma lex_written items : Forall lexed items -> lex (concat (write_item <$> items)) = items.
Proof. induction 1 as [|item items Hi Hf IH]; [done|]. rewrite fmap_cons. cbn [concat]. by rewrite lex_write, IH. Qed.

Lemma write_run_ink cols content barrier p :
  probe_ok p -> Forall lexed content -> Forall understood content -> repeats_follow false content = true ->
  (cells_of content 0 <= u64_max)%N ->
  exists out p',
    write_run cols (content, barrier) p = (out ++ match barrier with Some item => write_item item | None => [] end, p') /\
    (forall col, ink (lex out) col None (pen_of p) = ink content col None (pen_of p)) /\
    ((cols < cells_of content 0)%N -> out = concat (write_item <$> content)) /\
    pen_of p' = pen_after content (pen_of p) /\ probe_ok p'.
Proof.
  intros Hok Hf Hu Hr Hc. unfold write_run, spans_rows.
  destruct (count_cells_of content 0 0 p Hok Hf Hu Hc) as (Hcells & Hpen & Hok1). destruct (count_cells content 0 0 p) as [cells p1]. cbn [fst snd] in *.
  case_bool_decide as Hspan.
  - eexists _, _. split; [done|]. destruct (observes_pen content p1 Hok1 Hu) as [Hok2 E]. rewrite lex_written, E, Hpen by done. done.
  - unfold write_segment.
    pose proof (write_segment_loop_ink (length content) false content p1 false 0%N ltac:(done) Hok1 Hf Hu Hr Hc) as Hw.
    destruct (write_segment_loop _ _ _ _) as [out p']. destruct Hw as (Hink & _ & Hp' & Hok'). rewrite Hpen in *.
    exists out, p'. split_and!; [done|intros col; apply Hink|lia|done|done].
Qed.

(** C37. The repaint shows the screen: every run of a dump (what lies between two row ends or
    cursor movements) is written as a text that a client reads as items painting exactly
    the cells the run paints, same column, character and pen, but for blanks in the default
    pen, which are what a reset terminal shows anyway; a run of more cells than a row is
    written as it is; the probe's pen follows, and the probe serves for the next run. It holds of a run whose repeats directly follow what they
    repeat, whose cells are at most [usize::MAX], whose characters outside ASCII are drawn in
    cells and whose pen sequences hold parameters alone; of the probe, that such characters
    have a width and leave the pen alone and a pen sequence changes it. *)
Theorem repaint_paints_the_dump dump cols content barrier p :
  (content, barrier) ∈ runs [] (lex dump) -> repeats_follow false content = true ->
  Forall understood content -> (cells_of content 0 <= u64_max)%N -> probe_ok p ->
  exists out p',
    write_run cols (content, barrier) p = (out ++ match barrier with Some item => write_item item | None => [] end, p') /\
    (forall col, ink (lex out) col None (pen_of p) = ink content col None (pen_of p)) /\
    ((cols < cells_of content 0)%N -> out = concat (write_item <$> content)) /\
    pen_of p' = pen_after content (pen_of p) /\ probe_ok p'.
Proof.
  intros Hin Hr Hu Hc Hok. apply write_run_ink; try done. pose proof (runs_lexed [] (lex dump) (Forall_nil_2 _) (lex_lexed dump)) as Hf.
  rewrite Forall_forall in Hf. apply (Hf _ Hin).
Qed.
End ink.

(** A terminal that knows whether its pen is the default, and its first cell. *)
Definition RESET_PEN : text := [27; 91; 48; 109]%N.

Definition pen_screen : Screen := {|
  scr := bool * option (bool * N);
  scr_new _ _ := (true, None);
  scr_feed t s :=
    if decide (t = HOME) then s
    else if decide (take 2 t = [x1b; x5b]) then (bool_decide (t = utf8_of RESET_PEN), s.2)
    else (s.1, Some (s.1 && bool_decide (t = [x20]), 1%N));
  scr_resize _ _ s := s;
  scr_size _ := (80, 24)%N;
  scr_dump _ := [];
  scr_first_cell s := s.2;
|}.

Lemma encode_not_csi c : (128 <= c)%N -> take 2 (encode_utf8 c) <> [x1b; x5b] /\ encode_utf8 c <> HOME /\ encode_utf8 c <> [x20].
Proof.
  intros Hc. assert (forall n, byte_of (128 + n mod 64) <> x5b) as Hb.
  { intros n E. apply (f_equal Byte.to_N) in E. pose proof (N.mod_lt n 64 ltac:(done)) as Hn. rewrite to_N_byte_of, N.mod_small in E by lia.
    change (Byte.to_N x5b) with 91%N in E. revert E. generalize dependent (n mod 64)%N. intros k Hk E. lia. }
  unfold encode_utf8, HOME. rewrite decide_False by lia.
  split_and!; repeat case_decide; simpl; intros [=]; by eapply Hb.
Qed.

Lemma pen_sequence_csi s : sgr s -> take 2 (utf8_of s) = [x1b; x5b] /\ utf8_of s <> HOME.
Proof.
  intros (mid & _ & ->). split; [reflexivity|]. unfold utf8_of, HOME. rewrite !fmap_app, !concat_app. simpl. intros [= E].
  apply (f_equal last) in E. by rewrite last_snoc in E.
Qed.

#[export] Instance pen_screen_laws : ProbeLaws pen_screen.
Proof.
  refine {| pen := bool; pen_of (s : @scr pen_screen) := fst (s : bool * option (bool * N)); pen_default d := d; pen_sgr s _ := bool_decide (utf8_of s = utf8_of RESET_PEN);
            cell_width _ := 1%N; drawn c := bool_decide (160 <= c)%N |}.
  - intros c [d cell] _ Hc. unfold first_cell_after. simpl. destruct Hc as [->|[Hc _]]; [done|].
    destruct (encode_not_csi c Hc) as (Hcsi & Hhome & _). by rewrite (decide_False _ _ Hhome), (decide_False _ _ Hcsi).
  - intros s [d cell] _ Hs. destruct (pen_sequence_csi s Hs) as [Hcsi Hhome]. simpl. by rewrite decide_False, decide_True.
  - by intros [[] cell].
  - intros c [d cell] _ Hc _. unfold char_width. rewrite decide_False by lia.
    destruct (encode_not_csi c ltac:(lia)) as (Hcsi & Hhome & _). unfold first_cell_after. simpl.
    by rewrite (decide_False _ _ Hhome), (decide_False _ _ Hcsi).
  - done.
Defined.

(** An indented word, a gap, a coloured blank and trailing blanks. *)
Definition sample_row : text := chars "   ls -l" ++ [27; 91; 52; 49; 109]%N ++ chars " " ++ RESET_PEN ++ chars "  ".

Definition sample_content : list Item := lex sample_row.

Lemma repaint_paints_the_dump_witness :
  exists out p', @write_run pen_screen 80 (sample_content, None) (scr_new 4 1) = (out ++ [], p') /\
    out = [27; 91; 51; 67]%N ++ chars "ls -l" ++ [27; 91; 52; 49; 109]%N ++ chars " " ++ RESET_PEN /\
    @ink _ pen_screen_laws (lex out) 0 None (pen_of (scr_new 4 1)) = @ink _ pen_screen_laws sample_content 0 None (pen_of (scr_new 4 1)).
Proof.
  destruct (@repaint_paints_the_dump pen_screen pen_screen_laws sample_row 80 sample_content None (scr_new 4 1)) as (out & p' & E & Hink & _).
  - left.
  - reflexivity.
  - apply Forall_forall. intros item Hi. eapply (Forall_forall _ sample_content) in Hi; [exact Hi|].
    repeat constructor; try (by left); (by exists [52; 49]%N; repeat constructor) || (by exists [48]%N; repeat constructor).
  - vm_compute. discriminate.
  - apply probing_new.
  - exists out, p'. split; [exact E|]. split; [|apply Hink].
    apply (f_equal fst) in E. cbn [fst] in E. rewrite app_nil_r in E. rewrite <- E. reflexivity.
Defined.
