(* ===== verification/TerminalBridge.v ===== *)
(** * Terminal streams

    [src/packages/tddy-terminal-rpc/src/bridge.rs] and [session.rs], the terminals behind
    them ([DaemonTerminalSession] and [SandboxTerminalSession] of
    [tddy-session-lifecycle/src/terminal_session_adapter.rs], [PtyHandle] of
    [tddy-cli-sessions], [TaskChannel::write] of [tddy-task]) and the in-band resize of
    [tddy-pty/src/resize.rs]. One stream on one terminal: the terminal writes while the
    stream opens in steps that each take the capture's lock at most once, and the live loop
    answers one of its branches at a time, so that all of it interleaves. *)

From Stdlib Require Import Ascii Strings.Byte.
From S2P Require Import Prelude Text NodeIds RpcStatus Framing Utf8 Capture ScreenDump.

Local Open Scope io_scope.

(** ** The in-band resize *)

Definition RESIZE_PREFIX : bytes := x1b :: text_bytes "]resize;".

Fixpoint byte_position (b : byte) (l : bytes) : option nat :=
  match l with [] => None | x :: l => if decide (x = b) then Some 0 else S <$> byte_position b l end.

(** The first of the next [count] places where the prefix starts. *)
Fixpoint find_prefix (count : nat) (prefix data : bytes) : option nat :=
  match count with
  | O => None
  | S count => if decide (take (length prefix) data = prefix) then Some 0 else S <$> find_prefix count prefix (drop 1 data)
  end.

Definition parse_u16 (b : bytes) : option N := from_utf8 b ≫= parse_unsigned 65535.

Definition strip_resize (data : bytes) : option (N * N) * bytes :=
  default (None, data) (
    start ← find_prefix (length data - length RESIZE_PREFIX) RESIZE_PREFIX data;
    let after := drop (start + length RESIZE_PREFIX) data in
    bel ← byte_position BEL after;
    let inner := take bel after in
    semi ← byte_position x3b inner;
    cols ← parse_u16 (take semi inner);
    rows ← parse_u16 (drop (semi + 1) inner);
    Some (Some (cols, rows), take start data ++ drop (start + length RESIZE_PREFIX + bel + 1) data)).

(** ** Frames *)

Record SessionTerminalOutput := mkFrame {
  fr_data : bytes;
  fr_acked_input_offset : N;
  fr_start_offset : N;
  fr_end_offset : N;
  fr_at_oldest : bool;
  fr_session_id : string;
  fr_terminal_id : string;
  fr_snapshot : bool;
  fr_snapshot_rows : N;
  fr_snapshot_cols : N;
  fr_refused_input_offset : N;
  fr_input_refusal : string;
}.

Definition MAIN_TERMINAL_ID : string := "main".

Definition resolved_terminal_id (terminal_id : string) : string :=
  if decide (terminal_id = "") then MAIN_TERMINAL_ID else terminal_id.

Record FrameIdentity := mkIdentity { id_session : string; id_terminal : string }.

Definition new_identity (session_id terminal_id : string) : FrameIdentity :=
  mkIdentity session_id (resolved_terminal_id terminal_id).

Section frames.
Variable identity : FrameIdentity.

Definition initial_replay_frame (data : bytes) (start_offset end_offset : N) (at_oldest : bool) : SessionTerminalOutput :=
  mkFrame data 0 start_offset end_offset at_oldest (id_session identity) (id_terminal identity) false 0 0 0 "".

Definition data_frame (data : bytes) : SessionTerminalOutput := initial_replay_frame data 0 0 false.

Definition snapshot_frame (s : ScreenSnapshot) : SessionTerminalOutput :=
  mkFrame (ss_data s) 0 0 (ss_offset s) false (id_session identity) (id_terminal identity) true (ss_rows s) (ss_cols s) 0 "".

Definition refusal_frame (refused_input_offset : N) (reason : string) : SessionTerminalOutput :=
  mkFrame [] 0 0 0 false (id_session identity) (id_terminal identity) false 0 0 refused_input_offset reason.

Definition ack_frame (acked_input_offset : N) : SessionTerminalOutput :=
  mkFrame [] acked_input_offset 0 0 false (id_session identity) (id_terminal identity) false 0 0 0 "".
End frames.

(** ** A subscription to the output

    A broadcast receiver: a channel keeps [capacity] messages, and a receiver that missed
    some is told so once and goes on from the oldest kept. *)

Record receiver := mkRx { rx_queue : list bytes; rx_lagged : bool }.

Definition subscribe : receiver := mkRx [] false.

Definition broadcast (capacity : nat) (data : bytes) (rx : receiver) : receiver :=
  if decide (length (rx_queue rx) < capacity) then mkRx (rx_queue rx ++ [data]) (rx_lagged rx)
  else mkRx (drop 1 (rx_queue rx ++ [data])) true.

Inductive recv_result := RecvOk (data : bytes) | RecvLagged | RecvPending.

Definition recv (rx : receiver) : recv_result * receiver :=
  if rx_lagged rx then (RecvLagged, mkRx (rx_queue rx) false)
  else match rx_queue rx with data :: rest => (RecvOk data, mkRx rest false) | [] => (RecvPending, rx) end.

(** ** Terminals *)

Inductive TerminalOwner := CliTerminal | SandboxTerminal.

Section bridge.
Context `{Screen}.

Record Terminal := mkTerminal {
  tm_owner : TerminalOwner;
  tm_capture : TerminalCapture;
  tm_poisoned : bool;
  tm_stdin : list bytes;
  tm_acked : N;
}.

Definition with_capture (c : TerminalCapture) (t : Terminal) : Terminal :=
  mkTerminal (tm_owner t) c (tm_poisoned t) (tm_stdin t) (tm_acked t).

(** [capture.lock()]. *)
Definition lock_capture (t : Terminal) : option TerminalCapture := if tm_poisoned t then None else Some (tm_capture t).

Definition resizable (t : Terminal) : bool := match tm_owner t with CliTerminal => true | SandboxTerminal => false end.
Definition requires_control (t : Terminal) : bool := match tm_owner t with CliTerminal => true | SandboxTerminal => false end.

Definition resize_terminal (rows cols : N) (t : Terminal) : Terminal :=
  match tm_owner t, lock_capture t with
  | CliTerminal, Some c => with_capture (resize rows cols c) t
  | _, _ => t
  end.

Definition terminal_send_input (data : bytes) (input_offset : N) (t : Terminal) : Terminal :=
  match tm_owner t with
  | CliTerminal =>
      let '(size, remaining) := strip_resize data in
      let t := match size with Some (cols, rows) => resize_terminal rows cols t | None => t end in
      mkTerminal (tm_owner t) (tm_capture t) (tm_poisoned t)
        (if decide (remaining = []) then tm_stdin t else tm_stdin t ++ [remaining]) (N.max (tm_acked t) input_offset)
  | SandboxTerminal => mkTerminal (tm_owner t) (tm_capture t) (tm_poisoned t) (tm_stdin t ++ [data]) (tm_acked t)
  end.

Definition unsized_screen_refusal : Status :=
  mk_rpc_status CodeFailedPrecondition "the terminal's size is unknown, so its screen cannot be snapshotted".

(** Under one lock. *)
Definition snapshot_and_subscribe (t : Terminal) : Status + (ScreenSnapshot * receiver) :=
  match lock_capture t with
  | None => inl (mk_rpc_status CodeInternal "the terminal capture is poisoned")
  | Some c => match capture_snapshot c with Some s => inr (s, subscribe) | None => inl unsized_screen_refusal end
  end.

(** ** The live output *)

Record LiveOutput := mkLive { lo_rx : receiver; lo_next_offset : option N }.

Definition tail (rx : receiver) : LiveOutput := mkLive rx None.
Definition stamped_live (rx : receiver) (from_offset : N) : LiveOutput := mkLive rx (Some from_offset).

Definition resyncable (live : LiveOutput) : bool := match lo_next_offset live with Some _ => true | None => false end.

Definition live_data_frame (identity : FrameIdentity) (data : bytes) (live : LiveOutput) : SessionTerminalOutput * LiveOutput :=
  match lo_next_offset live with
  | Some start =>
      let finish := (start + N.of_nat (length data))%N in
      (initial_replay_frame identity data start finish false, mkLive (lo_rx live) (Some finish))
  | None => (data_frame identity data, live)
  end.

Definition resync (t : Terminal) (identity : FrameIdentity) (live : LiveOutput) : (Status + SessionTerminalOutput) * LiveOutput :=
  match snapshot_and_subscribe t with
  | inl status => (inl status, live)
  | inr (s, rx) => (inr (snapshot_frame identity s), mkLive rx (Some (ss_offset s)))
  end.

(** ** Opening a stream *)

Inductive StreamReplayMode := Tail | FromOffset | Snapshot.

Definition replay_mode_from_i32 (mode : Z) : StreamReplayMode :=
  if decide (mode = 1)%Z then FromOffset else if decide (mode = 2)%Z then Snapshot else Tail.

Record OpenSelection := mkOpen {
  op_mode : StreamReplayMode;
  op_from_offset : N;
  op_initial_cols : N;
  op_initial_rows : N;
  op_resync : bool;
}.

Definition as_u16 (n : N) : N := N.min (N.max n 1) 65535.

(** Where a stream is: what an open does next, the live loop, or its end. *)
Inductive Phase :=
| SendPrologue
| SendLastFrame
| ResizeTail
| SubscribeTail
| DrainTail
| ReadTip
| CatchUp (cursor : N) (anchored : bool)
| SubscribeFrom
| CheckGrid
| ResizeSnapshot (grid : N * N)
| TakeSnapshot
| SendInitialAck
| Live
| Refused (status : Status)
| Ended.

Record Stream := mkStream {
  sm_phase : Phase;
  sm_live : option LiveOutput;
  sm_seen_ack : N;
  sm_sent : list (Status + SessionTerminalOutput);
}.

Definition start_stream (open : OpenSelection) : Stream :=
  mkStream (match op_mode open with Snapshot => CheckGrid | _ => SendPrologue end) None 0 [].

Definition goto (p : Phase) (s : Stream) : Stream := mkStream p (sm_live s) (sm_seen_ack s) (sm_sent s).
Definition send_frame (f : Status + SessionTerminalOutput) (s : Stream) : Stream :=
  mkStream (sm_phase s) (sm_live s) (sm_seen_ack s) (sm_sent s ++ [f]).
Definition set_live (live : LiveOutput) (s : Stream) : Stream := mkStream (sm_phase s) (Some live) (sm_seen_ack s) (sm_sent s).

Definition empty_chunk : CaptureChunk := mkChunk [] 0 0 true true.

Definition chunk_frame (identity : FrameIdentity) (c : CaptureChunk) : SessionTerminalOutput :=
  initial_replay_frame identity (ch_data c) (ch_start_offset c) (ch_end_offset c) (ch_at_oldest c).

Section open.
Variable identity : FrameIdentity.
Variable open : OpenSelection.
Variable initial_frame_bytes : nat.

Definition tail_resizing (t : Terminal) : bool :=
  bool_decide (0 < op_initial_cols open)%N && bool_decide (0 < op_initial_rows open)%N && resizable t.

(** One step of [open_replay_ack_live] or [open_snapshot]; a panic is an index out of range. *)
Definition open_step (t : Terminal) (s : Stream) : res string (Terminal * Stream) :=
  match sm_phase s with
  | SendPrologue =>
      let modes := match lock_capture t with Some c => prologue (tc_modes c) | None => [] end in
      let s := if decide (modes = []) then s else send_frame (inr (data_frame identity modes)) s in
      Ok (t, goto (match op_mode open with Tail => SendLastFrame | _ => ReadTip end) s)
  | SendLastFrame =>
      let chunk := match lock_capture t with Some c => replay_last initial_frame_bytes c | None => empty_chunk end in
      let s := if decide (ch_data chunk <> [] \/ ch_at_oldest chunk = true) then send_frame (inr (chunk_frame identity chunk)) s else s in
      Ok (t, goto ResizeTail s)
  | ResizeTail =>
      let t := if tail_resizing t then resize_terminal (as_u16 (op_initial_rows open)) (as_u16 (op_initial_cols open)) t else t in
      Ok (t, goto SubscribeTail s)
  | SubscribeTail => Ok (t, goto (if tail_resizing t then DrainTail else SendInitialAck) (set_live (tail subscribe) s))
  | DrainTail => Ok (t, goto SendInitialAck (set_live (tail subscribe) s))
  | ReadTip =>
      let tip := match lock_capture t with Some c => tc_end_offset c | None => 0%N end in
      Ok (t, goto (CatchUp (N.min (op_from_offset open) tip) false) s)
  | CatchUp cursor anchored =>
      let? chunk := match lock_capture t with Some c => replay_from cursor 0 initial_frame_bytes c | None => Ok empty_chunk end in
      let sending := bool_decide (ch_data chunk <> []) || negb anchored in
      let s := if sending then send_frame (inr (chunk_frame identity chunk)) s else s in
      Ok (t, goto (if ch_at_end chunk then SubscribeFrom else CatchUp (ch_end_offset chunk) (anchored || sending)) s)
  | SubscribeFrom => Ok (t, goto SendInitialAck (set_live (tail subscribe) s))
  | CheckGrid =>
      match lock_capture t ≫= grid with
      | None => Ok (t, goto (Refused unsized_screen_refusal) s)
      | Some g => Ok (t, goto (ResizeSnapshot g) s)
      end
  | ResizeSnapshot g =>
      let wanted := (as_u16 (op_initial_rows open), as_u16 (op_initial_cols open)) in
      let asks_for_grid := bool_decide (0 < op_initial_rows open)%N && bool_decide (0 < op_initial_cols open)%N in
      let t := if asks_for_grid && resizable t && bool_decide (wanted <> g) then resize_terminal wanted.1 wanted.2 t else t in
      Ok (t, goto TakeSnapshot s)
  | TakeSnapshot =>
      match snapshot_and_subscribe t with
      | inl status => Ok (t, goto (Refused status) s)
      | inr (snap, rx) =>
          Ok (t, goto SendInitialAck (set_live (stamped_live rx (ss_offset snap)) (send_frame (inr (snapshot_frame identity snap)) s)))
      end
  | SendInitialAck =>
      let acked := tm_acked t in
      let s := mkStream Live (sm_live s) acked (sm_sent s) in
      Ok (t, if decide (0 < acked)%N then send_frame (inr (ack_frame identity acked)) s else s)
  | Live | Refused _ | Ended => Ok (t, s)
  end.

(** ** The live loop *)

(** [send_resync]: the snapshot frame, or its refusal and the end. *)
Definition send_resync (t : Terminal) (live : LiveOutput) (s : Stream) : Stream :=
  let '(outcome, live) := resync t identity live in
  let s := send_frame outcome (set_live live s) in
  match outcome with inl _ => goto Ended s | inr _ => s end.

(** The branch of a received chunk, or of a lag. *)
Definition on_output (t : Terminal) (s : Stream) : Stream :=
  match sm_phase s, sm_live s with
  | Live, Some live =>
      let '(result, rx) := recv (lo_rx live) in
      let live := mkLive rx (lo_next_offset live) in
      match result with
      | RecvOk data => let '(frame, live) := live_data_frame identity data live in send_frame (inr frame) (set_live live s)
      | RecvLagged => if resyncable live then send_resync t live s else set_live live s
      | RecvPending => s
      end
  | _, _ => s
  end.

(** The branch of a requested resync. *)
Definition on_resync (t : Terminal) (s : Stream) : Stream :=
  match sm_phase s, sm_live s with
  | Live, Some live => if op_resync open && resyncable live then send_resync t live s else s
  | _, _ => s
  end.

(** The branch of a changed input offset. *)
Definition on_acked (t : Terminal) (s : Stream) : Stream :=
  match sm_phase s with
  | Live =>
      if decide (tm_acked t = sm_seen_ack s) then s
      else send_frame (inr (ack_frame identity (tm_acked t))) (mkStream Live (sm_live s) (tm_acked t) (sm_sent s))
  | _ => s
  end.

(** The child exited, the terminal went away, or the client did. *)
Definition on_done (s : Stream) : Stream := match sm_phase s with Live => goto Ended s | _ => s end.
End open.
End bridge.
