(* ===== verification/TerminalBridgeSpec.v ===== *)
(** * What a terminal stream delivers

    Any interleaving of the terminal's output, of resizes and acknowledgements by others and
    of the stream's own steps: a snapshot stream delivers the output exactly from its
    sequence point on, whatever is missed in between being covered by a fresh snapshot; a
    catch-up is the output from the client's offset to the tip. *)

From Stdlib Require Import Ascii Strings.Byte.
From S2P Require Import Prelude Text NodeIds RpcStatus Framing Utf8 Capture CaptureSpec CapturePaging ScreenDump TerminalBridge.

Local Open Scope io_scope.

#[local] Opaque CAPTURE_LIMIT_BYTES MAX_SEQUENCE_CHASE_BYTES.

(** ** Interleavings *)

Inductive event :=
| Wrote (data : bytes)
| ResizedBy (rows cols : N)
| AckedBy (offset : N)
| Poisoned
| OpenStep
| OutputBranch
| ResyncBranch
| AckBranch
| DoneBranch.

Section world.
Context `{Screen}.

Record World := mkWorld { w_written : bytes; w_terminal : Terminal; w_stream : Stream }.

Variable identity : FrameIdentity.
Variable open : OpenSelection.
Variable initial_frame_bytes : nat.
Variable capacity : nat.

(** [TaskChannel::write]: append and broadcast, under the lock. *)
Definition write_terminal (data : bytes) (w : World) : World :=
  match lock_capture (w_terminal w) with
  | None => w
  | Some c =>
      let s := w_stream w in
      let live := (fun l => mkLive (broadcast capacity data (lo_rx l)) (lo_next_offset l)) <$> sm_live s in
      mkWorld (w_written w ++ data) (with_capture (append_output data c) (w_terminal w))
        (mkStream (sm_phase s) live (sm_seen_ack s) (sm_sent s))
  end.

Definition world_step (w : World) (e : event) : res string World :=
  let t := w_terminal w in
  let s := w_stream w in
  match e with
  | Wrote data => Ok (write_terminal data w)
  | ResizedBy rows cols => Ok (mkWorld (w_written w) (resize_terminal rows cols t) s)
  | AckedBy offset => Ok (mkWorld (w_written w) (mkTerminal (tm_owner t) (tm_capture t) (tm_poisoned t) (tm_stdin t) (N.max (tm_acked t) offset)) s)
  | Poisoned => Ok (mkWorld (w_written w) (mkTerminal (tm_owner t) (tm_capture t) true (tm_stdin t) (tm_acked t)) s)
  | OpenStep => let? ts := open_step identity open initial_frame_bytes t s in Ok (mkWorld (w_written w) ts.1 ts.2)
  | OutputBranch => Ok (mkWorld (w_written w) t (on_output identity t s))
  | ResyncBranch => Ok (mkWorld (w_written w) t (on_resync identity open t s))
  | AckBranch => Ok (mkWorld (w_written w) t (on_acked identity t s))
  | DoneBranch => Ok (mkWorld (w_written w) t (on_done s))
  end.

Fixpoint run_world (w : World) (es : list event) : res string World :=
  match es with [] => Ok w | e :: es => let? w := world_step w e in run_world w es end.

(** A terminal with some history, on which a stream is opened. *)
Definition open_world (owner : TerminalOwner) (history : list capture_op) (acked : N) : World :=
  mkWorld (written history) (mkTerminal owner (captured history) false [] acked) (start_stream open).

(** ** What was delivered *)

(** [delivered stream frames pos]: the frames a snapshot stream sent, of an output that is
    [stream] so far; the client that got them is at offset [pos]. *)
Inductive delivered (stream : bytes) : list (Status + SessionTerminalOutput) -> option N -> Prop :=
| delivered_nothing : delivered stream [] None
| delivered_snapshot frames pos before s :
    delivered stream frames pos ->
    written before = take (N.to_nat (ss_offset s)) stream -> capture_snapshot (captured before) = Some s ->
    (ss_offset s <= N.of_nat (length stream))%N -> (default 0 pos <= ss_offset s)%N ->
    delivered stream (frames ++ [inr (snapshot_frame identity s)]) (Some (ss_offset s))
| delivered_data frames start finish :
    delivered stream frames (Some start) -> (start <= finish)%N -> (finish <= N.of_nat (length stream))%N ->
    delivered stream (frames ++ [inr (initial_replay_frame identity (between_offsets stream start finish) start finish false)]) (Some finish)
| delivered_ack frames pos offset :
    delivered stream frames pos -> delivered stream (frames ++ [inr (ack_frame identity offset)]) pos
| delivered_refusal frames pos status :
    delivered stream frames pos -> delivered stream (frames ++ [inl status]) pos.

Lemma delivered_mono stream data frames pos : delivered stream frames pos -> delivered (stream ++ data) frames pos.
Proof.
  induction 1 as [|frames pos before s _ IH Hw Hs Ho Hp|frames start finish _ IH Hsf Hf|frames pos offset _ IH|frames pos status _ IH].
  - constructor.
  - eapply delivered_snapshot; eauto; [by rewrite take_app_le by lia|rewrite length_app; lia].
  - rewrite <- (between_prefix stream data) by done. constructor; [done..|rewrite length_app; lia].
  - by constructor.
  - by constructor.
Qed.

(** ** Snapshot streams *)

(** A stamped subscription: at [p], with the rest of the output queued unless it lagged. *)
Definition live_at (stream : bytes) (live : LiveOutput) (p : N) : Prop :=
  lo_next_offset live = Some p /\ (p <= N.of_nat (length stream))%N /\
  (rx_lagged (lo_rx live) = false -> concat (rx_queue (lo_rx live)) = drop (N.to_nat p) stream).

Definition phase_at (stream : bytes) (s : Stream) (pos : option N) : Prop :=
  match sm_phase s with
  | CheckGrid | ResizeSnapshot _ | TakeSnapshot | Refused _ => sm_live s = None /\ pos = None /\ sm_sent s = []
  | SendInitialAck | Live => exists live p, sm_live s = Some live /\ pos = Some p /\ live_at stream live p
  | Ended => True
  | _ => False
  end.

Definition stream_ok (w : World) : Prop :=
  exists history pos, tm_capture (w_terminal w) = captured history /\ written history = w_written w /\
    delivered (w_written w) (sm_sent (w_stream w)) pos /\ phase_at (w_written w) (w_stream w) pos.

Lemma live_broadcast stream data live p :
  live_at stream live p -> live_at (stream ++ data) (mkLive (broadcast capacity data (lo_rx live)) (lo_next_offset live)) p.
Proof.
  intros (Hn & Hp & Hq). split_and!; [done|rewrite length_app; lia|]. simpl. unfold broadcast. case_decide; [|done]. simpl.
  intros Hl. rewrite concat_app, Hq by done. simpl. rewrite app_nil_r, drop_app_le by lia. done.
Qed.

Lemma resized_history rows cols t history :
  tm_capture t = captured history ->
  exists history', tm_capture (resize_terminal rows cols t) = captured history' /\ written history' = written history.
Proof.
  intros Hc. unfold resize_terminal, lock_capture. destruct (tm_owner t), (tm_poisoned t); eauto.
  exists (history ++ [Resized rows cols]). rewrite captured_snoc, written_snoc, <- Hc. simpl. by rewrite app_nil_r.
Qed.

Lemma snapshot_offset history s :
  (N.of_nat (length (written history)) <= u64_max)%N -> capture_snapshot (captured history) = Some s ->
  ss_offset s = N.of_nat (length (written history)).
Proof.
  intros Hu. unfold capture_snapshot. destruct (tc_sized _); [|done]. destruct (scr_size _). intros [= <-]. simpl.
  by apply ring_end, captured_ring.
Qed.

Lemma snapshot_and_subscribe_ok t history stream s rx :
  (N.of_nat (length stream) <= u64_max)%N -> tm_capture t = captured history -> written history = stream ->
  snapshot_and_subscribe t = inr (s, rx) ->
  capture_snapshot (captured history) = Some s /\ ss_offset s = N.of_nat (length stream) /\ live_at stream (mkLive rx (Some (ss_offset s))) (ss_offset s).
Proof.
  intros Hu Hc <- E. unfold snapshot_and_subscribe, lock_capture in E. destruct (tm_poisoned t); [done|]. rewrite Hc in E.
  destruct (capture_snapshot (captured history)) as [s'|] eqn:Es; [|done]. injection E as <- <-.
  pose proof (snapshot_offset _ _ Hu Es) as Ho. split_and!; [done..|]. split_and!; [done|lia|]. intros _. simpl.
  by rewrite drop_ge by lia.
Qed.

Lemma delivered_current stream frames pos history s :
  delivered stream frames pos -> (default 0 pos <= N.of_nat (length stream))%N -> written history = stream ->
  capture_snapshot (captured history) = Some s -> ss_offset s = N.of_nat (length stream) ->
  delivered stream (frames ++ [inr (snapshot_frame identity s)]) (Some (ss_offset s)).
Proof.
  intros Hd Hp Hw Hs Ho. eapply delivered_snapshot; [done| |done|lia|lia]. rewrite Hw, take_ge by lia. done.
Qed.

Lemma delivered_bound stream frames pos : delivered stream frames pos -> (default 0 pos <= N.of_nat (length stream))%N.
Proof. induction 1; simpl in *; lia. Qed.

Lemma send_resync_ok t live s stream history p :
  (N.of_nat (length stream) <= u64_max)%N -> tm_capture t = captured history -> written history = stream ->
  delivered stream (sm_sent s) (Some p) -> sm_phase s = Live ->
  exists pos, delivered stream (sm_sent (send_resync identity t live s)) pos /\ phase_at stream (send_resync identity t live s) pos.
Proof.
  intros Hu Hc Hw Hd Hph. unfold send_resync, resync. destruct (snapshot_and_subscribe t) as [status|[snap rx]] eqn:E.
  - exists (Some p). simpl. split; [by constructor|done].
  - destruct (snapshot_and_subscribe_ok _ _ _ _ _ Hu Hc Hw E) as (Hs & Ho & Hl).
    exists (Some (ss_offset snap)). split; [simpl; eapply delivered_current; eauto using delivered_bound|].
    unfold phase_at. simpl. rewrite Hph. eauto.
Qed.

Lemma on_output_ok t s stream history pos :
  (N.of_nat (length stream) <= u64_max)%N -> tm_capture t = captured history -> written history = stream ->
  delivered stream (sm_sent s) pos -> phase_at stream s pos ->
  exists pos', delivered stream (sm_sent (on_output identity t s)) pos' /\ phase_at stream (on_output identity t s) pos'.
Proof.
  intros Hu Hc Hw Hd Hp. unfold on_output. destruct (sm_phase s) eqn:Hph; eauto.
  unfold phase_at in Hp. rewrite Hph in Hp. destruct Hp as (live & p & Hl & -> & Hn & Hle & Hq). rewrite Hl.
  unfold recv. destruct (rx_lagged (lo_rx live)) eqn:Elag.
  - unfold resyncable. simpl. rewrite Hn. by eapply send_resync_ok.
  - specialize (Hq eq_refl). destruct (rx_queue (lo_rx live)) as [|data rest] eqn:Eq.
    + exists (Some p). split; [done|]. unfold phase_at. rewrite Hph. exists live, p. split_and!; [done..|].
      split_and!; [done..|]. by rewrite Eq.
    + unfold live_data_frame. simpl. rewrite Hn. simpl. simpl in Hq.
      assert (length data + length (concat rest) = length stream - N.to_nat p) as Hlen by (by rewrite <- length_app, Hq, length_drop).
      exists (Some (p + N.of_nat (length data))%N). split.
      * assert (between_offsets stream p (p + N.of_nat (length data)) = data) as Eb.
        { unfold between_offsets. replace (N.to_nat (p + N.of_nat (length data)) - N.to_nat p) with (length data) by lia.
          by rewrite <- Hq, take_app_length. }
        rewrite <- Eb at 1. constructor; [done|lia|lia].
      * unfold phase_at. simpl. rewrite Hph. eexists _, _. split_and!; [done..|]. split_and!; [done|lia|]. simpl. intros _.
        replace (N.to_nat (p + N.of_nat (length data))) with (N.to_nat p + length data) by lia.
        by rewrite <- drop_drop, <- Hq, drop_app_length.
Qed.

Lemma on_resync_ok t s stream history pos :
  (N.of_nat (length stream) <= u64_max)%N -> tm_capture t = captured history -> written history = stream ->
  delivered stream (sm_sent s) pos -> phase_at stream s pos ->
  exists pos', delivered stream (sm_sent (on_resync identity open t s)) pos' /\ phase_at stream (on_resync identity open t s) pos'.
Proof.
  intros Hu Hc Hw Hd Hp. unfold on_resync. destruct (sm_phase s) eqn:Hph; eauto. pose proof Hp as Hp'.
  unfold phase_at in Hp'. rewrite Hph in Hp'. destruct Hp' as (live & p & Hl & -> & _). rewrite Hl.
  destruct (_ && _); [by eapply send_resync_ok|eauto].
Qed.

Lemma on_acked_ok t s stream pos :
  delivered stream (sm_sent s) pos -> phase_at stream s pos ->
  delivered stream (sm_sent (on_acked identity t s)) pos /\ phase_at stream (on_acked identity t s) pos.
Proof.
  intros Hd Hp. unfold on_acked. destruct (sm_phase s) eqn:Hph; try done. case_decide; [done|].
  split; [by constructor|]. unfold phase_at in *. by rewrite Hph in Hp.
Qed.

Lemma open_step_ok t s stream history pos :
  (N.of_nat (length stream) <= u64_max)%N -> tm_capture t = captured history -> written history = stream ->
  delivered stream (sm_sent s) pos -> phase_at stream s pos ->
  exists t' s' history' pos', open_step identity open initial_frame_bytes t s = Ok (t', s') /\
    tm_capture t' = captured history' /\ written history' = stream /\ delivered stream (sm_sent s') pos' /\ phase_at stream s' pos'.
Proof.
  intros Hu Hc Hw Hd Hp. pose proof Hp as Hp'. unfold open_step, phase_at in *. destruct (sm_phase s) eqn:Hph; try done.
  - destruct Hp as (Hl & -> & Hs). destruct (lock_capture t ≫= grid); eexists t, _, history, None; split_and!; try done; simpl; by rewrite ?Hl.
  - destruct Hp as (Hl & -> & Hs). match goal with |- context [if ?b then _ else t] => destruct b end.
    + destruct (resized_history (as_u16 (op_initial_rows open)) (as_u16 (op_initial_cols open)) t history Hc) as (h' & E & E').
      eexists _, _, h', None. split_and!; [done|done|congruence|done|by simpl].
    + eexists _, _, history, None. by split_and!.
  - destruct Hp as (Hl & -> & Hs). destruct (snapshot_and_subscribe t) as [status|[snap rx]] eqn:E.
    + eexists t, _, history, None. by split_and!.
    + destruct (snapshot_and_subscribe_ok _ _ _ _ _ Hu Hc Hw E) as (Hsnap & Ho & Hlive).
      eexists t, _, history, (Some (ss_offset snap)). split_and!; [done..| |].
      * simpl. eapply delivered_current; eauto. simpl. lia.
      * simpl. eauto.
  - eexists t, _, history, pos. split_and!; [done..| |]; case_decide; simpl; [by constructor|done|done|done].
  - eexists t, s, history, pos. split_and!; try done. by rewrite Hph.
  - eexists t, s, history, pos. split_and!; try done. by rewrite Hph.
  - eexists t, s, history, pos. split_and!; try done. by rewrite Hph.
Qed.

Lemma phase_at_mono stream data s pos :
  phase_at stream s pos ->
  phase_at (stream ++ data)
    (mkStream (sm_phase s) ((fun l => mkLive (broadcast capacity data (lo_rx l)) (lo_next_offset l)) <$> sm_live s)
       (sm_seen_ack s) (sm_sent s)) pos.
Proof.
  unfold phase_at. simpl. destruct (sm_phase s); try done; try (intros (-> & -> & ->); done).
  all: intros (live & p & -> & -> & Hl); eexists _, _; split_and!; [done..|]; by apply live_broadcast.
Qed.

(** The bytes written by some events. *)
Definition writes (es : list event) : bytes := concat ((fun e => match e with Wrote data => data | _ => [] end) <$> es).

Lemma world_step_ok w e :
  (N.of_nat (length (w_written w ++ writes [e])) <= u64_max)%N -> stream_ok w ->
  exists w', world_step w e = Ok w' /\ stream_ok w' /\ (w_written w' = w_written w \/ w_written w' = w_written w ++ writes [e]).
Proof.
  intros Hu (history & pos & Hc & Hw & Hd & Hp).
  assert (N.of_nat (length (w_written w)) <= u64_max)%N as Hu0 by (rewrite length_app in Hu; lia).
  destruct e as [data|rows cols|offset| | | | | |]; cbn [world_step].
  - eexists. split; [done|]. unfold write_terminal, lock_capture. destruct (tm_poisoned _); [split; [by exists history, pos|by left]|].
    unfold writes. simpl. rewrite app_nil_r. split; [|by right]. exists (history ++ [Output data]), pos. simpl.
    rewrite captured_snoc, written_snoc, Hw, Hc. split_and!; [done..|by apply delivered_mono|by apply phase_at_mono].
  - eexists. split; [done|]. split; [|by left]. destruct (resized_history rows cols _ _ Hc) as (h' & E & E').
    exists h', pos. simpl. split_and!; [done|congruence|done..].
  - eexists. split; [done|]. split; [|by left]. by exists history, pos.
  - eexists. split; [done|]. split; [|by left]. by exists history, pos.
  - destruct (open_step_ok _ _ _ _ _ Hu0 Hc Hw Hd Hp) as (t' & s' & h' & pos' & -> & ? & ? & ? & ?).
    eexists. split; [done|]. split; [|by left]. by exists h', pos'.
  - eexists. split; [done|]. split; [|by left]. destruct (on_output_ok _ _ _ _ _ Hu0 Hc Hw Hd Hp) as (pos' & ? & ?). by exists history, pos'.
  - eexists. split; [done|]. split; [|by left]. destruct (on_resync_ok _ _ _ _ _ Hu0 Hc Hw Hd Hp) as (pos' & ? & ?). by exists history, pos'.
  - eexists. split; [done|]. split; [|by left]. destruct (on_acked_ok (w_terminal w) _ _ _ Hd Hp) as [? ?]. by exists history, pos.
  - eexists. split; [done|]. split; [|by left]. exists history, pos. simpl. unfold on_done.
    destruct (sm_phase (w_stream w)) eqn:Hph; split_and!; done.
Qed.

Lemma run_world_ok w es :
  (N.of_nat (length (w_written w ++ writes es)) <= u64_max)%N -> stream_ok w ->
  exists w', run_world w es = Ok w' /\ stream_ok w'.
Proof.
  revert w. induction es as [|e es IH]; intros w Hu Hok; [eauto|].
  assert (writes (e :: es) = writes [e] ++ writes es) as Hes by (unfold writes; simpl; by rewrite app_nil_r).
  rewrite Hes in Hu. destruct (world_step_ok w e) as (w1 & E & Hok1 & Hw1); [rewrite !length_app in *; lia|done|].
  cbn [run_world]. rewrite E. simpl. apply IH; [|done]. rewrite !length_app in *. destruct Hw1 as [-> | ->]; rewrite ?length_app; lia.
Qed.

(** C4. A snapshot stream delivers the output exactly: whatever the terminal wrote before the
    open and however its writes, resizes, acknowledgements, lags, requested resyncs and
    failures interleave with the stream's steps, no step panics and the frames sent are, in
    order, snapshots of the terminal at a sequence point (the repaint of a capture of
    exactly the output below the offset it carries), each at or after where the client was,
    and data frames that carry exactly the output between the offset the client is at and
    the frame's end: nothing lost, nothing repeated. While the stream is live, what the
    client is missing is exactly what is queued for it, unless it lagged, which the next
    step answers with a snapshot. *)
Theorem snapshot_stream_exact owner history acked es :
  op_mode open = Snapshot ->
  (N.of_nat (length (written history ++ writes es)) <= u64_max)%N ->
  exists w pos, run_world (open_world owner history acked) es = Ok w /\
    delivered (w_written w) (sm_sent (w_stream w)) pos /\
    (sm_phase (w_stream w) = Live -> exists live p, sm_live (w_stream w) = Some live /\ pos = Some p /\
       (rx_lagged (lo_rx live) = false -> concat (rx_queue (lo_rx live)) = drop (N.to_nat p) (w_written w))).
Proof.
  intros Hm Hu. destruct (run_world_ok (open_world owner history acked) es Hu) as (w & E & h & pos & _ & _ & Hd & Hp).
  - exists history, None. split_and!; [done|done|constructor|]. unfold phase_at, start_stream. simpl. by rewrite Hm.
  - exists w, pos. split_and!; [done..|]. intros Hph. unfold phase_at in Hp. rewrite Hph in Hp.
    destruct Hp as (live & p & Hl & -> & _ & _ & Hq). eauto.
Qed.

(** ** Catching up *)

(** Frames that carry the output from [a] to [b], each starting where the one before ended
    and none above the frame budget. *)
Fixpoint filled (stream : bytes) (a : N) (frames : list (Status + SessionTerminalOutput)) (b : N) : Prop :=
  match frames with
  | [] => a = b
  | f :: frames =>
      exists finish oldest, f = inr (initial_replay_frame identity (between_offsets stream a finish) a finish oldest) /\
        (a <= finish)%N /\ length (between_offsets stream a finish) <= initial_frame_bytes /\ filled stream finish frames b
  end.

Lemma filled_snoc stream a frames b finish oldest :
  filled stream a frames b -> (b <= finish)%N -> length (between_offsets stream b finish) <= initial_frame_bytes ->
  filled stream a (frames ++ [inr (initial_replay_frame identity (between_offsets stream b finish) b finish oldest)]) finish.
Proof.
  revert a. induction frames as [|f frames IH]; intros a; simpl.
  - intros -> Hb Hl. by eexists _, _.
  - intros (m & o & -> & Hm & Hlen & Hf) Hb Hl. exists m, o. split_and!; [done..|by apply IH].
Qed.

Definition frame_bytes (f : Status + SessionTerminalOutput) : bytes := match f with inr f => fr_data f | inl _ => [] end.

Lemma filled_data stream a frames b :
  filled stream a frames b ->
  (a <= b)%N /\ concat (frame_bytes <$> frames) = between_offsets stream a b.
Proof.
  revert a. induction frames as [|f frames IH]; intros a; cbn [filled].
  - intros ->. split; [lia|]. simpl. unfold between_offsets. by rewrite Nat.sub_diag.
  - intros (m & o & -> & Hm & _ & Hf). destruct (IH _ Hf) as [Hle E]. split; [lia|].
    rewrite fmap_cons. cbn [concat]. rewrite E. by apply between_join.
Qed.

Lemma run_world_app w es es' : run_world w (es ++ es') = res_bind (run_world w es) (fun w => run_world w es').
Proof. revert w. induction es as [|e es IH]; intros w; [done|]. simpl. destruct (world_step w e); simpl; [apply IH|done..]. Qed.

(** The loop from a cursor within the ring, undisturbed. *)
Lemma catch_up_loop n w c a frames cursor anchored :
  0 < initial_frame_bytes ->
  ring_of (w_written w) c -> (N.of_nat (length (w_written w)) <= u64_max)%N ->
  lock_capture (w_terminal w) = Some c -> sm_phase (w_stream w) = CatchUp cursor anchored ->
  (cursor <= N.of_nat (length (w_written w)))%N ->
  length (w_written w) - N.to_nat (N.max cursor (tc_start_offset c)) <= n ->
  filled (w_written w) a frames (N.max cursor (tc_start_offset c)) -> anchored = bool_decide (frames <> []) ->
  exists k more w', run_world w (replicate k OpenStep) = Ok w' /\ w_written w' = w_written w /\ w_terminal w' = w_terminal w /\
    sm_phase (w_stream w') = SubscribeFrom /\ sm_live (w_stream w') = sm_live (w_stream w) /\
    sm_sent (w_stream w') = sm_sent (w_stream w) ++ more /\
    filled (w_written w) a (frames ++ more) (N.of_nat (length (w_written w))) /\ frames ++ more <> [].
Proof.
  intros Hbud Hr Hu Hlock. revert w frames cursor anchored Hr Hu Hlock.
  induction n as [n IH] using lt_wf_ind. intros w frames cursor anchored Hr Hu Hlock Hph Hcur Hn Hf Ha.
  destruct (replay_from_slice (w_written w) c cursor 0 initial_frame_bytes Hr Hu) as (chunk & E & Hs & Hd & He & _ & Hend).
  pose proof (ring_end _ _ Hr) as Htip. unfold fill_cap in *. rewrite decide_True in * by done. rewrite Htip in *.
  assert (N.max cursor (tc_start_offset c) <= N.of_nat (length (w_written w)))%N as Hcur' by (destruct Hr; lia).
  set (cur := N.max cursor (tc_start_offset c)) in *.
  set (w1 := mkWorld (w_written w) (w_terminal w)
    (goto (if ch_at_end chunk then SubscribeFrom else CatchUp (ch_end_offset chunk) (anchored || (bool_decide (ch_data chunk <> []) || negb anchored)))
       (if bool_decide (ch_data chunk <> []) || negb anchored then send_frame (inr (chunk_frame identity chunk)) (w_stream w) else w_stream w))).
  assert (world_step w OpenStep = Ok w1) as Estep.
  { cbn [world_step]. unfold open_step. by rewrite Hph, Hlock, E. }
  assert (chunk_frame identity chunk =
    initial_replay_frame identity (between_offsets (w_written w) cur (ch_end_offset chunk)) cur (ch_end_offset chunk) (ch_at_oldest chunk)) as Hcf.
  { unfold chunk_frame. by rewrite Hs, Hd. }
  assert (cur <= ch_end_offset chunk <= N.of_nat (length (w_written w)))%N as Hle by (rewrite He; case_decide; lia).
  assert (length (ch_data chunk) = N.to_nat (ch_end_offset chunk) - N.to_nat cur) as Hlen by (rewrite Hd; apply length_between; lia).
  assert (length (between_offsets (w_written w) cur (ch_end_offset chunk)) <= initial_frame_bytes) as Hfit.
  { rewrite <- Hd, Hlen, He. case_decide; lia. }
  pose proof (filled_snoc _ _ _ _ _ (ch_at_oldest chunk) Hf (proj1 Hle) Hfit) as Hf1. rewrite <- Hcf in Hf1.
  destruct (ch_at_end chunk) eqn:Eend.
  - symmetry in Hend. apply bool_decide_eq_true in Hend. replace (ch_end_offset chunk) with (N.of_nat (length (w_written w))) in * by lia.
    exists 1. destruct (bool_decide (ch_data chunk <> []) || negb anchored) eqn:Esend.
    + exists [inr (chunk_frame identity chunk)], w1. cbn [replicate run_world]. rewrite Estep. split_and!; try done. by destruct frames.
    + apply orb_false_iff in Esend as [Hnil%bool_decide_eq_false Hanch]. apply dec_stable in Hnil.
      exists [], w1. cbn [replicate run_world]. rewrite Estep, !app_nil_r. split_and!; try done.
      * rewrite Hnil in Hlen. simpl in Hlen. by replace (N.of_nat (length (w_written w))) with cur by lia.
      * apply negb_false_iff in Hanch. rewrite Ha in Hanch. by apply bool_decide_eq_true in Hanch.
  - symmetry in Hend. apply bool_decide_eq_false in Hend.
    assert (ch_end_offset chunk = cur + N.of_nat initial_frame_bytes)%N as Hend' by (rewrite He in *; case_decide; lia).
    assert (bool_decide (ch_data chunk <> []) = true) as Hdata.
    { apply bool_decide_eq_true. intros E0. rewrite E0 in Hlen. simpl in Hlen. lia. }
    subst w1. rewrite Hdata in Estep. cbn [orb] in Estep. rewrite orb_true_r in Estep.
    match type of Estep with _ = Ok ?w => set (w1 := w) in * end.
    destruct (IH (length (w_written w) - N.to_nat (ch_end_offset chunk)) ltac:(lia) w1 (frames ++ [inr (chunk_frame identity chunk)])
      (ch_end_offset chunk) true) as (k & more & w' & Ek & Hw' & Ht' & Hp' & Hl' & Hsent & Hfill & Hne); try done.
    { simpl. lia. }
    { simpl. lia. }
    { simpl. by replace (N.max (ch_end_offset chunk) (tc_start_offset c)) with (ch_end_offset chunk) by lia. }
    { by destruct frames. }
    exists (S k), (inr (chunk_frame identity chunk) :: more), w'. cbn [replicate run_world]. rewrite Estep. cbn [res_bind].
    rewrite <- (assoc_L (++)) in Hfill, Hne. simpl in Hsent. rewrite <- (assoc_L (++)) in Hsent. split_and!; done.
Qed.

(** C16. A reconnecting client is caught up: for every history of the terminal and every offset
    the client asks from, ahead of the output or already evicted as well, while the terminal
    writes nothing during the open, the open's steps end, after sending the mode prologue (if any mouse mode is on) and at least one frame,
    with frames that carry, in order and without a gap or an overlap, exactly the output
    from that offset (clamped to the tip, and up to the oldest byte retained) to the tip, at
    the offsets they say, none larger than the frame budget. *)
Theorem reconnect_catches_up owner history acked :
  op_mode open = FromOffset -> 0 < initial_frame_bytes -> (N.of_nat (length (written history)) <= u64_max)%N ->
  let stream := written history in
  let tip := N.of_nat (length stream) in
  let start := N.max (N.min (op_from_offset open) tip) (tc_start_offset (captured history)) in
  let modes := prologue (stream_modes stream) in
  exists k w frames, run_world (open_world owner history acked) (replicate k OpenStep) = Ok w /\
    sm_phase (w_stream w) = SubscribeFrom /\
    sm_sent (w_stream w) = (if decide (modes = []) then [] else [inr (data_frame identity modes)]) ++ frames /\
    frames <> [] /\ filled stream start frames tip /\ concat (frame_bytes <$> frames) = between_offsets stream start tip.
Proof.
  intros Hm Hbud Hu stream tip start modes. pose proof (captured_ring _ Hu) as Hr. fold stream in Hr.
  set (w0 := open_world owner history acked).
  set (sent := if decide (modes = []) then [] else [inr (data_frame identity modes)]).
  set (w2 := mkWorld stream (w_terminal w0) (mkStream (CatchUp (N.min (op_from_offset open) tip) false) None 0 sent)).
  assert (run_world w0 [OpenStep; OpenStep] = Ok w2) as E2.
  { cbn [run_world world_step]. unfold open_step, w0, open_world, start_stream. rewrite Hm. cbn [w_stream w_terminal w_written sm_phase lock_capture tm_poisoned tm_capture].
    rewrite (ring_modes _ _ Hr). fold modes. unfold w2, sent. case_decide; cbn; rewrite (ring_end _ _ Hr); done. }
  destruct (catch_up_loop (length stream) w2 (captured history) start [] (N.min (op_from_offset open) tip) false)
    as (k & more & w' & Ek & _ & _ & Hp & _ & Hsent & Hf & Hne); try done.
  { cbn [w_written w2]. lia. }
  { cbn [w_written w2]. lia. }
  exists (2 + k), w', more. rewrite replicate_add, run_world_app. change (replicate 2 OpenStep) with [OpenStep; OpenStep].
  rewrite E2. cbn [res_bind]. split_and!; [done..|by apply filled_data in Hf as [_ ?]].
Qed.
End world.

(** ** Cases *)

Definition demo_identity : FrameIdentity := new_identity "s1" "".
Definition demo_history : list capture_op := [Resized 24 80; Output [x61; x62]].

Definition open_as (mode : StreamReplayMode) (from_offset : N) : OpenSelection := mkOpen mode from_offset 0 0 true.

(** A chunk arrives, two are missed by a receiver that keeps one, and the client resyncs. *)
Definition demo_events : list event :=
  [OpenStep; OpenStep; OpenStep; Wrote [x63]; OpenStep; OutputBranch; Wrote [x64]; Wrote [x65]; OutputBranch; Wrote [x66]; OutputBranch].

(** A frame as a client tells it apart: a snapshot or not, its offsets. *)
Definition offsets_of (f : Status + SessionTerminalOutput) : bool * N * N :=
  match f with inr f => (fr_snapshot f, fr_start_offset f, fr_end_offset f) | inl _ => (false, 0, 0)%N end.

Lemma snapshot_stream_exact_witness :
  exists w pos, @run_world blank_screen demo_identity (open_as Snapshot 0) 4 1 (open_world (open_as Snapshot 0) CliTerminal demo_history 0) demo_events = Ok w /\
    @delivered blank_screen demo_identity (w_written w) (sm_sent (w_stream w)) pos /\
    offsets_of <$> sm_sent (w_stream w) = [(true, 0, 2); (false, 2, 3); (true, 0, 5); (false, 5, 6)]%N.
Proof.
  destruct (@snapshot_stream_exact blank_screen demo_identity (open_as Snapshot 0) 4 1 CliTerminal demo_history 0 demo_events) as (w & pos & E & Hd & _).
  - reflexivity.
  - vm_compute. discriminate.
  - exists w, pos. split; [exact E|]. split; [exact Hd|]. vm_compute in E. injection E as <-. reflexivity.
Defined.

Lemma reconnect_catches_up_witness :
  exists k w frames, @run_world blank_screen demo_identity (open_as FromOffset 1) 1 1 (open_world (open_as FromOffset 1) CliTerminal demo_history 0) (replicate k OpenStep) = Ok w /\
    sm_sent (w_stream w) = frames /\ concat (frame_bytes <$> frames) = [x62].
Proof.
  destruct (@reconnect_catches_up blank_screen demo_identity (open_as FromOffset 1) 1 1 CliTerminal demo_history 0) as (k & w & frames & E & _ & Hs & _ & _ & Hd).
  - reflexivity.
  - lia.
  - vm_compute. discriminate.
  - exists k, w, frames. split; [exact E|]. split; [exact Hs|]. rewrite Hd. reflexivity.
Defined.

(** The gap of a reconnect: the open reads up to the tip and subscribes in two steps, and
    what is written between them reaches the client in neither. *)
Lemma reconnect_loses_output :
  let open := open_as FromOffset 0 in
  exists es w live, @run_world blank_screen demo_identity open 8 8 (open_world open CliTerminal demo_history 0) es = Ok w /\
    sm_phase (w_stream w) = Live /\ sm_live (w_stream w) = Some live /\ lo_rx live = subscribe /\
    w_written w = [x61; x62; x63; x64] /\ concat (frame_bytes <$> sm_sent (w_stream w)) = [x61; x62; x64].
Proof.
  intros open. exists [OpenStep; OpenStep; OpenStep; Wrote [x63]; OpenStep; OpenStep; Wrote [x64]; OutputBranch].
  eexists _, _. split; [vm_compute; reflexivity|]. by split_and!.
Qed.

(** The end of a stream: the exit of the child may be answered before the output that is
    still queued. *)
Lemma exit_drops_queued_output :
  let open := open_as Snapshot 0 in
  exists es w live, @run_world blank_screen demo_identity open 8 8 (open_world open CliTerminal demo_history 0) es = Ok w /\
    sm_phase (w_stream w) = Ended /\ sm_live (w_stream w) = Some live /\ rx_queue (lo_rx live) = [[x63]] /\
    offsets_of <$> sm_sent (w_stream w) = [(true, 0, 2)]%N.
Proof.
  intros open. exists [OpenStep; OpenStep; OpenStep; OpenStep; Wrote [x63]; DoneBranch].
  eexists _, _. split; [vm_compute; reflexivity|]. by split_and!.
Qed.
