(* ===== verification/TerminalService.v ===== *)
(** * The terminal service and its control lease

    [src/packages/tddy-terminal-rpc/src/service.rs] with [service/ports.rs] and the input half
    of [bridge.rs], over the lease of
    [tddy-cli-sessions/src/cli_session_manager/control_lease.rs]: who may watch a session's
    terminals, who may type into them or resize them, and what a screen is told about who
    does. The host's identity resolvers and the re-attachment of a main terminal are
    parameters; a fresh lease token is the next of a supply. *)

From Stdlib Require Import Ascii Strings.Byte.
From stdpp Require Import gmap strings.
From S2P Require Import Prelude Text RpcStatus Framing Utf8 Capture ScreenDump TerminalBridge.

Local Open Scope io_scope.

(** ** The lease *)

Record ControlLeaseInfo := mkLease { cl_control_token : string; cl_holder_screen_id : string }.

Record ControlChange := mkChange { cc_session_id : string; cc_holder_screen_id : string }.

Inductive ControlClaim := Granted (control_token : string) | Denied (holder_screen_id : string).

(** The registry of leases, how many tokens were issued, and the changes announced. *)
Record Control := mkControl { ct_leases : gmap string ControlLeaseInfo; ct_issued : nat; ct_changes : list ControlChange }.

Definition new_control : Control := mkControl ∅ 0 [].

Section control.
Variable uuid : nat -> string.

Definition claim_control (session_id screen_id : string) (steal : bool) (ct : Control) : ControlClaim * Control :=
  let token := uuid (ct_issued ct) in
  let leased changes := mkControl (<[session_id := mkLease token screen_id]> (ct_leases ct)) (S (ct_issued ct)) changes in
  match ct_leases ct !! session_id with
  | None => (Granted token, leased (ct_changes ct))
  | Some lease =>
      if decide (cl_holder_screen_id lease = screen_id) then (Granted (cl_control_token lease), ct)
      else if negb steal then (Denied (cl_holder_screen_id lease), ct)
      else (Granted token, leased (ct_changes ct ++ [mkChange session_id screen_id]))
  end.

Definition verify_control (session_id control_token : string) (ct : Control) : bool :=
  match ct_leases ct !! session_id with
  | None => true
  | Some lease => bool_decide (cl_control_token lease = control_token)
  end.

Definition current_holder (session_id : string) (ct : Control) : option string :=
  cl_holder_screen_id <$> ct_leases ct !! session_id.
End control.

(** ** Watching the lease *)

Record TerminalControlEvent := mkControlEvent { ce_holder_screen_id : string; ce_you_are_controller : bool }.

(** The event a watch starts with. *)
Definition watch_snapshot (session_id control_token : string) (ct : Control) : TerminalControlEvent :=
  mkControlEvent (default "" (current_holder session_id ct)) (verify_control session_id control_token ct).

(** One turn of [relay_control_changes], which reads the lease as it is then. *)
Definition relay_control_change (session_id control_token : string) (change : ControlChange) (ct : Control) : option TerminalControlEvent :=
  if decide (cc_session_id change = session_id)
  then Some (mkControlEvent (cc_holder_screen_id change) (verify_control session_id control_token ct)) else None.

(** ** Terminal kinds *)

Inductive TerminalKind := Bash | Agent (kind : string) | Tmux (session : string) | TmuxNew (session : string).

Definition from_request (kind tmux_session : string) : Status + TerminalKind :=
  let kind := trim kind in
  if decide (kind = "tmux") then
    let session := trim tmux_session in
    if decide (session = "") then inl (mk_rpc_status CodeInvalidArgument "a tmux terminal names the tmux session it attaches to")
    else inr (Tmux session)
  else if decide (kind = "tmux-new") then
    if decide (tmux_session = "") then inl (mk_rpc_status CodeInvalidArgument "a tmux terminal on a new session names the session it creates")
    else inr (TmuxNew tmux_session)
  else inr (if decide (kind = "" \/ kind = "bash") then Bash else Agent kind).

(** ** The service *)

Record SessionTerminalInput := mkInput {
  in_session_token : string;
  in_session_id : string;
  in_terminal_id : string;
  in_control_token : string;
  in_data : bytes;
  in_input_offset : N;
  in_mode : Z;
  in_from_offset : N;
  in_initial_cols : N;
  in_initial_rows : N;
  in_request_snapshot : bool;
}.

Definition keyed_session_id (raw : string) : string := trim raw.

Section service.
Context `{Screen}.

Record Host := mkHost { h_terminals : gmap (string * string) Terminal; h_control : Control }.

Variable github_users : string -> option string.
Variable os_users : string -> option string.
Variable reattach_main : Host -> string -> string -> option Terminal.
Variable uuid : nat -> string.

Definition github_user (session_token : string) : Status + string :=
  match github_users session_token with
  | Some user => inr user
  | None => inl (mk_rpc_status CodeUnauthenticated "invalid or expired session")
  end.

Definition os_user (session_token : string) : Status + string :=
  match github_user session_token with
  | inl status => inl status
  | inr user =>
      match os_users user with
      | Some os_user => inr os_user
      | None => inl (mk_rpc_status CodePermissionDenied "user not mapped to OS user")
      end
  end.

Definition terminal_not_found : Status := mk_rpc_status CodeNotFound "terminal not found or not running".

Definition INPUT_REFUSED : string := "terminal controlled by another screen".

Definition require_control (session_id control_token : string) (h : Host) : Status + unit :=
  if verify_control session_id control_token (h_control h) then inr tt
  else inl (mk_rpc_status CodeFailedPrecondition INPUT_REFUSED).

Definition ensure_main (os_user session_id terminal_id : string) (h : Host) : Host :=
  if decide (resolved_terminal_id terminal_id <> MAIN_TERMINAL_ID) then h
  else
    match h_terminals h !! (session_id, MAIN_TERMINAL_ID) with
    | Some _ => h
    | None =>
        match reattach_main h os_user session_id with
        | Some t => mkHost (<[(session_id, MAIN_TERMINAL_ID) := t]> (h_terminals h)) (h_control h)
        | None => h
        end
    end.

Definition controlled_terminal (session_id terminal_id control_token : string) (h : Host) : Status + Terminal :=
  let resolved := h_terminals h !! (session_id, terminal_id) in
  let checked :=
    if match resolved with None => true | Some t => requires_control t end
    then require_control session_id control_token h else inr tt in
  match checked, resolved with
  | inl status, _ => inl status
  | inr _, Some t => inr t
  | inr _, None => inl terminal_not_found
  end.

Definition may_resize_on_open (session_id terminal_id control_token : string) (h : Host) : bool :=
  let terminal_id := resolved_terminal_id terminal_id in
  let gated := match h_terminals h !! (session_id, terminal_id) with Some t => requires_control t | None => false end in
  negb gated || verify_control session_id control_token (h_control h).

Definition put_terminal (session_id terminal_id : string) (t : Terminal) (h : Host) : Host :=
  mkHost (<[(session_id, terminal_id) := t]> (h_terminals h)) (h_control h).

(** [serve_send_terminal_input_to]. *)
Definition serve_send_terminal_input_to (t : Terminal) (req : SessionTerminalInput) : Terminal :=
  if decide (in_data req = []) then t else terminal_send_input (in_data req) (in_input_offset req) t.

Definition send_terminal_input (req : SessionTerminalInput) (h : Host) : (Status + unit) * Host :=
  match os_user (in_session_token req) with
  | inl status => (inl status, h)
  | inr user =>
      let session_id := keyed_session_id (in_session_id req) in
      let terminal_id := resolved_terminal_id (in_terminal_id req) in
      let h := ensure_main user session_id terminal_id h in
      match controlled_terminal session_id terminal_id (in_control_token req) h with
      | inl status => (inl status, h)
      | inr t => (inr tt, put_terminal session_id terminal_id (serve_send_terminal_input_to t req) h)
      end
  end.

(** What an open message opens: the split and the bidi stream agree, but for who may ask for
    a snapshot later. *)
Definition open_selection (req : SessionTerminalInput) (bidi may_resize : bool) : OpenSelection :=
  mkOpen (replay_mode_from_i32 (in_mode req)) (in_from_offset req)
    (if may_resize then in_initial_cols req else 0) (if may_resize then in_initial_rows req else 0) bidi.

(** [stream_terminal_output] and the opening of [stream_session_terminal_io]. *)
Definition open_stream (bidi : bool) (req : SessionTerminalInput) (h : Host)
    : (Status + (FrameIdentity * OpenSelection)) * Host :=
  match os_user (in_session_token req) with
  | inl status => (inl status, h)
  | inr user =>
      let session_id := keyed_session_id (in_session_id req) in
      let terminal_id := resolved_terminal_id (in_terminal_id req) in
      let h := ensure_main user session_id terminal_id h in
      match h_terminals h !! (session_id, terminal_id) with
      | None => (inl terminal_not_found, h)
      | Some _ =>
          let may_resize := may_resize_on_open session_id terminal_id (in_control_token req) h in
          (inr (new_identity session_id terminal_id, open_selection req bidi may_resize), h)
      end
  end.

(** One message of the bidi input half: [forward_chunk] and the request for a snapshot. The
    answer is a refusal frame for the output half, if any, and whether a resync is asked. *)
Definition forward_input (identity : FrameIdentity) (gated : bool) (session_id terminal_id : string) (msg : SessionTerminalInput) (h : Host)
    : option SessionTerminalOutput * bool * Host :=
  if decide (in_data msg = []) then (None, in_request_snapshot msg, h)
  else if gated && negb (verify_control session_id (in_control_token msg) (h_control h))
  then (Some (refusal_frame identity (in_input_offset msg) INPUT_REFUSED), in_request_snapshot msg, h)
  else
    match h_terminals h !! (session_id, terminal_id) with
    | None => (None, in_request_snapshot msg, h)
    | Some t =>
        (None, in_request_snapshot msg, put_terminal session_id terminal_id (terminal_send_input (in_data msg) (in_input_offset msg) t) h)
    end.

Definition claim_terminal_control (session_token raw_session_id screen_id : string) (steal : bool) (h : Host)
    : (Status + ControlClaim) * Host :=
  match github_user session_token with
  | inl status => (inl status, h)
  | inr _ =>
      let '(claim, control) := claim_control uuid (keyed_session_id raw_session_id) screen_id steal (h_control h) in
      (inr claim, mkHost (h_terminals h) control)
  end.

Definition watch_terminal_control (session_token raw_session_id control_token : string) (h : Host) : Status + TerminalControlEvent :=
  match github_user session_token with
  | inl status => inl status
  | inr _ => inr (watch_snapshot (keyed_session_id raw_session_id) control_token (h_control h))
  end.

(** [stop_terminal_session], with what the roster answers and does. *)
Definition stop_terminal_session (stop : string -> string -> Host -> bool * Host) (session_token raw_session_id raw_terminal_id : string) (h : Host)
    : (Status + unit) * Host :=
  match os_user session_token with
  | inl status => (inl status, h)
  | inr _ =>
      let terminal_id := trim raw_terminal_id in
      if decide (terminal_id = MAIN_TERMINAL_ID) then
        (inl (mk_rpc_status CodeInvalidArgument
           "the main terminal cannot be stopped via StopTerminalSession; use SignalSession or DeleteSession"), h)
      else
        let '(stopped, h) := stop (keyed_session_id raw_session_id) terminal_id h in
        if stopped then (inr tt, h) else (inl (mk_rpc_status CodeNotFound "terminal not found"), h)
  end.

(** [get_terminal_history]: a running terminal answers from its capture, any other from its
    recording. *)
Definition get_terminal_history (recorded : string -> string -> string -> option CaptureRecording) (initial_frame_bytes : nat)
    (session_token raw_session_id raw_terminal_id : string) (from_offset until_offset : N) (max_bytes : nat) (h : Host)
    : res Status CaptureChunk * Host :=
  match os_user session_token with
  | inl status => (Err status, h)
  | inr user =>
      let session_id := keyed_session_id raw_session_id in
      let terminal_id := resolved_terminal_id raw_terminal_id in
      let h := ensure_main user session_id terminal_id h in
      let max_bytes := if decide (max_bytes = 0) then initial_frame_bytes else max_bytes in
      let answer :=
        match h_terminals h !! (session_id, terminal_id) with
        | Some t =>
            match lock_capture t with
            | Some c => Some (replay_from from_offset until_offset max_bytes c)
            | None => Some (Ok empty_chunk)
            end
        | None => recording_replay_from from_offset until_offset max_bytes <$> recorded user session_id terminal_id
        end in
      (match answer with
       | Some (Ok chunk) => Ok chunk
       | Some (Err _) | Some Panic => Panic
       | None => Err terminal_not_found
       end, h)
  end.
End service.
