(* ===== verification/TerminalServiceSpec.v ===== *)
(** * Who drives a terminal

    Over any sequence of claims: a token that was displaced never drives again, through any
    of the ways a screen reaches a terminal; what a screen watching the lease is told; and
    the open of a screen that may not drive changes nothing. *)

From Stdlib Require Import Ascii Strings.Byte.
From stdpp Require Import gmap strings.
From S2P Require Import Prelude Text RpcStatus Framing Utf8 Capture CaptureSpec ScreenDump TerminalBridge TerminalService.

Local Open Scope io_scope.

(** ** Sequences of claims *)

Record claim := mkClaim { cm_session : string; cm_screen : string; cm_steal : bool }.

Section claims.
Variable uuid : nat -> string.
Hypothesis uuid_fresh : Inj (=) (=) uuid.

Definition run_claims (cs : list claim) (ct : Control) : Control :=
  foldl (fun ct c => (claim_control uuid (cm_session c) (cm_screen c) (cm_steal c) ct).2) ct cs.

(** Every token in force was issued, for one session. *)
Definition control_ok (ct : Control) : Prop :=
  forall sid lease, ct_leases ct !! sid = Some lease -> exists i, i < ct_issued ct /\ cl_control_token lease = uuid i.

(** What a claim leaves at a session: the lease it was, or one with a token of its own. *)
Lemma claim_lease sid screen steal ct sid' :
  let ct' := (claim_control uuid sid screen steal ct).2 in
  ct_issued ct <= ct_issued ct' /\
  (ct_leases ct' !! sid' = ct_leases ct !! sid' \/
   sid' = sid /\ ct_leases ct' !! sid' = Some (mkLease (uuid (ct_issued ct)) screen) /\ ct_issued ct' = S (ct_issued ct)).
Proof.
  unfold claim_control. destruct (ct_leases ct !! sid) as [lease|] eqn:E; [case_decide; [by split; [|left]|destruct steal; simpl; [|by split; [|left]]]|].
  all: split; [simpl; lia|]; simpl; destruct (decide (sid' = sid)) as [->|Hne];
    [right; by rewrite lookup_insert_eq|left; by rewrite lookup_insert_ne].
Qed.

Lemma claim_ok sid screen steal ct : control_ok ct -> control_ok (claim_control uuid sid screen steal ct).2.
Proof.
  intros Hok sid' lease Hl. destruct (claim_lease sid screen steal ct sid') as [Hi [E|(_ & E & Ei)]]; rewrite E in Hl.
  - destruct (Hok _ _ Hl) as (i & Hlt & Ht). exists i. split; [lia|done].
  - injection Hl as <-. exists (ct_issued ct). split; [lia|done].
Qed.

Lemma run_claims_ok cs ct : control_ok ct -> control_ok (run_claims cs ct).
Proof.
  revert ct. induction cs as [|c cs IH]; intros ct Hok; [done|]. simpl. by apply IH, claim_ok.
Qed.

Lemma new_control_ok : control_ok new_control.
Proof. intros sid lease Hl. simpl in Hl. by rewrite lookup_empty in Hl. Qed.

(** [k] was issued, and is not the token of [sid]'s lease: it never is again. *)
Definition displaced (sid k : string) (ct : Control) : Prop :=
  exists lease i, ct_leases ct !! sid = Some lease /\ cl_control_token lease <> k /\ i < ct_issued ct /\ k = uuid i.

Lemma claim_displaced sid k sid' screen steal ct : displaced sid k ct -> displaced sid k (claim_control uuid sid' screen steal ct).2.
Proof.
  intros (lease & i & Hl & Hne & Hi & ->). destruct (claim_lease sid' screen steal ct sid) as [Hle [E|(_ & E & Ei)]].
  - exists lease, i. rewrite E. split_and!; [done..|lia|done].
  - exists (mkLease (uuid (ct_issued ct)) screen), i. split_and!; [done| |lia|done]. simpl. intros Hu%uuid_fresh. lia.
Qed.

Lemma run_displaced sid k cs ct : displaced sid k ct -> displaced sid k (run_claims cs ct).
Proof. revert ct. induction cs as [|c cs IH]; intros ct Hd; [done|]. simpl. by apply IH, claim_displaced. Qed.

Lemma displaced_refused sid k ct : displaced sid k ct -> verify_control sid k ct = false.
Proof.
  intros (lease & i & Hl & Hne & _). unfold verify_control. rewrite Hl. by apply bool_decide_eq_false.
Qed.

(** A lease either stays as it was or its token is gone for good. *)
Lemma run_lease sid lease cs ct :
  control_ok ct -> ct_leases ct !! sid = Some lease ->
  ct_leases (run_claims cs ct) !! sid = Some lease \/ displaced sid (cl_control_token lease) (run_claims cs ct).
Proof.
  revert ct. induction cs as [|c cs IH]; intros ct Hok Hl; [by left|]. simpl.
  destruct (claim_lease (cm_session c) (cm_screen c) (cm_steal c) ct sid) as [Hle [E|(-> & E & Ei)]].
  - apply IH; [by apply claim_ok|by rewrite E].
  - right. apply run_displaced. destruct (Hok _ _ Hl) as (i & Hi & Ht). eexists _, i. split_and!; [exact E| |lia|done].
    simpl. rewrite Ht. intros Hu%uuid_fresh. lia.
Qed.

(** A granted claim is a lease of that screen, with that token. *)
Lemma granted_lease sid screen steal ct k ct' :
  claim_control uuid sid screen steal ct = (Granted k, ct') -> ct_leases ct' !! sid = Some (mkLease k screen).
Proof.
  unfold claim_control. destruct (ct_leases ct !! sid) as [[k0 holder]|] eqn:E; [case_decide as Hh; [|destruct steal; simpl]|].
  - intros [= <- <-]. simpl in *. by subst.
  - intros [= <- <-]. simpl. by rewrite lookup_insert_eq.
  - done.
  - intros [= <- <-]. simpl. by rewrite lookup_insert_eq.
Qed.

(** Two screens were granted control of a session one after the other: the first's token is
    gone. *)
Lemma granted_displaces sid A B steal_a steal_b k k' ct1 ct2 between ct3 :
  control_ok ct1 -> A <> B ->
  claim_control uuid sid A steal_a ct1 = (Granted k, ct2) ->
  claim_control uuid sid B steal_b (run_claims between ct2) = (Granted k', ct3) ->
  displaced sid k ct3 /\ verify_control sid k' ct3 = true.
Proof.
  intros Hok Hab Ha Hb. pose proof (granted_lease _ _ _ _ _ _ Ha) as La. pose proof (granted_lease _ _ _ _ _ _ Hb) as Lb.
  assert (control_ok ct2) as Hok2 by (pose proof (claim_ok sid A steal_a ct1 Hok) as Hc; by rewrite Ha in Hc).
  split; [|unfold verify_control; rewrite Lb; by apply bool_decide_eq_true].
  assert (run_claims (between ++ [mkClaim sid B steal_b]) ct2 = ct3) as E by (unfold run_claims at 1; rewrite foldl_snoc; fold (run_claims between ct2); simpl; by rewrite Hb).
  destruct (run_lease sid (mkLease k A) (between ++ [mkClaim sid B steal_b]) ct2 Hok2 La) as [Hsame|Hd]; [|by rewrite E in Hd].
  rewrite E, Lb in Hsame. by injection Hsame.
Qed.

(** A session that is controlled once is controlled from then on: nothing releases a lease. *)
Lemma lease_never_released sid cs ct :
  is_Some (ct_leases ct !! sid) -> is_Some (ct_leases (run_claims cs ct) !! sid).
Proof.
  revert ct. induction cs as [|c cs IH]; intros ct Hs; [done|]. simpl. apply IH.
  destruct (claim_lease (cm_session c) (cm_screen c) (cm_steal c) ct sid) as [_ [-> | (_ & -> & _)]]; eauto.
Qed.

(** The first claim of a session is announced to nobody: a screen that watched it uncontrolled
    was told that it drives, hears nothing, and drives no longer. *)
Lemma first_claim_unannounced sid token screen ct :
  ct_leases ct !! sid = None -> token <> uuid (ct_issued ct) ->
  let '(answer, ct') := claim_control uuid sid screen false ct in
  watch_snapshot sid token ct = mkControlEvent "" true /\ answer = Granted (uuid (ct_issued ct)) /\
  ct_changes ct' = ct_changes ct /\ watch_snapshot sid token ct' = mkControlEvent screen false.
Proof.
  intros Hl Ht. unfold claim_control. rewrite Hl. unfold watch_snapshot, current_holder, verify_control. simpl.
  rewrite Hl, lookup_insert_eq. simpl. split_and!; [done..|]. by rewrite bool_decide_false.
Qed.
End claims.

(** ** A screen that may not drive *)

Section screens.
Context `{Screen}.
Variable github_users os_users : string -> option string.
Variable reattach_main : Host -> string -> string -> option Terminal.
Variable uuid : nat -> string.
Hypothesis uuid_fresh : Inj (=) (=) uuid.

Notation send_input_rpc := (send_terminal_input github_users os_users reattach_main).
Notation open_rpc := (open_stream github_users os_users reattach_main).

(** An open without a grid leaves the terminal as it is, at every step of every mode. *)
Lemma open_step_watches identity open initial_frame_bytes t s t' s' :
  op_initial_cols open = 0%N -> op_initial_rows open = 0%N ->
  open_step identity open initial_frame_bytes t s = Ok (t', s') -> t' = t.
Proof.
  intros Hc Hr. unfold open_step, tail_resizing. rewrite Hc, Hr. cbn [bool_decide decide].
  destruct (sm_phase s); simpl; try (by intros [= <- _]).
  - destruct (lock_capture t); intros E; [|by injection E as <- _]. destruct (replay_from _ _ _ _); by simplify_eq/=.
  - destruct (lock_capture t ≫= grid); by intros [= <- _].
  - destruct (snapshot_and_subscribe t) as [|[]]; by intros [= <- _].
Qed.

Lemma resolved_idem tid : resolved_terminal_id (resolved_terminal_id tid) = resolved_terminal_id tid.
Proof. unfold resolved_terminal_id. by repeat case_decide. Qed.

Lemma ensure_main_running user sid tid h t :
  h_terminals h !! (sid, resolved_terminal_id tid) = Some t ->
  ensure_main reattach_main user sid (resolved_terminal_id tid) h = h.
Proof.
  intros Ht. unfold ensure_main. rewrite resolved_idem. case_decide as Hm; [done|]. rewrite Hm in Ht. by rewrite Ht.
Qed.

(** C5. A displaced screen is locked out for good: after another screen was granted control of
    the session, the token the first one was granted reaches the terminal in no way, for
    every sequence of claims before, between and after. Its input calls are refused and
    change nothing, its chunks on a stream that is already open are answered with a refusal
    frame and change nothing, and the streams it opens are served but, in every mode and at
    every step, leave the terminal's size alone; while the screen that took over drives. *)
Theorem displaced_screen_is_locked_out before between after sid A B steal_a steal_b k k' ct2 ct3 :
  A <> B ->
  claim_control uuid sid A steal_a (run_claims uuid before new_control) = (Granted k, ct2) ->
  claim_control uuid sid B steal_b (run_claims uuid between ct2) = (Granted k', ct3) ->
  verify_control sid k' ct3 = true /\
  forall h t req, h_control h = run_claims uuid after ct3 ->
    h_terminals h !! (sid, resolved_terminal_id (in_terminal_id req)) = Some t -> requires_control t = true ->
    keyed_session_id (in_session_id req) = sid -> in_control_token req = k ->
    (exists status, send_input_rpc req h = (inl status, h)) /\
    (forall identity, in_data req <> [] ->
       forward_input identity (requires_control t) sid (resolved_terminal_id (in_terminal_id req)) req h =
         (Some (refusal_frame identity (in_input_offset req) INPUT_REFUSED), in_request_snapshot req, h)) /\
    (forall bidi identity open h' n t0 s t1 s', open_rpc bidi req h = (inr (identity, open), h') ->
       h' = h /\ (open_step identity open n t0 s = Ok (t1, s') -> t1 = t0)).
Proof.
  intros Hab Ha Hb.
  destruct (granted_displaces uuid uuid_fresh _ _ _ _ _ _ _ _ _ _ _ (run_claims_ok uuid _ _ (new_control_ok uuid)) Hab Ha Hb) as [Hd Hv].
  split; [done|]. intros h t req Hc Ht Hgate Hsid Hk.
  assert (verify_control sid k (h_control h) = false) as Hno.
  { rewrite Hc. by apply displaced_refused with uuid, run_displaced. }
  split_and!.
  - unfold send_terminal_input. destruct (os_user _ _ _) as [status|user]; [by exists status|].
    rewrite Hsid, ensure_main_running with (t := t) by done. unfold controlled_terminal, require_control.
    rewrite Ht, Hgate, Hk, Hno. by eexists.
  - intros identity Hdata. unfold forward_input. by rewrite decide_False, Hgate, Hk, Hno by done.
  - intros bidi identity open h' n t0 s t1 s'. unfold open_stream. destruct (os_user _ _ _) as [status|user]; [done|].
    rewrite Hsid, ensure_main_running with (t := t) by done. rewrite Ht. intros [= <- <- <-]. split; [done|].
    apply open_step_watches; unfold open_selection, may_resize_on_open; simpl.
    all: rewrite (resolved_idem (in_terminal_id req)), Ht, Hgate, Hk, Hno; done.
Qed.
End screens.

(** ** A case *)

Fixpoint counted (n : nat) : string := match n with O => "" | S n => String "x" (counted n) end.

Lemma counted_fresh : Inj (=) (=) counted.
Proof. intros n. induction n as [|n IH]; intros [|m]; simpl; [done..|]. intros [= E]. f_equal. by apply IH. Qed.

Definition demo_input : SessionTerminalInput := mkInput "token" " s1 " "" (counted 0) [x61] 1 0 0 80 24 false.

Definition demo_terminal : @Terminal blank_screen := mkTerminal CliTerminal (resize 24 80 new_capture) false [] 0.

Definition demo_host : @Host blank_screen :=
  mkHost {[("s1", "main") := demo_terminal]} (mkControl {["s1" := mkLease (counted 1) "phone"]} 2 [mkChange "s1" "phone"]).

Lemma displaced_screen_is_locked_out_witness :
  exists status, @send_terminal_input blank_screen (fun _ => Some "user") (fun _ => Some "os") (fun _ _ _ => None) demo_input demo_host
    = (inl status, demo_host).
Proof.
  pose (ct2 := mkControl {["s1" := mkLease (counted 0) "desk"]} 1 []).
  pose (ct3 := mkControl (<["s1" := mkLease (counted 1) "phone"]> (ct_leases ct2)) 2 [mkChange "s1" "phone"]).
  destruct (@displaced_screen_is_locked_out blank_screen (fun _ => Some "user") (fun _ => Some "os") (fun _ _ _ => None) counted counted_fresh
    [] [] [] "s1" "desk" "phone" false true (counted 0) (counted 1) ct2 ct3) as [_ Hlock].
  - discriminate.
  - reflexivity.
  - reflexivity.
  - destruct (Hlock demo_host demo_terminal demo_input) as [Hs _]; [|reflexivity..|exact Hs].
    reflexivity.
Defined.
