(* ===== verification/ProviderQueue.v ===== *)
(** * The queue in front of a model provider

    [src/packages/tddy-discovery/src/subagent_runtime/provider_queue.rs]: one call at a time per
    endpoint, the others waiting in a line that can be counted and left. Each access of the
    shared lines and of an endpoint's semaphore is one step, so that callers interleave
    between joining a line and asking for its slot, and a caller may give up at any point
    before it has the slot. Log lines are left out; the wait's deadline is a step that may come
    at any time; tickets are taken not to reach 2^64. The semaphore is tokio's, as documented:
    permits are handed out in the order they were asked for, and a dropped wait gives up its
    place or the permit it was handed. *)

From stdpp Require Import gmap strings.
From S2P Require Import Prelude.

(** ** Lines *)

Record QueuedCaller := mkQueued { qc_ticket : N; qc_waiter : string; qc_holds : bool }.

(** tokio's semaphore of one permit: who has it and who waits for it in the order they asked.
    Permits are handed out in that order, and a dropped wait gives back the permit it was
    handed or leaves the queue. *)
Class FairSemaphore := {
  Semaphore : Type;
  sem_permit : Semaphore -> option N;
  sem_queue : Semaphore -> list N;
  new_semaphore : Semaphore;
  sem_acquire : N -> Semaphore -> Semaphore;
  sem_release : Semaphore -> Semaphore;
  sem_abandon : N -> Semaphore -> Semaphore;
  new_permit : sem_permit new_semaphore = None;
  new_queue_empty : sem_queue new_semaphore = [];
  acquire_permit : forall t s, sem_permit (sem_acquire t s) = match sem_permit s with None => Some t | Some u => Some u end;
  acquire_queue : forall t s, sem_queue (sem_acquire t s) = match sem_permit s with None => sem_queue s | Some _ => sem_queue s ++ [t] end;
  release_permit : forall s, sem_permit (sem_release s) = head (sem_queue s);
  release_queue : forall s, sem_queue (sem_release s) = tail (sem_queue s);
  abandon_permit : forall t s, sem_permit (sem_abandon t s) = if decide (sem_permit s = Some t) then head (sem_queue s) else sem_permit s;
  abandon_queue : forall t s,
    sem_queue (sem_abandon t s) = if decide (sem_permit s = Some t) then tail (sem_queue s) else filter (fun u => u <> t) (sem_queue s) }.

(** Where a call of [admit] is, or the slot it returned. *)
Inductive admission :=
| Joined
| Waiting
| GaveUp
| Holding
| Releasing.

#[global] Instance admission_eq_dec : EqDecision admission.
Proof. solve_decision. Defined.

(** The steps of a call, and what happens to a queue. *)
Inductive call_step := AskSlot | TakeSlot | GiveUp | LeaveLine | DropPlace | DropPermit.

Inductive queue_event := Admit (provider waiter : string) | Step (provider : string) (ticket : N) (step : call_step).

Section Queue.
Context `{FS : FairSemaphore}.

Record ProviderLine := mkLine { pl_slot : Semaphore; pl_order : list QueuedCaller; pl_calls : gmap N admission }.

Definition new_line : ProviderLine := mkLine new_semaphore [] ∅.

Record ProviderLines := mkLines { ql_lines : gmap string ProviderLine; ql_next_ticket : N }.

Definition new_queue : ProviderLines := mkLines ∅ 0.

(** ** The steps of a call *)

Definition join_line (ticket : N) (waiter : string) (line : ProviderLine) : ProviderLine :=
  mkLine (pl_slot line) (pl_order line ++ [mkQueued ticket waiter false]) (<[ticket := Joined]> (pl_calls line)).

(** The first caller with the ticket is marked. *)
Fixpoint set_holding (ticket : N) (order : list QueuedCaller) : list QueuedCaller :=
  match order with
  | [] => []
  | q :: rest => if decide (qc_ticket q = ticket) then mkQueued (qc_ticket q) (qc_waiter q) true :: rest else q :: set_holding ticket rest
  end.

(** [LinePlace]'s drop. *)
Definition leave_order (ticket : N) (order : list QueuedCaller) : list QueuedCaller :=
  filter (fun q => qc_ticket q <> ticket) order.

Definition with_call (ticket : N) (a : admission) (line : ProviderLine) : ProviderLine :=
  mkLine (pl_slot line) (pl_order line) (<[ticket := a]> (pl_calls line)).

(** The next step of the call with a ticket, [None] when it is not where that step starts. *)
Definition line_step (ticket : N) (step : call_step) (line : ProviderLine) : option ProviderLine :=
  match step, pl_calls line !! ticket with
  | AskSlot, Some Joined => Some (mkLine (sem_acquire ticket (pl_slot line)) (pl_order line) (<[ticket := Waiting]> (pl_calls line)))
  | TakeSlot, Some Waiting =>
      if decide (sem_permit (pl_slot line) = Some ticket)
      then Some (mkLine (pl_slot line) (set_holding ticket (pl_order line)) (<[ticket := Holding]> (pl_calls line))) else None
  | GiveUp, Some Joined => Some (with_call ticket GaveUp line)
  | GiveUp, Some Waiting => Some (mkLine (sem_abandon ticket (pl_slot line)) (pl_order line) (<[ticket := GaveUp]> (pl_calls line)))
  | LeaveLine, Some GaveUp => Some (mkLine (pl_slot line) (leave_order ticket (pl_order line)) (delete ticket (pl_calls line)))
  | DropPlace, Some Holding => Some (mkLine (pl_slot line) (leave_order ticket (pl_order line)) (<[ticket := Releasing]> (pl_calls line)))
  | DropPermit, Some Releasing => Some (mkLine (sem_release (pl_slot line)) (pl_order line) (delete ticket (pl_calls line)))
  | _, _ => None
  end.

Definition queue_step (q : ProviderLines) (e : queue_event) : ProviderLines :=
  match e with
  | Admit provider waiter =>
      let line := default new_line (ql_lines q !! provider) in
      mkLines (<[provider := join_line (ql_next_ticket q) waiter line]> (ql_lines q)) (ql_next_ticket q + 1)
  | Step provider ticket step =>
      match ql_lines q !! provider ≫= line_step ticket step with
      | Some line => mkLines (<[provider := line]> (ql_lines q)) (ql_next_ticket q)
      | None => q
      end
  end.

Definition run_queue (es : list queue_event) : ProviderLines := foldl queue_step new_queue es.

(** ** What is reported *)

Definition count_in (provider : string) (counted : QueuedCaller -> bool) (q : ProviderLines) : nat :=
  match ql_lines q !! provider with
  | Some line => length (filter (fun c => counted c = true) (pl_order line))
  | None => 0
  end.

Definition in_flight (provider : string) (q : ProviderLines) : nat := count_in provider qc_holds q.
Definition waiting (provider : string) (q : ProviderLines) : nat := count_in provider (fun c => negb (qc_holds c)) q.

Definition position_in (waiter : string) (line : ProviderLine) : option nat :=
  fst <$> list_find (fun c => qc_waiter c = waiter) (pl_order line).

(** [iteration] is the order in which the map of lines is walked. *)
Definition position_of (iteration : list string) (waiter : string) (q : ProviderLines) : option nat :=
  head (omap (fun provider => ql_lines q !! provider ≫= position_in waiter) iteration).

Definition ahead_of_it (provider : string) (ticket : N) (q : ProviderLines) : nat :=
  count_in provider (fun c => bool_decide (qc_ticket c < ticket)%N) q.

(** ** The line invariant *)

Definition has_slot (a : admission) : Prop := a = Holding \/ a = Releasing.

Record line_ok (next : N) (line : ProviderLine) : Prop := {
  lk_tickets : NoDup (qc_ticket <$> pl_order line);
  lk_in_line : forall t, t ∈ qc_ticket <$> pl_order line <-> exists a, pl_calls line !! t = Some a /\ a <> Releasing;
  lk_holds : forall c, c ∈ pl_order line -> qc_holds c = true <-> pl_calls line !! qc_ticket c = Some Holding;
  lk_permit : forall t, sem_permit (pl_slot line) = Some t -> exists a, pl_calls line !! t = Some a /\ (a = Waiting \/ has_slot a);
  lk_slot : forall t a, pl_calls line !! t = Some a -> has_slot a -> sem_permit (pl_slot line) = Some t;
  lk_queue : forall t, t ∈ sem_queue (pl_slot line) <-> pl_calls line !! t = Some Waiting /\ sem_permit (pl_slot line) <> Some t;
  lk_queue_nodup : NoDup (sem_queue (pl_slot line));
  lk_free : sem_permit (pl_slot line) = None -> sem_queue (pl_slot line) = [];
  lk_next : forall t a, pl_calls line !! t = Some a -> (t < next)%N }.

Lemma set_holding_tickets t order : qc_ticket <$> set_holding t order = qc_ticket <$> order.
Proof. induction order as [|q order IH]; [done|]. simpl. case_decide; simpl; by f_equal. Qed.

Lemma elem_of_set_holding t order c :
  NoDup (qc_ticket <$> order) ->
  c ∈ set_holding t order <-> exists q, q ∈ order /\ c = (if decide (qc_ticket q = t) then mkQueued (qc_ticket q) (qc_waiter q) true else q).
Proof.
  induction order as [|q order IH]; simpl; intros Hnd; [set_solver|].
  apply NoDup_cons in Hnd as [Hq Hnd]. specialize (IH Hnd).
  assert (forall P : QueuedCaller -> Prop, (exists x, x ∈ q :: order /\ P x) <-> P q \/ exists x, x ∈ order /\ P x) as ->
    by (intros; set_solver).
  case_decide as Hqt; rewrite elem_of_cons; [|tauto].
  split; intros [->|Hc]; auto; right.
  - exists c. split; [done|]. rewrite decide_False; [done|].
    intros <-. apply Hq. apply list_elem_of_fmap. eauto.
  - destruct Hc as (x & Hx & ->). rewrite decide_False; [done|].
    intros Ht. apply Hq. apply list_elem_of_fmap. exists x. by rewrite Hqt, Ht.
Qed.

Lemma leave_order_tickets t order : qc_ticket <$> leave_order t order = filter (fun u => u <> t) (qc_ticket <$> order).
Proof.
  induction order as [|q order IH]; [done|]. unfold leave_order in *. simpl. rewrite !filter_cons. simpl.
  case_decide; simpl; [by f_equal|done].
Qed.

(** ** Every step keeps the invariant *)

Lemma line_ok_weaken n m line : (n <= m)%N -> line_ok n line -> line_ok m line.
Proof. intros ? []; split; try done. intros t a Ht. specialize (lk_next0 t a Ht). lia. Qed.

Lemma new_line_ok n : line_ok n new_line.
Proof.
  split; simpl; rewrite ?new_permit, ?new_queue_empty; try done; try (intros; apply NoDup_nil_2); try set_solver.
Qed.

Lemma join_line_ok n waiter line : line_ok n line -> line_ok (n + 1) (join_line n waiter line).
Proof.
  intros [H1 H2 H3 H4 H5 H6 H7 H8 H9].
  assert (pl_calls line !! n = None) as Hn.
  { destruct (pl_calls line !! n) eqn:E; [|done]. specialize (H9 _ _ E). lia. }
  split; simpl; try done.
  - rewrite fmap_app. apply NoDup_app. split; [done|]. split; [|apply NoDup_singleton].
    intros t Ht ->%list_elem_of_singleton. apply H2 in Ht as (a & Ha & _). simpl in Ha. congruence.
  - intros t. rewrite fmap_app, elem_of_app, H2. simpl. rewrite list_elem_of_singleton.
    destruct (decide (t = n)) as [->|Ht]; [rewrite lookup_insert_eq|rewrite lookup_insert_ne by done]; naive_solver.
  - intros c [Hc| ->%list_elem_of_singleton]%elem_of_app; simpl; [|by rewrite lookup_insert_eq].
    rewrite H3 by done. rewrite lookup_insert_ne; [done|]. intros Ht.
    assert (qc_ticket c ∈ qc_ticket <$> pl_order line) as (a & Ha & _)%H2 by (apply list_elem_of_fmap; eauto). congruence.
  - intros t (a & Ha & ?)%H4. exists a. by rewrite lookup_insert_ne by congruence.
  - intros t a. rewrite lookup_insert_Some. unfold has_slot. intros [[<- <-]|[_ ?]]; [naive_solver|]. eauto.
  - intros t. rewrite H6. destruct (decide (t = n)) as [->|Ht]; [rewrite lookup_insert_eq, Hn|rewrite lookup_insert_ne by done]; naive_solver.
  - intros t a. rewrite lookup_insert_Some. intros [[<- _]|[_ E]]; [lia|]. specialize (H9 _ _ E). lia.
Qed.

(** The cases of a lookup of [t] after a write at [u]. *)
#[local] Ltac calls_at t u :=
  destruct (decide (t = u)) as [->|];
  [rewrite ?lookup_insert_eq, ?lookup_delete_eq in *|rewrite ?lookup_insert_ne, ?lookup_delete_ne in * by done].

Section Calls.
Context (n : N) (line : ProviderLine) (t : N) (Hok : line_ok n line).

Lemma member_ticket c : c ∈ pl_order line -> qc_ticket c ∈ qc_ticket <$> pl_order line.
Proof. intros. apply list_elem_of_fmap. eauto. Qed.

(** A call's move between two phases before it has the slot. *)
Lemma move_waiting_ok a b slot :
  pl_calls line !! t = Some a -> ~ has_slot a -> ~ has_slot b ->
  (forall u, sem_permit slot = Some u -> (u = t /\ b = Waiting) \/ (u <> t /\ exists c, pl_calls line !! u = Some c /\ (c = Waiting \/ has_slot c))) ->
  (forall u c, u <> t -> pl_calls line !! u = Some c -> has_slot c -> sem_permit slot = Some u) ->
  (forall u, u ∈ sem_queue slot <-> <[t := b]> (pl_calls line) !! u = Some Waiting /\ sem_permit slot <> Some u) ->
  NoDup (sem_queue slot) -> (sem_permit slot = None -> sem_queue slot = []) ->
  line_ok n (mkLine slot (pl_order line) (<[t := b]> (pl_calls line))).
Proof.
  intros Ha Hna Hnb Hp Hs Hq Hnd Hf. destruct Hok as [H1 H2 H3 H4 H5 H6 H7 H8 H9].
  unfold has_slot in *. split; simpl; try done.
  - intros u. rewrite H2. calls_at u t; naive_solver.
  - intros c Hc. rewrite (H3 c Hc). set (u := qc_ticket c). calls_at u t; [rewrite Ha|]; naive_solver.
  - intros u [[-> ->]|(Hu & c & Hc)]%Hp; [rewrite lookup_insert_eq|rewrite lookup_insert_ne by done]; eauto.
  - intros u c. calls_at u t; naive_solver.
  - intros u c. calls_at u t; naive_solver.
Qed.

Lemma leave_ok calls' slot a :
  pl_calls line !! t = Some a -> a <> Releasing -> pl_slot line = slot ->
  (calls' = delete t (pl_calls line) /\ ~ has_slot a /\ a <> Waiting \/ calls' = <[t := Releasing]> (pl_calls line) /\ a = Holding) ->
  line_ok n (mkLine slot (leave_order t (pl_order line)) calls').
Proof.
  intros Ha Hr <- Hc. destruct Hok as [H1 H2 H3 H4 H5 H6 H7 H8 H9].
  assert (forall u, u <> t -> calls' !! u = pl_calls line !! u) as Hne.
  { intros u Hu. destruct Hc as [[-> _]|[-> _]]; [by rewrite lookup_delete_ne|by rewrite lookup_insert_ne]. }
  assert (forall b, calls' !! t = Some b -> b = Releasing /\ a = Holding) as Ht.
  { intros b. destruct Hc as [[-> _]|[-> ->]]; [by rewrite lookup_delete_eq|]. rewrite lookup_insert_eq. naive_solver. }
  assert (a = Waiting \/ has_slot a -> calls' !! t = Some Releasing /\ a = Holding) as Hk.
  { unfold has_slot in *. destruct Hc as [[-> ?]|[-> ?]]; [tauto|]. by rewrite lookup_insert_eq. }
  split; simpl; try done.
  - rewrite leave_order_tickets. by apply NoDup_filter.
  - intros u. rewrite leave_order_tickets, list_elem_of_filter, H2.
    destruct (decide (u = t)) as [->|Hu]; [|rewrite Hne by done; tauto].
    split; [tauto|]. intros (b & [-> _]%Ht & ?). done.
  - intros c [Hct Hcl]%list_elem_of_filter. by rewrite Hne, H3.
  - intros u (b & Hb & Hw)%H4. destruct (decide (u = t)) as [->|Hu]; [|rewrite Hne by done; eauto].
    simplify_eq. destruct (Hk Hw) as [-> _]. unfold has_slot. eauto.
  - intros u b. destruct (decide (u = t)) as [->|Hu]; [|rewrite Hne by done; eauto].
    intros [-> ->]%Ht _. eapply H5; [done|]. by left.
  - intros u. rewrite H6. destruct (decide (u = t)) as [->|Hu]; [|by rewrite Hne by done].
    rewrite Ha. split; intros [E ?]; [simplify_eq; destruct Hk; naive_solver|apply Ht in E as [? _]; done].
  - intros u b. destruct (decide (u = t)) as [->|Hu]; [eauto|rewrite Hne by done; eauto].
Qed.
End Calls.

(** The permit passes to the first in the queue. *)
Definition handed_on (slot slot' : Semaphore) : Prop := sem_permit slot' = head (sem_queue slot) /\ sem_queue slot' = tail (sem_queue slot).

Lemma release_hands_on slot : handed_on slot (sem_release slot).
Proof. split; [apply release_permit|apply release_queue]. Qed.

Lemma abandon_hands_on t slot : sem_permit slot = Some t -> handed_on slot (sem_abandon t slot).
Proof. intros Hp. split; [rewrite abandon_permit|rewrite abandon_queue]; by rewrite decide_True. Qed.

Lemma handed_on_spec n line t slot :
  line_ok n line -> sem_permit (pl_slot line) = Some t -> handed_on (pl_slot line) slot ->
  NoDup (sem_queue slot) /\ (sem_permit slot = None -> sem_queue slot = []) /\
  (forall u, sem_permit slot = Some u -> u <> t /\ pl_calls line !! u = Some Waiting) /\
  (forall u, u ∈ sem_queue slot <-> u <> t /\ pl_calls line !! u = Some Waiting /\ sem_permit slot <> Some u).
Proof.
  intros [H1 H2 H3 H4 H5 H6 H7 H8 H9] Hp [-> ->]. destruct (sem_queue (pl_slot line)) as [|v rest] eqn:E; simpl.
  - split_and!; try done. intros u. rewrite elem_of_nil. split; [done|].
    intros (Hu & Hw & _). apply (not_elem_of_nil u), H6. split; [done|]. congruence.
  - apply NoDup_cons in H7 as [Hv Hnd].
    assert (forall u, u ∈ v :: rest <-> u <> t /\ pl_calls line !! u = Some Waiting) as Hin.
    { intros u. rewrite H6, Hp. naive_solver. }
    split_and!; try done.
    + intros u [= <-]. apply Hin. set_solver.
    + intros u. split.
      * intros Hu. destruct (proj1 (Hin u)) as [? ?]; [set_solver|]. split_and!; congruence.
      * intros (? & ? & ?). assert (u ∈ v :: rest) as [->|Hr]%elem_of_cons by (by apply Hin); congruence.
Qed.

Lemma ask_slot_ok n line t :
  line_ok n line -> pl_calls line !! t = Some Joined ->
  line_ok n (mkLine (sem_acquire t (pl_slot line)) (pl_order line) (<[t := Waiting]> (pl_calls line))).
Proof.
  intros Hok Ha. pose proof Hok as [H1 H2 H3 H4 H5 H6 H7 H8 H9].
  assert (sem_permit (pl_slot line) <> Some t) as Hpt.
  { intros (a & E & Hs)%H4. unfold has_slot in Hs. naive_solver. }
  assert (t ∉ sem_queue (pl_slot line)) as Htq by (rewrite H6, Ha; naive_solver).
  eapply move_waiting_ok; eauto; try (intros []; done).
  - rewrite acquire_permit. destruct (sem_permit (pl_slot line)) as [v|] eqn:E; simpl; intros u [= <-]; [|by left].
    right. split; [congruence|]. by apply H4.
  - intros u c _ Hu Hs. by rewrite acquire_permit, (H5 u c Hu Hs).
  - intros u. rewrite acquire_permit, acquire_queue. destruct (sem_permit (pl_slot line)) as [v|] eqn:E; simpl.
    + rewrite elem_of_app, list_elem_of_singleton, H6. calls_at u t; naive_solver.
    + rewrite H8 by done. rewrite elem_of_nil. split; [done|]. intros [Hu Hn]. calls_at u t; [done|].
      apply (not_elem_of_nil u). rewrite <- H8 by done. by apply H6.
  - rewrite acquire_queue. destruct (sem_permit (pl_slot line)); simpl; [|done]. apply NoDup_app. split; [done|].
    split; [|apply NoDup_singleton]. by intros u Hu ->%list_elem_of_singleton.
  - rewrite acquire_permit, acquire_queue. by destruct (sem_permit (pl_slot line)).
Qed.

Lemma take_slot_ok n line t :
  line_ok n line -> pl_calls line !! t = Some Waiting -> sem_permit (pl_slot line) = Some t ->
  line_ok n (mkLine (pl_slot line) (set_holding t (pl_order line)) (<[t := Holding]> (pl_calls line))).
Proof.
  intros [H1 H2 H3 H4 H5 H6 H7 H8 H9] Ha Hp. unfold has_slot in *. split; simpl; try done.
  - by rewrite set_holding_tickets.
  - intros u. rewrite set_holding_tickets, H2. calls_at u t; naive_solver.
  - intros c Hc. apply elem_of_set_holding in Hc as (x & Hx & ->); [|done]. case_decide as E; simpl.
    + rewrite E, lookup_insert_eq. done.
    + by rewrite lookup_insert_ne, H3.
  - intros u (a & E & Hs)%H4. destruct (decide (u = t)) as [->|]; [exists Holding; rewrite lookup_insert_eq; unfold has_slot; auto|].
    exists a. by rewrite lookup_insert_ne.
  - intros u a. calls_at u t; naive_solver.
  - intros u. rewrite H6. calls_at u t; naive_solver.
  - intros u a. calls_at u t; naive_solver.
Qed.

Lemma give_up_ok n line t a :
  line_ok n line -> pl_calls line !! t = Some a -> a = Joined \/ a = Waiting ->
  line_ok n (mkLine (if decide (a = Joined) then pl_slot line else sem_abandon t (pl_slot line)) (pl_order line) (<[t := GaveUp]> (pl_calls line))).
Proof.
  intros Hok Ha Hcase. pose proof Hok as [H1 H2 H3 H4 H5 H6 H7 H8 H9].
  assert (~ has_slot a) as Hna by (unfold has_slot; naive_solver).
  assert (forall u c, u <> t -> pl_calls line !! u = Some c -> has_slot c -> sem_permit (pl_slot line) = Some u) by eauto.
  destruct (decide (sem_permit (pl_slot line) = Some t)) as [Hp|Hp].
  - assert (a = Waiting) as -> by (destruct (H4 t Hp) as (b & Hb & Hs); unfold has_slot in *; naive_solver).
    rewrite decide_False by done.
    destruct (handed_on_spec n line t _ Hok Hp (abandon_hands_on _ _ Hp)) as (S1 & S2 & S3 & S4).
    eapply move_waiting_ok; eauto; try (intros []; done).
    + intros u Hu%S3. naive_solver.
    + intros u c Hu Hc Hs. exfalso. rewrite (H5 u c Hc Hs) in Hp. naive_solver.
    + intros u. rewrite S4. calls_at u t; naive_solver.
  - assert (forall u, sem_permit (pl_slot line) = Some u -> u <> t /\ exists c, pl_calls line !! u = Some c /\ (c = Waiting \/ has_slot c)) as Hp'.
    { intros u Hu. split; [congruence|auto]. }
    case_decide as Hj; [subst a|]; eapply move_waiting_ok; rewrite ?abandon_permit, ?abandon_queue, ?(decide_False _ _ Hp); eauto; try (intros []; done); simpl.
    + intros u. rewrite H6. calls_at u t; naive_solver.
    + intros u. rewrite list_elem_of_filter, H6. calls_at u t; naive_solver.
    + by apply NoDup_filter.
    + intros E. by rewrite H8.
Qed.

Lemma drop_permit_ok n line t :
  line_ok n line -> pl_calls line !! t = Some Releasing ->
  line_ok n (mkLine (sem_release (pl_slot line)) (pl_order line) (delete t (pl_calls line))).
Proof.
  intros Hok Ha. pose proof Hok as [H1 H2 H3 H4 H5 H6 H7 H8 H9].
  assert (sem_permit (pl_slot line) = Some t) as Hp by (eapply H5; [done|by right]).
  destruct (handed_on_spec n line t _ Hok Hp (release_hands_on _)) as (S1 & S2 & S3 & S4). split; simpl; try done.
  - intros u. rewrite H2. calls_at u t; naive_solver.
  - intros c Hc. rewrite H3 by done. pose proof (proj1 (H2 _) (member_ticket line c Hc)) as Hin.
    set (u := qc_ticket c) in *. calls_at u t; naive_solver.
  - intros u (Hu & Hw)%S3. rewrite lookup_delete_ne by done. eauto.
  - intros u a. calls_at u t; [done|]. intros Hu Hs. rewrite (H5 u a Hu Hs) in Hp. congruence.
  - intros u. rewrite S4. calls_at u t; naive_solver.
  - intros u a. calls_at u t; naive_solver.
Qed.

Lemma line_step_ok n t step line line' : line_ok n line -> line_step t step line = Some line' -> line_ok n line'.
Proof.
  intros Hok. unfold line_step. destruct step, (pl_calls line !! t) as [[]|] eqn:E; intros Hstep; simplify_eq.
  - by apply ask_slot_ok.
  - case_decide; [|done]. simplify_eq. by apply take_slot_ok.
  - exact (give_up_ok n line t Joined Hok E (or_introl eq_refl)).
  - exact (give_up_ok n line t Waiting Hok E (or_intror eq_refl)).
  - eapply leave_ok; eauto. left. split_and!; try done. intros []; done.
  - eapply leave_ok; eauto.
  - by apply drop_permit_ok.
Qed.

(** ** The order in which slots are given *)

(** The calls that will take the slot if nobody gives up: the one handed the permit, then the queue. *)
Definition due (line : ProviderLine) : list N :=
  match sem_permit (pl_slot line) with
  | Some t => if decide (pl_calls line !! t = Some Waiting) then [t] else []
  | None => []
  end.

Definition pending (line : ProviderLine) : list N := due line ++ sem_queue (pl_slot line).

Lemma pending_same slot order order' calls calls' t :
  (forall u, u <> t -> calls' !! u = calls !! u) -> sem_permit slot <> Some t ->
  pending (mkLine slot order' calls') = pending (mkLine slot order calls).
Proof.
  intros Hne Hp. unfold pending, due. simpl. destruct (sem_permit slot) as [v|]; [|done].
  by rewrite Hne by congruence.
Qed.

Lemma pending_handed_on n line t slot order calls' :
  line_ok n line -> sem_permit (pl_slot line) = Some t -> handed_on (pl_slot line) slot ->
  (forall u, u <> t -> calls' !! u = pl_calls line !! u) ->
  pending (mkLine slot order calls') = sem_queue (pl_slot line).
Proof.
  intros Hok Hp Hh Hne. destruct (handed_on_spec n line t slot Hok Hp Hh) as (_ & _ & S3 & _). destruct Hh as [E1 E2].
  unfold pending, due. simpl. rewrite E1, E2 in *. destruct (sem_queue (pl_slot line)) as [|v rest]; [done|]. simpl in *.
  destruct (S3 v eq_refl) as [Hv Hw]. by rewrite Hne, decide_True.
Qed.

Definition asks (t : N) (step : call_step) : list N := match step with AskSlot => [t] | _ => [] end.
Definition takes (t : N) (step : call_step) : list N := match step with TakeSlot => [t] | _ => [] end.

Lemma pending_step n t step line line' :
  line_ok n line -> line_step t step line = Some line' -> takes t step ++ pending line' `sublist_of` pending line ++ asks t step.
Proof.
  intros Hok. pose proof Hok as [H1 H2 H3 H4 H5 H6 H7 H8 H9].
  assert (forall a, pl_calls line !! t = Some a -> a = Joined \/ a = GaveUp -> sem_permit (pl_slot line) <> Some t) as Hout.
  { intros a Ha Hcase Hp. destruct (H4 t Hp) as (b & Hb & Hs). unfold has_slot in Hs. naive_solver. }
  assert (forall a, pl_calls line !! t = Some a -> has_slot a -> due line = []) as Hdue.
  { intros a Ha Hs. unfold due. rewrite (H5 t a Ha Hs), decide_False; [done|]. unfold has_slot in Hs. naive_solver. }
  unfold line_step. destruct step, (pl_calls line !! t) as [[]|] eqn:E; intros Hstep; simplify_eq; simpl; rewrite ?app_nil_r.
  - specialize (Hout _ eq_refl ltac:(auto)). unfold pending, due. simpl. rewrite acquire_permit, acquire_queue.
    destruct (sem_permit (pl_slot line)) as [v|] eqn:Ep; simpl.
    + by rewrite lookup_insert_ne, (assoc_L (++)) by congruence.
    + by rewrite lookup_insert_eq, decide_True, (H8 eq_refl).
  - case_decide as Ep; [|done]. simplify_eq. unfold pending, due. simpl. rewrite Ep, E, lookup_insert_eq. by repeat case_decide.
  - unfold with_call. erewrite (pending_same _ (pl_order line) _ (pl_calls line) _ t); [by destruct line| |by eapply Hout; eauto]. intros u Hu. by rewrite lookup_insert_ne.
  - destruct (decide (sem_permit (pl_slot line) = Some t)) as [Ep|Ep].
    + erewrite (pending_handed_on n line t); [by apply sublist_inserts_l|done|done|by apply abandon_hands_on|].
      intros u Hu. by rewrite lookup_insert_ne.
    + unfold pending, due. simpl. rewrite abandon_permit, abandon_queue, !decide_False by done. destruct (sem_permit (pl_slot line)) as [v|] eqn:Ev; [rewrite lookup_insert_ne by congruence|];
        apply sublist_app; try done; apply sublist_filter.
  - erewrite (pending_same _ (pl_order line) _ (pl_calls line) _ t); [by destruct line| |by eapply Hout; eauto]. intros u Hu. by rewrite lookup_delete_ne.
  - unfold pending at 2. rewrite (Hdue _ eq_refl) by (by left). simpl. unfold pending, due. simpl.
    by rewrite (H5 t _ E), lookup_insert_eq, decide_False by (done || by left).
  - assert (sem_permit (pl_slot line) = Some t) as Hp by (eapply H5; [done|by right]).
    erewrite (pending_handed_on n line t); [|done|done|apply release_hands_on|by intros u Hu; rewrite lookup_delete_ne].
    by apply sublist_inserts_l.
Qed.

(** ** Executions *)

(** The steps taken so far, of all lines. *)
Definition queue_log := list (string * N * call_step).

Definition trace_step (s : ProviderLines * queue_log) (e : queue_event) : ProviderLines * queue_log :=
  (queue_step s.1 e,
   s.2 ++ match e with
          | Admit _ _ => []
          | Step provider ticket step => 
              match ql_lines s.1 !! provider ≫= line_step ticket step with Some _ => [(provider, ticket, step)] | None => [] end
          end).

Definition run_log (es : list queue_event) : ProviderLines * queue_log := foldl trace_step (new_queue, []) es.

(** The calls that took a step of one kind in a line, in the order they took it. *)
Definition tickets_of (f : N -> call_step -> list N) (provider : string) (log : queue_log) : list N :=
  mjoin ((fun e => if decide (e.1.1 = provider) then f e.1.2 e.2 else []) <$> log).

Lemma run_log_queue es : (run_log es).1 = run_queue es.
Proof.
  enough (forall s, (foldl trace_step s es).1 = foldl queue_step s.1 es) as H by apply H.
  induction es as [|e es IH]; intros s; [done|]. simpl. by rewrite IH.
Qed.

Record line_history_ok (next : N) (line : ProviderLine) (asked taken : list N) : Prop := {
  lh_line : line_ok next line;
  lh_asked : NoDup asked;
  lh_past : forall t, t ∈ asked -> (t < next)%N /\ pl_calls line !! t <> Some Joined;
  lh_order : taken ++ pending line `sublist_of` asked }.

Lemma line_step_history n t step line line' asked taken :
  line_history_ok n line asked taken -> line_step t step line = Some line' ->
  line_history_ok n line' (asked ++ asks t step) (taken ++ takes t step).
Proof.
  intros [Hok Hnd Hpast Hsub] Hstep. pose proof (pending_step _ _ _ _ _ Hok Hstep) as Hp.
  assert (forall u, pl_calls line' !! u = Some Joined -> pl_calls line !! u = Some Joined /\ asks t step <> [u]) as Hj.
  { intros u. unfold line_step in Hstep.
    destruct step, (pl_calls line !! t) as [[]|] eqn:E; simplify_eq; [|case_decide; [|done]; simplify_eq|..]; simpl;
      calls_at u t; try done; intros ?; split; congruence. }
  split.
  - by eapply line_step_ok.
  - apply NoDup_app. split; [done|]. destruct step; simpl; try (split; [set_solver|apply NoDup_nil_2]).
    split; [|apply NoDup_singleton]. intros u Hu ->%list_elem_of_singleton. apply (Hpast t Hu).
    unfold line_step in Hstep. by destruct (pl_calls line !! t) as [[]|].
  - intros u [Hu|Hu]%elem_of_app.
    + destruct (Hpast u Hu). split; [done|]. intros [? _]%Hj. done.
    + destruct step; simpl in *; try set_solver. apply list_elem_of_singleton in Hu as ->. split; [|by intros [_ ?]%Hj].
      destruct (pl_calls line !! t) eqn:E; [by eapply lk_next|]. done.
  - rewrite <- (assoc_L (++)). trans (taken ++ pending line ++ asks t step); [by apply sublist_app|].
    rewrite (assoc_L (++)). by apply sublist_app.
Qed.

Definition queue_ok (s : ProviderLines * queue_log) : Prop :=
  forall p, match ql_lines s.1 !! p with
            | Some line => line_history_ok (ql_next_ticket s.1) line (tickets_of asks p s.2) (tickets_of takes p s.2)
            | None => forall f, tickets_of f p s.2 = []
            end.

Lemma tickets_of_snoc f p log e : tickets_of f p (log ++ [e]) = tickets_of f p log ++ (if decide (e.1.1 = p) then f e.1.2 e.2 else []).
Proof. unfold tickets_of. rewrite fmap_app, join_app. simpl. by rewrite app_nil_r. Qed.

Lemma line_history_weaken n m line asked taken : (n <= m)%N -> line_history_ok n line asked taken -> line_history_ok m line asked taken.
Proof.
  intros ? []. split; try done; [by eapply line_ok_weaken|]. intros t Ht. destruct (lh_past0 t Ht). split; [lia|done].
Qed.

Lemma join_line_history n waiter line asked taken :
  line_history_ok n line asked taken -> line_history_ok (n + 1) (join_line n waiter line) asked taken.
Proof.
  intros [Hok Hnd Hpast Hsub]. split; [by apply join_line_ok|done| |].
  - intros t Ht. destruct (Hpast t Ht). split; [lia|]. simpl. by rewrite lookup_insert_ne by lia.
  - unfold join_line. erewrite (pending_same _ (pl_order line) _ (pl_calls line) _ n); [by destruct line| |].
    + intros u Hu. by rewrite lookup_insert_ne.
    + intros (a & Ha & _)%(lk_permit _ _ Hok). apply (lk_next _ _ Hok) in Ha. lia.
Qed.

Lemma trace_step_ok s e : queue_ok s -> queue_ok (trace_step s e).
Proof.
  intros Hok p. specialize (Hok p) as Hp. destruct e as [provider waiter|provider t step]; simpl.
  - rewrite app_nil_r. destruct (decide (p = provider)) as [->|Hne].
    + rewrite lookup_insert_eq. apply join_line_history. destruct (ql_lines s.1 !! provider); [done|]. simpl.
      rewrite !Hp. split; [apply new_line_ok|apply NoDup_nil_2|set_solver|]. unfold pending, due. simpl. by rewrite new_permit, new_queue_empty.
    + rewrite lookup_insert_ne by done. destruct (ql_lines s.1 !! p); [|done]. eapply line_history_weaken; [|done]. lia.
  - destruct (ql_lines s.1 !! provider ≫= line_step t step) as [line'|] eqn:E; [|by rewrite app_nil_r].
    apply bind_Some in E as (line & Hl & Hstep). simpl. destruct (decide (p = provider)) as [->|Hne].
    + rewrite Hl in Hp. rewrite lookup_insert_eq, !tickets_of_snoc. simpl. rewrite !decide_True by done. by eapply line_step_history.
    + rewrite lookup_insert_ne by done. destruct (ql_lines s.1 !! p); [|intros f]; rewrite !tickets_of_snoc; simpl;
        rewrite !decide_False, !app_nil_r by done; auto.
Qed.

Lemma run_log_ok es : queue_ok (run_log es).
Proof.
  unfold run_log. induction es as [|e es IH] using rev_ind; [intros p; simpl; by rewrite lookup_empty|]. rewrite foldl_app. by apply trace_step_ok.
Qed.

(** ** What the queue promises *)

Lemma holders_le_one order (holder : N) :
  NoDup (qc_ticket <$> order) -> (forall c, c ∈ order -> qc_holds c = true -> qc_ticket c = holder) ->
  length (filter (fun c => qc_holds c = true) order) <= 1.
Proof.
  intros Hnd Hh. assert (forall l, NoDup (qc_ticket <$> l) -> (forall c, c ∈ l -> qc_ticket c = holder) -> length l <= 1) as Hle.
  { intros [|c [|d l]]; simpl; [lia|lia|]. intros [Hc _]%NoDup_cons Hall. exfalso. apply Hc.
    rewrite (Hall c), (Hall d) by set_solver. set_solver. }
  apply Hle; [|intros c [? ?]%list_elem_of_filter; auto].
  eapply sublist_NoDup; [exact Hnd|]. apply fmap_sublist, sublist_filter.
Qed.

Lemma holds_count n line (Hok : line_ok n line) :
  let holding := length (filter (fun c => qc_holds c = true) (pl_order line)) in
  holding <= 1 /\ (holding = 1 <-> exists t, pl_calls line !! t = Some Holding).
Proof.
  set (l := filter _ _). simpl. assert (length l <= 1) as Hle.
  { destruct (sem_permit (pl_slot line)) as [h|] eqn:Hp.
    - apply (holders_le_one _ h); [apply (lk_tickets _ _ Hok)|]. intros c Hc Hh%(lk_holds _ _ Hok c Hc).
      pose proof (lk_slot _ _ Hok _ _ Hh (or_introl eq_refl)). congruence.
    - apply (holders_le_one _ 0%N); [apply (lk_tickets _ _ Hok)|]. intros c Hc Hh%(lk_holds _ _ Hok c Hc).
      pose proof (lk_slot _ _ Hok _ _ Hh (or_introl eq_refl)). congruence. }
  split; [done|]. split.
  - destruct l as [|c l'] eqn:E; [done|]. intros _. exists (qc_ticket c).
    assert (c ∈ l) as [Hh Hc]%list_elem_of_filter by (rewrite E; set_solver). by apply (lk_holds _ _ Hok).
  - intros [t Ht]. assert (t ∈ qc_ticket <$> pl_order line) as (c & -> & Hc)%list_elem_of_fmap by (apply (lk_in_line _ _ Hok); eauto).
    assert (c ∈ l) as Hcl by (apply list_elem_of_filter; split; [by apply (lk_holds _ _ Hok)|done]).
    destruct l; [by apply elem_of_nil in Hcl|]. simpl in *. lia.
Qed.

Lemma order_counts n line (Hok : line_ok n line) :
  length (pl_order line) = size (filter (fun c => c.2 <> Releasing) (pl_calls line)).
Proof.
  rewrite <- (length_fmap qc_ticket), <- size_dom, <- (size_list_to_set (C := gset N)) by apply (lk_tickets _ _ Hok).
  f_equal. apply set_eq. intros t. rewrite elem_of_list_to_set, (lk_in_line _ _ Hok), elem_of_dom.
  unfold is_Some. setoid_rewrite map_lookup_filter_Some. naive_solver.
Qed.

Lemma filter_split {A} (f : A -> bool) l :
  length (filter (fun c => f c = true) l) + length (filter (fun c => negb (f c) = true) l) = length l.
Proof. induction l as [|x l IH]; [done|]. rewrite !filter_cons. destruct (f x); simpl; repeat case_decide; try done; simpl; lia. Qed.

(** The call that has an endpoint's permit can always go on. *)
Lemma permit_owner_steps n line t :
  line_ok n line -> sem_permit (pl_slot line) = Some t ->
  exists step, step ∈ [TakeSlot; DropPlace; DropPermit] /\ is_Some (line_step t step line).
Proof.
  intros Hok Hp. destruct (lk_permit _ _ Hok t Hp) as (a & Ha & [->|[-> | ->]]); unfold line_step.
  - exists TakeSlot. rewrite Ha, decide_True by done. split; [set_solver|eauto].
  - exists DropPlace. rewrite Ha. split; [set_solver|eauto].
  - exists DropPermit. rewrite Ha. split; [set_solver|eauto].
Qed.

(** C20. Whatever calls are made of whichever endpoints, however they interleave and give up, in every
    endpoint's line: at most one call has the slot; [in_flight] is 1 exactly while a call holds it and 0
    otherwise; [in_flight] and [waiting] together count the calls that have not left; while anyone waits
    the permit is with a call that can go on, so no wait is lost; slots were taken in the order they were
    asked for; and when no call is left the line is as good as new. *)
Theorem provider_queue_exclusive es p line :
  let q := run_queue es in
  let log := (run_log es).2 in
  ql_lines q !! p = Some line ->
  (forall t u a b, pl_calls line !! t = Some a -> has_slot a -> pl_calls line !! u = Some b -> has_slot b -> t = u) /\
  (in_flight p q <= 1 /\ (in_flight p q = 1 <-> exists t, pl_calls line !! t = Some Holding)) /\
  in_flight p q + waiting p q = size (filter (fun c => c.2 <> Releasing) (pl_calls line)) /\
  (forall t, pl_calls line !! t = Some Waiting ->
     exists u step, sem_permit (pl_slot line) = Some u /\ step ∈ [TakeSlot; DropPlace; DropPermit] /\ is_Some (line_step u step line)) /\
  (NoDup (tickets_of asks p log) /\ tickets_of takes p log `sublist_of` tickets_of asks p log) /\
  (pl_calls line = ∅ -> pl_order line = [] /\ sem_permit (pl_slot line) = None /\ sem_queue (pl_slot line) = []).
Proof.
  intros q log Hl. pose proof (run_log_ok es p) as Hok. rewrite run_log_queue in Hok. fold q in Hok. rewrite Hl in Hok.
  destruct Hok as [Hok Hnd _ Hsub]. unfold in_flight, waiting, count_in. rewrite Hl. split_and!.
  - intros t u a b Ha Hsa Hb Hsb. pose proof (lk_slot _ _ Hok _ _ Ha Hsa). pose proof (lk_slot _ _ Hok _ _ Hb Hsb). congruence.
  - by eapply holds_count.
  - by eapply holds_count.
  - by rewrite filter_split, (order_counts _ _ Hok).
  - intros t Ht. destruct (sem_permit (pl_slot line)) as [u|] eqn:Hp.
    + exists u. destruct (permit_owner_steps _ _ _ Hok Hp) as (step & ? & ?). eauto.
    + exfalso. apply (not_elem_of_nil t). rewrite <- (lk_free _ _ Hok Hp). apply (lk_queue _ _ Hok). by rewrite Hp.
  - done.
  - etrans; [|exact Hsub]. by apply sublist_inserts_r.
  - intros He. assert (sem_permit (pl_slot line) = None) as Hp.
    { destruct (sem_permit (pl_slot line)) as [t|] eqn:Hp; [|done]. destruct (lk_permit _ _ Hok t Hp) as (a & Ha & _). by rewrite He in Ha. }
    pose proof (order_counts _ _ Hok) as Ho. rewrite He, map_filter_empty, map_size_empty in Ho. apply nil_length_inv in Ho.
    split_and!; [done..|]. by apply (lk_free _ _ Hok).
Qed.

End Queue.

(** ** A semaphore, and runs of a queue *)

Record permit_and_queue := mkPermit { pq_permit : option N; pq_queue : list N }.

#[export] Program Instance list_semaphore : FairSemaphore := {
  Semaphore := permit_and_queue;
  sem_permit := pq_permit;
  sem_queue := pq_queue;
  new_semaphore := mkPermit None [];
  sem_acquire t s :=
    match pq_permit s with None => mkPermit (Some t) (pq_queue s) | Some u => mkPermit (Some u) (pq_queue s ++ [t]) end;
  sem_release s := mkPermit (head (pq_queue s)) (tail (pq_queue s));
  sem_abandon t s :=
    if decide (pq_permit s = Some t) then mkPermit (head (pq_queue s)) (tail (pq_queue s))
    else mkPermit (pq_permit s) (filter (fun u => u <> t) (pq_queue s)) }.
Solve All Obligations with (intros; simpl; repeat (case_decide || case_match); done).

(** One call holds the endpoint, a second waits, a third has given up. *)
Definition busy_provider : list queue_event :=
  [Admit "ollama" "planner"; Admit "ollama" "coder"; Admit "ollama" "reviewer";
   Step "ollama" 0 AskSlot; Step "ollama" 1 AskSlot; Step "ollama" 2 AskSlot;
   Step "ollama" 0 TakeSlot; Step "ollama" 2 GiveUp; Step "ollama" 2 LeaveLine].

Lemma provider_queue_exclusive_witness :
  let q := run_queue busy_provider in
  in_flight "ollama" q = 1 /\ waiting "ollama" q = 1 /\
  exists line, ql_lines q !! "ollama" = Some line /\
    in_flight "ollama" q + waiting "ollama" q = size (filter (fun c => c.2 <> Releasing) (pl_calls line)).
Proof.
  split; [vm_compute; reflexivity|]. split; [vm_compute; reflexivity|].
  destruct (ql_lines (run_queue busy_provider) !! "ollama") as [line|] eqn:E; [|vm_compute in E; discriminate].
  exists line. split; [reflexivity|]. exact (proj1 (proj2 (proj2 (provider_queue_exclusive busy_provider "ollama" line E)))).
Defined.

(** The second caller asks for the slot before the first one does. *)
Definition overtaken_caller : list queue_event :=
  [Admit "ollama" "planner"; Admit "ollama" "coder"; Step "ollama" 1 AskSlot; Step "ollama" 1 TakeSlot; Step "ollama" 0 AskSlot].

(** Position 0 is documented as holding the slot. A caller joins the line and asks for the slot in two
    steps; when another overtakes it in between, the first is reported at position 0 while it waits for
    the second, which holds the endpoint at position 1. *)
Lemma position_zero_not_holding :
  let q := run_queue overtaken_caller in
  position_of ["ollama"] "planner" q = Some 0 /\ position_of ["ollama"] "coder" q = Some 1 /\
  in_flight "ollama" q = 1 /\ (ql_lines q !! "ollama" ≫= fun line => pl_calls line !! 0%N) = Some Waiting /\
  (ql_lines q !! "ollama" ≫= fun line => pl_calls line !! 1%N) = Some Holding.
Proof. vm_compute. repeat split. Qed.
