(* ===== verification/ActivityDelta.v ===== *)
(** * A tick's delta: the ring that keeps it, its slices, and its frames

    [src/packages/tddy-daemon-livekit/src/session_room.rs] (the ring of recent deltas and the
    slicing of a patch into the sections of its files), [activity_delta_frames] of
    [tddy-session-activity/src/service.rs] and [reassemble] of
    [tddy-session-sync/src/sync/delta.rs], the two ends of the stream a delta is fetched by.
    Warnings are left out. *)

From Stdlib Require Import Strings.Byte.
From S2P Require Import Prelude Text Framing Utf8.

(** ** Ticks *)

Definition NO_TICK : N := 0.
Definition FIRST_TICK : N := 1.

Definition next_tick (last : option N) : N :=
  match last with
  | None => FIRST_TICK
  | Some last => N.min (last + 1) u64_max
  end.

Record ActivityDelta := mkDelta {
  ad_seq : N;
  ad_prev_seq : N;
  ad_base_commit : string;
  ad_patch : bytes;
  ad_scoped_paths : list string;
}.

#[global] Instance ActivityDelta_eq_dec : EqDecision ActivityDelta.
Proof. solve_decision. Defined.

(** ** A patch, sliced by path *)

Definition newline : byte := x0a.

Fixpoint strip_bytes (p b : bytes) : option bytes :=
  match p, b with
  | [], _ => Some b
  | x :: p, y :: b => if decide (x = y) then strip_bytes p b else None
  | _ :: _, [] => None
  end.

Definition bytes_start_with (p b : bytes) : bool := bool_decide (is_Some (strip_bytes p b)).

(** [slice::strip_suffix] of one byte. *)
Definition strip_last (x : byte) (b : bytes) : option bytes :=
  match last b with
  | Some y => if decide (x = y) then Some (take (length b - 1) b) else None
  | None => None
  end.

(** [split_inclusive] at line breaks. *)
Fixpoint split_inclusive (b : bytes) : list bytes :=
  match b with
  | [] => []
  | x :: b =>
      if decide (x = newline) then [x] :: split_inclusive b
      else match split_inclusive b with
           | [] => [[x]]
           | line :: lines => (x :: line) :: lines
           end
  end.

(** [split] at line breaks. *)
Fixpoint split_newlines (b : bytes) : list bytes :=
  match b with
  | [] => [[]]
  | x :: b =>
      if decide (x = newline) then [] :: split_newlines b
      else match split_newlines b with
           | [] => [[x]]
           | line :: lines => (x :: line) :: lines
           end
  end.

Definition PATCH_SECTION_HEADER : bytes := text_bytes "diff --git ".

Record PatchSection := mkSection { ps_names : list string; ps_reported : string; ps_bytes : bytes }.

Definition names_any_in (claimed : list string) (s : PatchSection) : bool :=
  existsb (fun name => bool_decide (name ∈ claimed)) (ps_names s).

(** *** Names as git prints them *)

Definition octal (b : byte) : option N :=
  let n := Byte.to_N b in if (48 <=? n)%N && (n <=? 55)%N then Some (n - 48)%N else None.

Definition u8 (n : N) : byte := default x00 (Byte.of_N (n mod 256)).

Definition letter_escape (b : byte) : option byte :=
  if decide (b = x61) then Some x07 else if decide (b = x62) then Some x08
  else if decide (b = x66) then Some x0c else if decide (b = x6e) then Some x0a
  else if decide (b = x72) then Some x0d else if decide (b = x74) then Some x09
  else if decide (b = x76) then Some x0b else None.

Definition quote_mark : byte := x22.
Definition backslash : byte := x5c.

(** The loop of [take_c_quoted], after the opening quote. *)
Fixpoint take_quoted (name rest : bytes) {struct rest} : option (string * bytes) :=
  match rest with
  | [] => None
  | b :: rest =>
      if decide (b = quote_mark) then Some (from_utf8_lossy name, rest)
      else if decide (b = backslash) then
        match rest with
        | [] => None
        | escaped :: rest =>
            match letter_escape escaped, octal escaped with
            | Some c, _ => take_quoted (name ++ [c]) rest
            | None, Some value =>
                match rest with
                | d1 :: rest1 =>
                    match octal d1 with
                    | Some v1 =>
                        match rest1 with
                        | d2 :: rest2 =>
                            match octal d2 with
                            | Some v2 => take_quoted (name ++ [u8 ((value * 8 + v1) * 8 + v2)]) rest2
                            | None => take_quoted (name ++ [u8 (value * 8 + v1)]) rest1
                            end
                        | [] => take_quoted (name ++ [u8 (value * 8 + v1)]) rest1
                        end
                    | None => take_quoted (name ++ [u8 value]) rest
                    end
                | [] => take_quoted (name ++ [u8 value]) rest
                end
            | None, None => take_quoted (name ++ [escaped]) rest
            end
        end
      else take_quoted (name ++ [b]) rest
  end.

Definition take_c_quoted (b : bytes) : option (string * bytes) :=
  rest ← strip_bytes [quote_mark] b; take_quoted [] rest.

Definition unquoted_name (name : bytes) : string :=
  match take_c_quoted name with
  | Some (unquoted, _) => unquoted
  | None => from_utf8_lossy name
  end.

Definition without_prefix (name prefix : string) : string := default name (strip_prefix prefix name).

Definition trimmed_line_end (line : bytes) : bytes := default line (strip_last x0d line).
Definition side_name_terminator_trimmed (name : bytes) : bytes := default name (strip_last x09 name).

Definition side_name (name : bytes) (prefix : string) : option string :=
  let name := side_name_terminator_trimmed (trimmed_line_end name) in
  if decide (name = text_bytes "/dev/null") then None
  else Some (without_prefix (unquoted_name name) prefix).

(** The positions of [" b/"] in the names of a header, [before] being what was passed. *)
Fixpoint header_scan (before after : bytes) (ambiguous : option (string * string)) : option (string * string) :=
  match after with
  | [] => ambiguous
  | x :: after' =>
      match strip_bytes (text_bytes " b/") after, strip_bytes (text_bytes "a/") before with
      | Some new, Some old =>
          if decide (old = new) then Some (bytes_text old, bytes_text new)
          else header_scan (before ++ [x]) after'
                 (match ambiguous with Some found => Some found | None => Some (bytes_text old, bytes_text new) end)
      | _, _ => header_scan (before ++ [x]) after' ambiguous
      end
  end.

Definition header_names (header : bytes) : option string * option string :=
  match strip_bytes PATCH_SECTION_HEADER header with
  | None => (None, None)
  | Some rest =>
      let rest := trimmed_line_end rest in
      if bytes_start_with [quote_mark] rest then
        match take_c_quoted rest with
        | None => (None, None)
        | Some (old, after) =>
            match take_c_quoted (default after (strip_bytes (text_bytes " ") after)) with
            | None => (None, None)
            | Some (new, _) => (Some (without_prefix old "a/"), Some (without_prefix new "b/"))
            end
        end
      else
        match header_scan [] (text_bytes (from_utf8_lossy rest)) None with
        | Some (old, new) => (Some old, Some new)
        | None => (None, None)
        end
  end.

(** *** Sections *)

Definition ends_header (line : bytes) : bool :=
  bytes_start_with (text_bytes "@@") line || bytes_start_with (text_bytes "GIT binary patch") line ||
  bytes_start_with (text_bytes "Binary files ") line.

Definition first_some {A} (a b : option A) : option A := match a with Some _ => a | None => b end.

(** The images a section's header lines name, starting from those named so far. *)
Fixpoint section_images (lines : list bytes) (images : option string * option string) : option string * option string :=
  match lines with
  | [] => images
  | line :: lines =>
      if ends_header line then images
      else
        let '(preimage, postimage) := images in
        section_images lines
          (match strip_bytes (text_bytes "--- ") line with
           | Some name => (side_name name "a/", postimage)
           | None =>
               match strip_bytes (text_bytes "+++ ") line with
               | Some name => (preimage, side_name name "b/")
               | None =>
                   match first_some (strip_bytes (text_bytes "rename from ") line) (strip_bytes (text_bytes "copy from ") line) with
                   | Some name => (Some (unquoted_name (trimmed_line_end name)), postimage)
                   | None =>
                       match first_some (strip_bytes (text_bytes "rename to ") line) (strip_bytes (text_bytes "copy to ") line) with
                       | Some name => (preimage, Some (unquoted_name (trimmed_line_end name)))
                       | None => images
                       end
                   end
               end
           end)
  end.

Definition patch_section (b : bytes) : PatchSection :=
  let lines := split_newlines b in
  let header := default [] (head lines) in
  let images := section_images (tail lines) (None, None) in
  let '(preimage, postimage) := match images with (None, None) => header_names header | _ => images end in
  let names :=
    match preimage, postimage with
    | Some pre, Some post => if decide (pre = post) then [pre] else [pre; post]
    | Some pre, None => [pre]
    | None, Some post => [post]
    | None, None => []
    end in
  mkSection names (default "" (first_some postimage preimage)) b.

Fixpoint section_starts (offset : nat) (lines : list bytes) : list nat :=
  match lines with
  | [] => []
  | line :: lines =>
      (if bytes_start_with PATCH_SECTION_HEADER line then [offset] else []) ++ section_starts (offset + length line) lines
  end.

(** From each start to the next one, the last to the end. *)
Fixpoint section_slices (patch : bytes) (starts : list nat) : list bytes :=
  match starts with
  | [] => []
  | start :: rest =>
      let stop := default (length patch) (head rest) in
      take (stop - start) (drop start patch) :: section_slices patch rest
  end.

Definition patch_sections (patch : bytes) : list PatchSection :=
  patch_section <$> section_slices patch (section_starts 0 (split_inclusive patch)).

Definition select_sections (patch : bytes) (keep : PatchSection -> bool) : bytes * list string :=
  let kept := filter (fun s => keep s = true) (patch_sections patch) in
  (concat (ps_bytes <$> kept), filter (fun name => name <> "") (ps_reported <$> kept)).

(** ** The ring *)

Inductive DeltaScope := ScopeCall | ScopeResidual | ScopeTick.

Inductive DeltaLookupError :=
| UnknownCall (call_id : string)
| AgedOut (call_id : string) (seq : N).

Definition SESSION_DELTA_RING_TICKS : nat := 64.
Definition SESSION_DELTA_RING_BYTES : N := 16 * 1024 * 1024.

Record SessionDeltaStore := mkStore {
  ds_max_ticks : nat;
  ds_max_bytes : N;
  ds_ticks : list ActivityDelta;
  ds_retained_bytes : N;
  ds_claims : gmap N (gmap string (list string));
  ds_call_ticks : gmap string N;
}.

Definition new_store (max_ticks : nat) (max_bytes : N) : SessionDeltaStore := mkStore max_ticks max_bytes [] 0 ∅ ∅.

Definition patch_len (d : ActivityDelta) : N := N.of_nat (length (ad_patch d)).

(** The eviction loop: ticks, retained bytes and claims. *)
Fixpoint evict_ticks (max_ticks : nat) (max_bytes : N) (ticks : list ActivityDelta) (retained : N) (claims : gmap N (gmap string (list string)))
    : list ActivityDelta * N * gmap N (gmap string (list string)) :=
  match ticks with
  | [] => ([], retained, claims)
  | evicted :: rest =>
      if bool_decide (max_ticks < length ticks) || bool_decide (max_bytes < retained)%N
      then evict_ticks max_ticks max_bytes rest (retained - patch_len evicted)%N (delete (ad_seq evicted) claims)
      else (ticks, retained, claims)
  end.

Definition record_delta (delta : ActivityDelta) (s : SessionDeltaStore) : SessionDeltaStore :=
  let '(ticks, retained, claims) :=
    evict_ticks (ds_max_ticks s) (ds_max_bytes s) (ds_ticks s ++ [delta]) (ds_retained_bytes s + patch_len delta)%N (ds_claims s) in
  let floor := default (N.min (ad_seq delta + 1) u64_max) (ad_seq <$> head ticks) in
  mkStore (ds_max_ticks s) (ds_max_bytes s) ticks retained (filter (fun c => (floor <= c.1)%N) claims) (ds_call_ticks s).

Definition attribute (call_id : string) (seq : N) (changed_paths : list string) (s : SessionDeltaStore) : SessionDeltaStore :=
  mkStore (ds_max_ticks s) (ds_max_bytes s) (ds_ticks s) (ds_retained_bytes s)
    (<[seq := <[call_id := changed_paths]> (default ∅ (ds_claims s !! seq))]> (ds_claims s))
    (<[call_id := seq]> (ds_call_ticks s)).

Definition find_tick (seq : N) (s : SessionDeltaStore) : option ActivityDelta :=
  snd <$> list_find (fun d => ad_seq d = seq) (ds_ticks s).

Definition declared_by (call_id : string) (seq : N) (s : SessionDeltaStore) : list string :=
  default [] (ds_claims s !! seq ≫= fun claims => claims !! call_id).

Definition claimed_paths (seq : N) (s : SessionDeltaStore) : list string :=
  concat (snd <$> map_to_list (default ∅ (ds_claims s !! seq))).

Definition delta_for_call (call_id : string) (scope : DeltaScope) (s : SessionDeltaStore) : res DeltaLookupError ActivityDelta :=
  match ds_call_ticks s !! call_id with
  | None => Err (UnknownCall call_id)
  | Some seq =>
      match find_tick seq s with
      | None => Err (AgedOut call_id seq)
      | Some tick =>
          let '(patch, scoped_paths) :=
            match scope with
            | ScopeCall =>
                let declared := declared_by call_id seq s in
                ((select_sections (ad_patch tick) (names_any_in declared)).1, declared)
            | ScopeResidual => select_sections (ad_patch tick) (fun section => negb (names_any_in (claimed_paths seq s) section))
            | ScopeTick => (ad_patch tick, [])
            end in
          Ok (mkDelta (ad_seq tick) (ad_prev_seq tick) (ad_base_commit tick) patch scoped_paths)
      end
  end.

Definition residual_paths (seq : N) (s : SessionDeltaStore) : res DeltaLookupError (list string) :=
  match find_tick seq s with
  | None => Err (AgedOut "" seq)
  | Some tick => Ok (select_sections (ad_patch tick) (fun section => negb (names_any_in (claimed_paths seq s) section))).2
  end.

(** ** Frames *)

Record AgentActivityDeltaChunk := mkChunk {
  dc_patch : bytes;
  dc_seq : N;
  dc_prev_seq : N;
  dc_base_commit : string;
  dc_total_byte_size : N;
  dc_scoped_paths : list string;
}.

#[global] Instance AgentActivityDeltaChunk_eq_dec : EqDecision AgentActivityDeltaChunk.
Proof. solve_decision. Defined.

Definition HOST_DOCUMENT_FRAME_BYTES : nat := 48 * 1024.

(** [slice::chunks]. *)
Fixpoint chunks_go (size fuel : nat) (b : bytes) : list bytes :=
  match fuel, b with
  | _, [] => []
  | O, _ => []
  | S fuel, _ => take size b :: chunks_go size fuel (drop size b)
  end.

Definition chunks (size : nat) (b : bytes) : list bytes := chunks_go size (length b) b.

Definition activity_delta_frames (delta : ActivityDelta) : list AgentActivityDeltaChunk :=
  let describe patch :=
    mkChunk patch (ad_seq delta) (ad_prev_seq delta) (ad_base_commit delta) (patch_len delta) (ad_scoped_paths delta) in
  match describe <$> chunks HOST_DOCUMENT_FRAME_BYTES (ad_patch delta) with
  | [] => [describe []]
  | frames => frames
  end.

Inductive DeltaError :=
| NoFrames
| Inconsistent (field first later : string)
| Truncated (declared received : N).

(** The fields every frame repeats. *)
Definition described (c : AgentActivityDeltaChunk) : list (string * string) :=
  [("seq", pretty (dc_seq c)); ("prev_seq", pretty (dc_prev_seq c)); ("base_commit", dc_base_commit c);
   ("total_byte_size", pretty (dc_total_byte_size c))].

(** The first field on which a later frame differs from the first one. *)
Definition inconsistency (first later : AgentActivityDeltaChunk) : option DeltaError :=
  head (omap (fun '((field, a), (_, b)) => if decide (a <> b) then Some (Inconsistent field a b) else None)
          (zip (described first) (described later))).

Definition reassemble (frames : list AgentActivityDeltaChunk) : res DeltaError ActivityDelta :=
  match frames with
  | [] => Err NoFrames
  | first :: later =>
      match head (omap (inconsistency first) later) with
      | Some e => Err e
      | None =>
          let patch := concat (dc_patch <$> frames) in
          if decide (N.of_nat (length patch) <> dc_total_byte_size first)
          then Err (Truncated (dc_total_byte_size first) (N.of_nat (length patch)))
          else Ok (mkDelta (dc_seq first) (dc_prev_seq first) (dc_base_commit first) patch (dc_scoped_paths first))
      end
  end.
