(* ===== verification/ActivityDeltaSpec.v ===== *)
(** * What the ring keeps, what a slice is, and that frames carry a delta whole

    [split_inclusive] cuts a patch at its line breaks, so a patch that starts with a section's
    header is the concatenation of its sections, and any choice of them is again a patch with
    exactly these sections. *)

From Stdlib Require Import Strings.Byte.
From S2P Require Import Prelude Text Framing Utf8 ActivityDelta.

(** ** Lines *)

Lemma concat_split_inclusive b : concat (split_inclusive b) = b.
Proof.
  induction b as [|x b IH]; [done|]. simpl. case_decide; simpl; [by rewrite IH|].
  destruct (split_inclusive b) as [|line lines]; simpl in *; by rewrite <- IH.
Qed.

(** Every line ends with a line break and has no other, but the last one, which may lack it. *)
Inductive lines_ok : list bytes -> Prop :=
| lines_nil : lines_ok []
| lines_last l : l <> [] -> newline ∉ l -> lines_ok [l]
| lines_cons l ls : newline ∉ l -> lines_ok ls -> lines_ok ((l ++ [newline]) :: ls).

Lemma split_inclusive_ok b : lines_ok (split_inclusive b).
Proof.
  induction b as [|x b IH]; simpl; [constructor|]. case_decide as Hx; [subst; apply (lines_cons []); [set_solver|done]|].
  inversion IH as [|l Hne Hl|l ls Hl Hls]; subst.
  - apply lines_last; set_solver.
  - apply lines_last; set_solver.
  - apply (lines_cons (x :: l)); set_solver.
Qed.

Lemma split_inclusive_line l b : newline ∉ l -> split_inclusive (l ++ newline :: b) = (l ++ [newline]) :: split_inclusive b.
Proof.
  induction l as [|x l IH]; intros Hl; simpl; [done|]. apply not_elem_of_cons in Hl as [Hx Hl].
  rewrite decide_False by done. by rewrite IH.
Qed.

Lemma split_inclusive_tail l : l <> [] -> newline ∉ l -> split_inclusive l = [l].
Proof.
  induction l as [|x l IH]; intros Hne Hl; [done|]. apply not_elem_of_cons in Hl as [Hx Hl]. simpl. rewrite decide_False by done.
  destruct l as [|y l]; [done|]. by rewrite IH.
Qed.

Lemma lines_ok_concat ls : lines_ok ls -> split_inclusive (concat ls) = ls.
Proof.
  induction 1 as [|l Hne Hl|l ls Hl Hls IH]; simpl; [done| |].
  - rewrite app_nil_r. by apply split_inclusive_tail.
  - rewrite <- (assoc_L (++)). simpl. by rewrite split_inclusive_line, IH.
Qed.

Lemma lines_ok_sublist ls ls' : lines_ok ls -> ls' `sublist_of` ls -> lines_ok ls'.
Proof.
  intros Hok. revert ls'. induction Hok as [|l Hne Hl|l ls Hl Hls IH]; intros ls' Hsub.
  - apply sublist_nil_r in Hsub as ->. constructor.
  - apply sublist_cons_r in Hsub as [->%sublist_nil_r|(k & -> & ->%sublist_nil_r)]; [constructor|by apply lines_last].
  - apply sublist_cons_r in Hsub as [Hsub|(k & -> & Hsub)]; [by apply IH|]. apply lines_cons; [done|]. by apply IH.
Qed.

(** ** Sections as groups of lines *)

Definition is_header (line : bytes) : bool := bytes_start_with PATCH_SECTION_HEADER line.

(** The lines of each section; what comes before the first header is in none. *)
Fixpoint group_lines (lines : list bytes) : list bytes * list (list bytes) :=
  match lines with
  | [] => ([], [])
  | line :: lines =>
      let '(open, groups) := group_lines lines in
      if is_header line then ([], (line :: open) :: groups) else (line :: open, groups)
  end.

Lemma group_lines_concat lines : (group_lines lines).1 ++ concat (group_lines lines).2 = lines.
Proof.
  induction lines as [|line lines IH]; [done|]. simpl. destruct (group_lines lines) as [o gs]. simpl in *.
  destruct (is_header line); simpl; by rewrite IH.
Qed.

Lemma section_starts_lb lines offset start : start ∈ section_starts offset lines -> offset <= start.
Proof.
  revert offset. induction lines as [|line lines IH]; intros offset; simpl; [set_solver|].
  rewrite elem_of_app. intros [Hs|Hs%IH]; [|lia]. destruct (bytes_start_with _ line); set_solver by lia.
Qed.

Lemma section_slices_groups pre lines :
  section_slices (pre ++ concat lines) (section_starts (length pre) lines) = (fun g => concat g) <$> (group_lines lines).2 /\
  default (length (pre ++ concat lines)) (head (section_starts (length pre) lines)) = length pre + length (concat (group_lines lines).1).
Proof.
  revert pre. induction lines as [|line lines IH]; intros pre; simpl; [rewrite !length_app; simpl; split; [done|lia]|].
  specialize (IH (pre ++ line)). rewrite length_app, <- (assoc_L (++)) in IH. pose proof (group_lines_concat lines) as Hc.
  destruct (group_lines lines) as [o gs]. simpl in *. unfold is_header.
  destruct (bytes_start_with PATCH_SECTION_HEADER line) eqn:Eh; simpl; destruct IH as [IH1 IH2].
  - split; [|lia]. f_equal; [|done]. rewrite IH2, drop_app_length, <- Hc, concat_app, (assoc_L (++)), take_app_length'; [done|].
    rewrite length_app. lia.
  - split; [done|]. rewrite IH2, length_app. lia.
Qed.

Definition group_ok (g : list bytes) : Prop := exists h t, g = h :: t /\ is_header h = true /\ Forall (fun l => is_header l = false) t.

Lemma group_lines_ok lines : Forall (fun l => is_header l = false) (group_lines lines).1 /\ Forall group_ok (group_lines lines).2.
Proof.
  induction lines as [|line lines [IH1 IH2]]; [done|]. simpl. destruct (group_lines lines) as [o gs]. simpl in *.
  destruct (is_header line) eqn:E; simpl; split; try done; [|by constructor]. constructor; [by exists line, o|done].
Qed.

Lemma group_lines_open t lines : Forall (fun l => is_header l = false) t -> group_lines (t ++ lines) = (t ++ (group_lines lines).1, (group_lines lines).2).
Proof.
  induction 1 as [|l t Hl Ht IH]; simpl; [by destruct (group_lines lines)|]. by rewrite IH, Hl.
Qed.

Lemma group_lines_groups gs : Forall group_ok gs -> group_lines (concat gs) = ([], gs).
Proof.
  induction 1 as [|g gs (h & t & -> & Hh & Ht) Hgs IH]; [done|]. simpl. rewrite group_lines_open, IH by done. simpl.
  by rewrite app_nil_r, Hh.
Qed.

Lemma patch_section_bytes b : ps_bytes (patch_section b) = b.
Proof. unfold patch_section. by destruct (section_images _ _) as [[?|] [?|]]; try destruct (header_names _). Qed.

Lemma patch_sections_groups patch :
  patch_sections patch = (fun g => patch_section (concat g)) <$> (group_lines (split_inclusive patch)).2.
Proof.
  unfold patch_sections. pose proof (proj1 (section_slices_groups [] (split_inclusive patch))) as Hs. simpl in Hs.
  rewrite concat_split_inclusive in Hs. rewrite Hs. by rewrite <- list_fmap_compose.
Qed.

Lemma concat_concat {A} (ls : list (list (list A))) : concat (concat ls) = concat ((fun g => concat g) <$> ls).
Proof. induction ls as [|l ls IH]; [done|]. simpl. by rewrite concat_app, IH. Qed.

Lemma concat_sublist {A} (ls ls' : list (list A)) : ls' `sublist_of` ls -> concat ls' `sublist_of` concat ls.
Proof. induction 1; simpl; [done|by apply sublist_app|by apply sublist_inserts_l]. Qed.

Lemma filter_fmap_groups (keep : PatchSection -> bool) (gs : list (list bytes)) :
  exists gs', gs' `sublist_of` gs /\
    filter (fun s => keep s = true) ((fun g => patch_section (concat g)) <$> gs) = (fun g => patch_section (concat g)) <$> gs'.
Proof.
  exists (filter (fun g => keep (patch_section (concat g)) = true) gs). split; [apply sublist_filter|].
  induction gs as [|g gs IH]; [done|]. rewrite fmap_cons, !filter_cons, IH. by case_decide.
Qed.

(** Any choice of a patch's sections is a patch with exactly these sections. *)
Lemma select_sections_sections patch keep :
  patch_sections (select_sections patch keep).1 = filter (fun s => keep s = true) (patch_sections patch).
Proof.
  unfold select_sections. simpl. rewrite (patch_sections_groups patch).
  destruct (filter_fmap_groups keep (group_lines (split_inclusive patch)).2) as (gs' & Hsub & ->).
  rewrite <- list_fmap_compose. unfold compose.
  assert (forall g : list bytes, ps_bytes (patch_section (concat g)) = concat g) as Hb by (intros; apply patch_section_bytes).
  rewrite (list_fmap_ext _ (fun g => concat g) gs') by (intros; apply Hb). rewrite <- concat_concat.
  destruct (group_lines_ok (split_inclusive patch)) as [_ Hgs].
  assert (Forall group_ok gs') as Hgs' by (rewrite Forall_forall in *; intros g Hg; apply Hgs; by eapply elem_of_sublist).
  rewrite patch_sections_groups, lines_ok_concat, group_lines_groups; [done|done|].
  eapply lines_ok_sublist; [apply split_inclusive_ok|]. rewrite <- (group_lines_concat (split_inclusive patch)).
  apply sublist_inserts_l. by apply concat_sublist.
Qed.

Lemma header_on_first_line h b :
  newline ∉ h -> h <> [] -> bytes_start_with h b = true -> exists line lines, split_inclusive b = line :: lines /\ bytes_start_with h line = true.
Proof.
  unfold bytes_start_with. revert b. induction h as [|x h IH]; intros b Hh Hne Hb; [done|]. apply not_elem_of_cons in Hh as [Hx Hh].
  apply bool_decide_eq_true in Hb. destruct b as [|y b]; simpl in Hb; [by destruct Hb|]. case_decide as Exy; [|by destruct Hb]. subst y.
  simpl. rewrite decide_False by done. destruct h as [|x' h'].
  - destruct (split_inclusive b) as [|line lines]; do 2 eexists; (split; [done|]); apply bool_decide_eq_true; simpl; by rewrite decide_True.
  - destruct (IH b) as (line & lines & -> & Hline); [done|done|by apply bool_decide_eq_true|].
    do 2 eexists. split; [done|]. apply bool_decide_eq_true in Hline. apply bool_decide_eq_true.
    change (is_Some (if decide (x = x) then strip_bytes (x' :: h') line else None)). by rewrite decide_True.
Qed.

(** A patch that starts with a section is all of its sections. *)
Lemma sections_whole patch :
  bytes_start_with PATCH_SECTION_HEADER patch = true -> concat (ps_bytes <$> patch_sections patch) = patch.
Proof.
  intros Hp. destruct (header_on_first_line PATCH_SECTION_HEADER patch) as (line & lines & E & Hline);
    [apply (bool_decide_eq_true_1 _); vm_compute; reflexivity|done|done|].
  rewrite patch_sections_groups, <- list_fmap_compose. unfold compose.
  rewrite (list_fmap_ext _ (fun g => concat g)) by (intros; apply patch_section_bytes). rewrite <- concat_concat.
  rewrite <- (concat_split_inclusive patch) at 2. rewrite <- (group_lines_concat (split_inclusive patch)) at 2.
  rewrite E. simpl. destruct (group_lines lines) as [o gs]. unfold is_header. rewrite Hline. simpl. done.
Qed.

(** ** The ring *)

Inductive store_op := RecordOp (d : ActivityDelta) | AttributeOp (call_id : string) (seq : N) (paths : list string).

Definition store_step (s : SessionDeltaStore) (op : store_op) : SessionDeltaStore :=
  match op with
  | RecordOp d => record_delta d s
  | AttributeOp call_id seq paths => attribute call_id seq paths s
  end.

Definition run_store (max_ticks : nat) (max_bytes : N) (ops : list store_op) : SessionDeltaStore :=
  foldl store_step (new_store max_ticks max_bytes) ops.

Definition recorded (ops : list store_op) : list ActivityDelta := omap (fun op => match op with RecordOp d => Some d | _ => None end) ops.

(** The tick each call was last attributed to, and every claim ever made. *)
Definition attributed (ops : list store_op) : gmap string N :=
  foldl (fun m op => match op with AttributeOp c k _ => <[c := k]> m | _ => m end) ∅ ops.

Definition all_claims (ops : list store_op) : gmap N (gmap string (list string)) :=
  foldl (fun m op => match op with AttributeOp c k paths => <[k := <[c := paths]> (default ∅ (m !! k))]> m | _ => m end) ∅ ops.

Definition total_bytes (ds : list ActivityDelta) : N := foldr (fun d n => patch_len d + n)%N 0%N ds.

Definition fits (m : nat) (b : N) (ds : list ActivityDelta) : Prop := length ds <= m /\ (total_bytes ds <= b)%N.

Lemma total_bytes_app l k : total_bytes (l ++ k) = (total_bytes l + total_bytes k)%N.
Proof. induction l as [|d l IH]; simpl; [done|]. rewrite IH. lia. Qed.

Lemma fits_suffix m b l k : l `suffix_of` k -> fits m b k -> fits m b l.
Proof. intros [p ->]. unfold fits. rewrite length_app, total_bytes_app. lia. Qed.

Lemma suffix_cons_or {A} (x : A) l k : l `suffix_of` x :: k -> l = x :: k \/ l `suffix_of` k.
Proof. intros [[|y p] E]; simplify_eq/=; [by left|right]. by exists p. Qed.

Lemma evict_ticks_spec m b ticks claims :
  exists dropped ticks' claims',
    evict_ticks m b ticks (total_bytes ticks) claims = (ticks', total_bytes ticks', claims') /\
    ticks = dropped ++ ticks' /\ fits m b ticks' /\
    (forall l, l `suffix_of` ticks -> fits m b l -> l `suffix_of` ticks') /\
    (forall k, claims' !! k = if decide (k ∈ ad_seq <$> dropped) then None else claims !! k).
Proof.
  revert claims. induction ticks as [|d ticks IH]; intros claims; cbn [evict_ticks].
  - exists [], [], claims. split_and!; [done|done|unfold fits; simpl; lia|by intros|]. intros k. rewrite decide_False; [done|set_solver].
  - destruct (bool_decide (m < length (d :: ticks)) || bool_decide (b < total_bytes (d :: ticks))%N) eqn:E.
    + replace (total_bytes (d :: ticks) - patch_len d)%N with (total_bytes ticks) by (simpl; lia).
      destruct (IH (delete (ad_seq d) claims)) as (dropped & ticks' & claims' & -> & -> & Hf & Hmax & Hc).
      exists (d :: dropped), ticks', claims'. split_and!; [done|done|done| |].
      * intros l [->|Hl]%suffix_cons_or Hfl; [|auto]. exfalso. apply orb_true_iff in E as [E|E]; apply bool_decide_eq_true in E; destruct Hfl; lia.
      * intros k. rewrite Hc, lookup_delete, fmap_cons.
        destruct (decide (k ∈ ad_seq <$> dropped)) as [Hk|Hk]; [rewrite decide_True; [done|by right]|].
        destruct (decide (ad_seq d = k)) as [Hd|Hd]; [rewrite decide_True; [done|subst; left]|rewrite decide_False; [done|]].
        rewrite elem_of_cons. naive_solver.
    + apply orb_false_iff in E as [E1%bool_decide_eq_false E2%bool_decide_eq_false].
      exists [], (d :: ticks), claims. split_and!; [done|done|split; lia|by intros|]. intros k. rewrite decide_False; [done|set_solver].
Qed.

Record ring_ok (m : nat) (b : N) (ops : list store_op) (s : SessionDeltaStore) : Prop := {
  rk_ticks : ds_max_ticks s = m;
  rk_bytes : ds_max_bytes s = b;
  rk_retained : ds_retained_bytes s = total_bytes (ds_ticks s);
  rk_suffix : ds_ticks s `suffix_of` recorded ops;
  rk_fits : fits m b (ds_ticks s);
  rk_max : forall l, l `suffix_of` recorded ops -> fits m b l -> l `suffix_of` ds_ticks s;
  rk_calls : ds_call_ticks s = attributed ops;
  rk_claims : forall k, k ∈ ad_seq <$> ds_ticks s \/ (forall d, d ∈ recorded ops -> ad_seq d < k)%N -> ds_claims s !! k = all_claims ops !! k }.

Lemma recorded_snoc ops op : recorded (ops ++ [op]) = recorded ops ++ match op with RecordOp d => [d] | _ => [] end.
Proof. unfold recorded. rewrite omap_app. by destruct op. Qed.

Lemma suffix_snoc_or {A} (x : A) l k : l `suffix_of` k ++ [x] -> l = [] \/ exists l', l = l' ++ [x] /\ l' `suffix_of` k.
Proof.
  intros [p E]. destruct l as [|y l _] using rev_ind; [by left|right]. rewrite (assoc_L (++)) in E. apply app_inj_tail in E as [-> ->].
  exists l. split; [done|]. by exists p.
Qed.

Lemma suffix_snoc_mono {A} (x : A) l k : l `suffix_of` k -> l ++ [x] `suffix_of` k ++ [x].
Proof. intros [p ->]. exists p. by rewrite (assoc_L (++)). Qed.

Definition increasing (ds : list ActivityDelta) : Prop := StronglySorted N.lt (ad_seq <$> ds).

Lemma increasing_snoc ds d : increasing (ds ++ [d]) -> increasing ds /\ forall x, x ∈ ds -> (ad_seq x < ad_seq d)%N.
Proof.
  unfold increasing. rewrite fmap_app. intros Hs. split; [by eapply StronglySorted_app_1_l|].
  intros x Hx. eapply StronglySorted_app_1_elem_of; [exact Hs|apply list_elem_of_fmap; eauto|simpl; set_solver].
Qed.

Lemma record_ok m b ops s d : ring_ok m b ops s -> increasing (recorded (ops ++ [RecordOp d])) -> ring_ok m b (ops ++ [RecordOp d]) (record_delta d s).
Proof.
  intros [H1 H2 H3 H4 H5 H6 H7 H8] Hinc. rewrite recorded_snoc in Hinc. destruct (increasing_snoc _ _ Hinc) as [_ Hlt].
  unfold record_delta. rewrite H1, H2, H3.
  replace (total_bytes (ds_ticks s) + patch_len d)%N with (total_bytes (ds_ticks s ++ [d])) by (rewrite total_bytes_app; simpl; lia).
  destruct (evict_ticks_spec m b (ds_ticks s ++ [d]) (ds_claims s)) as (dropped & ticks' & claims' & -> & Hsplit & Hf & Hmax & Hc).
  split; simpl; try done; rewrite ?recorded_snoc.
  - trans (ds_ticks s ++ [d]); [by exists dropped|by apply suffix_snoc_mono].
  - intros l [->|(l' & -> & Hl')]%suffix_snoc_or Hfl; [apply suffix_nil|]. apply Hmax; [|done].
    apply suffix_snoc_mono, H6; [done|]. unfold fits in *. rewrite length_app, total_bytes_app in Hfl. simpl in Hfl. lia.
  - unfold attributed. by rewrite foldl_app.
  - assert (all_claims (ops ++ [RecordOp d]) = all_claims ops) as -> by (unfold all_claims; by rewrite foldl_app).
    assert (forall x, x ∈ ds_ticks s -> x ∈ recorded ops) as Hin by (intros x Hx; destruct H4 as [p ->]; set_solver).
    assert (increasing (dropped ++ ticks')) as Hinc'.
    { destruct H4 as [p E]. rewrite <- Hsplit. rewrite E, <- (assoc_L (++)) in Hinc. unfold increasing in *. rewrite fmap_app in Hinc.
      by eapply StronglySorted_app_1_r. }
    intros k Hk. rewrite map_lookup_filter, Hc.
    assert (k ∉ ad_seq <$> dropped /\ (default (N.min (ad_seq d + 1) u64_max) (ad_seq <$> head ticks') <= k)%N) as [Hnd Hfloor].
    { destruct Hk as [Hk|Hk].
      - apply list_elem_of_fmap in Hk as (x & -> & Hx). unfold increasing in Hinc'. rewrite fmap_app in Hinc'. split.
        + intros Hd. assert (ad_seq x < ad_seq x)%N; [|lia].
          eapply StronglySorted_app_1_elem_of; [exact Hinc'|done|]. apply list_elem_of_fmap. eauto.
        + apply StronglySorted_app_1_r in Hinc'. destruct ticks' as [|y ticks']; [set_solver|]. simpl in *.
          apply StronglySorted_inv in Hinc' as [_ Hy]. rewrite Forall_forall in Hy. apply elem_of_cons in Hx as [->|Hx]; [done|].
          apply N.lt_le_incl, Hy. apply list_elem_of_fmap. eauto.
      - assert (forall x, x ∈ dropped ++ ticks' -> (ad_seq x < k)%N) as Hall.
        { rewrite <- Hsplit. intros x [Hx|Hx]%elem_of_app; apply Hk; set_solver. }
        split; [intros (x & -> & Hx)%list_elem_of_fmap; specialize (Hall x); set_solver by lia|].
        destruct ticks' as [|y ticks']; simpl; [|apply N.lt_le_incl, Hall; set_solver].
        specialize (Hk d). specialize (Hk ltac:(set_solver)). lia. }
    rewrite decide_False by done. rewrite <- H8.
    + destruct (ds_claims s !! k); simpl; [|done]. by rewrite option_guard_True.
    + destruct Hk as [(x & -> & Hx)%list_elem_of_fmap|Hk].
      * assert (x ∈ ds_ticks s ++ [d]) as [Hx'|Hx'%list_elem_of_singleton]%elem_of_app by (rewrite Hsplit; set_solver).
        -- left. apply list_elem_of_fmap. eauto.
        -- right. intros y Hy. subst x. auto.
      * right. intros y Hy. apply Hk. set_solver.
Qed.

Lemma attribute_ok m b ops s c k paths :
  ring_ok m b ops s -> ring_ok m b (ops ++ [AttributeOp c k paths]) (attribute c k paths s).
Proof.
  intros [H1 H2 H3 H4 H5 H6 H7 H8].
  split; simpl; try done; rewrite ?recorded_snoc, ?app_nil_r; try done.
  - unfold attributed. rewrite foldl_app. simpl. by rewrite H7.
  - intros u Hu. unfold all_claims. rewrite foldl_app. simpl. fold (all_claims ops).
    destruct (decide (u = k)) as [->|Hne]; [rewrite !lookup_insert_eq, H8 by done; done|].
    rewrite !lookup_insert_ne by done. auto.
Qed.

Lemma run_store_ok m b ops : increasing (recorded ops) -> ring_ok m b ops (run_store m b ops).
Proof.
  induction ops as [|op ops IH] using rev_ind; intros Hinc.
  - split; try done. split; simpl; lia.
  - unfold run_store. rewrite foldl_app. simpl. fold (run_store m b ops). destruct op as [d|c k paths]; simpl.
    + apply record_ok; [|done]. apply IH. rewrite recorded_snoc in Hinc. by apply increasing_snoc in Hinc as [? _].
    + apply attribute_ok, IH. by rewrite recorded_snoc, app_nil_r in Hinc.
Qed.

Lemma find_tick_in k s d :
  NoDup (ad_seq <$> ds_ticks s) -> d ∈ ds_ticks s -> ad_seq d = k -> find_tick k s = Some d.
Proof.
  intros Hnd Hd Hk. unfold find_tick. destruct (list_find_elem_of (fun x => ad_seq x = k) _ d Hd Hk) as [[i y] E].
  rewrite E. apply list_find_Some in E as (Hy & Hyk & _). simpl. f_equal.
  apply list_elem_of_lookup_1 in Hd as [j Hj].
  assert (i = j) as ->; [|congruence]. eapply NoDup_lookup; [exact Hnd|rewrite list_lookup_fmap, Hy; simpl; by rewrite Hyk|].
  rewrite list_lookup_fmap, Hj. simpl. by rewrite Hk.
Qed.

Lemma find_tick_out k s : (forall d, d ∈ ds_ticks s -> ad_seq d <> k) -> find_tick k s = None.
Proof.
  intros Hd. unfold find_tick. destruct (list_find _ _) as [[i y]|] eqn:E; [|done].
  apply list_find_Some in E as (Hy & Hyk & _). exfalso. eapply Hd; [|exact Hyk]. by eapply list_elem_of_lookup_2.
Qed.

Lemma increasing_NoDup ds : increasing ds -> NoDup (ad_seq <$> ds).
Proof.
  unfold increasing. generalize (ad_seq <$> ds). induction 1 as [|x l Hl IH Hx]; constructor; [|done].
  rewrite Forall_forall in Hx. intros Hin. specialize (Hx _ Hin). lia.
Qed.

(** The delta served whole. *)
Definition whole (d : ActivityDelta) : ActivityDelta := mkDelta (ad_seq d) (ad_prev_seq d) (ad_base_commit d) (ad_patch d) [].

(** C21. Whatever is recorded, in increasing order, and attributed, the ring holds the longest run of the
    newest deltas that is within both bounds; a call is unknown exactly until it is attributed, its
    delta is served while it is in the ring and has aged out afterwards, and the claims on the ticks
    held are all that were made. *)
Theorem delta_ring_exact m b ops :
  increasing (recorded ops) ->
  let s := run_store m b ops in
  ds_ticks s `suffix_of` recorded ops /\ fits m b (ds_ticks s) /\
  (forall l, l `suffix_of` recorded ops -> fits m b l -> l `suffix_of` ds_ticks s) /\
  (forall c, attributed ops !! c = None -> forall scope, delta_for_call c scope s = Err (UnknownCall c)) /\
  (forall c d, attributed ops !! c = Some (ad_seq d) -> d ∈ recorded ops ->
     (d ∈ ds_ticks s -> delta_for_call c ScopeTick s = Ok (whole d)) /\
     (d ∉ ds_ticks s -> forall scope, delta_for_call c scope s = Err (AgedOut c (ad_seq d)))) /\
  (forall d, d ∈ ds_ticks s -> ds_claims s !! ad_seq d = all_claims ops !! ad_seq d).
Proof.
  intros Hinc s. destruct (run_store_ok m b ops Hinc) as [H1 H2 H3 H4 H5 H6 H7 H8]. fold s in H1, H2, H3, H4, H5, H6, H7, H8.
  pose proof (increasing_NoDup _ Hinc) as Hnd.
  assert (NoDup (ad_seq <$> ds_ticks s)) as Hnds.
  { destruct H4 as [p E]. rewrite E, fmap_app in Hnd. by apply NoDup_app in Hnd as (_ & _ & ?). }
  split_and!; [done|done|done| | |].
  - intros c Hc scope. unfold delta_for_call. by rewrite H7, Hc.
  - intros c d Hc Hd. unfold delta_for_call. rewrite H7, Hc. split.
    + intros Hin. by rewrite (find_tick_in _ s d).
    + intros Hout scope. rewrite find_tick_out; [done|]. intros x Hx Hk. apply Hout.
      assert (x ∈ recorded ops) as Hxr by (destruct H4 as [p ->]; set_solver).
      apply list_elem_of_lookup in Hxr as [i Hi]. apply list_elem_of_lookup in Hd as [j Hj].
      assert (i = j) as -> by (eapply NoDup_lookup; [exact Hnd|rewrite list_lookup_fmap, Hi; simpl; by rewrite Hk|by rewrite list_lookup_fmap, Hj]).
      congruence.
  - intros d Hd. apply H8. left. apply list_elem_of_fmap. eauto.
Qed.

(** ** Slices *)

Lemma claimed_paths_names k s section :
  names_any_in (claimed_paths k s) section = true <->
  exists c paths, (ds_claims s !! k ≫= fun m => m !! c) = Some paths /\ names_any_in paths section = true.
Proof.
  unfold names_any_in. setoid_rewrite existsb_exists. setoid_rewrite bool_decide_eq_true. unfold claimed_paths.
  assert (forall (claims : gmap string (list string)) name,
    name ∈ concat (snd <$> map_to_list claims) <-> exists c paths, claims !! c = Some paths /\ name ∈ paths) as Hin.
  { intros claims name. rewrite list_elem_of_In, in_concat. split.
    - intros (paths & Hp & Hn). apply list_elem_of_In, list_elem_of_fmap in Hp as ([c paths'] & -> & Hc%elem_of_map_to_list).
      exists c, paths'. by rewrite list_elem_of_In.
    - intros (c & paths & Hc & Hn). exists paths. rewrite <- !list_elem_of_In. split; [|done].
      apply list_elem_of_fmap. exists (c, paths). by rewrite elem_of_map_to_list. }
  destruct (ds_claims s !! k) as [claims|]; simpl; setoid_rewrite Hin; [naive_solver|].
  setoid_rewrite lookup_empty. naive_solver.
Qed.

Lemma delta_scope_ok c k tick s scope :
  ds_call_ticks s !! c = Some k -> find_tick k s = Some tick ->
  exists d, delta_for_call c scope s = Ok d /\ ad_seq d = ad_seq tick /\ ad_prev_seq d = ad_prev_seq tick /\ ad_base_commit d = ad_base_commit tick /\
    match scope with
    | ScopeTick => ad_patch d = ad_patch tick
    | ScopeCall => ad_patch d = (select_sections (ad_patch tick) (names_any_in (declared_by c k s))).1
    | ScopeResidual => ad_patch d = (select_sections (ad_patch tick) (fun section => negb (names_any_in (claimed_paths k s) section))).1
    end.
Proof.
  intros Hc Ht. unfold delta_for_call. rewrite Hc, Ht. destruct scope; [eexists; split; [done|]; done| |eexists; split; [done|]; done].
  destruct (select_sections _ _) as [patch paths]. eexists. split; [done|]. done.
Qed.


(** ** Frames *)

Lemma chunks_spec size b : 0 < size -> concat (chunks size b) = b /\ Forall (fun c => c <> [] /\ length c <= size) (chunks size b).
Proof.
  intros Hs. unfold chunks. assert (forall fuel b, length b <= fuel ->
    concat (chunks_go size fuel b) = b /\ Forall (fun c => c <> [] /\ length c <= size) (chunks_go size fuel b)) as H; [|by apply H].
  clear b. induction fuel as [|fuel IH]; intros [|x b] Hl; simpl in Hl; try done; [lia|].
  cbn [chunks_go]. destruct (IH (drop size (x :: b))) as [IH1 IH2]; [rewrite length_drop; simpl; lia|]. split.
  - simpl concat. rewrite IH1. apply take_drop.
  - constructor; [|done]. split; [by destruct size; [lia|]|]. rewrite length_take. lia.
Qed.

Definition describes (d : ActivityDelta) (c : AgentActivityDeltaChunk) : Prop :=
  c = mkChunk (dc_patch c) (ad_seq d) (ad_prev_seq d) (ad_base_commit d) (patch_len d) (ad_scoped_paths d).

Lemma inconsistency_same d f g : describes d f -> describes d g -> inconsistency f g = None.
Proof.
  unfold describes. intros -> ->. unfold inconsistency, described. simpl. by repeat (rewrite decide_False by (by intros [])).
Qed.

Lemma reassemble_described d frames :
  frames <> [] -> Forall (describes d) frames ->
  reassemble frames =
    if decide (length (concat (dc_patch <$> frames)) = length (ad_patch d))
    then Ok (mkDelta (ad_seq d) (ad_prev_seq d) (ad_base_commit d) (concat (dc_patch <$> frames)) (ad_scoped_paths d))
    else Err (Truncated (patch_len d) (N.of_nat (length (concat (dc_patch <$> frames))))).
Proof.
  destruct frames as [|f frames]; [done|]. intros _ [Hf Hfs]%Forall_cons. unfold reassemble.
  assert (omap (inconsistency f) frames = []) as ->.
  { clear -Hf Hfs. induction Hfs as [|g frames Hg Hfs IH]; [done|]. cbn [omap list_omap]. rewrite (inconsistency_same d f g) by done. exact IH. }
  cbn [head]. unfold describes in Hf. rewrite Hf. simpl. unfold patch_len. repeat case_decide; simplify_eq/=; try lia; done.
Qed.

#[local] Opaque HOST_DOCUMENT_FRAME_BYTES.
Lemma frame_bytes_pos : 0 < HOST_DOCUMENT_FRAME_BYTES.
Proof. apply Nat.ltb_lt. vm_compute. reflexivity. Qed.

Lemma frames_describe d :
  Forall (describes d) (activity_delta_frames d) /\ concat (dc_patch <$> activity_delta_frames d) = ad_patch d /\
  activity_delta_frames d <> [] /\ Forall (fun f => length (dc_patch f) <= HOST_DOCUMENT_FRAME_BYTES) (activity_delta_frames d) /\
  (ad_patch d <> [] -> Forall (fun f => dc_patch f <> []) (activity_delta_frames d)).
Proof.
  destruct (chunks_spec HOST_DOCUMENT_FRAME_BYTES (ad_patch d) frame_bytes_pos) as [Hc Hf].
  set (describe := fun patch => mkChunk patch (ad_seq d) (ad_prev_seq d) (ad_base_commit d) (patch_len d) (ad_scoped_paths d)).
  assert (exists cs, activity_delta_frames d = describe <$> cs /\ cs <> [] /\ concat cs = ad_patch d /\
    Forall (fun c => length c <= HOST_DOCUMENT_FRAME_BYTES) cs /\ (ad_patch d <> [] -> Forall (fun c => c <> []) cs)) as (cs & -> & Hne & Hcs & Hl & Hfull).
  { unfold activity_delta_frames. destruct (chunks _ _) as [|c cs] eqn:E.
    - exists [[]]. simpl in Hc. rewrite <- Hc. split_and!; [done|done|done|constructor; [simpl; lia|done]|done].
    - exists (c :: cs). split_and!; [done|done|done|eapply Forall_impl; [exact Hf|by intros ? [? ?]]|].
      intros _. eapply Forall_impl; [exact Hf|by intros ? [? ?]]. }
  split_and!.
  - by apply Forall_fmap, Forall_true.
  - rewrite <- list_fmap_compose. unfold compose. simpl. by rewrite list_fmap_id.
  - by destruct cs.
  - by apply Forall_fmap.
  - intros Hp. apply Forall_fmap. auto.
Qed.

Lemma concat_patches_shorter (fs frames : list AgentActivityDeltaChunk) :
  fs `sublist_of` frames -> fs <> frames -> Forall (fun f => dc_patch f <> []) frames ->
  length (concat (dc_patch <$> fs)) < length (concat (dc_patch <$> frames)).
Proof.
  intros Hsub. induction Hsub as [|x l k Hsub IH|x l k Hsub IH]; intros Hne Hf; [done| |]; apply Forall_cons in Hf as [Hx Hf]; rewrite !fmap_cons; cbn [concat]; rewrite !length_app.
  - assert (l <> k) by congruence. specialize (IH H Hf). lia.
  - assert (length (dc_patch x) > 0) by (destruct (dc_patch x); [done|simpl; lia]).
    destruct (decide (l = k)) as [->|Hlk]; [lia|]. specialize (IH Hlk Hf). lia.
Qed.

(** A delta is its frames: they are never none, each carries at most 48 KiB and reassembling them
    gives the delta back; a stream that lost any frames is refused. *)
Theorem delta_frames_roundtrip d :
  let frames := activity_delta_frames d in
  frames <> [] /\ Forall (fun f => length (dc_patch f) <= HOST_DOCUMENT_FRAME_BYTES) frames /\
  reassemble frames = Ok d /\
  (forall fs, fs `sublist_of` frames -> fs <> frames -> exists e, reassemble fs = Err e).
Proof.
  destruct (frames_describe d) as (Hd & Hc & Hne & Hl & Hfull). split_and!; [done|done| |].
  - rewrite (reassemble_described d) by done. rewrite Hc, decide_True by done. by destruct d.
  - intros fs Hsub Hfs. destruct fs as [|f fs]; [by exists NoFrames|]. assert (Forall (describes d) (f :: fs)) as Hds.
    { rewrite Forall_forall in *. intros x Hx. apply Hd. by eapply elem_of_sublist. }
    rewrite (reassemble_described d) by done. rewrite decide_False; [eauto|].
    destruct (decide (ad_patch d = [])) as [Hnil|Hnil].
    + exfalso. apply Hfs. unfold activity_delta_frames in *. rewrite Hnil in *. simpl in *.
      by apply sublist_cons_r in Hsub as [?%sublist_nil_r|(k & ? & ->%sublist_nil_r)].
    + pose proof (concat_patches_shorter _ _ Hsub Hfs (Hfull Hnil)) as Hlt. rewrite Hc in Hlt. lia.
Qed.

(** ** Examples *)

Definition line_break : string := bytes_text [newline].

(** A patch of two files. *)
Definition two_files : bytes :=
  text_bytes ("diff --git a/x b/x" +:+ line_break +:+ "--- a/x" +:+ line_break +:+ "+++ b/x" +:+ line_break +:+ "@@ -1 +1 @@" +:+ line_break +:+
    "-1" +:+ line_break +:+ "+2" +:+ line_break +:+ "diff --git a/y b/y" +:+ line_break +:+ "--- a/y" +:+ line_break +:+ "+++ b/y" +:+ line_break +:+
    "@@ -1 +1 @@" +:+ line_break +:+ "-1" +:+ line_break +:+ "+2" +:+ line_break).

Definition first_tick : ActivityDelta := mkDelta 1 0 "c" two_files [].
Definition second_tick : ActivityDelta := mkDelta 2 1 "c" [] [].

(** Two calls that edited the same file in one tick. *)
Definition shared_ops : list store_op := [RecordOp first_tick; AttributeOp "A" 1 ["x"]; AttributeOp "B" 1 ["x"]].

(** A call seen running in one tick and finished in the next. *)
Definition moved_ops : list store_op := [RecordOp first_tick; AttributeOp "A" 1 ["x"]; RecordOp second_tick; AttributeOp "A" 2 ["x"]; AttributeOp "B" 1 []].

Definition section_names (r : res DeltaLookupError ActivityDelta) : list (list string) :=
  match r with Ok d => ps_names <$> patch_sections (ad_patch d) | _ => [] end.

Lemma delta_ring_exact_witness :
  let s := run_store 64 1000 moved_ops in
  fits 64 1000 (ds_ticks s) /\ delta_for_call "B" ScopeTick s = Ok (whole first_tick) /\ delta_for_call "C" ScopeTick s = Err (UnknownCall "C").
Proof.
  destruct (delta_ring_exact 64 1000 moved_ops) as (_ & Hf & _ & Hu & Hd & _).
  { unfold increasing. simpl. repeat constructor. }
  split; [exact Hf|]. split; [|by apply Hu].
  apply (Hd "B" first_tick); [reflexivity|left|vm_compute; left].
Defined.


(** The slices of calls are not disjoint: a file two calls declared is in both. *)
Lemma shared_file_served_twice :
  section_names (delta_for_call "A" ScopeCall (run_store 64 1000 shared_ops)) = [["x"]] /\
  section_names (delta_for_call "B" ScopeCall (run_store 64 1000 shared_ops)) = [["x"]].
Proof. split; vm_compute; reflexivity. Qed.

(** The claim of a call that has moved on keeps its file out of the residual of the earlier tick, whose
    slice nobody is served any more. *)
Lemma moved_claim_reaches_nobody :
  let s := run_store 64 1000 moved_ops in
  section_names (delta_for_call "B" ScopeResidual s) = [["y"]] /\ section_names (delta_for_call "B" ScopeCall s) = [] /\
  section_names (delta_for_call "A" ScopeCall s) = [] /\ section_names (delta_for_call "A" ScopeTick s) = [] /\
  section_names (delta_for_call "B" ScopeTick s) = [["x"]; ["y"]].
Proof. vm_compute. repeat split. Qed.
