(* ===== verification/SessionRoom.v ===== *)
(** * The poll loop of a session's room

    [src/packages/tddy-daemon-livekit/src/session_room.rs] with the activity log it tails
    ([tddy-changeset/src/agent_activity.rs]) and the measurement it takes
    ([tddy-daemon-extensions/src/split_rooms.rs]). One tick is two steps, [tick_stage] up to
    the publication of the checkout's uncommitted state and [tick_finish] from there, so that
    a client may fetch in between. What git, the metadata service and the file system answer
    is the tick's environment [tick_env]; a tree is known by its name. The room's stop flag,
    log output and the counting of failed metadata writes for it are left out. *)

From Stdlib Require Import Strings.Byte.
From S2P Require Import Prelude Text Framing Utf8 Graph ActivityDelta.

(** ** The activity log *)

Definition AGENT_ACTIVITY_READ_CAP : nat := 500.
Definition STATUS_RUNNING : string := "running".

Record AgentActivityRecord := mkActivity {
  ar_call_id : string;
  ar_tool_name : string;
  ar_input : json;
  ar_status : string;
  ar_result : json;
  ar_error_message : string;
  ar_started_unix_ms : N;
  ar_completed_unix_ms : N;
  ar_source : string;
  ar_head_commit : string;
  ar_activity_seq : N;
  ar_changed_paths : list string;
}.

Definition with_seq (seq : N) (r : AgentActivityRecord) : AgentActivityRecord :=
  mkActivity (ar_call_id r) (ar_tool_name r) (ar_input r) (ar_status r) (ar_result r) (ar_error_message r) (ar_started_unix_ms r)
    (ar_completed_unix_ms r) (ar_source r) (ar_head_commit r) seq (ar_changed_paths r).

(** The rows of the log, [None] for a line that is no row: the first position of a call, its last row. *)
Definition coalesce_row (acc : list string * gmap string AgentActivityRecord) (row : option AgentActivityRecord)
    : list string * gmap string AgentActivityRecord :=
  match row with
  | None => acc
  | Some r =>
      (match acc.2 !! ar_call_id r with None => acc.1 ++ [ar_call_id r] | Some _ => acc.1 end, <[ar_call_id r := r]> acc.2)
  end.

Definition read_all_agent_activity (rows : list (option AgentActivityRecord)) : list AgentActivityRecord :=
  let '(order, by_call) := foldl coalesce_row ([], ∅) rows in
  omap (fun call_id => by_call !! call_id) order.

Definition read_agent_activity (rows : list (option AgentActivityRecord)) : list AgentActivityRecord :=
  let records := read_all_agent_activity rows in
  drop (length records - AGENT_ACTIVITY_READ_CAP) records.

(** ** Measurements and events *)

Record WorktreeSnapshot := mkSnapshot {
  ws_head_commit : string;
  ws_branch : string;
  ws_changed_paths : list string;
  ws_changed_files : N;
  ws_lines_added : Z;
  ws_lines_removed : Z;
  ws_untracked_files : N;
  ws_wip_tree : string;
}.

#[global] Instance WorktreeSnapshot_eq_dec : EqDecision WorktreeSnapshot.
Proof. solve_decision. Defined.

Definition with_tree (tree : string) (s : WorktreeSnapshot) : WorktreeSnapshot :=
  mkSnapshot (ws_head_commit s) (ws_branch s) (ws_changed_paths s) (ws_changed_files s) (ws_lines_added s) (ws_lines_removed s)
    (ws_untracked_files s) tree.

Definition tracked_diff_differs (a b : WorktreeSnapshot) : bool :=
  bool_decide (ws_changed_paths a <> ws_changed_paths b) || bool_decide (ws_changed_files a <> ws_changed_files b) ||
  bool_decide (ws_lines_added a <> ws_lines_added b) || bool_decide (ws_lines_removed a <> ws_lines_removed b).

Inductive WorktreeActivityKind := KindUnspecified | KindCommit | KindFilesChanged.

Record WorktreeActivityEvent := mkEvent {
  we_kind : WorktreeActivityKind;
  we_seq : N;
  we_at_unix_ms : N;
  we_head_commit : string;
  we_changed_files : N;
  we_lines_added : Z;
  we_lines_removed : Z;
}.

Definition activity_event (kind : WorktreeActivityKind) (s : WorktreeSnapshot) (seq at_unix_ms : N) : WorktreeActivityEvent :=
  mkEvent kind seq at_unix_ms (ws_head_commit s) (ws_changed_files s) (ws_lines_added s) (ws_lines_removed s).

Definition activity_between (prev next : WorktreeSnapshot) (next_seq at_unix_ms : N) : list WorktreeActivityEvent :=
  let moved := bool_decide (ws_head_commit prev <> ws_head_commit next) in
  (if moved then [activity_event KindCommit next next_seq at_unix_ms] else []) ++
  (if tracked_diff_differs prev next
   then [activity_event KindFilesChanged next (if moved then next_seq + 1 else next_seq)%N at_unix_ms] else []).

(** [diff] is what git answers for two trees. *)
Definition tick_delta (diff : string -> string -> option bytes) (prev next : WorktreeSnapshot) (seq : N) : option ActivityDelta :=
  if bool_decide (ws_wip_tree prev = "") || bool_decide (ws_wip_tree next = "") || bool_decide (ws_wip_tree prev = ws_wip_tree next)
  then None
  else if decide (ws_head_commit next = "") then None
  else
    patch ← diff (ws_wip_tree prev) (ws_wip_tree next);
    Some (mkDelta seq (seq - 1) (ws_head_commit next) patch []).

(** ** Attributing calls *)

(** Which calls went out, and whether in their last state. *)
Notation BroadcastActivityRows := (gmap string bool) (only parsing).

Definition is_terminal_row (r : AgentActivityRecord) : bool := bool_decide (ar_status r <> STATUS_RUNNING).

Definition already_broadcast (rows : BroadcastActivityRows) (r : AgentActivityRecord) : bool :=
  match rows !! ar_call_id r with
  | Some broadcast_terminal => broadcast_terminal || negb (is_terminal_row r)
  | None => false
  end.

Definition mark_broadcast (r : AgentActivityRecord) (rows : BroadcastActivityRows) : BroadcastActivityRows :=
  <[ar_call_id r := is_terminal_row r]> rows.

Inductive TickAttributionTarget :=
| ThisTicksDelta (seq : N)
| AnEmptyDelta (next_seq : N) (base_commit : string)
| NoCheckout.

Record TickActivity := mkTickActivity { ta_broadcast : list AgentActivityRecord; ta_empty_delta : option ActivityDelta }.

Definition empty_delta (seq : N) (base_commit : string) : ActivityDelta := mkDelta seq (seq - 1) base_commit [] [].

Definition tick_activity (rows : BroadcastActivityRows) (log : list AgentActivityRecord) (target : TickAttributionTarget) : TickActivity :=
  match filter (fun r => already_broadcast rows r = false) log with
  | [] => mkTickActivity [] None
  | broadcast =>
      let '(seq, empty) :=
        match target with
        | ThisTicksDelta seq => (seq, None)
        | AnEmptyDelta next_seq base_commit =>
            if decide (base_commit <> "") then (next_seq, Some (empty_delta next_seq base_commit)) else (0%N, None)
        | NoCheckout => (0%N, None)
        end in
      mkTickActivity (with_seq seq <$> broadcast) empty
  end.

(** ** The loop *)

Inductive Measurement :=
| Taken (snapshot : WorktreeSnapshot) (attachments : list string)
| Unavailable
| Gone.

Record SessionRoomPoll := mkPoll {
  rp_checkout : bool;
  rp_previous : WorktreeSnapshot;
  rp_previous_wip_tree : string;
  rp_previous_attachments : list string;
  rp_next_seq : N;
  rp_last_delta_seq : option N;
  rp_deltas : SessionDeltaStore;
  rp_broadcast_rows : BroadcastActivityRows;
  (** The session's published ref in the repository: the parent of its commit, and its tree. *)
  rp_wip_ref : option (string * string);
}.

(** A room just opened over the checkout it measured. *)
Definition new_poll (checkout : bool) (measured : WorktreeSnapshot) (attachments : list string) (wip_ref : option (string * string)) : SessionRoomPoll :=
  mkPoll checkout measured "" attachments 0 None (new_store SESSION_DELTA_RING_TICKS SESSION_DELTA_RING_BYTES) ∅ wip_ref.

(** What a tick meets. The trees are the names [git write-tree] gives, empty when it fails; a task that
    panics has staged nothing. *)
Record tick_env := mkTickEnv {
  te_log : option (list AgentActivityRecord);
  te_measure : Measurement;
  te_seed_tree : string;
  te_seed_publishes : bool;
  te_metadata_written : bool;
  te_wip_tree : string;
  te_diff : string -> string -> option bytes;
  te_publishes : bool;
  te_released : bool;
  te_panics : bool;
  te_now : N;
}.

Definition with_wip_ref (wip_ref : option (string * string)) (p : SessionRoomPoll) : SessionRoomPoll :=
  mkPoll (rp_checkout p) (rp_previous p) (rp_previous_wip_tree p) (rp_previous_attachments p) (rp_next_seq p) (rp_last_delta_seq p)
    (rp_deltas p) (rp_broadcast_rows p) wip_ref.

Definition with_previous_tree (tree : string) (p : SessionRoomPoll) : SessionRoomPoll :=
  mkPoll (rp_checkout p) (rp_previous p) tree (rp_previous_attachments p) (rp_next_seq p) (rp_last_delta_seq p) (rp_deltas p)
    (rp_broadcast_rows p) (rp_wip_ref p).

Definition with_delta (delta : ActivityDelta) (p : SessionRoomPoll) : SessionRoomPoll :=
  mkPoll (rp_checkout p) (rp_previous p) (rp_previous_wip_tree p) (rp_previous_attachments p) (rp_next_seq p) (Some (ad_seq delta))
    (record_delta delta (rp_deltas p)) (rp_broadcast_rows p) (rp_wip_ref p).

(** [publish_wip_ref], the answer telling whether the ref was moved. *)
Definition publish_wip_ref (publishes : bool) (head_commit wip_tree : string) (p : SessionRoomPoll) : bool * SessionRoomPoll :=
  if publishes then (true, with_wip_ref (Some (head_commit, wip_tree)) p) else (false, p).

Definition seed_uncommitted_state (measured : WorktreeSnapshot) (e : tick_env) (p : SessionRoomPoll) : SessionRoomPoll :=
  if negb (rp_checkout p) || bool_decide (te_seed_tree e = "") || te_released e then p
  else
    let '(published, p) := publish_wip_ref (te_seed_publishes e) (ws_head_commit measured) (te_seed_tree e) p in
    if published then with_previous_tree (te_seed_tree e) p else p.

(** The blocking part of [record_uncommitted_state]: the tree it staged and the delta it took, [None]
    without a checkout and when the task panicked. *)
Definition stage_uncommitted_state (measured : WorktreeSnapshot) (e : tick_env) (p : SessionRoomPoll)
    : option (string * option ActivityDelta) * SessionRoomPoll :=
  if negb (rp_checkout p) || te_panics e then (None, p)
  else
    let previous := with_tree (rp_previous_wip_tree p) (rp_previous p) in
    let next := with_tree (te_wip_tree e) measured in
    let delta := tick_delta (te_diff e) previous next (next_tick (rp_last_delta_seq p)) in
    let p :=
      if bool_decide (te_wip_tree e = "") || te_released e then p
      else (publish_wip_ref (te_publishes e) (ws_head_commit next) (te_wip_tree e) p).2 in
    (Some (te_wip_tree e, delta), p).

(** The rest of it: the tree to diff from next, and the delta kept. *)
Definition keep_uncommitted_state (produced : option (string * option ActivityDelta)) (p : SessionRoomPoll) : option N * SessionRoomPoll :=
  match produced with
  | None => (None, p)
  | Some (wip_tree, delta) =>
      let p := if decide (wip_tree = "") then p else with_previous_tree wip_tree p in
      match delta with
      | None => (None, p)
      | Some delta => (Some (ad_seq delta), with_delta delta p)
      end
  end.

Inductive announcement :=
| Unchanged
| HeldBack
| Announcing (measured : WorktreeSnapshot) (attachments : list string) (events : list WorktreeActivityEvent)
    (produced : option (string * option ActivityDelta)).

Record staged_tick := mkStaged {
  sg_log : option (list AgentActivityRecord);
  sg_head_commit : string;
  sg_announcement : announcement;
}.

(** A tick up to the publication of what it staged; [None] when there is no tick to finish. *)
Definition tick_stage (e : tick_env) (p : SessionRoomPoll) : option staged_tick * SessionRoomPoll :=
  match te_measure e with
  | Unavailable | Gone => (None, p)
  | Taken snapshot attachments =>
      let p := if decide (rp_previous_wip_tree p = "") then seed_uncommitted_state snapshot e p else p in
      let '(announcement, p) :=
        if bool_decide (snapshot <> rp_previous p) || bool_decide (attachments <> rp_previous_attachments p) then
          if te_metadata_written e then
            let events := activity_between (rp_previous p) snapshot (rp_next_seq p) (te_now e) in
            let '(produced, p) := stage_uncommitted_state snapshot e p in
            (Announcing snapshot attachments events produced, p)
          else (HeldBack, p)
        else (Unchanged, p) in
      (Some (mkStaged (te_log e) (ws_head_commit snapshot) announcement), p)
  end.

Definition attribution_target (recorded_delta_seq : option N) (head_commit : string) (p : SessionRoomPoll) : TickAttributionTarget :=
  if negb (rp_checkout p) then NoCheckout
  else match recorded_delta_seq with
       | Some seq => ThisTicksDelta seq
       | None => AnEmptyDelta (next_tick (rp_last_delta_seq p)) head_commit
       end.

Definition attribute_record (s : SessionDeltaStore) (r : AgentActivityRecord) : SessionDeltaStore :=
  attribute (ar_call_id r) (ar_activity_seq r) (ar_changed_paths r) s.

Definition broadcast_new_activity (log : option (list AgentActivityRecord)) (recorded_delta_seq : option N) (head_commit : string)
    (p : SessionRoomPoll) : list AgentActivityRecord * SessionRoomPoll :=
  match log with
  | None => ([], p)
  | Some log =>
      let decided := tick_activity (rp_broadcast_rows p) log (attribution_target recorded_delta_seq head_commit p) in
      match ta_broadcast decided with
      | [] => ([], p)
      | broadcast =>
          let store := match ta_empty_delta decided with Some delta => record_delta delta (rp_deltas p) | None => rp_deltas p end in
          let store := foldl attribute_record store broadcast in
          let last := match ta_empty_delta decided with Some delta => Some (ad_seq delta) | None => rp_last_delta_seq p end in
          (broadcast,
           mkPoll (rp_checkout p) (rp_previous p) (rp_previous_wip_tree p) (rp_previous_attachments p) (rp_next_seq p) last store
             (foldl (fun rows r => mark_broadcast r rows) (rp_broadcast_rows p) broadcast) (rp_wip_ref p))
      end
  end.

(** The rest of a tick, with the events and the records it broadcasts. *)
Definition tick_finish (t : staged_tick) (p : SessionRoomPoll) : list WorktreeActivityEvent * list AgentActivityRecord * SessionRoomPoll :=
  match sg_announcement t with
  | Unchanged | HeldBack =>
      let '(records, p) := broadcast_new_activity (sg_log t) None (sg_head_commit t) p in ([], records, p)
  | Announcing measured attachments events produced =>
      let '(delta_seq, p) := keep_uncommitted_state produced p in
      let p := mkPoll (rp_checkout p) measured (rp_previous_wip_tree p) attachments (rp_next_seq p + N.of_nat (length events))%N
                 (rp_last_delta_seq p) (rp_deltas p) (rp_broadcast_rows p) (rp_wip_ref p) in
      let '(records, p) := broadcast_new_activity (sg_log t) delta_seq (sg_head_commit t) p in
      (events, records, p)
  end.
