(* ===== verification/SessionMirror.v ===== *)
(** * The mirror of a session's checkout

    [src/packages/tddy-session-sync/src/]: [mirror.rs], [apply.rs], [sync.rs],
    [sync/delta.rs] and [sync/git.rs], and the call that serves it deltas,
    [stream_agent_activity_delta] of [tddy-session-activity/src/service/rpc.rs]. The handlers
    of the loop are cut where they wait for the daemon: a record is decided and its delta
    fetched, the delta applied, the mirror restored. What may fail on the way is the
    environment [sync_env]; git is the class [MirrorGit]. Timeouts, log output and the room
    itself are left out, and the marker file is kept apart from the files of the checkout. *)

From Stdlib Require Import Strings.Byte.
From S2P Require Import Prelude Text Framing Utf8 RpcStatus ActivityDelta SessionRoom.

(** ** Data *)

Inductive ReconcileReason :=
| SequenceGap (expected found : N)
| BaseCommitMismatch (expected found : string)
| PatchRejected (detail : string).

Inductive ApplyOutcome :=
| Applied
| AlreadyApplied
| NeedsReconcile (reason : ReconcileReason).

Record MirrorMarker := mkMarker {
  mm_session_id : string;
  mm_daemon_instance_id : string;
  mm_project : string;
  mm_last_seq : N;
  mm_last_head_commit : string;
}.

#[global] Instance MirrorMarker_eq_dec : EqDecision MirrorMarker.
Proof. solve_decision. Defined.

Inductive MirrorError :=
| NotOwned
| ForeignSession (expected_session_id found_session_id : string)
| MirrorGitFailed (command stderr : string)
| MirrorIo (reason : string).

Inductive MirrorSyncError :=
| SyncMirror (e : MirrorError)
| SyncGit (command stderr : string)
| GitUnavailable (command reason : string)
| SyncRpc (method code message : string)
| Silent (method : string)
| Undecodable (topic reason : string)
| SyncDelta (e : DeltaError)
| RoomClosed.

Notation tree := (gmap string string) (only parsing).

(** The destination: its marker file, its repository, its files, and the ref its fetches land in (the
    parent of the commit, its tree). *)
Record MirrorDisk := mkDisk {
  md_exists : bool;
  md_marker : option bytes;
  md_git : bool;
  md_remote : option string;
  md_head : option string;
  md_index : gset string;
  md_files : tree;
  md_wip : option (string * string);
}.

(** Files after the index moved from [index] to [target]: tracked paths follow it, others stay. *)
Definition checkout_files (index : gset string) (target files : tree) : tree :=
  target ∪ filter (fun kv => kv.1 ∉ index) files.

(** ** Git commands *)

Definition ORIGIN : string := "origin".
Definition LOCAL_WIP_REF : string := "refs/tddy/wip".
Definition REMOTE_GIT_SSH_COMMAND : string := "tddy-remote-git-repo".

Inductive DaemonToken := AccessToken (token : string) | RefreshToken (token : string).

Record GitTransport := mkTransport { gt_daemon_url : string; gt_token : DaemonToken }.

Record GitInvocation := mkInvocation { gi_args : list string; gi_env : list (string * string) }.

Definition join_with (sep : string) (l : list string) : string :=
  match l with
  | [] => ""
  | x :: l => foldl (fun acc y => acc +:+ sep +:+ y) x l
  end.

Definition command_line (i : GitInvocation) : string := "git " +:+ join_with " " (gi_args i).

Definition transport_vars (t : GitTransport) : list (string * string) :=
  let '(token_var, token) := match gt_token t with AccessToken v => ("TDDY_SESSION_TOKEN", v) | RefreshToken v => ("TDDY_REFRESH_TOKEN", v) end in
  [("GIT_SSH_COMMAND", REMOTE_GIT_SSH_COMMAND); ("TDDY_DAEMON_URL", gt_daemon_url t); (token_var, token)].

Record SessionAddress := mkAddress {
  sa_session_id : string;
  sa_project_id : string;
  sa_worktree_path : string;
  sa_daemon_instance_id : string;
}.

Definition remote_url (daemon_instance_id project : string) : string := daemon_instance_id +:+ ":" +:+ project.
Definition wip_ref_name (session_id : string) : string := "refs/tddy/session/" +:+ session_id +:+ "/wip".

Definition fetch_args (session_id : string) : list string := ["fetch"; ORIGIN; "+" +:+ wip_ref_name session_id +:+ ":" +:+ LOCAL_WIP_REF].
Definition reset_args : list string := ["reset"; "--hard"; LOCAL_WIP_REF +:+ "^"].
Definition read_tree_args : list string := ["read-tree"; "-u"; "--reset"; LOCAL_WIP_REF].
Definition init_args : list string := ["init"; "--quiet"].
Definition remote_add_args (url : string) : list string := ["remote"; "add"; ORIGIN; url].

Definition reconcile_commands (session_id : string) (t : GitTransport) : list GitInvocation :=
  [mkInvocation (fetch_args session_id) (transport_vars t); mkInvocation reset_args []; mkInvocation read_tree_args []].

Definition first_attach_commands (address : SessionAddress) (t : GitTransport) : list GitInvocation :=
  [mkInvocation init_args []; mkInvocation (remote_add_args (remote_url (sa_daemon_instance_id address) (sa_project_id address))) []] ++
  reconcile_commands (sa_session_id address) t.

(** ** Git, and the marker's text *)

(** Trees and commits by name, the diff of two trees, [git apply] on the files of a checkout, and the
    five commands the mirror is moved with, given what the session's ref is at the remote. *)
Class MirrorGit := {
  tree_of : string -> tree;
  commit_tree : string -> string;
  git_diff : string -> string -> bytes;
  git_apply : bytes -> tree -> string + tree;
  git_run : list string -> option (string * string) -> MirrorDisk -> string + MirrorDisk;
  (** What [git rev-parse HEAD] says without a commit. *)
  unborn_head : string;
  marker_text : MirrorMarker -> bytes;
  marker_parse : bytes -> string + MirrorMarker;
  (** A patch leaves files alone that the two trees agree on, and turns the one into the other. *)
  apply_untouched : forall a b f files files', git_apply (git_diff a b) files = inr files' -> tree_of a !! f = tree_of b !! f -> files' !! f = files !! f;
  apply_exact : forall a b f files files', git_apply (git_diff a b) files = inr files' -> files !! f = tree_of a !! f -> files' !! f = tree_of b !! f;
  (** It is taken when every file it changes is as in the tree it was taken from, and no bytes are no patch. *)
  apply_clean : forall a b files, tree_of a <> tree_of b -> (forall f, tree_of a !! f <> tree_of b !! f -> files !! f = tree_of a !! f) ->
    exists files', git_apply (git_diff a b) files = inr files';
  apply_empty : forall files, exists e, git_apply [] files = inl e;
  run_init : forall remote d d', git_run init_args remote d = inr d' ->
    d' = mkDisk (md_exists d) (md_marker d) true (md_remote d) (md_head d) (md_index d) (md_files d) (md_wip d);
  run_remote_add : forall url remote d d', git_run (remote_add_args url) remote d = inr d' ->
    md_remote d = None /\ d' = mkDisk (md_exists d) (md_marker d) (md_git d) (Some url) (md_head d) (md_index d) (md_files d) (md_wip d);
  run_fetch : forall session_id remote d d', git_run (fetch_args session_id) remote d = inr d' ->
    is_Some (md_remote d) /\ exists wip, remote = Some wip /\
    d' = mkDisk (md_exists d) (md_marker d) (md_git d) (md_remote d) (md_head d) (md_index d) (md_files d) (Some wip);
  run_reset : forall remote d d', git_run reset_args remote d = inr d' ->
    exists parent wip, md_wip d = Some (parent, wip) /\ parent <> "" /\
    d' = mkDisk (md_exists d) (md_marker d) (md_git d) (md_remote d) (Some parent) (dom (tree_of (commit_tree parent)))
           (checkout_files (md_index d) (tree_of (commit_tree parent)) (md_files d)) (md_wip d);
  run_read_tree : forall remote d d', git_run read_tree_args remote d = inr d' ->
    exists parent wip, md_wip d = Some (parent, wip) /\
    d' = mkDisk (md_exists d) (md_marker d) (md_git d) (md_remote d) (md_head d) (dom (tree_of wip))
           (checkout_files (md_index d) (tree_of wip) (md_files d)) (md_wip d);
  marker_roundtrip : forall m, marker_parse (marker_text m) = inr m;
}.

(** What fails: a command that cannot be run, a marker that cannot be opened or is only written in part,
    a caller the daemon does not know, a stream that fails or falls silent. *)
Record sync_env := mkSyncEnv {
  se_rev_parse : option MirrorError;
  se_check : option MirrorError;
  se_apply : option MirrorError;
  se_command : list string -> option MirrorSyncError;
  se_rev_parse_after : option MirrorError;
  se_marker : option (option nat * string);
  se_stream : option MirrorSyncError;
  se_user : option Status;
}.

Section Mirror.
Context `{MirrorGit}.

(** ** The mirror *)

Definition set_marker (text : bytes) (d : MirrorDisk) : MirrorDisk :=
  mkDisk (md_exists d) (Some text) (md_git d) (md_remote d) (md_head d) (md_index d) (md_files d) (md_wip d).

Definition set_worktree_files (files : tree) (d : MirrorDisk) : MirrorDisk :=
  mkDisk (md_exists d) (md_marker d) (md_git d) (md_remote d) (md_head d) (md_index d) files (md_wip d).

Definition write_marker (failure : option (option nat * string)) (m : MirrorMarker) (d : MirrorDisk) : res MirrorError () * MirrorDisk :=
  match failure with
  | None => (Ok (), set_marker (marker_text m) d)
  | Some (None, reason) => (Err (MirrorIo reason), d)
  | Some (Some written, reason) => (Err (MirrorIo reason), set_marker (take written (marker_text m)) d)
  end.

Definition read_marker (d : MirrorDisk) : res MirrorError (option MirrorMarker) :=
  match md_marker d with
  | None => Ok None
  | Some text => match marker_parse text with inr m => Ok (Some m) | inl reason => Err (MirrorIo reason) end
  end.

Definition is_adoptable (d : MirrorDisk) : bool :=
  negb (md_exists d) || (bool_decide (md_marker d = None) && negb (md_git d) && bool_decide (md_files d = ∅)).

Definition open_or_create (failure : option (option nat * string)) (marker : MirrorMarker) (d : MirrorDisk) : res MirrorError MirrorMarker * MirrorDisk :=
  match read_marker d with
  | Err e => (Err e, d)
  | Panic => (Panic, d)
  | Ok (Some persisted) =>
      if decide (mm_session_id persisted <> mm_session_id marker)
      then (Err (ForeignSession (mm_session_id marker) (mm_session_id persisted)), d) else (Ok persisted, d)
  | Ok None =>
      if is_adoptable d then
        let d := mkDisk true (md_marker d) (md_git d) (md_remote d) (md_head d) (md_index d) (md_files d) (md_wip d) in
        match write_marker failure marker d with
        | (Ok _, d) => (Ok marker, d)
        | (Err e, d) => (Err e, d)
        | (Panic, d) => (Panic, d)
        end
      else (Err NotOwned, d)
  end.

Definition head_commit (failure : option MirrorError) (d : MirrorDisk) : res MirrorError string :=
  match failure, md_head d with
  | Some e, _ => Err e
  | None, Some head => Ok head
  | None, None => Err (MirrorGitFailed "rev-parse HEAD" unborn_head)
  end.

Definition with_seq_marker (seq : N) (m : MirrorMarker) : MirrorMarker :=
  mkMarker (mm_session_id m) (mm_daemon_instance_id m) (mm_project m) seq (mm_last_head_commit m).

(** [Mirror::apply]: the outcome, the marker in memory and the destination. *)
Definition apply_delta (e : sync_env) (delta : ActivityDelta) (m : MirrorMarker) (d : MirrorDisk) : res MirrorError ApplyOutcome * MirrorMarker * MirrorDisk :=
  if decide (ad_seq delta <= mm_last_seq m)%N then (Ok AlreadyApplied, m, d)
  else if decide (ad_prev_seq delta <> mm_last_seq m) then (Ok (NeedsReconcile (SequenceGap (mm_last_seq m + 1) (ad_seq delta))), m, d)
  else
    match head_commit (se_rev_parse e) d with
    | Err err => (Err err, m, d)
    | Panic => (Panic, m, d)
    | Ok head =>
        if decide (ad_base_commit delta <> head) then (Ok (NeedsReconcile (BaseCommitMismatch head (ad_base_commit delta))), m, d)
        else
          match se_check e, git_apply (ad_patch delta) (md_files d) with
          | Some err, _ => (Err err, m, d)
          | None, inl detail => (Ok (NeedsReconcile (PatchRejected detail)), m, d)
          | None, inr files =>
              match se_apply e with
              | Some err => (Err err, m, d)
              | None =>
                  let m := with_seq_marker (ad_seq delta) m in
                  match write_marker (se_marker e) m (set_worktree_files files d) with
                  | (Ok _, d) => (Ok Applied, m, d)
                  | (Err err, d) => (Err err, m, d)
                  | (Panic, d) => (Panic, m, d)
                  end
              end
          end
    end.

Definition record_restored (e : sync_env) (applied_seq : N) (m : MirrorMarker) (d : MirrorDisk) : res MirrorError () * MirrorMarker * MirrorDisk :=
  match head_commit (se_rev_parse_after e) d with
  | Err err => (Err err, m, d)
  | Panic => (Panic, m, d)
  | Ok head =>
      let m := mkMarker (mm_session_id m) (mm_daemon_instance_id m) (mm_project m) applied_seq head in
      let '(r, d) := write_marker (se_marker e) m d in (r, m, d)
  end.

(** ** Decisions *)

Inductive IgnoreReason :=
| NoTickYet
| TickAlreadyApplied (seq last_seq : N)
| Unaddressable (seq : N).

Inductive RecordDecision :=
| FetchDelta (call_id : string) (seq : N)
| IgnoreRecord (reason : IgnoreReason).

Definition decide_record (record : AgentActivityRecord) (last_seq : N) : RecordDecision :=
  if decide (ar_activity_seq record = NO_TICK) then IgnoreRecord NoTickYet
  else if decide (ar_activity_seq record <= last_seq)%N then IgnoreRecord (TickAlreadyApplied (ar_activity_seq record) last_seq)
  else if decide (ar_call_id record = "") then IgnoreRecord (Unaddressable (ar_activity_seq record))
  else FetchDelta (ar_call_id record) (ar_activity_seq record).

Inductive WorktreeDecision := Reconcile | IgnoreEvent.

Definition decide_worktree (event : WorktreeActivityEvent) : WorktreeDecision :=
  match we_kind event with
  | KindCommit => Reconcile
  | KindFilesChanged | KindUnspecified => IgnoreEvent
  end.

(** ** The daemon's answer *)

(** [user] is the refusal of a caller whose token names no user, given before anything is looked up. *)
Definition stream_agent_activity_delta (user : option Status) (store : option SessionDeltaStore) (session_id call_id : string) (scope : DeltaScope)
    : res Status (list AgentActivityDeltaChunk) :=
  let call_id := trim call_id in
  if user is Some refused then Err refused
  else if decide (call_id = "") then Err (mk_rpc_status CodeInvalidArgument "call_id is required; there is no whole-worktree delta")
  else
    match store with
    | None => Err (mk_rpc_status CodeNotFound ("no session room is hosted here for session " +:+ session_id +:+ ", so it has no deltas"))
    | Some store =>
        match delta_for_call call_id scope store with
        | Ok delta => Ok (activity_delta_frames delta)
        | Err (UnknownCall _) =>
            Err (mk_rpc_status CodeNotFound ("unknown call " +:+ call_id +:+ ": this daemon has no record of it in session " +:+ session_id))
        | Err (AgedOut _ seq) =>
            Err (mk_rpc_status CodeNotFound ("delta for call " +:+ call_id +:+ " (tick " +:+ pretty seq +:+
              ") has aged out of this session's ring; reconcile from the WIP ref"))
        | Panic => Panic
        end
    end.

(** ** The syncer *)

Definition STREAM_DELTA_METHOD : string := "StreamAgentActivityDelta".

(** Where a handler waits: nowhere, with a delta fetched for a record's tick, or about to restore. *)
Inductive sync_phase :=
| Idle
| Fetched (seq : N) (delta : ActivityDelta)
| Restoring (applied_seq : N).

Record Syncer := mkSyncer {
  sy_address : SessionAddress;
  sy_transport : GitTransport;
  sy_marker : MirrorMarker;
  sy_phase : sync_phase;
}.

Definition with_phase (phase : sync_phase) (s : Syncer) : Syncer := mkSyncer (sy_address s) (sy_transport s) (sy_marker s) phase.
Definition with_marker (m : MirrorMarker) (phase : sync_phase) (s : Syncer) : Syncer := mkSyncer (sy_address s) (sy_transport s) m phase.

(** [Syncer::open]. *)
Definition sync_open (failure : option (option nat * string)) (address : SessionAddress) (t : GitTransport) (d : MirrorDisk) : res MirrorSyncError Syncer * MirrorDisk :=
  let marker := mkMarker (sa_session_id address) (sa_daemon_instance_id address) (sa_project_id address) 0 "" in
  match open_or_create failure marker d with
  | (Ok m, d) => (Ok (mkSyncer address t m Idle), d)
  | (Err e, d) => (Err (SyncMirror e), d)
  | (Panic, d) => (Panic, d)
  end.

Definition run_git (e : sync_env) (remote : option (string * string)) (i : GitInvocation) (d : MirrorDisk) : res MirrorSyncError () * MirrorDisk :=
  match se_command e (gi_args i) with
  | Some err => (Err err, d)
  | None => match git_run (gi_args i) remote d with inr d => (Ok (), d) | inl stderr => (Err (SyncGit (command_line i) stderr), d) end
  end.

Fixpoint run_all (e : sync_env) (remote : option (string * string)) (commands : list GitInvocation) (d : MirrorDisk) : res MirrorSyncError () * MirrorDisk :=
  match commands with
  | [] => (Ok (), d)
  | i :: commands =>
      match run_git e remote i d with
      | (Ok _, d) => run_all e remote commands d
      | failed => failed
      end
  end.

(** [record_restored] after the commands, the phase going back to idle. *)
Definition restore_recorded (e : sync_env) (applied_seq : N) (r : res MirrorSyncError () * MirrorDisk) (s : Syncer) : res MirrorSyncError () * Syncer * MirrorDisk :=
  match r with
  | (Ok _, d) =>
      match record_restored e applied_seq (sy_marker s) d with
      | (Ok _, m, d) => (Ok (), with_marker m Idle s, d)
      | (Err err, m, d) => (Err (SyncMirror err), with_marker m Idle s, d)
      | (Panic, m, d) => (Panic, with_marker m Idle s, d)
      end
  | (failed, d) => (failed, s, d)
  end.

Definition first_attach_if_empty (e : sync_env) (remote : option (string * string)) (s : Syncer) (d : MirrorDisk) : res MirrorSyncError () * Syncer * MirrorDisk :=
  if md_git d then (Ok (), s, d)
  else restore_recorded e (mm_last_seq (sy_marker s)) (run_all e remote (first_attach_commands (sy_address s) (sy_transport s)) d) s.

Definition mirror_reconcile (e : sync_env) (remote : option (string * string)) (applied_seq : N) (s : Syncer) (d : MirrorDisk) : res MirrorSyncError () * Syncer * MirrorDisk :=
  restore_recorded e applied_seq (run_all e remote (reconcile_commands (sa_session_id (sy_address s)) (sy_transport s)) d) s.

Definition fetch_delta (e : sync_env) (store : option SessionDeltaStore) (call_id : string) (s : Syncer) : res MirrorSyncError ActivityDelta :=
  match se_stream e with
  | Some err => Err err
  | None =>
      match stream_agent_activity_delta (se_user e) store (sa_session_id (sy_address s)) call_id ScopeTick with
      | Err status => Err (SyncRpc STREAM_DELTA_METHOD (Code_as_str (st_code status)) (st_message status))
      | Ok frames => match reassemble frames with Ok delta => Ok delta | Err err => Err (SyncDelta err) | Panic => Panic end
      | Panic => Panic
      end
  end.

(** [on_activity] up to the delta it fetched. *)
Definition on_activity (e : sync_env) (store : option SessionDeltaStore) (record : AgentActivityRecord) (s : Syncer) : res MirrorSyncError Syncer :=
  match decide_record record (mm_last_seq (sy_marker s)) with
  | IgnoreRecord _ => Ok s
  | FetchDelta call_id seq =>
      match fetch_delta e store call_id s with
      | Ok delta => Ok (with_phase (Fetched seq delta) s)
      | Err err => Err err
      | Panic => Panic
      end
  end.

(** The rest of it, up to the restore it may ask for. *)
Definition on_delta (e : sync_env) (seq : N) (delta : ActivityDelta) (s : Syncer) (d : MirrorDisk) : res MirrorSyncError () * Syncer * MirrorDisk :=
  match apply_delta e delta (sy_marker s) d with
  | (Ok Applied, m, d) | (Ok AlreadyApplied, m, d) => (Ok (), with_marker m Idle s, d)
  | (Ok (NeedsReconcile _), m, d) => (Ok (), with_marker m (Restoring seq) s, d)
  | (Err err, m, d) => (Err (SyncMirror err), with_marker m Idle s, d)
  | (Panic, m, d) => (Panic, with_marker m Idle s, d)
  end.

Definition on_worktree (event : WorktreeActivityEvent) (s : Syncer) : Syncer :=
  match decide_worktree event with
  | Reconcile => with_phase (Restoring (mm_last_seq (sy_marker s))) s
  | IgnoreEvent => s
  end.

End Mirror.
