(* ===== verification/SessionRoomSpec.v ===== *)
(** * What a room's ticks amount to

    The history of a room is the list of the trees its ticks ended in, the ghost state [trees]:
    tick [k]'s delta leads from the tree of tick [k - 1] to its own, or changed nothing, and the
    published ref is the newest tree. *)

From Stdlib Require Import Strings.Byte.
From S2P Require Import Prelude Text Framing Utf8 ActivityDelta ActivityDeltaSpec SessionRoom SessionMirror.

Section Room.
Context `{MirrorGit}.

Definition ticks_taken (p : SessionRoomPoll) : N := default 0%N (rp_last_delta_seq p).

Definition staged_produced (t : option staged_tick) : option (string * option ActivityDelta) :=
  match sg_announcement <$> t with Some (Announcing _ _ _ produced) => produced | _ => None end.

Definition staged_delta (t : option staged_tick) : option ActivityDelta := staged_produced t ≫= snd.

(** The newest tree that was staged. *)
Definition current_tree (t : option staged_tick) (p : SessionRoomPoll) : string :=
  match staged_produced t with
  | Some (tree, _) => if decide (tree = "") then rp_previous_wip_tree p else tree
  | None => rp_previous_wip_tree p
  end.

(** A delta leads from the tree before its tick to the tree after it, or is empty. *)
Definition delta_ok (trees : list string) (d : ActivityDelta) : Prop :=
  exists k, ad_seq d = N.of_nat (S k) /\ ad_prev_seq d = N.of_nat k /\ S k < length trees /\
    (ad_patch d = [] \/ exists a b, trees !! k = Some a /\ trees !! S k = Some b /\ a <> "" /\ b <> "" /\ ad_patch d = git_diff a b).

Record room_ok (p : SessionRoomPoll) (t : option staged_tick) (trees : list string) : Prop := {
  ro_checkout : rp_checkout p = true;
  ro_last : last trees = Some (current_tree t p);
  ro_count : N.of_nat (length trees) = (ticks_taken p + 1 + if staged_delta t then 1 else 0)%N;
  ro_staged : forall d, staged_delta t = Some d -> delta_ok trees d /\ ad_seq d = (ticks_taken p + 1)%N;
  ro_deltas : forall d, d ∈ ds_ticks (rp_deltas p) -> delta_ok trees d;
  ro_ref : if decide (current_tree t p = "") then rp_wip_ref p = None else exists parent, rp_wip_ref p = Some (parent, current_tree t p) }.

(** The last tree replaced, and the trees known after each half of a tick. *)
Definition set_last (tree : string) (trees : list string) : list string := take (length trees - 1) trees ++ [tree].

Definition stage_trees (t : option staged_tick) (p : SessionRoomPoll) (trees : list string) : list string :=
  let trees := set_last (rp_previous_wip_tree p) trees in
  match staged_produced t with
  | Some (tree, Some _) => trees ++ [tree]
  | Some (tree, None) => if decide (tree = "") then trees else set_last tree trees
  | None => trees
  end.

Definition finish_trees (p : SessionRoomPoll) (trees : list string) : list string :=
  if decide (N.of_nat (length trees) = ticks_taken p) then trees ++ [rp_previous_wip_tree p] else trees.

(** A tick whose git work was done: HEAD was read, diffs are git's and the staged tree was published.
    Measurements, metadata, the log, and the writing of trees may fail, and the seeding too. *)
Definition healthy (e : tick_env) : Prop :=
  te_released e = false /\ te_publishes e = true /\ (forall a b, te_diff e a b = Some (git_diff a b)) /\
  forall snapshot attachments, te_measure e = Taken snapshot attachments -> ws_head_commit snapshot <> "".

(** ** Histories *)

Lemma set_last_same trees tree : last trees = Some tree -> set_last tree trees = trees.
Proof.
  intros (l & ->)%last_Some. unfold set_last. rewrite length_app. simpl. by rewrite Nat.add_sub, take_app_length.
Qed.

Lemma set_last_spec trees old tree :
  last trees = Some old -> exists l, trees = l ++ [old] /\ set_last tree trees = l ++ [tree].
Proof.
  intros (l & ->)%last_Some. exists l. split; [done|]. unfold set_last. rewrite length_app. simpl. by rewrite Nat.add_sub, take_app_length.
Qed.

(** Trees that have names stay. *)
Definition keeps (trees trees' : list string) : Prop := forall k a, trees !! k = Some a -> a <> "" -> trees' !! k = Some a.

Lemma keeps_refl trees : keeps trees trees.
Proof. by intros k a. Qed.

Lemma keeps_trans a b c : keeps a b -> keeps b c -> keeps a c.
Proof. intros H1 H2 k x Hx Hne. apply H2; [|done]. by apply H1. Qed.

Lemma keeps_snoc trees tree : keeps trees (trees ++ [tree]).
Proof. intros k a Hk _. by apply lookup_app_l_Some. Qed.

Lemma keeps_set_last trees tree : last trees = Some "" -> keeps trees (set_last tree trees) /\ length (set_last tree trees) = length trees.
Proof.
  intros Hl. destruct (set_last_spec trees "" tree Hl) as (l & -> & ->). rewrite !length_app. split; [|done].
  intros k a Hk Hne. apply lookup_app_Some in Hk as [Hk|[Hle Hk]]; [by apply lookup_app_l_Some|].
  apply list_lookup_singleton_Some in Hk as [_ <-]. done.
Qed.

Lemma delta_ok_keeps trees trees' d : keeps trees trees' -> length trees <= length trees' -> delta_ok trees d -> delta_ok trees' d.
Proof.
  intros Hk Hl (k & Hs & Hp & Hlt & Hpatch). exists k. split_and!; [done|done|lia|].
  destruct Hpatch as [?|(a & b & Ha & Hb & Hna & Hnb & Hpat)]; [by left|right]. exists a, b. split_and!; auto.
Qed.

Lemma next_tick_taken p : (ticks_taken p < u64_max)%N -> next_tick (rp_last_delta_seq p) = (ticks_taken p + 1)%N.
Proof. unfold ticks_taken, next_tick, FIRST_TICK. destruct (rp_last_delta_seq p); simpl; lia. Qed.

Lemma current_idle p : current_tree None p = rp_previous_wip_tree p.
Proof. done. Qed.

(** ** The first half of a tick *)

Definition grows (trees trees' : list string) : Prop := keeps trees trees' /\ length trees <= length trees'.

Lemma grows_refl trees : grows trees trees.
Proof. split; [apply keeps_refl|done]. Qed.

Lemma room_ok_idle p trees : room_ok p None trees -> last trees = Some (rp_previous_wip_tree p) /\ N.of_nat (length trees) = (ticks_taken p + 1)%N.
Proof. intros [? Hl Hc ? ? ?]. simpl in *. split; [done|lia]. Qed.

Lemma seed_ok p trees snapshot e :
  room_ok p None trees -> rp_previous_wip_tree p = "" -> te_released e = false ->
  let p' := seed_uncommitted_state snapshot e p in
  let trees' := set_last (rp_previous_wip_tree p') trees in
  room_ok p' None trees' /\ grows trees trees'.
Proof.
  intros Hok Hprev Hrel. destruct (room_ok_idle _ _ Hok) as [Hlast _]. rewrite Hprev in Hlast. simpl.
  assert (set_last "" trees = trees) as Hsame by (by apply set_last_same).
  unfold seed_uncommitted_state. destruct Hok as [H1 H2 H3 H4 H5 H6]. rewrite H1, Hrel. simpl.
  destruct (decide (te_seed_tree e = "")) as [Et|Et]; [rewrite bool_decide_true by done|rewrite bool_decide_false by done]; simpl.
  { rewrite Hprev, Hsame. split; [by split|apply grows_refl]. }
  unfold publish_wip_ref. destruct (te_seed_publishes e); simpl; [|rewrite Hprev, Hsame; split; [by split|apply grows_refl]].
  destruct (keeps_set_last trees (te_seed_tree e) Hlast) as [Hk Hlen]. split; [|split; [done|lia]].
  destruct (set_last_spec trees "" (te_seed_tree e) Hlast) as (l & Etrees & Eset). split; simpl.
  - done.
  - unfold current_tree. simpl. by rewrite Eset, last_snoc.
  - by rewrite Hlen, H3.
  - done.
  - intros d Hd. eapply delta_ok_keeps; [exact Hk|lia|auto].
  - unfold current_tree. simpl. rewrite decide_False by done. eauto.
Qed.

Lemma stage_ok p trees snapshot e :
  room_ok p None trees -> healthy e -> (N.of_nat (length trees) < u64_max)%N -> ws_head_commit snapshot <> "" ->
  let '(produced, p') := stage_uncommitted_state snapshot e p in
  rp_previous_wip_tree p' = rp_previous_wip_tree p /\
  forall log head attachments events,
    let t := Some (mkStaged log head (Announcing snapshot attachments events produced)) in
    room_ok p' t (stage_trees t p' trees) /\ grows trees (stage_trees t p' trees).
Proof.
  intros Hok (Hrel & Hpub & Hdiff & _) Hbound Hhead. destruct (room_ok_idle _ _ Hok) as [Hlast Hlen]. pose proof Hok as [H1 H2 H3 H4 H5 H6].
  assert (set_last (rp_previous_wip_tree p) trees = trees) as Hsame by (by apply set_last_same).
  unfold stage_uncommitted_state. rewrite H1, Hrel, Hpub. simpl negb. rewrite orb_false_l, orb_false_r.
  destruct (te_panics e); [split; [done|]; intros; unfold stage_trees; simpl; rewrite Hsame; split; [by split|apply grows_refl]|].
  unfold tick_delta. simpl. rewrite next_tick_taken by lia.
  destruct (decide (te_wip_tree e = "")) as [Et|Et].
  { rewrite !(bool_decide_true (te_wip_tree e = "")) by done. rewrite orb_true_r. simpl. split; [done|]. intros. unfold stage_trees. simpl.
    rewrite decide_True by done. rewrite Hsame. split; [|apply grows_refl].
    split; simpl; try done; unfold current_tree; simpl; rewrite (decide_True (P := te_wip_tree e = "")) by done; done. }
  rewrite !(bool_decide_false (te_wip_tree e = "")) by done. rewrite orb_false_r. simpl. split; [done|]. intros log head attachments events.
  unfold stage_trees. simpl. rewrite (decide_False (P := ws_head_commit snapshot = "")), Hdiff by done. simpl. rewrite Hsame.
  destruct (bool_decide (rp_previous_wip_tree p = "") || bool_decide (rp_previous_wip_tree p = te_wip_tree e)) eqn:Eq; simpl.
  - rewrite decide_False by done.
    assert (keeps trees (set_last (te_wip_tree e) trees) /\ length (set_last (te_wip_tree e) trees) = length trees) as [Hk Hle].
    { apply orb_true_iff in Eq as [E|E]; apply bool_decide_eq_true in E.
      - rewrite E in Hlast. by apply keeps_set_last.
      - rewrite E in Hlast. rewrite set_last_same by done. split; [apply keeps_refl|done]. }
    split; [|split; [done|lia]]. destruct (set_last_spec trees _ (te_wip_tree e) Hlast) as (l & Etrees & Eset).
    split; simpl; try done; unfold current_tree; simpl; rewrite ?(decide_False (P := te_wip_tree e = "")) by done.
    + by rewrite Eset, last_snoc.
    + rewrite Hle. unfold staged_delta. simpl. unfold ticks_taken in *. simpl. lia.
    + intros d Hd. eapply delta_ok_keeps; [exact Hk|lia|auto].
    + eauto.
  - apply orb_false_iff in Eq as [E1%bool_decide_eq_false E2%bool_decide_eq_false].
    split; [|split; [apply keeps_snoc|rewrite length_app; simpl; lia]].
    split; simpl; try done; unfold current_tree, staged_delta; simpl; rewrite ?(decide_False (P := te_wip_tree e = "")) by done.
    + by rewrite last_snoc.
    + rewrite length_app. simpl. unfold ticks_taken in *. simpl. lia.
    + intros d [= <-]. split; [|done]. exists (N.to_nat (ticks_taken p)). simpl. rewrite length_app. simpl.
      split_and!; [lia|lia|lia|right]. exists (rp_previous_wip_tree p), (te_wip_tree e). split_and!; try done.
      * apply lookup_app_l_Some. rewrite last_lookup in Hlast. rewrite <- Hlast. f_equal. lia.
      * apply list_lookup_middle. lia.
    + intros d Hd. eapply delta_ok_keeps; [apply keeps_snoc|rewrite length_app; simpl; lia|auto].
    + eauto.
Qed.

Lemma tick_stage_ok p trees e t p' :
  room_ok p None trees -> healthy e -> (N.of_nat (length trees) < u64_max)%N -> tick_stage e p = (t, p') ->
  room_ok p' t (stage_trees t p' trees) /\ grows trees (stage_trees t p' trees).
Proof.
  intros Hok Hh Hbound. destruct (room_ok_idle _ _ Hok) as [Hlast _].
  assert (stage_trees None p trees = trees) as Hsame by (unfold stage_trees; simpl; by apply set_last_same).
  unfold tick_stage. destruct (te_measure e) as [snapshot attachments| |] eqn:Em;
    [|intros [= <- <-]; rewrite Hsame; split; [done|apply grows_refl]..].
  set (p1 := if decide (rp_previous_wip_tree p = "") then seed_uncommitted_state snapshot e p else p).
  assert (room_ok p1 None (set_last (rp_previous_wip_tree p1) trees) /\ grows trees (set_last (rp_previous_wip_tree p1) trees)) as [Hok1 [Hk1 Hl1]].
  { unfold p1. case_decide as Ep; [apply seed_ok; [done|done|apply Hh]|]. rewrite set_last_same by done. split; [done|apply grows_refl]. }
  set (trees1 := set_last (rp_previous_wip_tree p1) trees) in *.
  assert (set_last (rp_previous_wip_tree p1) trees1 = trees1) as Hsame1 by (apply set_last_same; by apply room_ok_idle in Hok1 as [? _]).
  assert (length trees1 = length trees) as Hlen1.
  { destruct (set_last_spec _ _ (rp_previous_wip_tree p1) Hlast) as (l & E1 & E2). unfold trees1. rewrite E2, E1, !length_app. done. }
  assert (forall log ann, ann = Unchanged \/ ann = HeldBack -> let t := Some (mkStaged log (ws_head_commit snapshot) ann) in
    room_ok p1 t (stage_trees t p1 trees) /\ grows trees (stage_trees t p1 trees)) as Hidle.
  { intros log ann Ha. assert (staged_produced (Some (mkStaged log (ws_head_commit snapshot) ann)) = None) as Epr by (destruct Ha as [-> | ->]; done).
    simpl. unfold stage_trees. rewrite Epr. fold trees1. split; [|done]. destruct Hok1 as [? ? ? ? ? ?].
    split; unfold current_tree, staged_delta in *; rewrite ?Epr; done. }
  destruct (bool_decide _ || bool_decide _); [|intros [= <- <-]; apply Hidle; auto].
  destruct (te_metadata_written e); [|intros [= <- <-]; apply Hidle; auto].
  pose proof (stage_ok p1 trees1 snapshot e Hok1 Hh) as Hst.
  destruct (stage_uncommitted_state snapshot e p1) as [produced p2]. destruct Hst as [Hprev Hst]; [lia|by eapply Hh|].
  intros [= <- <-].
  specialize (Hst (te_log e) (ws_head_commit snapshot) attachments (activity_between (rp_previous p1) snapshot (rp_next_seq p1) (te_now e))) as [Hok2 [Hk2 Hl2]].
  assert (forall t, stage_trees t p2 trees1 = stage_trees t p2 trees) as Est.
  { intros t0. unfold stage_trees. rewrite Hprev, Hsame1. done. }
  rewrite Est in *. split; [done|]. split; [by eapply keeps_trans|lia].
Qed.

Lemma tick_stage_last e p t p' : tick_stage e p = (t, p') -> rp_last_delta_seq p' = rp_last_delta_seq p.
Proof.
  unfold tick_stage. destruct (te_measure e) as [snapshot attachments| |]; [|by intros [= <- <-]..].
  set (p1 := if decide _ then _ else p).
  assert (rp_last_delta_seq p1 = rp_last_delta_seq p) as <-.
  { unfold p1. case_decide; [|done]. unfold seed_uncommitted_state, publish_wip_ref. destruct (_ || te_released e); [done|]. by destruct (te_seed_publishes e). }
  destruct (bool_decide _ || bool_decide _); [|by intros [= <- <-]]. destruct (te_metadata_written e); [|by intros [= <- <-]].
  destruct (stage_uncommitted_state snapshot e p1) as [produced p2] eqn:Es. intros [= <- <-].
  unfold stage_uncommitted_state, publish_wip_ref in Es. destruct (negb (rp_checkout p1) || te_panics e); simplify_eq; [done|].
  destruct (_ || te_released e); [done|]. by destruct (te_publishes e).
Qed.

(** ** The second half *)

Lemma record_delta_ticks d s : forall x, x ∈ ds_ticks (record_delta d s) -> x ∈ ds_ticks s \/ x = d.
Proof.
  intros x. unfold record_delta. destruct (evict_ticks _ _ _ _ _) as [[ticks retained] claims] eqn:E. simpl. intros Hx.
  assert (forall m b l r c l' r' c', evict_ticks m b l r c = (l', r', c') -> l' `suffix_of` l) as Hs.
  { clear. intros m b l. induction l as [|y l IH]; intros r c l' r' c'; simpl; [by intros [= <- <- <-]|].
    case_match; [intros ?%IH; by apply suffix_cons_r|by intros [= <- <- <-]]. }
  apply Hs in E as [k E]. assert (x ∈ ds_ticks s ++ [d]) as Hin by (rewrite E; set_solver). set_solver.
Qed.

Lemma attribute_ticks records s : ds_ticks (foldl attribute_record s records) = ds_ticks s.
Proof. revert s. induction records as [|r records IH]; intros s; simpl; [done|]. by rewrite IH. Qed.

Lemma tick_activity_seq rows log target r :
  r ∈ ta_broadcast (tick_activity rows log target) ->
  ar_activity_seq r = match target with
    | ThisTicksDelta seq => seq
    | AnEmptyDelta seq base => if decide (base <> "") then seq else 0%N
    | NoCheckout => 0%N end.
Proof.
  unfold tick_activity. destruct (filter _ log) as [|r0 l]; simpl; [set_solver|].
  destruct target as [seq|seq base|]; simpl; try (case_decide; simpl); intros Hr;
    (change (with_seq ?q r0 :: (with_seq ?q <$> l)) with (with_seq q <$> (r0 :: l)) in Hr || idtac);
    apply elem_of_cons in Hr as [->|(r' & -> & _)%list_elem_of_fmap]; done.
Qed.

Lemma broadcast_ok log delta_seq head p trees records p' :
  room_ok p None trees -> (N.of_nat (length trees) < u64_max)%N -> default 0%N delta_seq = 0%N \/ delta_seq = Some (ticks_taken p) ->
  broadcast_new_activity log delta_seq head p = (records, p') ->
  room_ok p' None (finish_trees p' trees) /\ grows trees (finish_trees p' trees) /\ (ticks_taken p <= ticks_taken p')%N /\
  (forall r, r ∈ records -> (ar_activity_seq r <= ticks_taken p')%N).
Proof.
  intros Hok Hbound Hseq. destruct (room_ok_idle _ _ Hok) as [Hlast Hlen]. pose proof Hok as [H1 H2 H3 H4 H5 H6].
  assert (forall q, rp_last_delta_seq q = rp_last_delta_seq p -> finish_trees q trees = trees) as Hfin.
  { intros q Hq. unfold finish_trees. rewrite decide_False; [done|]. unfold ticks_taken in *. rewrite Hq. lia. }
  unfold broadcast_new_activity. destruct log as [log|]; [|intros [= <- <-]; rewrite Hfin by done; split_and!; [done|apply grows_refl|done|set_solver]].
  pose proof (tick_activity_seq (rp_broadcast_rows p) log (attribution_target delta_seq head p)) as Hr.
  unfold attribution_target in *. rewrite H1 in *. simpl negb in *. cbn iota in *.
  set (target := match delta_seq with Some seq => ThisTicksDelta seq | None => AnEmptyDelta (next_tick (rp_last_delta_seq p)) head end) in *.
  destruct (tick_activity (rp_broadcast_rows p) log target) as [broadcast empty] eqn:Eta. simpl in *.
  destruct broadcast as [|r0 broadcast]; [intros [= <- <-]; rewrite Hfin by done; split_and!; [done|apply grows_refl|done|set_solver]|].
  intros [= <- <-].
  assert (empty = None \/ (delta_seq = None /\ head <> "" /\ empty = Some (empty_delta (next_tick (rp_last_delta_seq p)) head))) as He.
  { unfold tick_activity in Eta. destruct (filter _ log); [simplify_eq|]. unfold target in Eta.
    destruct delta_seq; simplify_eq/=; [by left|]. case_decide; simplify_eq/=; [by right|by left]. }
  destruct He as [->|(-> & Hhead & ->)].
  - match goal with |- context [finish_trees ?q trees] => assert (ticks_taken q = ticks_taken p) as Et by done end.
    rewrite Hfin by done. split_and!; [|apply grows_refl|done|].
    + split; try done. intros d Hd. apply H5. simpl in Hd. by rewrite attribute_ticks in Hd.
    + intros r Hin. rewrite (Hr r Hin), Et. unfold target. destruct delta_seq as [n|]; simpl in *; [destruct Hseq as [->|[= ->]]; lia|].
      case_decide as Hh; [|lia]. exfalso. unfold tick_activity in Eta. destruct (filter _ log); [simplify_eq|]. unfold target in Eta.
      by rewrite decide_True in Eta.
  - rewrite next_tick_taken by lia. set (q := mkPoll _ _ _ _ _ _ _ _ _).
    assert (ticks_taken q = (ticks_taken p + 1)%N) as Eq by done.
    assert (finish_trees q trees = trees ++ [rp_previous_wip_tree p]) as Ef by (unfold finish_trees; rewrite decide_True by (rewrite Eq; lia); done).
    rewrite Ef. split_and!; [|split; [apply keeps_snoc|rewrite length_app; simpl; lia]|lia|].
    + split; simpl; try done.
      * by rewrite last_snoc.
      * rewrite length_app. simpl. unfold staged_delta. simpl. rewrite Eq. lia.
      * rewrite attribute_ticks. intros d [Hd|Hd]%record_delta_ticks.
        -- eapply delta_ok_keeps; [apply keeps_snoc|rewrite length_app; simpl; lia|auto].
        -- subst d. exists (N.to_nat (ticks_taken p)). simpl. rewrite length_app. simpl. split_and!; [lia|lia|lia|by left].
    + intros r Hin. rewrite (Hr r Hin), Eq. unfold target. rewrite next_tick_taken by lia. destruct (decide (head <> "")); lia.
Qed.

Lemma tick_finish_ok t p trees events records p' :
  room_ok p (Some t) trees -> (N.of_nat (length trees) < u64_max)%N -> tick_finish t p = (events, records, p') ->
  room_ok p' None (finish_trees p' trees) /\ grows trees (finish_trees p' trees) /\ (ticks_taken p <= ticks_taken p')%N /\
  (forall r, r ∈ records -> (ar_activity_seq r <= ticks_taken p')%N).
Proof.
  intros Hok Hbound. pose proof Hok as [H1 H2 H3 H4 H5 H6]. unfold tick_finish.
  destruct (sg_announcement t) as [| |measured attachments evs produced] eqn:Ea.
  1,2: assert (staged_produced (Some t) = None) as Epr by (unfold staged_produced; simpl; by rewrite Ea);
    destruct (broadcast_new_activity _ _ _ _) as [rs q] eqn:Eb; intros [= <- <- <-];
    eapply (broadcast_ok _ None); [|done|by left|exact Eb];
    unfold current_tree, staged_delta in *; rewrite Epr in *; by split.
  assert (staged_produced (Some t) = produced) as Epr by (unfold staged_produced; simpl; by rewrite Ea).
  destruct (keep_uncommitted_state produced p) as [delta_seq p1] eqn:Ek.
  set (p2 := mkPoll (rp_checkout p1) measured _ _ _ _ _ _ _).
  destruct (broadcast_new_activity _ _ _ p2) as [rs q] eqn:Eb. intros [= <- <- <-].
  assert (room_ok p2 None trees /\ (default 0%N delta_seq = 0%N \/ delta_seq = Some (ticks_taken p2)) /\ (ticks_taken p <= ticks_taken p2)%N) as (Hok2 & Hseq & Hle).
  { assert (last trees = Some (current_tree None p2)) as Hl2.
    { rewrite H2. unfold p2, current_tree. rewrite Epr. unfold keep_uncommitted_state in Ek.
      destruct produced as [[tree [delta|]]|]; simplify_eq/=; repeat case_decide; simplify_eq/=; try done. }
    assert (rp_wip_ref p2 = rp_wip_ref p /\ current_tree None p2 = current_tree (Some t) p /\ rp_checkout p2 = true) as (Hw & Hc & Hco).
    { split_and!; [|congruence|]; unfold p2; simpl; unfold keep_uncommitted_state in Ek;
        destruct produced as [[tree [delta|]]|]; simplify_eq/=; repeat case_decide; simplify_eq/=; try done. }
    assert (ro : forall n, ticks_taken p2 = n -> N.of_nat (length trees) = (n + 1)%N -> (forall d, d ∈ ds_ticks (rp_deltas p2) -> delta_ok trees d) -> room_ok p2 None trees).
    { intros n Hn Hlen Hds. split; [done|done|simpl; lia|done|done|]. rewrite Hc, Hw. done. }
    unfold staged_delta in *. rewrite Epr in *. unfold keep_uncommitted_state in Ek.
    destruct produced as [[tree [delta|]]|]; simplify_eq/=.
    - destruct (H4 delta eq_refl) as [Hd Hs]. assert (ticks_taken p2 = ad_seq delta) as Ht by done.
      split_and!; [|right; by rewrite Ht|lia]. eapply ro; [exact Ht|lia|].
      intros d [Hin|Hin]%record_delta_ticks; [|by subst]. apply H5. by case_decide.
    - assert (ticks_taken p2 = ticks_taken p) as Ht by (unfold p2, ticks_taken; simpl; by case_decide).
      split_and!; [|by left|lia]. eapply ro; [exact Ht|lia|]. intros d Hd. apply H5. unfold p2 in Hd. simpl in Hd. by case_decide.
    - split_and!; [|by left|done]. eapply ro; [done|unfold p2, ticks_taken in *; simpl; lia|done]. }
  destruct (broadcast_ok _ _ _ _ _ _ _ Hok2 Hbound Hseq Eb) as (? & ? & ? & ?). split_and!; [done|done|lia|done].
Qed.

End Room.

(** ** The log *)

Definition rows_of (id : string) (rows : list (option AgentActivityRecord)) : list AgentActivityRecord :=
  filter (fun r => ar_call_id r = id) (omap (fun row => row) rows).

Lemma coalesce_rows rows :
  let acc := foldl coalesce_row ([], ∅) rows in
  NoDup acc.1 /\ (forall id, id ∈ acc.1 <-> is_Some (acc.2 !! id)) /\ (forall id, acc.2 !! id = last (rows_of id rows)).
Proof.
  induction rows as [|row rows IH] using rev_ind; simpl.
  - split_and!; [apply NoDup_nil_2| |done]. intros id. rewrite lookup_empty. split; [set_solver|by intros []].
  - rewrite foldl_app. simpl. set (acc := foldl coalesce_row ([], ∅) rows) in *. destruct IH as (H1 & H2 & H3).
    assert (forall id, rows_of id (rows ++ [row]) = rows_of id rows ++ match row with Some r => if decide (ar_call_id r = id) then [r] else [] | None => [] end) as Hrows.
    { intros id. unfold rows_of. rewrite omap_app, filter_app. f_equal. destruct row as [r|]; [|done]. simpl. by rewrite filter_cons, filter_nil. }
    destruct row as [r|]; simpl; [|split_and!; [done|done|]; intros id; by rewrite Hrows, app_nil_r].
    split_and!.
    + destruct (acc.2 !! ar_call_id r) eqn:E; [done|]. apply NoDup_app. split_and!; [done| |apply NoDup_singleton].
      intros id Hid ->%list_elem_of_singleton. apply H2 in Hid as [? ?]. congruence.
    + intros id. destruct (decide (id = ar_call_id r)) as [->|Hne].
      * rewrite lookup_insert_eq. split; [eauto|]. intros _. destruct (acc.2 !! ar_call_id r) eqn:E; [apply H2; eauto|set_solver].
      * rewrite lookup_insert_ne by done. rewrite <- H2. destruct (acc.2 !! ar_call_id r); set_solver.
    + intros id. rewrite Hrows. destruct (decide (id = ar_call_id r)) as [->|Hne].
      * by rewrite lookup_insert_eq, decide_True, last_snoc.
      * by rewrite lookup_insert_ne, decide_False, app_nil_r.
Qed.

(** The log is read as one record per call, the last one written. *)
Theorem activity_log_latest rows r :
  let records := read_all_agent_activity rows in
  NoDup (ar_call_id <$> records) /\ (r ∈ records <-> last (rows_of (ar_call_id r) rows) = Some r) /\
  length (read_agent_activity rows) <= AGENT_ACTIVITY_READ_CAP /\ read_agent_activity rows `suffix_of` records.
Proof.
  unfold read_agent_activity, read_all_agent_activity. pose proof (coalesce_rows rows) as (H1 & H2 & H3).
  destruct (foldl coalesce_row ([], ∅) rows) as [order by_call]. simpl in *.
  assert (forall id x, by_call !! id = Some x -> ar_call_id x = id) as Hid.
  { intros id x. rewrite H3. intros Hx%last_Some_elem_of. by apply list_elem_of_filter in Hx as [? _]. }
  assert (forall l : list string, (forall id, id ∈ l -> is_Some (by_call !! id)) -> ar_call_id <$> omap (fun id => by_call !! id) l = l) as Hids.
  { induction l as [|id l IH]; intros Hl; [done|]. cbn [omap list_omap].
    destruct (Hl id) as [x Hx]; [set_solver|]. rewrite Hx, fmap_cons, (Hid _ _ Hx). f_equal. apply IH. set_solver. }
  split_and!.
  - rewrite Hids; [done|]. intros id. apply H2.
  - rewrite list_elem_of_omap, <- H3. split; [intros (id & _ & Hx); by rewrite (Hid _ _ Hx)|].
    intros Hx. exists (ar_call_id r). split; [apply H2; eauto|done].
  - rewrite length_drop. lia.
  - apply suffix_drop.
Qed.
