(* ===== verification/SessionSyncSpec.v ===== *)
(** * A mirror never claims a tick it does not have

    The room, one mirror and what is between them as a step relation: halves of the room's
    ticks, records and events delivered in any order, any number of times or never, and the
    mirror's handlers cut where they wait. Ghost state: the trees of the room's ticks; the
    files a patch was merged into although they were not what it was taken from ([w_mixed]);
    and the files a restore left behind ([w_left]). *)

From Stdlib Require Import Strings.Byte.
From S2P Require Import Prelude Text Framing Utf8 RpcStatus ActivityDelta ActivityDeltaSpec SessionRoom SessionMirror SessionRoomSpec.

Section Sync.
Context `{MirrorGit}.

Record world := mkWorld {
  w_room : SessionRoomPoll;
  w_staged : option staged_tick;
  w_records : list AgentActivityRecord;
  w_events : list WorktreeActivityEvent;
  w_client : option (Syncer * MirrorDisk);
  w_trees : list string;
  w_mixed : gset string;
  w_left : gset string;
}.

Definition new_world (measured : WorktreeSnapshot) (attachments : list string) : world :=
  mkWorld (new_poll true measured attachments None) None [] [] None [""] ∅ ∅.

(** The files the patch of tick [seq] changed to something other than they are in the tick's tree. *)
Definition mixed_paths (trees : list string) (seq : N) (files files' : tree) : gset string :=
  filter (fun f => files' !! f <> files !! f /\ files' !! f <> tree_of (default "" (trees !! N.to_nat seq)) !! f) (dom files ∪ dom files').

(** The files a restore does not touch: in the mirror, but tracked neither before it, nor in the commit,
    nor in the tree restored. *)
Definition left_paths (d : MirrorDisk) (wip : option (string * string)) : gset string :=
  match wip with
  | Some (parent, t) => dom (md_files d) ∖ (md_index d ∪ dom (tree_of (commit_tree parent)) ∪ dom (tree_of t))
  | None => ∅
  end.

Definition with_client (s : Syncer) (d : MirrorDisk) (mixed left : gset string) (w : world) : world :=
  mkWorld (w_room w) (w_staged w) (w_records w) (w_events w) (Some (s, d)) (w_trees w) mixed left.

Definition fresh (d : MirrorDisk) : Prop :=
  md_marker d = None /\ md_git d = false /\ md_files d = ∅ /\ md_index d = ∅.

Inductive sync_step : world -> world -> Prop :=
| step_stage w e t p :
    w_staged w = None -> healthy e -> (N.of_nat (length (w_trees w)) < u64_max)%N -> tick_stage e (w_room w) = (t, p) ->
    sync_step w (mkWorld p t (w_records w) (w_events w) (w_client w) (stage_trees t p (w_trees w)) (w_mixed w) (w_left w))
| step_finish w t events records p :
    w_staged w = Some t -> (N.of_nat (length (w_trees w)) < u64_max)%N -> tick_finish t (w_room w) = (events, records, p) ->
    sync_step w (mkWorld p None (w_records w ++ records) (w_events w ++ events) (w_client w) (finish_trees p (w_trees w)) (w_mixed w) (w_left w))
| step_attach w e failure address t d0 s d s' d' :
    w_client w = None -> fresh d0 -> sync_open failure address t d0 = (Ok s, d) ->
    first_attach_if_empty e (rp_wip_ref (w_room w)) s d = (Ok (), s', d') ->
    sync_step w (with_client s' d' ∅ ∅ w)
| step_record w e r s d s' :
    w_client w = Some (s, d) -> sy_phase s = Idle -> r ∈ w_records w -> on_activity e (Some (rp_deltas (w_room w))) r s = Ok s' ->
    sync_step w (with_client s' d (w_mixed w) (w_left w) w)
| step_delta w e seq delta s d s' d' :
    w_client w = Some (s, d) -> sy_phase s = Fetched seq delta -> on_delta e seq delta s d = (Ok (), s', d') ->
    sync_step w (with_client s' d' (w_mixed w ∪ mixed_paths (w_trees w) (ad_seq delta) (md_files d) (md_files d')) (w_left w) w)
| step_restore w e seq s d s' d' :
    w_client w = Some (s, d) -> sy_phase s = Restoring seq -> mirror_reconcile e (rp_wip_ref (w_room w)) seq s d = (Ok (), s', d') ->
    sync_step w (with_client s' d' ∅ (left_paths d (rp_wip_ref (w_room w))) w)
| step_event w event s d :
    w_client w = Some (s, d) -> sy_phase s = Idle -> event ∈ w_events w ->
    sync_step w (with_client (on_worktree event s) d (w_mixed w) (w_left w) w)
| step_restart w failure s d s' d' :
    w_client w = Some (s, d) -> sync_open failure (sy_address s) (sy_transport s) d = (Ok s', d') ->
    sync_step w (with_client s' d' (w_mixed w) (w_left w) w).

(** ** What a mirror has *)

Definition path_ok (trees : list string) (seq : N) (files : tree) (f : string) : Prop :=
  exists j t, (seq <= N.of_nat j)%N /\ trees !! j = Some t /\ t <> "" /\ files !! f = tree_of t !! f.

Definition phase_ok (trees : list string) (phase : sync_phase) : Prop :=
  match phase with
  | Idle => True
  | Fetched seq delta => delta_ok trees delta /\ (seq < N.of_nat (length trees))%N
  | Restoring seq => (seq < N.of_nat (length trees))%N
  end.

Record client_ok (trees : list string) (mixed left : gset string) (s : Syncer) (d : MirrorDisk) : Prop := {
  ck_git : md_git d = true;
  ck_marker : md_marker d = Some (marker_text (sy_marker s));
  ck_session : mm_session_id (sy_marker s) = sa_session_id (sy_address s);
  ck_seq : (mm_last_seq (sy_marker s) < N.of_nat (length trees))%N;
  ck_phase : phase_ok trees (sy_phase s);
  ck_paths : forall f, f ∉ mixed -> f ∉ left -> path_ok trees (mm_last_seq (sy_marker s)) (md_files d) f }.

Record world_ok (w : world) : Prop := {
  wk_room : room_ok (w_room w) (w_staged w) (w_trees w);
  wk_records : forall r, r ∈ w_records w -> (ar_activity_seq r <= ticks_taken (w_room w))%N;
  wk_client : forall s d, w_client w = Some (s, d) -> client_ok (w_trees w) (w_mixed w) (w_left w) s d }.

Lemma phase_ok_grows trees trees' phase : grows trees trees' -> phase_ok trees phase -> phase_ok trees' phase.
Proof.
  intros [Hk Hl]. destruct phase as [|seq delta|seq]; simpl; [done| |lia]. intros [Hd ?]. split; [|lia]. by eapply delta_ok_keeps.
Qed.

Lemma client_ok_grows trees trees' mixed left s d : grows trees trees' -> client_ok trees mixed left s d -> client_ok trees' mixed left s d.
Proof.
  intros Hg [H1 H2 H3 H4 H5 H6]. pose proof Hg as [Hk Hl]. split; try done; [lia|by eapply phase_ok_grows|].
  intros f Hm Hf. destruct (H6 f Hm Hf) as (j & t & ? & ? & ? & ?). exists j, t. split_and!; auto.
Qed.

Lemma records_below w r : world_ok w -> r ∈ w_records w -> (ar_activity_seq r < N.of_nat (length (w_trees w)))%N.
Proof. intros [Hr Hs _] Hin. specialize (Hs r Hin). pose proof (ro_count _ _ _ Hr). destruct (staged_delta (w_staged w)); lia. Qed.

(** ** The mirror's handlers *)

Lemma find_tick_elem k s d : find_tick k s = Some d -> d ∈ ds_ticks s.
Proof.
  unfold find_tick. intros ([i x] & E & ->)%fmap_Some. apply list_find_Some in E as (E & _). by eapply list_elem_of_lookup_2.
Qed.

(** A fetched delta is one of the ring's, served whole. *)
Lemma fetch_delta_ok e store call_id s delta :
  fetch_delta e (Some store) call_id s = Ok delta -> exists d, d ∈ ds_ticks store /\ delta = whole d.
Proof.
  unfold fetch_delta. destruct (se_stream e); [done|]. unfold stream_agent_activity_delta. destruct (se_user e); [done|]. case_decide; [done|].
  unfold delta_for_call. destruct (ds_call_ticks store !! trim call_id) as [k|]; [|done].
  destruct (find_tick k store) as [d|] eqn:Ef; [|done].
  destruct (delta_frames_roundtrip (whole d)) as (_ & _ & Hr & _). unfold whole in Hr. rewrite Hr. intros [= <-].
  exists d. split; [by eapply find_tick_elem|done].
Qed.

Lemma delta_ok_whole trees d : delta_ok trees d -> delta_ok trees (whole d).
Proof. done. Qed.

Lemma on_activity_ok e w r s s' d :
  world_ok w -> w_client w = Some (s, d) -> r ∈ w_records w -> on_activity e (Some (rp_deltas (w_room w))) r s = Ok s' ->
  client_ok (w_trees w) (w_mixed w) (w_left w) s' d.
Proof.
  intros Hok Hc Hr. pose proof (wk_client _ Hok s d Hc) as Hcl. pose proof Hcl as [H1 H2 H3 H4 H5 H6]. unfold on_activity.
  destruct (decide_record r _) as [call_id seq|] eqn:Ed; [|by intros [= <-]].
  destruct (fetch_delta _ _ _ _) as [delta| |] eqn:Ef; [|done|done]. intros [= <-]. split; try done. simpl.
  apply fetch_delta_ok in Ef as (x & Hx & ->). split; [apply delta_ok_whole; by eapply ro_deltas, Hx; destruct Hok|].
  assert (seq = ar_activity_seq r) as ->; [|by apply records_below]. unfold decide_record in Ed. by repeat case_decide; simplify_eq.
Qed.

(** The outcomes of a delta that is handled without an error. *)
Lemma on_delta_cases e seq delta s d s' d' :
  on_delta e seq delta s d = (Ok (), s', d') ->
  (d' = d /\ (s' = with_marker (sy_marker s) Idle s \/ s' = with_marker (sy_marker s) (Restoring seq) s)) \/
  exists files, ad_prev_seq delta = mm_last_seq (sy_marker s) /\ git_apply (ad_patch delta) (md_files d) = inr files /\
    s' = with_marker (with_seq_marker (ad_seq delta) (sy_marker s)) Idle s /\
    d' = set_marker (marker_text (with_seq_marker (ad_seq delta) (sy_marker s))) (set_worktree_files files d).
Proof.
  unfold on_delta, apply_delta. case_decide; [intros [= <- <-]; auto|]. case_decide as Hp; [intros [= <- <-]; auto|].
  destruct (head_commit _ d) as [head| |]; [|done|done]. case_decide; [intros [= <- <-]; auto|].
  destruct (se_check e); [done|]. destruct (git_apply _ _) as [detail|files] eqn:Ea; [intros [= <- <-]; auto|].
  destruct (se_apply e); [done|]. unfold write_marker. destruct (se_marker e) as [[[n|] reason]|]; [done|done|]. intros [= <- <-].
  right. exists files. split_and!; try done.
Qed.

Lemma on_delta_ok e trees mixed left seq delta s d s' d' :
  client_ok trees mixed left s d -> sy_phase s = Fetched seq delta -> on_delta e seq delta s d = (Ok (), s', d') ->
  client_ok trees (mixed ∪ mixed_paths trees (ad_seq delta) (md_files d) (md_files d')) left s' d'.
Proof.
  intros [H1 H2 H3 H4 H5 H6] Hph. rewrite Hph in H5. destruct H5 as [(k & Hs & Hp & Hlt & Hpatch) Hseq].
  intros [(-> & Hs')|(files & Hprev & Ha & -> & ->)]%on_delta_cases.
  - destruct Hs' as [-> | ->]; split; try done; simpl; intros f Hm Hf; apply H6; set_solver.
  - split; try done; simpl; [rewrite Hs; lia|]. intros f Hm Hf.
    destruct Hpatch as [Hnil|(a & b & Hla & Hlb & Hna & Hnb & Hpat)].
    { rewrite Hnil in Ha. destruct (apply_empty (md_files d)) as [err Herr]. congruence. }
    rewrite Hpat in Ha. destruct (decide (files !! f = tree_of b !! f)) as [Hb|Hb].
    { exists (S k), b. split_and!; try done. lia. }
    assert (files !! f = md_files d !! f) as Hsame.
    { destruct (decide (files !! f = md_files d !! f)) as [|Hne]; [done|]. exfalso. apply Hm, elem_of_union_r. unfold mixed_paths.
      apply elem_of_filter. replace (N.to_nat (ad_seq delta)) with (S k) by lia. rewrite Hlb. simpl. split; [done|].
      rewrite elem_of_union, !elem_of_dom. destruct (files !! f); [by right; eexists|]. destruct (md_files d !! f); [by left; eexists|done]. }
    destruct (H6 f) as (j & t & Hj & Ht & Hnt & Hf'); [set_solver|done|].
    destruct (decide (j = k)) as [->|Hjk].
    + exfalso. apply Hb. simplify_eq. eapply apply_exact; [exact Ha|done].
    + exists j, t. split_and!; try done; [lia|]. by rewrite Hsame.
Qed.

Lemma checkout_lookup index target files f :
  checkout_files index target files !! f = match target !! f with Some c => Some c | None => if decide (f ∈ index) then None else files !! f end.
Proof.
  unfold checkout_files. destruct (target !! f) as [c|] eqn:E; [by apply lookup_union_Some_l|].
  rewrite lookup_union_r by done. rewrite map_lookup_filter. destruct (files !! f); simpl; [|by case_decide].
  case_decide; [rewrite option_guard_False; [done|naive_solver]|by rewrite option_guard_True].
Qed.

(** A restore that succeeds: what the destination is made of, and the marker. *)
Lemma reconcile_cases e remote seq s d s' d' :
  mirror_reconcile e remote seq s d = (Ok (), s', d') ->
  exists parent t, remote = Some (parent, t) /\
    s' = with_marker (mkMarker (mm_session_id (sy_marker s)) (mm_daemon_instance_id (sy_marker s)) (mm_project (sy_marker s)) seq parent) Idle s /\
    md_git d' = md_git d /\ md_marker d' = Some (marker_text (sy_marker s')) /\
    (forall f, md_files d' !! f = if decide (f ∈ left_paths d remote) then md_files d !! f else tree_of t !! f).
Proof.
  unfold mirror_reconcile, reconcile_commands. cbn [run_all]. unfold run_git. cbn [gi_args].
  destruct (se_command e (fetch_args _)); [done|].
  destruct (git_run (fetch_args _) remote d) as [|d1] eqn:E1; [done|]. apply run_fetch in E1 as (_ & wip & -> & ->).
  destruct (se_command e reset_args); [done|].
  destruct (git_run reset_args _ _) as [|d2] eqn:E2; [done|]. apply run_reset in E2 as (parent & t & Ew & Hpar & ->). simpl in Ew. simplify_eq.
  destruct (se_command e read_tree_args); [done|].
  destruct (git_run read_tree_args _ _) as [|d3] eqn:E3; [done|]. apply run_read_tree in E3 as (parent' & t' & Ew & ->). simpl in Ew. simplify_eq.
  unfold restore_recorded, record_restored, head_commit. simpl. destruct (se_rev_parse_after e); [done|]. unfold write_marker.
  destruct (se_marker e) as [[[n|] reason]|]; [done|done|]. intros [= <- <-]. exists parent', t'. split_and!; try done. simpl. intros f.
  rewrite !checkout_lookup. set (CT := tree_of (commit_tree parent')). set (T := tree_of t').
  assert (f ∈ dom (md_files d) ∖ (md_index d ∪ dom CT ∪ dom T) <-> is_Some (md_files d !! f) /\ f ∉ md_index d /\ CT !! f = None /\ T !! f = None) as Hl.
  { rewrite elem_of_difference, !elem_of_union, !elem_of_dom. rewrite !eq_None_not_Some. tauto. }
  destruct (T !! f) as [c|] eqn:ET; [rewrite decide_False; [done|]; rewrite Hl; naive_solver|].
  destruct (decide (f ∈ dom CT)) as [HC|HC].
  { rewrite decide_False; [done|]. rewrite Hl. intros (_ & _ & HCT & _). apply elem_of_dom in HC as [? ?]. congruence. }
  apply not_elem_of_dom in HC. rewrite HC. destruct (decide (f ∈ md_index d)) as [Hi|Hi]; [rewrite decide_False; [done|]; rewrite Hl; naive_solver|].
  destruct (md_files d !! f) eqn:Ef; [rewrite decide_True; [done|]; rewrite Hl; naive_solver|]. by case_decide.
Qed.

Lemma reconcile_ok e w seq s d s' d' :
  world_ok w -> w_client w = Some (s, d) -> sy_phase s = Restoring seq -> mirror_reconcile e (rp_wip_ref (w_room w)) seq s d = (Ok (), s', d') ->
  client_ok (w_trees w) ∅ (left_paths d (rp_wip_ref (w_room w))) s' d'.
Proof.
  intros Hok Hc Hph Hr. pose proof (wk_client _ Hok s d Hc) as [H1 H2 H3 H4 H5 H6]. rewrite Hph in H5. simpl in H5.
  destruct Hok as [[Hco Hlast Hcount _ _ Href] _ _].
  apply reconcile_cases in Hr as (parent & t & Hrem & -> & Hg & Hm & Hf).
  assert (last (w_trees w) = Some t /\ t <> "") as [Hl Hne] by (rewrite Hrem in Href; case_decide; [done|]; destruct Href as [q Hq]; by simplify_eq).
  split; try done; simpl; [congruence|]. intros f _ Hleft. exists (length (w_trees w) - 1), t. split_and!; try done.
  - lia.
  - rewrite <- Hl, last_lookup. f_equal. lia.
  - by rewrite Hf, decide_False.
Qed.

(** A first attach is a restore of the destination it has made a repository of. *)
Lemma first_attach_cases e remote s d s' d' :
  md_git d = false -> first_attach_if_empty e remote s d = (Ok (), s', d') ->
  exists d2, md_git d2 = true /\ md_files d2 = md_files d /\ mirror_reconcile e remote (mm_last_seq (sy_marker s)) s d2 = (Ok (), s', d').
Proof.
  intros Hg. unfold first_attach_if_empty. rewrite Hg. unfold first_attach_commands. cbn [app run_all]. unfold run_git at 1. cbn [gi_args].
  destruct (se_command e init_args); [done|]. destruct (git_run init_args remote d) as [|d1] eqn:E1; [done|]. apply run_init in E1.
  unfold run_git at 1. cbn [gi_args]. destruct (se_command e (remote_add_args _)); [done|].
  destruct (git_run (remote_add_args _) remote d1) as [|d2] eqn:E2; [done|]. apply run_remote_add in E2 as [_ E2].
  intros Hr. exists d2. subst. done.
Qed.

Lemma sync_open_fresh failure address t d0 s d :
  fresh d0 -> sync_open failure address t d0 = (Ok s, d) ->
  sy_phase s = Idle /\ mm_last_seq (sy_marker s) = 0%N /\ mm_session_id (sy_marker s) = sa_session_id (sy_address s) /\
  md_git d = false /\ md_files d = ∅.
Proof.
  intros (Hm & Hg & Hf & Hi). unfold sync_open, open_or_create, read_marker. rewrite Hm.
  destruct (is_adoptable d0); [|done]. unfold write_marker. destruct failure as [[[n|] reason]|]; [done|done|]. by intros [= <- <-].
Qed.

Lemma attach_ok e w failure address t d0 s d s' d' :
  world_ok w -> fresh d0 -> sync_open failure address t d0 = (Ok s, d) ->
  first_attach_if_empty e (rp_wip_ref (w_room w)) s d = (Ok (), s', d') ->
  client_ok (w_trees w) ∅ ∅ s' d'.
Proof.
  intros Hok Hfr Ho Ha. destruct (sync_open_fresh _ _ _ _ _ _ Hfr Ho) as (Hph & Hseq & Hses & Hg & Hf).
  apply first_attach_cases in Ha as (d2 & Hg2 & Hf2 & Hr); [|done].
  apply reconcile_cases in Hr as (parent & tr & Hrem & -> & Hg' & Hm & Hfiles).
  destruct Hok as [[Hco Hlast Hcount _ _ Href] _ _].
  assert (last (w_trees w) = Some tr /\ tr <> "") as [Hl Hne] by (rewrite Hrem in Href; case_decide; [done|]; destruct Href as [q Hq]; by simplify_eq).
  split; try done; simpl; [congruence|lia|]. intros f _ _. exists (length (w_trees w) - 1), tr. split_and!; try done.
  - lia.
  - rewrite <- Hl, last_lookup. f_equal. lia.
  - rewrite Hfiles, decide_False; [done|]. rewrite Hrem. simpl. rewrite Hf2, Hf, dom_empty_L. set_solver.
Qed.

Lemma restart_ok trees mixed left failure s d s' d' :
  client_ok trees mixed left s d -> sync_open failure (sy_address s) (sy_transport s) d = (Ok s', d') -> client_ok trees mixed left s' d'.
Proof.
  intros [H1 H2 H3 H4 H5 H6]. unfold sync_open, open_or_create, read_marker. rewrite H2, marker_roundtrip. simpl. rewrite H3.
  rewrite decide_False by (by intros []). intros [= <- <-]. by split.
Qed.

Lemma on_worktree_ok trees mixed left event s d : client_ok trees mixed left s d -> sy_phase s = Idle -> client_ok trees mixed left (on_worktree event s) d.
Proof. intros [H1 H2 H3 H4 H5 H6] Hph. unfold on_worktree. destruct (decide_worktree event); by split. Qed.

Lemma sync_step_ok w w' : sync_step w w' -> world_ok w -> world_ok w'.
Proof.
  intros Hstep Hok. pose proof Hok as [Hr Hs Hc].
  destruct Hstep as [w e t p Hst Hh Hb Ht|w t events records p Hst Hb Ht|w e failure address t d0 s d s' d' Hcl Hf Ho Ha|w e r s d s' Hcl Hph Hin Ha
    |w e seq delta s d s' d' Hcl Hph Ha|w e seq s d s' d' Hcl Hph Ha|w event s d Hcl Hph Hin|w failure s d s' d' Hcl Ho].
  - rewrite Hst in Hr. destruct (tick_stage_ok _ _ _ _ _ Hr Hh Hb Ht) as [Hr' Hg]. split; [done| |].
    + intros r Hin. simpl in Hin. specialize (Hs r Hin). simpl.
      unfold ticks_taken in *. by rewrite (tick_stage_last _ _ _ _ Ht).
    + intros s d Hcl. eapply client_ok_grows; [exact Hg|auto].
  - rewrite Hst in Hr. destruct (tick_finish_ok _ _ _ _ _ _ Hr Hb Ht) as (Hr' & Hg & Hle & Hrec). split; [done| |].
    + simpl. intros r [Hin|Hin]%elem_of_app; [specialize (Hs r Hin); lia|auto].
    + intros s d Hcl. eapply client_ok_grows; [exact Hg|auto].
  - split; [done|done|]. intros ? ? [= <- <-]. exact (attach_ok _ w _ _ _ _ _ _ _ _ Hok Hf Ho Ha).
  - split; [done|done|]. intros ? ? [= <- <-]. exact (on_activity_ok _ w _ _ _ _ Hok Hcl Hin Ha).
  - split; [done|done|]. intros ? ? [= <- <-]. eapply on_delta_ok; eauto.
  - split; [done|done|]. intros ? ? [= <- <-]. exact (reconcile_ok _ w _ _ _ _ _ Hok Hcl Hph Ha).
  - split; [done|done|]. intros ? ? [= <- <-]. apply on_worktree_ok; eauto.
  - split; [done|done|]. intros ? ? [= <- <-]. eapply restart_ok; eauto.
Qed.

Lemma new_world_ok measured attachments : world_ok (new_world measured attachments).
Proof. split; simpl; [split; simpl; try done; set_solver|set_solver|done]. Qed.

Lemma sync_reachable_ok measured attachments w : rtc sync_step (new_world measured attachments) w -> world_ok w.
Proof.
  intros Hr. pose proof (new_world_ok measured attachments) as Hok.
  induction Hr as [|w w1 w2 Hstep Hr IH]; [done|]. by apply IH, (sync_step_ok w).
Qed.

(** C3. However ticks, deliveries, losses, repetitions, restores and restarts interleave, as long as the
    room's git work and the publication of its refs succeed, none of the mirror's handlers has
    failed and the mirror was attached to a fresh destination: the mirror's marker on disk is the
    one in memory, and never claims a tick whose changes the mirror lacks. Every file is as it was in the tree of the claimed tick or of a
    later one, but for files git merged a patch into that were not as the patch's own, and untracked
    files a restore left behind. A mirror at the newest tick has the session's newest tree, with the
    same exceptions. *)
Theorem mirror_never_claims_more measured attachments w s d :
  rtc sync_step (new_world measured attachments) w -> w_client w = Some (s, d) ->
  let seq := mm_last_seq (sy_marker s) in
  read_marker d = Ok (Some (sy_marker s)) /\ (seq < N.of_nat (length (w_trees w)))%N /\
  (forall f, f ∉ w_mixed w -> f ∉ w_left w ->
     exists j t, (seq <= N.of_nat j)%N /\ w_trees w !! j = Some t /\ t <> "" /\ md_files d !! f = tree_of t !! f) /\
  ((seq + 1)%N = N.of_nat (length (w_trees w)) -> forall f, f ∉ w_mixed w -> f ∉ w_left w ->
     md_files d !! f = tree_of (current_tree (w_staged w) (w_room w)) !! f).
Proof.
  intros Hr Hc seq. pose proof (sync_reachable_ok _ _ _ Hr) as Hok. pose proof (wk_client _ Hok s d Hc) as [H1 H2 H3 H4 H5 H6].
  split_and!; [unfold read_marker; by rewrite H2, marker_roundtrip|done|exact H6|].
  intros Hnew f Hm Hl. destruct (H6 f Hm Hl) as (j & t & Hj & Ht & Hne & Hf). rewrite Hf. f_equal. f_equal.
  pose proof (ro_last _ _ _ (wk_room _ Hok)) as Hlast. rewrite last_lookup in Hlast.
  pose proof (lookup_lt_Some _ _ _ Ht). replace (pred (length (w_trees w))) with j in Hlast by (unfold seq in *; lia). congruence.
Qed.

(** A mirror that is as the tree a delta was taken from takes it, and is then as the tree it leads to. *)
Theorem delta_in_step_applies e a b k delta s d :
  tree_of a <> tree_of b -> (forall f, tree_of a !! f <> tree_of b !! f -> md_files d !! f = tree_of a !! f) ->
  ad_seq delta = (k + 1)%N -> ad_prev_seq delta = k -> ad_patch delta = git_diff a b -> mm_last_seq (sy_marker s) = k ->
  md_head d = Some (ad_base_commit delta) ->
  se_rev_parse e = None -> se_check e = None -> se_apply e = None -> se_marker e = None ->
  exists s' d', on_delta e (k + 1) delta s d = (Ok (), s', d') /\ sy_phase s' = Idle /\ mm_last_seq (sy_marker s') = (k + 1)%N /\
    (forall f, md_files d !! f = tree_of a !! f -> md_files d' !! f = tree_of b !! f) /\
    (forall f, tree_of a !! f = tree_of b !! f -> md_files d' !! f = md_files d !! f).
Proof.
  intros Hne Hclean Hs Hp Hpat Hk Hh E1 E2 E3 E4. destruct (apply_clean a b (md_files d) Hne Hclean) as [files Ha].
  unfold on_delta, apply_delta, head_commit, write_marker. rewrite Hs, Hp, Hk, Hh, E1, E2, E3, E4, Hpat, Ha.
  rewrite decide_False by lia. rewrite decide_False by (by intros []). rewrite decide_False by (by intros []).
  do 2 eexists. split; [done|]. simpl. split_and!; [done|done| |].
  - intros f Hf. by eapply apply_exact.
  - intros f Hf. by eapply apply_untouched.
Qed.

(** ** What the synchronisation should not do *)

(** A record whose delta has aged out of the ring ends the run instead of restoring the mirror. *)
Lemma aged_out_ends_sync e store r s seq :
  se_stream e = None -> se_user e = None -> (mm_last_seq (sy_marker s) < ar_activity_seq r)%N -> trim (ar_call_id r) = ar_call_id r -> ar_call_id r <> "" ->
  ds_call_ticks store !! ar_call_id r = Some seq -> find_tick seq store = None ->
  exists message, on_activity e (Some store) r s = Err (SyncRpc STREAM_DELTA_METHOD "NOT_FOUND" message).
Proof.
  intros He Hu Hseq Htr Hc Hk Hf. unfold on_activity, decide_record, NO_TICK. rewrite !decide_False by (done || lia).
  unfold fetch_delta, stream_agent_activity_delta. rewrite He, Hu, Htr, decide_False by done. unfold delta_for_call. rewrite Hk, Hf. simpl. eauto.
Qed.

(** The empty delta of a tick that changed nothing is refused by git, so the mirror is restored. *)
Lemma unchanged_tick_restores e k delta s d :
  ad_patch delta = [] -> ad_seq delta = (k + 1)%N -> ad_prev_seq delta = k -> mm_last_seq (sy_marker s) = k ->
  md_head d = Some (ad_base_commit delta) -> se_rev_parse e = None -> se_check e = None ->
  on_delta e (k + 1) delta s d = (Ok (), with_marker (sy_marker s) (Restoring (k + 1)) s, d).
Proof.
  intros Hpat Hs Hp Hk Hh E1 E2. destruct (apply_empty (md_files d)) as [err Herr].
  unfold on_delta, apply_delta, head_commit. rewrite Hs, Hp, Hk, Hh, E1, E2, Hpat, Herr.
  rewrite decide_False by lia. rewrite decide_False by (by intros []). by rewrite decide_False by (by intros []).
Qed.

(** A room opened again counts its ticks from one, and a mirror that is ahead of that takes them as
    applied. *)
Lemma reopened_room_is_ignored e store r s :
  (0 < ar_activity_seq r <= mm_last_seq (sy_marker s))%N -> on_activity e store r s = Ok s.
Proof. intros Hr. unfold on_activity, decide_record, NO_TICK. rewrite decide_False, decide_True by lia. done. Qed.

(** A first attach that was stopped after [git init] is not resumed: the destination is taken for a
    mirror, and every restore fails. *)
Lemma interrupted_attach_never_recovers e remote s d :
  md_git d = true -> md_remote d = None ->
  first_attach_if_empty e remote s d = (Ok (), s, d) /\
  forall seq s' d', mirror_reconcile e remote seq s d <> (Ok (), s', d').
Proof.
  intros Hg Hr. split; [unfold first_attach_if_empty; by rewrite Hg|]. intros seq s' d'.
  unfold mirror_reconcile, reconcile_commands. cbn [run_all]. unfold run_git at 1. cbn [gi_args].
  destruct (se_command e (fetch_args _)); [done|]. destruct (git_run (fetch_args _) remote d) as [|d1] eqn:E1; [done|].
  apply run_fetch in E1 as ([u Hu] & _). congruence.
Qed.

(** A restore records the tick that asked for it, also when the published tree is older. *)
Lemma restore_claims_what_was_asked e remote seq s d s' d' :
  mirror_reconcile e remote seq s d = (Ok (), s', d') -> mm_last_seq (sy_marker s') = seq.
Proof. intros (parent & t & _ & -> & _)%reconcile_cases. done. Qed.

(** A tick whose diff failed moves on to the new tree and takes no number: no delta has the change, and
    no gap tells. *)
Lemma failed_diff_leaves_no_gap e p snapshot :
  rp_checkout p = true -> te_panics e = false -> te_wip_tree e <> "" -> (forall a b, te_diff e a b = None) ->
  let '(produced, p1) := stage_uncommitted_state snapshot e p in
  let '(seq, p2) := keep_uncommitted_state produced p1 in
  seq = None /\ rp_previous_wip_tree p2 = te_wip_tree e /\ rp_last_delta_seq p2 = rp_last_delta_seq p /\ rp_deltas p2 = rp_deltas p.
Proof.
  intros Hc Hp Ht Hd. unfold stage_uncommitted_state. rewrite Hc, Hp. simpl.
  assert (tick_delta (te_diff e) (with_tree (rp_previous_wip_tree p) (rp_previous p)) (with_tree (te_wip_tree e) snapshot) (next_tick (rp_last_delta_seq p)) = None) as ->.
  { unfold tick_delta. repeat case_match; try done. by rewrite Hd. }
  simpl. rewrite decide_False by done. destruct (_ || te_released e); [done|]. unfold publish_wip_ref. by destruct (te_publishes e).
Qed.

(** A change that leaves the counts of the measurement as they were is given an empty delta. *)
Lemma equal_counts_hide_a_change e p log r :
  rp_checkout p = true -> te_measure e = Taken (rp_previous p) (rp_previous_attachments p) -> rp_previous_wip_tree p <> "" ->
  ws_head_commit (rp_previous p) <> "" -> te_log e = Some log -> filter (fun x => already_broadcast (rp_broadcast_rows p) x = false) log = [r] ->
  exists t p1 p2, tick_stage e p = (Some t, p1) /\ tick_finish t p1 = ([], [with_seq (next_tick (rp_last_delta_seq p)) r], p2) /\
    rp_deltas p2 = attribute_record (record_delta (empty_delta (next_tick (rp_last_delta_seq p)) (ws_head_commit (rp_previous p))) (rp_deltas p))
                     (with_seq (next_tick (rp_last_delta_seq p)) r).
Proof.
  intros Hc Hm Ht Hh Hlog Hr. unfold tick_stage. rewrite Hm, decide_False by done.
  rewrite !bool_decide_false by (by intros []). simpl. do 3 eexists. split; [done|]. unfold tick_finish. simpl.
  unfold broadcast_new_activity. rewrite Hlog. unfold attribution_target. rewrite Hc. simpl. unfold tick_activity. rewrite Hr.
  rewrite decide_True by done. simpl. done.
Qed.

(** A tick that changed the checkout while no call was new tells nobody of its delta. *)
Lemma tick_without_calls_is_silent t p log :
  sg_log t = Some log -> (forall x, x ∈ log -> already_broadcast (rp_broadcast_rows p) x = true) -> (tick_finish t p).1.2 = [].
Proof.
  intros Hl Hall. assert (forall q d h, rp_broadcast_rows q = rp_broadcast_rows p -> (broadcast_new_activity (sg_log t) d h q).1 = []) as Hb.
  { intros q d h Hq. unfold broadcast_new_activity. rewrite Hl, Hq. unfold tick_activity.
    assert (filter (fun r => already_broadcast (rp_broadcast_rows p) r = false) log = []) as ->; [|done].
    clear Hl. induction log as [|x log IH]; [done|]. rewrite filter_cons, decide_False; [apply IH; set_solver|]. rewrite Hall by set_solver. done. }
  unfold tick_finish. destruct (sg_announcement t) as [| |measured attachments events produced].
  1,2: specialize (Hb p None (sg_head_commit t) eq_refl); destruct (broadcast_new_activity _ _ _ _); simpl in *; by subst.
  destruct (keep_uncommitted_state produced p) as [seq p1] eqn:Ek.
  assert (rp_broadcast_rows p1 = rp_broadcast_rows p) as Hrows.
  { unfold keep_uncommitted_state in Ek. by repeat (case_match; simplify_eq/=). }
  set (q := mkPoll _ _ _ _ _ _ _ _ _). specialize (Hb q seq (sg_head_commit t) Hrows).
  destruct (broadcast_new_activity _ _ _ q); simpl in *; by subst.
Qed.

End Sync.
