(* ===== verification/SessionSyncCases.v ===== *)
(** * Runs of a room and its mirror

    An instance of [MirrorGit] over a few named trees, with a strict [git apply], and runs on
    it: a mirror in step with its session, a file a restore leaves behind, a tick claimed
    although its tree was never published, and slices that overlap or reach nobody. *)

From Stdlib Require Import Strings.Byte.
From S2P Require Import Prelude Text Framing Utf8 Graph RpcStatus ActivityDelta ActivityDeltaSpec SessionRoom SessionMirror SessionRoomSpec SessionSyncSpec.

(** ** An instance *)

(** Bytes with their length before them, in unary. *)
Definition enc (b : bytes) : bytes := replicate (length b) x01 ++ [x00] ++ b.

Fixpoint dec_len (b : bytes) : option (nat * bytes) :=
  match b with
  | x00 :: b => Some (0, b)
  | x01 :: b => '(n, b) ← dec_len b; Some (S n, b)
  | _ => None
  end.

Definition dec (b : bytes) : option (bytes * bytes) := '(n, b) ← dec_len b; Some (take n b, drop n b).

Lemma dec_enc b rest : dec (enc b ++ rest) = Some (b, rest).
Proof.
  unfold dec, enc. rewrite <- !(assoc_L (++)). simpl.
  assert (forall n, dec_len (replicate n x01 ++ x00 :: b ++ rest) = Some (n, b ++ rest)) as ->.
  { induction n as [|n IH]; [done|]. simpl. by rewrite IH. }
  simpl. by rewrite take_app_length, drop_app_length.
Qed.

Definition case_tree (name : string) : tree :=
  if decide (name = "t1") then {["a" := "1"]}
  else if decide (name = "t2") then <["new" := "x"]> {["a" := "1"]}
  else if decide (name = "t3") then {["a" := "2"]} else ∅.

Definition touched (a b : tree) : gset string := filter (fun f => a !! f <> b !! f) (dom a ∪ dom b).

Definition case_diff (a b : string) : bytes := enc (text_bytes a) ++ text_bytes b.

Definition patched (a b files : tree) : tree :=
  filter (fun kv => kv.1 ∈ touched a b) b ∪ filter (fun kv => kv.1 ∉ touched a b) files.

Definition case_apply (patch : bytes) (files : tree) : string + tree :=
  match dec patch with
  | None => inl "error: No valid patches in input"
  | Some (a, b) =>
      let a := case_tree (bytes_text a) in
      let b := case_tree (bytes_text b) in
      if decide (set_Forall (fun f => files !! f = a !! f) (touched a b)) then inr (patched a b files) else inl "error: patch does not apply"
  end.

Lemma touched_spec (a b : tree) f : f ∈ touched a b <-> a !! f <> b !! f.
Proof.
  unfold touched. rewrite elem_of_filter, elem_of_union, !elem_of_dom. split; [by intros [? _]|]. intros Hne. split; [done|].
  destruct (a !! f); [by left; eexists|]. destruct (b !! f); [by right; eexists|done].
Qed.

Lemma patched_lookup (a b files : tree) f : patched a b files !! f = if decide (f ∈ touched a b) then b !! f else files !! f.
Proof.
  unfold patched. case_decide as Hf.
  - rewrite lookup_union_l; [|rewrite map_lookup_filter_None; right; naive_solver].
    rewrite map_lookup_filter. destruct (b !! f); [|done]. simpl. by rewrite option_guard_True.
  - rewrite lookup_union_r; [|rewrite map_lookup_filter_None; right; naive_solver].
    rewrite map_lookup_filter. destruct (files !! f); [|done]. simpl. by rewrite option_guard_True.
Qed.

Lemma case_apply_diff a b files :
  case_apply (case_diff a b) files =
    if decide (set_Forall (fun f => files !! f = case_tree a !! f) (touched (case_tree a) (case_tree b)))
    then inr (patched (case_tree a) (case_tree b) files) else inl "error: patch does not apply".
Proof. unfold case_apply, case_diff. by rewrite dec_enc, !bytes_text_bytes. Qed.

Definition case_run (args : list string) (remote : option (string * string)) (d : MirrorDisk) : string + MirrorDisk :=
  match args with
  | [_; _] => inr (mkDisk (md_exists d) (md_marker d) true (md_remote d) (md_head d) (md_index d) (md_files d) (md_wip d))
  | [x; y; z] =>
      if decide (x = "fetch") then
        match md_remote d, remote with
        | Some _, Some wip => inr (mkDisk (md_exists d) (md_marker d) (md_git d) (md_remote d) (md_head d) (md_index d) (md_files d) (Some wip))
        | _, _ => inl "fatal: could not read from remote repository"
        end
      else
        match md_wip d with
        | Some (parent, wip) =>
            if decide (parent = "") then inl "fatal: ambiguous argument"
            else inr (mkDisk (md_exists d) (md_marker d) (md_git d) (md_remote d) (Some parent) (dom (case_tree parent))
                        (checkout_files (md_index d) (case_tree parent) (md_files d)) (md_wip d))
        | None => inl "fatal: ambiguous argument"
        end
  | [x; y; z; url] =>
      if decide (x = "remote") then
        match md_remote d with
        | None => inr (mkDisk (md_exists d) (md_marker d) (md_git d) (Some url) (md_head d) (md_index d) (md_files d) (md_wip d))
        | Some _ => inl "error: remote origin already exists."
        end
      else
        match md_wip d with
        | Some (parent, wip) =>
            inr (mkDisk (md_exists d) (md_marker d) (md_git d) (md_remote d) (md_head d) (dom (case_tree wip))
                   (checkout_files (md_index d) (case_tree wip) (md_files d)) (md_wip d))
        | None => inl "fatal: not a tree object"
        end
  | _ => inl "git: not a git command"
  end.

Definition case_marker (m : MirrorMarker) : bytes :=
  enc (text_bytes (mm_session_id m)) ++ enc (text_bytes (mm_daemon_instance_id m)) ++ enc (text_bytes (mm_project m)) ++
  enc (text_bytes (mm_last_head_commit m)) ++ replicate (N.to_nat (mm_last_seq m)) x01.

Definition case_parse (b : bytes) : string + MirrorMarker :=
  match
    '(s, b) ← dec b; '(i, b) ← dec b; '(p, b) ← dec b; '(h, b) ← dec b;
    Some (mkMarker (bytes_text s) (bytes_text i) (bytes_text p) (N.of_nat (length b)) (bytes_text h))
  with
  | Some m => inr m
  | None => inl "EOF while parsing"
  end.

#[export] Program Instance case_git : MirrorGit := {
  tree_of := case_tree;
  commit_tree c := c;
  git_diff := case_diff;
  git_apply := case_apply;
  git_run := case_run;
  unborn_head := "";
  marker_text := case_marker;
  marker_parse := case_parse;
}.
Next Obligation. intros a b f files files'. rewrite case_apply_diff. case_decide; [|done]. intros [= <-] Hf. rewrite patched_lookup, decide_False; [done|]. rewrite touched_spec. intros Hn. by apply Hn. Qed.
Next Obligation.
  intros a b f files files'. rewrite case_apply_diff. case_decide; [|done]. intros [= <-] Hf. rewrite patched_lookup, Hf.
  case_decide as Ht; [done|]. rewrite touched_spec in Ht. by destruct (decide (case_tree a !! f = case_tree b !! f)).
Qed.
Next Obligation. intros a b files _ Hc. rewrite case_apply_diff, decide_True; [eauto|]. intros f Hf%touched_spec. auto. Qed.
Next Obligation. intros files. by eexists. Qed.
Next Obligation. by intros remote d d' [= <-]. Qed.
Next Obligation. intros url remote d d'. simpl. destruct (md_remote d) eqn:E; [done|]. by intros [= <-]. Qed.
Next Obligation. intros id remote d d'. simpl. destruct (md_remote d), remote; try done. intros [= <-]. eauto. Qed.
Next Obligation. intros remote d d'. simpl. destruct (md_wip d) as [[parent wip]|]; [|done]. case_decide; [done|]. intros [= <-]. eauto 6. Qed.
Next Obligation. intros remote d d'. simpl. destruct (md_wip d) as [[parent wip]|]; [|done]. intros [= <-]. eauto. Qed.
Next Obligation.
  intros [s i p q h]. unfold case_parse, case_marker. simpl. rewrite !dec_enc. simpl. rewrite dec_enc. simpl. rewrite dec_enc. simpl. rewrite dec_enc. simpl.
  by rewrite !bytes_text_bytes, length_replicate, N2Nat.id.
Qed.

(** ** Runs *)

Definition measured (untracked : N) : WorktreeSnapshot := mkSnapshot "t1" "main" [] 0 0 0 untracked "".

(** A tick with nothing failing, but for a publication that may. *)
Definition tick (publishes : bool) (untracked : N) (wip_tree : string) (log : list AgentActivityRecord) : tick_env :=
  mkTickEnv (Some log) (Taken (measured untracked) []) "t1" true true wip_tree (fun a b => Some (case_diff a b)) publishes false false 0.

Definition call (id : string) : AgentActivityRecord :=
  mkActivity id "Write" JNull "completed" JNull "" 0 0 "claude-cli" "t1" 0 [].

Definition smoothly : sync_env := mkSyncEnv None None None (fun _ => None) None None None None.
Definition address : SessionAddress := mkAddress "s" "p" "/w" "d".
Definition transport : GitTransport := mkTransport "http://d" (AccessToken "x").
Definition empty_dest : MirrorDisk := mkDisk false None false None None ∅ ∅ None.

Lemma tick_healthy untracked wip_tree log : healthy (tick true untracked wip_tree log).
Proof. split_and!; try done. by intros snapshot attachments [= <- <-]. Qed.

(** Steps, computed. *)
Definition stage_w (e : tick_env) (w : world) : world :=
  let '(t, p) := tick_stage e (w_room w) in
  mkWorld p t (w_records w) (w_events w) (w_client w) (stage_trees t p (w_trees w)) (w_mixed w) (w_left w).

Definition finish_w (w : world) : world :=
  match w_staged w with
  | Some t =>
      let '(events, records, p) := tick_finish t (w_room w) in
      mkWorld p None (w_records w ++ records) (w_events w ++ events) (w_client w) (finish_trees p (w_trees w)) (w_mixed w) (w_left w)
  | None => w
  end.

Definition attach_w (w : world) : world :=
  match sync_open None address transport empty_dest with
  | (Ok s, d) => match first_attach_if_empty smoothly (rp_wip_ref (w_room w)) s d with (Ok _, s, d) => with_client s d ∅ ∅ w | _ => w end
  | _ => w
  end.

(** The client runs until it is idle again. *)
Definition record_w (r : AgentActivityRecord) (w : world) : world :=
  match w_client w with
  | Some (s, d) => match on_activity smoothly (Some (rp_deltas (w_room w))) r s with Ok s => with_client s d (w_mixed w) (w_left w) w | _ => w end
  | None => w
  end.

Definition handle_w (w : world) : world :=
  match w_client w with
  | Some (s, d) =>
      match sy_phase s with
      | Fetched seq delta =>
          match on_delta smoothly seq delta s d with
          | (Ok _, s', d') => with_client s' d' (w_mixed w ∪ mixed_paths (w_trees w) (ad_seq delta) (md_files d) (md_files d')) (w_left w) w
          | _ => w
          end
      | Restoring seq =>
          match mirror_reconcile smoothly (rp_wip_ref (w_room w)) seq s d with
          | (Ok _, s', d') => with_client s' d' ∅ (left_paths d (rp_wip_ref (w_room w))) w
          | _ => w
          end
      | Idle => w
      end
  | None => w
  end.

(** A new session, its room seeded, and a mirror attached. *)
Definition opened : world := Eval vm_compute in stage_w (tick true 0 "t1" []) (new_world (measured 0) []).
Definition seeded : world := Eval vm_compute in finish_w opened.
Definition attached : world := Eval vm_compute in attach_w seeded.
(** The agent creates a file: a tick takes it up, and the mirror follows. *)
Definition staged1 : world := Eval vm_compute in stage_w (tick true 1 "t2" [call "c"]) attached.
Definition ticked1 : world := Eval vm_compute in finish_w staged1.
Definition fetched1 : world := Eval vm_compute in record_w (with_seq 1 (call "c")) ticked1.
Definition followed1 : world := Eval vm_compute in handle_w fetched1.

Lemma step_to w w1 w2 : sync_step w w1 -> w1 = w2 -> sync_step w w2.
Proof. by intros ? <-. Qed.

#[local] Ltac evaluated := vm_compute; reflexivity.
#[local] Ltac stage_to e := eapply step_to; [apply (step_stage _ e); [reflexivity|apply tick_healthy|evaluated|evaluated]|evaluated].
#[local] Ltac finish_to := eapply step_to; [eapply step_finish; [reflexivity|evaluated|evaluated]|evaluated].
#[local] Ltac record_to r := eapply step_to; [eapply (step_record _ smoothly r); [reflexivity|reflexivity|vm_compute; set_solver|evaluated]|evaluated].
#[local] Ltac delta_to := eapply step_to; [eapply (step_delta _ smoothly); [reflexivity|reflexivity|evaluated]|evaluated].
#[local] Ltac restore_to := eapply step_to; [eapply (step_restore _ smoothly); [reflexivity|reflexivity|evaluated]|evaluated].

Lemma followed1_reachable : rtc sync_step (new_world (measured 0) []) followed1.
Proof.
  eapply (rtc_l _ _ opened); [stage_to (tick true 0 "t1" [])|].
  eapply (rtc_l _ _ seeded); [finish_to|].
  eapply (rtc_l _ _ attached).
  { eapply step_to; [eapply (step_attach _ smoothly None address transport empty_dest); [reflexivity|repeat split|evaluated|evaluated]|evaluated]. }
  eapply (rtc_l _ _ staged1); [stage_to (tick true 1 "t2" [call "c"])|].
  eapply (rtc_l _ _ ticked1); [finish_to|].
  eapply (rtc_l _ _ fetched1); [record_to (with_seq 1 (call "c"))|].
  eapply (rtc_l _ _ followed1); [delta_to|]. apply rtc_refl.
Qed.

Lemma mirror_never_claims_more_witness :
  exists s d, w_client followed1 = Some (s, d) /\ w_mixed followed1 = ∅ /\ w_left followed1 = ∅ /\
    mm_last_seq (sy_marker s) = 1%N /\ forall f, md_files d !! f = case_tree "t2" !! f.
Proof.
  destruct (w_client followed1) as [[s d]|] eqn:E; [|discriminate]. exists s, d. split; [reflexivity|].
  split; [reflexivity|]. split; [reflexivity|]. split; [vm_compute in E; injection E as <- <-; reflexivity|]. intros f.
  destruct (mirror_never_claims_more (measured 0) [] followed1 s d followed1_reachable E) as (_ & _ & _ & Hnew).
  refine (Hnew _ f (not_elem_of_empty f) (not_elem_of_empty f)). vm_compute in E. injection E as <- <-. reflexivity.
Defined.

(** ** A file that is left behind *)

Definition staged2 : world := Eval vm_compute in stage_w (tick true 0 "t1" [call "c"; call "c2"]) followed1.
Definition ticked2 : world := Eval vm_compute in finish_w staged2.
Definition staged3 : world := Eval vm_compute in stage_w (tick true 2 "t3" [call "c"; call "c2"; call "c3"]) ticked2.
Definition ticked3 : world := Eval vm_compute in finish_w staged3.
Definition fetched3 : world := Eval vm_compute in record_w (with_seq 3 (call "c3")) ticked3.
Definition gap3 : world := Eval vm_compute in handle_w fetched3.
Definition restored3 : world := Eval vm_compute in handle_w gap3.

Lemma restored3_reachable : rtc sync_step (new_world (measured 0) []) restored3.
Proof.
  etrans; [exact followed1_reachable|].
  eapply (rtc_l _ _ staged2); [stage_to (tick true 0 "t1" [call "c"; call "c2"])|].
  eapply (rtc_l _ _ ticked2); [finish_to|].
  eapply (rtc_l _ _ staged3); [stage_to (tick true 2 "t3" [call "c"; call "c2"; call "c3"])|].
  eapply (rtc_l _ _ ticked3); [finish_to|].
  eapply (rtc_l _ _ fetched3); [record_to (with_seq 3 (call "c3"))|].
  eapply (rtc_l _ _ gap3); [delta_to|].
  eapply (rtc_l _ _ restored3); [restore_to|]. apply rtc_refl.
Qed.

(** A file the session created and deleted again, the deletion's broadcast being lost, stays in the
    mirror: git applied its creation without tracking it, and a restore removes tracked files only. *)
Lemma deleted_file_survives_restore :
  rtc sync_step (new_world (measured 0) []) restored3 /\
  exists s d, w_client restored3 = Some (s, d) /\ (mm_last_seq (sy_marker s) + 1)%N = N.of_nat (length (w_trees restored3)) /\
    rp_wip_ref (w_room restored3) = Some ("t1", "t3") /\ case_tree "t3" !! "new" = None /\ md_files d !! "new" = Some "x".
Proof.
  split; [exact restored3_reachable|]. do 2 eexists. split; [reflexivity|]. vm_compute. repeat split.
Qed.

(** ** A tick that is claimed but not there *)

(** The third tick's tree could not be published: the restore brings the second one's. *)
Definition unpublished3 : world := Eval vm_compute in handle_w (handle_w (record_w (with_seq 3 (call "c3"))
  (finish_w (stage_w (tick false 2 "t3" [call "c"; call "c2"; call "c3"]) ticked2)))).

(** The mirror then claims the tick, whose change it does not have, and will not ask for it again. *)
Lemma unpublished_tree_is_claimed :
  exists s d, w_client unpublished3 = Some (s, d) /\ mm_last_seq (sy_marker s) = 3%N /\ rp_last_delta_seq (w_room unpublished3) = Some 3%N /\
    rp_previous_wip_tree (w_room unpublished3) = "t3" /\ case_tree "t3" !! "a" = Some "2" /\ md_files d !! "a" = Some "1".
Proof. do 2 eexists. split; [reflexivity|]. vm_compute. repeat split. Qed.

(** ** A restore that is cut short *)

(** The last command of a restore cannot be run. *)
Definition cut_short : sync_env :=
  mkSyncEnv None None None (fun args => if decide (args = read_tree_args) then Some (GitUnavailable "git read-tree" "killed") else None) None None None None.

(** A restore that fails between its last two commands ends the run with the checkout at the commit
    alone; the next run takes it for a mirror at the tick it was at, and restores nothing. *)
Lemma cut_restore_is_claimed :
  exists s d s1 d1 err,
    w_client restored3 = Some (s, d) /\ md_files d !! "a" = case_tree "t3" !! "a" /\
    mirror_reconcile cut_short (rp_wip_ref (w_room restored3)) (mm_last_seq (sy_marker s)) s d = (Err err, s1, d1) /\
    exists s2, sync_open None address transport d1 = (Ok s2, d1) /\ first_attach_if_empty smoothly (rp_wip_ref (w_room restored3)) s2 d1 = (Ok (), s2, d1) /\
      mm_last_seq (sy_marker s2) = 3%N /\ md_files d1 !! "a" <> case_tree "t3" !! "a".
Proof.
  do 5 eexists. split; [reflexivity|]. split; [reflexivity|]. split; [vm_compute; reflexivity|].
  eexists. split; [vm_compute; reflexivity|]. split; [vm_compute; reflexivity|]. split; [reflexivity|]. by vm_compute.
Qed.
